(* ===== verification/_CoqProject ===== *)
-Q . S2P
Prelude.v
Prog.v
Libc.v
Regex.v
Http.v
Opt.v
Posix.v
Util.v
Demo.v
Connection.v
Log.v
Server.v
Parsing.v
ConnType.v
Transfer.v
Locks.v
Handlers.v
Startup.v
Serve.v
Quirks.v
Starter.v
StarterRuns.v
Pools.v
Alone.v
PoolsTerm.v
Paced.v
Queue.v
QueueInv.v
PoolTrace.v
Threadpool.v
ThreadpoolInv.v
PoolHist.v
PoolRuns.v
PoolEnds.v
Listener.v
IoEvents.v
AuditLog.v
Shared.v
SharedRules.v
SharedCalls.v
Linear.v
LinearRuns.v
Robust.v
RobustRuns.v
FullServer.v
FullRuns.v
Listening.v
MainRuns.v
Rwlock.v
RwlockInv.v
RwlockRuns.v
RwlockEnds.v
Trials.v
TrialsInv.v
TrialsRuns.v
Condvars.v
CondvarsInv.v
MemParse.v
Explore.v
Threads.v
Usage.v
