(* ===== verification/Prelude.v ===== *)
(** * A multi-threaded HTTP/1.1 file server, verified

    The program is the C server of src/src: [main] parses its options, opens
    the audit log, claims a directory of lockfiles, creates a pool of worker
    threads that share a bounded queue, listens on a TCP port and hands every
    accepted connection to the pool.  A worker parses one request, takes a
    flock on a lockfile named after the URI, reads or replaces the file in the
    working directory, answers, writes one line to the audit log while it holds
    the lock, and closes the connection.

    ** How the model is built

    A C function is one Rocq function with the source's name.  Functions with
    effects are interaction trees over the events of their world (Prog.v): an
    event is one system or library call, or, for the code that runs
    concurrently, one read or write of shared memory, one semaphore
    operation, one malloc or one free.  A [Kernel] instance says what an event does to the world, or
    that it blocks.  Failures are part of the world: lists of faults decide
    which calls fail and how (short transfers, EINTR, errors, allocation; for
    the audit stream, prints and flushes of which only a first part gets to the
    file), so a theorem about all worlds is about all failures.  Loops are [ITree.iter]
    or structural recursion; nothing in the programs has fuel except
    [header_loop] and [opt_loop], whose bounds (the length of the text, of the
    command line) are proved to be enough.  Sequential theorems are total
    ([wpt]: the run finishes in a state such that ...); concurrent ones range
    over every reachable state of every interleaving ([reachable]) and, where
    they say that something happens, over the states in which nothing can move
    ([stuck]); for the server as a whole every run is proved to get there.
    Integers are [Z] with conversions and wrap-around written out ([to_s64],
    [to_s32], [strtoull], [mod]); bytes are [ascii]; maps are [gmap].

    ** Files

    - Prelude: bytes, integers, shared lemmas, tactics and hint databases.
    - Prog, Pools: programs, kernels and sequential reasoning; thread pools and
      the judgement [ok] by which an invariant is proved thread by thread.
      PoolsTerm: its total version [okt], which also bounds every run.
      Paced: runs end when every turn of a loop uses up something that other
      threads' steps give back only finitely often (a lexicographic measure).
      Alone: a thread that runs before the others are started.
      Explore: a checker that runs every interleaving of a finite process.
    - Libc, Regex: the string, number and formatting functions and the POSIX
      regular expressions the sources use, with the laws the parser needs.
    - Http (request.c, response.c), Opt (opt.c with GNU getopt).
    - Posix: file tree, descriptors, sockets, advisory locks and log stream of
      one process, with one event per call.
    - Util (util.c): write_all, pass_bytes, read_until, proved against the
      interfaces [Reader] and [Writer] that sockets and files implement.
    - Connection (connection.c), Log (log.c), Server (the handlers and locks of
      httpserver.c): the definitions.
    - Demo: a concrete world for examples and witnesses.
    - Parsing, ConnType, Transfer, Locks, Handlers, Serve: the theorems about
      them; ConnType has the type of a connection, that its fields fit the arrays
      and integers of struct Conn.  Quirks: what the code does where one might
      expect something else, for every request of the kind.
    - Queue (queue.c), Threadpool (threadpool.c and the loop of main): the
      definitions, with the blocks of memory that are allocated and freed; QueueInv, PoolTrace, ThreadpoolInv, PoolHist, PoolRuns: the
      invariants and theorems of all interleavings; PoolEnds: that they end.
    - Startup (main of httpserver.c up to the pool, shutdown_handler): the
      options, the log, the lock directory and the signals as one program.
    - IoEvents, AuditLog: which calls a routine makes; the log with connections
      interleaved.
    - Shared, SharedRules, SharedCalls, Linear, LinearRuns: connections handled
      at the same time on one file tree.  Shared has the clients, the sequential
      specification [spec_request] and the invariant; SharedRules the transfer
      principle by which a routine that touches only what its thread owns
      behaves as the sequential theorems say; SharedCalls the calls on shared
      things; Linear the handlers; LinearRuns the theorems.
    - Robust, RobustRuns: connections handled at the same time with any clients,
      any URIs and any failing calls: who owns which descriptor and lock, and how
      much input and how many faults are left, so that every run ends.
    - FullServer: main, the workers and the handlers they call as one program,
      and its runs as runs of Threadpool's pool and of the handlers on their own,
      of which it asks the interface [Served].  FullRuns: LinearRuns' clients and
      RobustRuns' connections as instances of it, and the theorems.
    - Listener (listener.c): sockets, their addresses and options.  Listening: FullServer's
      main with the code of listener.c in place of the two calls; its runs are
      FullServer's in a world that foretells what that code returns.
    - MainRuns: Startup's main followed by Listening's.
    - Starter, StarterRuns (practica/asgn4-starter/httpserver.c): the skeleton
      server over the class [ConnLib], the functions of connection.h, whose code
      is not in the repository; what the header promises is the class [ConnLaws],
      and [repo_laws] proves it for Connection.v's functions.
    - Rwlock, RwlockInv, RwlockRuns, RwlockEnds (practica/pthreads/rwlock): the
      readers-writer lock, its three policies and the program that uses it.
    - Trials, TrialsInv, TrialsRuns (locks.c, sema.c, no_locks.c of
      practica/pthreads): one program over the class [Guard]; the invariant is
      proved for any guard that meets the interface [SoundGuard].
    - Condvars, CondvarsInv (practica/pthreads/condvars/condvars.c).
    - MemParse (practica/regex/memory_parsing.c).
    - Threads (practica/pthreads/using_threads); Usage (practica/file_io, and the
      main of memory_parsing.c).

    ** What the theorems show

    - One connection (Serve, Handlers): [spec_get] and [spec_put] are the
      meaning of the methods on a file tree, and a well-formed request handled
      without faults implements them, answers the status, writes one audit line
      and gives back every descriptor and lock, provided its body has no text
      that reads like a header field; under any input and any faults
      it returns, leaves at most one audit line, sends only the message of that
      status, and leaks nothing; a PUT followed by a GET returns the body, also
      where the lockfile of the URI is made by that PUT ([lockable]).
    - The whole server (FullRuns, MainRuns): with the queue, the workers and the
      handlers' system calls in one interleaving, each accepted connection is
      handled at most once, the audit log is a sequential history of what the
      clients were sent and of the files; every run ends, and when nothing moves
      every client has been served.  This is for the clients of [clients_ok]:
      well-formed requests that fit the buffer, bodies of the declared length
      without header-like text, URIs that resolve and no two of which name one
      file, usable lockfiles, and no failing call.  With clients that send
      anything, URIs that name one file in several ways and calls that fail in
      any way, those on the audit stream included, still every
      run ends without an undefined access, each connection is handled at most
      once, the audit file has lines in their order, at most one per connection
      (whole unless a call on the stream fails, and then a first part), and at the
      end nothing is left open or locked; no descriptor is ever used by a
      connection that does not own it (RobustRuns); and so from main's command line on, in
      the world that its start-up leaves, whichever calls on its sockets fail and
      with whatever clients the calls of listener_accept return; there the
      listening socket and what the start-up opened are what stays open.
    - Connections at the same time (LinearRuns): the order of the audit log is a
      sequential history that explains every answer sent and every file; no
      interleaving ends before every client has been answered and logged; and
      none goes on for ever.  The clients' requests are well-formed, name
      different files by different URIs, and meet no failing calls (short
      transfers they may meet).
    - Parsing: what a client writes, in any segments, is what is parsed; on any
      bytes the parser ends inside its buffers and leaves a well-typed
      connection.
    - Transfer: bodies and responses go through whole, in order, with the
      declared lengths.
    - Locks: lockfile names are injective and never cut; lockdir_init trusts
      only a directory of the server's own.
    - Quirks: the header loop reads fields out of the buffered part of the body;
      dots in a URI lead out of the working directory; two spellings of one path
      have two locks, so that a GET is let in while a PUT holds the other; a
      method is told by its first letters.  Each for all requests of the kind.
    - Queue: first-in first-out, capacity, index ranges, no data race and no
      abort in every interleaving; blocked clients are all waiting for a full
      or all for an empty queue; creation, which frees what it allocated when it
      fails.
    - Pool: every connection handled at most once at every moment, exactly once
      after a shutdown; no access after free, no free of what is not allocated,
      and nothing allocated at the end; no deadlock; the same for the
      accept loop of main.
    - Options, start-up and listening socket: results on every branch, no leak
      on errors; the signals end the process with status 0, SIGPIPE does not.
    - Skeleton (StarterRuns): main serves its clients in the order of acceptance,
      with the meaning of PUT that the server has, for any library that keeps the
      promises of its header; with the repository's library the two servers agree
      on PUT; main returns only when it refuses its command line.
    - Exercises: under two of its policies the readers-writer lock excludes, in
      the whole program that uses it, and every run of that program ends once main
      has said so, without deadlock; under the third policy it does not exclude.
      No increment is lost with a mutex or a semaphore, in runs that all end;
      without a guard or when sem_wait is interrupted, one can be lost in any
      choice of any number of trials; threads take turns, in
      runs that all end; two threads print, with all their interleavings; what the
      command parser prints, and where it leaves its buffer.

    ** What is not modelled

    The kernel's scheduling is any interleaving of events; time (the 5 second
    socket timeouts) appears only as a fault a transfer may take.  stderr
    diagnostics are left out, and so are the messages of err and errx.  A signal
    that arrives while the server runs is not an event: its disposition says
    what it does to the process.  The contents of the audit file are kept apart
    from the file tree, so a URI that names the audit file is not covered.  regexec
    always has the memory it needs (the code takes its failure for a text that
    does not match).  A struct threadpool is a value of the dispatcher's, since
    it is not written after its creation; that its block is allocated until it is
    freed is in the world.

    In FullServer the clients' connections are open when the workers start and
    their descriptors differ.  The kernel may hand a number out again once it is
    closed; [descriptors_owned] shows that no call is made on a descriptor that is
    not the caller's own and open, so the numbers do not matter.  listener.c works
    on a table with the state of its sockets (address, options, listening);
    [connected] says how it and the process's descriptors go together: the
    listening socket and those that were accepted are descriptors of the process
    that were not open before, of sockets.  MainRuns joins the start-up and
    the server in sequence, main being alone until it creates its workers.  The
    loops of user.c (readers-writer lock) run until main says so: their theorem is
    about the runs after that, since before it a scheduler may keep them going for
    ever.  StarterRuns' clients meet no failing calls: the skeleton hands the
    results of failed calls (-1, NULL) on to the calls that follow.

    The headers under src/lib and practica/asgn4-starter declare what is modelled
    where it is defined.  The Zig and Python test programs, scripts, benchmarks and documents
    are outside the development. *)
From stdpp Require Export prelude strings list gmap.
From Stdlib Require Export ZArith Lia.
From Stdlib Require String.
From Stdlib Require Export Ascii.
Export (notations) String.


(** ** Bytes *)

Abbreviation byte := Ascii.ascii (only parsing).
Abbreviation bytes := (list Ascii.ascii).

Declare Scope http_scope.
Delimit Scope http_scope with http.

(** A C string literal as a list of bytes (without its terminator). *)
Definition B (s : string) : bytes := String.list_ascii_of_string s.

Definition NUL : byte := Ascii.ascii_of_nat 0.
Definition CR : byte := Ascii.ascii_of_nat 13.
Definition LF : byte := Ascii.ascii_of_nat 10.
Definition CRLF : bytes := [CR; LF].

Definition code (c : byte) : nat := Ascii.nat_of_ascii c.

(** [c] is in the closed range of character codes [lo..hi]. *)
Definition in_range (lo hi : byte) (c : byte) : bool :=
  (code lo <=? code c) && (code c <=? code hi).

Definition is_digit (c : byte) : bool := in_range "0"%char "9"%char c.
Definition is_alpha (c : byte) : bool :=
  in_range "a"%char "z"%char c || in_range "A"%char "Z"%char c.
(** [isspace] in the C locale: space, \t, \n, \v, \f, \r. *)
Definition is_space (c : byte) : bool :=
  (code c =? 32) || ((9 <=? code c) && (code c <=? 13)).

(** ** Fixed-width integers *)

Local Open Scope Z_scope.
Definition INT_MAX : Z := 2 ^ 31 - 1.
Definition LONG_MAX : Z := 2 ^ 63 - 1.
Definition LONG_MIN : Z := - 2 ^ 63.
Definition ULLONG_MAX : Z := 2 ^ 64 - 1.

(** Conversion of a 64-bit unsigned value to a signed one (two's complement). *)
Definition to_s64 (z : Z) : Z :=
  let u := z mod 2 ^ 64 in if u <? 2 ^ 63 then u else u - 2 ^ 64.

(** Conversion to a 32-bit int (two's complement, as the compilers define it). *)
Definition to_s32 (z : Z) : Z :=
  let u := z mod 2 ^ 32 in if u <? 2 ^ 31 then u else u - 2 ^ 32.

Lemma to_s32_id z : 0 ≤ z ≤ INT_MAX → to_s32 z = z.
Proof.
  unfold to_s32, INT_MAX. intros H. rewrite Z.mod_small by lia.
  destruct (Z.ltb_spec z (2 ^ 31)); lia.
Qed.

Lemma to_s64_id z : LONG_MIN ≤ z ≤ LONG_MAX → to_s64 z = z.
Proof.
  unfold to_s64, LONG_MIN, LONG_MAX. intros H.
  destruct (Z.ltb_spec z 0).
  - replace (z mod 2 ^ 64)%Z with (z + 2 ^ 64)%Z.
    2: { rewrite <- (Z.mod_small (z + 2 ^ 64) (2 ^ 64)) by lia.
         rewrite <- (Z_mod_plus_full z 1 (2 ^ 64)). f_equal; lia. }
    destruct (Z.ltb_spec (z + 2 ^ 64) (2 ^ 63)); lia.
  - rewrite Z.mod_small by lia. destruct (Z.ltb_spec z (2 ^ 63)); lia.
Qed.

(** ** Automation *)

(** Lengths of lists, then linear arithmetic. *)
Create HintDb http.
Create Rewrite HintDb lengths.
#[export] Hint Resolve to_s64_id to_s32_id : http.
#[export] Hint Rewrite @length_app @length_take @length_drop @length_replicate
  @length_nil @length_cons @length_map : lengths.
Ltac len := autorewrite with lengths in *; try lia.

(** Split a boolean condition of the code into its propositional cases. *)
Ltac cases_bool :=
  repeat match goal with
  | |- context [Z.ltb ?a ?b] => destruct (Z.ltb_spec a b)
  | |- context [Z.leb ?a ?b] => destruct (Z.leb_spec a b)
  | |- context [Z.eqb ?a ?b] => destruct (Z.eqb_spec a b)
  | |- context [Nat.ltb ?a ?b] => destruct (Nat.ltb_spec a b)
  | |- context [Nat.leb ?a ?b] => destruct (Nat.leb_spec a b)
  | |- context [Nat.eqb ?a ?b] => destruct (Nat.eqb_spec a b)
  | |- context [bool_decide ?P] => case_bool_decide
  end; cbn [andb orb negb] in *.

(** ** Lists *)

(** Two texts cut at the first byte outside a class are cut alike. *)
Lemma app_delim_inj {A} (P : A → Prop) (l1 l2 r1 r2 : list A) c1 c2 :
  Forall P l1 → Forall P l2 → ¬ P c1 → ¬ P c2 →
  l1 ++ c1 :: r1 = l2 ++ c2 :: r2 → l1 = l2 ∧ c1 = c2 ∧ r1 = r2.
Proof.
  intros H1. revert l2. induction H1 as [|x l1 Hx _ IH]; intros l2 H2 Hc1 Hc2 Heq.
  - destruct H2 as [|y l2 Hy H2]; cbn in Heq; simplify_eq; done.
  - destruct H2 as [|y l2' Hy H2]; cbn in Heq; injection Heq as Hxy Heq; subst; [done|].
    by destruct (IH l2' H2 Hc1 Hc2 Heq) as (-> & -> & ->).
Qed.

Lemma take_length_app {A} (l r : list A) n : n = length l → take n (l ++ r) = l.
Proof. intros ->. apply take_app_length. Qed.

Lemma drop_length_app {A} (l r : list A) n : n = length l → drop n (l ++ r) = r.
Proof. intros ->. apply drop_app_length. Qed.

(** A prefix no longer than another one of the same text is a prefix of it. *)
Lemma app_le_prefix {A} (a b c d : list A) :
  a ++ b = c ++ d → (length a ≤ length c)%nat → ∃ x, c = a ++ x ∧ b = x ++ d.
Proof.
  intros H Hl. exists (drop (length a) c).
  pose proof (f_equal (take (length a)) H) as Ht. pose proof (f_equal (drop (length a)) H) as Hd.
  rewrite take_app_length, take_app_le in Ht by done.
  rewrite drop_app_length, drop_app_le in Hd by done.
  split; [|done]. rewrite Ht at 1. by rewrite take_drop.
Qed.
