(* ===== verification/Prog.v ===== *)
(** * Programs and kernels

    C functions that make system calls are translated to interaction trees
    over an event type [E]; a [Kernel] instance says what each event does to
    the world.  This file holds

    - notation for sequencing ([let! x := t in k], [do! t in k]) and the C
      [while] loop ([ITree.iter]);
    - [step_thread]/[run]/[evals]: one thread run on its own, with [wpt], the
      total-correctness judgement of the sequential theorems (there is a
      finishing run, and it ends in the stated state);
    - [thread_step]: the steps of a thread that need not end. *)
From ITree Require Export Core.ITreeDefinition.
From S2P Require Import Prelude.

Declare Scope prog_scope.
Delimit Scope prog_scope with prog.
Notation "'let!' x ':=' t 'in' k" := (ITree.bind t (fun x => k))
  (at level 10, x pattern, t at level 100, k at level 200) : prog_scope.
Notation "'do!' t 'in' k" := (ITree.bind t (fun _ => k))
  (at level 10, t at level 100, k at level 200) : prog_scope.
(** Perform one event. *)
Definition perform {E : Type → Type} {X : Type} (e : E X) : itree E X := Vis e (λ x, Ret x).
Notation "! e" := (perform e) (at level 9, e at level 9) : prog_scope.

(** What the environment of a program does: [sys e w] is the new world and the
    answer, or [None] when the call blocks in [w]. *)
Class Kernel (E : Type → Type) (W : Type) :=
  sys : ∀ X, E X → W → option (W * X).
Arguments sys {E W _ X} _ _.

Lemma observe_bind {E R S} (t : itree E R) (k : R → itree E S) :
  observe (ITree.bind t k) =
  match observe t with
  | RetF r => observe (k r)
  | TauF t' => TauF (ITree.bind t' k)
  | VisF e h => VisF e (λ x, ITree.bind (h x) k)
  end.
Proof.
  change (observe (ITree.bind t k)) with (observe (ITree.subst k t)).
  unfold observe. cbn. unfold observe. by destruct (_observe t).
Qed.

Lemma observe_iter {E R I} (f : I → itree E (I + R)) (i : I) :
  observe (ITree.iter f i) =
  observe (ITree.bind (f i)
    (λ lr, match lr with inl l => Tau (ITree.iter f l) | inr r => Ret r end)).
Proof. reflexivity. Qed.

(** ** One thread *)

Section sequential.
Context {E : Type → Type} {W : Type} `{K : !Kernel E W}.

(** One step of a thread; [None] when it has returned or is blocked. *)
Definition step_thread {R} (t : itree E R) (w : W) : option (itree E R * W) :=
  match observe t with
  | RetF _ => None
  | TauF t' => Some (t', w)
  | VisF e k =>
      match sys e w with
      | Some (w', x) => Some (k x, w')
      | None => None
      end
  end.

(** Executable run with a bound on the number of steps. *)
Fixpoint run {R} (fuel : nat) (t : itree E R) (w : W) : option (R * W) :=
  match observe t with
  | RetF r => Some (r, w)
  | _ =>
      match fuel with
      | O => None
      | S fuel =>
          match step_thread t w with
          | Some (t', w') => run fuel t' w'
          | None => None
          end
      end
  end.

(** [evals t w r w']: run alone from [w], [t] returns [r] in world [w']. *)
Inductive evals {R} : itree E R → W → R → W → Prop :=
  | evals_ret t w r : observe t = RetF r → evals t w r w
  | evals_step t w t1 w1 r w' :
      step_thread t w = Some (t1, w1) → evals t1 w1 r w' → evals t w r w'.

Lemma evals_run {R} (t : itree E R) w r w' :
  evals t w r w' → ∃ n, run n t w = Some (r, w').
Proof.
  induction 1 as [t w r Ht|t w t1 w1 r w' Hs _ [n IH]].
  - exists O. cbn. by rewrite Ht.
  - exists (S n). cbn. rewrite Hs. unfold step_thread in Hs.
    destruct (observe t); [discriminate|done|done].
Qed.

Lemma run_evals {R} n (t : itree E R) w r w' :
  run n t w = Some (r, w') → evals t w r w'.
Proof.
  revert t w. induction n as [|n IH]; intros t w; cbn;
    destruct (observe t) eqn:Ht; intros Hr; simplify_eq; try by constructor.
  all: destruct (step_thread t w) as [[t1 w1]|] eqn:Hs; [|done];
    eapply evals_step; eauto.
Qed.

Lemma evals_det {R} (t : itree E R) w r1 w1 r2 w2 :
  evals t w r1 w1 → evals t w r2 w2 → r1 = r2 ∧ w1 = w2.
Proof.
  intros H. revert r2 w2. induction H as [t w r Ht|t w t1 w1' r w' Hs H IH].
  - inversion 1 as [? ? ? Ht'|? ? ? ? ? ? Hs]; subst; [rewrite Ht in Ht'; by simplify_eq|].
    unfold step_thread in Hs. by rewrite Ht in Hs.
  - inversion 1 as [? ? ? Ht'|? ? ? ? ? ? Hs']; subst.
    + unfold step_thread in Hs. by rewrite Ht' in Hs.
    + rewrite Hs in Hs'. simplify_eq. by apply IH.
Qed.

Lemma evals_bind {R S} (t : itree E R) (k : R → itree E S) w r w1 s w2 :
  evals t w r w1 → evals (k r) w1 s w2 → evals (ITree.bind t k) w s w2.
Proof.
  intros H Hk. induction H as [t w r Ht|t w t1 w1' r w' Hs H IH].
  - inversion Hk as [? ? ? Ht'|? ? ? ? ? ? Hs]; subst.
    + apply evals_ret. by rewrite observe_bind, Ht.
    + eapply evals_step; [|done]. unfold step_thread in *.
      by rewrite observe_bind, Ht.
  - eapply evals_step; [|by apply IH]. unfold step_thread in *.
    rewrite observe_bind. destruct (observe t) as [|t'|X e h]; simplify_eq; [done|].
    by destruct (sys e w) as [[w'' x]|]; simplify_eq.
Qed.

(** Total correctness of a thread run alone. *)
Definition wpt {R} (t : itree E R) (w : W) (Q : R → W → Prop) : Prop :=
  ∃ r w', evals t w r w' ∧ Q r w'.

Lemma wpt_ret {R} (r : R) w (Q : R → W → Prop) : Q r w → wpt (Ret r) w Q.
Proof. intros HQ. exists r, w. split; [by apply evals_ret|done]. Qed.

Lemma wpt_bind {R S} (t : itree E R) (k : R → itree E S) w (Q : S → W → Prop) :
  wpt t w (λ r w', wpt (k r) w' Q) → wpt (ITree.bind t k) w Q.
Proof.
  intros (r & w1 & Ht & s & w2 & Hk & HQ). exists s, w2.
  split; [by eapply evals_bind|done].
Qed.

Lemma wpt_conseq {R} (t : itree E R) w (P Q : R → W → Prop) :
  wpt t w P → (∀ r w', P r w' → Q r w') → wpt t w Q.
Proof. intros (r & w' & Ht & HP) HPQ. exists r, w'. eauto. Qed.

Lemma wpt_vis {X R} (e : E X) (k : X → itree E R) w w' x (Q : R → W → Prop) :
  sys e w = Some (w', x) → wpt (k x) w' Q → wpt (Vis e k) w Q.
Proof.
  intros Hs (r & w2 & Ht & HQ). exists r, w2. split; [|done].
  eapply evals_step; [|done]. unfold step_thread. cbn. by rewrite Hs.
Qed.

Lemma wpt_trigger {X} (e : E X) w w' x (Q : X → W → Prop) :
  sys e w = Some (w', x) → Q x w' → wpt (perform e) w Q.
Proof. intros Hs HQ. eapply wpt_vis; [done|by apply wpt_ret]. Qed.

Lemma wpt_iter_step {R I} (f : I → itree E (I + R)) i w (Q : R → W → Prop) :
  wpt (f i) w (λ lr w', match lr with
    | inl j => wpt (ITree.iter f j) w' Q
    | inr r => Q r w' end) →
  wpt (ITree.iter f i) w Q.
Proof.
  intros H. assert (Hb : wpt (ITree.bind (f i) (λ lr, match lr with
      inl l => Tau (ITree.iter f l) | inr r => Ret r end)) w Q).
  { apply wpt_bind. eapply wpt_conseq; [exact H|]. intros [j|r] w' Hj.
    - destruct Hj as (r & w2 & Ht & HQ). exists r, w2. split; [|done].
      by eapply evals_step.
    - by apply wpt_ret. }
  destruct Hb as (r & w' & Hev & HQ). exists r, w'. split; [|done].
  inversion Hev as [? ? ? Ht'|? ? ? ? ? ? Hs]; subst.
  - by apply evals_ret.
  - by eapply evals_step.
Qed.

(** The rule for loops: [m] decreases at every iteration that goes round. *)
Lemma wpt_iter {R I} (f : I → itree E (I + R)) (P : I → W → Prop)
    (m : I → W → nat) (Q : R → W → Prop) :
  (∀ i w, P i w → wpt (f i) w (λ lr w', match lr with
     | inl j => P j w' ∧ (m j w' < m i w)%nat
     | inr r => Q r w' end)) →
  ∀ i w, P i w → wpt (ITree.iter f i) w Q.
Proof.
  intros Hf i w. remember (m i w) as n eqn:Hn. revert i w Hn.
  induction (lt_wf n) as [n _ IH]. intros i w -> HP.
  apply wpt_iter_step. eapply wpt_conseq; [by apply Hf|].
  intros [j|r] w'; [|done]. intros [HP' Hlt]. by eapply IH.
Qed.

(** A finishing run determines the outcome: [wpt] speaks about every run. *)
Lemma wpt_evals {R} (t : itree E R) w Q r w' :
  wpt t w Q → evals t w r w' → Q r w'.
Proof.
  intros (r' & w2 & He & HQ) He'.
  by destruct (evals_det _ _ _ _ _ _ He He') as [-> ->].
Qed.

End sequential.

(** ** Runs that do not end *)

Section runs.
Context {E : Type → Type} {W : Type} `{K : !Kernel E W} {R : Type}.
Implicit Types (t : itree E R) (w : W).

Definition thread_step (x y : itree E R * W) : Prop := step_thread x.1 x.2 = Some y.

(** Only what a program does next matters. *)
Lemma step_thread_observe t u w : observe t = observe u → step_thread t w = step_thread u w.
Proof. intros H. unfold step_thread. by rewrite H. Qed.

Lemma evals_steps {S} (t : itree E S) (k : S → itree E R) w r w' : evals t w r w' →
  ∃ u, rtc thread_step (ITree.bind t k, w) (u, w') ∧ observe u = observe (k r).
Proof.
  induction 1 as [t w r Ht|t w t1 w1 r w' Hs _ (u & Hu & Ho)].
  - exists (ITree.bind t k). split; [done|]. by rewrite observe_bind, Ht.
  - exists u. split; [|done]. eapply rtc_l; [|exact Hu]. unfold thread_step, step_thread in *. cbn [fst snd].
    rewrite observe_bind. destruct (observe t) as [|t'|X e h]; [done|by simplify_eq|].
    by destruct (sys e w) as [[w2 x]|]; simplify_eq.
Qed.

(** A finished sequence has finished its first part. *)
Lemma evals_bind_inv {S} (t : itree E S) (k : S → itree E R) w r w' :
  evals (ITree.bind t k) w r w' → ∃ x w1, evals (k x) w1 r w'.
Proof.
  intros H. remember (ITree.bind t k) as u eqn:Hu.
  assert (Ho : observe u = observe (ITree.bind t k)) by (by subst). clear Hu. revert t Ho.
  induction H as [u w r Hu|u w u1 w1 r w' Hs He IH]; intros t Ho; rewrite observe_bind in Ho.
  - destruct (observe t) as [x| |]; [|congruence..]. exists x, w. apply evals_ret. congruence.
  - destruct (observe t) as [x|t'|X e h].
    + exists x, w. eapply evals_step, He. by rewrite <- (step_thread_observe _ _ w Ho).
    + unfold step_thread in Hs. rewrite Ho in Hs. simplify_eq. by apply (IH t').
    + unfold step_thread in Hs. rewrite Ho in Hs. destruct (sys e w) as [[w2 x]|]; [|done].
      simplify_eq. by apply (IH (h x)).
Qed.

Lemma rtc_observe t u v w w' : observe t = observe u → rtc thread_step (u, w) (v, w') →
  ∃ t', rtc thread_step (t, w) (t', w') ∧ observe t' = observe v.
Proof.
  intros Ho Hr. inversion Hr as [|? y ? Hy Hz]; subst; [by exists t|]. exists v. split; [|done].
  eapply rtc_l, Hz. unfold thread_step. cbn [fst snd]. by rewrite (step_thread_observe t u).
Qed.

(** One turn of an endless loop. *)
Lemma iter_turn {I} (f : I → itree E (I + R)) i j w (P : W → Prop) :
  wpt (f i) w (λ lr w', lr = inl j ∧ P w') →
  ∃ w', rtc thread_step (ITree.iter f i, w) (ITree.iter f j, w') ∧ P w'.
Proof.
  intros (lr & w' & He & -> & HP). exists w'. split; [|done].
  set (k := λ lr : I + R, match lr with inl l => Tau (ITree.iter f l) | inr r => Ret r end).
  destruct (evals_steps _ k _ _ _ He) as (u & Hu & Ho).
  assert (Hlast : thread_step (u, w') (ITree.iter f j, w')).
  { unfold thread_step, step_thread. cbn [fst snd]. by rewrite Ho. }
  assert (Hall : tc thread_step (ITree.bind (f i) k, w) (ITree.iter f j, w')).
  { by eapply tc_rtc_l, tc_once. }
  apply tc_rtc. inversion Hall as [? ? Hy|? y ? Hy Hz]; subst.
  - by apply tc_once.
  - by apply (tc_l _ _ y).
Qed.

(** A loop whose body never leaves it does not return. *)
Lemma iter_never {I} (f : I → itree E (I + R)) :
  (∀ i w lr w', evals (f i) w lr w' → ∃ j, lr = inl j) →
  ∀ i w r w', ¬ evals (ITree.iter f i) w r w'.
Proof.
  intros Hf. set (k := λ lr : I + R, match lr with inl l => Tau (ITree.iter f l) | inr r => Ret r end).
  assert (Hgen : ∀ u w r w', evals u w r w' → ∀ t : itree E (I + R), observe u = observe (ITree.bind t k) →
    (∀ lr w', evals t w lr w' → ∃ j, lr = inl j) → False).
  { induction 1 as [u w r Hu|u w u1 w1 r w' Hs _ IH]; intros t Ho Ht; rewrite observe_bind in Ho.
    - destruct (observe t) as [lr| |] eqn:Hot; [|congruence..].
      destruct (Ht lr w) as [j ->]; [by apply evals_ret|]. cbn in Ho. congruence.
    - unfold step_thread in Hs. rewrite Ho in Hs. destruct (observe t) as [lr|t'|X e h] eqn:Hot.
      + destruct (Ht lr w) as [j ->]; [by apply evals_ret|]. cbn in Hs. simplify_eq.
        by apply (IH (f j)); [|apply Hf].
      + simplify_eq. apply (IH t'); [done|]. intros lr w2 He. apply (Ht lr w2).
        eapply evals_step, He. unfold step_thread. by rewrite Hot.
      + destruct (sys e w) as [[w2 x]|] eqn:He; [|done]. simplify_eq. apply (IH (h x)); [done|].
        intros lr w3 He3. apply (Ht lr w3). eapply evals_step, He3. unfold step_thread. by rewrite Hot, He. }
  intros i w r w' He. by apply (Hgen _ _ _ _ He (f i)); [|apply Hf].
Qed.
End runs.
