(* ===== verification/Libc.v ===== *)
(** * The parts of the C library the server calls

    Strings are lists of bytes.  A C string stored in a larger buffer is read
    through [cstr] (everything before the first NUL).  Numbers are [Z] with the
    saturation and wrap-around of the 64-bit types written out. *)
From S2P Require Import Prelude.
Local Open Scope Z_scope.

(** ** Memory and strings *)

(** The longest prefix whose bytes satisfy [p], and what follows it. *)
Fixpoint span (p : byte → bool) (l : bytes) : bytes * bytes :=
  match l with
  | [] => ([], [])
  | c :: l' =>
      if p c then let '(a, b) := span p l' in (c :: a, b) else ([], l)
  end.

(** The C string that starts at the head of [l]. *)
Definition cstr (l : bytes) : bytes := (span (λ c, negb (bool_decide (c = NUL))) l).1.

(** [memcmp(a, b, n) == 0] *)
Definition memeq (a b : bytes) (n : nat) : bool :=
  bool_decide (take n a = take n b).

(** [strncmp(a, b, n) == 0]: at most [n] bytes are compared, and the
    comparison stops at a terminator common to both.  The end of a list is its
    terminator. *)
Fixpoint strncmp_eq (a b : bytes) (n : nat) {struct n} : bool :=
  match n with
  | O => true
  | S n =>
      match a, b with
      | [], [] => true
      | x :: a, y :: b => bool_decide (x = y) && strncmp_eq a b n
      | _, _ => false
      end
  end.

(** [buf[off .. off + |data|) = data] *)
Definition store (buf : bytes) (off : nat) (data : bytes) : bytes :=
  take off buf ++ data ++ drop (off + length data) buf.

(** What [snprintf] leaves in a buffer of [n] bytes: the text cut to [n - 1]
    bytes (the terminator is implicit); its result is the uncut length. *)
Definition snprintf (n : nat) (text : bytes) : bytes * Z :=
  (take (n - 1) text, Z.of_nat (length text)).

(** ** Decimal numbers *)

Definition digit (d : Z) : byte := Ascii.ascii_of_nat (Z.to_nat (48 + d)).
Definition digit_val (c : byte) : Z := Z.of_nat (code c) - 48.

(** Digits of [n >= 0], most significant first; [fuel] bounds their number. *)
Fixpoint dec_digits (fuel : nat) (n : Z) : bytes :=
  match fuel with
  | O => [digit (n mod 10)]
  | S fuel =>
      if n <? 10 then [digit n]
      else dec_digits fuel (n / 10) ++ [digit (n mod 10)]
  end.

(** The conversions %d, %jd, %ju and PRIu64. *)
Definition dec (n : Z) : bytes :=
  if n <? 0 then "-"%char :: dec_digits (Z.to_nat (Z.log2 (- n))) (- n)
  else dec_digits (Z.to_nat (Z.log2 n)) n.

Definition digits_val (l : bytes) : Z :=
  foldl (λ a c, a * 10 + digit_val c) 0 l.

(** The common front end of the [strto*] family for base 10: leading white
    space, an optional sign, digits.  [None] when there is no digit, in which
    case the C functions leave the end pointer at the start of the string. *)
Definition scan_number (s : bytes) : option (bool * Z * bytes) :=
  let s1 := (span is_space s).2 in
  let '(neg, s2) :=
    match s1 with
    | c :: r => if bool_decide (c = "-"%char) then (true, r)
                else if bool_decide (c = "+"%char) then (false, r) else (false, s1)
    | [] => (false, s1)
    end in
  match span is_digit s2 with
  | ([], _) => None
  | (ds, rest) => Some (neg, digits_val ds, rest)
  end.

(** [strtol(s, &end, 10)]: value, text at [end], and whether errno is ERANGE. *)
Definition strtol (s : bytes) : Z * bytes * bool :=
  match scan_number s with
  | None => (0, s, false)
  | Some (neg, v, rest) =>
      let v := if neg then - v else v in
      if v <? LONG_MIN then (LONG_MIN, rest, true)
      else if LONG_MAX <? v then (LONG_MAX, rest, true)
      else (v, rest, false)
  end.

(** [strtoull(s, NULL, 10)]: a leading minus negates in the unsigned type. *)
Definition strtoull (s : bytes) : Z :=
  match scan_number s with
  | None => 0
  | Some (neg, v, _) =>
      if ULLONG_MAX <? v then ULLONG_MAX
      else if neg then (- v) mod 2 ^ 64 else v
  end.

(** [strtoull(s, &end, 10)]: the value and the text at [end]. *)
Definition strtoull_end (s : bytes) : Z * bytes :=
  (strtoull s, match scan_number s with None => s | Some (_, _, rest) => rest end).

(** ** Lemmas *)

Lemma span_app p l : (span p l).1 ++ (span p l).2 = l.
Proof.
  induction l as [|c l IH]; cbn; [done|]. destruct (p c); [|done].
  destruct (span p l) as [a b]; cbn in *. by rewrite IH.
Qed.

Lemma span_all p l r :
  Forall (λ c, p c = true) l → match r with [] => True | c :: _ => p c = false end →
  span p (l ++ r) = (l, r).
Proof.
  intros H Hr. induction H as [|c l Hc _ IH]; cbn.
  - destruct r as [|c r]; cbn; [done|]. by rewrite Hr.
  - by rewrite Hc, IH.
Qed.

Lemma span_fst p l : Forall (λ c, p c = true) (span p l).1.
Proof.
  induction l as [|c l IH]; cbn; [constructor|].
  destruct (p c) eqn:Hc; [|constructor].
  destruct (span p l); cbn in *. by constructor.
Qed.

Lemma span_snd p l : match (span p l).2 with [] => True | c :: _ => p c = false end.
Proof.
  induction l as [|c l IH]; cbn; [done|].
  destruct (p c) eqn:Hc; [|done]. by destruct (span p l).
Qed.

Lemma cstr_no_nul l : NUL ∉ cstr l.
Proof.
  unfold cstr. intros Hin.
  pose proof (span_fst (λ c, negb (bool_decide (c = NUL))) l) as H.
  rewrite Forall_forall in H. specialize (H _ Hin). cbn in H.
  by rewrite bool_decide_true in H.
Qed.

Lemma cstr_prefix l : cstr l `prefix_of` l.
Proof. eexists. symmetry. apply span_app. Qed.

Lemma cstr_id l : NUL ∉ l → cstr l = l.
Proof.
  intros H. unfold cstr. rewrite <- (app_nil_r l) at 1. rewrite span_all; [done| |done].
  apply Forall_forall. intros c Hc. case_bool_decide; [by subst|done].
Qed.

Lemma cstr_app_nul l r : NUL ∉ l → cstr (l ++ NUL :: r) = l.
Proof.
  intros H. unfold cstr. rewrite span_all; [done| |by vm_compute].
  apply Forall_forall. intros c Hc. case_bool_decide; [by subst|done].
Qed.

Lemma cstr_app l r : NUL ∉ l → cstr (l ++ r) = l ++ cstr r.
Proof.
  unfold cstr. induction l as [|c l IH]; intros Hn; [done|].
  apply not_elem_of_cons in Hn as [Hc Hn]. cbn [span app].
  rewrite bool_decide_false by congruence. cbn [negb].
  specialize (IH Hn). destruct (span _ (l ++ r)) as [a b]; cbn in *. by rewrite IH.
Qed.

Lemma length_store buf off data :
  (off + length data ≤ length buf)%nat → length (store buf off data) = length buf.
Proof. intros H. unfold store. rewrite !length_app, length_take, length_drop. lia. Qed.

Lemma take_store buf off data :
  (off ≤ length buf)%nat →
  take (off + length data) (store buf off data) = take off buf ++ data.
Proof.
  intros H. unfold store. rewrite app_assoc, take_app_length'; [done|].
  rewrite length_app, length_take. lia.
Qed.

Lemma store_store buf d x :
  store (store buf 0 d) (length d) x = store buf 0 (d ++ x).
Proof.
  unfold store. rewrite !take_0, !app_nil_l, !Nat.add_0_l, take_app_length, <- app_assoc, length_app.
  rewrite drop_app_ge, drop_drop by lia. do 3 f_equal. lia.
Qed.

Lemma strncmp_eq_take a b n :
  (n ≤ length b)%nat → strncmp_eq a b n = bool_decide (take n a = take n b).
Proof.
  revert a b. induction n as [|n IH]; intros a b Hn; cbn.
  { by rewrite bool_decide_true. }
  destruct b as [|y b]; cbn in Hn; [lia|]. destruct a as [|x a]; cbn; [by case_bool_decide|].
  rewrite IH by lia. apply eq_true_iff_eq. rewrite andb_true_iff, !bool_decide_eq_true.
  split; [by intros [-> ->]|by intros [= -> ->]].
Qed.

Lemma code_digit d : 0 ≤ d < 10 → code (digit d) = Z.to_nat (48 + d).
Proof. intros H. unfold code, digit. apply Ascii.nat_ascii_embedding. lia. Qed.

Lemma digit_val_digit d : 0 ≤ d < 10 → digit_val (digit d) = d.
Proof. intros H. unfold digit_val. rewrite code_digit by done. lia. Qed.

Lemma is_digit_digit d : 0 ≤ d < 10 → is_digit (digit d) = true.
Proof.
  intros H. unfold is_digit, in_range. rewrite code_digit by done.
  change (code "0") with 48%nat. change (code "9") with 57%nat.
  apply andb_true_intro. split; apply Nat.leb_le; lia.
Qed.

Lemma digits_val_app l r : digits_val (l ++ r) =
  foldl (λ a c, a * 10 + digit_val c) (digits_val l) r.
Proof. unfold digits_val. by rewrite foldl_app. Qed.

Lemma div10_lt n k : 0 ≤ n → n < 2 ^ (k + 1) → 0 ≤ k → n / 10 < 2 ^ k.
Proof.
  intros H0 H Hk. apply Z.div_lt_upper_bound; [lia|].
  replace (2 ^ (k + 1)) with (2 * 2 ^ k) in H by (rewrite Z.pow_add_r by lia; lia).
  pose proof (Z.pow_pos_nonneg 2 k). lia.
Qed.

Lemma dec_digits_spec fuel n : 0 ≤ n < 2 ^ (Z.of_nat fuel + 1) →
  Forall (λ c, is_digit c = true) (dec_digits fuel n) ∧
  dec_digits fuel n ≠ [] ∧ digits_val (dec_digits fuel n) = n.
Proof.
  revert n. induction fuel as [|fuel IH]; intros n Hn.
  - assert (n mod 10 = n) as Hm by (apply Z.mod_small; lia).
    unfold dec_digits. rewrite Hm. unfold digits_val; cbn [foldl].
    rewrite digit_val_digit by lia. repeat split; [|done].
    constructor; [apply is_digit_digit; lia|constructor].
  - cbn [dec_digits]. destruct (Z.ltb_spec n 10).
    + unfold digits_val; cbn [foldl]. rewrite digit_val_digit by lia. repeat split; [|done].
      constructor; [apply is_digit_digit; lia|constructor].
    + destruct (IH (n / 10)) as (Hd & Hne & Hv).
      { split; [apply Z.div_pos; lia|]. apply div10_lt; lia. }
      assert (0 ≤ n mod 10 < 10) by (apply Z.mod_pos_bound; lia).
      repeat split.
      * apply Forall_app. split; [done|]. constructor; [by apply is_digit_digit|constructor].
      * intros Heq. apply app_eq_nil in Heq as [_ [=]].
      * rewrite digits_val_app, Hv. cbn [foldl]. rewrite digit_val_digit by done.
        pose proof (Z.div_mod n 10). lia.
Qed.

Lemma dec_spec n : 0 ≤ n →
  Forall (λ c, is_digit c = true) (dec n) ∧ dec n ≠ [] ∧ digits_val (dec n) = n.
Proof.
  intros Hn. unfold dec. destruct (Z.ltb_spec n 0); [lia|].
  apply dec_digits_spec. split; [done|].
  rewrite Z2Nat.id by apply Z.log2_nonneg.
  destruct (decide (n = 0)) as [->|]; [done|].
  pose proof (Z.log2_spec n ltac:(lia)). replace (Z.log2 n + 1) with (Z.succ (Z.log2 n)) by lia. lia.
Qed.

Lemma is_digit_facts c : is_digit c = true →
  is_space c = false ∧ c ≠ "-"%char ∧ c ≠ "+"%char.
Proof.
  unfold is_digit, in_range, is_space. change (code "0") with 48%nat.
  change (code "9") with 57%nat. intros [H1%Nat.leb_le H2%Nat.leb_le]%andb_prop.
  split; [|split; intros ->; apply Nat.leb_le in H1; discriminate].
  apply orb_false_intro; [apply Nat.eqb_neq; lia|].
  apply andb_false_intro2, Nat.leb_gt. lia.
Qed.

(** Reading back what was printed. *)
Lemma scan_number_dec n r : 0 ≤ n →
  match r with [] => True | c :: _ => is_digit c = false end →
  scan_number (dec n ++ r) = Some (false, n, r).
Proof.
  intros Hn Hr. destruct (dec_spec n Hn) as (Hd & Hne & Hv).
  destruct (dec n) as [|c l] eqn:Hdec; [done|].
  inversion_clear Hd as [|? ? Hc Hl]. destruct (is_digit_facts c Hc) as (Hs & Hm & Hp).
  unfold scan_number. cbn. rewrite Hs. cbn. rewrite !bool_decide_false by done. cbn.
  rewrite Hc, span_all by done. by rewrite Hv.
Qed.

Lemma strtoull_dec n : 0 ≤ n ≤ ULLONG_MAX → strtoull (dec n) = n.
Proof.
  intros Hn. unfold strtoull. rewrite <- (app_nil_r (dec n)).
  rewrite scan_number_dec by (done || lia).
  destruct (Z.ltb_spec ULLONG_MAX n); [lia|done].
Qed.

Lemma strtol_dec n : 0 ≤ n ≤ LONG_MAX → strtol (dec n) = (n, [], false).
Proof.
  intros Hn. unfold strtol. rewrite <- (app_nil_r (dec n)) at 1.
  rewrite scan_number_dec by (done || lia).
  unfold LONG_MIN. destruct (Z.ltb_spec n (- 2 ^ 63)); [lia|].
  destruct (Z.ltb_spec LONG_MAX n); [lia|done].
Qed.

Lemma digits_val_nonneg l : Forall (λ c, is_digit c = true) l → 0 ≤ digits_val l.
Proof.
  unfold digits_val. intros H.
  assert (Hgen : ∀ a, 0 ≤ a → 0 ≤ foldl (λ a c, a * 10 + digit_val c) a l); [|by apply Hgen].
  induction H as [|c l Hc _ IH]; intros a Ha; cbn; [done|]. apply IH.
  unfold is_digit, in_range in Hc. apply andb_prop in Hc as [Hc%Nat.leb_le _].
  change (code "0") with 48%nat in Hc. unfold digit_val. lia.
Qed.

Lemma scan_number_nonneg s neg v r : scan_number s = Some (neg, v, r) → 0 ≤ v.
Proof.
  unfold scan_number. destruct (match (span is_space s).2 with [] => _ | _ => _ end) as [n s2].
  pose proof (span_fst is_digit s2) as Hd. destruct (span is_digit s2) as [ds rest].
  destruct ds as [|d ds]; [done|]. intros [= _ <- _]. by apply digits_val_nonneg.
Qed.

Lemma strtoull_range s : 0 ≤ strtoull s ≤ ULLONG_MAX.
Proof.
  unfold strtoull. destruct (scan_number s) as [[[neg v] r]|] eqn:Hs; [|done].
  apply scan_number_nonneg in Hs.
  destruct (Z.ltb_spec ULLONG_MAX v); [done|]. destruct neg; [|lia].
  pose proof (Z.mod_pos_bound (- v) (2 ^ 64)). unfold ULLONG_MAX. lia.
Qed.

(** How long a printed number is. *)
Lemma dec_digits_length fuel n k : 0 ≤ n < 10 ^ (Z.of_nat k + 1) →
  (length (dec_digits fuel n) ≤ S k)%nat.
Proof.
  revert n k. induction fuel as [|fuel IH]; intros n k Hn; cbn [dec_digits]; [cbn; lia|].
  destruct (Z.ltb_spec n 10); [cbn; lia|].
  destruct k as [|k]; [cbn in Hn; lia|].
  rewrite length_app. cbn [length]. specialize (IH (n / 10) k).
  assert (0 ≤ n / 10 < 10 ^ (Z.of_nat k + 1)); [|lia].
  split; [apply Z.div_pos; lia|]. apply Z.div_lt_upper_bound; [lia|].
  rewrite <- Z.pow_succ_r by lia. replace (Z.succ (Z.of_nat k + 1)) with (Z.of_nat (S k) + 1) by lia.
  lia.
Qed.

Lemma dec_length_u64 n : 0 ≤ n ≤ ULLONG_MAX → (length (dec n) ≤ 20)%nat.
Proof.
  intros Hn. unfold dec. destruct (Z.ltb_spec n 0); [lia|].
  apply (dec_digits_length _ _ 19). unfold ULLONG_MAX in Hn. cbn. lia.
Qed.

(** Text that fits is not cut. *)
Lemma snprintf_fits n text : (length text < n)%nat →
  snprintf n text = (text, Z.of_nat (length text)).
Proof. intros H. unfold snprintf. by rewrite take_ge by lia. Qed.
