(* ===== verification/Regex.v ===== *)
(** * POSIX extended regular expressions, as far as the server uses them

    [regcomp] compiles the patterns of the sources (a sequence of single
    characters, dots and bracket expressions, each with an optional interval
    or star and an optional pair of parentheses around it, optionally anchored
    with a caret) and [regexec] is the POSIX match: the leftmost start, then
    the longest match, then the longest first piece, the longest second piece
    and so on.  The locale is C, so a character is a byte. *)
From S2P Require Import Prelude Libc.

(** ** Compiled patterns *)

(** A set of characters: any, or a union of code ranges. *)
Inductive cset := CAny | CRanges (l : list (byte * byte)).

Definition cset_mem (cs : cset) (c : byte) : bool :=
  match cs with
  | CAny => true
  | CRanges l => existsb (λ '(lo, hi), in_range lo hi c) l
  end.

Record piece := Piece {
  pc_set : cset;
  pc_lo : nat;
  pc_hi : option nat;   (* [None]: no upper bound *)
  pc_group : bool       (* stands in parentheses *)
}.

Record regex := Regex { re_anchored : bool; re_pieces : list piece }.

(** ** [regcomp] *)

Definition space_class : list (byte * byte) :=
  [(Ascii.ascii_of_nat 9, CR); (" "%char, " "%char)].

(** The inside of a bracket expression, up to its closing bracket. *)
Fixpoint parse_bracket (fuel : nat) (s : bytes) (acc : list (byte * byte)) :
    option (cset * bytes) :=
  match fuel with
  | O => None
  | S fuel =>
      match s with
      | [] => None
      | c :: s =>
          if bool_decide (c = "]"%char) then Some (CRanges (rev acc), s)
          else if bool_decide (take 9 (c :: s) = B "[:space:]") then
            parse_bracket fuel (drop 8 s) (rev space_class ++ acc)
          else
            match s with
            | d :: e :: s' =>
                if bool_decide (d = "-"%char) && negb (bool_decide (e = "]"%char))
                then parse_bracket fuel s' ((c, e) :: acc)
                else parse_bracket fuel s ((c, c) :: acc)
            | _ => parse_bracket fuel s ((c, c) :: acc)
            end
      end
  end.

Definition parse_atom (s : bytes) : option (cset * bytes) :=
  match s with
  | [] => None
  | c :: s =>
      if bool_decide (c = "["%char) then parse_bracket (S (length s)) s []
      else if bool_decide (c = "."%char) then Some (CAny, s)
      else Some (CRanges [(c, c)], s)
  end.

(** A repetition: an interval [{lo,hi}], a star, or nothing. *)
Definition parse_repeat (s : bytes) : option (nat * option nat * bytes) :=
  match s with
  | c :: s' =>
      if bool_decide (c = "*"%char) then Some (0, None, s')
      else if bool_decide (c = "{"%char) then
        match scan_number s' with
        | Some (false, lo, d :: s1) =>
            match scan_number s1 with
            | Some (false, hi, e :: s2) =>
                if bool_decide (d = ","%char) && bool_decide (e = "}"%char)
                then Some (Z.to_nat lo, Some (Z.to_nat hi), s2) else None
            | _ => None
            end
        | _ => None
        end
      else Some (1, Some 1, s)
  | [] => Some (1, Some 1, s)
  end.

Definition parse_piece (s : bytes) (group : bool) : option (piece * bytes) :=
  match parse_atom s with
  | Some (cs, s1) =>
      match parse_repeat s1 with
      | Some (lo, hi, s2) => Some (Piece cs lo hi group, s2)
      | None => None
      end
  | None => None
  end.

Fixpoint parse_pieces (fuel : nat) (s : bytes) : option (list piece) :=
  match fuel with
  | O => None
  | S fuel =>
      match s with
      | [] => Some []
      | c :: s' =>
          if bool_decide (c = "("%char) then
            match parse_piece s' true with
            | Some (p, d :: s2) =>
                if bool_decide (d = ")"%char)
                then cons p <$> parse_pieces fuel s2 else None
            | _ => None
            end
          else
            match parse_piece s false with
            | Some (p, s2) => cons p <$> parse_pieces fuel s2
            | None => None
            end
      end
  end.

Definition regcomp (s : bytes) : option regex :=
  match s with
  | c :: s' =>
      if bool_decide (c = "^"%char)
      then Regex true <$> parse_pieces (S (length s')) s'
      else Regex false <$> parse_pieces (S (length s)) s
  | [] => Some (Regex false [])
  end.

(** ** [regexec] *)

(** How many characters [p] can take at most at the head of [s]. *)
Definition piece_run (p : piece) (s : bytes) : nat :=
  let n := length (span (cset_mem (pc_set p)) s).1 in
  match pc_hi p with Some hi => min hi n | None => n end.

(** All ways to match the pieces at the head of [s], as the lengths of the
    pieces, longest first. *)
Fixpoint matches (ps : list piece) (s : bytes) : list (list nat) :=
  match ps with
  | [] => [[]]
  | p :: ps =>
      flat_map (λ k, map (cons k) (matches ps (drop k s)))
        (rev (seq (pc_lo p) (S (piece_run p s) - pc_lo p)))
  end.

Definition total (ls : list nat) : nat := sum_list ls.

(** The first of the longest. *)
Fixpoint longest (l : list (list nat)) : option (list nat) :=
  match l with
  | [] => None
  | v :: l =>
      match longest l with
      | Some u => if (total v <? total u)%nat then Some u else Some v
      | None => Some v
      end
  end.

(** Offset and piece lengths of the match [regexec] reports; with [anchored]
    only offset 0 is tried. *)
Fixpoint search (ps : list piece) (s : bytes) : option (nat * list nat) :=
  match longest (matches ps s) with
  | Some v => Some (0, v)
  | None =>
      match s with
      | [] => None
      | _ :: s =>
          match search ps s with
          | Some (off, v) => Some (S off, v)
          | None => None
          end
      end
  end.

(** The parenthesised pieces of a match, as (start, end) offsets. *)
Fixpoint groups (ps : list piece) (off : nat) (v : list nat) : list (nat * nat) :=
  match ps, v with
  | p :: ps, k :: v =>
      (if pc_group p then [(off, off + k)] else []) ++ groups ps (off + k) v
  | _, _ => []
  end.

(** [regexec]: [match[0]], [match[1]], ... on success.  The subject is a C
    string. *)
Definition regexec (re : regex) (s : bytes) : option (list (nat * nat)) :=
  let s := cstr s in
  let found :=
    if re_anchored re
    then (λ v, (0, v)) <$> longest (matches (re_pieces re) s)
    else search (re_pieces re) s in
  match found with
  | Some (off, v) => Some ((off, off + total v) :: groups (re_pieces re) off v)
  | None => None
  end.

(** ** What a match is *)

(** [v] gives lengths for the pieces [ps] at the head of [s]. *)
Fixpoint vec_ok (ps : list piece) (v : list nat) (s : bytes) : Prop :=
  match ps, v with
  | [], [] => True
  | p :: ps, k :: v =>
      pc_lo p ≤ k ∧ match pc_hi p with Some hi => k ≤ hi | None => True end ∧
      k ≤ length s ∧ Forall (λ c, cset_mem (pc_set p) c = true) (take k s) ∧
      vec_ok ps v (drop k s)
  | _, _ => False
  end.

Lemma span_take_iff p s k :
  k ≤ length (span p s).1 ↔ k ≤ length s ∧ Forall (λ c, p c = true) (take k s).
Proof.
  revert s. induction k as [|k IH]; intros s; [split; [split; [lia|by constructor]|lia]|].
  destruct s as [|c s]; cbn; [split; [lia|intros [? _]; lia]|].
  destruct (p c) eqn:Hc; cbn.
  - specialize (IH s). destruct (span p s) as [a b]; cbn in *.
    split.
    + intros H. destruct (proj1 IH) as [? ?]; [lia|]. split; [lia|by constructor].
    + intros [H1 H2]. inversion_clear H2. apply le_n_S, IH. split; [lia|done].
  - split; [lia|]. intros [_ H]. inversion_clear H. congruence.
Qed.

Lemma matches_spec ps s v : v ∈ matches ps s ↔ vec_ok ps v s.
Proof.
  revert s v. induction ps as [|p ps IH]; intros s v; cbn [matches vec_ok].
  { rewrite list_elem_of_singleton. by destruct v. }
  rewrite list_elem_of_In, in_flat_map.
  assert (Hr : ∀ k, In k (rev (seq (pc_lo p) (S (piece_run p s) - pc_lo p))) ↔
    pc_lo p ≤ k ∧ match pc_hi p with Some hi => k ≤ hi | None => True end ∧
      k ≤ length s ∧ Forall (λ c, cset_mem (pc_set p) c = true) (take k s)).
  { intros k. rewrite <- in_rev, in_seq, <- span_take_iff.
    unfold piece_run. destruct (pc_hi p); lia. }
  split.
  - intros (k & Hk & Hv). apply in_map_iff in Hv as (v' & <- & Hv').
    apply Hr in Hk. apply list_elem_of_In, IH in Hv'.
    destruct Hk as (? & ? & ? & ?). done.
  - destruct v as [|k v]; [done|]. intros (H1 & H2 & H3 & H4 & H5).
    exists k. split; [by apply Hr|]. apply in_map_iff. exists v.
    split; [done|]. by apply list_elem_of_In, IH.
Qed.

Lemma longest_spec l v :
  longest l = Some v → v ∈ l ∧ ∀ u, u ∈ l → total u ≤ total v.
Proof.
  revert v. induction l as [|w l IH]; intros v; cbn [longest]; [done|].
  destruct (longest l) as [u|] eqn:Hu.
  - destruct (IH u eq_refl) as [Hin Hmax].
    destruct (Nat.ltb_spec (total w) (total u)); intros Heq; simplify_eq.
    + split; [apply elem_of_cons; by right|]. intros x [->|Hx]%elem_of_cons; [lia|by apply Hmax].
    + split; [apply elem_of_cons; by left|]. intros x [->|Hx]%elem_of_cons; [done|].
      specialize (Hmax x Hx). lia.
  - intros [= <-]. destruct l as [|w' l]; [|cbn [longest] in Hu; repeat case_match; done].
    split; [apply elem_of_cons; by left|]. intros x [->|Hx]%elem_of_cons; [done|]. by apply elem_of_nil in Hx.
Qed.

Lemma longest_None l : longest l = None ↔ l = [].
Proof.
  destruct l as [|w l]; cbn [longest]; [done|].
  split; [|done]. destruct (longest l); [by destruct (_ <? _)|done].
Qed.

Lemma longest_unique l v : v ∈ l → (∀ u, u ∈ l → u = v) → longest l = Some v.
Proof.
  intros Hin Hu. destruct (longest l) as [w|] eqn:Hl.
  - apply longest_spec in Hl as [Hw _]. by rewrite (Hu w Hw).
  - apply longest_None in Hl. subst. by apply elem_of_nil in Hin.
Qed.

(** The leftmost longest rule. *)
Lemma search_Some ps s off v : search ps s = Some (off, v) →
  off ≤ length s ∧ vec_ok ps v (drop off s) ∧
  (∀ u, vec_ok ps u (drop off s) → total u ≤ total v) ∧
  (∀ o u, o < off → ¬ vec_ok ps u (drop o s)).
Proof.
  revert off v. induction s as [|c s IH]; intros off v; cbn [search];
    destruct (longest (matches ps _)) as [w|] eqn:Hl.
  1,3: intros [= <- <-]; apply longest_spec in Hl as [Hin Hmax];
    rewrite drop_0; (split; [lia|]); (split; [by apply matches_spec|]);
    (split; [|lia]); intros u Hu; by apply Hmax, matches_spec.
  - done.
  - destruct (search ps s) as [[o v']|] eqn:Hs; [|done]. intros [= <- <-].
    destruct (IH o v' eq_refl) as (H1 & H2 & H3 & H4). cbn.
    split; [lia|]. split; [done|]. split; [done|].
    intros [|o'] u Ho Hu; [|by apply (H4 o' u); [lia|]].
    rewrite drop_0 in Hu. apply matches_spec in Hu.
    apply longest_None in Hl. rewrite Hl in Hu. by apply elem_of_nil in Hu.
Qed.

Lemma search_None ps s : search ps s = None →
  ∀ o u, o ≤ length s → ¬ vec_ok ps u (drop o s).
Proof.
  induction s as [|c s IH]; cbn [search]; intros Hs o u Ho Hu;
    destruct (longest (matches ps _)) as [w|] eqn:Hl; try done;
    apply longest_None in Hl.
  - cbn in Ho. replace o with 0 in Hu by lia. rewrite drop_0 in Hu.
    apply matches_spec in Hu. rewrite Hl in Hu. by apply elem_of_nil in Hu.
  - destruct (search ps s) as [[o' v']|] eqn:Hs'; [done|].
    destruct o as [|o]; [|by apply (IH eq_refl o u); [cbn in Ho; lia|]].
    rewrite drop_0 in Hu. apply matches_spec in Hu. rewrite Hl in Hu.
    by apply elem_of_nil in Hu.
Qed.

Lemma vec_ok_total ps v s : vec_ok ps v s → total v ≤ length s.
Proof.
  revert v s. induction ps as [|p ps IH]; intros [|k v] s; cbn; try done; [lia|].
  intros (_ & _ & Hk & _ & Hv). apply IH in Hv. rewrite length_drop in Hv. unfold total in *. lia.
Qed.

(** *** Matches as decompositions of the subject *)

(** The text [x] is one that piece [p] takes. *)
Definition piece_ok (p : piece) (x : bytes) : Prop :=
  pc_lo p ≤ length x ∧ match pc_hi p with Some hi => length x ≤ hi | None => True end ∧
  Forall (λ c, cset_mem (pc_set p) c = true) x.

#[export] Instance piece_ok_dec p x : Decision (piece_ok p x).
Proof.
  unfold piece_ok. destruct (pc_hi p); apply _.
Defined.

Lemma vec_ok_cons p ps v s : vec_ok (p :: ps) v s ↔
  ∃ x v' s', v = length x :: v' ∧ s = x ++ s' ∧ piece_ok p x ∧ vec_ok ps v' s'.
Proof.
  split.
  - destruct v as [|k v]; [done|]. cbn. intros (H1 & H2 & H3 & H4 & H5).
    exists (take k s), v, (drop k s). rewrite length_take, Nat.min_l by done.
    rewrite take_drop. unfold piece_ok. rewrite length_take, Nat.min_l by done. done.
  - intros (x & v' & s' & -> & -> & (H1 & H2 & H3) & H5). cbn.
    rewrite length_app, take_app_length, drop_app_length. repeat split; (done || lia).
Qed.

(** Literal text as pieces. *)
Definition lit_piece (c : byte) : piece := Piece (CRanges [(c, c)]) 1 (Some 1) false.
Definition lit (l : bytes) : list piece := map lit_piece l.

Lemma code_inj c d : code c = code d → c = d.
Proof.
  unfold code. intros H%(f_equal Ascii.ascii_of_nat).
  by rewrite !Ascii.ascii_nat_embedding in H.
Qed.

Lemma in_range_single c d : in_range c c d = true ↔ d = c.
Proof.
  unfold in_range. rewrite andb_true_iff, !Nat.leb_le. split; [|intros ->; lia].
  intros [? ?]. apply code_inj. lia.
Qed.

Lemma lit_piece_ok c x : piece_ok (lit_piece c) x ↔ x = [c].
Proof.
  unfold piece_ok, lit_piece; cbn. split.
  - intros (H1 & H2 & H3). destruct x as [|d [|e x]]; cbn in *; try lia.
    inversion_clear H3 as [|? ? Hd _]. rewrite orb_false_r in Hd.
    by apply in_range_single in Hd as ->.
  - intros ->. cbn. repeat split; [lia..|]. constructor; [|constructor].
    rewrite orb_false_r. by apply in_range_single.
Qed.

Lemma vec_ok_lit l ps v s : vec_ok (lit l ++ ps) v s ↔
  ∃ v' s', v = replicate (length l) 1 ++ v' ∧ s = l ++ s' ∧ vec_ok ps v' s'.
Proof.
  revert v s. induction l as [|c l IH]; intros v s.
  - cbn. split; [intros H; by exists v, s|]. intros (v' & s' & -> & -> & H). done.
  - change (lit (c :: l) ++ ps) with (lit_piece c :: (lit l ++ ps)). rewrite vec_ok_cons. split.
    + intros (x & v' & s' & -> & -> & Hx%lit_piece_ok & H). subst x.
      apply IH in H as (v2 & s2 & -> & -> & H). exists v2, s2. done.
    + intros (v' & s' & -> & -> & H). exists [c], (replicate (length l) 1 ++ v'), (l ++ s').
      split; [done|]. split; [done|]. split; [by apply lit_piece_ok|]. apply IH. by exists v', s'.
Qed.

Lemma vec_ok_nil v s : vec_ok [] v s ↔ v = [].
Proof. by destruct v. Qed.

(** The pieces are not confused by what follows the matched text. *)
Lemma vec_ok_app ps v s r : vec_ok ps v s → vec_ok ps v (s ++ r).
Proof.
  revert v s. induction ps as [|p ps IH]; intros v s; [done|]. rewrite !vec_ok_cons.
  intros (x & v' & s' & -> & -> & Hx & H). exists x, v', (s' ++ r).
  rewrite app_assoc. repeat split; [apply Hx..|by apply IH].
Qed.

(** An unambiguous match at the head of the subject is the one reported. *)
Lemma longest_matches ps s v : vec_ok ps v s → (∀ u, vec_ok ps u s → u = v) →
  longest (matches ps s) = Some v.
Proof.
  intros H Hu. apply longest_unique; [by apply matches_spec|].
  intros u Hin. by apply Hu, matches_spec.
Qed.

Lemma search_head ps s v : vec_ok ps v s → (∀ u, vec_ok ps u s → u = v) →
  search ps s = Some (0, v).
Proof. intros H Hu. destruct s; cbn [search]; by rewrite (longest_matches _ _ v). Qed.

(** A subject without a match has none in its prefixes. *)
Lemma search_None_prefix ps s r : search ps (s ++ r) = None → search ps s = None.
Proof.
  intros H. destruct (search ps s) as [[off v]|] eqn:Hs; [|done]. exfalso.
  apply search_Some in Hs as (Ho & Hv & _). apply (vec_ok_app _ _ _ r) in Hv.
  apply (search_None _ _ H off v); [len|]. rewrite drop_app_le; done.
Qed.
