(* ===== verification/Http.v ===== *)
(** * Requests and responses (src/request.c, src/response.c)

    The sources compare [Request_t] and [Response_t] values by address, and
    every value is one of the constants below, so the types are enumerations. *)
From S2P Require Import Prelude.
Local Open Scope Z_scope.

Inductive Request := REQUEST_GET | REQUEST_PUT | REQUEST_UNSUPPORTED.

Inductive Response :=
  | RESPONSE_OK
  | RESPONSE_CREATED
  | RESPONSE_BAD_REQUEST
  | RESPONSE_FORBIDDEN
  | RESPONSE_NOT_FOUND
  | RESPONSE_INTERNAL_SERVER_ERROR
  | RESPONSE_NOT_IMPLEMENTED
  | RESPONSE_VERSION_NOT_SUPPORTED.

#[export] Instance Request_eq_dec : EqDecision Request.
Proof. solve_decision. Defined.
#[export] Instance Response_eq_dec : EqDecision Response.
Proof. solve_decision. Defined.

Definition requests : list Request := [REQUEST_GET; REQUEST_PUT; REQUEST_UNSUPPORTED].

Definition request_get_str (r : Request) : bytes :=
  match r with
  | REQUEST_GET => B "GET"
  | REQUEST_PUT => B "PUT"
  | REQUEST_UNSUPPORTED => B "UNSUPPORTED"
  end.

Definition response_get_code (r : Response) : Z :=
  match r with
  | RESPONSE_OK => 200
  | RESPONSE_CREATED => 201
  | RESPONSE_BAD_REQUEST => 400
  | RESPONSE_FORBIDDEN => 403
  | RESPONSE_NOT_FOUND => 404
  | RESPONSE_INTERNAL_SERVER_ERROR => 500
  | RESPONSE_NOT_IMPLEMENTED => 501
  | RESPONSE_VERSION_NOT_SUPPORTED => 505
  end.

Definition response_get_message (r : Response) : bytes :=
  match r with
  | RESPONSE_OK => B "OK"
  | RESPONSE_CREATED => B "Created"
  | RESPONSE_BAD_REQUEST => B "Bad Request"
  | RESPONSE_FORBIDDEN => B "Forbidden"
  | RESPONSE_NOT_FOUND => B "Not Found"
  | RESPONSE_INTERNAL_SERVER_ERROR => B "Internal Server Error"
  | RESPONSE_NOT_IMPLEMENTED => B "Not Implemented"
  | RESPONSE_VERSION_NOT_SUPPORTED => B "Version Not Supported"
  end.

(** The status codes tell the responses apart, which is what makes an audit
    line readable back. *)
#[export] Instance response_get_code_inj : Inj (=) (=) response_get_code.
Proof. intros [] []; (reflexivity || discriminate). Qed.

#[export] Instance request_get_str_inj : Inj (=) (=) request_get_str.
Proof. intros [] []; (reflexivity || discriminate). Qed.
