(* ===== verification/Opt.v ===== *)
(** * Command line (src/opt.c)

    [getopt] is the GNU one: it skips over operands, so options may follow the
    port, and stops at [--]. *)
From S2P Require Import Prelude Libc.
Local Open Scope Z_scope.

Definition OPTIONS : bytes := B "t:l:".
Definition DEFAULT_THREAD_COUNT : Z := 3.

Record OPT := mkOPT {
  n_threads : Z;
  log_path : option bytes;
  port : Z
}.

(** ** [getopt] *)

(** The part of argv not scanned yet, the rest of the current option cluster
    (nextchar), and the operands skipped so far. *)
Record getopt_state := GetoptState {
  go_args : list bytes;
  go_next : bytes;
  go_operands : list bytes
}.

Inductive getopt_result :=
  | GetoptOpt (c : byte) (optarg : bytes)
  | GetoptBad                       (* the result is a question mark *)
  | GetoptEnd (operands : list bytes).  (* -1; argv from optind on *)

(** Whether [c] is an option letter and takes an argument. *)
Fixpoint option_kind (optstring : bytes) (c : byte) : option bool :=
  match optstring with
  | [] => None
  | d :: rest =>
      if bool_decide (c = d) && negb (bool_decide (c = ":"%char)) then
        match rest with
        | e :: _ => Some (bool_decide (e = ":"%char))
        | [] => Some false
        end
      else option_kind rest c
  end.

(** Skip operands up to the next option cluster, or to the end of the options. *)
Fixpoint next_cluster (args operands : list bytes) :
    (bytes * list bytes * list bytes) + list bytes :=
  match args with
  | [] => inr operands
  | a :: args =>
      if bool_decide (a = B "--") then inr (operands ++ args)
      else
        match a with
        | c :: ((_ :: _) as cluster) =>
            if bool_decide (c = "-"%char) then inl (cluster, args, operands)
            else next_cluster args (operands ++ [a])
        | _ => next_cluster args (operands ++ [a])
        end
  end.

Definition getopt (optstring : bytes) (st : getopt_state) : getopt_result * getopt_state :=
  let cluster :=
    match go_next st with
    | [] => next_cluster (go_args st) (go_operands st)
    | next => inl (next, go_args st, go_operands st)
    end in
  match cluster with
  | inr operands => (GetoptEnd operands, GetoptState [] [] operands)
  | inl ([], args, operands) => (GetoptBad, GetoptState args [] operands)
  | inl (c :: rest, args, operands) =>
      match option_kind optstring c with
      | None => (GetoptBad, GetoptState args rest operands)
      | Some false => (GetoptOpt c [], GetoptState args rest operands)
      | Some true =>
          match rest, args with
          | [], arg :: args => (GetoptOpt c arg, GetoptState args [] operands)
          | [], [] => (GetoptBad, GetoptState [] [] operands)
          | _, _ => (GetoptOpt c rest, GetoptState args [] operands)
          end
      end
  end.

(** ** [parse_positive] *)

(** The argument is never NULL here; -1 is the error value. *)
Definition parse_positive (s : bytes) : Z :=
  match s with
  | [] => -1
  | _ =>
      let '(v, end_, erange) := strtol s in
      if erange || negb (bool_decide (end_ = [])) || (v <=? 0) || (INT_MAX <? v)
      then -1 else v
  end.

(** ** [opt_parse] *)

Inductive opt_result := OptOk (o : OPT) | OptUsage | OptFuel.

(** Bytes and words left to scan: it decreases at each [getopt] that returns
    an option. *)
Definition go_size (st : getopt_state) : nat :=
  length (go_next st) + sum_list_with (λ a, S (length a)) (go_args st).

Definition finish (operands : list bytes) (opts : OPT) : opt_result :=
  match operands with
  | [] => OptUsage
  | p :: _ =>
      let port := parse_positive p in
      if (port <? 0) || (65535 <? port) then OptUsage
      else OptOk (mkOPT (n_threads opts) (log_path opts) port)
  end.

Fixpoint opt_loop (fuel : nat) (st : getopt_state) (opts : OPT) : opt_result :=
  match fuel with
  | O => OptFuel
  | S fuel =>
      match getopt OPTIONS st with
      | (GetoptEnd operands, _) => finish operands opts
      | (GetoptBad, _) => OptUsage
      | (GetoptOpt c arg, st) =>
          if bool_decide (c = "t"%char) then
            let n := parse_positive arg in
            if n <? 0 then OptUsage
            else opt_loop fuel st (mkOPT n (log_path opts) (port opts))
          else if bool_decide (c = "l"%char) then
            opt_loop fuel st (mkOPT (n_threads opts) (Some arg) (port opts))
          else OptUsage
      end
  end.

(** [args] is argv without the program name. *)
Definition opt_parse (args : list bytes) : opt_result :=
  let st := GetoptState args [] [] in
  opt_loop (S (go_size st)) st (mkOPT DEFAULT_THREAD_COUNT None 0).

Example opt_parse_1 :
  opt_parse [B "-t"; B "2"; B "-laudit.log"; B "8080"] =
  OptOk (mkOPT 2 (Some (B "audit.log")) 8080).
Proof. vm_compute. reflexivity. Qed.
Example opt_parse_2 : opt_parse [B "8080"; B "-t4"] = OptOk (mkOPT 4 None 8080).
Proof. vm_compute. reflexivity. Qed.
Example opt_parse_3 : opt_parse [B "-t"; B "4294967297"; B "8080"] = OptUsage.
Proof. vm_compute. reflexivity. Qed.

(** ** Lemmas *)

Lemma parse_positive_range s :
  parse_positive s = -1 ∨ 1 ≤ parse_positive s ≤ INT_MAX.
Proof.
  unfold parse_positive. destruct s as [|c s]; [by left|].
  destruct (strtol (c :: s)) as [[v e] er].
  destruct er; cbn; [by left|]. case_bool_decide; cbn; [|by left].
  destruct (Z.leb_spec v 0); cbn; [by left|].
  destruct (Z.ltb_spec INT_MAX v); [by left|right; lia].
Qed.

(** Any decimal above INT_MAX is refused, also past the range of long, where
    strtol saturates. *)
Lemma parse_positive_dec n : 0 ≤ n →
  parse_positive (dec n) = if (1 <=? n) && (n <=? INT_MAX) then n else -1.
Proof.
  intros Hn. destruct (dec_spec n Hn) as (_ & Hne & _).
  unfold parse_positive. destruct (dec n) as [|c l] eqn:Hd; [done|]. rewrite <- Hd.
  unfold strtol. rewrite <- (app_nil_r (dec n)), scan_number_dec by done.
  unfold LONG_MIN, INT_MAX, LONG_MAX.
  destruct (Z.ltb_spec n (- 2 ^ 63)); [lia|].
  destruct (Z.ltb_spec (2 ^ 63 - 1) n).
  { cbn [orb]. destruct (Z.leb_spec n (2 ^ 31 - 1)); [lia|]. by rewrite andb_false_r. }
  rewrite (bool_decide_true ([] = [])) by done. cbn [orb negb].
  destruct (Z.leb_spec n 0), (Z.leb_spec 1 n), (Z.ltb_spec (2 ^ 31 - 1) n),
    (Z.leb_spec n (2 ^ 31 - 1)); cbn [orb andb]; lia.
Qed.

Lemma next_cluster_size args ops next args' ops' :
  next_cluster args ops = inl (next, args', ops') →
  (length next + sum_list_with (λ a, S (length a)) args' <
   sum_list_with (λ a, S (length a)) args)%nat.
Proof.
  revert ops. induction args as [|a args IH]; intros ops; cbn; [done|].
  case_bool_decide; [done|]. destruct a as [|c [|d a]].
  1,2: intros Hn%IH; cbn; lia.
  case_bool_decide; [|intros Hn%IH; cbn; lia].
  intros [= <- <- <-]. cbn. lia.
Qed.

Lemma getopt_size optstring st c arg st' :
  getopt optstring st = (GetoptOpt c arg, st') → (go_size st' < go_size st)%nat.
Proof.
  unfold getopt, go_size. destruct st as [args next ops]; cbn.
  destruct next as [|d next].
  - destruct (next_cluster args ops) as [[[[|x rest] args'] ops']|] eqn:Hn; try done.
    apply next_cluster_size in Hn. cbn in Hn.
    repeat case_match; intros; simplify_eq; cbn in *; lia.
  - repeat case_match; intros; simplify_eq; cbn in *; lia.
Qed.

Lemma opt_loop_total fuel st opts :
  (go_size st < fuel)%nat → opt_loop fuel st opts ≠ OptFuel.
Proof.
  revert st opts. induction fuel as [|fuel IH]; intros st opts Hf; [lia|]. cbn [opt_loop].
  destruct (getopt OPTIONS st) as [[c arg| |ops] st'] eqn:Hg; [|done|].
  - apply getopt_size in Hg.
    repeat case_match; try done; apply IH; lia.
  - unfold finish. repeat case_match; done.
Qed.

Lemma opt_loop_bounds fuel st opts o :
  1 ≤ n_threads opts ≤ INT_MAX → opt_loop fuel st opts = OptOk o →
  1 ≤ n_threads o ≤ INT_MAX ∧ 1 ≤ port o ≤ 65535.
Proof.
  revert st opts. induction fuel as [|fuel IH]; intros st opts Hn; [done|]. cbn [opt_loop].
  destruct (getopt OPTIONS st) as [[c arg| |ops] st'] eqn:Hg; [|done|].
  - case_bool_decide.
    + destruct (Z.ltb_spec (parse_positive arg) 0); [done|]. apply IH. cbn.
      destruct (parse_positive_range arg); lia.
    + case_bool_decide; [|done]. by apply IH.
  - unfold finish. destruct ops as [|p ops]; [done|].
    destruct (parse_positive_range p) as [->|Hp]; [done|].
    destruct (Z.ltb_spec (parse_positive p) 0); [lia|].
    destruct (Z.ltb_spec 65535 (parse_positive p)); cbn; [done|].
    intros [= <-]. cbn. lia.
Qed.

(** A word that does not start with a minus is an operand. *)
Lemma next_cluster_operand a args ops :
  match a with [] => True | c :: _ => c ≠ "-"%char end →
  next_cluster (a :: args) ops = next_cluster args (ops ++ [a]).
Proof.
  intros Ha. cbn. rewrite bool_decide_false by (intros ->; done).
  destruct a as [|c [|d a]]; [done..|]. by rewrite bool_decide_false.
Qed.

Lemma dec_no_minus n : 0 ≤ n → match dec n with [] => True | c :: _ => c ≠ "-"%char end.
Proof.
  intros Hn. destruct (dec_spec n Hn) as (Hd & _ & _).
  destruct (dec n) as [|c l]; [done|]. inversion_clear Hd.
  by apply is_digit_facts.
Qed.

(** An option word followed by its argument. *)
Lemma getopt_arg c arg args ops : option_kind OPTIONS c = Some true → c ≠ "-"%char →
  getopt OPTIONS (GetoptState (["-"%char; c] :: arg :: args) [] ops) =
  (GetoptOpt c arg, GetoptState args [] ops).
Proof.
  intros Hc Hm. unfold getopt. cbn [go_next go_args go_operands next_cluster].
  rewrite bool_decide_false by (intros [=]; done).
  rewrite bool_decide_true by done. by rewrite Hc.
Qed.

Lemma getopt_operand a ops : match a with [] => True | c :: _ => c ≠ "-"%char end →
  getopt OPTIONS (GetoptState [a] [] ops) = (GetoptEnd (ops ++ [a]), GetoptState [] [] (ops ++ [a])).
Proof.
  intros Ha. unfold getopt. cbn [go_next go_args go_operands].
  by rewrite next_cluster_operand.
Qed.

(** ** Properties *)

(** C32. opt_parse returns on every command line (the getopt loop ends within
    the bytes of argv), and when it accepts one the thread count fits a
    positive C int and the port is a TCP port. *)
Theorem opt_parse_total_bounded args :
  match opt_parse args with
  | OptFuel => False
  | OptUsage => True
  | OptOk o => 1 ≤ n_threads o ≤ INT_MAX ∧ 1 ≤ port o ≤ 65535
  end.
Proof.
  destruct (opt_parse args) as [o| |] eqn:Ho; [|done|].
  - by eapply opt_loop_bounds in Ho.
  - by apply opt_loop_total in Ho; [|lia].
Qed.

(** C33. On a command line in the documented form, with the numbers printed in
    decimal, opt_parse returns exactly the options given, whatever the numbers:
    a thread count of 0 or above INT_MAX (also one that strtol saturates or
    that would wrap in an int) and a port of 0 or above 65535 are refused. *)
Theorem opt_parse_canonical n path p : 0 ≤ n → 0 ≤ p →
  opt_parse [B "-t"; dec n; B "-l"; path; dec p] =
  if (1 <=? n) && (n <=? INT_MAX) && (1 <=? p) && (p <=? 65535)
  then OptOk (mkOPT n (Some path) p) else OptUsage.
Proof.
  intros Hn Hp.
  unfold opt_parse. set (st := GetoptState _ _ _).
  assert (Hf : ∃ k, go_size st = S (S k)) by (unfold go_size, st; cbn; eauto).
  destruct Hf as [k ->]. cbn [opt_loop]. unfold st.
  change (B "-t") with ["-"%char; "t"%char]. change (B "-l") with ["-"%char; "l"%char].
  rewrite getopt_arg, bool_decide_true, parse_positive_dec by done. unfold INT_MAX.
  destruct (Z.leb_spec 1 n), (Z.leb_spec n (2 ^ 31 - 1)); cbn [andb]; try done.
  destruct (Z.ltb_spec n 0); [lia|].
  rewrite getopt_arg by done. cbn [n_threads log_path Opt.port].
  rewrite bool_decide_false, bool_decide_true by done.
  rewrite getopt_operand by by apply dec_no_minus.
  unfold finish. cbn [app n_threads log_path].
  rewrite parse_positive_dec by done. unfold INT_MAX.
  destruct (Z.leb_spec 1 p), (Z.leb_spec p (2 ^ 31 - 1)), (Z.leb_spec p 65535);
    cbn [andb]; try lia; try done;
    destruct (Z.ltb_spec p 0), (Z.ltb_spec 65535 p); cbn [orb]; (done || lia).
Qed.

Lemma opt_parse_canonical_witness :
  opt_parse [B "-t"; dec 4294967297; B "-l"; B "audit.log"; dec 8080] = OptUsage ∧
  opt_parse [B "-t"; dec 8; B "-l"; B "audit.log"; dec 8080] =
    OptOk (mkOPT 8 (Some (B "audit.log")) 8080).
Proof.
  split.
  - rewrite (opt_parse_canonical 4294967297 (B "audit.log") 8080); [reflexivity|lia|lia].
  - rewrite (opt_parse_canonical 8 (B "audit.log") 8080); [reflexivity|lia|lia].
Defined.
