(* ===== verification/Posix.v ===== *)
(** * The operating system as the server sees it

    A world holds the file tree, the descriptor table, the client sockets, the
    advisory locks and the audit stream; [sysE] has one event per system or
    library call with an effect, and the [Kernel] instance gives the POSIX
    behaviour of each.  Whatever POSIX leaves open is an input of the model:
    short transfers, interrupted calls and resource errors are taken from the
    [w_faults] list (of the world for files, of a socket for its transfers, of
    the audit stream for what is printed to it), one entry per call, so a
    theorem for all worlds is a theorem for every pattern of faults.  A file call reports ENOENT, EACCES, EISDIR, ENOTDIR
    and EEXIST only when the tree says so.  No other process changes the tree
    and it holds no symbolic links that are followed. *)
From S2P Require Import Prelude Libc Prog.

(** ** Results *)

Inductive errno :=
  | EINTR | EAGAIN | EWOULDBLOCK | EACCES | EISDIR | ENOENT | ENOTDIR | EEXIST
  | EBADF | EPIPE | ECONNRESET | EIO | ENOSPC | EMFILE | ENOMEM.

#[export] Instance errno_eq_dec : EqDecision errno.
Proof. solve_decision. Defined.

(** A call's result: a value, or -1 with errno set. *)
Inductive rc (A : Type) := Ok (a : A) | Err (e : errno).
Arguments Ok {A} _.
Arguments Err {A} _.

(** ** The file tree *)

Abbreviation path := (list bytes).

(** Owner, and what the server may do with the node. *)
Record meta := Meta { m_uid : Z; m_r : bool; m_w : bool; m_x : bool }.

Inductive node :=
  | NFile (data : bytes) (m : meta)
  | NDir (m : meta)
  | NOther (m : meta).   (* a symbolic link, a device, a socket, ... *)

Definition node_meta (n : node) : meta :=
  match n with NFile _ m | NDir m | NOther m => m end.

(** ** Open descriptions, sockets, locks *)

Inductive ofd :=
  | OFile (p : path) (off : nat)
  | OSock (c : nat).

(** One entry per call: nothing special, at most [S k] bytes, or an error. *)
Inductive fault := FNone | FShort (k : nat) | FErr (e : errno).

Record sock := Sock {
  sk_in : bytes;          (* what the client has still to deliver *)
  sk_eof : bool;          (* it then closes (else: the read times out) *)
  sk_out : bytes;         (* what was sent to the client *)
  sk_faults : list fault
}.

Inductive lstate := LShared (s : gset nat) | LExclusive (fd : nat).

Inductive stream := SNull | SStderr | SFile.

#[export] Instance stream_eq_dec : EqDecision stream.
Proof. solve_decision. Defined.

Record world := World {
  w_fs : gmap path node;
  w_cwd : path;
  w_cwd_id : Z * Z;           (* st_dev and st_ino of the working directory *)
  w_euid : Z;
  w_fds : gmap nat ofd;
  w_socks : gmap nat sock;
  w_flocks : gmap path lstate;
  w_log_stream : stream;      (* the variable log_stream of log.c *)
  w_log_mu : bool;            (* log_mu is held *)
  w_log_buf : bytes;          (* printed and not flushed *)
  w_log_out : bytes;          (* in the audit file *)
  w_log_faults : list fault;  (* of the calls on the stream *)
  w_faults : list fault
}.

Definition set_fs (x : gmap path node) (w : world) : world :=
  World x (w_cwd w) (w_cwd_id w) (w_euid w) (w_fds w) (w_socks w) (w_flocks w)
    (w_log_stream w) (w_log_mu w) (w_log_buf w) (w_log_out w) (w_log_faults w) (w_faults w).
Definition set_fds (x : gmap nat ofd) (w : world) : world :=
  World (w_fs w) (w_cwd w) (w_cwd_id w) (w_euid w) x (w_socks w) (w_flocks w)
    (w_log_stream w) (w_log_mu w) (w_log_buf w) (w_log_out w) (w_log_faults w) (w_faults w).
Definition set_socks (x : gmap nat sock) (w : world) : world :=
  World (w_fs w) (w_cwd w) (w_cwd_id w) (w_euid w) (w_fds w) x (w_flocks w)
    (w_log_stream w) (w_log_mu w) (w_log_buf w) (w_log_out w) (w_log_faults w) (w_faults w).
Definition set_flocks (x : gmap path lstate) (w : world) : world :=
  World (w_fs w) (w_cwd w) (w_cwd_id w) (w_euid w) (w_fds w) (w_socks w) x
    (w_log_stream w) (w_log_mu w) (w_log_buf w) (w_log_out w) (w_log_faults w) (w_faults w).
Definition set_log (s : stream) (mu : bool) (buf out : bytes) (w : world) : world :=
  World (w_fs w) (w_cwd w) (w_cwd_id w) (w_euid w) (w_fds w) (w_socks w) (w_flocks w)
    s mu buf out (w_log_faults w) (w_faults w).
Definition set_faults (x : list fault) (w : world) : world :=
  World (w_fs w) (w_cwd w) (w_cwd_id w) (w_euid w) (w_fds w) (w_socks w) (w_flocks w)
    (w_log_stream w) (w_log_mu w) (w_log_buf w) (w_log_out w) (w_log_faults w) x.
Definition set_log_faults (x : list fault) (w : world) : world :=
  World (w_fs w) (w_cwd w) (w_cwd_id w) (w_euid w) (w_fds w) (w_socks w) (w_flocks w)
    (w_log_stream w) (w_log_mu w) (w_log_buf w) (w_log_out w) x (w_faults w).

Lemma world_ext w v : w_fs w = w_fs v → w_cwd w = w_cwd v → w_cwd_id w = w_cwd_id v → w_euid w = w_euid v →
  w_fds w = w_fds v → w_socks w = w_socks v → w_flocks w = w_flocks v → w_log_stream w = w_log_stream v →
  w_log_mu w = w_log_mu v → w_log_buf w = w_log_buf v → w_log_out w = w_log_out v →
  w_log_faults w = w_log_faults v → w_faults w = w_faults v → w = v.
Proof. destruct w, v. cbn. intros. by subst. Qed.

(** ** Calls *)

(** Only these may come from the fault list of a file call. *)
Definition resource_errno (e : errno) : bool :=
  bool_decide (e ∈ [EINTR; EIO; ENOSPC; EMFILE; ENOMEM]).

Definition pop_fault (w : world) : fault * world :=
  match w_faults w with
  | [] => (FNone, w)
  | f :: fl =>
      (match f with FErr e => if resource_errno e then f else FNone | _ => f end,
       set_faults fl w)
  end.

(** A call that may fail for want of a resource before it does anything. *)
Definition faulty {A} (body : world → world * rc A) (w : world) : world * rc A :=
  let '(f, w) := pop_fault w in
  match f with
  | FErr e => (w, Err e)
  | _ => body w
  end.

(** How many of [n] bytes a transfer moves. *)
Definition transfer (f : fault) (n : nat) : nat :=
  match f with FShort k => min (S k) n | _ => n end.

(** Components of a path, split at slashes. *)
Fixpoint split_path (s : bytes) : path :=
  match s with
  | [] => [[]]
  | c :: s =>
      if bool_decide (c = "/"%char) then [] :: split_path s
      else match split_path s with
           | comp :: comps => (c :: comp) :: comps
           | [] => [[c]]
           end
  end.

(** Path resolution from directory [dir].  The last component need not exist. *)
Fixpoint walk (fs : gmap path node) (dir : path) (comps : list bytes) : rc path :=
  match fs !! dir with
  | Some (NDir m) =>
      match comps with
      | [] => Ok dir
      | c :: rest =>
          if negb (m_x m) then Err EACCES
          else if bool_decide (c = [] ∨ c = B ".") then walk fs dir rest
          else if bool_decide (c = B "..") then walk fs (removelast dir) rest
          else match rest with
               | [] => Ok (dir ++ [c])
               | _ => walk fs (dir ++ [c]) rest
               end
      end
  | Some _ => Err ENOTDIR
  | None => Err ENOENT
  end.

Definition namei (w : world) (p : bytes) : rc path :=
  match p with
  | [] => Err ENOENT
  | c :: _ =>
      walk (w_fs w) (if bool_decide (c = "/"%char) then [] else w_cwd w) (split_path p)
  end.

(** A descriptor number not in use. *)
Definition fd_alloc (fds : gmap nat ofd) : nat :=
  S (map_fold (λ k _ acc, max k acc) 2 fds).

Record oflags := OFlags { o_creat : bool; o_write : bool }.
Definition O_RDONLY : oflags := OFlags false false.

(** Mode 0600, owned by the server. *)
Definition mode_0600 (w : world) : meta := Meta (w_euid w) true true false.

Definition new_fd (p : path) (w : world) : world * rc nat :=
  let fd := fd_alloc (w_fds w) in
  (set_fds (<[fd := OFile p 0]> (w_fds w)) w, Ok fd).

Definition do_open (p : bytes) (fl : oflags) (w : world) : world * rc nat :=
  match namei w p with
  | Err e => (w, Err e)
  | Ok q =>
      match w_fs w !! q with
      | None =>
          if negb (o_creat fl) then (w, Err ENOENT)
          else match w_fs w !! removelast q with
               | Some (NDir m) =>
                   if m_w m
                   then new_fd q (set_fs (<[q := NFile [] (mode_0600 w)]> (w_fs w)) w)
                   else (w, Err EACCES)
               | _ => (w, Err ENOENT)
               end
      | Some (NDir m) =>
          if o_creat fl || o_write fl then (w, Err EISDIR)
          else if m_r m then new_fd q w else (w, Err EACCES)
      | Some (NFile _ m) =>
          if (if o_write fl then m_w m else m_r m) then new_fd q w
          else (w, Err EACCES)
      | Some (NOther _) => (w, Err EIO)
      end
  end.
Definition sys_open (p : bytes) (fl : oflags) : world → world * rc nat := faulty (do_open p fl).

Definition drop_lock (p : path) (fd : nat) (locks : gmap path lstate) : gmap path lstate :=
  match locks !! p with
  | Some (LExclusive fd') => if decide (fd = fd') then delete p locks else locks
  | Some (LShared s) =>
      let s' := s ∖ {[fd]} in
      if decide (s' = ∅) then delete p locks else <[p := LShared s']> locks
  | None => locks
  end.

Definition sys_close (fd : nat) (w : world) : world :=
  match w_fds w !! fd with
  | Some (OFile p _) => set_flocks (drop_lock p fd (w_flocks w)) (set_fds (delete fd (w_fds w)) w)
  | _ => set_fds (delete fd (w_fds w)) w
  end.

Definition sock_fault (s : sock) : fault * list fault :=
  match sk_faults s with [] => (FNone, []) | f :: fl => (f, fl) end.

Definition sock_read (s : sock) (n : nat) : sock * rc bytes :=
  let '(f, fl) := sock_fault s in
  match f with
  | FErr e => (Sock (sk_in s) (sk_eof s) (sk_out s) fl, Err e)
  | _ =>
      match sk_in s with
      | [] => (Sock [] (sk_eof s) (sk_out s) fl, if sk_eof s then Ok [] else Err EAGAIN)
      | _ =>
          let k := transfer f (min n (length (sk_in s))) in
          (Sock (drop k (sk_in s)) (sk_eof s) (sk_out s) fl, Ok (take k (sk_in s)))
      end
  end.

Definition sock_write (s : sock) (data : bytes) : sock * rc nat :=
  let '(f, fl) := sock_fault s in
  match f with
  | FErr e => (Sock (sk_in s) (sk_eof s) (sk_out s) fl, Err e)
  | _ =>
      let k := transfer f (length data) in
      (Sock (sk_in s) (sk_eof s) (sk_out s ++ take k data) fl, Ok k)
  end.

Definition sys_read (fd n : nat) (w : world) : world * rc bytes :=
  match w_fds w !! fd with
  | Some (OSock c) =>
      match w_socks w !! c with
      | Some s => let '(s', r) := sock_read s n in (set_socks (<[c := s']> (w_socks w)) w, r)
      | None => (w, Err EBADF)
      end
  | Some (OFile p off) =>
      match w_fs w !! p with
      | Some (NFile d m) =>
          let '(f, w) := pop_fault w in
          match f with
          | FErr e => (w, Err e)
          | _ =>
              let avail := drop off d in
              let k := transfer f (min n (length avail)) in
              (set_fds (<[fd := OFile p (off + k)]> (w_fds w)) w, Ok (take k avail))
          end
      | _ => (w, Err EISDIR)
      end
  | None => (w, Err EBADF)
  end.

(** [data] written at offset [off]; a gap is filled with zeros. *)
Definition file_write (d : bytes) (off : nat) (data : bytes) : bytes :=
  store (d ++ replicate (off - length d) NUL) off data.

Definition sys_write (fd : nat) (data : bytes) (w : world) : world * rc nat :=
  match w_fds w !! fd with
  | Some (OSock c) =>
      match w_socks w !! c with
      | Some s => let '(s', r) := sock_write s data in (set_socks (<[c := s']> (w_socks w)) w, r)
      | None => (w, Err EBADF)
      end
  | Some (OFile p off) =>
      match w_fs w !! p with
      | Some (NFile d m) =>
          let '(f, w) := pop_fault w in
          match f with
          | FErr e => (w, Err e)
          | _ =>
              let k := transfer f (length data) in
              (set_fs (<[p := NFile (file_write d off (take k data)) m]> (w_fs w))
                 (set_fds (<[fd := OFile p (off + k)]> (w_fds w)) w), Ok k)
          end
      | _ => (w, Err EBADF)
      end
  | None => (w, Err EBADF)
  end.

Record stat := Stat { st_size : Z; st_isdir : bool; st_uid : Z }.

Definition stat_of (n : node) : stat :=
  match n with
  | NFile d m => Stat (Z.of_nat (length d)) false (m_uid m)
  | NDir m => Stat 4096 true (m_uid m)
  | NOther m => Stat 0 false (m_uid m)
  end.

Definition do_fstat (fd : nat) (w : world) : world * rc stat :=
  match w_fds w !! fd with
  | Some (OFile p _) =>
      match w_fs w !! p with
      | Some n => (w, Ok (stat_of n))
      | None => (w, Err EBADF)
      end
  | _ => (w, Err EBADF)
  end.
Definition sys_fstat (fd : nat) : world → world * rc stat := faulty (do_fstat fd).

(** [ftruncate(fd, 0)] *)
Definition do_ftruncate (fd : nat) (w : world) : world * rc unit :=
  match w_fds w !! fd with
  | Some (OFile p _) =>
      match w_fs w !! p with
      | Some (NFile _ m) => (set_fs (<[p := NFile [] m]> (w_fs w)) w, Ok tt)
      | _ => (w, Err EBADF)
      end
  | _ => (w, Err EBADF)
  end.
Definition sys_ftruncate (fd : nat) : world → world * rc unit := faulty (do_ftruncate fd).

(** [access(p, F_OK) == 0] *)
Definition sys_access (p : bytes) (w : world) : bool :=
  match namei w p with
  | Ok q => match w_fs w !! q with Some _ => true | None => false end
  | Err _ => false
  end.

Definition call_access (p : bytes) (w : world) : world * bool :=
  let '(f, w) := pop_fault w in
  (w, match f with FErr _ => false | _ => sys_access p w end).

Inductive lockop := LOCK_SH | LOCK_EX | LOCK_UN.

#[export] Instance lockop_eq_dec : EqDecision lockop.
Proof. solve_decision. Defined.

(** Taking a lock blocks while another description holds a conflicting one. *)
Definition take_lock (p : path) (fd : nat) (op : lockop) (locks : gmap path lstate) :
    option (gmap path lstate) :=
  match op, locks !! p with
  | LOCK_UN, _ => Some (drop_lock p fd locks)
  | LOCK_SH, None => Some (<[p := LShared {[fd]}]> locks)
  | LOCK_SH, Some (LShared s) => Some (<[p := LShared ({[fd]} ∪ s)]> locks)
  | LOCK_SH, Some (LExclusive _) => None
  | LOCK_EX, None => Some (<[p := LExclusive fd]> locks)
  | LOCK_EX, Some _ => None
  end.

Definition sys_flock (fd : nat) (op : lockop) (w : world) : option (world * rc unit) :=
  match w_fds w !! fd with
  | Some (OFile p _) =>
      if decide (op = LOCK_UN)
      then Some (set_flocks (drop_lock p fd (w_flocks w)) w, Ok tt)
      else
        let '(f, w) := pop_fault w in
        match f with
        | FErr e => Some (w, Err e)
        | _ =>
            match take_lock p fd op (w_flocks w) with
            | Some locks => Some (set_flocks locks w, Ok tt)
            | None => None
            end
        end
  | _ => Some (w, Err EBADF)
  end.

Definition do_mkdir (p : bytes) (w : world) : world * rc unit :=
  match namei w p with
  | Err e => (w, Err e)
  | Ok q =>
      match w_fs w !! q, w_fs w !! removelast q with
      | Some _, _ => (w, Err EEXIST)
      | None, Some (NDir m) =>
          if m_w m
          then (set_fs (<[q := NDir (Meta (w_euid w) true true true)]> (w_fs w)) w, Ok tt)
          else (w, Err EACCES)
      | None, _ => (w, Err ENOENT)
      end
  end.
Definition sys_mkdir (p : bytes) : world → world * rc unit := faulty (do_mkdir p).

Definition do_lstat (p : bytes) (w : world) : world * rc stat :=
  match namei w p with
  | Err e => (w, Err e)
  | Ok q => match w_fs w !! q with
            | Some n => (w, Ok (stat_of n))
            | None => (w, Err ENOENT)
            end
  end.
Definition sys_lstat (p : bytes) : world → world * rc stat := faulty (do_lstat p).

(** A library call that only fails for want of memory. *)
Definition sys_alloc (w : world) : world * bool :=
  let '(f, w) := pop_fault w in
  (w, match f with FErr _ => false | _ => true end).

(** ** Events *)

Variant sysE : Type → Type :=
  | Open (p : bytes) (fl : oflags) : sysE (rc nat)
  | Close (fd : nat) : sysE unit
  | Read (fd n : nat) : sysE (rc bytes)
  | Write (fd : nat) (data : bytes) : sysE (rc nat)
  | Fstat (fd : nat) : sysE (rc stat)
  | Ftruncate (fd : nat) : sysE (rc unit)
  | Access (p : bytes) : sysE bool
  | Flock (fd : nat) (op : lockop) : sysE (rc unit)
  | Mkdir (p : bytes) : sysE (rc unit)
  | Lstat (p : bytes) : sysE (rc stat)
  | StatCwd : sysE (rc (Z * Z))       (* stat of the working directory: device and inode *)
  | Geteuid : sysE Z
  | Alloc : sysE bool                 (* calloc, regcomp *)
  | LogLock : sysE unit               (* pthread_mutex_lock(&log_mu) *)
  | LogUnlock : sysE unit
  | GetLogStream : sysE stream
  | SetLogStream (s : stream) : sysE unit
  | Fprintf (text : bytes) : sysE unit
  | Fflush : sysE unit
  | Fclose : sysE unit.

Definition sys_stat_cwd : world → world * rc (Z * Z) := faulty (λ w, (w, Ok (w_cwd_id w))).

(** Calls on the audit stream: a text is put into its buffer, and the buffer
    into the file.  A call that fails may have done so with a part of the text;
    what is left is lost. *)
Definition pop_log_fault (w : world) : fault * world :=
  match w_log_faults w with
  | [] => (FNone, w)
  | f :: fl => (f, set_log_faults fl w)
  end.

Definition log_part (f : fault) (text : bytes) : bytes :=
  match f with FNone => text | FShort k => take k text | FErr _ => [] end.

Definition print_log (text : bytes) (w : world) : world :=
  let '(f, w) := pop_log_fault w in
  set_log (w_log_stream w) (w_log_mu w) (w_log_buf w ++ log_part f text) (w_log_out w) w.

Definition flush_log (w : world) : world :=
  let '(f, w) := pop_log_fault w in
  set_log (w_log_stream w) (w_log_mu w) [] (w_log_out w ++ log_part f (w_log_buf w)) w.

#[export] Instance posix : Kernel sysE world := λ X e w,
  match e in sysE X return option (world * X) with
  | Open p fl => Some (sys_open p fl w)
  | Close fd => Some (sys_close fd w, tt)
  | Read fd n => Some (sys_read fd n w)
  | Write fd data => Some (sys_write fd data w)
  | Fstat fd => Some (sys_fstat fd w)
  | Ftruncate fd => Some (sys_ftruncate fd w)
  | Access p => Some (call_access p w)
  | Flock fd op => sys_flock fd op w
  | Mkdir p => Some (sys_mkdir p w)
  | Lstat p => Some (sys_lstat p w)
  | StatCwd => Some (sys_stat_cwd w)
  | Geteuid => Some (w, w_euid w)
  | Alloc => Some (sys_alloc w)
  | LogLock =>
      if w_log_mu w then None
      else Some (set_log (w_log_stream w) true (w_log_buf w) (w_log_out w) w, tt)
  | LogUnlock => Some (set_log (w_log_stream w) false (w_log_buf w) (w_log_out w) w, tt)
  | GetLogStream => Some (w, w_log_stream w)
  | SetLogStream s => Some (set_log s (w_log_mu w) (w_log_buf w) (w_log_out w) w, tt)
  | Fprintf text => Some (print_log text w, tt)
  | Fflush => Some (flush_log w, tt)
  | Fclose => Some (flush_log w, tt)
  end.

(** ** Worlds up to the fault lists

    [w ≡ w'] when the two differ only in which faults are still to come. *)

Definition unfault (s : sock) : sock := Sock (sk_in s) (sk_eof s) (sk_out s) [].
Definition strip (w : world) : world :=
  set_faults [] (set_socks (unfault <$> w_socks w) w).

#[export] Instance world_equiv : Equiv world := λ w w', strip w = strip w'.
#[export] Instance world_equivalence : Equivalence (≡@{world}).
Proof.
  split; unfold equiv, world_equiv; [by intros w|by intros w w'|].
  intros w w' w'' H1 H2. by rewrite H1.
Qed.

#[export] Instance w_fs_proper : Proper ((≡) ==> (=)) w_fs.
Proof. intros w w' H. by injection H. Qed.
#[export] Instance w_fds_proper : Proper ((≡) ==> (=)) w_fds.
Proof. intros w w' H. by injection H. Qed.
#[export] Instance w_flocks_proper : Proper ((≡) ==> (=)) w_flocks.
Proof. intros w w' H. by injection H. Qed.
#[export] Instance w_log_out_proper : Proper ((≡) ==> (=)) w_log_out.
Proof. intros w w' H. by injection H. Qed.
#[export] Instance w_log_faults_proper : Proper ((≡) ==> (=)) w_log_faults.
Proof. intros w w' H. by injection H. Qed.
#[export] Instance w_log_buf_proper : Proper ((≡) ==> (=)) w_log_buf.
Proof. intros w w' H. by injection H. Qed.
#[export] Instance w_log_mu_proper : Proper ((≡) ==> (=)) w_log_mu.
Proof. intros w w' H. by injection H. Qed.
#[export] Instance w_log_stream_proper : Proper ((≡) ==> (=)) w_log_stream.
Proof. intros w w' H. by injection H. Qed.
#[export] Instance w_cwd_proper : Proper ((≡) ==> (=)) w_cwd.
Proof. intros w w' H. by injection H. Qed.
#[export] Instance w_cwd_id_proper : Proper ((≡) ==> (=)) w_cwd_id.
Proof. intros w w' H. by injection H. Qed.
#[export] Instance w_euid_proper : Proper ((≡) ==> (=)) w_euid.
Proof. intros w w' H. by injection H. Qed.

Lemma unfault_idem (m : gmap nat sock) : unfault <$> (unfault <$> m) = unfault <$> m.
Proof. rewrite <- map_fmap_compose. by apply map_fmap_ext. Qed.

Lemma world_equiv_cong (f : world → world) w w' :
  (∀ w, strip (f w) = strip (f (strip w))) → w ≡ w' → f w ≡ f w'.
Proof. unfold equiv, world_equiv. intros Hf H. by rewrite Hf, H, <- Hf. Qed.

#[export] Instance set_fs_proper x : Proper ((≡) ==> (≡)) (set_fs x).
Proof. intros w w'. apply world_equiv_cong. intros v. unfold strip; cbn. by rewrite unfault_idem. Qed.
#[export] Instance set_fds_proper x : Proper ((≡) ==> (≡)) (set_fds x).
Proof. intros w w'. apply world_equiv_cong. intros v. unfold strip; cbn. by rewrite unfault_idem. Qed.
#[export] Instance set_flocks_proper x : Proper ((≡) ==> (≡)) (set_flocks x).
Proof. intros w w'. apply world_equiv_cong. intros v. unfold strip; cbn. by rewrite unfault_idem. Qed.
#[export] Instance set_log_proper s mu buf out :
  Proper ((≡) ==> (≡)) (set_log s mu buf out).
Proof. intros w w'. apply world_equiv_cong. intros v. unfold strip; cbn. by rewrite unfault_idem. Qed.

Lemma set_faults_equiv fl w : set_faults fl w ≡ w.
Proof. done. Qed.

(** Updating a socket: only its visible part matters. *)
Definition upd_sock (c : nat) (f : sock → sock) (w : world) : world :=
  set_socks (alter f c (w_socks w)) w.

Lemma pop_fault_spec w f w' : pop_fault w = (f, w') →
  ∃ fl, w' = set_faults fl w ∧
  match f with
  | FErr e => resource_errno e = true ∧ (length fl < length (w_faults w))%nat
  | _ => (length fl ≤ length (w_faults w))%nat
  end.
Proof.
  unfold pop_fault. destruct (w_faults w) as [|g fl] eqn:Hf.
  - intros [= <- <-]. exists []. split; [|lia]. rewrite <- Hf. by destruct w.
  - intros [= <- <-]. exists fl. split; [done|].
    destruct g as [| |e]; cbn [length]; [lia..|]. destruct (resource_errno e) eqn:He; [|lia]. split; [done|lia].
Qed.

(** *** Worlds without errors to come

    [calm c w]: calls on files and on socket [c] may be cut short but meet no
    spurious error.  [quiet q c w]: so it is in [w] if [q]. *)
Definition no_err (f : fault) : Prop := match f with FErr _ => False | _ => True end.
Definition calm (c : nat) (w : world) : Prop :=
  Forall no_err (w_faults w) ∧
  ∀ s, w_socks w !! c = Some s → Forall no_err (sk_faults s).
Definition quiet (q : Prop) (c : nat) (w : world) : Prop := q → calm c w.

Lemma quiet_self c w : quiet (calm c w) c w.
Proof. by intros H. Qed.
#[export] Hint Resolve quiet_self : http.

Lemma pop_fault_no_err w f w' : pop_fault w = (f, w') →
  Forall no_err (w_faults w) → Forall no_err (w_faults w') ∧ no_err f.
Proof.
  unfold pop_fault. destruct (w_faults w) as [|g fl] eqn:Hf.
  - intros [= <- <-] H. by rewrite Hf.
  - intros [= <- <-] H. inversion_clear H. cbn. split; [done|]. by destruct g.
Qed.

Lemma pop_fault_quiet q c w f w' : pop_fault w = (f, w') →
  quiet q c w → quiet q c w' ∧ (q → no_err f).
Proof.
  intros Hp Hq. destruct (pop_fault_spec _ _ _ Hp) as (fl & -> & _). split.
  - intros Hh. destruct (Hq Hh) as [H1 H2]. split; [|done].
    by eapply pop_fault_no_err in Hp as [? _].
  - intros Hh. destruct (Hq Hh) as [H1 _]. by eapply pop_fault_no_err in Hp as [_ ?].
Qed.

Lemma sock_read_calm s n s' r : sock_read s n = (s', r) →
  Forall no_err (sk_faults s) → Forall no_err (sk_faults s') ∧
  match r with Err e => sk_in s = [] ∧ sk_eof s = false ∧ e = EAGAIN | Ok _ => True end.
Proof.
  unfold sock_read, sock_fault. intros Hr H.
  destruct H as [|f fl Hf Hfl]; [|destruct f; [..|done]];
    destruct (sk_in s); [destruct (sk_eof s)| |destruct (sk_eof s)| |destruct (sk_eof s)|];
    injection Hr as <- <-; done.
Qed.

Lemma sock_write_calm s data s' r : sock_write s data = (s', r) →
  Forall no_err (sk_faults s) → Forall no_err (sk_faults s') ∧
  match r with Err e => False | Ok _ => True end.
Proof.
  unfold sock_write, sock_fault. intros Hr H.
  destruct H as [|f fl Hf Hfl]; [|destruct f; [..|done]]; injection Hr as <- <-; done.
Qed.

Lemma calm_set_sock c s s' w : w_socks w !! c = Some s →
  (Forall no_err (sk_faults s) → Forall no_err (sk_faults s')) →
  calm c w → calm c (set_socks (<[c := s']> (w_socks w)) w).
Proof.
  intros Hs Hss [H1 H2]. split; [done|]. cbn. intros s''.
  rewrite lookup_insert_eq. intros [= <-]. by apply Hss, H2.
Qed.

Lemma transfer_bounds f n : (transfer f n ≤ n)%nat ∧ ((0 < n)%nat → (0 < transfer f n)%nat).
Proof. destruct f; cbn [transfer]; lia. Qed.

Lemma fd_alloc_fresh fds : fds !! fd_alloc fds = None.
Proof.
  unfold fd_alloc. destruct (fds !! _) as [o|] eqn:Ho; [|done]. exfalso.
  assert (Hmax : ∀ k x, fds !! k = Some x →
    (k ≤ map_fold (λ k _ acc, max k acc) 2 fds)%nat).
  { apply (map_fold_weak_ind (λ (r : nat) (m : gmap nat ofd),
      ∀ k x, m !! k = Some x → (k ≤ r)%nat)).
    - intros k x. by rewrite lookup_empty.
    - intros i x m r Hi IH k y. rewrite lookup_insert. case_decide; [lia|].
      intros ?%IH. lia. }
  apply Hmax in Ho. lia.
Qed.

(** *** Calls up to faults

    [CallProper body]: the call depends on no fault list and leaves the fault
    lists alone, so its outcome is the same in equivalent worlds. *)
Class CallProper {A} (body : world → world * rc A) : Prop := call_proper :
  ∀ w v, w ≡ v → (body w).2 = (body v).2 ∧ (body w).1 ≡ (body v).1 ∧
    w_faults (body w).1 = w_faults w ∧ w_socks (body w).1 = w_socks w.

Lemma namei_proper w v p : w ≡ v → namei w p = namei v p.
Proof. intros H. unfold namei. by rewrite (w_fs_proper _ _ H), (w_cwd_proper _ _ H). Qed.

Ltac solve_call_proper :=
  intros w v H;
  rewrite ?(namei_proper _ _ _ H), ?(w_fs_proper _ _ H), ?(w_fds_proper _ _ H),
    ?(w_euid_proper _ _ H), ?(w_cwd_id_proper _ _ H);
  repeat case_match; cbn; split_and!;
  rewrite ?(w_fs_proper _ _ H), ?(w_fds_proper _ _ H); try done;
  repeat first [apply set_fs_proper | apply set_fds_proper]; try done.

#[export] Instance do_open_proper p fl : CallProper (do_open p fl).
Proof.
  unfold CallProper, do_open, new_fd, mode_0600. solve_call_proper.
Qed.
#[export] Instance do_fstat_proper fd : CallProper (do_fstat fd).
Proof. unfold CallProper, do_fstat. solve_call_proper. Qed.
#[export] Instance do_ftruncate_proper fd : CallProper (do_ftruncate fd).
Proof. unfold CallProper, do_ftruncate. solve_call_proper. Qed.
#[export] Instance do_mkdir_proper p : CallProper (do_mkdir p).
Proof. unfold CallProper, do_mkdir. solve_call_proper. Qed.
#[export] Instance do_lstat_proper p : CallProper (do_lstat p).
Proof. unfold CallProper, do_lstat. solve_call_proper. Qed.
#[export] Instance stat_cwd_proper : CallProper (λ w, (w, Ok (w_cwd_id w))).
Proof. unfold CallProper. solve_call_proper. Qed.

(** A faulty call fails on its own account, or does what its body does. *)
Lemma faulty_spec {A} (body : world → world * rc A) `{!CallProper body} w v q c w' r :
  w ≡ v → quiet q c w → faulty body w = (w', r) →
  quiet q c w' ∧
  ((w' ≡ v ∧ ¬ q ∧ ∃ e, resource_errno e = true ∧ r = Err e) ∨
   (w' ≡ (body v).1 ∧ r = (body v).2)).
Proof.
  intros Hw Hq. unfold faulty. destruct (pop_fault w) as [f w1] eqn:Hf.
  destruct (pop_fault_quiet q c _ _ _ Hf Hq) as [Hq1 Hne].
  apply pop_fault_spec in Hf as (fl & -> & Hf).
  assert (Hw1 : set_faults fl w ≡ v) by (by rewrite set_faults_equiv).
  destruct (call_proper (body := body) _ _ Hw1) as (Hr & Hv & Hfl & Hsk).
  assert (Hgood : body (set_faults fl w) = (w', r) →
    quiet q c w' ∧ ((w' ≡ v ∧ ¬ q ∧ ∃ e, resource_errno e = true ∧ r = Err e) ∨
     (w' ≡ (body v).1 ∧ r = (body v).2))).
  { intros Hb. rewrite Hb in *. cbn in *. split; [|by right].
    intros Hh. destruct (Hq1 Hh) as [H1 H2]. split; [by rewrite Hfl|].
    by rewrite Hsk. }
  destruct f as [| |e]; [done..|]. intros [= <- <-]. split; [done|]. left.
  split; [done|]. split; [by intros ?%Hne|]. exists e. by destruct Hf.
Qed.

(** What one call on a socket does. *)
Lemma sock_fault_spec s f fl : sock_fault s = (f, fl) →
  (length fl ≤ length (sk_faults s))%nat ∧
  (∀ e, f = FErr e → (length fl < length (sk_faults s))%nat).
Proof.
  unfold sock_fault. destruct (sk_faults s) as [|g l]; intros [= <- <-];
    (split; [cbn; lia|]); intros e; [done|cbn; lia].
Qed.

(** Outcome of a read of at most [n] bytes: progress is made, or the source is
    exhausted and closed, or an error is reported; an interruption uses up a
    fault. *)
Definition sock_read_post (s : sock) (n : nat) (s' : sock) (r : rc bytes) : Prop :=
  sk_eof s' = sk_eof s ∧ sk_out s' = sk_out s ∧
  match r with
  | Ok d => d ++ sk_in s' = sk_in s ∧ (length d ≤ n)%nat ∧
            (d = [] → sk_in s = [] ∧ sk_eof s = true) ∧
            (length (sk_faults s') ≤ length (sk_faults s))%nat
  | Err e => sk_in s' = sk_in s ∧ (length (sk_faults s') ≤ length (sk_faults s))%nat ∧
             (e = EINTR → (length (sk_faults s') < length (sk_faults s))%nat)
  end.

Lemma sock_read_law s n s' r :
  (0 < n)%nat → sock_read s n = (s', r) → sock_read_post s n s' r.
Proof.
  intros Hn. unfold sock_read, sock_read_post. destruct (sock_fault s) as [f fl] eqn:Hf.
  apply sock_fault_spec in Hf as [Hle Hlt].
  pose proof (transfer_bounds f (min n (length (sk_in s)))) as [Hk Hpos].
  remember (transfer f (min n (length (sk_in s)))) as k eqn:Heq. clear Heq.
  destruct f as [| |e].
  3: { intros [= <- <-]. cbn. repeat split; eauto. }
  all: destruct (sk_in s) as [|b inp] eqn:Hin.
  1,3: destruct (sk_eof s) eqn:He; intros [= <- <-]; cbn; repeat split; (lia || done).
  all: intros [= <- <-]; cbn [sk_in sk_eof sk_out sk_faults length] in *.
  all: rewrite take_drop, length_take; cbn [length]; repeat split; auto; try lia.
  all: destruct k; [lia|done].
Qed.

Lemma sock_write_law s data s' r : data ≠ [] → sock_write s data = (s', r) →
  sk_in s' = sk_in s ∧ sk_eof s' = sk_eof s ∧
  match r with
  | Ok k => (0 < k ≤ length data)%nat ∧ sk_out s' = sk_out s ++ take k data ∧
            (length (sk_faults s') ≤ length (sk_faults s))%nat
  | Err e => sk_out s' = sk_out s ∧ (length (sk_faults s') < length (sk_faults s))%nat
  end.
Proof.
  intros Hd. assert (0 < length data)%nat by (destruct data; cbn; [done|lia]).
  unfold sock_write. destruct (sock_fault s) as [f fl] eqn:Hf.
  apply sock_fault_spec in Hf as [Hle Hlt].
  pose proof (transfer_bounds f (length data)) as [Hk Hpos].
  remember (transfer f (length data)) as k eqn:Heq. clear Heq.
  destruct f as [| |e]; intros [= <- <-]; cbn; repeat split; eauto; lia.
Qed.

(** *** All clients without errors to come *)

(** [serene w]: no call of any client will meet a spurious error. *)
Definition serene (w : world) : Prop := ∀ c, calm c w.

Lemma serene_map w : Forall no_err (w_faults w) →
  map_Forall (λ _ s, Forall no_err (sk_faults s)) (w_socks w) → serene w.
Proof. intros Hf Hs c. split; [done|]. apply Hs. Qed.

Lemma serene_same w w' : w_faults w' = w_faults w → w_socks w' = w_socks w → serene w → serene w'.
Proof. intros Hf Hs H c. destruct (H c) as [H1 H2]. split; [by rewrite Hf|by rewrite Hs]. Qed.

Lemma serene_faults fl w : Forall no_err fl → serene w → serene (set_faults fl w).
Proof. intros Hfl H c. destruct (H c) as [_ H2]. by split. Qed.

Lemma pop_fault_serene w f w' : pop_fault w = (f, w') → serene w → serene w' ∧ no_err f.
Proof.
  intros Hp H. destruct (pop_fault_spec _ _ _ Hp) as (fl & -> & _).
  destruct (H 0) as [H1 _]. destruct (pop_fault_no_err _ _ _ Hp H1) as [H2 Hf].
  split; [by apply serene_faults|done].
Qed.

Lemma serene_sock c s s' w : w_socks w !! c = Some s →
  (Forall no_err (sk_faults s) → Forall no_err (sk_faults s')) →
  serene w → serene (set_socks (<[c := s']> (w_socks w)) w).
Proof.
  intros Hs Hss H c'. destruct (H c') as [H1 H2]. split; [done|]. cbn. intros s2.
  rewrite lookup_insert. case_decide; [|apply H2]. subst. intros [= <-]. by apply Hss, H2.
Qed.

Lemma faulty_serene {A} (body : world → world * rc A) `{!CallProper body} w :
  serene w → serene (faulty body w).1.
Proof.
  intros H. unfold faulty. destruct (pop_fault w) as [f w1] eqn:Hp.
  apply pop_fault_serene in Hp as [H1 _]; [|done].
  destruct (call_proper (body := body) w1 w1 ltac:(done)) as (_ & _ & Hf & Hs).
  destruct f; cbn; [by eapply serene_same..|done].
Qed.

(** Every call keeps it so. *)
Lemma sys_serene {X} (e : sysE X) w w' x : sys e w = Some (w', x) → serene w → serene w'.
Proof.
  assert (Hst : ∀ A (p : world * A) (a : A), serene p.1 → Some p = Some (w', a) → serene w').
  { by intros A [w1 y] a H [= <- <-]. }
  assert (Hk : ∀ w1, serene w → w_faults w1 = w_faults w → w_socks w1 = w_socks w → serene w1).
  { intros w1 H ? ?. by eapply serene_same. }
  intros Hs H. destruct e; cbn in Hs.
  all: try (by eapply Hst; [|exact Hs]; apply faulty_serene; [apply _|]).
  all: try (unfold print_log, flush_log, pop_log_fault in Hs; repeat case_match; simplify_eq; by apply Hk).
  - unfold sys_close in Hs. repeat case_match; simplify_eq; by apply Hk.
  - unfold sys_read in Hs. destruct (w_fds w !! fd) as [[p off|c]|]; [| |by simplify_eq].
    + destruct (w_fs w !! p) as [[]|]; try by simplify_eq.
      destruct (pop_fault w) as [f w1] eqn:Hp. apply pop_fault_serene in Hp as [H1 _]; [|done].
      destruct f; simplify_eq; try done; by eapply serene_same.
    + destruct (w_socks w !! c) as [s|] eqn:Hc; [|by simplify_eq].
      destruct (sock_read s n) as [s' r] eqn:Hr. simplify_eq.
      eapply serene_sock; [done| |done]. intros Hf. by eapply sock_read_calm in Hr as [? _].
  - unfold sys_write in Hs. destruct (w_fds w !! fd) as [[p off|c]|]; [| |by simplify_eq].
    + destruct (w_fs w !! p) as [[]|]; try by simplify_eq.
      destruct (pop_fault w) as [f w1] eqn:Hp. apply pop_fault_serene in Hp as [H1 _]; [|done].
      destruct f; simplify_eq; try done; by eapply serene_same.
    + destruct (w_socks w !! c) as [s|] eqn:Hc; [|by simplify_eq].
      destruct (sock_write s data) as [s' r] eqn:Hr. simplify_eq.
      eapply serene_sock; [done| |done]. intros Hf. by eapply sock_write_calm in Hr as [? _].
  - unfold call_access in Hs. destruct (pop_fault w) as [f w1] eqn:Hp.
    apply pop_fault_serene in Hp as [H1 _]; [|done]. by simplify_eq.
  - unfold sys_flock in Hs. destruct (w_fds w !! fd) as [[p off|c]|]; [|by simplify_eq..].
    case_decide; [simplify_eq; by apply Hk|].
    destruct (pop_fault w) as [f w1] eqn:Hp. apply pop_fault_serene in Hp as [H1 _]; [|done].
    destruct f; repeat case_match; simplify_eq; try done; by eapply serene_same.
  - unfold sys_alloc in Hs. destruct (pop_fault w) as [f w1] eqn:Hp.
    apply pop_fault_serene in Hp as [H1 _]; [|done]. by simplify_eq.
Qed.

(** ... and so does every program. *)
Lemma evals_serene {R} (t : itree sysE R) w r w' : evals t w r w' → serene w → serene w'.
Proof.
  induction 1 as [|t w t1 w1 r w' Hs _ IH]; [done|]. intros H. apply IH.
  unfold step_thread in Hs. destruct (observe t) as [|t'|X e k]; [done|by simplify_eq|].
  destruct (sys e w) as [[w2 x]|] eqn:He; [|done]. simplify_eq. by eapply sys_serene.
Qed.

Lemma wpt_serene {R} (t : itree sysE R) w Q : serene w → wpt t w Q →
  wpt t w (λ r w', Q r w' ∧ serene w').
Proof. intros H (r & w' & He & HQ). exists r, w'. split; [done|]. split; [done|]. by eapply evals_serene. Qed.
