(* ===== verification/Util.v ===== *)
(** * IO helpers (src/util.c)

    The loops are [ITree.iter]; counts of type size_t and ssize_t are [Z].
    The theorems are total: on every world, with any faults, each function
    returns, and the bytes it moved are accounted for. *)
From S2P Require Import Prelude Libc Prog Posix.
Local Open Scope Z_scope.
Local Open Scope prog_scope.

Definition BUFFER_SIZE : Z := 4096.

(** [buf[off .. off + n)] as an argument of write. *)
Definition slice (buf : bytes) (off n : Z) : bytes :=
  take (Z.to_nat n) (drop (Z.to_nat off) buf).

Definition write_all (connfd : nat) (buffer : bytes) (nbytes : Z) : itree sysE (rc Z) :=
  ITree.iter (λ total,
    if total <? nbytes then
      let! n := ! (Write connfd (slice buffer total (nbytes - total))) in
      match n with
      | Err e => if bool_decide (e = EINTR) then Ret (inl total) else Ret (inr (Err e))
      | Ok n => Ret (inl (total + Z.of_nat n))
      end
    else Ret (inr (Ok total))) 0.

(** The [do ... while (n < 0 && errno == EINTR)] around read. *)
Definition read_retry (fd : nat) (want : Z) : itree sysE (rc bytes) :=
  ITree.iter (λ _ : unit,
    let! r := ! (Read fd (Z.to_nat want)) in
    match r with
    | Err e => if bool_decide (e = EINTR) then Ret (inl tt) else Ret (inr (Err e))
    | Ok d => Ret (inr (Ok d))
    end) tt.

Definition pass_bytes (src dst : nat) (nbytes : Z) : itree sysE (rc Z) :=
  ITree.iter (λ total,
    if total <? nbytes then
      let want := Z.min (nbytes - total) BUFFER_SIZE in
      let! r := read_retry src want in
      match r with
      | Err e => Ret (inr (Err e))
      | Ok [] => Ret (inr (Ok total))
      | Ok buf =>
          let nread := Z.of_nat (length buf) in
          let! written := write_all dst buf nread in
          match written with
          | Err e => Ret (inr (Err e))
          | Ok _ => Ret (inl (total + nread))
          end
      end
    else Ret (inr (Ok total))) 0.

(** The search for the needle in the first [total] bytes of the buffer. *)
Definition needle_found (buf : bytes) (total : nat) (needle : bytes) : bool :=
  (0 <? length needle)%nat && (length needle <=? total)%nat &&
  existsb (λ i, memeq (drop i buf) needle (length needle))
    (seq 0 (S total - length needle)).

(** Returns the result and the buffer; a NULL [string] is [None]. *)
Definition read_until (in_ : nat) (buf : bytes) (nbytes : Z) (string : option bytes) :
    itree sysE (rc Z * bytes) :=
  let needle := default [] string in
  ITree.iter (λ '(total, buf),
    if total <? nbytes then
      let! r := read_retry in_ (nbytes - total) in
      match r with
      | Err e => Ret (inr (Err e, buf))
      | Ok [] => Ret (inr (Ok total, buf))
      | Ok d =>
          let buf := store buf (Z.to_nat total) d in
          let total := total + Z.of_nat (length d) in
          if needle_found buf (Z.to_nat total) needle
          then Ret (inr (Ok total, buf)) else Ret (inl (total, buf))
      end
    else Ret (inr (Ok total, buf))) (0, buf).

(** ** Descriptors as byte streams

    What the loops need of the descriptors they work on.  [P rest a w]: in
    world [w] the descriptor has [rest] still to deliver (and the frame, which
    no read changes, is [a]); [P a out w]: [out] was written so far.  [mu]
    counts the faults to come, and [err] says which errors can be reported
    (for a read, with [rest] pending).  Sockets and files are instances
    ([sock_reader], [file_writer], ... below). *)

Class Reader {A : Type} (fd : nat) (P : bytes → A → world → Prop) (mu : world → nat)
    (err : bytes → errno → Prop) :=
  read_law : ∀ rest a w n w' r, P rest a w → (0 < n)%nat → sys_read fd n w = (w', r) →
    match r with
    | Ok d => ∃ rest', rest = d ++ rest' ∧ (length d ≤ n)%nat ∧ (d = [] → rest = []) ∧
                       P rest' a w' ∧ (mu w' ≤ mu w)%nat
    | Err e => P rest a w' ∧ (mu w' ≤ mu w)%nat ∧ (e = EINTR → (mu w' < mu w)%nat) ∧ err rest e
    end.

Class Writer {A : Type} (fd : nat) (P : A → bytes → world → Prop) (mu : world → nat)
    (err : errno → Prop) :=
  write_law : ∀ a out w data w' r, P a out w → data ≠ [] → sys_write fd data w = (w', r) →
    match r with
    | Ok k => (0 < k ≤ length data)%nat ∧ P a (out ++ take k data) w' ∧ (mu w' ≤ mu w)%nat
    | Err e => P a out w' ∧ (mu w' < mu w)%nat ∧ err e
    end.

Section writing.
Context {A : Type} (fd : nat) (P : A → bytes → world → Prop) (mu : world → nat).
Context (err : errno → Prop) `{!Writer fd P mu err}.

Lemma write_all_spec a out w buf n :
  P a out w → 0 ≤ n ≤ Z.of_nat (length buf) →
  wpt (write_all fd buf n) w (λ r w', ∃ k,
    (k ≤ Z.to_nat n)%nat ∧ P a (out ++ take k buf) w' ∧ (mu w' ≤ mu w)%nat ∧
    match r with
    | Ok m => m = n ∧ k = Z.to_nat n
    | Err e => e ≠ EINTR ∧ (k < Z.to_nat n)%nat ∧ err e
    end).
Proof.
  intros HP Hn.
  set (I := λ (total : Z) w1, 0 ≤ total ≤ n ∧
    P a (out ++ take (Z.to_nat total) buf) w1 ∧ (mu w1 ≤ mu w)%nat).
  apply (wpt_iter _ I (λ total w1, Z.to_nat (n - total) + mu w1)%nat).
  2: { unfold I. cbn. rewrite app_nil_r. split; [lia|done]. }
  intros total w1 (Ht & HP1 & Hmu). destruct (Z.ltb_spec total n).
  2: { apply wpt_ret. exists (Z.to_nat total). assert (total = n) as -> by lia. done. }
  apply wpt_bind.
  destruct (sys_write fd (slice buf total (n - total)) w1) as [w2 r] eqn:Hw.
  eapply wpt_trigger; [cbn; by rewrite Hw|].
  assert (Hlen : length (slice buf total (n - total)) = Z.to_nat (n - total)).
  { unfold slice. rewrite length_take, length_drop. lia. }
  apply (write_law a _ _ _ _ _ HP1) in Hw.
  2: { intros Hnil. rewrite Hnil in Hlen. cbn in Hlen. lia. }
  destruct r as [k|e].
  - destruct Hw as (Hk & HP2 & Hmu2). apply wpt_ret. rewrite Hlen in Hk.
    split; [|lia]. split; [lia|]. split; [|lia].
    rewrite <- app_assoc in HP2. unfold slice in HP2. rewrite take_take in HP2.
    replace (Z.to_nat (total + Z.of_nat k)) with (Z.to_nat total + k)%nat by lia.
    rewrite <- take_take_drop. by rewrite Nat.min_l in HP2 by lia.
  - destruct Hw as (HP2 & Hmu2 & He). case_bool_decide; apply wpt_ret.
    + split; [|lia]. split; [lia|]. split; [done|lia].
    + exists (Z.to_nat total). split; [lia|]. split; [done|]. split; [lia|].
      split; [done|]. split; [lia|done].
Qed.

End writing.

Section reading.
Context {A : Type} (fd : nat) (P : bytes → A → world → Prop) (mu : world → nat).
Context (err : bytes → errno → Prop) `{!Reader fd P mu err}.

Lemma read_retry_spec rest a w want :
  P rest a w → 0 < want →
  wpt (read_retry fd want) w (λ r w', (mu w' ≤ mu w)%nat ∧
    match r with
    | Ok d => ∃ rest', rest = d ++ rest' ∧ Z.of_nat (length d) ≤ want ∧
                       (d = [] → rest = []) ∧ P rest' a w'
    | Err e => e ≠ EINTR ∧ P rest a w' ∧ err rest e
    end).
Proof.
  intros HP Hwant.
  apply (wpt_iter _ (λ _ w1, P rest a w1 ∧ (mu w1 ≤ mu w)%nat) (λ _ w1, mu w1)); [|done].
  intros [] w1 [HP1 Hmu]. apply wpt_bind.
  destruct (sys_read fd (Z.to_nat want) w1) as [w2 r] eqn:Hr.
  eapply wpt_trigger; [cbn; by rewrite Hr|].
  apply (read_law _ _ _ _ _ _ HP1) in Hr; [|lia]. destruct r as [d|e].
  - destruct Hr as (rest' & -> & Hlen & Hd & HP2 & Hmu2). apply wpt_ret.
    split; [lia|]. exists rest'. split; [done|]. split; [lia|done].
  - destruct Hr as (HP2 & Hmu2 & He & Herr). case_bool_decide; apply wpt_ret; auto 6 with lia.
Qed.

Lemma needle_found_spec buf n needle :
  needle ≠ [] → (n ≤ length buf)%nat →
  needle_found buf n needle = true ↔ ∃ pre post, take n buf = pre ++ needle ++ post.
Proof.
  intros Hne Hn. unfold needle_found.
  assert (0 < length needle)%nat by (destruct needle; cbn; [done|lia]).
  destruct (Nat.ltb_spec 0 (length needle)); [|lia]. cbn [andb].
  split.
  - intros [Hle%Nat.leb_le (i & Hi%in_seq & He)%existsb_exists]%andb_prop.
    unfold memeq in He. apply bool_decide_eq_true in He. rewrite (take_ge needle) in He by lia.
    exists (take i buf), (drop (i + length needle) (take n buf)).
    rewrite <- He at 1. rewrite app_assoc, take_take_drop.
    rewrite <- (take_drop (i + length needle) (take n buf)) at 1.
    rewrite take_take, Nat.min_l by lia. done.
  - intros (pre & post & Heq). assert (length (take n buf) = n) as Hl by (rewrite length_take; lia).
    rewrite Heq, !length_app in Hl. apply andb_true_intro. split; [apply Nat.leb_le; lia|].
    apply existsb_exists. exists (length pre). split; [apply in_seq; lia|].
    unfold memeq. apply bool_decide_eq_true.
    rewrite <- (take_drop n buf), Heq, <- !app_assoc, drop_app_length.
    by rewrite take_app_length, take_ge by lia.
Qed.

Lemma read_until_spec rest a w buf n needle :
  P rest a w → 0 ≤ n ≤ Z.of_nat (length buf) → needle ≠ [] →
  wpt (read_until fd buf n (Some needle)) w (λ '(r, buf') w', ∃ d rest',
    rest = d ++ rest' ∧ Z.of_nat (length d) ≤ n ∧ P rest' a w' ∧ (mu w' ≤ mu w)%nat ∧
    buf' = store buf 0 d ∧
    match r with
    | Ok m => m = Z.of_nat (length d) ∧
        ((∃ pre post, d = pre ++ needle ++ post) ∨ Z.of_nat (length d) = n ∨ rest' = [])
    | Err e => e ≠ EINTR ∧ ¬ (∃ pre post, d = pre ++ needle ++ post) ∧ err rest' e
    end).
Proof.
  intros HP Hn Hne.
  set (I := λ (st : Z * bytes) w1, ∃ d rest',
    rest = d ++ rest' ∧ st.1 = Z.of_nat (length d) ∧ st.1 ≤ n ∧ P rest' a w1 ∧
    (mu w1 ≤ mu w)%nat ∧ st.2 = store buf 0 d ∧ ¬ (∃ pre post, d = pre ++ needle ++ post)).
  apply (wpt_iter _ I (λ st w1, Z.to_nat (n - st.1) + mu w1)%nat).
  2: { exists [], rest. cbn. repeat split; try (done || lia). intros (pre & post & Hp).
       by destruct pre, needle. }
  intros [total b] w1 (d & rest' & -> & Htot & Hle & HP1 & Hmu & Hb & Hno). cbn in *.
  destruct (Z.ltb_spec total n).
  2: { apply wpt_ret. exists d, rest'. repeat split; auto with lia. }
  apply wpt_bind. eapply wpt_conseq; [by apply (read_retry_spec rest' a); [|lia]|].
  intros [[|c x]|e] w2 [Hmu2 Hr].
  - destruct Hr as (r2 & -> & _ & Hnil & HP2). apply wpt_ret. cbn in *.
    rewrite (Hnil eq_refl) in *. exists d, []. repeat split; auto with lia.
  - destruct Hr as (r2 & -> & Hlen & _ & HP2).
    assert (Hst : store b (Z.to_nat total) (c :: x) = store buf 0 (d ++ c :: x)).
    { rewrite Hb, Htot, Nat2Z.id. apply store_store. }
    rewrite Hst. set (d' := d ++ c :: x) in *.
    assert (Hd' : total + Z.of_nat (length (c :: x)) = Z.of_nat (length d')).
    { unfold d'. rewrite length_app. lia. }
    rewrite Hd'. pose proof (needle_found_spec (store buf 0 d') (length d') needle Hne) as Hf.
    rewrite (take_store buf 0 d' (Nat.le_0_l _) : take (length d') _ = _) in Hf.
    rewrite length_store in Hf by (cbn; cbn [length] in Hd', Hlen; lia).
    specialize (Hf ltac:(cbn [length] in Hd', Hlen; lia)). rewrite Nat2Z.id.
    assert (Heq : d ++ (c :: x) ++ r2 = d' ++ r2) by (unfold d'; by rewrite <- app_assoc).
    destruct (needle_found _ _ _); apply wpt_ret.
    + exists d', r2. rewrite Heq. repeat split; auto with lia. left. by apply Hf.
    + split; [|cbn [fst]; cbn [length] in Hd', Hlen; lia]. exists d', r2. cbn [fst snd].
      rewrite Heq. cbn [length] in Hd', Hlen. repeat split; auto with lia.
      by intros ?%Hf.
  - destruct Hr as (He & HP2 & Herr). apply wpt_ret. exists d, rest'. repeat split; auto with lia.
Qed.

End reading.

Section passing.
Context (src dst : nat) (P : bytes → bytes → world → Prop) (mu : world → nat).
Context (rerr : bytes → errno → Prop) (werr : errno → Prop).
Context `{!Reader src P mu rerr, !Writer dst P mu werr}.

Lemma pass_bytes_spec rest out w n :
  P rest out w → 0 ≤ n →
  wpt (pass_bytes src dst n) w (λ r w', ∃ d rest' k,
    rest = d ++ rest' ∧ Z.of_nat (length d) ≤ n ∧ (k ≤ length d)%nat ∧
    P rest' (out ++ take k d) w' ∧ (mu w' ≤ mu w)%nat ∧
    match r with
    | Ok m => m = Z.of_nat (length d) ∧ k = length d ∧ (m = n ∨ rest' = [])
    | Err e => e ≠ EINTR ∧ (rerr rest' e ∧ Z.of_nat (length d) < n ∨ werr e)
    end).
Proof.
  intros HP Hn.
  set (I := λ (total : Z) w1, ∃ d rest',
    rest = d ++ rest' ∧ total = Z.of_nat (length d) ∧ total ≤ n ∧
    P rest' (out ++ d) w1 ∧ (mu w1 ≤ mu w)%nat).
  apply (wpt_iter _ I (λ total w1, Z.to_nat (n - total) + mu w1)%nat).
  2: { exists [], rest. cbn. rewrite app_nil_r. repeat split; (done || lia). }
  intros total w1 (d & rest' & -> & Htot & Hle & HP1 & Hmu).
  destruct (Z.ltb_spec total n).
  2: { apply wpt_ret. exists d, rest', (length d). rewrite take_ge by lia.
       repeat split; auto with lia. }
  apply wpt_bind. unfold BUFFER_SIZE.
  eapply wpt_conseq; [by apply (read_retry_spec src P mu rerr rest' (out ++ d)); [|lia]|].
  intros [[|c x]|e] w2 [Hmu2 Hr].
  - destruct Hr as (r2 & -> & _ & Hnil & HP2). apply wpt_ret. cbn in *.
    exists d, r2, (length d). rewrite take_ge by lia. repeat split; auto with lia.
  - destruct Hr as (r2 & -> & Hlen & _ & HP2). set (y := c :: x) in *.
    apply wpt_bind. eapply wpt_conseq.
    { apply (write_all_spec dst P mu werr r2 (out ++ d) w2 y); [done|lia]. }
    intros wr w3 (k & Hk & HP3 & Hmu3 & Hwr). rewrite <- app_assoc in HP3.
    destruct wr as [m|e].
    + destruct Hwr as [-> ->]. apply wpt_ret. rewrite Nat2Z.id, take_ge in HP3 by lia.
      split; [|cbn in Hlen |- *; lia].
      exists (d ++ y), r2. rewrite <- app_assoc, length_app. repeat split; auto with lia.
    + apply wpt_ret. exists (d ++ y), r2, (length d + k)%nat.
      rewrite <- app_assoc, length_app, take_app_add.
      destruct Hwr as (He & Hkk & Herr). repeat split; auto with lia.
  - destruct Hr as (He & HP2 & Herr). apply wpt_ret. exists d, rest', (length d).
    rewrite take_ge by lia. repeat split; auto with lia.
Qed.

End passing.

(** ** Sockets and files are streams *)

(** Faults that calls on socket [c] and on files can still meet. *)
Definition fault_count (c : nat) (w : world) : nat :=
  length (w_faults w) +
  match w_socks w !! c with Some s => length (sk_faults s) | None => O end.

Lemma equiv_sock w v c s : w ≡ v → w_socks v !! c = Some s →
  ∃ s', w_socks w !! c = Some s' ∧ unfault s' = unfault s.
Proof.
  intros H Hs. assert (Hm : unfault <$> w_socks w = unfault <$> w_socks v).
  { unfold equiv, world_equiv, strip in H. by injection H. }
  assert (Hl : (unfault <$> w_socks w) !! c = Some (unfault s)).
  { by rewrite Hm, lookup_fmap, Hs. }
  rewrite lookup_fmap in Hl. destruct (w_socks w !! c) as [s'|]; [|done].
  cbn in Hl. exists s'. split; [done|congruence].
Qed.

Lemma set_sock_equiv w v c s s'' f : w ≡ v → w_socks v !! c = Some s →
  unfault s'' = unfault (f s) →
  set_socks (<[c := s'']> (w_socks w)) w ≡ upd_sock c f v.
Proof.
  intros H Hs Hf.
  assert (Ha : alter f c (w_socks v) = <[c := f s]> (w_socks v)).
  { apply map_eq. intros j. rewrite lookup_alter, lookup_insert.
    case_decide; [subst; by rewrite Hs|done]. }
  unfold equiv, world_equiv, strip, upd_sock, set_faults, set_socks in *. cbn in *.
  rewrite Ha, !fmap_insert, Hf.
  injection H as -> -> -> -> -> -> -> -> -> -> -> ->. done.
Qed.

(** *** Views: a family of worlds in which one stream varies *)

(** The bytes that socket [c], open as [fd], has to deliver before it closes
    ([eof]) or goes silent. *)
Class InView {A} (fd c : nat) (eof : bool) (F : bytes → A → world) := {
  in_fd rest a : w_fds (F rest a) !! fd = Some (OSock c);
  in_sock rest a : ∃ s, w_socks (F rest a) !! c = Some s ∧ sk_in s = rest ∧ sk_eof s = eof;
  in_upd rest rest' a :
    upd_sock c (λ s, Sock rest' (sk_eof s) (sk_out s) (sk_faults s)) (F rest a) = F rest' a
}.

(** The bytes sent to socket [c], open as [fd]. *)
Class OutView {A} (fd c : nat) (F : A → bytes → world) := {
  out_fd a out : w_fds (F a out) !! fd = Some (OSock c);
  out_sock a out : is_Some (w_socks (F a out) !! c);
  out_upd a out x :
    upd_sock c (λ s, Sock (sk_in s) (sk_eof s) (sk_out s ++ x) (sk_faults s)) (F a out) =
    F a (out ++ x)
}.

(** The rest of the file [p] of contents [d], open for reading as [fd]. *)
Class FileInView {A} (fd : nat) (p : path) (d : bytes) (F : bytes → A → world) := {
  fin_fd rest a : w_fds (F rest a) !! fd = Some (OFile p (length d - length rest));
  fin_file rest a : ∃ m, w_fs (F rest a) !! p = Some (NFile d m);
  fin_upd rest rest' a :
    set_fds (<[fd := OFile p (length d - length rest')]> (w_fds (F rest a))) (F rest a) =
    F rest' a
}.

(** The contents of file [p], open for writing at its end as [fd]. *)
Class FileOutView {A} (fd : nat) (p : path) (m : meta) (F : A → bytes → world) := {
  fout_fd a out : w_fds (F a out) !! fd = Some (OFile p (length out));
  fout_file a out : w_fs (F a out) !! p = Some (NFile out m);
  fout_upd a out x :
    set_fs (<[p := NFile (out ++ x) m]> (w_fs (F a out)))
      (set_fds (<[fd := OFile p (length (out ++ x))]> (w_fds (F a out))) (F a out)) =
    F a (out ++ x)
}.

(** Errors of a socket read, of any other call. *)
Definition read_error (q : Prop) (eof : bool) (rest : bytes) (e : errno) : Prop :=
  q → rest = [] ∧ eof = false ∧ e = EAGAIN.
Definition any_error (q : Prop) (e : errno) : Prop := ¬ q.

#[export] Instance sock_reader {A} fd c eof (F : bytes → A → world) q `{!InView fd c eof F} :
  Reader fd (λ rest a w, w ≡ F rest a ∧ quiet q c w) (fault_count c) (read_error q eof).
Proof.
  intros rest a w n w' r [Hw Hq] Hn. unfold sys_read. rewrite Hw, in_fd.
  destruct (in_sock rest a) as (s & Hs & Hrest & Heof).
  destruct (equiv_sock _ _ _ _ Hw Hs) as (s1 & Hs1 & Heq). rewrite Hs1.
  destruct (sock_read s1 n) as [s2 r2] eqn:Hr. intros [= <- <-].
  pose proof (sock_read_calm _ _ _ _ Hr) as Hcalm.
  apply sock_read_law in Hr as (He & Ho & Hr); [|done].
  injection Heq as Hi1 He1 Ho1.
  assert (Hupd : ∀ rest', sk_in s2 = rest' →
    set_socks (<[c := s2]> (w_socks w)) w ≡ F rest' a ∧
    quiet q c (set_socks (<[c := s2]> (w_socks w)) w)).
  { intros rest' Hi2. rewrite <- (in_upd (F := F) rest rest' a). split.
    - eapply set_sock_equiv; [done..|]. unfold unfault; cbn. by rewrite Hi2, He, Ho, He1, Ho1.
    - intros Hh. apply (calm_set_sock c s1); [done| |by apply Hq]. by intros [? _]%Hcalm. }
  assert (Hmu : fault_count c (set_socks (<[c := s2]> (w_socks w)) w) =
    (length (w_faults w) + length (sk_faults s2))%nat).
  { unfold fault_count; cbn. by rewrite lookup_insert_eq. }
  assert (Hmu1 : fault_count c w = (length (w_faults w) + length (sk_faults s1))%nat).
  { unfold fault_count. by rewrite Hs1. }
  rewrite Hmu, Hmu1. destruct r2 as [d|e].
  - destruct Hr as (Hd & Hlen & Hnil & Hf). exists (sk_in s2).
    rewrite <- Hrest, <- Hi1, Hd. destruct (Hupd _ eq_refl) as [Hu1 Hu2].
    split; [done|]. split; [done|]. split; [|split; [done|lia]].
    intros Hd0. by destruct (Hnil Hd0).
  - destruct Hr as (Hi2 & Hf & Hi). split; [apply Hupd; congruence|]. split; [lia|].
    split; [intros ?%Hi; lia|]. intros Hh. destruct (Hq Hh) as [_ Hc].
    rewrite <- Hrest, <- Hi1, <- Heof, <- He1. by apply Hcalm, Hc.
Qed.

#[export] Instance sock_writer {A} fd c (F : A → bytes → world) (X : A → Prop) q
    `{!OutView fd c F} :
  Writer fd (λ a out w, w ≡ F a out ∧ X a ∧ quiet q c w) (fault_count c) (any_error q).
Proof.
  intros a out w data w' r (Hw & HX & Hq) Hd. unfold sys_write. rewrite Hw, out_fd.
  destruct (out_sock a out) as (s & Hs).
  destruct (equiv_sock _ _ _ _ Hw Hs) as (s1 & Hs1 & Heq). rewrite Hs1.
  destruct (sock_write s1 data) as [s2 r2] eqn:Hr. intros [= <- <-].
  pose proof (sock_write_calm _ _ _ _ Hr) as Hcalm.
  apply sock_write_law in Hr as (Hi & He & Hr); [|done].
  injection Heq as Hi1 He1 Ho1.
  assert (Hupd : ∀ x, sk_out s2 = sk_out s1 ++ x →
    set_socks (<[c := s2]> (w_socks w)) w ≡ F a (out ++ x) ∧ X a ∧
    quiet q c (set_socks (<[c := s2]> (w_socks w)) w)).
  { intros x Hx. rewrite <- (out_upd (F := F) a out x). split; [|split; [done|]].
    - eapply set_sock_equiv; [done..|]. unfold unfault; cbn. by rewrite Hx, Hi, He, Hi1, He1, Ho1.
    - intros Hh. apply (calm_set_sock c s1); [done| |by apply Hq]. by intros [? _]%Hcalm. }
  assert (Hmu : fault_count c (set_socks (<[c := s2]> (w_socks w)) w) =
    (length (w_faults w) + length (sk_faults s2))%nat).
  { unfold fault_count; cbn. by rewrite lookup_insert_eq. }
  assert (Hmu1 : fault_count c w = (length (w_faults w) + length (sk_faults s1))%nat).
  { unfold fault_count. by rewrite Hs1. }
  rewrite Hmu, Hmu1. destruct r2 as [k|e].
  - destruct Hr as (Hk & Ho & Hf). split; [done|]. split; [by apply Hupd|lia].
  - destruct Hr as (Ho & Hf). split; [|split; [lia|]].
    + rewrite <- (app_nil_r out). apply Hupd. by rewrite app_nil_r.
    + intros Hh. destruct (Hq Hh) as [_ Hc]. by apply Hcalm, Hc.
Qed.

Lemma fault_count_faults c fl w :
  (fault_count c (set_faults fl w) + length (w_faults w) = fault_count c w + length fl)%nat.
Proof. unfold fault_count; cbn. lia. Qed.

(** The calls on files take one fault, and change the world only in [set]. *)
Lemma pop_fault_view c q w v f w1 : pop_fault w = (f, w1) → w ≡ v → quiet q c w →
  w1 ≡ v ∧ quiet q c w1 ∧ (fault_count c w1 ≤ fault_count c w)%nat ∧
  (∀ e, f = FErr e → (fault_count c w1 < fault_count c w)%nat ∧ ¬ q).
Proof.
  intros Hf Hw Hq. destruct (pop_fault_quiet q c _ _ _ Hf Hq) as [Hq1 Hne].
  apply pop_fault_spec in Hf as (fl & -> & Hf).
  pose proof (fault_count_faults c fl w) as Hmu.
  split; [by rewrite set_faults_equiv|]. split; [done|]. split; [destruct f; lia|].
  intros e ->. split; [lia|]. by intros ?%Hne.
Qed.

#[export] Instance file_reader {A} fd p d c (F : bytes → A → world) q `{!FileInView fd p d F} :
  Reader fd (λ rest a w, w ≡ F rest a ∧ rest `suffix_of` d ∧ quiet q c w) (fault_count c)
    (λ _, any_error q).
Proof.
  intros rest a w n w' r (Hw & [pre Hd] & Hq) Hn. unfold sys_read.
  rewrite (w_fds_proper _ _ Hw), (w_fs_proper _ _ Hw), fin_fd.
  destruct (fin_file rest a) as (m & Hm). rewrite Hm.
  destruct (pop_fault w) as [f w1] eqn:Hf.
  destruct (pop_fault_view c q _ _ _ _ Hf Hw Hq) as (Hw1 & Hq1 & Hmu & Hmu'). clear Hf.
  assert (Hoff : (length d - length rest)%nat = length pre).
  { rewrite Hd, length_app. lia. }
  rewrite Hoff, Hd, drop_app_length.
  pose proof (transfer_bounds f (min n (length rest))) as [Hk Hpos].
  remember (transfer f (min n (length rest))) as k eqn:Heq. clear Heq.
  destruct f as [| |e].
  3: { intros [= <- <-]. destruct (Hmu' e eq_refl).
       split; [|split; [done|split; [done|done]]]. split; [done|]. split; [by exists pre|done]. }
  all: intros [= <- <-]; exists (drop k rest); rewrite take_drop, length_take.
  all: split; [done|]; split; [lia|]; split; [|split; [split; [|split]|cbn in *; done]].
  1,5: intros H%(f_equal length); rewrite length_take in H; cbn in H;
    apply nil_length_inv; lia.
  2,5: exists (pre ++ take k rest); by rewrite <- app_assoc, take_drop.
  2,4: done.
  all: rewrite <- (fin_upd (F := F) rest (drop k rest) a).
  all: replace (length d - length (drop k rest))%nat with (length pre + k)%nat
    by (rewrite Hd, length_app, length_drop; lia).
  all: rewrite (w_fds_proper _ _ Hw1); by apply set_fds_proper.
Qed.

Lemma file_write_end d x : file_write d (length d) x = d ++ x.
Proof.
  unfold file_write, store. rewrite Nat.sub_diag, app_nil_r, take_ge, drop_ge, app_nil_r by lia.
  done.
Qed.

#[export] Instance file_writer {A} fd p m c (F : A → bytes → world) q `{!FileOutView fd p m F} :
  Writer fd (λ a out w, w ≡ F a out ∧ quiet q c w) (fault_count c) (any_error q).
Proof.
  intros a out w data w' r [Hw Hq] Hdata. unfold sys_write.
  rewrite (w_fds_proper _ _ Hw), (w_fs_proper _ _ Hw), fout_fd, fout_file.
  destruct (pop_fault w) as [f w1] eqn:Hf.
  destruct (pop_fault_view c q _ _ _ _ Hf Hw Hq) as (Hw1 & Hq1 & Hmu & Hmu'). clear Hf.
  assert (0 < length data)%nat by (destruct data; cbn; [done|lia]).
  pose proof (transfer_bounds f (length data)) as [Hk Hpos].
  remember (transfer f (length data)) as k eqn:Heq. clear Heq.
  destruct f as [| |e].
  3: { intros [= <- <-]. by destruct (Hmu' e eq_refl). }
  all: intros [= <- <-]; split; [lia|]; split; [split; [|done]|cbn in *; done].
  all: rewrite <- (fout_upd (F := F) a out (take k data)), file_write_end.
  all: rewrite length_app, length_take, Nat.min_l by lia.
  all: rewrite (w_fds_proper _ _ Hw1), (w_fs_proper _ _ Hw1).
  all: by apply set_fs_proper, set_fds_proper.
Qed.

(** *** The views used below *)

(** World [w] when socket [c] has [rest] still to deliver. *)
Definition sock_in (w : world) (c : nat) (rest : bytes) : world :=
  upd_sock c (λ s, Sock rest (sk_eof s) (sk_out s) (sk_faults s)) w.

(** World [w] when [out] was sent to socket [c] on top of what [w] says. *)
Definition sock_out (w : world) (c : nat) (out : bytes) : world :=
  upd_sock c (λ s, Sock (sk_in s) (sk_eof s) (sk_out s ++ out) (sk_faults s)) w.

(** World [w] with file [p] open at its end as [fd] and holding [d]. *)
Definition file_at (w : world) (fd : nat) (p : path) (m : meta) (d : bytes) : world :=
  set_fs (<[p := NFile d m]> (w_fs w)) (set_fds (<[fd := OFile p (length d)]> (w_fds w)) w).

Lemma upd_sock_upd c f g w : upd_sock c f (upd_sock c g w) = upd_sock c (λ s, f (g s)) w.
Proof. unfold upd_sock, set_socks. cbn. by rewrite alter_alter_eq. Qed.

Lemma upd_sock_ext c f g w : (∀ s, w_socks w !! c = Some s → f s = g s) →
  upd_sock c f w = upd_sock c g w.
Proof.
  intros H. unfold upd_sock. f_equal. apply map_eq. intros i. rewrite !lookup_alter.
  case_decide; [|done]. subst. destruct (w_socks w !! i) as [s|] eqn:Hs; [|done].
  cbn. by rewrite H.
Qed.

Lemma sock_in_view w fd c s : w_fds w !! fd = Some (OSock c) → w_socks w !! c = Some s →
  InView (A := unit) fd c (sk_eof s) (λ rest _, sock_in w c rest).
Proof.
  intros Hfd Hs. split.
  - done.
  - intros rest _. unfold sock_in, upd_sock. cbn. rewrite lookup_alter, decide_True, Hs by done.
    eexists. split; [done|]. done.
  - intros rest rest' _. unfold sock_in. by rewrite upd_sock_upd.
Qed.

Lemma sock_in_id w c s : w_socks w !! c = Some s → sock_in w c (sk_in s) = w.
Proof.
  intros Hs. unfold sock_in, upd_sock. rewrite alter_id; [by destruct w|].
  intros s' Hs'. rewrite Hs in Hs'. injection Hs' as <-. by destruct s.
Qed.

(** The hand-written search of read_until is substring search: among the
    bytes received so far it reports a needle exactly when the needle is not
    empty and occurs in them, and it looks at no byte behind them. *)
Theorem needle_search_equiv buf n needle : (n ≤ length buf)%nat →
  needle_found buf n needle = true ↔ needle ≠ [] ∧ ∃ pre post, take n buf = pre ++ needle ++ post.
Proof.
  intros Hn. destruct needle as [|c needle].
  - unfold needle_found. cbn. split; [done|]. by intros [? _].
  - rewrite needle_found_spec by done. naive_solver.
Qed.

Lemma needle_search_equiv_witness :
  needle_found (B "GET / HTTP/1.1" ++ [CR; LF; CR; LF]) 17 [CR; LF; CR; LF] = false ∧
  ∃ pre post, take 18 (B "GET / HTTP/1.1" ++ [CR; LF; CR; LF]) = pre ++ [CR; LF; CR; LF] ++ post.
Proof.
  split; [reflexivity|].
  refine (proj2 (proj1 (needle_search_equiv (B "GET / HTTP/1.1" ++ [CR; LF; CR; LF]) 18 [CR; LF; CR; LF] _) _)).
  - apply Nat.leb_le. reflexivity.
  - reflexivity.
Defined.
