(* ===== verification/Demo.v ===== *)
(** * A concrete world

    The working directory [/srv] of a server with one client on descriptor 5:
    the examples and the instances of the theorems run on it. *)
From S2P Require Import Prelude Libc Prog Posix.

Definition rwx : meta := Meta 1000 true true true.
Definition rw : meta := Meta 1000 true true false.
Definition ro : meta := Meta 0 true false false.

Definition LOCKS : bytes := B ".httpserver.locks.64.7".
Definition srv : path := [B "srv"].

Definition demo_fs : gmap path node :=
  list_to_map
    [ ([], NDir rwx); (srv, NDir rwx); ([B "tmp"], NDir rwx);
      ([B "tmp"; LOCKS], NDir rwx);
      (srv ++ [B "a.txt"], NFile (B "alpha") rw);
      (srv ++ [B "ro.txt"], NFile (B "fixed") ro);
      (srv ++ [B "sub"], NDir rwx) ].

(** Client 0 sends [input] and then closes; its transfers and the calls on
    files meet the given faults. *)
Definition demo_world (input : bytes) (sock_faults file_faults : list fault) : world :=
  World demo_fs srv (64%Z, 7%Z) 1000 {[5 := OSock 0]} {[0 := Sock input true [] sock_faults]} ∅
    SFile false [] [] [] file_faults.

Lemma demo_calm input fs fl : Forall no_err fs → Forall no_err fl →
  calm 0 (demo_world input fs fl).
Proof.
  intros Hs Hf. split; [done|]. intros s.
  change (w_socks (demo_world input fs fl)) with ({[0 := Sock input true [] fs]} : gmap nat sock).
  rewrite lookup_singleton_eq. by intros [= <-].
Qed.

(** The same with a file of /srv that holds [d], open as descriptor 6. *)
Definition demo_file : path := srv ++ [B "f"].
Definition demo_open (input d : bytes) (sock_faults file_faults : list fault) : world :=
  let w := demo_world input sock_faults file_faults in
  set_fs (<[demo_file := NFile d rw]> (w_fs w)) (set_fds (<[6 := OFile demo_file 0]> (w_fds w)) w).

Lemma demo_sizes p d m : demo_fs !! p = Some (NFile d m) → (length d ≤ 100)%nat.
Proof.
  assert (H : map_Forall (λ _ n, match n with NFile d _ => (length d <=? 100)%nat = true | _ => True end)
    demo_fs).
  { unfold demo_fs. cbn [list_to_map foldr fst snd].
    repeat (apply map_Forall_insert_2; [done|]). apply map_Forall_empty. }
  intros Hp. specialize (H _ _ Hp). cbn in H. by apply Nat.leb_le.
Qed.

Definition demo_dir : bytes := B "/tmp/.httpserver.locks.64.7".
