(* ===== verification/Connection.v ===== *)
(** * Connections (src/connection.c, lib/connection.h)

    A connection object is the record [Conn]; functions that take a [conn_t *]
    return the updated record.  Fixed char arrays that hold a C string are the
    string itself; [buffer] is the whole array of [BUFFER_SIZE + 1] bytes. *)
From S2P Require Import Prelude Libc Regex Http Prog Posix Util.
Local Open Scope Z_scope.
Local Open Scope prog_scope.

Definition REQUEST_LINE : bytes :=
  B "^([a-zA-Z]{1,8}) /([a-zA-Z0-9/_.-]{1,63}) HTTP/([0-9]{1,2}).([0-9]{1,2})" ++ CRLF.
Definition HEADER_FIELD : bytes :=
  B "([a-zA-Z0-9.-]{1,128}):[[:space:]]([a-zA-Z0-9.:/*-]{1,128})" ++ CRLF.

Record Conn := mkConn {
  connfd : nat;
  buffer : bytes;
  bytes_read : Z;
  message_start : Z;
  in_message : Z;
  content_length : Z;
  content_length_str : bytes;
  uri : bytes;
  request_id : bytes;
  request : Request
}.

Definition set_buffer (b : bytes) (c : Conn) : Conn :=
  mkConn (connfd c) b (bytes_read c) (message_start c) (in_message c)
    (content_length c) (content_length_str c) (uri c) (request_id c) (request c).
Definition set_bytes_read (n : Z) (c : Conn) : Conn :=
  mkConn (connfd c) (buffer c) n (message_start c) (in_message c)
    (content_length c) (content_length_str c) (uri c) (request_id c) (request c).
Definition set_message_start (n : Z) (c : Conn) : Conn :=
  mkConn (connfd c) (buffer c) (bytes_read c) n (in_message c)
    (content_length c) (content_length_str c) (uri c) (request_id c) (request c).
Definition set_in_message (n : Z) (c : Conn) : Conn :=
  mkConn (connfd c) (buffer c) (bytes_read c) (message_start c) n
    (content_length c) (content_length_str c) (uri c) (request_id c) (request c).
Definition set_content_length (n : Z) (c : Conn) : Conn :=
  mkConn (connfd c) (buffer c) (bytes_read c) (message_start c) (in_message c)
    n (content_length_str c) (uri c) (request_id c) (request c).
Definition set_content_length_str (s : bytes) (c : Conn) : Conn :=
  mkConn (connfd c) (buffer c) (bytes_read c) (message_start c) (in_message c)
    (content_length c) s (uri c) (request_id c) (request c).
Definition set_uri (u : bytes) (c : Conn) : Conn :=
  mkConn (connfd c) (buffer c) (bytes_read c) (message_start c) (in_message c)
    (content_length c) (content_length_str c) u (request_id c) (request c).
Definition set_request_id (r : bytes) (c : Conn) : Conn :=
  mkConn (connfd c) (buffer c) (bytes_read c) (message_start c) (in_message c)
    (content_length c) (content_length_str c) (uri c) r (request c).
Definition set_request (r : Request) (c : Conn) : Conn :=
  mkConn (connfd c) (buffer c) (bytes_read c) (message_start c) (in_message c)
    (content_length c) (content_length_str c) (uri c) (request_id c) r.

Definition conn_is_empty (conn : Conn) : bool := bytes_read conn =? 0.

(** ** Parsing *)

Definition validate_uri (conn : Conn) : option Response :=
  match uri conn with
  | [] => Some RESPONSE_BAD_REQUEST
  | _ => None
  end.

(** [regcomp]: the pattern is compiled, or memory runs out. *)
Definition compile (pattern : bytes) : itree sysE (option regex) :=
  let! avail := ! Alloc in
  Ret (if (avail : bool) then regcomp pattern else None).

(** The text of [match[i]] in the subject [s]. *)
Definition matched (s : bytes) (m : nat * nat) : bytes :=
  take (m.2 - m.1) (drop m.1 s).

Definition CONTENT_LENGTH_KEY : bytes := B "Content-Length".
Definition REQUEST_ID_KEY : bytes := B "Request-Id".

(** Is the key of length [key_len] at the head of [s] exactly [kw]? *)
Definition key_is (s : bytes) (key_len : nat) (kw : bytes) : bool :=
  (key_len =? length kw)%nat && strncmp_eq s kw key_len.

(** The body of the header loop for one match. *)
Definition header_field (conn : Conn) (s : bytes) (m1 m2 : nat * nat) : Conn :=
  let key := drop m1.1 s in
  let key_len := (m1.2 - m1.1)%nat in
  let value := matched s m2 in
  if key_is key key_len CONTENT_LENGTH_KEY then
    set_content_length (to_s64 (strtoull value)) conn
  else if key_is key key_len REQUEST_ID_KEY then
    set_request_id (take 128 value) conn
  else conn.

(** The header loop; [offset] is into [headers].  Every match is at least five
    bytes long, so the length of [headers] bounds the number of rounds. *)
Fixpoint header_loop (fuel : nat) (re : regex) (headers : bytes) (conn : Conn)
    (offset : nat) : Conn * nat :=
  match fuel with
  | O => (conn, offset)
  | S fuel =>
      match regexec re (drop offset headers) with
      | Some [m0; m1; m2] =>
          header_loop fuel re headers
            (header_field conn (drop offset headers) m1 m2) (offset + m0.2)
      | _ => (conn, offset)
      end
  end.

Definition parse_headers (conn : Conn) : itree sysE (Conn * option Response) :=
  let! re := compile HEADER_FIELD in
  match re with
  | None => Ret (conn, Some RESPONSE_INTERNAL_SERVER_ERROR)
  | Some re =>
      let headers := drop (Z.to_nat (message_start conn)) (buffer conn) in
      let '(conn, offset) := header_loop (S (length headers)) re headers conn 0 in
      Ret (set_message_start (message_start conn + (Z.of_nat offset + 2)) conn, None)
  end.

Definition process_request (conn : Conn) : itree sysE (Conn * option Response) :=
  let! re := compile REQUEST_LINE in
  match re with
  | None => Ret (conn, Some RESPONSE_INTERNAL_SERVER_ERROR)
  | Some re =>
      match regexec re (buffer conn) with
      | Some [_; m1; m2; _; m4] =>
          let at_method := drop m1.1 (buffer conn) in
          let conn :=
            if strncmp_eq at_method (B "GET") 3 then set_request REQUEST_GET conn
            else if strncmp_eq at_method (B "PUT") 3 then set_request REQUEST_PUT conn
            else set_request REQUEST_UNSUPPORTED conn in
          let uri_len := (m2.2 - m2.1)%nat in
          if (64 <=? uri_len)%nat then Ret (conn, Some RESPONSE_BAD_REQUEST)
          else
            let conn := set_uri (matched (buffer conn) m2) conn in
            if (1 <? m4.2 - m4.1)%nat then Ret (conn, Some RESPONSE_BAD_REQUEST)
            else if negb (strncmp_eq (drop m4.1 (buffer conn)) (B "1") 1) then
              Ret (conn, Some RESPONSE_VERSION_NOT_SUPPORTED)
            else
              let conn := set_message_start (Z.of_nat m4.2 + 2) conn in
              match validate_uri conn with
              | Some res => Ret (conn, Some res)
              | None => parse_headers conn
              end
      | _ => Ret (conn, Some RESPONSE_BAD_REQUEST)
      end
  end.

(** ** Construction and accessors *)

(** What conn_new allocates: zeroed memory, then the three assignments. *)
Definition fresh_conn (fd : nat) : Conn :=
  mkConn fd (replicate (S (Z.to_nat BUFFER_SIZE)) NUL) 0 0 0 0 [] [] (B "0")
    REQUEST_UNSUPPORTED.

Definition conn_new (fd : nat) : itree sysE (option Conn) :=
  let! avail := ! Alloc in
  Ret (if (avail : bool) then Some (fresh_conn fd) else None).

(** The pointer is NULL afterwards. *)
Definition conn_delete (conn : option Conn) : option Conn := None.

Definition conn_parse (conn : Conn) : itree sysE (Conn * option Response) :=
  let! (r, buf) := read_until (connfd conn) (buffer conn) BUFFER_SIZE (Some (CRLF ++ CRLF)) in
  let conn := set_buffer buf conn in
  match r with
  | Err e =>
      let conn := set_bytes_read (-1) conn in
      if bool_decide (e = EAGAIN ∨ e = EWOULDBLOCK)
      then Ret (conn, Some RESPONSE_INTERNAL_SERVER_ERROR)
      else Ret (conn, Some RESPONSE_BAD_REQUEST)
  | Ok n =>
      let conn := set_bytes_read n conn in
      if n =? 0 then Ret (conn, Some RESPONSE_BAD_REQUEST)
      else
        let conn := set_buffer (store (buffer conn) (Z.to_nat n) [NUL]) conn in
        let! (conn, res) := process_request conn in
        match res with
        | Some res => Ret (conn, Some res)
        | None =>
            Ret (set_in_message (bytes_read conn - message_start conn) conn, None)
        end
  end.

Definition conn_get_request (conn : Conn) : Request := request conn.
Definition conn_get_uri (conn : Conn) : bytes := uri conn.

Definition conn_get_header (conn : Conn) (header : bytes) : Conn * option bytes :=
  if bool_decide (header = B "Content-Length") then
    let s := (snprintf 32 (dec (content_length conn))).1 in
    (set_content_length_str s conn, Some s)
  else if bool_decide (header = B "Request-Id") then (conn, Some (request_id conn))
  else (conn, None).

Definition conn_str (conn : Conn) : bytes := uri conn.

(** ** Bodies and responses *)

(** [content_length - total_written] is computed in ssize_t. *)
Definition conn_recv_file (conn : Conn) (fd : nat) : itree sysE (option Response) :=
  let stream (total_written : Z) :=
    let remaining := to_s64 (content_length conn - total_written) in
    if 0 <? remaining then
      let! rc := pass_bytes (connfd conn) fd remaining in
      match rc with
      | Err _ => Ret (Some RESPONSE_INTERNAL_SERVER_ERROR)
      | Ok _ => Ret None
      end
    else Ret None in
  if 0 <? in_message conn then
    let! w := write_all fd (drop (Z.to_nat (message_start conn)) (buffer conn))
                (in_message conn) in
    match w with
    | Err _ => Ret (Some RESPONSE_INTERNAL_SERVER_ERROR)
    | Ok total_written => stream total_written
    end
  else stream 0.

(** The header conn_send_file sends. *)
Definition file_header (count : Z) : bytes :=
  B "HTTP/1.1 " ++ dec (response_get_code RESPONSE_OK) ++ B " " ++
  response_get_message RESPONSE_OK ++ CRLF ++ B "Content-Length: " ++ dec count ++ CRLF ++ CRLF.

Definition conn_send_file (conn : Conn) (fd : nat) (count : Z) : itree sysE (option Response) :=
  let '(header, header_len) := snprintf (Z.to_nat BUFFER_SIZE) (file_header count) in
  let! w := write_all (connfd conn) header header_len in
  match w with
  | Err _ => Ret (Some RESPONSE_INTERNAL_SERVER_ERROR)
  | Ok _ =>
      if 0 <? count then
        let! rc := pass_bytes fd (connfd conn) count in
        match rc with
        | Err _ => Ret (Some RESPONSE_INTERNAL_SERVER_ERROR)
        | Ok _ => Ret None
        end
      else Ret None
  end.

(** The canonical message of a response. *)
Definition response_text (res : Response) : bytes :=
  let msg := response_get_message res in
  let '(body, body_len) := snprintf (Z.to_nat BUFFER_SIZE) (msg ++ [LF]) in
  B "HTTP/1.1 " ++ dec (response_get_code res) ++ B " " ++ msg ++ CRLF ++
  B "Content-Length: " ++ dec body_len ++ CRLF ++ CRLF ++ body.

Definition conn_send_response (conn : Conn) (res : Response) : itree sysE (option Response) :=
  let '(header, header_len) := snprintf (Z.to_nat BUFFER_SIZE) (response_text res) in
  let! w := write_all (connfd conn) header header_len in
  match w with
  | Err _ => Ret (Some RESPONSE_INTERNAL_SERVER_ERROR)
  | Ok _ => Ret None
  end.
