(* ===== verification/Log.v ===== *)
(** * The audit log (src/log.c, lib/log.h)

    The stream, its mutex and its buffer are in the world of Posix.v. *)
From S2P Require Import Prelude Libc Prog Posix.
Local Open Scope Z_scope.
Local Open Scope prog_scope.

(** A NULL argument falls back to stderr. *)
Definition log_init (s : stream) : itree sysE unit :=
  ! (SetLogStream (match s with SNull => SStderr | _ => s end)).

(** The text of the one fprintf per entry. *)
Definition audit_line (oper uri : bytes) (status : Z) (rid : bytes) : bytes :=
  oper ++ B "," ++ uri ++ B "," ++ dec status ++ B "," ++ rid ++ [LF].

Definition log_audit (oper uri : bytes) (status : Z) (rid : bytes) : itree sysE unit :=
  do! ! LogLock in
  let! s := ! GetLogStream in
  do! match s with
      | SNull => Ret tt
      | _ =>
          do! ! (Fprintf (audit_line oper uri status rid)) in
          ! Fflush
      end in
  ! LogUnlock.

Definition log_close : itree sysE unit :=
  do! ! LogLock in
  let! s := ! GetLogStream in
  do! match s with
      | SFile => do! ! Fclose in ! (SetLogStream SNull)
      | _ => Ret tt
      end in
  ! LogUnlock.
