(* ===== verification/Server.v ===== *)
(** * The request handlers (src/httpserver.c)

    The lock directory, the per-URI locks and the handlers, as programs over
    the calls of Posix.v. *)
From S2P Require Import Prelude Libc Http Prog Posix Util Connection Log.
Local Open Scope Z_scope.
Local Open Scope prog_scope.

(** ** Per-URI locks *)

(** The namespace directory, from the identity of the working directory. *)
Definition lock_dir_text (dev ino : Z) : bytes :=
  B "/tmp/.httpserver.locks." ++ dec dev ++ B "." ++ dec ino.

(** [lock_dir] is a char[96]. *)
Definition lock_dir (dev ino : Z) : bytes := (snprintf 96 (lock_dir_text dev ino)).1.

(** Returns the directory name on success. *)
Definition lockdir_init : itree sysE (option bytes) :=
  let! st := ! StatCwd in
  match st with
  | Err _ => Ret None
  | Ok (dev, ino) =>
      let dir := lock_dir dev ino in
      let! r := ! (Mkdir dir) in
      match r with
      | Ok _ => Ret (Some dir)
      | Err e =>
          if bool_decide (e ≠ EEXIST) then Ret None
          else
            let! r := ! (Lstat dir) in
            match r with
            | Err _ => Ret None
            | Ok lock_st =>
                let! euid := ! Geteuid in
                if negb (st_isdir lock_st) || negb (st_uid lock_st =? euid) then Ret None
                else Ret (Some dir)
            end
      end
  end.

(** The loop of lock_path_for: at most [n - 1] bytes in all. *)
Fixpoint lock_path_loop (p : bytes) (off n : nat) : bytes :=
  match p with
  | [] => []
  | c :: p =>
      if (off + 1 <? n)%nat
      then (if bool_decide (c = "/"%char) then "%"%char else c) :: lock_path_loop p (S off) n
      else []
  end.

(** [off] is snprintf's result; the directory always fits (see
    [lock_path_for_whole]). *)
Definition lock_path_for (dir uri : bytes) (n : nat) : bytes :=
  let '(text, off) := snprintf n (dir ++ B "/") in
  text ++ lock_path_loop uri (Z.to_nat off) n.

(** The [while (flock(fd, op) < 0)] loop. *)
Definition flock_retry (fd : nat) (op : lockop) : itree sysE (rc unit) :=
  ITree.iter (λ _ : unit,
    let! r := ! (Flock fd op) in
    match r with
    | Ok _ => Ret (inr (Ok tt))
    | Err e => if bool_decide (e = EINTR) then Ret (inl tt) else Ret (inr (Err e))
    end) tt.

Definition uri_lock (dir uri : bytes) (op : lockop) : itree sysE (option nat) :=
  let path := lock_path_for dir uri 192 in
  let! fd := ! (Open path (OFlags true false)) in
  match fd with
  | Err _ => Ret None
  | Ok fd =>
      let! r := flock_retry fd op in
      match r with
      | Ok _ => Ret (Some fd)
      | Err _ => do! ! (Close fd) in Ret None
      end
  end.

Definition uri_unlock (lockfd : option nat) : itree sysE unit :=
  match lockfd with
  | Some fd => do! ! (Flock fd LOCK_UN) in ! (Close fd)
  | None => Ret tt
  end.

(** ** Handlers

    [dir] is the lock directory found by [lockdir_init]. *)

Definition audit_send_response (conn : Conn) (res : Response) : itree sysE unit :=
  let status_code := response_get_code res in
  let uri := conn_get_uri conn in
  let verb := request_get_str (conn_get_request conn) in
  let requestID := default [] (conn_get_header conn (B "Request-Id")).2 in
  log_audit verb uri status_code requestID.

(** [conn_send_response] followed by [audit_send_response], as every exit of
    the handlers has it. *)
Definition respond (conn : Conn) (res : Response) : itree sysE unit :=
  do! conn_send_response conn res in
  audit_send_response conn res.

Definition handle_unsupported (conn : Conn) : itree sysE unit :=
  respond conn RESPONSE_NOT_IMPLEMENTED.

(** The status for an errno of open in handle_get and in handle_put. *)
Definition get_open_error (e : errno) : Response :=
  if bool_decide (e = EACCES ∨ e = EISDIR) then RESPONSE_FORBIDDEN
  else if bool_decide (e = ENOENT) then RESPONSE_NOT_FOUND
  else RESPONSE_INTERNAL_SERVER_ERROR.

Definition put_open_error (e : errno) : Response :=
  if bool_decide (e = EACCES ∨ e = EISDIR ∨ e = ENOENT) then RESPONSE_FORBIDDEN
  else RESPONSE_INTERNAL_SERVER_ERROR.

Definition handle_get (dir : bytes) (conn : Conn) : itree sysE unit :=
  let uri := conn_get_uri conn in
  let! lockfd := uri_lock dir uri LOCK_SH in
  match lockfd with
  | None => respond conn RESPONSE_INTERNAL_SERVER_ERROR
  | Some _ =>
      let! fd := ! (Open uri O_RDONLY) in
      match fd with
      | Err e =>
          do! respond conn (get_open_error e) in
          uri_unlock lockfd
      | Ok fd =>
          let! st := ! (Fstat fd) in
          match st with
          | Err _ =>
              do! respond conn RESPONSE_INTERNAL_SERVER_ERROR in
              do! ! (Close fd) in
              uri_unlock lockfd
          | Ok st =>
              if st_isdir st then
                do! respond conn RESPONSE_FORBIDDEN in
                do! ! (Close fd) in
                uri_unlock lockfd
              else
                do! conn_send_file conn fd (st_size st) in
                do! audit_send_response conn RESPONSE_OK in
                do! ! (Close fd) in
                uri_unlock lockfd
          end
      end
  end.

Definition handle_put (dir : bytes) (conn : Conn) : itree sysE unit :=
  let uri := conn_get_uri conn in
  let! lockfd := uri_lock dir uri LOCK_EX in
  match lockfd with
  | None => respond conn RESPONSE_INTERNAL_SERVER_ERROR
  | Some _ =>
      let! existed := ! (Access uri) in
      let! fd := ! (Open uri (OFlags true true)) in
      match fd with
      | Err e =>
          do! respond conn (put_open_error e) in
          uri_unlock lockfd
      | Ok fd =>
          let! tr := ! (Ftruncate fd) in
          match tr with
          | Err _ =>
              do! respond conn RESPONSE_INTERNAL_SERVER_ERROR in
              do! ! (Close fd) in
              uri_unlock lockfd
          | Ok _ =>
              let! res := conn_recv_file conn fd in
              let res := match res with
                         | Some res => res
                         | None => if (existed : bool) then RESPONSE_OK else RESPONSE_CREATED
                         end in
              do! respond conn res in
              do! ! (Close fd) in
              uri_unlock lockfd
          end
      end
  end.

Definition handle_connection (dir : bytes) (fd : nat) : itree sysE unit :=
  let! conn := conn_new fd in
  match conn with
  | None => ! (Close fd)
  | Some conn =>
      let! (conn, res) := conn_parse conn in
      match res with
      | Some res =>
          if conn_is_empty conn then ! (Close fd)
          else
            let res :=
              if bool_decide (res = RESPONSE_VERSION_NOT_SUPPORTED ∧
                              conn_get_request conn = REQUEST_UNSUPPORTED)
              then RESPONSE_NOT_IMPLEMENTED else res in
            do! respond conn res in
            ! (Close fd)
      | None =>
          do! match conn_get_request conn with
              | REQUEST_GET => handle_get dir conn
              | REQUEST_PUT => handle_put dir conn
              | REQUEST_UNSUPPORTED => handle_unsupported conn
              end in
          ! (Close fd)
      end
  end.
