(* ===== verification/Parsing.v ===== *)
(** * What the request parser accepts (src/connection.c)

    The two regular expressions are turned into grammars ([request_line],
    [header_line]) and the parser is shown to recover from a request exactly
    what its client wrote.  [wf_line] and [wf_header] are the side conditions
    the bracket expressions and intervals of the patterns impose. *)
From S2P Require Import Prelude Libc Regex Http Prog Posix Util Demo Connection.
Local Open Scope Z_scope.
Local Open Scope prog_scope.

(** ** The patterns as pieces *)

Definition range (lo hi : string) : list (byte * byte) :=
  match B lo, B hi with [a], [b] => [(a, b)] | _, _ => [] end.
Definition one (c : string) : list (byte * byte) := range c c.

Definition method_piece : piece :=
  Piece (CRanges (range "a" "z" ++ range "A" "Z")) 1 (Some 8%nat) true.
Definition uri_piece : piece :=
  Piece (CRanges (range "a" "z" ++ range "A" "Z" ++ range "0" "9" ++ one "/" ++ one "_" ++
                  one "." ++ one "-")) 1 (Some 63%nat) true.
Definition version_piece : piece := Piece (CRanges (range "0" "9")) 1 (Some 2%nat) true.
Definition any_piece : piece := Piece CAny 1 (Some 1%nat) false.
Definition request_pieces : list piece :=
  method_piece :: lit (B " /") ++ uri_piece :: lit (B " HTTP/") ++
  version_piece :: any_piece :: version_piece :: lit CRLF ++ [].

Definition key_piece : piece :=
  Piece (CRanges (range "a" "z" ++ range "A" "Z" ++ range "0" "9" ++ one "." ++ one "-"))
    1 (Some 128%nat) true.
Definition space_piece : piece := Piece (CRanges space_class) 1 (Some 1%nat) false.
Definition value_piece : piece :=
  Piece (CRanges (range "a" "z" ++ range "A" "Z" ++ range "0" "9" ++ one "." ++ one ":" ++
                  one "/" ++ one "*" ++ one "-")) 1 (Some 128%nat) true.
Definition header_pieces : list piece :=
  key_piece :: lit (B ":") ++ space_piece :: value_piece :: lit CRLF ++ [].

Lemma regcomp_request : regcomp REQUEST_LINE = Some (Regex true request_pieces).
Proof. vm_compute. reflexivity. Qed.
Lemma regcomp_header : regcomp HEADER_FIELD = Some (Regex false header_pieces).
Proof. vm_compute. reflexivity. Qed.

(** ** The request line *)

Definition request_line (m u maj : bytes) (sep : byte) (min : bytes) : bytes :=
  m ++ B " /" ++ u ++ B " HTTP/" ++ maj ++ [sep] ++ min ++ CRLF.

Definition wf_line (m u maj min : bytes) : Prop :=
  piece_ok method_piece m ∧ piece_ok uri_piece u ∧
  piece_ok version_piece maj ∧ piece_ok version_piece min.

Definition line_vec (m u maj min : bytes) : list nat :=
  length m :: replicate 2 1%nat ++ length u :: replicate 6 1%nat ++
  length maj :: 1%nat :: length min :: replicate 2 1%nat ++ [].

Lemma any_piece_ok x : piece_ok any_piece x ↔ ∃ c, x = [c].
Proof.
  unfold piece_ok, any_piece; cbn. split.
  - intros (H1 & H2 & _). destruct x as [|c [|d x]]; cbn in *; [lia|by exists c|lia].
  - intros [c ->]. cbn. repeat split; [lia..|]. by constructor.
Qed.

Lemma request_vec_ok v s : vec_ok request_pieces v s ↔
  ∃ m u maj sep min rest, wf_line m u maj min ∧
    s = request_line m u maj sep min ++ rest ∧ v = line_vec m u maj min.
Proof.
  unfold request_pieces. split.
  - rewrite vec_ok_cons. intros (m & v1 & s1 & -> & -> & Hm & H).
    apply vec_ok_lit in H as (v2 & s2 & -> & -> & H).
    apply vec_ok_cons in H as (u & v3 & s3 & -> & -> & Hu & H).
    apply vec_ok_lit in H as (v4 & s4 & -> & -> & H).
    apply vec_ok_cons in H as (maj & v5 & s5 & -> & -> & Hmaj & H).
    apply vec_ok_cons in H as (x & v6 & s6 & -> & -> & [sep ->]%any_piece_ok & H).
    apply vec_ok_cons in H as (min & v7 & s7 & -> & -> & Hmin & H).
    apply vec_ok_lit in H as (v8 & s8 & -> & -> & ->%vec_ok_nil).
    exists m, u, maj, sep, min, s8. unfold request_line. rewrite <- !app_assoc. done.
  - intros (m & u & maj & sep & min & rest & (Hm & Hu & Hmaj & Hmin) & -> & ->).
    unfold request_line. rewrite <- !app_assoc.
    apply vec_ok_cons; do 3 eexists; split; [reflexivity|]; split; [done|]; split; [done|].
    apply vec_ok_lit; do 2 eexists; split; [reflexivity|]; split; [done|].
    apply vec_ok_cons; do 3 eexists; split; [reflexivity|]; split; [done|]; split; [done|].
    apply vec_ok_lit; do 2 eexists; split; [reflexivity|]; split; [done|].
    apply vec_ok_cons; do 3 eexists; split; [reflexivity|]; split; [done|]; split; [done|].
    apply vec_ok_cons. exists [sep]. do 2 eexists; split; [reflexivity|]; split; [done|].
    split; [apply any_piece_ok; by eexists|].
    apply vec_ok_cons; do 3 eexists; split; [reflexivity|]; split; [done|]; split; [done|].
    apply vec_ok_lit; do 2 eexists; split; [reflexivity|]; split; [done|]. done.
Qed.

(** The method and the URI of a line are determined by it. *)
Lemma request_line_inj m u maj sep min rest m' u' maj' sep' min' rest' :
  wf_line m u maj min → wf_line m' u' maj' min' → is_digit sep = false →
  request_line m u maj sep min ++ rest = request_line m' u' maj' sep' min' ++ rest' →
  m = m' ∧ u = u' ∧ maj = maj' ∧ sep = sep' ∧ min = min' ∧ rest = rest'.
Proof.
  intros ((_ & _ & Hm) & (_ & _ & Hu) & (Ha1 & Ha2 & Ha) & (_ & _ & Hi))
    ((_ & _ & Hm') & (_ & _ & Hu') & (Ha1' & Ha2' & Ha') & (Hi1' & _ & Hi')) Hsep Heq.
  unfold request_line in Heq. rewrite <- !app_assoc in Heq.
  apply (app_delim_inj _ _ _ _ _ _ _ Hm Hm') in Heq as (-> & _ & [= Heq]); [|done..].
  apply (app_delim_inj _ _ _ _ _ _ _ Hu Hu') in Heq as (-> & _ & [= Heq]); [|done..].
  cbn [app] in Heq.
  assert (Hdig : ∀ c, cset_mem (pc_set version_piece) c = true → is_digit c = true).
  { intros c. cbn. by rewrite orb_false_r. }
  assert (maj = maj' ∧ sep = sep' ∧ min ++ CRLF ++ rest = min' ++ CRLF ++ rest')
    as (-> & -> & Heq').
  { cbn in Ha1, Ha2, Ha1', Ha2'.
    destruct maj as [|a [|b [|? ?]]], maj' as [|a' [|b' [|? ?]]]; cbn in *; try lia;
      simplify_eq; [done| | |done].
    - inversion_clear Ha' as [|? ? _ Hb]. inversion_clear Hb as [|? ? Hb1 _].
      apply Hdig in Hb1. congruence.
    - destruct min' as [|d min']; cbn in *; [lia|]. simplify_eq.
      inversion_clear Hi' as [|? ? Hd _]. apply Hdig in Hd. congruence. }
  apply (app_delim_inj _ _ _ _ _ _ _ Hi Hi') in Heq' as (-> & _ & [= ->]); done.
Qed.

(** *** What regexec reports for a request line *)

Lemma regexec_request_line s m u maj sep min rest :
  cstr s = request_line m u maj sep min ++ rest → wf_line m u maj min → is_digit sep = false →
  regexec (Regex true request_pieces) s =
  Some ((0, length (request_line m u maj sep min)) ::
        groups request_pieces 0 (line_vec m u maj min))%nat.
Proof.
  intros Hs Hwf Hsep. unfold regexec. cbn [re_anchored re_pieces]. rewrite Hs.
  rewrite (longest_matches _ _ (line_vec m u maj min)).
  - cbn [fmap option_fmap option_map]. do 2 f_equal. f_equal.
    unfold line_vec, request_line, total. cbn. len. cbn. lia.
  - apply request_vec_ok. by exists m, u, maj, sep, min, rest.
  - intros v (m' & u' & maj' & sep' & min' & rest' & Hwf' & Heq & ->)%request_vec_ok.
    by apply request_line_inj in Heq as (-> & -> & -> & -> & -> & ->).
Qed.

Lemma regexec_request_some s l : regexec (Regex true request_pieces) s = Some l →
  ∃ m u maj sep min rest, wf_line m u maj min ∧ cstr s = request_line m u maj sep min ++ rest ∧
    l = ((0, length (request_line m u maj sep min)) ::
         groups request_pieces 0 (line_vec m u maj min))%nat.
Proof.
  unfold regexec. cbn [re_anchored re_pieces].
  destruct (longest (matches request_pieces (cstr s))) as [v|] eqn:Hl; [|done].
  apply longest_spec in Hl as [Hv%matches_spec _].
  apply request_vec_ok in Hv as (m & u & maj & sep & min & rest & Hwf & Heq & ->).
  cbn [fmap option_fmap option_map]. intros [= <-]. exists m, u, maj, sep, min, rest.
  split; [done|]. split; [done|]. do 2 f_equal.
  unfold line_vec, request_line, total. cbn. len. cbn. lia.
Qed.

(** The method the code takes a word for: only its first three letters count. *)
Definition line_request (m : bytes) : Request :=
  if bool_decide (take 3 m = B "GET") then REQUEST_GET
  else if bool_decide (take 3 m = B "PUT") then REQUEST_PUT
  else REQUEST_UNSUPPORTED.

(** What process_request does once the line has matched. *)
Definition after_line (conn : Conn) (m u min : bytes) (len : Z) :
    itree sysE (Conn * option Response) :=
  let conn := set_uri u (set_request (line_request m) conn) in
  if (1 <? length min)%nat then Ret (conn, Some RESPONSE_BAD_REQUEST)
  else if bool_decide (min = B "1") then parse_headers (set_message_start len conn)
  else Ret (conn, Some RESPONSE_VERSION_NOT_SUPPORTED).

Lemma strncmp_method m r k : length k = 3%nat → " "%char ∉ k →
  strncmp_eq (m ++ " "%char :: r) k 3 = bool_decide (take 3 m = k).
Proof.
  intros Hk Hsp. rewrite strncmp_eq_take by lia. rewrite (take_ge k) by lia.
  destruct (decide (3 ≤ length m)%nat); [by rewrite take_app_le|].
  rewrite !bool_decide_false; [done|..].
  - intros Hm%(f_equal length). len.
  - intros Hm. apply Hsp. rewrite <- Hm, take_app_ge by lia.
    destruct (3 - length m)%nat eqn:Hd; [lia|]. cbn. set_solver.
Qed.

Lemma matched_app (s a x b : bytes) off :
  s = a ++ x ++ b → off = length a → matched s (off, off + length x)%nat = x.
Proof.
  intros -> ->. unfold matched. cbn. rewrite drop_app_length.
  apply take_length_app. lia.
Qed.

(** *** Compiling a pattern *)

Lemma wpt_compile p w q c (Q : option regex → world → Prop) : quiet q c w →
  (∀ w', w' ≡ w → quiet q c w' → Q (regcomp p) w' ∧ (¬ q → Q None w')) →
  wpt (compile p) w Q.
Proof.
  intros Hq HQ. unfold compile. apply wpt_bind.
  destruct (pop_fault w) as [f w1] eqn:Hf.
  destruct (pop_fault_view c q w w f w1 Hf) as (Hw1 & Hq1 & _ & He); [done..|].
  destruct (HQ w1 Hw1 Hq1) as [H1 H2].
  eapply wpt_trigger; [cbn; unfold sys_alloc; by rewrite Hf|].
  destruct f as [| |e]; apply wpt_ret; [done..|]. apply H2. by eapply He.
Qed.

(** Lists of offsets, entry by entry. *)
Ltac pairs_eq :=
  repeat match goal with
  | |- _ :: _ = _ :: _ => f_equal
  | |- (_, _) = (_, _) => f_equal
  end; lia || done.

(** Where the minor version starts. *)
Definition minor_off (m u maj : bytes) : nat := length m + 2 + length u + 6 + length maj + 1.

Lemma groups_request m u maj min :
  groups request_pieces 0 (line_vec m u maj min) =
  [(0, length m); (length m + 2, length m + 2 + length u);
   (length m + 2 + length u + 6, length m + 2 + length u + 6 + length maj);
   (minor_off m u maj, minor_off m u maj + length min)]%nat.
Proof.
  unfold minor_off. cbn. pairs_eq.
Qed.

Lemma request_method_eq conn m r k : buffer conn = m ++ B " /" ++ r →
  length k = 3%nat → " "%char ∉ k →
  strncmp_eq (drop 0 (buffer conn)) k 3 = bool_decide (take 3 m = k).
Proof. intros -> Hk Hsp. rewrite drop_0. by apply strncmp_method. Qed.

Lemma minor_eq a min r : min ≠ [] → (length min ≤ 1)%nat →
  strncmp_eq (drop (length a) (a ++ min ++ r)) (B "1") 1 = bool_decide (min = B "1").
Proof.
  intros Hne Hl. destruct min as [|d [|]]; cbn in Hl; [done| |lia].
  rewrite drop_app_length, strncmp_eq_take by done. cbn. apply bool_decide_ext.
  split; by intros [= ->].
Qed.

Lemma process_request_line conn w q c m u maj sep min rest Q : quiet q c w →
  cstr (buffer conn) = request_line m u maj sep min ++ rest →
  wf_line m u maj min →
  regexec (Regex true request_pieces) (buffer conn) =
    Some ((0, length (request_line m u maj sep min)) ::
          groups request_pieces 0 (line_vec m u maj min))%nat →
  (∀ w', w' ≡ w → quiet q c w' →
     wpt (after_line conn m u min (Z.of_nat (length (request_line m u maj sep min)))) w' Q) →
  (∀ w', w' ≡ w → quiet q c w' → ¬ q → Q (conn, Some RESPONSE_INTERNAL_SERVER_ERROR) w') →
  wpt (process_request conn) w Q.
Proof.
  intros Hq Hbuf Hwf Hre HQ Herr. unfold process_request. apply wpt_bind.
  apply (wpt_compile _ _ q c); [done|]. intros w' Hw Hq'. rewrite regcomp_request.
  split; [|intros ?; apply wpt_ret; by apply Herr].
  rewrite Hre. clear Hre.
  specialize (HQ w' Hw Hq'). unfold after_line in HQ.
  destruct (cstr_prefix (buffer conn)) as [t Ht]. rewrite Hbuf, <- app_assoc in Ht.
  set (r := rest ++ t) in *. clearbody r. clear Hbuf rest t.
  destruct Hwf as (_ & (Hu1 & Hu2 & _) & _ & (Hi1 & _ & _)). cbn in Hu1, Hu2, Hi1.
  assert (Hlen : length (request_line m u maj sep min) = (minor_off m u maj + length min + 2)%nat).
  { unfold request_line, minor_off, CRLF. len. cbn. lia. }
  unfold request_line in Ht. rewrite <- !app_assoc in Ht. rewrite groups_request.
  rewrite !(request_method_eq conn m (u ++ B " HTTP/" ++ maj ++ [sep] ++ min ++ CRLF ++ r))
    by (done || by apply (bool_decide_unpack _); vm_compute).
  assert (Hc1 : (if bool_decide (take 3 m = B "GET") then set_request REQUEST_GET conn
      else if bool_decide (take 3 m = B "PUT") then set_request REQUEST_PUT conn
      else set_request REQUEST_UNSUPPORTED conn) = set_request (line_request m) conn).
  { unfold line_request. by repeat case_bool_decide. }
  rewrite Hc1. clear Hc1. cbn [fst snd buffer set_request set_uri].
  rewrite (matched_app _ (m ++ B " /") u (B " HTTP/" ++ maj ++ [sep] ++ min ++ CRLF ++ r))
    by (rewrite ?Ht, <- ?app_assoc; len; done).
  destruct (Nat.leb_spec 64 (length m + 2 + length u - (length m + 2))); [lia|].
  replace (minor_off m u maj + length min - minor_off m u maj)%nat with (length min) by lia.
  destruct (Nat.ltb_spec 1 (length min)); [done|].
  set (a := m ++ B " /" ++ u ++ B " HTTP/" ++ maj ++ [sep]).
  assert (Ha : minor_off m u maj = length a) by (unfold minor_off, a; len; cbn; lia).
  assert (Hb : buffer conn = a ++ min ++ CRLF ++ r).
  { rewrite Ht. unfold a. by rewrite <- !app_assoc. }
  rewrite Ha, Hb, minor_eq; [|intros ->; cbn in Hi1; lia|lia].
  case_bool_decide; cbn [negb]; [|done].
  rewrite Hlen, Ha in HQ. unfold validate_uri. cbn [uri set_message_start set_uri set_request].
  destruct u as [|u0 u']; [cbn in Hu1; lia|].
  replace (Z.of_nat (length a + length min) + 2) with (Z.of_nat (length a + length min + 2)) by lia.
  done.
Qed.

(** ** Header fields *)

Definition header_line (h : bytes * bytes) : bytes := h.1 ++ B ": " ++ h.2 ++ CRLF.
Definition header_text (hs : list (bytes * bytes)) : bytes := concat (map header_line hs).
Definition wf_header (h : bytes * bytes) : Prop :=
  piece_ok key_piece h.1 ∧ piece_ok value_piece h.2.
Definition header_vec (h : bytes * bytes) : list nat :=
  length h.1 :: 1%nat :: 1%nat :: length h.2 :: replicate 2 1%nat ++ [].

Lemma header_vec_ok v s : vec_ok header_pieces v s ↔
  ∃ h sp rest, wf_header h ∧ piece_ok space_piece [sp] ∧
    s = (h.1 ++ [":"%char; sp] ++ h.2 ++ CRLF) ++ rest ∧ v = header_vec h.
Proof.
  unfold header_pieces. split.
  - rewrite vec_ok_cons. intros (k & v1 & s1 & -> & -> & Hk & H).
    apply vec_ok_lit in H as (v2 & s2 & -> & -> & H).
    apply vec_ok_cons in H as (x & v3 & s3 & -> & -> & Hx & H).
    apply vec_ok_cons in H as (val & v4 & s4 & -> & -> & Hval & H).
    apply vec_ok_lit in H as (v5 & s5 & -> & -> & ->%vec_ok_nil).
    pose proof Hx as (Hx1 & Hx2 & _).
    destruct x as [|sp [|? ?]]; cbn in Hx1, Hx2; [lia| |lia].
    exists (k, val), sp, s5. cbn [fst snd]. rewrite <- !app_assoc. done.
  - intros ([k val] & sp & rest & [Hk Hv] & Hsp & -> & ->). cbn [fst snd] in *.
    rewrite <- !app_assoc.
    apply vec_ok_cons. do 3 eexists. split; [reflexivity|]. split; [done|]. split; [done|].
    apply vec_ok_lit. exists (1%nat :: length val :: replicate 2 1%nat ++ []). eexists.
    split; [done|]. split; [reflexivity|].
    apply vec_ok_cons. exists [sp]. do 2 eexists. split; [reflexivity|]. split; [reflexivity|].
    split; [done|].
    apply vec_ok_cons. do 3 eexists. split; [reflexivity|]. split; [done|]. split; [done|].
    apply vec_ok_lit. do 2 eexists. split; [reflexivity|]. split; [done|]. done.
Qed.

Lemma space_piece_blank : piece_ok space_piece [" "%char].
Proof. by repeat constructor. Qed.

Lemma header_line_inj h rest h' sp rest' : wf_header h → wf_header h' →
  header_line h ++ rest = (h'.1 ++ [":"%char; sp] ++ h'.2 ++ CRLF) ++ rest' → h = h'.
Proof.
  destruct h as [k v], h' as [k' v']. cbn [fst snd]. unfold header_line; cbn [fst snd].
  intros [(_ & _ & Hk) (_ & _ & Hv)] [(_ & _ & Hk') (_ & _ & Hv')] Heq. cbn [fst snd] in *.
  rewrite <- !app_assoc in Heq.
  apply (app_delim_inj _ _ _ _ _ _ _ Hk Hk') in Heq as (-> & _ & [= <- Heq]); [|done..].
  by apply (app_delim_inj _ _ _ _ _ _ _ Hv Hv') in Heq as (-> & _).
Qed.

Lemma piece_no (p : piece) x c : cset_mem (pc_set p) c = false → piece_ok p x → c ∉ x.
Proof.
  intros Hc (_ & _ & Hx) Hin. rewrite Forall_forall in Hx. specialize (Hx c Hin). cbn in Hx.
  congruence.
Qed.

Lemma header_line_no_nul h : wf_header h → NUL ∉ header_line h.
Proof.
  intros [Hk%(piece_no _ _ NUL) Hv%(piece_no _ _ NUL)]; [|done..].
  unfold header_line. rewrite !not_elem_of_app. repeat split; try done.
  all: by apply (bool_decide_unpack _); vm_compute.
Qed.

(** The header at the head of a text is the one found, whatever follows. *)
Lemma search_header_line h rest : wf_header h → search header_pieces (header_line h ++ rest) = Some (0%nat, header_vec h).
Proof.
  intros Hwf. apply search_head.
  - apply header_vec_ok. exists h, " "%char, rest. split; [done|].
    split; [apply space_piece_blank|done].
  - intros v (h' & sp & rest' & Hwf' & _ & Heq & ->)%header_vec_ok.
    by apply header_line_inj in Heq as ->.
Qed.

Lemma regexec_header_line h rest : wf_header h →
  regexec (Regex false header_pieces) (header_line h ++ rest) =
  Some [(0, length (header_line h)); (0, length h.1);
        (length h.1 + 2, length h.1 + 2 + length h.2)]%nat.
Proof.
  intros Hwf. unfold regexec. cbn [re_anchored re_pieces].
  rewrite cstr_app by by apply header_line_no_nul.
  rewrite search_header_line by done.
  destruct h as [k v]. unfold header_vec, header_line, total. cbn. len. cbn. f_equal. pairs_eq.
Qed.

(** What a header field means to the server. *)
Definition apply_header (conn : Conn) (h : bytes * bytes) : Conn :=
  if bool_decide (h.1 = CONTENT_LENGTH_KEY) then
    set_content_length (to_s64 (strtoull h.2)) conn
  else if bool_decide (h.1 = REQUEST_ID_KEY) then set_request_id h.2 conn
  else conn.

Lemma key_is_eq k r kw : key_is (k ++ r) (length k) kw = bool_decide (k = kw).
Proof.
  unfold key_is. destruct (Nat.eqb_spec (length k) (length kw)) as [Hl|Hl]; cbn [andb].
  - rewrite strncmp_eq_take by lia. rewrite take_app_length, Hl, take_ge by lia. done.
  - rewrite bool_decide_false; [done|]. by intros ->.
Qed.

Lemma header_field_line conn h rest : wf_header h →
  header_field conn (header_line h ++ rest) (0, length h.1)%nat
    (length h.1 + 2, length h.1 + 2 + length h.2)%nat = apply_header conn h.
Proof.
  intros [_ (_ & Hv & _)]. destruct h as [k v]. cbn [fst snd] in *. cbn in Hv.
  unfold header_field, apply_header, header_line. cbn [fst snd].
  rewrite drop_0, <- !app_assoc, Nat.sub_0_r, !key_is_eq.
  rewrite (matched_app _ (k ++ B ": ") v (CRLF ++ rest)) by (rewrite <- ?app_assoc; len; done).
  rewrite take_ge by lia. done.
Qed.

(** The loop consumes the header fields one by one. *)
Lemma header_loop_lines hs tail fuel conn pre : Forall wf_header hs →
  header_loop (length hs + fuel) (Regex false header_pieces) (pre ++ header_text hs ++ tail) conn (length pre) =
  header_loop fuel (Regex false header_pieces) (pre ++ header_text hs ++ tail) (foldl apply_header conn hs)
    (length pre + length (header_text hs)).
Proof.
  intros Hwf. revert conn pre. induction Hwf as [|h hs Hh _ IH]; intros conn pre; [cbn; by rewrite Nat.add_0_r|].
  cbn [length Nat.add]. cbn [header_loop]. rewrite drop_app_length. unfold header_text. cbn [concat map].
  rewrite <- app_assoc, regexec_header_line by done. cbn [fst snd]. rewrite header_field_line by done.
  rewrite app_assoc, <- length_app. fold (header_text hs). rewrite IH. cbn [foldl]. f_equal. len.
Qed.

(** It stops where the text holds no further field. *)
Lemma header_loop_text hs tail fuel conn pre :
  Forall wf_header hs → (length hs < fuel)%nat →
  regexec (Regex false header_pieces) tail = None →
  header_loop fuel (Regex false header_pieces) (pre ++ header_text hs ++ tail) conn (length pre) =
  (foldl apply_header conn hs, length pre + length (header_text hs))%nat.
Proof.
  intros Hwf Hf Hnone. replace fuel with (length hs + S (fuel - S (length hs)))%nat by lia.
  rewrite header_loop_lines by done. cbn [header_loop].
  by rewrite app_assoc, <- length_app, drop_app_length, Hnone.
Qed.

(** The fields [apply_header] leaves alone. *)
Lemma apply_headers_fields conn hs : let conn' := foldl apply_header conn hs in
  connfd conn' = connfd conn ∧ buffer conn' = buffer conn ∧ bytes_read conn' = bytes_read conn ∧
  message_start conn' = message_start conn ∧ in_message conn' = in_message conn ∧
  uri conn' = uri conn ∧ request conn' = request conn.
Proof.
  cbn. revert conn. induction hs as [|h hs IH]; intros conn; cbn [foldl]; [done|].
  destruct (IH (apply_header conn h)) as (-> & -> & -> & -> & -> & -> & ->).
  unfold apply_header. by repeat case_bool_decide.
Qed.

(** The last value given for a key. *)
Fixpoint header_value (k : bytes) (hs : list (bytes * bytes)) : option bytes :=
  match hs with
  | [] => None
  | h :: hs =>
      match header_value k hs with
      | Some v => Some v
      | None => if bool_decide (h.1 = k) then Some h.2 else None
      end
  end.

Lemma apply_headers_values conn hs : let conn' := foldl apply_header conn hs in
  content_length conn' =
    match header_value CONTENT_LENGTH_KEY hs with
    | Some v => to_s64 (strtoull v) | None => content_length conn end ∧
  request_id conn' = default (request_id conn) (header_value REQUEST_ID_KEY hs).
Proof.
  cbv zeta. revert conn. induction hs as [|[k v] hs IH]; intros conn; cbn [foldl header_value]; [done|].
  destruct (IH (apply_header conn (k, v))) as [-> ->]. unfold apply_header. cbn [fst snd].
  destruct (header_value CONTENT_LENGTH_KEY hs), (header_value REQUEST_ID_KEY hs);
    (split; [try done|try done]); repeat case_bool_decide; subst; (done || discriminate).
Qed.

(** ** A whole request *)

(** The blank line is the only place where two line ends meet. *)
Lemma blank_line_last lines pre post :
  Forall (λ l, l ≠ [] ∧ CR ∉ l) lines →
  concat (map (λ l, l ++ CRLF) lines) ++ CRLF = pre ++ (CRLF ++ CRLF) ++ post → post = [].
Proof.
  intros H. revert pre. induction H as [|l lines [Hl Hcr] H IH]; intros pre Heq.
  - apply (f_equal length) in Heq. cbn in Heq. len.
  - cbn [map concat] in Heq. rewrite <- !app_assoc in Heq.
    destruct (decide (length pre < length l)%nat) as [Hlt|Hge].
    { symmetry in Heq. apply app_le_prefix in Heq as (x & -> & Heq); [|lia].
      destruct x as [|c x]; [len|]. injection Heq as <- _. set_solver. }
    destruct (decide (length pre = length l)) as [Heql|Hne].
    { apply app_inj_1 in Heq as [_ [= Heq]]; [|done].
      destruct H as [|l' lines' [Hl' Hcr'] H]; [cbn in Heq; by injection Heq as <-|].
      cbn in Heq. destruct l' as [|c l']; [done|]. injection Heq as -> _. set_solver. }
    apply app_le_prefix in Heq as (x & -> & Heq); [|lia].
    destruct x as [|a [|b x]]; [len|by simplify_eq|]. injection Heq as <- <- Heq.
    by apply (IH x).
Qed.

(** A request as the client writes it: the line, the header fields, a blank
    line; the body follows. *)
Definition request_head (m u : bytes) (hs : list (bytes * bytes)) : bytes :=
  request_line m u (B "1") "."%char (B "1") ++ header_text hs ++ CRLF.

Definition wf_request (m u : bytes) (hs : list (bytes * bytes)) : Prop :=
  piece_ok method_piece m ∧ piece_ok uri_piece u ∧ Forall wf_header hs.

#[export] Instance wf_header_dec h : Decision (wf_header h).
Proof. unfold wf_header. apply _. Defined.
#[export] Instance wf_request_dec m u hs : Decision (wf_request m u hs).
Proof. unfold wf_request. apply _. Defined.

Lemma version_1 : piece_ok version_piece (B "1").
Proof. by repeat constructor. Qed.

Lemma request_head_blank m u hs pre post : wf_request m u hs →
  request_head m u hs = pre ++ (CRLF ++ CRLF) ++ post → post = [].
Proof.
  intros (Hm & Hu & Hhs).
  set (lines := (m ++ B " /" ++ u ++ B " HTTP/1.1") :: map (λ h, h.1 ++ B ": " ++ h.2) hs).
  assert (Heq : request_head m u hs = concat (map (λ l, l ++ CRLF) lines) ++ CRLF).
  { unfold request_head, request_line, lines, header_text. cbn [map concat].
    change (B " HTTP/1.1") with (B " HTTP/" ++ B "1" ++ ["."%char] ++ B "1").
    rewrite map_map, <- !app_assoc. do 10 f_equal.
    apply map_ext. intros h. unfold header_line. by rewrite <- !app_assoc. }
  rewrite Heq. apply blank_line_last. constructor.
  - split; [by destruct m|]. apply (piece_no _ _ CR) in Hm, Hu; [|done..].
    rewrite !not_elem_of_app. repeat split; try done; by apply (bool_decide_unpack _); vm_compute.
  - apply Forall_map. eapply Forall_impl; [exact Hhs|]. intros [k v] [Hk Hv]. cbn [fst snd] in *.
    split; [by destruct k|]. apply (piece_no _ _ CR) in Hk, Hv; [|done..].
    rewrite !not_elem_of_app. repeat split; try done; by apply (bool_decide_unpack _); vm_compute.
Qed.

(** *** The buffer after reading *)

Lemma cstr_replicate n : cstr (replicate n NUL) = [].
Proof. by destruct n. Qed.

Lemma cstr_pad l n : cstr (l ++ replicate n NUL) = cstr l.
Proof.
  unfold cstr. induction l as [|c l IH]; [apply cstr_replicate|]. cbn [app span].
  case_bool_decide; cbn [negb]; [done|].
  destruct (span _ (l ++ _)), (span _ l); cbn in *. by rewrite IH.
Qed.

Lemma cstr_app_prefix a b : cstr a `prefix_of` cstr (a ++ b).
Proof.
  unfold cstr. induction a as [|c a IH]; [apply prefix_nil|]. cbn [app span].
  case_bool_decide; cbn [negb]; [done|].
  destruct (span _ (a ++ b)), (span _ a); cbn in *. by apply prefix_cons.
Qed.

(** The whole buffer of a connection that read [d]. *)
Definition filled (d : bytes) : bytes :=
  d ++ replicate (S (Z.to_nat BUFFER_SIZE) - length d) NUL.

Lemma store_fresh d : (length d ≤ Z.to_nat BUFFER_SIZE)%nat →
  store (buffer (fresh_conn 0)) 0 d = filled d ∧
  store (filled d) (length d) [NUL] = filled d.
Proof.
  intros Hd. unfold store, filled, fresh_conn. cbn [buffer]. split.
  - by rewrite take_0, drop_replicate.
  - rewrite take_app_length, drop_app_ge by len. rewrite drop_replicate.
    replace (length d + length [NUL] - length d)%nat with 1%nat by (cbn; lia).
    f_equal. destruct (S (Z.to_nat BUFFER_SIZE) - length d)%nat eqn:Hn; [lia|].
    cbn. by rewrite Nat.sub_0_r.
Qed.

(** A buffered body holds no header field if the whole body holds none. *)
Lemma no_header_buffered d rest n :
  regexec (Regex false header_pieces) (CRLF ++ d ++ rest) = None →
  regexec (Regex false header_pieces) (CRLF ++ d ++ replicate n NUL) = None.
Proof.
  unfold regexec. cbn [re_anchored re_pieces]. rewrite !app_assoc, cstr_pad.
  destruct (cstr_app_prefix (CRLF ++ d) rest) as [t ->].
  destruct (search header_pieces (_ ++ t)) as [[o v]|] eqn:Hs; [done|].
  by rewrite (search_None_prefix _ _ _ Hs).
Qed.

(** What the connection says after a request was parsed, [d] being the part of
    the body read along with the head. *)
Record parsed (fd : nat) (m u : bytes) (hs : list (bytes * bytes)) (d : bytes)
    (conn : Conn) : Prop := {
  pd_fd : connfd conn = fd;
  pd_request : request conn = line_request m;
  pd_uri : uri conn = u;
  pd_length : content_length conn =
    match header_value CONTENT_LENGTH_KEY hs with
    | Some v => to_s64 (strtoull v) | None => 0 end;
  pd_id : request_id conn = default (B "0") (header_value REQUEST_ID_KEY hs);
  pd_in : in_message conn = Z.of_nat (length d);
  pd_start : message_start conn = Z.of_nat (length (request_head m u hs));
  pd_buffer : buffer conn = filled (request_head m u hs ++ d)
}.

Lemma header_text_length hs : (length hs ≤ length (header_text hs))%nat.
Proof.
  unfold header_text. induction hs as [|h hs IH]; cbn; [done|].
  rewrite length_app. unfold header_line at 1. len. cbn. lia.
Qed.

Lemma parse_headers_text conn w q c pre hs tail Q : quiet q c w →
  buffer conn = pre ++ header_text hs ++ tail → message_start conn = Z.of_nat (length pre) →
  Forall wf_header hs → regexec (Regex false header_pieces) tail = None →
  (∀ w', w' ≡ w → quiet q c w' →
     Q (set_message_start (Z.of_nat (length pre) + Z.of_nat (length (header_text hs)) + 2)
          (foldl apply_header conn hs), None) w' ∧
     (¬ q → Q (conn, Some RESPONSE_INTERNAL_SERVER_ERROR) w')) →
  wpt (parse_headers conn) w Q.
Proof.
  intros Hq Hbuf Hms Hwf Hnone HQ. unfold parse_headers. apply wpt_bind.
  apply (wpt_compile _ _ q c); [done|]. intros w' Hw Hq'. rewrite regcomp_header.
  destruct (HQ w' Hw Hq') as [H1 H2]. split; [|intros ?; apply wpt_ret; auto].
  rewrite Hms, Nat2Z.id, Hbuf, drop_app_length.
  pose proof (header_loop_text hs tail (S (length (header_text hs ++ tail))) conn [] Hwf) as Hl.
  cbn [app length] in Hl. rewrite Hl; [|pose proof (header_text_length hs); len|done].
  apply wpt_ret. destruct (apply_headers_fields conn hs) as (_ & _ & _ & -> & _).
  rewrite Hms. cbn [Nat.add]. rewrite Z.add_assoc. done.
Qed.

Lemma request_line_no_nul m u : piece_ok method_piece m → piece_ok uri_piece u →
  NUL ∉ request_line m u (B "1") "."%char (B "1").
Proof.
  intros Hm%(piece_no _ _ NUL) Hu%(piece_no _ _ NUL); [|done..].
  unfold request_line. rewrite !not_elem_of_app.
  repeat split; try done; by apply (bool_decide_unpack _); vm_compute.
Qed.

(** Parsing a buffer that holds a whole head: the request line, then the rest. *)
Lemma process_request_text fd w q c m u hs d n Q : quiet q c w → wf_request m u hs →
  let line := request_line m u (B "1") "."%char (B "1") in
  let pad := replicate (S (Z.to_nat BUFFER_SIZE) - length (request_head m u hs ++ d)) NUL in
  let conn := set_bytes_read n (set_buffer (filled (request_head m u hs ++ d)) (fresh_conn fd)) in
  (∀ conn1 w1, w1 ≡ w → quiet q c w1 →
     conn1 = set_message_start (Z.of_nat (length line)) (set_uri u (set_request (line_request m) conn)) →
     buffer conn1 = line ++ header_text hs ++ (CRLF ++ d ++ pad) → wpt (parse_headers conn1) w1 Q) →
  (∀ w1, w1 ≡ w → quiet q c w1 → ¬ q → Q (conn, Some RESPONSE_INTERNAL_SERVER_ERROR) w1) →
  wpt (process_request conn) w Q.
Proof.
  intros Hq (Hm & Hu & Hhs) line pad conn HQ Herr.
  assert (Hbuf : buffer conn = line ++ header_text hs ++ (CRLF ++ d ++ pad)).
  { change (buffer conn) with ((request_head m u hs ++ d) ++ pad).
    unfold request_head. fold line. by rewrite <- !app_assoc. }
  assert (Hwf : wf_line m u (B "1") (B "1")).
  { split_and!; try done; apply version_1. }
  assert (Hcstr : cstr (buffer conn) = line ++ cstr (header_text hs ++ (CRLF ++ d ++ pad))).
  { rewrite Hbuf. apply cstr_app. by apply request_line_no_nul. }
  eapply (process_request_line conn w q c m u (B "1") "."%char (B "1"));
    [done|exact Hcstr|done|by eapply regexec_request_line| |done].
  intros w1 Hw1 Hq1. unfold after_line. cbn [length B String.list_ascii_of_string Nat.ltb Nat.leb].
  rewrite bool_decide_true by done. by apply HQ.
Qed.

Lemma process_request_head fd w q c m u hs d rest n : quiet q c w → wf_request m u hs →
  regexec (Regex false header_pieces) (CRLF ++ d ++ rest) = None →
  let conn := set_bytes_read n (set_buffer (filled (request_head m u hs ++ d)) (fresh_conn fd)) in
  n = Z.of_nat (length (request_head m u hs) + length d) →
  wpt (process_request conn) w (λ '(conn', r) w', w' ≡ w ∧ quiet q c w' ∧
    ((r = None ∧ parsed fd m u hs d (set_in_message (bytes_read conn' - message_start conn') conn'))
     ∨ (r = Some RESPONSE_INTERNAL_SERVER_ERROR ∧ bytes_read conn' = n ∧ ¬ q))).
Proof.
  intros Hq Hwf Hnone conn Hn.
  apply (process_request_text fd w q c m u hs d n); [done|done| |].
  2: { intros w' Hw Hq' Hnq. split; [done|]. split; [done|]. by right. }
  set (line := request_line m u (B "1") "."%char (B "1")).
  intros conn1 w1 Hw1 Hq1 Hconn1 Hbuf.
  eapply (parse_headers_text _ _ q c line hs); [done|exact Hbuf|by rewrite Hconn1|apply Hwf|by eapply no_header_buffered|].
  intros w2 Hw2 Hq2. assert (Hw : w2 ≡ w) by (by transitivity w1). split; [|intros Hnq; split; [done|]; split; [done|]; right; by rewrite Hconn1].
  split; [done|]. split; [done|]. left. split; [done|].
  destruct (apply_headers_fields conn1 hs) as (Hf1 & Hf2 & Hf3 & Hf4 & Hf5 & Hf6 & Hf7).
  destruct (apply_headers_values conn1 hs) as [Hv1 Hv2].
  assert (Hlen : Z.of_nat (length line) + Z.of_nat (length (header_text hs)) + 2 =
    Z.of_nat (length (request_head m u hs))).
  { unfold request_head. fold line. unfold CRLF. len. }
  rewrite Hlen. constructor; cbn [connfd request uri content_length request_id in_message
    message_start buffer set_in_message set_message_start bytes_read].
  - by rewrite Hf1, Hconn1.
  - by rewrite Hf7, Hconn1.
  - by rewrite Hf6, Hconn1.
  - by rewrite Hv1, Hconn1.
  - by rewrite Hv2, Hconn1.
  - rewrite Hf3, Hconn1. unfold conn. cbn [bytes_read set_message_start set_uri set_request set_bytes_read]. lia.
  - done.
  - by rewrite Hf2, Hconn1.
Qed.

Lemma request_head_ends m u hs : ∃ pre, request_head m u hs = pre ++ (CRLF ++ CRLF).
Proof.
  unfold request_head. destruct hs as [|h hs _] using rev_ind.
  - unfold request_line. exists (m ++ B " /" ++ u ++ B " HTTP/" ++ B "1" ++ ["."%char] ++ B "1").
    by rewrite <- !app_assoc.
  - unfold header_text. rewrite map_app, concat_app. cbn [map concat]. unfold header_line at 2.
    rewrite app_nil_r.
    exists (request_line m u (B "1") "."%char (B "1") ++ concat (map header_line hs) ++
            h.1 ++ B ": " ++ h.2).
    by rewrite <- !app_assoc.
Qed.

(** Reading stops no earlier than the blank line. *)
Lemma read_whole_head m u hs body d rest : wf_request m u hs →
  request_head m u hs ++ body = d ++ rest →
  (∃ pre post, d = pre ++ (CRLF ++ CRLF) ++ post) ∨
    (length (request_head m u hs) ≤ length d)%nat ∨ rest = [] →
  ∃ b, d = request_head m u hs ++ b ∧ body = b ++ rest.
Proof.
  intros Hwf Heq H.
  destruct (decide (length (request_head m u hs) ≤ length d)%nat) as [|Hlt].
  { by apply app_le_prefix in Heq. }
  exfalso. destruct H as [(pre & post & ->)|[?| ->]]; [|lia|].
  - symmetry in Heq. apply app_le_prefix in Heq as (x & Hh & _); [|lia].
    rewrite <- !app_assoc in Hh. rewrite (app_assoc CRLF CRLF) in Hh.
    pose proof Hh as Hx%request_head_blank; [|done]. apply app_eq_nil in Hx as [-> ->].
    rewrite Hh in Hlt. len.
  - apply (f_equal length) in Heq. len.
Qed.

(** What a client that sent [request_head m u hs ++ body] gets. *)
Lemma conn_parse_head fd c w s m u hs body q : quiet q c w →
  w_fds w !! fd = Some (OSock c) → w_socks w !! c = Some s →
  sk_in s = request_head m u hs ++ body → wf_request m u hs →
  Z.of_nat (length (request_head m u hs)) ≤ BUFFER_SIZE →
  regexec (Regex false header_pieces) (CRLF ++ body) = None →
  wpt (conn_parse (fresh_conn fd)) w (λ '(conn, r) w', quiet q c w' ∧
    ((r = None ∧ ∃ d rest, body = d ++ rest ∧ w' ≡ sock_in w c rest ∧ parsed fd m u hs d conn) ∨
     (¬ q ∧ (r = Some RESPONSE_INTERNAL_SERVER_ERROR ∨ r = Some RESPONSE_BAD_REQUEST)))).
Proof.
  intros Hq Hfd Hs Hin Hwf Hlen Hnone. unfold conn_parse. apply wpt_bind.
  pose proof (sock_in_view w fd c s Hfd Hs) as Hview.
  eapply wpt_conseq.
  { apply (read_until_spec _ _ (fault_count c) (read_error q (sk_eof s)) (sk_in s) ()
      w (buffer (fresh_conn 0))).
    - by rewrite sock_in_id.
    - unfold fresh_conn. cbn [buffer]. rewrite length_replicate. unfold BUFFER_SIZE. lia.
    - done. }
  intros [r buf] w1 (d & rest & Hd & Hdn & [Hw1 Hq1] & _ & Hbuf & Hr). rewrite Hin in Hd.
  destruct (store_fresh d) as [Hst1 Hst2]; [lia|]. rewrite Hst1 in Hbuf. subst buf.
  destruct r as [n|e].
  2: { destruct Hr as (_ & Hno & Herr).
       assert (¬ q).
       { intros Hh. destruct (Herr Hh) as (-> & _). apply Hno.
         destruct (request_head_ends m u hs) as [pre Hpre]. exists pre, body.
         rewrite app_nil_r in Hd. by rewrite <- Hd, Hpre, <- app_assoc. }
       case_bool_decide; apply wpt_ret; auto. }
  destruct Hr as [-> Hr].
  apply read_whole_head in Hd as (b & -> & ->); [|done|].
  2: { destruct Hr as [?|[?|?]]; auto. right. left. lia. }
  cbn [set_bytes_read set_buffer buffer].
  destruct (Z.eqb_spec (Z.of_nat (length (request_head m u hs ++ b))) 0) as [H0|_].
  { destruct (request_head_ends m u hs) as [pre Hpre]. rewrite Hpre in H0. len. cbn in H0. lia. }
  rewrite Nat2Z.id, Hst2. apply wpt_bind. eapply wpt_conseq.
  { apply (process_request_head fd w1 q c m u hs b rest); [done..|]. by rewrite length_app. }
  intros [conn r] w2 (Hw2 & Hq2 & [[-> Hp]|(-> & _ & Hnq)]); apply wpt_ret; split; auto.
  left. split; [done|]. exists b, rest. split; [done|]. split; [by transitivity w1|done].
Qed.

(** ** Any input

    The bounds that keep the C code inside its buffers, for every byte string
    a client can send. *)

Lemma regexec_header_some s l : regexec (Regex false header_pieces) s = Some l →
  ∃ pre h sp rest, wf_header h ∧ cstr s = pre ++ (h.1 ++ [":"%char; sp] ++ h.2 ++ CRLF) ++ rest ∧
    l = [(length pre, length pre + (length h.1 + length h.2 + 4));
         (length pre, length pre + length h.1);
         (length pre + (length h.1 + 2), length pre + (length h.1 + 2) + length h.2)]%nat.
Proof.
  unfold regexec. cbn [re_anchored re_pieces].
  destruct (search header_pieces (cstr s)) as [[off v]|] eqn:Hs; [|done].
  apply search_Some in Hs as (Hoff & Hv & _).
  apply header_vec_ok in Hv as (h & sp & rest & Hwf & _ & Heq & ->). intros [= <-].
  exists (take off (cstr s)), h, sp, rest. split; [done|].
  rewrite <- Heq, take_drop, length_take, Nat.min_l by done. split; [done|].
  unfold header_vec, total. cbn. pairs_eq.
Qed.

Lemma cstr_length s : (length (cstr s) ≤ length s)%nat.
Proof. destruct (cstr_prefix s) as [t Ht]. rewrite Ht at 2. len. Qed.

(** What stays within bounds in a connection while its headers are parsed. *)
Definition header_safe (conn conn' : Conn) : Prop :=
  connfd conn' = connfd conn ∧ buffer conn' = buffer conn ∧ bytes_read conn' = bytes_read conn ∧
  message_start conn' = message_start conn ∧ uri conn' = uri conn ∧ request conn' = request conn ∧
  ((length (request_id conn) ≤ 128)%nat → (length (request_id conn') ≤ 128)%nat) ∧
  (LONG_MIN ≤ content_length conn ≤ LONG_MAX → LONG_MIN ≤ content_length conn' ≤ LONG_MAX).

Lemma to_s64_range z : LONG_MIN ≤ to_s64 z ≤ LONG_MAX.
Proof.
  unfold to_s64, LONG_MIN, LONG_MAX. pose proof (Z.mod_pos_bound z (2 ^ 64)).
  destruct (Z.ltb_spec (z mod 2 ^ 64) (2 ^ 63)); lia.
Qed.

Lemma header_field_safe conn0 conn s m1 m2 :
  header_safe conn0 conn → header_safe conn0 (header_field conn s m1 m2).
Proof.
  unfold header_safe, header_field. intros (H1 & H2 & H3 & H4 & H5 & H6 & H7 & H8).
  repeat case_match; cbn -[to_s64 matched take]; split_and!; try done.
  - intros _. apply to_s64_range.
  - intros _. len.
Qed.

(** The loop ends because the text [t] runs out of header fields, not of
    rounds, and it stays within [t]. *)
Lemma header_loop_ends fuel t n conn0 conn off : let headers := t ++ replicate n NUL in
  (off ≤ length t)%nat → (length t - off < fuel)%nat → header_safe conn0 conn →
  let '(conn', off') := header_loop fuel (Regex false header_pieces) headers conn off in
  (off' ≤ length t)%nat ∧ header_safe conn0 conn' ∧
  regexec (Regex false header_pieces) (drop off' headers) = None.
Proof.
  cbv zeta. revert conn off. induction fuel as [|fuel IH]; intros conn off Hoff Hf Hsafe; [lia|].
  cbn [header_loop].
  destruct (regexec _ (drop off _)) as [l|] eqn:Hre; [|done].
  pose proof Hre as (pre & h & sp & rest & Hwf & Heq & ->)%regexec_header_some.
  rewrite drop_app_le, cstr_pad in Heq by done. apply (f_equal length) in Heq.
  pose proof (cstr_length (drop off t)). unfold CRLF in Heq. len. cbn in Heq. cbn [fst snd].
  apply IH; [lia|lia|]. by apply header_field_safe.
Qed.

(** The state of a connection after parsing: what the handlers rely on. *)
Record conn_ok (fd : nat) (conn : Conn) : Prop := {
  ok_fd : connfd conn = fd;
  ok_buffer : length (buffer conn) = S (Z.to_nat BUFFER_SIZE);
  ok_uri : uri conn = [] ∨ piece_ok uri_piece (uri conn);
  ok_id : (length (request_id conn) ≤ 128)%nat;
  ok_length : LONG_MIN ≤ content_length conn ≤ LONG_MAX
}.

(** ... and if it was accepted: the body starts after the request line, its
    buffered part ends where the received bytes end. *)
Record conn_accepted (conn : Conn) : Prop := {
  acc_uri : piece_ok uri_piece (uri conn);
  acc_start : 0 < message_start conn ≤ bytes_read conn + 2;
  acc_read : bytes_read conn ≤ BUFFER_SIZE;
  acc_in : message_start conn + in_message conn = bytes_read conn
}.

Lemma parse_headers_any conn w q c t n Q : quiet q c w →
  0 ≤ message_start conn → drop (Z.to_nat (message_start conn)) (buffer conn) = t ++ replicate n NUL →
  (∀ w', w' ≡ w → quiet q c w' →
     (∀ conn' off, header_safe conn conn' → (off ≤ length t)%nat →
        Q (set_message_start (message_start conn + (Z.of_nat off + 2)) conn', None) w') ∧
     (¬ q → Q (conn, Some RESPONSE_INTERNAL_SERVER_ERROR) w')) →
  wpt (parse_headers conn) w Q.
Proof.
  intros Hq Hms Hbuf HQ. unfold parse_headers. apply wpt_bind.
  apply (wpt_compile _ _ q c); [done|]. intros w' Hw Hq'. rewrite regcomp_header.
  destruct (HQ w' Hw Hq') as [H1 H2]. split; [|intros ?; apply wpt_ret; auto].
  rewrite Hbuf.
  pose proof (header_loop_ends (S (length (t ++ replicate n NUL))) t n conn conn 0) as Hl.
  cbv zeta in Hl. destruct (header_loop _ _ _ conn 0) as [conn' off].
  destruct Hl as (Hoff & Hsafe & _); [lia|len|done|].
  apply wpt_ret. pose proof Hsafe as (_ & _ & _ & -> & _). by apply H1.
Qed.

(** The text [d] starts with a request line of method [m], URI [u] and minor
    version [min]. *)
Definition line_of (d m u min : bytes) : Prop :=
  ∃ maj sep rest, wf_line m u maj min ∧ cstr d = request_line m u maj sep min ++ rest.

(** Every outcome of the request line. *)
Lemma process_request_any conn w q c Q : quiet q c w →
  (∀ w', w' ≡ w → quiet q c w' →
     ((∀ m u min, ¬ line_of (buffer conn) m u min) → Q (conn, Some RESPONSE_BAD_REQUEST) w') ∧
     (∀ m u maj sep min rest, wf_line m u maj min →
        cstr (buffer conn) = request_line m u maj sep min ++ rest →
        wpt (after_line conn m u min (Z.of_nat (length (request_line m u maj sep min)))) w' Q) ∧
     (¬ q → Q (conn, Some RESPONSE_INTERNAL_SERVER_ERROR) w')) →
  wpt (process_request conn) w Q.
Proof.
  intros Hq HQ.
  destruct (regexec (Regex true request_pieces) (buffer conn)) as [l|] eqn:Hre.
  - pose proof Hre as (m & u & maj & sep & min & rest & Hwf & Heq & ->)%regexec_request_some.
    eapply (process_request_line conn w q c m u maj sep min); [done..| |].
    + intros w' Hw Hq'. destruct (HQ w' Hw Hq') as (_ & Hline & _). by eapply Hline.
    + intros w' Hw Hq' ?. destruct (HQ w' Hw Hq') as (_ & _ & Herr). by apply Herr.
  - unfold process_request. apply wpt_bind.
    apply (wpt_compile _ _ q c); [done|]. intros w' Hw Hq'. rewrite regcomp_request, Hre.
    destruct (HQ w' Hw Hq') as (H1 & _ & H2). split; [|intros ?]; apply wpt_ret; [|auto].
    apply H1. intros m u min (maj & sep & rest & Hwf & Heq).
    unfold regexec in Hre. cbn [re_anchored re_pieces] in Hre.
    destruct (longest _) as [v|] eqn:Hl; [done|]. apply longest_None in Hl.
    assert (Hv : line_vec m u maj min ∈ matches request_pieces (cstr (buffer conn))).
    { apply matches_spec, request_vec_ok. by exists m, u, maj, sep, min, rest. }
    rewrite Hl in Hv. by apply elem_of_nil in Hv.
Qed.

(** What a result of conn_parse says about the bytes [d] that were read; [q]
    rules out spurious errors, [idle] says that the client fell silent. *)
Definition parse_post (q idle : Prop) (d : bytes) (conn : Conn) (r : option Response) : Prop :=
  match r with
  | None =>
      conn_accepted conn ∧ ∃ m, line_of d m (uri conn) (B "1") ∧ request conn = line_request m
  | Some RESPONSE_VERSION_NOT_SUPPORTED =>
      ∃ m min, line_of d m (uri conn) min ∧ length min = 1%nat ∧ min ≠ B "1" ∧
               request conn = line_request m
  | Some RESPONSE_BAD_REQUEST =>
      conn_is_empty conn = true ∨ ¬ q ∨ (∀ m u min, ¬ line_of d m u min) ∨
      ∃ m u min, line_of d m u min ∧ (1 < length min)%nat
  | Some RESPONSE_INTERNAL_SERVER_ERROR => ¬ q ∨ idle
  | Some _ => False
  end.

Lemma length_filled d : (length d ≤ Z.to_nat BUFFER_SIZE)%nat →
  length (filled d) = S (Z.to_nat BUFFER_SIZE).
Proof. intros H. unfold filled. len. Qed.

Lemma piece_not_nil p x : (0 < pc_lo p)%nat → piece_ok p x → x ≠ [].
Proof. intros Hp (H & _) ->. cbn in H. lia. Qed.

Lemma after_line_any fd w q c d m u maj sep min rest idle : quiet q c w →
  (length d ≤ Z.to_nat BUFFER_SIZE)%nat → wf_line m u maj min →
  cstr d = request_line m u maj sep min ++ rest → d ≠ [] →
  let conn := set_bytes_read (Z.of_nat (length d)) (set_buffer (filled d) (fresh_conn fd)) in
  wpt (after_line conn m u min (Z.of_nat (length (request_line m u maj sep min)))) w
    (λ '(conn', r) w', w' ≡ w ∧ quiet q c w' ∧ bytes_read conn' = Z.of_nat (length d) ∧
       conn_ok fd conn' ∧
       parse_post q idle d
         (if r is Some _ then conn' else set_in_message (bytes_read conn' - message_start conn') conn') r).
Proof.
  intros Hq Hd Hwf Heq Hne conn. unfold after_line.
  set (conn1 := set_uri u (set_request (line_request m) conn)).
  assert (Hok : conn_ok fd conn1).
  { split; [done|by apply length_filled| |cbn; lia|cbn; unfold LONG_MIN, LONG_MAX; lia].
    right. apply Hwf. }
  assert (Hline : line_of d m u min) by (by exists maj, sep, rest).
  destruct (Nat.ltb_spec 1 (length min)).
  { apply wpt_ret. split_and!; try done. right. right. right. by exists m, u, min. }
  case_bool_decide as Hmin.
  2: { apply wpt_ret. split_and!; try done. exists m, min. split_and!; try done.
       destruct Hwf as (_ & _ & _ & (Hl & _)). cbn in Hl. lia. }
  subst min. set (L := length (request_line m u maj sep (B "1"))).
  assert (HL : (0 < L ≤ length d)%nat).
  { pose proof (cstr_length d) as Hc. rewrite Heq in Hc. unfold L, request_line in *. len. }
  apply (parse_headers_any _ _ q c (drop L d) (S (Z.to_nat BUFFER_SIZE) - length d)); [done|cbn; lia| |].
  { cbn [message_start set_message_start buffer conn1 set_uri set_request conn set_bytes_read
      set_buffer]. rewrite Nat2Z.id. unfold filled. by rewrite drop_app_le by lia. }
  intros w1 Hw1 Hq1. split.
  2: { intros Hnq. split_and!; try done; [|by left]. by destruct Hok. }
  intros conn2 off (H1 & H2 & H3 & H4 & H5 & H6 & H7 & H8) Hoff. rewrite length_drop in Hoff.
  assert (Hbr : bytes_read conn2 = Z.of_nat (length d)) by (by rewrite H3).
  split_and!; try done.
  - split; cbn [connfd buffer uri request_id content_length set_message_start];
      rewrite ?H1, ?H2, ?H5.
    + done.
    + by apply length_filled.
    + right. apply Hwf.
    + apply H7. cbn. lia.
    + apply H8. cbn. unfold LONG_MIN, LONG_MAX. lia.
  - split.
    + split; cbn [uri message_start bytes_read in_message set_message_start set_in_message];
        rewrite ?H5, ?Hbr; cbn [uri conn1 set_uri set_message_start message_start].
      * apply Hwf.
      * lia.
      * lia.
      * lia.
    + exists m. cbn [uri request set_message_start set_in_message]. rewrite H5, H6.
      split; [exact Hline|done].
Qed.

Lemma cstr_filled d : cstr (filled d) = cstr d.
Proof. apply cstr_pad. Qed.

(** A connection whose buffer holds the bytes [d]. *)
Definition received (fd : nat) (d : bytes) : Conn :=
  set_bytes_read (Z.of_nat (length d)) (set_buffer (filled d) (fresh_conn fd)).

Lemma received_ok fd d n : (length d ≤ Z.to_nat BUFFER_SIZE)%nat → conn_ok fd (set_bytes_read n (received fd d)).
Proof.
  intros Hd. split; [done|by apply length_filled|by left|cbn; lia|]. cbn; unfold LONG_MIN, LONG_MAX; lia.
Qed.

(** Every outcome of process_request on it. *)
Lemma process_filled fd w q c d idle : quiet q c w → (length d ≤ Z.to_nat BUFFER_SIZE)%nat → d ≠ [] →
  wpt (process_request (received fd d)) w (λ '(conn', r) w', w' ≡ w ∧ quiet q c w' ∧
    bytes_read conn' = Z.of_nat (length d) ∧ conn_ok fd conn' ∧
    parse_post q idle d
      (if r is Some _ then conn' else set_in_message (bytes_read conn' - message_start conn') conn') r).
Proof.
  intros Hq Hd Hne. pose proof (received_ok fd d (Z.of_nat (length d)) Hd) as Hok.
  apply (process_request_any _ _ q c); [done|]. intros w2 Hw2 Hq2. split_and!.
  - intros Hno. split_and!; try done. right. right. left.
    intros m u min (maj & sep & rst & Hwf & Heq). apply (Hno m u min).
    exists maj, sep, rst. split; [done|]. rewrite <- Heq. apply cstr_filled.
  - intros m u maj sep min rst Hwf Heq. change (buffer (received fd d)) with (filled d) in Heq. rewrite cstr_filled in Heq.
    eapply wpt_conseq; [by apply (after_line_any fd w2 q c d m u maj sep min rst)|].
    intros [conn' r] w3 (Hw3 & H). split; [by transitivity w2|exact H].
  - intros Hnq. split_and!; try done. by left.
Qed.

(** What a failed read is answered with. *)
Lemma read_error_post q eof d rest conn e res : read_error q eof rest e →
  res = RESPONSE_INTERNAL_SERVER_ERROR ∨ res = RESPONSE_BAD_REQUEST ∧ e ≠ EAGAIN →
  parse_post q (rest = [] ∧ eof = false) d conn (Some res).
Proof.
  intros Herr [->|[-> He]].
  - destruct (decide (rest = [] ∧ eof = false)) as [|Hni]; [by right|left].
    intros Hh. apply Hni. by destruct (Herr Hh) as (? & ? & _).
  - right. left. intros Hh. by destruct (Herr Hh) as (_ & _ & ?).
Qed.

(** Every outcome of conn_parse on any client. *)
Lemma conn_parse_any fd c w s q : quiet q c w →
  w_fds w !! fd = Some (OSock c) → w_socks w !! c = Some s →
  wpt (conn_parse (fresh_conn fd)) w (λ '(conn, r) w', ∃ d rest,
    sk_in s = d ++ rest ∧ w' ≡ sock_in w c rest ∧ quiet q c w' ∧ conn_ok fd conn ∧
    parse_post q (rest = [] ∧ sk_eof s = false) d conn r ∧
    (conn_is_empty conn = true → sk_in s = [] ∧ r = Some RESPONSE_BAD_REQUEST) ∧
    (sk_in s = [] → sk_eof s = true → q → conn_is_empty conn = true)).
Proof.
  intros Hq Hfd Hs. unfold conn_parse. apply wpt_bind.
  pose proof (sock_in_view w fd c s Hfd Hs) as Hview.
  eapply wpt_conseq.
  { apply (read_until_spec _ _ (fault_count c) (read_error q (sk_eof s)) (sk_in s) ()
      w (buffer (fresh_conn 0))).
    - by rewrite sock_in_id.
    - unfold fresh_conn. cbn [buffer]. rewrite length_replicate. unfold BUFFER_SIZE. lia.
    - done. }
  intros [r buf] w1 (d & rest & Hd & Hdn & [Hw1 Hq1] & _ & Hbuf & Hr).
  destruct (store_fresh d) as [Hst1 Hst2]; [lia|]. rewrite Hst1 in Hbuf. subst buf. clear Hst1.
  assert (Hok := λ n, received_ok fd d n ltac:(lia)).
  destruct r as [n|e].
  2: { destruct Hr as (_ & Hno & Herr).
       assert (Heof : sk_in s = [] → sk_eof s = true → q → False).
       { intros _ Ht Hh. destruct (Herr Hh) as (_ & ? & _). congruence. }
       case_bool_decide as He; apply wpt_ret; exists d, rest;
         do 3 (split; [done|]); (split; [apply Hok|]); (split; [eapply read_error_post; [done|]|]).
       - by left.
       - split; [done|]. intros. by exfalso; apply Heof.
       - right. split; [done|]. intros ->. apply He. by left.
       - split; [done|]. intros. by exfalso; apply Heof. }
  destruct Hr as [-> Hr].
  destruct (Z.eqb_spec (Z.of_nat (length d)) 0) as [H0|H0].
  { clear Hst2. apply wpt_ret. exists d, rest. destruct d as [|? ?]; [|cbn in H0; lia]. split_and!; try done.
    - by left.
    - intros _. split; [|done]. destruct Hr as [(pre & post & Hr)|[Hr|Hr]].
      + by destruct pre.
      + unfold BUFFER_SIZE in Hr. cbn in Hr. lia.
      + by rewrite Hd, Hr. }
  set (conn := set_bytes_read (Z.of_nat (length d)) (set_buffer (filled d) (fresh_conn fd))).
  change (buffer conn) with (filled d). rewrite Nat2Z.id, Hst2.
  change (set_buffer (filled d) conn) with conn. clear Hst2.
  apply wpt_bind.
  assert (Hne : d ≠ []) by (intros ->; done).
  eapply wpt_conseq; [apply (process_filled fd w1 q c d (rest = [] ∧ sk_eof s = false)); [done|lia|done]|].
  intros [conn' r] w2 (Hw2 & Hq2 & Hbr & Hok' & Hpost).
  assert (Hw : w2 ≡ sock_in w c rest) by (by transitivity w1).
  assert (Hemp : ∀ conn2, bytes_read conn2 = Z.of_nat (length d) → conn_is_empty conn2 = true → False).
  { intros conn2 Hb. unfold conn_is_empty. rewrite Hb. by intros ?%Z.eqb_eq. }
  destruct r as [res|]; apply wpt_ret; exists d, rest; split_and!; try done.
  - by intros ?%Hemp.
  - intros Hin. rewrite Hin in Hd. by destruct d.
  - by destruct Hok'.
  - by intros ?%Hemp.
  - intros Hin. rewrite Hin in Hd. by destruct d.
Qed.

(** ** Properties *)

(** C9. Round trip of a request: when a client sends a request line (any method
    word, any URI of the allowed form, HTTP/1.1), header fields, a blank line
    and a body, in any division into segments, and no call fails, conn_parse
    accepts it and recovers exactly the method, the URI, the Content-Length and
    the Request-Id (the last one given, or the default), finds where the body
    starts and leaves the rest of the body in the socket.  The head must fit
    the buffer, and the body must hold no text of the form of a header field
    (the header loop would take it for one). *)
Theorem conn_parse_recovers_request fd c w s m u hs body : calm c w →
  w_fds w !! fd = Some (OSock c) → w_socks w !! c = Some s →
  sk_in s = request_head m u hs ++ body → wf_request m u hs →
  Z.of_nat (length (request_head m u hs)) ≤ BUFFER_SIZE →
  regexec (Regex false header_pieces) (CRLF ++ body) = None →
  wpt (conn_parse (fresh_conn fd)) w (λ '(conn, r) w', r = None ∧
    ∃ d rest, body = d ++ rest ∧ w' ≡ sock_in w c rest ∧ parsed fd m u hs d conn).
Proof.
  intros Hc Hfd Hs Hin Hwf Hlen Hno.
  eapply wpt_conseq; [eapply (conn_parse_head fd c w s m u hs body (calm c w)); eauto with http|].
  intros [conn r] w' [_ [H|[Hnc _]]]; [exact H|by destruct Hnc].
Qed.

Lemma conn_parse_recovers_request_witness :
  wpt (conn_parse (fresh_conn 5))
    (demo_world (request_head (B "PUT") (B "a.txt")
       [(B "Content-Length", B "5"); (B "Request-Id", B "77")] ++ B "hello")
       [FShort 3; FShort 20; FShort 70] [])
    (λ '(conn, r) w', r = None ∧ uri conn = B "a.txt" ∧ content_length conn = 5).
Proof.
  eapply wpt_conseq.
  - apply (conn_parse_recovers_request 5 0 _ (Sock (request_head (B "PUT") (B "a.txt")
       [(B "Content-Length", B "5"); (B "Request-Id", B "77")] ++ B "hello") true []
       [FShort 3; FShort 20; FShort 70])
       (B "PUT") (B "a.txt") [(B "Content-Length", B "5"); (B "Request-Id", B "77")] (B "hello")).
    + by apply demo_calm; repeat constructor.
    + reflexivity.
    + reflexivity.
    + reflexivity.
    + apply (bool_decide_unpack _). vm_compute. exact I.
    + vm_compute. discriminate.
    + vm_compute. reflexivity.
  - intros [conn r] w' (-> & d & rest & _ & _ & Hp). split; [done|].
    rewrite (pd_uri _ _ _ _ _ _ Hp), (pd_length _ _ _ _ _ _ Hp). split; reflexivity.
Defined.

(** C10. Safety of the parser on any input: whatever bytes a client sends, in
    whatever segments and with whatever errors, conn_parse returns, and it
    keeps to its buffers: the URI has at most 63 bytes of the allowed
    characters, the Request-Id at most 128, and in an accepted request the
    buffered body lies between the end of the request line and the last byte
    read.  It accepts only text that starts with a request line of minor
    version 1 and then reports that line's method and URI; 505 is reported only
    for another one-digit minor version, and the connection counts as empty
    exactly when the client closed without sending a byte. *)
Theorem conn_parse_safe fd c w s :
  w_fds w !! fd = Some (OSock c) → w_socks w !! c = Some s →
  wpt (conn_parse (fresh_conn fd)) w (λ '(conn, r) w', ∃ d rest,
    sk_in s = d ++ rest ∧ w' ≡ sock_in w c rest ∧ conn_ok fd conn ∧
    parse_post (calm c w) (rest = [] ∧ sk_eof s = false) d conn r ∧
    (conn_is_empty conn = true → sk_in s = []) ∧
    (sk_in s = [] → sk_eof s = true → calm c w → conn_is_empty conn = true)).
Proof.
  intros Hfd Hs.
  eapply wpt_conseq; [apply (conn_parse_any fd c w s (calm c w)); eauto with http|].
  intros [conn r] w' (d & rest & H1 & H2 & _ & H3 & H4 & H5 & H6). exists d, rest.
  split_and!; try done. by intros [? _]%H5.
Qed.

Lemma conn_parse_safe_witness :
  wpt (conn_parse (fresh_conn 5)) (demo_world (B "GET a.txt HTTP/1.1") [FShort 2] [])
    (λ '(conn, r) w', ∃ d rest, B "GET a.txt HTTP/1.1" = d ++ rest ∧
       parse_post (calm 0 (demo_world (B "GET a.txt HTTP/1.1") [FShort 2] []))
         (rest = [] ∧ true = false) d conn r).
Proof.
  eapply wpt_conseq.
  - apply (conn_parse_safe 5 0 _ (Sock (B "GET a.txt HTTP/1.1") true [] [FShort 2])); reflexivity.
  - intros [conn r] w' (d & rest & H1 & _ & _ & H2 & _). exists d, rest. split; [exact H1|exact H2].
Defined.

(** The header loop terminates on any text: it stops within the text at a
    point after which no header field is left, so its bound on the number of
    rounds never cuts it short, and it keeps every other field of the
    connection. *)
Theorem header_loop_total t n conn :
  let headers := t ++ replicate n NUL in
  let '(conn', off) := header_loop (S (length headers)) (Regex false header_pieces) headers conn 0 in
  (off ≤ length t)%nat ∧ header_safe conn conn' ∧
  regexec (Regex false header_pieces) (drop off headers) = None.
Proof.
  apply (header_loop_ends (S (length (t ++ replicate n NUL))) t n conn conn 0); [lia|len|done].
Qed.
