(* ===== verification/ConnType.v ===== *)
(** * The connection object is well-typed (src/connection.c)

    The fields of struct Conn are arrays and integers of fixed size; the model
    keeps the strings themselves.  [conn_typed] says that they fit: every string
    field fits its array with its terminator and holds no other terminator, and
    every count stays in the buffer.  Each function that makes or changes a
    connection keeps it so, on any input and with any faults. *)
From S2P Require Import Prelude Libc Regex Http Prog Posix Util Demo Connection Parsing.
Local Open Scope Z_scope.
Local Open Scope prog_scope.

(** [s] fits an array of [n] bytes as a C string. *)
Definition fits (n : nat) (s : bytes) : Prop := (length s < n)%nat ∧ NUL ∉ s.

Record conn_typed (conn : Conn) : Prop := {
  ct_buffer : length (buffer conn) = S (Z.to_nat BUFFER_SIZE);
  ct_read : -1 ≤ bytes_read conn ≤ BUFFER_SIZE;
  ct_start : 0 ≤ message_start conn ≤ BUFFER_SIZE + 2;
  ct_in : -2 ≤ in_message conn ≤ BUFFER_SIZE;
  ct_body : 0 < in_message conn → message_start conn + in_message conn ≤ BUFFER_SIZE;
  ct_length : LONG_MIN ≤ content_length conn ≤ LONG_MAX;
  ct_length_str : fits 32 (content_length_str conn);
  ct_uri : fits 64 (uri conn);
  ct_id : fits 129 (request_id conn)
}.

(** ** Strings *)

Lemma fits_nil n : (0 < n)%nat → fits n [].
Proof. intros Hn. split; [done|apply not_elem_of_nil]. Qed.

Lemma piece_fits p s n : cset_mem (pc_set p) NUL = false → piece_ok p s → (length s < n)%nat → fits n s.
Proof. intros Hp Hs Hn. split; [done|by eapply piece_no]. Qed.

(** A printed number of 64 bits fits. *)
Lemma dec_pos_fits n : 0 ≤ n ≤ ULLONG_MAX → fits 31 (dec n).
Proof.
  intros Hn. split; [pose proof (dec_length_u64 n Hn); lia|]. intros Hin.
  destruct (dec_spec n) as (Hd & _); [lia|]. rewrite Forall_forall in Hd. by specialize (Hd NUL Hin).
Qed.

Lemma dec_fits n : LONG_MIN ≤ n ≤ LONG_MAX → fits 32 (dec n).
Proof.
  unfold LONG_MIN, LONG_MAX. intros Hn. destruct (Z.ltb_spec n 0) as [Hneg|Hpos].
  - destruct (dec_pos_fits (- n)) as [Hl Hno]; [unfold ULLONG_MAX; lia|].
    assert (dec n = "-"%char :: dec (- n)) as ->.
    { unfold dec. destruct (Z.ltb_spec n 0), (Z.ltb_spec (- n) 0); [lia|done|lia|lia]. }
    split; [cbn; lia|]. intros [|]%elem_of_cons; done.
  - destruct (dec_pos_fits n) as [Hl Hno]; [unfold ULLONG_MAX; lia|]. split; [lia|done].
Qed.

(** ** Headers *)

(** The value of a field that was found. *)
Lemma matched_value s m0 m1 m2 : regexec (Regex false header_pieces) s = Some [m0; m1; m2] →
  piece_ok value_piece (matched s m2).
Proof.
  intros (pre & h & sp & rest & [_ Hv] & Heq & [= _ _ ->])%regexec_header_some.
  destruct (cstr_prefix s) as [t Ht]. rewrite Heq in Ht.
  rewrite (matched_app s (pre ++ h.1 ++ [":"%char; sp]) h.2 (CRLF ++ rest ++ t)); [done| |].
  - rewrite Ht at 1. by rewrite <- !app_assoc.
  - len.
Qed.

Lemma header_field_typed conn s m0 m1 m2 : regexec (Regex false header_pieces) s = Some [m0; m1; m2] →
  conn_typed conn → conn_typed (header_field conn s m1 m2).
Proof.
  intros Hv%matched_value Ht. unfold header_field. repeat case_match; [| |done]; destruct Ht; split; cbn -[to_s64 matched take]; try done.
  - apply to_s64_range.
  - assert (take 128 (matched s m2) = matched s m2) as ->.
    { apply take_ge. destruct Hv as (_ & Hl & _). cbn in Hl. lia. }
    eapply piece_fits; [|done|]; [done|]. destruct Hv as (_ & Hl & _). cbn in Hl. lia.
Qed.

Lemma header_loop_typed fuel headers conn off : conn_typed conn →
  conn_typed (header_loop fuel (Regex false header_pieces) headers conn off).1.
Proof.
  revert conn off. induction fuel as [|fuel IH]; intros conn off Ht; [done|]. cbn [header_loop].
  destruct (regexec _ (drop off headers)) as [[|m0 [|m1 [|m2 [|? ?]]]]|] eqn:Hre; try done.
  apply IH. by eapply header_field_typed.
Qed.

(** The fields that a new start of the message touches. *)
Lemma set_start_typed conn n : conn_typed conn → 0 ≤ n ≤ BUFFER_SIZE + 2 → in_message conn = 0 →
  conn_typed (set_message_start n conn).
Proof. intros [] Hn Hin. split; cbn; try done. lia. Qed.

(** ** The request line and the whole request *)

(** The text read, before it is parsed. *)
Lemma received_typed fd d n : (length d ≤ Z.to_nat BUFFER_SIZE)%nat → -1 ≤ n ≤ BUFFER_SIZE →
  conn_typed (set_bytes_read n (received fd d)).
Proof.
  intros Hd Hn. unfold BUFFER_SIZE in *. split; cbn; try done; try lia.
  - by apply length_filled.
  - by apply fits_nil; lia.
  - by apply fits_nil; lia.
  - by split; [cbn; lia|apply (bool_decide_unpack _); vm_compute].
Qed.

Lemma after_line_typed fd w d m u maj sep min rest : (length d ≤ Z.to_nat BUFFER_SIZE)%nat → d ≠ [] → wf_line m u maj min →
  cstr d = request_line m u maj sep min ++ rest →
  wpt (after_line (received fd d) m u min (Z.of_nat (length (request_line m u maj sep min)))) w
    (λ '(conn, r) _, conn_typed (if r is Some _ then conn else set_in_message (bytes_read conn - message_start conn) conn)).
Proof.
  intros Hd Hne Hwf Heq. unfold after_line.
  assert (Ht : conn_typed (set_uri u (set_request (line_request m) (received fd d)))).
  { destruct (received_typed fd d (Z.of_nat (length d))) as [T1 T2 T3 T4 T5 T6 T7 T8 T9]; [done|unfold BUFFER_SIZE in *; lia|].
    split; try done. destruct Hwf as (_ & Hu & _). eapply piece_fits; [|exact Hu|]; [done|]. destruct Hu as (_ & Hl & _). cbn in Hl |- *. lia. }
  destruct (1 <? length min)%nat; [by apply wpt_ret|]. case_bool_decide; [|by apply wpt_ret].
  set (L := length (request_line m u maj sep min)).
  assert (HL : (0 < L ≤ length d)%nat).
  { pose proof (cstr_length d) as Hc. rewrite Heq in Hc. unfold L, request_line in *. len. }
  set (conn := set_message_start (Z.of_nat L) (set_uri u (set_request (line_request m) (received fd d)))).
  assert (Htc : conn_typed conn) by (apply set_start_typed; [done|unfold BUFFER_SIZE in *; lia|done]).
  unfold parse_headers. apply wpt_bind. apply (wpt_compile _ _ False 0%nat); [by intros []|]. intros w' _ _.
  rewrite regcomp_header. split; [|intros _; by apply wpt_ret].
  assert (Hb : drop (Z.to_nat (message_start conn)) (buffer conn) = drop L d ++ replicate (S (Z.to_nat BUFFER_SIZE) - length d) NUL).
  { cbn [message_start buffer conn set_message_start set_uri set_request received set_bytes_read set_buffer].
    rewrite Nat2Z.id. unfold filled. by rewrite drop_app_le by lia. }
  rewrite Hb. set (hs := drop L d ++ _).
  pose proof (header_loop_typed (S (length hs)) hs conn 0 Htc) as Hl.
  pose proof (header_loop_ends (S (length hs)) (drop L d) (S (Z.to_nat BUFFER_SIZE) - length d) conn conn 0) as He.
  cbv zeta in He. fold hs in He. destruct (header_loop _ _ hs conn 0) as [conn' off].
  destruct He as (Hoff & (_ & _ & E1 & E2 & _) & _); [lia|unfold hs; len|done|]. rewrite length_drop in Hoff.
  apply wpt_ret. cbn in Hl. destruct Hl. unfold BUFFER_SIZE in *.
  assert (bytes_read conn' = Z.of_nat (length d)) as Hbr by (by rewrite E1).
  assert (message_start conn' = Z.of_nat L) as Hms by (by rewrite E2).
  split; cbn; rewrite ?Hbr, ?Hms; try done; unfold BUFFER_SIZE; lia.
Qed.

Lemma conn_parse_typed fd c w s : w_fds w !! fd = Some (OSock c) → w_socks w !! c = Some s →
  wpt (conn_parse (fresh_conn fd)) w (λ '(conn, r) _, conn_typed conn).
Proof.
  intros Hfd Hs. unfold conn_parse. apply wpt_bind. pose proof (sock_in_view w fd c s Hfd Hs) as Hview.
  eapply wpt_conseq.
  { apply (read_until_spec _ _ (fault_count c) (read_error False (sk_eof s)) (sk_in s) () w (buffer (fresh_conn 0))).
    - by rewrite sock_in_id.
    - cbn [buffer fresh_conn]. rewrite length_replicate. unfold BUFFER_SIZE. lia.
    - done. }
  intros [r buf] w1 (d & rest & Hd & Hdn & _ & _ & Hbuf & Hr).
  destruct (store_fresh d) as [Hst1 Hst2]; [lia|]. rewrite Hst1 in Hbuf. subst buf.
  assert (Hty : ∀ n, -1 ≤ n ≤ BUFFER_SIZE → conn_typed (set_bytes_read n (received fd d))) by (intros n; apply received_typed; lia).
  destruct r as [n|e]; [|case_bool_decide; apply wpt_ret; apply (Hty (-1)); unfold BUFFER_SIZE; lia].
  destruct Hr as [-> _]. destruct (Z.eqb_spec (Z.of_nat (length d)) 0); [apply wpt_ret, (Hty (Z.of_nat (length d))); lia|].
  set (conn := set_bytes_read (Z.of_nat (length d)) (set_buffer (filled d) (fresh_conn fd))).
  change (buffer conn) with (filled d). rewrite Nat2Z.id, Hst2. change (set_buffer (filled d) conn) with (received fd d).
  assert (Hne : d ≠ []) by (by intros ->). apply wpt_bind.
  eapply (wpt_conseq _ _ (λ '(conn, r) _, conn_typed (if r is Some _ then conn else set_in_message (bytes_read conn - message_start conn) conn))).
  - apply (process_request_any _ _ False 0%nat); [by intros []|]. intros w2 _ _. split_and!.
    + intros _. apply (Hty (Z.of_nat (length d))). lia.
    + intros m u maj sep min rst Hwf Heq. change (buffer (received fd d)) with (filled d) in Heq. rewrite cstr_filled in Heq.
      by eapply after_line_typed; [lia|..].
    + intros _. apply (Hty (Z.of_nat (length d))). lia.
  - intros [conn' [res|]] w2 Ht; by apply wpt_ret.
Qed.

(** ** The property *)

(** C11. The connection object is well-typed at all times.  A new connection is;
    conn_parse leaves it so whatever bytes the client sends, in whatever
    segments and with whatever failures, on every one of its exits; and
    conn_get_header, the only other function that writes to it, keeps it so:
    the URI, the Request-Id and the printed Content-Length fit their arrays
    with the terminator and hold no other one, the int offsets do not overflow,
    and the buffered body ends inside the buffer. *)
Theorem conn_stays_typed fd c w s : w_fds w !! fd = Some (OSock c) → w_socks w !! c = Some s →
  wpt (conn_new fd) w (λ r _, match r with Some conn => conn_typed conn | None => ¬ calm c w end) ∧
  wpt (conn_parse (fresh_conn fd)) w (λ '(conn, r) _, conn_typed conn) ∧
  ∀ conn h, conn_typed conn → conn_typed (conn_get_header conn h).1.
Proof.
  intros Hfd Hs. split_and!.
  - unfold conn_new. apply wpt_bind. destruct (pop_fault w) as [f w1] eqn:Hf.
    eapply wpt_trigger; [cbn; unfold sys_alloc; by rewrite Hf|]. apply wpt_ret.
    destruct f as [| |e]; [apply (received_typed fd [] 0); cbn; unfold BUFFER_SIZE; lia..|].
    intros [Hno _]. by eapply pop_fault_no_err in Hf as [_ ?].
  - by eapply conn_parse_typed.
  - intros conn h Ht. unfold conn_get_header. repeat case_match; try done. destruct Ht. split; try done.
    unfold snprintf. cbn -[dec take]. destruct (dec_fits (content_length conn)) as [Hl Hno]; [done|].
    rewrite take_ge by lia. done.
Qed.

Lemma conn_stays_typed_witness :
  wpt (conn_parse (fresh_conn 5)) (demo_world (B "PUT /a.txt HTTP/1.1") [FShort 2; FErr EINTR] []) (λ '(conn, r) _, conn_typed conn) ∧
  conn_typed (conn_get_header (fresh_conn 5) (B "Content-Length")).1.
Proof.
  destruct (conn_stays_typed 5 0 (demo_world (B "PUT /a.txt HTTP/1.1") [FShort 2; FErr EINTR] [])
    (Sock (B "PUT /a.txt HTTP/1.1") true [] [FShort 2; FErr EINTR])) as (_ & H1 & H2); [reflexivity..|].
  split; [exact H1|]. apply H2. apply (received_typed 5 [] 0); cbn; unfold BUFFER_SIZE; lia.
Defined.
