(* ===== verification/Transfer.v ===== *)
(** * Bodies and responses on the wire (src/connection.c)

    What conn_recv_file, conn_send_file and conn_send_response move between
    the client's socket and a file, for every pattern of short transfers,
    interruptions and errors. *)
From S2P Require Import Prelude Libc Http Prog Posix Util Demo Connection.
Local Open Scope Z_scope.
Local Open Scope prog_scope.

(** ** Receiving a body *)

Section recv.
Context (w0 : world) (c fd ffd : nat) (p : path) (m : meta) (s : sock) (q : Prop).
Hypothesis Hfd : w_fds w0 !! fd = Some (OSock c).
Hypothesis Hs : w_socks w0 !! c = Some s.
Hypothesis Hne : fd ≠ ffd.

(** The client has [rest] to send; file [p], open as [ffd], holds [out]. *)
Definition recv_view (rest out : bytes) : world := file_at (sock_in w0 c rest) ffd p m out.

Lemma recv_in_view : InView fd c (sk_eof s) recv_view.
Proof.
  split.
  - intros rest a. cbn. by rewrite lookup_insert_ne.
  - intros rest a. cbn. rewrite lookup_alter, decide_True, Hs by done.
    eexists. split; [done|]. done.
  - intros rest rest' a. unfold recv_view, file_at, sock_in, upd_sock, set_fs, set_fds, set_socks.
    cbn. by rewrite alter_alter_eq.
Qed.

Lemma recv_out_view : FileOutView ffd p m recv_view.
Proof.
  split.
  - intros rest out. cbn. by rewrite lookup_insert_eq.
  - intros rest out. cbn. by rewrite lookup_insert_eq.
  - intros rest out x. unfold recv_view, file_at, set_fs, set_fds. cbn.
    by rewrite !insert_insert_eq.
Qed.

(** What conn_recv_file leaves in the file, [d] being the buffered part of the
    body and [n] how much is expected beyond it: all of [d], then up to [n]
    bytes that the client sends; cut short only by an error. *)
Definition recv_post (d : bytes) (n : Z) (r : option Response) (w' : world) : Prop :=
  ∃ got rest k, sk_in s = got ++ rest ∧ w' ≡ recv_view rest (take k (d ++ got)) ∧
    (Z.of_nat (length got) ≤ Z.max 0 n) ∧
    match r with
    | None => k = length (d ++ got) ∧ (n ≤ Z.of_nat (length got) ∨ rest = [])
    | Some res => res = RESPONSE_INTERNAL_SERVER_ERROR ∧
        (¬ q ∨ rest = [] ∧ sk_eof s = false ∧ Z.of_nat (length got) < n)
    end.

Lemma recv_stream conn w d :
  connfd conn = fd → quiet q c w → w ≡ recv_view (sk_in s) d →
  wpt (let remaining := to_s64 (content_length conn - Z.of_nat (length d)) in
       if 0 <? remaining then
         let! rc := pass_bytes (connfd conn) ffd remaining in
         match rc with Err _ => Ret (Some RESPONSE_INTERNAL_SERVER_ERROR) | Ok _ => Ret None end
       else Ret None) w
    (λ r w', recv_post d (to_s64 (content_length conn - Z.of_nat (length d))) r w' ∧ quiet q c w').
Proof.
  intros Hc Hq Hw. rewrite Hc. cbv zeta. set (n0 := to_s64 _).
  pose proof recv_in_view as Hin. pose proof recv_out_view as Hout.
  destruct (Z.ltb_spec 0 n0).
  - apply wpt_bind. eapply wpt_conseq.
    { apply (pass_bytes_spec fd ffd _ (fault_count c) (read_error q (sk_eof s)) (any_error q)
        (sk_in s) d w); [done|lia]. }
    intros r w1 (got & rest & k & Hs1 & Hlen & Hk & [Hw1 Hq1] & _ & Hr).
    destruct r as [n|e]; apply wpt_ret; split; try done.
    + destruct Hr as (-> & -> & Hr). exists got, rest, (length (d ++ got)).
      rewrite !take_ge in * by lia. split_and!; try done; [lia|].
      destruct Hr; [left; lia|by right].
    + destruct Hr as (_ & Hr). exists got, rest, (length d + k)%nat.
      rewrite take_app_add. split_and!; try done; [lia|].
      destruct (decide (rest = [] ∧ sk_eof s = false ∧ Z.of_nat (length got) < n0)) as [|Hni];
        [by right|left].
      intros Hh. destruct Hr as [[Hr Hlt]|Hr]; [|by apply Hr]. apply Hni.
      by destruct (Hr Hh) as (? & ? & _).
  - apply wpt_ret. split; [|done]. exists [], (sk_in s), (length d).
    rewrite app_nil_r, take_ge by lia. split_and!; try done; [cbn; lia|]. left. lia.
Qed.

Lemma conn_recv_file_spec conn w d :
  connfd conn = fd → quiet q c w → w ≡ recv_view (sk_in s) [] →
  Z.max 0 (in_message conn) = Z.of_nat (length d) →
  slice (buffer conn) (message_start conn) (in_message conn) = d →
  wpt (conn_recv_file conn ffd) w
    (λ r w', recv_post d (to_s64 (content_length conn - Z.of_nat (length d))) r w' ∧ quiet q c w').
Proof.
  intros Hc Hq Hw Hin Hd. unfold conn_recv_file.
  pose proof recv_out_view as Hout.
  destruct (Z.ltb_spec 0 (in_message conn)).
  - rewrite Z.max_r in Hin by lia. rewrite Hin in *. apply wpt_bind. unfold slice in Hd. rewrite Nat2Z.id in Hd.
    assert (Hlen : (length d ≤ length (drop (Z.to_nat (message_start conn)) (buffer conn)))%nat).
    { rewrite <- Hd at 1. rewrite length_take. lia. }
    eapply wpt_conseq.
    { apply (write_all_spec ffd _ (fault_count c) (any_error q) (sk_in s) [] w); [done|lia]. }
    intros r w1 (k & Hk & [Hw1 Hq1] & _ & Hr). cbn [app] in Hw1. rewrite Nat2Z.id in *.
    destruct r as [n|e].
    + destruct Hr as [-> ->]. rewrite Hd in Hw1. by apply recv_stream.
    + destruct Hr as (_ & Hlt & Hnq). apply wpt_ret. split; [|done].
      exists [], (sk_in s), k. rewrite app_nil_r. split_and!; try done; [|cbn; lia|by left].
      rewrite <- Hd, take_take, Nat.min_l by lia. done.
  - assert (length d = 0%nat) as Hl by lia. apply nil_length_inv in Hl. rewrite Hl in *.
    by apply (recv_stream conn w []).
Qed.

End recv.

(** ** Sending a response *)

(** The message of a response: status line, the length of the body, the body. *)
Definition response_message (res : Response) : bytes :=
  let body := response_get_message res ++ [LF] in
  B "HTTP/1.1 " ++ dec (response_get_code res) ++ B " " ++ response_get_message res ++ CRLF ++
  B "Content-Length: " ++ dec (Z.of_nat (length body)) ++ CRLF ++ CRLF ++ body.

Lemma response_text_message res :
  response_text res = response_message res ∧
  (length (response_message res) < Z.to_nat BUFFER_SIZE)%nat.
Proof.
  destruct res; vm_compute; (split; [reflexivity|]); lia.
Qed.

Lemma sock_out_view w fd c s : w_fds w !! fd = Some (OSock c) → w_socks w !! c = Some s →
  OutView (A := unit) fd c (λ _ out, sock_out w c out).
Proof.
  intros Hfd Hs. split.
  - done.
  - intros _ out. unfold sock_out, upd_sock. cbn. rewrite lookup_alter, decide_True, Hs by done.
    by eexists.
  - intros _ out x. unfold sock_out. rewrite upd_sock_upd. apply upd_sock_ext. intros s' _. cbn.
    by rewrite app_assoc.
Qed.

Lemma sock_out_nil w c : sock_out w c [] = w.
Proof.
  unfold sock_out, upd_sock. rewrite alter_id; [by destruct w|].
  intros s _. rewrite app_nil_r. by destruct s.
Qed.

(** All of [text], or a proper prefix of it and an error. *)
Definition sent_post (q : Prop) (w : world) (c : nat) (text : bytes) (r : option Response)
    (w' : world) : Prop :=
  ∃ k, w' ≡ sock_out w c (take k text) ∧
    match r with
    | None => k = length text
    | Some res => res = RESPONSE_INTERNAL_SERVER_ERROR ∧ ¬ q
    end.

Lemma conn_send_response_spec conn res w c s q :
  w_fds w !! connfd conn = Some (OSock c) → w_socks w !! c = Some s → quiet q c w →
  wpt (conn_send_response conn res) w
    (λ r w', sent_post q w c (response_message res) r w' ∧ quiet q c w').
Proof.
  intros Hfd Hs Hq. unfold conn_send_response.
  destruct (response_text_message res) as [-> Hlen]. rewrite snprintf_fits by done.
  pose proof (sock_out_view w (connfd conn) c s Hfd Hs) as Hview.
  apply wpt_bind. eapply wpt_conseq.
  { apply (write_all_spec (connfd conn) (λ (_ : unit) out w', w' ≡ sock_out w c out ∧ True ∧
      quiet q c w') (fault_count c) (any_error q) () [] w); [|lia].
    by rewrite sock_out_nil. }
  intros r w1 (k & Hk & (Hw1 & _ & Hq1) & _ & Hr). cbn [app] in Hw1.
  destruct r as [n|e]; apply wpt_ret; (split; [|done]); exists k; (split; [done|]).
  - destruct Hr as [_ ->]. lia.
  - by destruct Hr as (_ & _ & Hr).
Qed.

(** ** Sending a file *)

Lemma file_header_length count : 0 ≤ count ≤ ULLONG_MAX →
  (length (file_header count) < Z.to_nat BUFFER_SIZE)%nat.
Proof.
  intros Hc. pose proof (dec_length_u64 count Hc). unfold file_header. len.
  cbn [length B String.list_ascii_of_string response_get_message CRLF].
  unfold BUFFER_SIZE. assert (length (dec (response_get_code RESPONSE_OK)) = 3%nat) as -> by done. lia.
Qed.

Section send.
Context (w0 : world) (c fd ffd : nat) (p : path) (d : bytes) (m : meta) (s : sock) (q : Prop).
Hypothesis Hfd : w_fds w0 !! fd = Some (OSock c).
Hypothesis Hs : w_socks w0 !! c = Some s.
Hypothesis Hfile : w_fs w0 !! p = Some (NFile d m).
Hypothesis Hne : fd ≠ ffd.

(** [rest] of the file is still to be read, [out] was sent. *)
Definition send_view (rest out : bytes) : world :=
  set_fds (<[ffd := OFile p (length d - length rest)]> (w_fds w0)) (sock_out w0 c out).

Lemma send_in_view : FileInView ffd p d send_view.
Proof.
  split.
  - intros rest out. cbn. by rewrite lookup_insert_eq.
  - intros rest out. by exists m.
  - intros rest rest' out. unfold send_view, set_fds. cbn. by rewrite insert_insert_eq.
Qed.

Lemma send_out_view : OutView fd c send_view.
Proof.
  split.
  - intros rest out. cbn. by rewrite lookup_insert_ne.
  - intros rest out. cbn. rewrite lookup_alter, decide_True, Hs by done. by eexists.
  - intros rest out x. unfold send_view, sock_out, upd_sock, set_fds, set_socks. cbn.
    rewrite alter_alter_eq. f_equal. apply alter_ext. intros s' _. cbn. by rewrite app_assoc.
Qed.

(** The status line, the length of the file and its bytes. *)
Lemma conn_send_file_spec conn w :
  connfd conn = fd → quiet q c w → w ≡ send_view d [] →
  Z.of_nat (length d) ≤ ULLONG_MAX →
  wpt (conn_send_file conn ffd (Z.of_nat (length d))) w (λ r w', quiet q c w' ∧ ∃ k rest,
    w' ≡ send_view rest (take k (file_header (Z.of_nat (length d)) ++ d)) ∧
    match r with
    | None => k = length (file_header (Z.of_nat (length d)) ++ d)
    | Some res => res = RESPONSE_INTERNAL_SERVER_ERROR ∧ ¬ q
    end).
Proof.
  intros Hc Hq Hw Hd. unfold conn_send_file. set (count := Z.of_nat (length d)) in *.
  rewrite snprintf_fits by (apply file_header_length; lia). rewrite Hc.
  set (hd := file_header count).
  pose proof send_in_view as Hin. pose proof send_out_view as Hout.
  apply wpt_bind. eapply wpt_conseq.
  { apply (write_all_spec fd (λ rest out w, w ≡ send_view rest out ∧ rest `suffix_of` d ∧ quiet q c w)
      (fault_count c) (any_error q) d [] w); [|lia]. by split_and!. }
  intros r w1 (k & Hk & (Hw1 & _ & Hq1) & _ & Hr). cbn [app] in Hw1.
  destruct r as [n|e].
  2: { destruct Hr as (_ & Hlt & Hnq). apply wpt_ret. split; [done|]. exists k, d.
       by rewrite take_app_le by lia. }
  destruct Hr as [_ ->]. rewrite Nat2Z.id, take_ge in Hw1 by lia.
  destruct (Z.ltb_spec 0 count).
  2: { apply wpt_ret. split; [done|]. exists (length (hd ++ d)), d.
       assert (d = []) as -> by (apply nil_length_inv; lia).
       rewrite app_nil_r, take_ge by lia. done. }
  apply wpt_bind. eapply wpt_conseq.
  { apply (pass_bytes_spec ffd fd (λ rest out w, w ≡ send_view rest out ∧ rest `suffix_of` d ∧
      quiet q c w) (fault_count c) (λ _, any_error q) (any_error q) d hd w1); [|lia]. by split_and!. }
  intros r w2 (d' & rest & k & Hd' & Hlen & Hk' & (Hw2 & Hsuf & Hq2) & _ & Hr).
  destruct r as [n'|e]; apply wpt_ret; (split; [done|]).
  - destruct Hr as (-> & -> & Hr). exists (length (hd ++ d)), rest.
    assert (rest = []) as ->.
    { destruct Hr as [Hr|Hr]; [|done]. apply nil_length_inv.
      apply (f_equal length) in Hd'. rewrite length_app in Hd'. lia. }
    rewrite app_nil_r in Hd'. subst d'. rewrite !take_ge in * by lia. done.
  - exists (length hd + k)%nat, rest. rewrite take_app_add.
    assert (take k d = take k d') as -> by (rewrite Hd'; by rewrite take_app_le by lia).
    split; [done|]. split; [done|].
    destruct Hr as (_ & [[Hr _]|Hr]); exact Hr.
Qed.

End send.

(** ** Properties *)

Lemma recv_view_start w c ffd p m s :
  w_fds w !! ffd = Some (OFile p 0) → w_fs w !! p = Some (NFile [] m) →
  w_socks w !! c = Some s → recv_view w c ffd p m (sk_in s) [] = w.
Proof.
  intros Hf Hp Hs. unfold recv_view. rewrite sock_in_id by done.
  unfold file_at, set_fs, set_fds. cbn. rewrite !insert_id by done. by destruct w.
Qed.

Lemma send_view_start w c ffd p d :
  w_fds w !! ffd = Some (OFile p 0) → send_view w c ffd p d d [] = w.
Proof.
  intros Hf. unfold send_view. rewrite sock_out_nil, Nat.sub_diag, insert_id by done.
  by destruct w.
Qed.

(** C18. Storing a PUT body: conn_recv_file on an empty file writes to it the
    buffered part of the body and then what the client sends, in order and
    without loss or duplication, up to the declared length; when it reports
    success the file holds the declared number of bytes (or more, if the
    buffered part was longer) unless the client closed early; it fails only on
    an error or a timeout, and then the file holds a prefix. *)
Theorem conn_recv_file_stores_body w c fd ffd p m s conn d :
  w_fds w !! fd = Some (OSock c) → w_socks w !! c = Some s →
  w_fds w !! ffd = Some (OFile p 0) → w_fs w !! p = Some (NFile [] m) →
  connfd conn = fd → Z.max 0 (in_message conn) = Z.of_nat (length d) →
  slice (buffer conn) (message_start conn) (in_message conn) = d →
  LONG_MIN ≤ content_length conn - Z.of_nat (length d) ≤ LONG_MAX →
  wpt (conn_recv_file conn ffd) w (λ r w', ∃ got rest k,
    sk_in s = got ++ rest ∧ w' ≡ file_at (sock_in w c rest) ffd p m (take k (d ++ got)) ∧
    Z.of_nat (length got) ≤ Z.max 0 (content_length conn - Z.of_nat (length d)) ∧
    match r with
    | None => k = length (d ++ got) ∧
        (content_length conn ≤ Z.of_nat (length (d ++ got)) ∨ rest = [])
    | Some res => res = RESPONSE_INTERNAL_SERVER_ERROR ∧
        (¬ calm c w ∨ rest = [] ∧ sk_eof s = false ∧
                      Z.of_nat (length (d ++ got)) < content_length conn)
    end).
Proof.
  intros Hfd Hs Hf Hp Hc Hin Hd Hn.
  eapply wpt_conseq.
  - apply (conn_recv_file_spec w c fd ffd p m s (calm c w) Hfd Hs ltac:(congruence) conn w d);
      auto with http. by rewrite recv_view_start.
  - intros r w' [(got & rest & k & H1 & H2 & H3 & H4) _]. exists got, rest, k.
    rewrite to_s64_id in * by done. split_and!; try done. rewrite !length_app. destruct r.
    { destruct H4 as [-> [|(? & ? & ?)]]; (split; [done|]); [by left|]. right. split_and!; try done. lia. }
    destruct H4 as [-> [|]]; (split; [by rewrite length_app|]); [left; lia|by right].
Qed.

(** A connection with two body bytes in its buffer. *)
Definition demo_conn : Conn :=
  mkConn 5 (B "HEADhe") 6 4 2 5 [] (B "f") (B "0") REQUEST_PUT.

Lemma conn_recv_file_stores_body_witness :
  wpt (conn_recv_file demo_conn 6) (demo_open (B "llo!") [] [FShort 0] [FErr EINTR])
    (λ r w', ∃ got rest, B "llo!" = got ++ rest ∧ Z.of_nat (length got) ≤ 3).
Proof.
  eapply wpt_conseq.
  - apply (conn_recv_file_stores_body (demo_open (B "llo!") [] [FShort 0] [FErr EINTR]) 0 5 6
      demo_file rw (Sock (B "llo!") true [] [FShort 0]) demo_conn (B "he"));
      first [reflexivity | vm_compute; split; discriminate].
  - intros r w' (got & rest & k & H1 & _ & H2 & _). exists got, rest. split; [exact H1|exact H2].
Defined.

(** Answering a GET: conn_send_file on a regular file sends the status line,
    a Content-Length equal to the size of the file, a blank line and exactly
    the bytes of the file; on an error (and only then) it sends a prefix of
    that.  The file is only read. *)
Theorem conn_send_file_sends_file w c ffd p d m s conn :
  w_fds w !! connfd conn = Some (OSock c) → w_socks w !! c = Some s →
  w_fds w !! ffd = Some (OFile p 0) → w_fs w !! p = Some (NFile d m) →
  Z.of_nat (length d) ≤ ULLONG_MAX →
  wpt (conn_send_file conn ffd (Z.of_nat (length d))) w (λ r w', ∃ k off,
    w' ≡ set_fds (<[ffd := OFile p off]> (w_fds w))
           (sock_out w c (take k (file_header (Z.of_nat (length d)) ++ d))) ∧
    match r with
    | None => k = length (file_header (Z.of_nat (length d)) ++ d)
    | Some res => res = RESPONSE_INTERNAL_SERVER_ERROR ∧ ¬ calm c w
    end).
Proof.
  intros Hfd Hs Hf Hp Hd.
  eapply wpt_conseq.
  - apply (conn_send_file_spec w c (connfd conn) ffd p d m s (calm c w) Hfd Hs Hp
      ltac:(congruence) conn w); auto with http. by rewrite send_view_start.
  - intros r w' (_ & k & rest & Hw & Hr). exists k, (length d - length rest)%nat. split; [exact Hw|exact Hr].
Qed.

Lemma conn_send_file_sends_file_witness :
  wpt (conn_send_file demo_conn 6 5) (demo_open [] (B "hello") [FShort 10; FErr EINTR] [])
    (λ r w', ∃ k off, w' ≡ set_fds (<[6%nat := OFile demo_file off]>
         (w_fds (demo_open [] (B "hello") [FShort 10; FErr EINTR] [])))
       (sock_out (demo_open [] (B "hello") [FShort 10; FErr EINTR] []) 0
          (take k (B "HTTP/1.1 200 OK" ++ CRLF ++ B "Content-Length: 5" ++ CRLF ++ CRLF ++ B "hello")))).
Proof.
  eapply wpt_conseq.
  - apply (conn_send_file_sends_file (demo_open [] (B "hello") [FShort 10; FErr EINTR] []) 0 6
      demo_file (B "hello") rw (Sock [] true [] [FShort 10; FErr EINTR]) demo_conn);
      first [reflexivity | vm_compute; discriminate].
  - intros r w' (k & off & H & _). exists k, off. exact H.
Defined.

(** Every response goes out whole: conn_send_response sends the status line
    with code and phrase, a Content-Length that is the exact length of the body
    that follows, and the body; neither buffer truncates.  On an error, and
    only then, a prefix is sent. *)
Theorem conn_send_response_sends w c s conn res :
  w_fds w !! connfd conn = Some (OSock c) → w_socks w !! c = Some s →
  wpt (conn_send_response conn res) w (λ r w', ∃ k,
    w' ≡ sock_out w c (take k (response_message res)) ∧
    match r with
    | None => k = length (response_message res)
    | Some e => e = RESPONSE_INTERNAL_SERVER_ERROR ∧ ¬ calm c w
    end).
Proof.
  intros Hfd Hs. eapply wpt_conseq.
  - apply (conn_send_response_spec conn res w c s (calm c w)); auto with http.
  - intros r w' [H _]. exact H.
Qed.

Lemma conn_send_response_sends_witness :
  wpt (conn_send_response demo_conn RESPONSE_NOT_FOUND) (demo_open [] [] [FShort 10] [])
    (λ r w', ∃ k, w' ≡ sock_out (demo_open [] [] [FShort 10] []) 0
       (take k (B "HTTP/1.1 404 Not Found" ++ CRLF ++ B "Content-Length: 10" ++ CRLF ++ CRLF ++
                B "Not Found" ++ [LF]))).
Proof.
  eapply wpt_conseq.
  - apply (conn_send_response_sends (demo_open [] [] [FShort 10] []) 0
      (Sock [] true [] [FShort 10]) demo_conn RESPONSE_NOT_FOUND); reflexivity.
  - intros r w' (k & H & _). exists k. exact H.
Defined.
