(* ===== verification/Locks.v ===== *)
(** * The lock namespace (src/httpserver.c: lockdir_init, lock_path_for)

    Names of lockfiles are injective in the URI, and the directory is safe to
    create files in. *)
From S2P Require Import Prelude Libc Regex Http Prog Posix Util Demo Connection Log Server Parsing.
Local Open Scope Z_scope.
Local Open Scope prog_scope.

(** ** Names of lockfiles *)

Definition lock_char (c : byte) : byte := if bool_decide (c = "/"%char) then "%"%char else c.
Definition lock_name (uri : bytes) : bytes := map lock_char uri.

Lemma lock_path_loop_whole u off n : (off + length u < n)%nat →
  lock_path_loop u off n = lock_name u.
Proof.
  revert off. induction u as [|c u IH]; intros off H; cbn [lock_path_loop length] in *; [done|].
  destruct (Nat.ltb_spec (off + 1) n); [|lia].
  rewrite IH by lia. done.
Qed.

(** st_dev and st_ino are unsigned 64-bit numbers. *)
Definition u64 (z : Z) : Prop := 0 ≤ z ≤ ULLONG_MAX.

Lemma lock_dir_length dev ino : u64 dev → u64 ino → (length (lock_dir_text dev ino) ≤ 64)%nat.
Proof.
  intros Hd Hi. pose proof (dec_length_u64 dev Hd). pose proof (dec_length_u64 ino Hi).
  unfold lock_dir_text. len. cbn. lia.
Qed.

Lemma lock_dir_whole dev ino : u64 dev → u64 ino → lock_dir dev ino = lock_dir_text dev ino.
Proof.
  intros Hd Hi. unfold lock_dir. rewrite snprintf_fits; [done|].
  pose proof (lock_dir_length dev ino Hd Hi). lia.
Qed.

Lemma lock_path_for_whole dir u : (length dir ≤ 64)%nat → (length u ≤ 63)%nat →
  lock_path_for dir u 192 = dir ++ B "/" ++ lock_name u.
Proof.
  intros Hd Hu. unfold lock_path_for. rewrite snprintf_fits by (len; cbn; lia).
  rewrite lock_path_loop_whole by (len; cbn; lia). by rewrite <- app_assoc.
Qed.

(** No byte of a URI is a percent sign, so slashes can be told apart. *)
Lemma lock_name_inj u u' : "%"%char ∉ u → "%"%char ∉ u' → lock_name u = lock_name u' → u = u'.
Proof.
  revert u'. induction u as [|c u IH]; intros [|c' u']; try done.
  rewrite !not_elem_of_cons. intros [Hc Hu] [Hc' Hu']. cbn. intros [= Heq Hl].
  f_equal; [|by apply IH]. unfold lock_char in Heq. repeat case_bool_decide; congruence.
Qed.

Lemma lock_name_no_slash u : "/"%char ∉ lock_name u.
Proof.
  unfold lock_name. intros (c & Hc & _)%list_elem_of_fmap. unfold lock_char in Hc.
  case_bool_decide; congruence.
Qed.

(** C21. The map from URIs to lockfiles: for every directory identity and every
    URI the parser accepts, the lockfile's path is the lock directory, a slash
    and the URI with its slashes replaced -- neither the 96-byte nor the
    192-byte buffer cuts it -- and two URIs have the same lockfile only if they
    are equal. *)
Theorem lock_path_for_injective dev ino u u' : u64 dev → u64 ino →
  piece_ok uri_piece u → piece_ok uri_piece u' →
  lock_path_for (lock_dir dev ino) u 192 = lock_dir_text dev ino ++ B "/" ++ lock_name u ∧
  (lock_path_for (lock_dir dev ino) u 192 = lock_path_for (lock_dir dev ino) u' 192 → u = u').
Proof.
  intros Hd Hi Hu Hu'. rewrite lock_dir_whole by done.
  pose proof (lock_dir_length dev ino Hd Hi) as Hl.
  rewrite !lock_path_for_whole by (done || apply Hu || apply Hu'). split; [done|].
  intros Heq%app_inv_head%app_inv_head.
  apply lock_name_inj in Heq; [done|by apply (piece_no uri_piece)..].
Qed.

Lemma lock_path_for_injective_witness :
  lock_path_for (lock_dir 64 7) (B "a/b") 192 = B "/tmp/.httpserver.locks.64.7/a%b" ∧
  (lock_path_for (lock_dir 64 7) (B "a/b") 192 = lock_path_for (lock_dir 64 7) (B "a_b") 192 →
   B "a/b" = B "a_b").
Proof.
  apply (lock_path_for_injective 64 7 (B "a/b") (B "a_b"));
    first [vm_compute; split; discriminate | apply (bool_decide_unpack _); vm_compute; exact I].
Defined.

(** ** Finding the namespace *)

Lemma walk_mono fs fs' dir comps q : fs ⊆ fs' → walk fs dir comps = Ok q →
  walk fs' dir comps = Ok q.
Proof.
  intros Hsub. revert dir. induction comps as [|c comps IH]; intros dir; cbn [walk];
    destruct (fs !! dir) as [[]|] eqn:Hd; try done;
    rewrite (lookup_weaken _ _ _ _ Hd Hsub); [done|].
  destruct (negb (m_x m)); [done|]. repeat case_bool_decide; [apply IH..|].
  destruct comps; [done|apply IH].
Qed.

Lemma namei_mono w fs' p q : w_fs w ⊆ fs' → namei w p = Ok q → namei (set_fs fs' w) p = Ok q.
Proof. unfold namei. destruct p; [done|]. intros Hsub H. by eapply walk_mono. Qed.

Lemma namei_errno w p e : namei w p = Err e → e = EACCES ∨ e = ENOTDIR ∨ e = ENOENT.
Proof.
  unfold namei. destruct p as [|c p]; [intros [= <-]; auto|].
  generalize (if bool_decide (c = "/"%char) then [] else w_cwd w) as dir.
  induction (split_path (c :: p)) as [|x comps IH]; intros dir; cbn [walk];
    repeat case_match; try (intros [= <-]; by auto); try done; apply IH.
Qed.

(** One faulty call of a program. *)
Lemma wpt_faulty {A} (body : world → world * rc A) `{!CallProper body} (e : sysE (rc A)) w v q c
    (Q : rc A → world → Prop) :
  (∀ w, sys e w = Some (faulty body w)) → w ≡ v → quiet q c w →
  (∀ w', quiet q c w' →
    (w' ≡ (body v).1 → Q (body v).2 w') ∧
    (∀ er, ¬ q → resource_errno er = true → w' ≡ v → Q (Err er) w')) →
  wpt (perform e) w Q.
Proof.
  intros He Hw Hq HQ. destruct (faulty body w) as [w' r] eqn:Hf.
  eapply wpt_trigger; [by rewrite He, Hf|].
  apply (faulty_spec body w v q c) in Hf as (Hq' & Hf); [|done..].
  destruct (HQ w' Hq') as [H1 H2].
  destruct Hf as [(Hw' & Hnq & er & Her & ->)|[Hw' ->]]; auto.
Qed.

Section lockdir.
Context (w : world).
Let dev := (w_cwd_id w).1.
Let ino := (w_cwd_id w).2.

(** [q] is a directory of the server's own in [w']. *)
Definition own_dir (w' : world) (q : path) : Prop :=
  ∃ m, w_fs w' !! q = Some (NDir m) ∧ m_uid m = w_euid w'.

(** What the directory is, and why there is none. *)
Lemma lockdir_init_wpt : u64 dev → u64 ino →
  wpt lockdir_init w (λ r w',
    match r with
    | None => w' ≡ w ∧ (calm 0 w → ∀ q, namei w (lock_dir_text dev ino) = Ok q → ¬ own_dir w q)
    | Some dir => dir = lock_dir_text dev ino ∧ ∃ q, namei w' dir = Ok q ∧ own_dir w' q ∧
        (w' ≡ w ∨ w_fs w !! q = None ∧
         w' ≡ set_fs (<[q := NDir (Meta (w_euid w) true true true)]> (w_fs w)) w)
    end).
Proof.
  intros Hd Hi. set (dir := lock_dir_text dev ino).
  unfold lockdir_init. apply wpt_bind.
  apply (wpt_faulty (λ w, (w, Ok (w_cwd_id w))) _ w w (calm 0 w) 0); auto with http.
  intros w1 Hq1. split; [|intros er Hnq _ Hw1; apply wpt_ret; split; [done|by intros ?%Hnq]].
  cbn [fst snd]. intros Hw1. rewrite (surjective_pairing (w_cwd_id w)). fold dev ino.
  rewrite lock_dir_whole by done. fold dir. apply wpt_bind.
  apply (wpt_faulty (do_mkdir dir) _ w1 w (calm 0 w) 0); auto.
  intros w2 Hq2. split.
  2: { intros er Hnq Her Hw2. rewrite bool_decide_true by (by intros ->).
       apply wpt_ret. split; [done|]. by intros ?%Hnq. }
  unfold do_mkdir. destruct (namei w dir) as [q|er] eqn:Hn.
  2: { cbn [fst snd]. intros Hw2. apply namei_errno in Hn.
       rewrite bool_decide_true by (by destruct Hn as [->|[->| ->]]).
       apply wpt_ret. by split. }
  destruct (w_fs w !! q) as [n|] eqn:Hq.
  - (* the name is taken *)
    cbn [fst snd]. rewrite bool_decide_false by (by intros []). intros Hw2. apply wpt_bind.
    apply (wpt_faulty (do_lstat dir) _ w2 w (calm 0 w) 0); auto.
    intros w3 Hq3. split; [|intros er Hnq _ Hw3; apply wpt_ret; split; [done|by intros ?%Hnq]].
    unfold do_lstat. rewrite Hn, Hq. cbn [fst snd]. intros Hw3. apply wpt_bind.
    eapply wpt_trigger; [reflexivity|]. rewrite (w_euid_proper _ _ Hw3).
    assert (Hown : own_dir w q ↔ st_isdir (stat_of n) = true ∧ st_uid (stat_of n) = w_euid w).
    { unfold own_dir. rewrite Hq. split.
      - by intros (m & [= ->] & Hu).
      - destruct n as [|m|]; cbn; intros [? ?]; [done|by exists m|done]. }
    destruct (st_isdir (stat_of n)) eqn:Hdir; cbn [negb orb].
    2: { apply wpt_ret. split; [done|]. intros _ q' [= <-] [? _]%Hown. done. }
    destruct (Z.eqb_spec (st_uid (stat_of n)) (w_euid w)); cbn [negb]; apply wpt_ret.
    2: { split; [done|]. intros _ q' [= <-] [_ ?]%Hown. done. }
    split; [done|]. exists q. rewrite (namei_proper _ _ _ Hw3). split; [done|]. split; [|by left].
    unfold own_dir. rewrite (w_fs_proper _ _ Hw3), (w_euid_proper _ _ Hw3). by apply Hown.
  - assert (Hfree : ∀ q', Ok (A := path) q = Ok q' → ¬ own_dir w q').
    { intros q' [= <-] (m & Hm & _). congruence. }
    destruct (w_fs w !! removelast q) as [[| m |]|] eqn:Hp; cbn [fst snd];
      try (intros Hw2; apply wpt_ret; by split).
    destruct (m_w m); cbn [fst snd]; intros Hw2; apply wpt_ret; [|by split].
    split; [done|]. exists q. rewrite (namei_proper _ _ _ Hw2).
    split; [apply namei_mono; [by apply insert_subseteq|done]|]. split; [|by right].
    exists (Meta (w_euid w) true true true).
    rewrite (w_fs_proper _ _ Hw2), (w_euid_proper _ _ Hw2). cbn. by rewrite lookup_insert_eq.
Qed.

(** C22. The lock namespace is safe to use or refused: lockdir_init succeeds only
    with the directory named after the working directory's identity, and then
    that name resolves to a real directory owned by the server's user -- one it
    has just created, or one that was there; whatever else occupies the name
    (another user's directory, a file, a link) makes it fail, and a failure
    leaves the file tree as it was.  Nothing else of the tree changes. *)
Theorem lockdir_init_safe : u64 dev → u64 ino →
  wpt lockdir_init w (λ r w',
    match r with
    | None => w' ≡ w ∧ (calm 0 w → ∀ q, namei w (lock_dir_text dev ino) = Ok q → ¬ own_dir w q)
    | Some dir => dir = lock_dir_text dev ino ∧ ∃ q, namei w' dir = Ok q ∧ own_dir w' q ∧
        (w' ≡ w ∨ w_fs w !! q = None ∧
         w' ≡ set_fs (<[q := NDir (Meta (w_euid w) true true true)]> (w_fs w)) w)
    end).
Proof. apply lockdir_init_wpt. Qed.
End lockdir.

Lemma lockdir_init_safe_witness :
  wpt lockdir_init (demo_world [] [] []) (λ r w', r = Some (B "/tmp/.httpserver.locks.64.7")).
Proof.
  eapply wpt_conseq.
  - apply (lockdir_init_safe (demo_world [] [] [])); vm_compute; split; discriminate.
  - intros [dir|] w'; [by intros [-> _]|]. intros [_ H]. exfalso.
    apply (H ltac:(by apply demo_calm) [B "tmp"; LOCKS] eq_refl).
    exists rwx. split; reflexivity.
Defined.
