(* ===== verification/Handlers.v ===== *)
(** * What a request does to the world (src/httpserver.c)

    One request handled on its own, for every file tree, every client and
    every pattern of faults.  [spec_get] and [spec_put] are the intended
    meaning of the two methods on a file tree; the theorems say that the
    handlers implement them, write exactly one audit line, and give back every
    descriptor and lock. *)
From S2P Require Import Prelude Libc Regex Http Prog Posix Util.
From S2P Require Import Demo Connection Log Server Parsing Transfer Locks.
Local Open Scope Z_scope.
Local Open Scope prog_scope.

(** ** Worlds *)

(** World [w] with [l] added to the audit log. *)
Definition log_app (l : bytes) (w : world) : world :=
  set_log (w_log_stream w) false [] (w_log_out w ++ l) w.

(** The log is at rest: nobody writes to it, nothing is unflushed.  It is ready
    when moreover no call on its stream will fail. *)
Definition log_idle (w : world) : Prop :=
  w_log_mu w = false ∧ w_log_buf w = [] ∧ w_log_stream w ≠ SNull.
Definition log_ready (w : world) : Prop := log_idle w ∧ w_log_faults w = [].

#[export] Instance log_app_proper l : Proper ((≡) ==> (≡)) (log_app l).
Proof.
  intros w v H. unfold log_app.
  rewrite (w_log_stream_proper _ _ H), (w_log_out_proper _ _ H). by apply set_log_proper.
Qed.

#[export] Instance log_idle_proper : Proper ((≡) ==> iff) log_idle.
Proof.
  intros w v H. unfold log_idle.
  by rewrite (w_log_stream_proper _ _ H), (w_log_mu_proper _ _ H), (w_log_buf_proper _ _ H).
Qed.
#[export] Instance log_ready_proper : Proper ((≡) ==> iff) log_ready.
Proof. intros w v H. unfold log_ready. by rewrite (log_idle_proper _ _ H), (w_log_faults_proper _ _ H). Qed.

#[export] Instance sock_out_proper c x : Proper ((≡) ==> (≡)) (λ w, sock_out w c x).
Proof.
  intros w v. apply (world_equiv_cong (λ w, sock_out w c x)). intros u.
  unfold strip, sock_out, upd_sock, set_faults, set_socks. cbn. f_equal.
  apply map_eq. intros i. rewrite !lookup_fmap, !lookup_alter, !lookup_fmap.
  case_decide; [subst|]; destruct (w_socks u !! _); done.
Qed.

#[export] Instance sock_in_proper c rest : Proper ((≡) ==> (≡)) (λ w, sock_in w c rest).
Proof.
  intros w v. apply (world_equiv_cong (λ w, sock_in w c rest)). intros u.
  unfold strip, sock_in, upd_sock, set_faults, set_socks. cbn. f_equal.
  apply map_eq. intros i. rewrite !lookup_fmap, !lookup_alter, !lookup_fmap.
  case_decide; [subst|]; destruct (w_socks u !! _); done.
Qed.

#[export] Instance file_at_proper fd p m d : Proper ((≡) ==> (≡)) (λ w, file_at w fd p m d).
Proof.
  intros w v H. unfold file_at. rewrite (w_fs_proper _ _ H), (w_fds_proper _ _ H).
  by apply set_fs_proper, set_fds_proper.
Qed.

(** ** The audit line *)

Lemma wpt_log_audit o u st rid w (Q : unit → world → Prop) : log_ready w →
  Q tt (log_app (audit_line o u st rid) w) → wpt (log_audit o u st rid) w Q.
Proof.
  intros [(Hmu & Hbuf & Hst) Hfl] HQ. unfold log_audit.
  apply wpt_bind. eapply wpt_trigger; [cbn; by rewrite Hmu|].
  apply wpt_bind. eapply wpt_trigger; [reflexivity|]. cbn [w_log_stream set_log].
  apply wpt_bind.
  eapply (wpt_conseq _ _ (λ _ w', w' = set_log (w_log_stream w) true []
    (w_log_out w ++ audit_line o u st rid) w)).
  - destruct (w_log_stream w) eqn:Hs; [done|..];
      (apply wpt_bind; eapply wpt_trigger; [reflexivity|]; eapply wpt_trigger; [reflexivity|]);
      unfold flush_log, print_log, pop_log_fault; cbn; rewrite Hfl; cbn; by rewrite ?Hfl, ?Hs, Hbuf.
  - intros [] w' ->. eapply wpt_trigger; [reflexivity|]. exact HQ.
Qed.

(** The line a connection is audited with. *)
Definition conn_line (conn : Conn) (res : Response) : bytes :=
  audit_line (request_get_str (request conn)) (uri conn) (response_get_code res) (request_id conn).

Lemma wpt_audit conn res w (Q : unit → world → Prop) : log_ready w →
  Q tt (log_app (conn_line conn res) w) → wpt (audit_send_response conn res) w Q.
Proof. intros Hr HQ. unfold audit_send_response. by apply wpt_log_audit. Qed.

Lemma quiet_log_app q c l w : quiet q c w → quiet q c (log_app l w).
Proof. done. Qed.

(** ** Answering *)

(** In [w'] the client of [w] was sent (a prefix of) [msg], all of it if [q],
    and the line [l] was audited. *)
Definition answered (q : Prop) (c : nat) (msg l : bytes) (w w' : world) : Prop :=
  ∃ k, w' ≡ log_app l (sock_out w c (take k msg)) ∧ (q → k = length msg).

Lemma respond_spec conn res w v c s q : w ≡ v →
  w_fds v !! connfd conn = Some (OSock c) → w_socks v !! c = Some s → quiet q c w → log_ready v →
  wpt (respond conn res) w (λ _ w', quiet q c w' ∧
    answered q c (response_message res) (conn_line conn res) v w').
Proof.
  intros Hw Hfd Hs Hq Hr. destruct (equiv_sock _ _ _ _ Hw Hs) as (s1 & Hs1 & _).
  unfold respond. apply wpt_bind. eapply wpt_conseq.
  { apply (conn_send_response_spec conn res w c s1 q); [by rewrite (w_fds_proper _ _ Hw)|done..]. }
  intros r w1 [(k & Hw1 & Hk) Hq1].
  assert (Hw1' : w1 ≡ sock_out v c (take k (response_message res))).
  { etrans; [exact Hw1|]. by apply (sock_out_proper c _ w v). }
  apply wpt_audit; [by apply (log_ready_proper _ _ Hw1')|].
  split; [done|]. exists k. split; [by apply log_app_proper|].
  intros Hh. destruct r; [by destruct Hk|done].
Qed.

(** ** Descriptors and locks *)

(** [v] with file [p] newly open as [fd], and tree [fs]. *)
Definition opened (v : world) (p : path) (fd : nat) (fs : gmap path node) : world :=
  set_fds (<[fd := OFile p 0]> (w_fds v)) (set_fs fs v).

(** The tree after a successful open: unchanged if there was a node that may be
    opened so, else with a new empty file. *)
Definition open_tree (v : world) (fl : oflags) (p : path) (fs : gmap path node) : Prop :=
  (fs = w_fs v ∧ match w_fs v !! p with
     | Some (NFile _ m) => (if o_write fl then m_w m else m_r m) = true
     | Some (NDir m) => o_creat fl = false ∧ o_write fl = false ∧ m_r m = true
     | _ => False
     end) ∨
  (o_creat fl = true ∧ w_fs v !! p = None ∧ fs = <[p := NFile [] (mode_0600 v)]> (w_fs v)).

Lemma do_open_cases p fl v :
  match (do_open p fl v).2 with
  | Err e => (do_open p fl v).1 = v
  | Ok fd => ∃ q fs, namei v p = Ok q ∧ fd = fd_alloc (w_fds v) ∧
      (do_open p fl v).1 = opened v q fd fs ∧ open_tree v fl q fs
  end.
Proof.
  unfold do_open, new_fd. destruct (namei v p) as [q|e]; [|done].
  destruct (w_fs v !! q) as [[d m|m|m]|] eqn:Hq; cbn [fst snd].
  - destruct (if o_write fl then m_w m else m_r m) eqn:Hm; [|done].
    exists q, (w_fs v). split_and!; try done. left. by rewrite Hq.
  - destruct (o_creat fl) eqn:Hc, (o_write fl) eqn:Hw; cbn [orb]; try done.
    destruct (m_r m) eqn:Hm; [|done]. exists q, (w_fs v). split_and!; try done.
    left. rewrite Hq. by split_and!.
  - done.
  - destruct (o_creat fl) eqn:Hc; cbn [negb]; [|done].
    destruct (w_fs v !! removelast q) as [[| m |]|]; try done. destruct (m_w m); [|done].
    exists q, (<[q := NFile [] (mode_0600 v)]> (w_fs v)). split_and!; try done. by right.
Qed.

#[export] Instance sys_close_proper fd : Proper ((≡) ==> (≡)) (sys_close fd).
Proof.
  intros w v H. unfold sys_close. rewrite (w_fds_proper _ _ H), (w_flocks_proper _ _ H).
  destruct (w_fds v !! fd) as [[p o|k]|]; by repeat first [apply set_flocks_proper|apply set_fds_proper].
Qed.

Lemma wpt_close fd w v q c (Q : unit → world → Prop) : w ≡ v → quiet q c w →
  (∀ w', w' ≡ sys_close fd v → quiet q c w' → Q tt w') → wpt (perform (Close fd)) w Q.
Proof.
  intros Hw Hq HQ. eapply wpt_trigger; [reflexivity|]. apply HQ; [by apply sys_close_proper|].
  unfold sys_close. by destruct (w_fds w !! fd) as [[]|].
Qed.

Definition lock_state (op : lockop) (fd : nat) : lstate :=
  match op with LOCK_SH => LShared {[fd]} | _ => LExclusive fd end.

(** [v] with [fd], open on [p], holding the lock of kind [op] on it. *)
Definition locked (v : world) (p : path) (fd : nat) (op : lockop) : world :=
  set_flocks (<[p := lock_state op fd]> (w_flocks v)) v.

Lemma take_lock_free p fd op locks : op ≠ LOCK_UN → locks !! p = None →
  take_lock p fd op locks = Some (<[p := lock_state op fd]> locks).
Proof. intros Hop Hp. unfold take_lock. rewrite Hp. by destruct op. Qed.

Lemma drop_lock_state p fd op locks : locks !! p = None →
  drop_lock p fd (<[p := lock_state op fd]> locks) = locks.
Proof.
  intros Hp. unfold drop_lock. rewrite lookup_insert_eq.
  destruct op; cbn [lock_state]; [|by rewrite decide_True, delete_insert_id..].
  rewrite difference_diag_L, decide_True by done. by rewrite delete_insert_id.
Qed.

Lemma drop_lock_none p fd locks : locks !! p = None → drop_lock p fd locks = locks.
Proof. intros Hp. unfold drop_lock. by rewrite Hp. Qed.

Lemma flock_retry_spec fd op p off w v q c : op ≠ LOCK_UN → w ≡ v → quiet q c w →
  w_fds v !! fd = Some (OFile p off) → w_flocks v !! p = None →
  wpt (flock_retry fd op) w (λ r w', quiet q c w' ∧
    match r with Ok _ => w' ≡ locked v p fd op | Err _ => w' ≡ v ∧ ¬ q end).
Proof.
  intros Hop Hw Hq Hfd Hfree.
  apply (wpt_iter _ (λ _ w1, w1 ≡ v ∧ quiet q c w1) (λ _ w1, length (w_faults w1))); [|done].
  clear w Hw Hq. intros [] w [Hw Hq]. apply wpt_bind.
  destruct (pop_fault w) as [f w1] eqn:Hf.
  destruct (pop_fault_quiet q c _ _ _ Hf Hq) as [Hq1 Hne].
  pose proof (pop_fault_spec _ _ _ Hf) as (fl & Heq & Hfl).
  assert (Hw1 : w1 ≡ v) by (by rewrite Heq, set_faults_equiv).
  assert (Hsys : sys (Flock fd op) w = match f with
    | FErr e => Some (w1, Err e)
    | _ => Some (set_flocks (<[p := lock_state op fd]> (w_flocks w1)) w1, Ok tt) end).
  { cbn. unfold sys_flock. rewrite (w_fds_proper _ _ Hw), Hfd, decide_False, Hf by done.
    rewrite (w_flocks_proper _ _ Hw1), take_lock_free by done. by destruct f. }
  destruct f as [| |e]; (eapply wpt_trigger; [exact Hsys|]).
  3: { lazy beta iota. case_bool_decide; apply wpt_ret; [subst; split; [done|cbn; lia]|].
       split; [done|].
       split; [done|]. by intros ?%Hne. }
  all: apply wpt_ret; split; [done|]; unfold locked;
    rewrite (w_flocks_proper _ _ Hw1); by apply set_flocks_proper.
Qed.

(** [fs] is the tree of [v], perhaps with an empty lockfile of the name [path]. *)
Definition lock_tree (v : world) (path : bytes) (fs : gmap Posix.path node) : Prop :=
  fs = w_fs v ∨ ∃ lp, namei v path = Ok lp ∧ w_fs v !! lp = None ∧
                      fs = <[lp := NFile [] (mode_0600 v)]> (w_fs v).

Lemma lock_tree_sizes v path fs :
  (∀ p d m, w_fs v !! p = Some (NFile d m) → Z.of_nat (length d) ≤ ULLONG_MAX) → lock_tree v path fs →
  ∀ p d m, fs !! p = Some (NFile d m) → Z.of_nat (length d) ≤ ULLONG_MAX.
Proof.
  intros Hsizes [->|(lp & _ & _ & ->)] p d m; [apply Hsizes|]. rewrite lookup_insert.
  case_decide; [|apply Hsizes]. intros [= <- _]. cbn. unfold ULLONG_MAX. lia.
Qed.

(** Nobody holds the lock of that name. *)
Definition lock_free (v : world) (path : bytes) : Prop :=
  ∀ lp, namei v path = Ok lp → w_flocks v !! lp = None.

Lemma set_flocks_id v : set_flocks (w_flocks v) v = v.
Proof. by destruct v. Qed.
Lemma set_fds_id v : set_fds (w_fds v) v = v.
Proof. by destruct v. Qed.

(** Opening a file and closing it again. *)
Lemma close_opened v p fs : w_flocks v !! p = None →
  sys_close (fd_alloc (w_fds v)) (opened v p (fd_alloc (w_fds v)) fs) = set_fs fs v.
Proof.
  intros Hp. unfold sys_close, opened. cbn. rewrite lookup_insert_eq, drop_lock_none by done.
  unfold set_flocks, set_fds. cbn. rewrite delete_insert_id by apply fd_alloc_fresh. done.
Qed.

Lemma open_tree_lock v path lp fs : namei v path = Ok lp →
  open_tree v (OFlags true false) lp fs → lock_tree v path fs.
Proof. intros Hn [[-> _]|(_ & Hlp & ->)]; [by left|]. right. by exists lp. Qed.

Definition LOCK_FLAGS : oflags := OFlags true false.

Lemma uri_lock_spec dir u op w v q c : op ≠ LOCK_UN → w ≡ v → quiet q c w →
  let path := lock_path_for dir u 192 in lock_free v path →
  wpt (uri_lock dir u op) w (λ r w', quiet q c w' ∧
    match r with
    | Some lfd => ∃ lp fs, namei v path = Ok lp ∧ lock_tree v path fs ∧ lfd = fd_alloc (w_fds v) ∧
        (do_open path LOCK_FLAGS v).2 = Ok lfd ∧
        w' ≡ locked (opened v lp lfd fs) lp lfd op
    | None => ∃ fs, lock_tree v path fs ∧ w' ≡ set_fs fs v ∧
        (q → fs = w_fs v ∧ ∃ e, (do_open path LOCK_FLAGS v).2 = Err e)
    end).
Proof.
  intros Hop Hw Hq path Hfree. unfold uri_lock. fold path. apply wpt_bind.
  apply (wpt_faulty (do_open path LOCK_FLAGS) _ w v q c); try done. intros w1 Hq1.
  pose proof (do_open_cases path LOCK_FLAGS v) as Hopen.
  split.
  2: { intros er Hnq _ Hw1. apply wpt_ret. split; [done|]. exists (w_fs v).
       split; [by left|]. split; [by destruct v|]. by intros ?%Hnq. }
  destruct (do_open path LOCK_FLAGS v).2 as [lfd|e] eqn:Hr; intros Hw1.
  2: { apply wpt_ret. split; [done|]. exists (w_fs v). rewrite Hopen in Hw1.
       split; [by left|]. split; [by destruct v|]. intros _. split; [done|by exists e]. }
  destruct Hopen as (lp & fs & Hn & -> & Hop1 & Htree). rewrite Hop1 in Hw1.
  specialize (Hfree lp Hn). pose proof (open_tree_lock v path lp fs Hn Htree) as Hlt.
  apply wpt_bind. eapply wpt_conseq.
  { apply (flock_retry_spec (fd_alloc (w_fds v)) op lp 0 w1 _ q c Hop Hw1 Hq1); cbn; [|done].
    by rewrite lookup_insert_eq. }
  intros [[]|e] w2 [Hq2 Hw2].
  - apply wpt_ret. split; [done|]. exists lp, fs. by split_and!.
  - destruct Hw2 as [Hw2 Hnq]. apply wpt_bind. apply (wpt_close _ _ _ q c _ Hw2 Hq2).
    intros w3 Hw3 Hq3. apply wpt_ret. split; [done|]. exists fs. split; [done|].
    rewrite close_opened in Hw3 by done. split; [done|]. by intros ?%Hnq.
Qed.

(** Unlocking gives the descriptor and the lock back. *)
Lemma uri_unlock_spec lfd op lp off w v q c (fds : gmap nat ofd) : w ≡ locked (set_fds (<[lfd := OFile lp off]> fds) v) lp lfd op →
  quiet q c w → fds !! lfd = None → w_flocks v !! lp = None →
  wpt (uri_unlock (Some lfd)) w (λ _ w', quiet q c w' ∧ w' ≡ set_fds fds v).
Proof.
  intros Hw Hq Hfd Hfree. unfold uri_unlock. apply wpt_bind.
  eapply wpt_trigger.
  { cbn. unfold sys_flock. rewrite (w_fds_proper _ _ Hw). cbn. rewrite lookup_insert_eq.
    rewrite decide_True by done. reflexivity. }
  assert (Hw1 : set_flocks (drop_lock lp lfd (w_flocks w)) w ≡ set_fds (<[lfd := OFile lp off]> fds) v).
  { rewrite (w_flocks_proper _ _ Hw). cbn. rewrite drop_lock_state by done.
    etrans; [by apply set_flocks_proper|]. by destruct v. }
  apply (wpt_close _ _ _ q c _ Hw1); [done|]. intros w2 Hw2 Hq2. split; [done|].
  etrans; [exact Hw2|]. unfold sys_close. cbn. rewrite lookup_insert_eq, drop_lock_none by done.
  unfold set_flocks, set_fds. cbn. rewrite delete_insert_id by done. by destruct v.
Qed.

(** Closing a descriptor that holds no lock. *)
Lemma drop_lock_other p lp op fd lfd : fd ≠ lfd →
  drop_lock p fd (<[lp := lock_state op lfd]> ∅) = <[lp := lock_state op lfd]> ∅.
Proof.
  intros Hne. unfold drop_lock. rewrite lookup_insert. case_decide; [subst|by rewrite lookup_empty].
  destruct op; cbn [lock_state]; [|by rewrite decide_False by congruence..].
  rewrite (difference_disjoint_L {[lfd]} {[fd]}) by set_solver. rewrite decide_False by set_solver.
  by rewrite insert_insert_eq.
Qed.

(** ** GET *)

(** The answer to a GET of [u] when the tree is as in [v]: status and message. *)
Definition spec_get (v : world) (u : bytes) : Response * bytes :=
  let error res := (res, response_message res) in
  match namei v u with
  | Err e => error (get_open_error e)
  | Ok p =>
      match w_fs v !! p with
      | Some (NFile d m) =>
          if m_r m then (RESPONSE_OK, file_header (Z.of_nat (length d)) ++ d)
          else error RESPONSE_FORBIDDEN
      | Some (NDir _) => error RESPONSE_FORBIDDEN
      | Some (NOther _) => error RESPONSE_INTERNAL_SERVER_ERROR
      | None => error RESPONSE_NOT_FOUND
      end
  end.

(** What open says, as an answer. *)
Lemma spec_get_open v u : match (do_open u O_RDONLY v).2 with
  | Err e => spec_get v u = (get_open_error e, response_message (get_open_error e))
  | Ok fd => ∃ p n, namei v u = Ok p ∧ fd = fd_alloc (w_fds v) ∧ w_fs v !! p = Some n ∧
      (do_open u O_RDONLY v).1 = opened v p fd (w_fs v) ∧
      match n with
      | NFile d m => spec_get v u = (RESPONSE_OK, file_header (Z.of_nat (length d)) ++ d)
      | NDir m => spec_get v u = (RESPONSE_FORBIDDEN, response_message RESPONSE_FORBIDDEN)
      | NOther _ => False
      end
  end.
Proof.
  unfold do_open, spec_get, new_fd. destruct (namei v u) as [p|e]; [|done].
  destruct (w_fs v !! p) as [[d m|m|m]|] eqn:Hp; cbn -[response_message file_header]; try done.
  - destruct (m_r m); [|done]. exists p, (NFile d m). split_and!; try done.
  - destruct (m_r m); [|done]. exists p, (NDir m). split_and!; try done.
Qed.

Section alone.
Context (dir : bytes) (conn : Conn) (v : world) (c : nat) (s : sock) (q : Prop).
Hypothesis Hfd : w_fds v !! connfd conn = Some (OSock c).
Hypothesis Hs : w_socks v !! c = Some s.
Hypothesis Hlog : log_ready v.
Hypothesis Hfree : w_flocks v = ∅.
Hypothesis Hsizes : ∀ p d m, w_fs v !! p = Some (NFile d m) → Z.of_nat (length d) ≤ ULLONG_MAX.

Let path := lock_path_for dir (uri conn) 192.
Let lfd := fd_alloc (w_fds v).

Lemma conn_fd_not_lock : connfd conn ≠ lfd.
Proof. intros H. unfold lfd in H. pose proof (fd_alloc_fresh (w_fds v)). congruence. Qed.

(** The world inside the critical section. *)
Definition critical (op : lockop) (lp : Posix.path) (fs : gmap Posix.path node) : world :=
  locked (opened v lp lfd fs) lp lfd op.

Lemma critical_fds op lp fs : w_fds (critical op lp fs) !! connfd conn = Some (OSock c).
Proof. cbn. rewrite lookup_insert_ne; [done|]. pose proof conn_fd_not_lock. congruence. Qed.

(** Leaving it. *)
Lemma unlock_critical w op lp fs x l :
  w ≡ log_app l (sock_out (critical op lp fs) c x) → quiet q c w →
  wpt (uri_unlock (Some lfd)) w
    (λ _ w', quiet q c w' ∧ w' ≡ log_app l (sock_out (set_fs fs v) c x)).
Proof.
  intros Hw Hq. eapply wpt_conseq.
  - apply (uri_unlock_spec lfd op lp 0 w (log_app l (sock_out (set_fs fs v) c x)) q c (w_fds v)).
    + exact Hw.
    + done.
    + apply fd_alloc_fresh.
    + cbn. by rewrite Hfree.
  - intros [] w' [Hq' Hw']. split; [done|]. exact Hw'.
Qed.

(** Answering and leaving. *)
Lemma respond_unlock w op lp fs res : w ≡ critical op lp fs → quiet q c w →
  wpt (do! respond conn res in uri_unlock (Some lfd)) w (λ _ w', quiet q c w' ∧
    answered q c (response_message res) (conn_line conn res) (set_fs fs v) w').
Proof.
  intros Hw Hq. apply wpt_bind. eapply wpt_conseq.
  { apply (respond_spec conn res w (critical op lp fs) c s q); try done. apply critical_fds. }
  intros [] w1 (Hq1 & k & Hw1 & Hk).
  eapply wpt_conseq; [by apply (unlock_critical w1 op lp fs)|].
  intros [] w2 [Hq2 Hw2]. split; [done|]. by exists k.
Qed.

(** Closing the served file. *)
Lemma close_target y op lp p off ffd : w_flocks y = <[lp := lock_state op lfd]> ∅ →
  w_fds y !! ffd = None → ffd ≠ lfd →
  sys_close ffd (set_fds (<[ffd := OFile p off]> (w_fds y)) y) = y.
Proof.
  intros Hl Hn Hne. unfold sys_close. cbn. rewrite lookup_insert_eq, Hl, drop_lock_other by done.
  rewrite <- Hl. unfold set_flocks, set_fds. cbn. rewrite delete_insert_id by done. by destruct y.
Qed.

Lemma critical_flocks op lp fs : w_flocks (critical op lp fs) = <[lp := lock_state op lfd]> ∅.
Proof. cbn. by rewrite Hfree. Qed.

Lemma target_fresh op lp fs : let ffd := fd_alloc (w_fds (critical op lp fs)) in
  w_fds (critical op lp fs) !! ffd = None ∧ ffd ≠ lfd ∧ connfd conn ≠ ffd.
Proof.
  cbv zeta. pose proof (fd_alloc_fresh (w_fds (critical op lp fs))) as Hf. split; [done|].
  pose proof (critical_fds op lp fs) as Hc. split; [|congruence].
  intros Heq. rewrite Heq in Hf. cbn in Hf. by rewrite lookup_insert_eq in Hf.
Qed.

(** Answering with the file open. *)
Lemma respond_close_unlock w op lp fs p off res :
  let ffd := fd_alloc (w_fds (critical op lp fs)) in
  w ≡ set_fds (<[ffd := OFile p off]> (w_fds (critical op lp fs))) (critical op lp fs) →
  quiet q c w →
  wpt (do! respond conn res in do! ! (Close ffd) in uri_unlock (Some lfd)) w
    (λ _ w', quiet q c w' ∧
       answered q c (response_message res) (conn_line conn res) (set_fs fs v) w').
Proof.
  intros ffd Hw Hq. destruct (target_fresh op lp fs) as (Hn & Hne & Hcn).
  apply wpt_bind. eapply wpt_conseq.
  { eapply (respond_spec conn res w _ c s q); [exact Hw|..]; try done.
    cbn -[critical]. rewrite lookup_insert_ne by done. apply critical_fds. }
  intros [] w1 (Hq1 & k & Hw1 & Hk). apply wpt_bind.
  apply (wpt_close _ _ _ q c _ Hw1 Hq1). intros w2 Hw2 Hq2.
  set (y := log_app (conn_line conn res) (sock_out (critical op lp fs) c (take k (response_message res)))).
  assert (Hw2' : w2 ≡ y).
  { etrans; [exact Hw2|]. rewrite <- (close_target y op lp p off ffd); [done| |done|done].
    apply critical_flocks. }
  eapply wpt_conseq; [by apply (unlock_critical w2 op lp fs)|].
  intros [] w3 [Hq3 Hw3]. split; [done|]. by exists k.
Qed.

(** What a GET does: one answer, one audit line; the tree is as before but for
    the lockfile; the answer is [spec_get]'s unless a call failed. *)
Definition get_post (w' : world) : Prop := ∃ fs res msg, lock_tree v path fs ∧
  answered q c msg (conn_line conn res) (set_fs fs v) w' ∧
  (msg = response_message res ∨ res = RESPONSE_OK ∧ spec_get (set_fs fs v) (uri conn) = (res, msg)) ∧
  (q → (res, msg) = match (do_open path LOCK_FLAGS v).2 with
     | Err _ => (RESPONSE_INTERNAL_SERVER_ERROR, response_message RESPONSE_INTERNAL_SERVER_ERROR)
     | Ok _ => spec_get (set_fs fs v) (uri conn)
     end).

Lemma get_post_error w' fs res :
  lock_tree v path fs → answered q c (response_message res) (conn_line conn res) (set_fs fs v) w' →
  (q → (res, response_message res) = match (do_open path LOCK_FLAGS v).2 with
     | Err _ => (RESPONSE_INTERNAL_SERVER_ERROR, response_message RESPONSE_INTERNAL_SERVER_ERROR)
     | Ok _ => spec_get (set_fs fs v) (uri conn) end) →
  get_post w'.
Proof. intros. exists fs, res, (response_message res). split_and!; try done. by left. Qed.

(** Serving the file itself. *)
Lemma get_serve w lp fs p d m : let cr := critical LOCK_SH lp fs in let ffd := fd_alloc (w_fds cr) in
  w ≡ opened cr p ffd fs → quiet q c w → fs !! p = Some (NFile d m) →
  Z.of_nat (length d) ≤ ULLONG_MAX →
  wpt (do! conn_send_file conn ffd (Z.of_nat (length d)) in
       do! audit_send_response conn RESPONSE_OK in do! ! (Close ffd) in uri_unlock (Some lfd)) w
    (λ _ w', quiet q c w' ∧ answered q c (file_header (Z.of_nat (length d)) ++ d)
       (conn_line conn RESPONSE_OK) (set_fs fs v) w').
Proof.
  intros cr ffd Hw Hq Hp Hd. destruct (target_fresh LOCK_SH lp fs) as (Hn & Hne & Hcn).
  fold cr ffd in Hn, Hne, Hcn. set (v2 := opened cr p ffd fs).
  assert (Hcfd : w_fds v2 !! connfd conn = Some (OSock c)).
  { cbn -[cr]. rewrite lookup_insert_ne by done. apply critical_fds. }
  apply wpt_bind. eapply wpt_conseq.
  { apply (conn_send_file_spec v2 c (connfd conn) ffd p d m s q Hcfd Hs Hp Hcn conn w); try done.
    rewrite send_view_start; [done|]. cbn. by rewrite lookup_insert_eq. }
  intros r w1 (Hq1 & k & rest & Hw1 & Hr). apply wpt_bind.
  apply wpt_audit. { apply (log_ready_proper _ _ Hw1). exact Hlog. }
  apply wpt_bind. set (x := take k (file_header (Z.of_nat (length d)) ++ d)) in *.
  set (y := log_app (conn_line conn RESPONSE_OK) (sock_out cr c x)).
  assert (Hw2 : log_app (conn_line conn RESPONSE_OK) w1 ≡
    set_fds (<[ffd := OFile p (length d - length rest)]> (w_fds y)) y).
  { etrans; [by apply log_app_proper|]. unfold send_view. cbn. unfold set_fds, log_app, set_log. cbn.
    by rewrite insert_insert_eq. }
  apply (wpt_close _ _ _ q c _ Hw2); [done|]. intros w3 Hw3 Hq3.
  rewrite (close_target y LOCK_SH lp) in Hw3; [|apply critical_flocks|done|done].
  eapply wpt_conseq; [by apply (unlock_critical w3 LOCK_SH lp fs x)|].
  intros [] w4 [Hq4 Hw4]. split; [done|]. exists k. split; [done|].
  intros Hh. destruct r; [by destruct Hr|done].
Qed.

Lemma handle_get_spec w : w ≡ v → quiet q c w →
  wpt (handle_get dir conn) w (λ _ w', quiet q c w' ∧ get_post w').
Proof.
  intros Hw Hq. unfold handle_get. unfold conn_get_uri. apply wpt_bind.
  eapply wpt_conseq.
  { apply (uri_lock_spec dir (uri conn) LOCK_SH w v q c); try done.
    intros lp _. by rewrite Hfree, lookup_empty. }
  intros [l|] w1 [Hq1 H1]; fold path in H1.
  2: { destruct H1 as (fs & Htree & Hw1 & Hh). eapply wpt_conseq.
       - apply (respond_spec conn RESPONSE_INTERNAL_SERVER_ERROR w1 (set_fs fs v) c s q); done.
       - intros [] w2 [Hq2 Hw2]. split; [done|]. apply (get_post_error w2 fs _ Htree Hw2).
         intros Hq'. by destruct (Hh Hq') as (_ & e & ->). }
  destruct H1 as (lp & fs & Hn & Htree & -> & Hlok & Hw1). fold lfd in Hlok, Hw1. fold lfd.
  change (locked (opened v lp lfd fs) lp lfd LOCK_SH) with (critical LOCK_SH lp fs) in Hw1.
  set (cr := critical LOCK_SH lp fs) in *. apply wpt_bind.
  apply (wpt_faulty (do_open (uri conn) O_RDONLY) _ w1 cr q c); try done. intros w2 Hq2.
  split.
  2: { intros er Hnq Her Hw2. eapply wpt_conseq; [by apply (respond_unlock w2 LOCK_SH lp fs)|].
       intros [] w3 [Hq3 Hw3]. split; [done|]. apply (get_post_error w3 fs _ Htree Hw3).
       by intros ?%Hnq. }
  pose proof (spec_get_open cr (uri conn)) as Hopen.
  assert (Hspec : spec_get cr (uri conn) = spec_get (set_fs fs v) (uri conn)) by done.
  rewrite Hspec in Hopen. destruct (do_open (uri conn) O_RDONLY cr).2 as [ffd|e] eqn:Hr.
  2: { assert (Hsame : (do_open (uri conn) O_RDONLY cr).1 = cr).
       { pose proof (do_open_cases (uri conn) O_RDONLY cr) as Hc. by rewrite Hr in Hc. }
       rewrite Hsame. intros Hw2.
       eapply wpt_conseq; [by apply (respond_unlock w2 LOCK_SH lp fs)|].
       intros [] w3 [Hq3 Hw3]. split; [done|]. apply (get_post_error w3 fs _ Htree Hw3).
       intros _. by rewrite Hlok, Hopen. }
  destruct Hopen as (p & n & _ & -> & Hp & Hop & Hnode). rewrite Hop. intros Hw2.
  change (w_fs cr) with fs in Hw2, Hp. apply wpt_bind.
  eapply (wpt_faulty (do_fstat (fd_alloc (w_fds cr))) _ w2); [done|exact Hw2|exact Hq2|].
  intros w3 Hq3. split.
  2: { intros er Hnq _ Hw3. eapply wpt_conseq; [by apply (respond_close_unlock w3 LOCK_SH lp fs p 0)|].
       intros [] w4 [Hq4 Hw4]. split; [done|]. apply (get_post_error w4 fs _ Htree Hw4).
       by intros ?%Hnq. }
  unfold do_fstat. cbn -[critical cr wpt fd_alloc]. rewrite lookup_insert_eq, Hp.
  cbn -[critical cr wpt fd_alloc stat_of]. intros Hw3. destruct n as [d m|m|m]; [| |done].
  - cbn [stat_of st_isdir st_size]. eapply wpt_conseq.
    { apply (get_serve w3 lp fs p d m); try done. by eapply lock_tree_sizes. }
    intros [] w4 [Hq4 Hw4]. split; [done|].
    exists fs, RESPONSE_OK, (file_header (Z.of_nat (length d)) ++ d). split_and!; try done.
    + right. by rewrite Hnode.
    + intros _. by rewrite Hlok, Hnode.
  - cbn [stat_of st_isdir]. eapply wpt_conseq; [by apply (respond_close_unlock w3 LOCK_SH lp fs p 0)|].
    intros [] w4 [Hq4 Hw4]. split; [done|]. apply (get_post_error w4 fs _ Htree Hw4).
    intros _. by rewrite Hlok, Hnode.
Qed.
End alone.

(** ** PUT *)

(** The meaning of a PUT of [body] to [u] when the tree is as in [v]: status and
    new tree. *)
Definition spec_put (v : world) (u body : bytes) : Response * gmap path node :=
  match namei v u with
  | Err e => (put_open_error e, w_fs v)
  | Ok p =>
      match w_fs v !! p with
      | Some (NFile _ m) =>
          if m_w m then (RESPONSE_OK, <[p := NFile body m]> (w_fs v))
          else (RESPONSE_FORBIDDEN, w_fs v)
      | Some (NDir _) => (RESPONSE_FORBIDDEN, w_fs v)
      | Some (NOther _) => (RESPONSE_INTERNAL_SERVER_ERROR, w_fs v)
      | None =>
          match w_fs v !! removelast p with
          | Some (NDir m) =>
              if m_w m then (RESPONSE_CREATED, <[p := NFile body (mode_0600 v)]> (w_fs v))
              else (RESPONSE_FORBIDDEN, w_fs v)
          | _ => (RESPONSE_FORBIDDEN, w_fs v)
          end
      end
  end.

Definition PUT_FLAGS : oflags := OFlags true true.

(** What access and open say, as an outcome. *)
Lemma spec_put_open v u : match (do_open u PUT_FLAGS v).2 with
  | Err e => (do_open u PUT_FLAGS v).1 = v ∧ ∀ body, spec_put v u body = (put_open_error e, w_fs v)
  | Ok fd => ∃ p fs d m, fd = fd_alloc (w_fds v) ∧ fs !! p = Some (NFile d m) ∧
      (do_open u PUT_FLAGS v).1 = opened v p fd fs ∧ namei v u = Ok p ∧
      (∀ p', p' ≠ p → fs !! p' = w_fs v !! p') ∧
      ∀ body, spec_put v u body =
        (if sys_access u v then RESPONSE_OK else RESPONSE_CREATED, <[p := NFile body m]> fs)
  end.
Proof.
  unfold do_open, spec_put, new_fd, sys_access. destruct (namei v u) as [p|e]; [|done].
  destruct (w_fs v !! p) as [[d m|m|m]|] eqn:Hp; cbn -[response_message]; try done.
  - destruct (m_w m); [|done]. exists p, (w_fs v), d, m. done.
  - destruct (w_fs v !! removelast p) as [[|m|]|]; try done. destruct (m_w m); [|done].
    exists p, (<[p := NFile [] (mode_0600 v)]> (w_fs v)), [], (mode_0600 v).
    rewrite lookup_insert_eq. split_and!; try done.
    + intros p' Hne. by rewrite lookup_insert_ne.
    + intros body. by rewrite insert_insert_eq.
Qed.

#[export] Instance sys_access_proper u : Proper ((≡) ==> (=)) (sys_access u).
Proof. intros w v H. unfold sys_access. by rewrite (namei_proper _ _ _ H), (w_fs_proper _ _ H). Qed.

(** The part of the body the client still has to send, by the declared length. *)
Lemma recv_got (got rest : bytes) n : Z.of_nat (length got) ≤ Z.max 0 n →
  n ≤ Z.of_nat (length got) ∨ rest = [] →
  got = take (Z.to_nat n) (got ++ rest) ∧ rest = drop (Z.to_nat n) (got ++ rest).
Proof.
  intros Hle [Hn| ->].
  - assert (Z.to_nat n = length got) as -> by lia.
    by rewrite take_app_length, drop_app_length.
  - rewrite app_nil_r, take_ge, drop_ge by lia. done.
Qed.

(** access: it may fail for want of a resource, and then says that there is none. *)
Lemma wpt_access p w v q c (Q : bool → world → Prop) : w ≡ v → quiet q c w →
  (∀ w' b, w' ≡ v → quiet q c w' → (q → b = sys_access p v) → Q b w') → wpt (! (Access p)) w Q.
Proof.
  intros Hw Hq HQ. destruct (pop_fault w) as [f w1] eqn:Hf.
  destruct (pop_fault_quiet q c _ _ _ Hf Hq) as [Hq1 Hne].
  eapply wpt_trigger; [cbn; unfold call_access; by rewrite Hf|].
  apply pop_fault_spec in Hf as (fl & -> & _). apply HQ; [done|done|].
  intros Hh. specialize (Hne Hh). rewrite <- (sys_access_proper _ _ _ Hw). by destruct f.
Qed.

Section put.
Context (dir : bytes) (conn : Conn) (v : world) (c : nat) (s : sock) (q : Prop) (d : bytes).
Hypothesis Hfd : w_fds v !! connfd conn = Some (OSock c).
Hypothesis Hs : w_socks v !! c = Some s.
Hypothesis Hlog : log_ready v.
Hypothesis Hfree : w_flocks v = ∅.
Hypothesis Hin : Z.max 0 (in_message conn) = Z.of_nat (length d).
Hypothesis Hd : slice (buffer conn) (message_start conn) (in_message conn) = d.

Let path := lock_path_for dir (uri conn) 192.
Let lfd := fd_alloc (w_fds v).

(** The body of the request: the buffered part, then what the client sends, by
    the declared length. *)
Definition put_body : bytes :=
  d ++ take (Z.to_nat (to_s64 (content_length conn - Z.of_nat (length d)))) (sk_in s).

(** At most the file that the URI names differs. *)
Definition named_file_only (fs fs' : gmap Posix.path node) : Prop :=
  ∀ p, namei (set_fs fs v) (uri conn) ≠ Ok p → fs' !! p = fs !! p.

(** What a PUT does: one answer, one audit line; only the named file and the
    lockfile can change; without faults the outcome is [spec_put]'s. *)
Definition put_post (w' : world) : Prop := ∃ fs fs' got rest res,
  lock_tree v path fs ∧ sk_in s = got ++ rest ∧ named_file_only fs fs' ∧
  answered q c (response_message res) (conn_line conn res) (set_fs fs' (sock_in v c rest)) w' ∧
  (q → sk_eof s = true ∨ to_s64 (content_length conn - Z.of_nat (length d)) ≤ Z.of_nat (length (sk_in s)) →
   (res, fs') = match (do_open path LOCK_FLAGS v).2 with
     | Err _ => (RESPONSE_INTERNAL_SERVER_ERROR, fs)
     | Ok _ => spec_put (set_fs fs v) (uri conn) put_body
     end).

Lemma put_post_unread w' fs res : lock_tree v path fs →
  answered q c (response_message res) (conn_line conn res) (set_fs fs v) w' →
  (q → (res, fs) = match (do_open path LOCK_FLAGS v).2 with
     | Err _ => (RESPONSE_INTERNAL_SERVER_ERROR, fs)
     | Ok _ => spec_put (set_fs fs v) (uri conn) put_body end) →
  put_post w'.
Proof.
  intros Ht Ha Hsp. exists fs, fs, [], (sk_in s), res. rewrite sock_in_id by done. split_and!; try done.
  intros Hh _. by apply Hsp.
Qed.

(** With the file open and emptied: receive, answer, leave. *)
Lemma put_receive w lp fs fs2 p m existed :
  let cr := critical v LOCK_EX lp fs in let ffd := fd_alloc (w_fds cr) in
  lock_tree v path fs → (do_open path LOCK_FLAGS v).2 = Ok lfd →
  namei (set_fs fs v) (uri conn) = Ok p → (∀ p', p' ≠ p → fs2 !! p' = fs !! p') →
  (q → ∀ body, spec_put (set_fs fs v) (uri conn) body =
     (if (existed : bool) then RESPONSE_OK else RESPONSE_CREATED, <[p := NFile body m]> fs2)) →
  w ≡ set_fs (<[p := NFile [] m]> fs2) (opened cr p ffd fs2) → quiet q c w →
  wpt (let! res := conn_recv_file conn ffd in
       let res := match res with
                  | Some res => res
                  | None => if (existed : bool) then RESPONSE_OK else RESPONSE_CREATED
                  end in
       do! respond conn res in do! ! (Close ffd) in uri_unlock (Some lfd)) w
    (λ _ w', quiet q c w' ∧ put_post w').
Proof.
  intros cr ffd Htree Hlok Hn Hfs2 Hspec Hw Hq.
  destruct (target_fresh conn v c Hfd LOCK_EX lp fs) as (Hnew & Hne & Hcn).
  fold cr ffd in Hnew, Hne, Hcn. set (v3 := set_fs _ _) in Hw.
  assert (Hcfd : w_fds v3 !! connfd conn = Some (OSock c)).
  { cbn -[cr]. rewrite lookup_insert_ne by done. by apply critical_fds. }
  assert (Hstart : recv_view v3 c ffd p m (sk_in s) [] = v3).
  { apply recv_view_start; [..|exact Hs]; cbn; by rewrite lookup_insert_eq. }
  apply wpt_bind. eapply wpt_conseq.
  { apply (conn_recv_file_spec v3 c (connfd conn) ffd p m s q Hcfd Hs Hcn conn w d); try done.
    by rewrite Hstart. }
  intros r w1 [(got & rest & k & Hgot & Hw1 & Hle & Hr) Hq1]. cbv zeta.
  set (res := match r with Some res => res | None => _ end).
  set (content := take k (d ++ got)) in *. set (fs' := <[p := NFile content m]> fs2).
  set (v' := set_fs fs' (sock_in v c rest)).
  assert (Hw1' : w1 ≡ set_fds (<[ffd := OFile p (length content)]>
      (w_fds (critical v' LOCK_EX lp fs'))) (critical v' LOCK_EX lp fs')).
  { etrans; [exact Hw1|]. unfold recv_view, file_at, v3, fs', set_fs, set_fds. cbn.
    by rewrite !insert_insert_eq. }
  eapply wpt_conseq.
  { apply (respond_close_unlock conn v' c (Sock rest (sk_eof s) (sk_out s) (sk_faults s)) q
      Hfd) with (op := LOCK_EX) (lp := lp) (fs := fs') (p := p) (off := length content); try done.
    cbn. by rewrite lookup_alter, decide_True, Hs by done. }
  intros [] w2 [Hq2 Hw2]. split; [done|]. exists fs, fs', got, rest, res. split_and!; try done.
  - intros p' Hp'. unfold fs'. rewrite lookup_insert_ne by congruence. apply Hfs2. congruence.
  - intros Hh Heof. rewrite Hlok, (Hspec Hh). destruct r as [e|].
    { exfalso. destruct Hr as [_ [Hnq|(-> & He & Hlt)]]; [by apply Hnq|].
      destruct Heof as [?|Heof]; [congruence|]. rewrite Hgot, app_nil_r in Heof. lia. }
    destruct Hr as [-> Hr]. destruct (recv_got got rest _ Hle Hr) as [Hg _].
    unfold fs', content, put_body. rewrite take_ge by lia. rewrite Hgot. by rewrite <- Hg.
Qed.

Lemma handle_put_spec w : w ≡ v → quiet q c w →
  wpt (handle_put dir conn) w (λ _ w', quiet q c w' ∧ put_post w').
Proof.
  intros Hw Hq. unfold handle_put, conn_get_uri. apply wpt_bind.
  eapply wpt_conseq.
  { apply (uri_lock_spec dir (uri conn) LOCK_EX w v q c); try done.
    intros lp _. by rewrite Hfree, lookup_empty. }
  intros [l|] w1 [Hq1 H1]; fold path in H1.
  2: { destruct H1 as (fs & Htree & Hw1 & Hh). eapply wpt_conseq.
       - apply (respond_spec conn RESPONSE_INTERNAL_SERVER_ERROR w1 (set_fs fs v) c s q); done.
       - intros [] w2 [Hq2 Hw2]. split; [done|]. apply (put_post_unread w2 fs _ Htree Hw2).
         intros Hq'. by destruct (Hh Hq') as (_ & e & ->). }
  destruct H1 as (lp & fs & Hn & Htree & -> & Hlok & Hw1). fold lfd in Hlok, Hw1. fold lfd.
  change (locked (opened v lp lfd fs) lp lfd LOCK_EX) with (critical v LOCK_EX lp fs) in Hw1.
  set (cr := critical v LOCK_EX lp fs) in *. apply wpt_bind.
  apply (wpt_access _ w1 cr q c); [done|done|]. clear w1 Hw1 Hq1. intros w1 existed Hw1 Hq1 Hex. apply wpt_bind.
  assert (Hleave : ∀ res w2, w2 ≡ cr → quiet q c w2 →
    (q → (res, fs) = spec_put (set_fs fs v) (uri conn) put_body) →
    wpt (do! respond conn res in uri_unlock (Some lfd)) w2 (λ _ w', quiet q c w' ∧ put_post w')).
  { intros res w2 Hw2 Hq2 Hsp.
    eapply wpt_conseq; [by apply (respond_unlock conn v c s q Hfd Hs Hlog Hfree w2 LOCK_EX lp fs)|].
    intros [] w3 [Hq3 Hw3]. split; [done|]. apply (put_post_unread w3 fs _ Htree Hw3).
    by rewrite Hlok. }
  apply (wpt_faulty (do_open (uri conn) PUT_FLAGS) _ w1 cr q c); try done. intros w2 Hq2.
  split; [|intros er Hnq Her Hw2; apply Hleave; [done|done|by intros ?%Hnq]].
  pose proof (spec_put_open cr (uri conn)) as Hopen.
  destruct (do_open (uri conn) PUT_FLAGS cr).2 as [ffd|e] eqn:Hr.
  2: { destruct Hopen as [-> Hsp]. intros Hw2. apply Hleave; [done|done|]. intros _.
       symmetry. exact (Hsp put_body). }
  destruct Hopen as (p & fs2 & d2 & m & -> & Hp & -> & Hnp & Hfs2 & Hsp). intros Hw2.
  apply wpt_bind.
  eapply (wpt_faulty (do_ftruncate (fd_alloc (w_fds cr))) _ w2); [done|exact Hw2|exact Hq2|].
  intros w3 Hq3. split.
  - unfold do_ftruncate. cbn -[cr wpt fd_alloc]. rewrite lookup_insert_eq, Hp.
    cbn -[cr wpt fd_alloc]. intros Hw3.
    apply (put_receive w3 lp fs fs2 p m existed); try done. intros Hh. by rewrite (Hex Hh).
  - intros er Hnq _ Hw3.
    assert (Hw3' : w3 ≡ set_fds (<[fd_alloc (w_fds cr) := OFile p 0]> (w_fds (critical
        (set_fs fs2 v) LOCK_EX lp fs2))) (critical (set_fs fs2 v) LOCK_EX lp fs2)) by done.
    eapply wpt_conseq.
    { apply (respond_close_unlock conn (set_fs fs2 v) c s q Hfd) with
        (op := LOCK_EX) (lp := lp) (fs := fs2) (p := p) (off := 0%nat); try done. }
    intros [] w4 [Hq4 Hw4]. split; [done|].
    exists fs, fs2, [], (sk_in s), RESPONSE_INTERNAL_SERVER_ERROR.
    rewrite sock_in_id by done. split_and!; try done.
    intros p' Hp'. apply Hfs2. intros ->. by apply Hp'.
Qed.
End put.
