(* ===== verification/Startup.v ===== *)
(** * Starting up (src/httpserver.c: main, shutdown_handler)

    main from the command line to the creation of the worker pool: the options,
    the audit log, the lock directory and the signals.  The calls of Posix.v are
    joined with fopen and the signal dispositions; the rest of main is
    Threadpool.v's [serve]. *)
From ITree Require Import Core.Subevent Indexed.Sum Interp.Interp.
From S2P Require Import Prelude Libc Prog Posix Util Demo Opt Log Server Locks Handlers.
Local Open Scope Z_scope.
Local Open Scope prog_scope.

(** ** Signals *)

Inductive signo := SIGPIPE | SIGTERM | SIGINT.
Inductive disposition := SIG_DFL | SIG_IGN | Catch (status : Z).

#[export] Instance signo_eq_dec : EqDecision signo.
Proof. solve_decision. Defined.

Record sworld := SW {
  s_world : world;
  s_disp : signo → disposition;
  s_faults : list bool               (* whether the next sigaction fails *)
}.
Definition set_world (w : world) (s : sworld) : sworld := SW w (s_disp s) (s_faults s).
Definition set_disp (sig : signo) (d : disposition) (s : sworld) : sworld :=
  SW (s_world s) (λ sig', if decide (sig' = sig) then d else s_disp s sig') (s_faults s).

(** What a signal does to the process. *)
Inductive ending := Exited (status : Z) | Killed (sig : signo).
Definition deliver (sig : signo) (s : sworld) : option ending :=
  match s_disp s sig with
  | SIG_DFL => Some (Killed sig)
  | SIG_IGN => None
  | Catch status => Some (Exited status)
  end.

(** ** Events *)

Definition OPEN_W : oflags := OFlags true true.

(** fopen(p, "w"): the file is created or emptied.  The contents of the audit
    file are the world's [w_log_out], apart from the tree. *)
Definition do_fopen (p : bytes) (w : world) : world * rc unit :=
  match do_open p OPEN_W w with
  | (w, Err e) => (w, Err e)
  | (w, Ok fd) =>
      let w := (do_ftruncate fd w).1 in
      (set_log (w_log_stream w) (w_log_mu w) (w_log_buf w) [] w, Ok tt)
  end.

Variant startE : Type → Type :=
  | Fopen (p : bytes) : startE (rc unit)
  | Signal (sig : signo) (d : disposition) : startE unit
  | Sigaction (sig : signo) (d : disposition) : startE bool.   (* whether it returns 0 *)

Abbreviation mainE := (sysE +' startE).

#[export] Instance main_kernel : Kernel mainE sworld := λ X e s,
  match e with
  | inl1 e =>
      match sys e (s_world s) with
      | Some (w, x) => Some (set_world w s, x)
      | None => None
      end
  | inr1 e =>
      match e in startE X return option (sworld * X) with
      | Fopen p => let '(w, r) := faulty (do_fopen p) (s_world s) in Some (set_world w s, r)
      | Signal sig d => Some (set_disp sig d s, tt)
      | Sigaction sig d =>
          match s_faults s with
          | true :: fl => Some (SW (s_world s) (s_disp s) fl, false)
          | fl => Some (set_disp sig d (SW (s_world s) (s_disp s) (tail fl)), true)
          end
      end
  end.

Definition posix_part {R} (t : itree sysE R) : itree mainE R := translate (λ X e, inl1 e) t.
Definition start_part {X} (e : startE X) : itree mainE X := perform (inr1 e : mainE X).

(** ** main *)

Definition EXIT_SUCCESS : Z := 0.
Definition EXIT_FAILURE : Z := 1.

(** The handler's whole body is _exit(EXIT_SUCCESS). *)
Definition shutdown_handler : disposition := Catch EXIT_SUCCESS.

(** The exit status, or the options and the lock directory to go on with. *)
Definition startup (args : list bytes) : itree mainE (Z + OPT * bytes) :=
  match opt_parse args with
  | OptOk opts =>
      let! log_stream :=
        match log_path opts with
        | None => Ret SStderr
        | Some path =>
            let! r := start_part (Fopen path) in
            Ret (match r with Ok _ => SFile | Err _ => SNull end)
        end in
      match log_stream with
      | SNull => Ret (inl EXIT_FAILURE)
      | _ =>
          do! posix_part (log_init log_stream) in
          let! dir := posix_part lockdir_init in
          match dir with
          | None => Ret (inl EXIT_FAILURE)
          | Some dir =>
              do! start_part (Signal SIGPIPE SIG_IGN) in
              let! term := start_part (Sigaction SIGTERM shutdown_handler) in
              let! failed :=
                if negb term then Ret true
                else let! int := start_part (Sigaction SIGINT shutdown_handler) in Ret (negb int) in
              if failed then Ret (inl EXIT_FAILURE) else Ret (inr (opts, dir))
          end
      end
  | _ => Ret (inl EXIT_FAILURE)
  end.

(** ** Lemmas *)

Lemma observe_translate {E F : Type → Type} {R} (h : ∀ X, E X → F X) (t : itree E R) :
  observe (translate h t) =
  match observe t with
  | RetF r => RetF r
  | TauF t' => TauF (translate h t')
  | VisF e k => VisF (h _ e) (λ x, translate h (k x))
  end.
Proof. unfold translate, observe. cbn. unfold observe. by destruct (_observe t). Qed.

(** A program runs the same among the calls of a larger world: [set w v] is [v]
    with the smaller world [w] in it. *)
Lemma wpt_translate {E F : Type → Type} {W V} `{KE : !Kernel E W} `{KF : !Kernel F V}
    (h : ∀ X, E X → F X) (get : V → W) (set : W → V → V) {R} (t : itree E R) v (Q : R → V → Prop) :
  (∀ X (e : E X) w, sys (h X e) (set w v) = (λ '(w', x), (set w' v, x)) <$> sys e w) →
  set (get v) v = v →
  wpt t (get v) (λ r w', Q r (set w' v)) → wpt (translate h t) v Q.
Proof.
  intros Hsys Hid (r & w' & He & HQ). exists r, (set w' v). split; [|done]. clear HQ.
  rewrite <- Hid at 1. clear Hid. induction He as [t w r Ht|t w t1 w1 r w' Hs He IH].
  - apply evals_ret. by rewrite observe_translate, Ht.
  - eapply evals_step; [|exact IH]. unfold step_thread in *. rewrite observe_translate.
    destruct (observe t) as [|t'|X e k]; [done|by simplify_eq|]. rewrite Hsys.
    destruct (sys e w) as [[w2 x]|]; [|done]. by simplify_eq.
Qed.

Lemma wpt_posix_part {R} (t : itree sysE R) s (Q : R → sworld → Prop) :
  wpt t (s_world s) (λ r w', Q r (set_world w' s)) → wpt (posix_part t) s Q.
Proof.
  apply (wpt_translate _ s_world set_world); [|by destruct s].
  intros X e w. cbn. by destruct (sys e w) as [[]|].
Qed.

(** What opening the log leaves alone. *)
Lemma do_fopen_frame p w : let w' := (do_fopen p w).1 in
  w_cwd_id w' = w_cwd_id w ∧ w_euid w' = w_euid w ∧ w_log_mu w' = w_log_mu w ∧ w_log_buf w' = w_log_buf w ∧
  ((do_fopen p w).2 = Ok tt → w_log_out w' = []).
Proof.
  unfold do_fopen. pose proof (do_open_cases p OPEN_W w) as Hop.
  destruct (do_open p OPEN_W w) as [w1 [fd|e]]; cbn in Hop |- *; [|by subst].
  destruct Hop as (q & fs & _ & _ & -> & _). unfold do_ftruncate. by repeat case_match.
Qed.

#[export] Instance do_fopen_proper p : CallProper (do_fopen p).
Proof.
  unfold CallProper. intros w v Hwv. unfold do_fopen.
  destruct (call_proper (body := do_open p OPEN_W) _ _ Hwv) as (Hr & Hw & Hf & Hs).
  destruct (do_open p OPEN_W w) as [w1 r], (do_open p OPEN_W v) as [v1 r']. cbn in *. subst r'.
  destruct r as [fd|e]; cbn; [|done].
  destruct (call_proper (body := do_ftruncate fd) _ _ Hw) as (_ & Hw2 & Hf2 & Hs2).
  split_and!; [done| |congruence..].
  by rewrite (w_log_stream_proper _ _ Hw2), (w_log_mu_proper _ _ Hw2), (w_log_buf_proper _ _ Hw2), Hw2.
Qed.

(** ** What main has set up *)

(** The log's target, and the world when it is open. *)
Definition log_target (opts : OPT) : stream := match log_path opts with None => SStderr | Some _ => SFile end.
Definition log_world (opts : OPT) (w : world) : world :=
  let '(v, out) := match log_path opts with
    | None => (w, w_log_out w)
    | Some p => ((do_fopen p w).1, [])
    end in
  set_log (log_target opts) (w_log_mu w) (w_log_buf w) out v.

(** The lock directory is one of the server's own, just created or found, and
    nothing else changed since [v]. *)
Definition lock_dir_ready (v w' : world) (dir : bytes) : Prop :=
  ∃ q, namei w' dir = Ok q ∧ own_dir w' q ∧
    (w' ≡ v ∨ w_fs v !! q = None ∧
     w' ≡ set_fs (<[q := NDir (Meta (w_euid v) true true true)]> (w_fs v)) v).

(** No call fails for want of a resource. *)
Definition faultless (s : sworld) : Prop := calm 0 (s_world s) ∧ Forall (λ b, b = false) (s_faults s).

(** Why main gives up when no call fails for want of a resource. *)
Definition refused (args : list bytes) (w : world) (dir : bytes) : Prop :=
  opt_parse args = OptUsage ∨
  ∃ opts, opt_parse args = OptOk opts ∧
    ((∃ p e, log_path opts = Some p ∧ (do_fopen p w).2 = Err e) ∨
     ∀ q, namei (log_world opts w) dir = Ok q → ¬ own_dir (log_world opts w) q).

Lemma wpt_fopen p s (Q : rc unit → sworld → Prop) :
  let w := s_world s in
  (∀ w', quiet (calm 0 w) 0 w' →
    (w' ≡ (do_fopen p w).1 → Q (do_fopen p w).2 (set_world w' s)) ∧
    (∀ er, ¬ calm 0 w → Q (Err er) (set_world w' s))) →
  wpt (start_part (Fopen p)) s Q.
Proof.
  intros w HQ. destruct (faulty (do_fopen p) w) as [w' r] eqn:Hf.
  eapply wpt_trigger; [cbn; fold w; by rewrite Hf|].
  apply (faulty_spec _ w w (calm 0 w) 0) in Hf as (Hq & Hf); [|done|apply quiet_self].
  destruct (HQ w' Hq) as [H1 H2]. destruct Hf as [(_ & Hn & er & _ & ->)|[Hw ->]]; auto.
Qed.

Section startup.
Context (args : list bytes) (s : sworld).
Let w := s_world s.
Let dir := lock_dir_text (w_cwd_id w).1 (w_cwd_id w).2.

(** The postcondition of [startup]. *)
Definition started (r : Z + OPT * bytes) (s' : sworld) : Prop :=
  match r with
  | inl code => code = EXIT_FAILURE ∧ (faultless s → refused args w dir)
  | inr (opts, d) =>
      opt_parse args = OptOk opts ∧ 1 ≤ n_threads opts ≤ INT_MAX ∧ 1 ≤ port opts ≤ 65535 ∧
      d = dir ∧ lock_dir_ready (log_world opts w) (s_world s') dir ∧ log_idle (s_world s') ∧
      w_log_stream (s_world s') = log_target opts ∧
      deliver SIGPIPE s' = None ∧
      deliver SIGTERM s' = Some (Exited EXIT_SUCCESS) ∧ deliver SIGINT s' = Some (Exited EXIT_SUCCESS)
  end.

(** The two calls of sigaction. *)
Lemma wpt_sigaction sig d s1 (Q : bool → sworld → Prop) :
  (∀ fl, s_faults s1 = true :: fl → Q false (SW (s_world s1) (s_disp s1) fl)) →
  Q true (set_disp sig d (SW (s_world s1) (s_disp s1) (tail (s_faults s1)))) →
  wpt (start_part (Sigaction sig d)) s1 Q.
Proof.
  intros H1 H2. eapply wpt_trigger.
  - cbn. instantiate (2 := match s_faults s1 with true :: fl => SW (s_world s1) (s_disp s1) fl
      | fl => set_disp sig d (SW (s_world s1) (s_disp s1) (tail fl)) end).
    instantiate (1 := match s_faults s1 with true :: _ => false | _ => true end).
    by destruct (s_faults s1) as [|[] fl].
  - destruct (s_faults s1) as [|[] fl] eqn:Hf; [done|by apply H1|done].
Qed.

(** The signals come last. *)
Lemma wpt_signals opts s2 : opt_parse args = OptOk opts →
  lock_dir_ready (log_world opts w) (s_world s2) dir → log_idle (s_world s2) →
  w_log_stream (s_world s2) = log_target opts → s_faults s2 = s_faults s →
  wpt (do! start_part (Signal SIGPIPE SIG_IGN) in
       let! term := start_part (Sigaction SIGTERM shutdown_handler) in
       let! failed :=
         if negb term then Ret true
         else let! int := start_part (Sigaction SIGINT shutdown_handler) in Ret (negb int) in
       if failed then Ret (inl EXIT_FAILURE) else Ret (inr (opts, dir))) s2 started.
Proof.
  intros Ho Hdir Hlog Hst Hfl. assert (Hb : 1 ≤ n_threads opts ≤ INT_MAX ∧ 1 ≤ port opts ≤ 65535).
  { by eapply opt_loop_bounds in Ho. }
  apply wpt_bind. eapply wpt_trigger; [reflexivity|]. apply wpt_bind, wpt_sigaction; cbn [s_faults s_world s_disp set_disp].
  { intros fl E. apply wpt_bind, wpt_ret, wpt_ret. split; [done|]. intros [_ Hno].
    rewrite <- Hfl, E in Hno. by inversion Hno. }
  apply wpt_bind. cbn [negb]. apply wpt_bind, wpt_sigaction; cbn [s_faults s_world s_disp set_disp].
  { intros fl E. apply wpt_ret, wpt_ret. split; [done|]. intros [_ Hno].
    rewrite <- Hfl in Hno. destruct (s_faults s2); [done|]. cbn in E. subst. by inversion Hno as [|?? _ Hno']; inversion Hno'. }
  apply wpt_ret, wpt_ret. unfold started. destruct Hb. split_and!; try done; lia.
Qed.

Lemma log_world_frame opts : w_log_mu w = false → w_log_buf w = [] →
  w_cwd_id (log_world opts w) = w_cwd_id w ∧ log_idle (log_world opts w).
Proof.
  intros Hmu Hbuf. unfold log_world, log_idle, log_target. destruct (log_path opts) as [p|]; [|by split_and!].
  destruct (do_fopen_frame p w) as (E1 & _). by split_and!.
Qed.

(** With the log open: the lock directory, then the signals. *)
Lemma wpt_lock_signals opts w1 (Hu : u64 (w_cwd_id w).1 ∧ u64 (w_cwd_id w).2) :
  w_log_mu w = false → w_log_buf w = [] → opt_parse args = OptOk opts →
  set_log (log_target opts) (w_log_mu w1) (w_log_buf w1) (w_log_out w1) w1 ≡ log_world opts w →
  quiet (calm 0 w) 0 w1 →
  wpt (do! posix_part (log_init (log_target opts)) in
       let! dir := posix_part lockdir_init in
       match dir with
       | None => Ret (inl EXIT_FAILURE)
       | Some dir =>
           do! start_part (Signal SIGPIPE SIG_IGN) in
           let! term := start_part (Sigaction SIGTERM shutdown_handler) in
           let! failed :=
             if negb term then Ret true
             else let! int := start_part (Sigaction SIGINT shutdown_handler) in Ret (negb int) in
           if failed then Ret (inl EXIT_FAILURE) else Ret (inr (opts, dir))
       end) (set_world w1 s) started.
Proof.
  intros Hmu Hbuf Ho Hw1 Hq. destruct (log_world_frame opts Hmu Hbuf) as [Hid Hready].
  set (v := log_world opts w) in *. set (w2 := set_log _ _ _ _ w1) in *.
  apply wpt_bind, wpt_posix_part. eapply wpt_trigger.
  { cbn. instantiate (2 := w2). instantiate (1 := tt). unfold w2, log_target. by destruct (log_path opts). }
  assert (Hid2 : w_cwd_id w2 = w_cwd_id w) by (by rewrite (w_cwd_id_proper _ _ Hw1)).
  apply wpt_bind, wpt_posix_part. eapply wpt_conseq; [apply (lockdir_init_wpt w2); rewrite Hid2; apply Hu|].
  rewrite Hid2. fold dir. intros [d|] w3.
  - intros (-> & q & Hn & Hown & Hw3). apply (wpt_signals opts); try done; cbn [s_world set_world].
    + change (lock_dir_ready v w3 dir). exists q. split_and!; try done. destruct Hw3 as [Hw3|[Hnone Hw3]]; [left; by rewrite Hw3|right].
      rewrite <- (w_fs_proper _ _ Hw1), <- (w_euid_proper _ _ Hw1). split; [done|]. by rewrite <- Hw1.
    + destruct Hw3 as [Hw3|[_ Hw3]]; rewrite Hw3; [by rewrite Hw1|].
      change (log_idle w2). by rewrite Hw1.
    + destruct Hw3 as [Hw3|[_ Hw3]]; by rewrite (w_log_stream_proper _ _ Hw3).
  - intros [_ Href]. apply wpt_ret. split; [done|]. intros [Hcalm _]. right. exists opts. split; [done|]. right.
    fold v. intros q Hn (m & Hm & Hm'). destruct (Href (Hq Hcalm : calm 0 w2) q).
    + by rewrite (namei_proper _ _ _ Hw1).
    + exists m. by rewrite (w_fs_proper _ _ Hw1), (w_euid_proper _ _ Hw1).
Qed.
End startup.

(** main up to the pool. *)
Lemma startup_wpt args s : let w := s_world s in
  u64 (w_cwd_id w).1 ∧ u64 (w_cwd_id w).2 → w_log_mu w = false → w_log_buf w = [] →
  wpt (startup args) s (started args s).
Proof.
  intros w Hu Hmu Hbuf. unfold startup.
  destruct (opt_parse args) as [opts| |] eqn:Ho.
  2: { apply wpt_ret. split; [done|]. by left. }
  2: { by apply opt_loop_total in Ho; [|lia]. }
  apply wpt_bind. pose proof (wpt_lock_signals args s opts) as Hrest. fold w in Hrest.
  unfold log_world, log_target in Hrest. destruct (log_path opts) as [p|] eqn:Hp.
  - apply wpt_bind, wpt_fopen. fold w. intros w' Hq. split.
    + destruct (do_fopen_frame p w) as (_ & _ & E3 & E4 & E5). destruct (do_fopen p w) as [v [[]|e]] eqn:Hf.
      * cbn [fst snd] in *. intros Hw'. apply wpt_ret, Hrest; try done.
        rewrite (w_log_mu_proper _ _ Hw'), (w_log_buf_proper _ _ Hw'), (w_log_out_proper _ _ Hw'), E3, E4, E5 by done.
        by rewrite Hw'.
      * intros _. apply wpt_ret, wpt_ret. split; [done|]. intros _. right. exists opts. split; [done|]. left.
        exists p, e. split; [done|]. fold w. by rewrite Hf.
    + intros er Hn. apply wpt_ret, wpt_ret. split; [done|]. by intros [? _].
  - apply wpt_ret. replace s with (set_world w s) at 1 by (by destruct s). apply Hrest; try done.
    apply quiet_self.
Qed.

(** C26. main sets the server up or gives up.  With the log's mutex and buffer as
    they are initialised, main returns from its start-up on every command line
    and file tree: either with EXIT_FAILURE -- and, unless a call failed for
    want of a resource, because the command line is not in the documented form,
    the log file cannot be opened, or the lock directory is not the server's
    own -- or with a positive thread count and a TCP port, the audit log ready
    on the file of -l (emptied) or on stderr, a lock directory of the server's
    own named after the working directory, nothing else changed in the tree,
    SIGPIPE ignored, and SIGTERM and SIGINT ending the process with status 0. *)
Theorem startup_ready args s : let w := s_world s in
  u64 (w_cwd_id w).1 ∧ u64 (w_cwd_id w).2 → w_log_mu w = false → w_log_buf w = [] →
  wpt (startup args) s (started args s).
Proof. exact (startup_wpt args s). Qed.

Lemma startup_ready_witness :
  wpt (startup [B "-laudit.log"; B "8080"]) (SW (demo_world [] [] []) (λ _, SIG_DFL) [])
    (λ r s', r = inr (mkOPT 3 (Some (B "audit.log")) 8080, B "/tmp/.httpserver.locks.64.7") ∧
             w_log_stream (s_world s') = SFile ∧ deliver SIGTERM s' = Some (Exited 0)) ∧
  wpt (startup [B "-t"; B "0"; B "8080"]) (SW (demo_world [] [] []) (λ _, SIG_DFL) [])
    (λ r s', r = inl EXIT_FAILURE).
Proof.
  split.
  - eapply wpt_conseq.
    + apply (startup_ready [B "-laudit.log"; B "8080"] (SW (demo_world [] [] []) (λ _, SIG_DFL) []));
        [by vm_compute|reflexivity|reflexivity].
    + intros [code|[opts d]] s'.
      * intros [_ H]. exfalso. destruct H as [H|(opts & Ho & [(p & e & Hp & He)|Hq])].
        -- split; [by apply demo_calm|constructor].
        -- vm_compute in H. discriminate H.
        -- vm_compute in Ho. injection Ho as <-. injection Hp as <-. vm_compute in He. discriminate He.
        -- vm_compute in Ho. injection Ho as <-. apply (Hq [B "tmp"; LOCKS] ltac:(vm_compute; reflexivity)).
           exists rwx. split; vm_compute; reflexivity.
      * intros (Ho & _ & _ & -> & _ & _ & Hst & _ & Ht & _). vm_compute in Ho. injection Ho as <-. by rewrite Hst.
  - eapply wpt_conseq.
    + apply (startup_ready [B "-t"; B "0"; B "8080"] (SW (demo_world [] [] []) (λ _, SIG_DFL) []));
        [by vm_compute|reflexivity|reflexivity].
    + intros [code|[opts d]] s'; [by intros [-> _]|]. intros (Ho & _). vm_compute in Ho. discriminate Ho.
Defined.
