(* ===== verification/Serve.v ===== *)
(** * A connection from accept to close (src/httpserver.c: handle_connection)

    The parser, the handlers and the responses together, for one connection and
    for a PUT followed by a GET. *)
From S2P Require Import Prelude Libc Regex Http Prog Posix Util.
From S2P Require Import Demo Connection Log Server Parsing Transfer Locks Handlers.
Local Open Scope Z_scope.
Local Open Scope prog_scope.

(** The message that goes with a status. *)
Definition message_of (res : Response) (msg : bytes) : Prop :=
  msg = response_message res ∨
  res = RESPONSE_OK ∧ ∃ d, msg = file_header (Z.of_nat (length d)) ++ d.

Lemma spec_get_message v u res msg : spec_get v u = (res, msg) → message_of res msg.
Proof.
  unfold spec_get, message_of. repeat case_match; intros [= <- <-]; auto. right. split; [done|].
  by eexists.
Qed.

(** The buffered part of the body lies in the buffer. *)
Lemma accepted_slice fd conn : conn_ok fd conn → conn_accepted conn →
  Z.max 0 (in_message conn) =
  Z.of_nat (length (slice (buffer conn) (message_start conn) (in_message conn))).
Proof.
  intros [_ Hb _ _ _] [_ Hms Hbr Hin]. unfold slice. rewrite length_take, length_drop, Hb.
  unfold BUFFER_SIZE in *. lia.
Qed.

Section connection.
Context (dir : bytes) (fd c : nat) (w : world) (s : sock) (q : Prop).
Hypothesis Hfd : w_fds w !! fd = Some (OSock c).
Hypothesis Hs : w_socks w !! c = Some s.
Hypothesis Hlog : log_ready w.
Hypothesis Hfree : w_flocks w = ∅.
Hypothesis Hsizes : ∀ p d m, w_fs w !! p = Some (NFile d m) → Z.of_nat (length d) ≤ ULLONG_MAX.

(** [w'] is [w] after a request audited as [conn_line conn res] and answered
    with [msg] (all of it if [q]), which left the tree [fs]. *)
Definition served (conn : Conn) (res : Response) (msg : bytes) (fs : gmap path node)
    (w' : world) : Prop :=
  ∃ got rest k, sk_in s = got ++ rest ∧ message_of res msg ∧ (q → k = length msg) ∧
    w' ≡ log_app (conn_line conn res) (sock_out (set_fs fs (sock_in w c rest)) c (take k msg)).

Lemma answered_served conn res msg fs got rest w' :
  sk_in s = got ++ rest → message_of res msg →
  answered q c msg (conn_line conn res) (set_fs fs (sock_in w c rest)) w' →
  served conn res msg fs w'.
Proof. intros Hin Hm (k & Hw' & Hk). by exists got, rest, k. Qed.

(** The last step: the connection's descriptor is closed. *)
Lemma close_conn w1 v : w1 ≡ v → quiet q c w1 → w_fds v = w_fds w →
  wpt (perform (Close fd)) w1 (λ _ w', quiet q c w' ∧ w' ≡ set_fds (delete fd (w_fds w)) v).
Proof.
  intros Hw1 Hq1 Hv. apply (wpt_close _ _ _ q c _ Hw1 Hq1). intros w2 Hw2 Hq2. split; [done|].
  etrans; [exact Hw2|]. unfold sys_close. by rewrite Hv, Hfd.
Qed.

(** *** The handlers, with the client's stream at [rest] *)

Lemma dispatch_served conn got rest w1 :
  sk_in s = got ++ rest → w1 ≡ sock_in w c rest → quiet q c w1 →
  conn_ok fd conn → conn_accepted conn →
  wpt (match conn_get_request conn with
       | REQUEST_GET => handle_get dir conn
       | REQUEST_PUT => handle_put dir conn
       | REQUEST_UNSUPPORTED => handle_unsupported conn
       end) w1 (λ _ w', quiet q c w' ∧ ∃ res msg fs, served conn res msg fs w').
Proof.
  intros Hin Hw1 Hq1 Hok Hacc. pose proof (ok_fd _ _ Hok) as Hcfd.
  pose proof (accepted_slice _ _ Hok Hacc) as Hsl.
  set (v := sock_in w c rest) in *. set (s1 := Sock rest (sk_eof s) (sk_out s) (sk_faults s)).
  assert (Hfd1 : w_fds v !! connfd conn = Some (OSock c)) by (by rewrite Hcfd).
  assert (Hs1 : w_socks v !! c = Some s1).
  { unfold v, sock_in, upd_sock. cbn. by rewrite lookup_alter, decide_True, Hs by done. }
  unfold conn_get_request. destruct (request conn).
  - eapply wpt_conseq; [by apply (handle_get_spec dir conn v c s1 q)|].
    intros [] w2 [Hq2 (fs & res & msg & _ & Ha & Hm & _)]. split; [done|].
    exists res, msg, fs. apply (answered_served _ _ _ _ got rest); [done| |done].
    destruct Hm as [->|[_ Hm]]; [by left|]. by eapply spec_get_message.
  - eapply wpt_conseq; [by apply (handle_put_spec dir conn v c s1 q _ Hfd1 Hs1 Hlog Hfree Hsl eq_refl)|].
    intros [] w2 [Hq2 (fs & fs' & got' & rest' & res & _ & Hg & _ & Ha & _)]. split; [done|].
    exists res, (response_message res), fs'.
    apply (answered_served _ _ _ _ (got ++ got') rest'); [|by left|].
    + rewrite Hin, <- app_assoc. f_equal. exact Hg.
    + destruct Ha as (k & Hk1 & Hk2). exists k. split; [|done]. etrans; [exact Hk1|].
      unfold v, sock_in. by rewrite upd_sock_upd.
  - unfold handle_unsupported. eapply wpt_conseq; [by apply (respond_spec conn _ w1 v c s1 q)|].
    intros [] w2 [Hq2 Ha]. split; [done|]. eexists _, _, (w_fs w).
    apply (answered_served _ _ _ _ got rest); [done|by left|]. exact Ha.
Qed.

(** Every outcome of a connection. *)
Lemma handle_connection_any : quiet q c w →
  wpt (handle_connection dir fd) w (λ _ w', quiet q c w' ∧ ∃ v, w' ≡ set_fds (delete fd (w_fds w)) v ∧
    ((∃ rest, v = sock_in w c rest ∧ (¬ q ∨ sk_in s = [] ∧ rest = [])) ∨
     (∃ conn res msg fs, conn_ok fd conn ∧ served conn res msg fs v ∧
        (sk_in s = [] → sk_eof s = true → ¬ q)))).
Proof.
  intros Hq. unfold handle_connection, conn_new. apply wpt_bind, wpt_bind.
  destruct (pop_fault w) as [f w1] eqn:Hf.
  destruct (pop_fault_view c q w w f w1 Hf) as (Hw1 & Hq1 & _ & He); [done..|].
  eapply wpt_trigger; [cbn; unfold sys_alloc; by rewrite Hf|]. apply wpt_ret.
  apply pop_fault_spec in Hf as (fl & Heq & _).
  destruct (decide (match f with FErr _ => false | _ => true end = true)) as [->|Hfail].
  2: { destruct f as [| |e]; try done. eapply wpt_conseq; [by apply (close_conn w1 w)|].
       intros [] w2 [Hq2 Hw2]. split; [done|]. exists w. split; [done|]. left. exists (sk_in s).
       rewrite sock_in_id by done. split; [done|]. left. by destruct (He e eq_refl). }
  apply wpt_bind. eapply wpt_conseq.
  { apply (conn_parse_any fd c w1 s q Hq1); by rewrite Heq. }
  intros [conn r] w2 (d & rest & Hd & Hw2 & Hq2 & Hok & Hpost & Hemp & Hemp').
  assert (Hw2' : w2 ≡ sock_in w c rest) by (rewrite Heq in Hw2; exact Hw2). clear Hw2.
  assert (Hs1 : w_socks (sock_in w c rest) !! c = Some (Sock rest (sk_eof s) (sk_out s) (sk_faults s))).
  { unfold sock_in, upd_sock. cbn. by rewrite lookup_alter, decide_True, Hs by done. }
  assert (Hend : ∀ w3 conn res msg fs, conn_ok fd conn → quiet q c w3 →
      served conn res msg fs w3 → (sk_in s = [] → sk_eof s = true → ¬ q) →
      wpt (perform (Close fd)) w3 (λ _ w', quiet q c w' ∧ ∃ v, w' ≡ set_fds (delete fd (w_fds w)) v ∧
        ((∃ rest, v = sock_in w c rest ∧ (¬ q ∨ sk_in s = [] ∧ rest = [])) ∨
         (∃ conn res msg fs, conn_ok fd conn ∧ served conn res msg fs v ∧
            (sk_in s = [] → sk_eof s = true → ¬ q))))).
  { intros w3 conn0 res msg fs Hok0 Hq3 (got & rest' & k & H1 & H2 & H3 & H4) Hne.
    eapply wpt_conseq; [by apply (close_conn w3 _ H4)|].
    intros [] w4 [Hq4 Hw4]. split; [done|]. eexists. split; [exact Hw4|]. right.
    exists conn0, res, msg, fs. split; [done|]. split; [|done]. by exists got, rest', k. }
  destruct r as [res|].
  - destruct (conn_is_empty conn) eqn:Hce.
    + destruct (Hemp eq_refl) as [Hnil _]. rewrite Hnil in Hd.
      symmetry in Hd. apply app_eq_nil in Hd as [-> ->].
      eapply wpt_conseq; [by apply (close_conn w2 _ Hw2')|].
      intros [] w3 [Hq3 Hw3]. split; [done|]. eexists. split; [exact Hw3|]. left. exists []. auto.
    + apply wpt_bind. set (res' := if bool_decide _ then _ else res).
      eapply wpt_conseq.
      { eapply (respond_spec conn res' w2 (sock_in w c rest) c _ q Hw2'); [|exact Hs1|done|done].
        rewrite (ok_fd _ _ Hok). done. }
      intros [] w3 [Hq3 Ha]. apply (Hend w3 conn res' (response_message res') (w_fs w)); try done.
      * apply (answered_served _ _ _ _ d rest); [done|by left|exact Ha].
      * intros Hnil Heof Hh. specialize (Hemp' Hnil Heof Hh). congruence.
  - destruct Hpost as [Hacc _]. apply wpt_bind. eapply wpt_conseq.
    { by apply (dispatch_served conn d rest w2). }
    intros [] w3 [Hq3 (res & msg & fs & Hserved)]. apply (Hend w3 conn res msg fs); try done.
    intros Hnil Heof Hh. specialize (Hemp' Hnil Heof Hh). by destruct (Hemp Hemp').
Qed.

(** A well-formed request without faults reaches its handler. *)
Lemma handle_connection_head m u hs body (Q : unit → world → Prop) : q → quiet q c w →
  sk_in s = request_head m u hs ++ body → wf_request m u hs →
  Z.of_nat (length (request_head m u hs)) ≤ BUFFER_SIZE →
  regexec (Regex false header_pieces) (CRLF ++ body) = None →
  (∀ conn d rest w1, body = d ++ rest → w1 ≡ sock_in w c rest → quiet q c w1 →
     parsed fd m u hs d conn →
     wpt (match line_request m with
          | REQUEST_GET => handle_get dir conn
          | REQUEST_PUT => handle_put dir conn
          | REQUEST_UNSUPPORTED => handle_unsupported conn
          end) w1 (λ _ w2, quiet q c w2 ∧ ∃ v, w2 ≡ v ∧ w_fds v = w_fds w ∧
            ∀ w', w' ≡ set_fds (delete fd (w_fds w)) v → Q tt w')) →
  wpt (handle_connection dir fd) w Q.
Proof.
  intros Hh Hq Hin Hwf Hlen Hno HQ. unfold handle_connection, conn_new. apply wpt_bind, wpt_bind.
  destruct (pop_fault w) as [f w1] eqn:Hf.
  destruct (pop_fault_view c q w w f w1 Hf) as (Hw1 & Hq1 & _ & He); [done..|].
  eapply wpt_trigger; [cbn; unfold sys_alloc; by rewrite Hf|]. apply wpt_ret.
  apply pop_fault_spec in Hf as (fl & Heq & _).
  destruct f as [| |e]; [..|by destruct (He e eq_refl)].
  all: apply wpt_bind; eapply wpt_conseq;
    [apply (conn_parse_head fd c w1 s m u hs body q Hq1); by rewrite ?Heq|].
  all: intros [conn r] w2 [Hq2 [(-> & d & rest & Hb & Hw2 & Hp)|[Hnq _]]]; [|by destruct Hnq].
  all: assert (Hw2' : w2 ≡ sock_in w c rest) by (rewrite Heq in Hw2; exact Hw2).
  all: apply wpt_bind; unfold conn_get_request; rewrite (pd_request _ _ _ _ _ _ Hp).
  all: eapply wpt_conseq; [by apply (HQ conn d rest w2)|].
  all: intros [] w3 (Hq3 & v & Hw3 & Hfds & Hfin).
  all: eapply wpt_conseq; [by apply (close_conn w3 v)|].
  all: intros [] w4 [_ Hw4]; by apply Hfin.
Qed.
End connection.

(** A socket's state has no bearing on open. *)
Lemma do_open_sock p fl w c rest : (do_open p fl (sock_in w c rest)).2 = (do_open p fl w).2.
Proof.
  unfold do_open, new_fd. change (namei (sock_in w c rest) p) with (namei w p).
  destruct (namei w p); [|done]. change (w_fs (sock_in w c rest)) with (w_fs w).
  by repeat case_match.
Qed.

(** The line a request is audited with. *)
Definition request_audit (r : Request) (u : bytes) (hs : list (bytes * bytes)) (res : Response) : bytes :=
  audit_line (request_get_str r) u (response_get_code res)
    (default (B "0") (header_value REQUEST_ID_KEY hs)).

Lemma parsed_line fd m u hs d conn res : parsed fd m u hs d conn →
  conn_line conn res = request_audit (line_request m) u hs res.
Proof.
  intros Hp. unfold conn_line, request_audit.
  by rewrite (pd_request _ _ _ _ _ _ Hp), (pd_uri _ _ _ _ _ _ Hp), (pd_id _ _ _ _ _ _ Hp).
Qed.

(** What the handler of a connection may assume of the world around it. *)
Record at_rest (w : world) (fd c : nat) (s : sock) : Prop := {
  ar_fd : w_fds w !! fd = Some (OSock c);
  ar_sock : w_socks w !! c = Some s;
  ar_log : log_ready w;
  ar_free : w_flocks w = ∅;
  ar_sizes : ∀ p d m, w_fs w !! p = Some (NFile d m) → Z.of_nat (length d) ≤ ULLONG_MAX
}.

(** A well-formed GET without faults. *)
Lemma connection_get dir fd c w s m u hs body : at_rest w fd c s → calm c w →
  sk_in s = request_head m u hs ++ body → wf_request m u hs → line_request m = REQUEST_GET →
  Z.of_nat (length (request_head m u hs)) ≤ BUFFER_SIZE →
  regexec (Regex false header_pieces) (CRLF ++ body) = None →
  let path := lock_path_for dir u 192 in
  wpt (handle_connection dir fd) w (λ _ w', ∃ fs res msg rest, lock_tree w path fs ∧
    (res, msg) = match (do_open path LOCK_FLAGS w).2 with
      | Err _ => (RESPONSE_INTERNAL_SERVER_ERROR, response_message RESPONSE_INTERNAL_SERVER_ERROR)
      | Ok _ => spec_get (set_fs fs w) u
      end ∧
    w' ≡ set_fds (delete fd (w_fds w)) (log_app (request_audit REQUEST_GET u hs res)
           (sock_out (set_fs fs (sock_in w c rest)) c msg))).
Proof.
  intros [Hfd Hs Hlog Hfree Hsizes] Hc Hin Hwf Hget Hlen Hno path.
  apply (handle_connection_head dir fd c w s (calm c w) Hfd Hs m u hs body); auto with http.
  intros conn d rest w1 Hb Hw1 Hq1 Hp. rewrite Hget.
  pose proof (pd_fd _ _ _ _ _ _ Hp) as Hcfd. pose proof (pd_uri _ _ _ _ _ _ Hp) as Huri.
  eapply wpt_conseq.
  { apply (handle_get_spec dir conn (sock_in w c rest) c
      (Sock rest (sk_eof s) (sk_out s) (sk_faults s)) (calm c w)); try done; [by rewrite Hcfd|].
    unfold sock_in, upd_sock. cbn. by rewrite lookup_alter, decide_True, Hs by done. }
  intros [] w2 [Hq2 (fs & res & msg & Htree & (k & Hw2 & Hk) & _ & Hsp)]. split; [done|].
  specialize (Hsp Hc). rewrite do_open_sock, Huri in Hsp. rewrite Huri in Htree. rewrite (Hk Hc), take_ge in Hw2 by lia.
  rewrite (parsed_line _ _ _ _ _ _ _ Hp), Hget in Hw2.
  eexists. split; [exact Hw2|]. split; [done|]. intros w' Hw'.
  exists fs, res, msg, rest. split_and!; try done.
Qed.

(** The body of a parsed request: the first part in the buffer, the length of
    the rest from the Content-Length header. *)
Lemma parsed_body fd m u hs d rest conn : parsed fd m u hs d conn →
  header_value CONTENT_LENGTH_KEY hs = Some (dec (Z.of_nat (length (d ++ rest)))) →
  Z.of_nat (length (d ++ rest)) ≤ LONG_MAX →
  slice (buffer conn) (message_start conn) (in_message conn) = d ∧
  Z.max 0 (in_message conn) = Z.of_nat (length d) ∧
  to_s64 (content_length conn - Z.of_nat (length d)) = Z.of_nat (length rest).
Proof.
  intros Hp Hcl Hmax.
  assert (Hcl' : content_length conn = Z.of_nat (length (d ++ rest))).
  { rewrite (pd_length _ _ _ _ _ _ Hp), Hcl, strtoull_dec, to_s64_id; [done|..];
      unfold LONG_MIN, LONG_MAX, ULLONG_MAX in *; lia. }
  split_and!.
  - rewrite (pd_buffer _ _ _ _ _ _ Hp), (pd_start _ _ _ _ _ _ Hp), (pd_in _ _ _ _ _ _ Hp).
    unfold slice, filled. rewrite !Nat2Z.id, <- app_assoc, drop_app_length. apply take_app_length.
  - rewrite (pd_in _ _ _ _ _ _ Hp). lia.
  - rewrite length_app in *. rewrite Hcl', to_s64_id; unfold LONG_MIN, LONG_MAX in *; lia.
Qed.

(** A well-formed PUT without faults. *)
Lemma connection_put dir fd c w s m u hs body : at_rest w fd c s → calm c w →
  sk_in s = request_head m u hs ++ body → wf_request m u hs → line_request m = REQUEST_PUT →
  header_value CONTENT_LENGTH_KEY hs = Some (dec (Z.of_nat (length body))) →
  Z.of_nat (length body) ≤ LONG_MAX →
  Z.of_nat (length (request_head m u hs)) ≤ BUFFER_SIZE →
  regexec (Regex false header_pieces) (CRLF ++ body) = None →
  let path := lock_path_for dir u 192 in
  wpt (handle_connection dir fd) w (λ _ w', ∃ fs fs' res rest, lock_tree w path fs ∧
    (res, fs') = match (do_open path LOCK_FLAGS w).2 with
      | Err _ => (RESPONSE_INTERNAL_SERVER_ERROR, fs)
      | Ok _ => spec_put (set_fs fs w) u body
      end ∧
    w' ≡ set_fds (delete fd (w_fds w)) (log_app (request_audit REQUEST_PUT u hs res)
           (sock_out (set_fs fs' (sock_in w c rest)) c (response_message res)))).
Proof.
  intros [Hfd Hs Hlog Hfree Hsizes] Hc Hin Hwf Hput Hcl Hmax Hlen Hno path.
  apply (handle_connection_head dir fd c w s (calm c w) Hfd Hs m u hs body); auto with http.
  intros conn d rest w1 Hb Hw1 Hq1 Hp. rewrite Hput.
  pose proof (pd_fd _ _ _ _ _ _ Hp) as Hcfd. pose proof (pd_uri _ _ _ _ _ _ Hp) as Huri.
  rewrite Hb in Hcl, Hmax. destruct (parsed_body _ _ _ _ _ _ _ Hp Hcl Hmax) as (Hslice & Hin' & Hrem).
  set (s1 := Sock rest (sk_eof s) (sk_out s) (sk_faults s)).
  eapply wpt_conseq.
  { apply (handle_put_spec dir conn (sock_in w c rest) c s1 (calm c w) d); try done.
    - by rewrite Hcfd.
    - unfold sock_in, upd_sock. cbn. by rewrite lookup_alter, decide_True, Hs by done. }
  intros [] w2 [Hq2 (fs & fs' & got & rest' & res & Htree & _ & _ & (k & Hw2 & Hk) & Hsp)].
  split; [done|]. specialize (Hsp Hc). rewrite Hrem in Hsp. specialize (Hsp ltac:(right; cbn; lia)).
  unfold put_body in Hsp. change (sk_in s1) with rest in Hsp. rewrite Hrem, Nat2Z.id, take_ge, <- Hb in Hsp by done.
  rewrite do_open_sock, Huri in Hsp. rewrite Huri in Htree. rewrite (Hk Hc), take_ge in Hw2 by lia.
  rewrite (parsed_line _ _ _ _ _ _ _ Hp), Hput in Hw2.
  assert (Hss : set_fs fs' (sock_in (sock_in w c rest) c rest') = set_fs fs' (sock_in w c rest')).
  { unfold sock_in. by rewrite upd_sock_upd. }
  rewrite Hss in Hw2. eexists. split; [exact Hw2|]. split; [done|]. intros w' Hw'.
  exists fs, fs', res, rest'. split_and!; try done.
Qed.

(** *** The two methods together *)

Lemma walk_file fs dir comps p q b m : (∀ m', fs !! p ≠ Some (NDir m')) →
  walk fs dir comps = Ok q → walk (<[p := NFile b m]> fs) dir comps = Ok q.
Proof.
  intros Hp. revert dir. induction comps as [|x comps IH]; intros dir; cbn [walk];
    (destruct (decide (dir = p)) as [->|Hne];
      [destruct (fs !! p) as [[]|] eqn:Hd; try done; by destruct (Hp m0)
      |rewrite lookup_insert_ne by done; destruct (fs !! dir) as [[]|]; try done]).
  destruct (negb (m_x m0)); [done|]. repeat case_bool_decide; [apply IH..|].
  destruct comps; [done|apply IH].
Qed.

(** A file that was PUT is what a GET finds, if it may be read. *)
Lemma spec_put_get v u body fs' res : spec_put v u body = (res, fs') →
  res = RESPONSE_OK ∨ res = RESPONSE_CREATED →
  (∀ p d m, namei v u = Ok p → w_fs v !! p = Some (NFile d m) → m_r m = true) →
  spec_get (set_fs fs' v) u =
    (RESPONSE_OK, file_header (Z.of_nat (length body)) ++ body).
Proof.
  intros Hput Hres Hread. unfold spec_put in Hput.
  destruct (namei v u) as [p|e] eqn:Hn.
  2: { injection Hput as <- _. unfold put_open_error in Hres.
       by repeat case_bool_decide; destruct Hres. }
  assert (Hget : ∀ m, m_r m = true → (∀ m', w_fs v !! p ≠ Some (NDir m')) →
    fs' = <[p := NFile body m]> (w_fs v) →
    spec_get (set_fs fs' v) u = (RESPONSE_OK, file_header (Z.of_nat (length body)) ++ body)).
  { intros m Hm Hp ->. unfold spec_get.
    assert (namei (set_fs (<[p := NFile body m]> (w_fs v)) v) u = Ok p) as ->.
    { unfold namei in *. destruct u; [done|]. by apply walk_file. }
    cbn -[file_header response_message]. by rewrite lookup_insert_eq, Hm. }
  destruct (w_fs v !! p) as [[d m|m|m]|] eqn:Hp; [|by simplify_eq; destruct Hres..|].
  - destruct (m_w m); simplify_eq; [|by destruct Hres].
    apply (Hget m); [by eapply Hread|done|done].
  - destruct (w_fs v !! removelast p) as [[|m|]|]; try by simplify_eq; destruct Hres.
    destruct (m_w m); simplify_eq; [|by destruct Hres]. by apply (Hget (mode_0600 v)).
Qed.

(** The lockfile is there already, and is not the file the URI names. *)
Definition lock_present (w : world) (path u : bytes) : Prop :=
  ∃ lp d m, namei w path = Ok lp ∧ w_fs w !! lp = Some (NFile d m) ∧ m_r m = true ∧
            namei w u ≠ Ok lp.

Lemma lock_present_open w path u : lock_present w path u →
  (do_open path LOCK_FLAGS w).2 = Ok (fd_alloc (w_fds w)) ∧ ∀ fs, lock_tree w path fs → fs = w_fs w.
Proof.
  intros (lp & d & m & Hn & Hlp & Hm & _). split.
  - unfold do_open. rewrite Hn, Hlp. cbn. by rewrite Hm.
  - intros fs [?|(lp' & Hn' & Hnone & _)]; [done|]. congruence.
Qed.

Lemma lock_present_proper w v path u : w ≡ v → lock_present v path u → lock_present w path u.
Proof.
  intros H (lp & d & m & H1 & H2 & H3 & H4). exists lp, d, m.
  by rewrite !(namei_proper _ _ _ H), (w_fs_proper _ _ H).
Qed.

Lemma spec_put_proper w v u body : w ≡ v → spec_put w u body = spec_put v u body.
Proof.
  intros H. unfold spec_put, mode_0600.
  by rewrite (namei_proper _ _ _ H), (w_fs_proper _ _ H), (w_euid_proper _ _ H).
Qed.

Lemma spec_get_proper w v u : w ≡ v → spec_get w u = spec_get v u.
Proof. intros H. unfold spec_get. by rewrite (namei_proper _ _ _ H), (w_fs_proper _ _ H). Qed.

Lemma set_fs_id w : set_fs (w_fs w) w = w.
Proof. by destruct w. Qed.

Lemma spec_put_sizes w u body res fs p d m : spec_put w u body = (res, fs) →
  (∀ p d m, w_fs w !! p = Some (NFile d m) → Z.of_nat (length d) ≤ ULLONG_MAX) →
  Z.of_nat (length body) ≤ ULLONG_MAX → fs !! p = Some (NFile d m) →
  Z.of_nat (length d) ≤ ULLONG_MAX.
Proof.
  unfold spec_put. intros Hput Hs Hb.
  repeat case_match; injection Hput as _ <-; try apply Hs;
    (rewrite lookup_insert; case_decide; [by intros [= <- _]|apply Hs]).
Qed.

(** A PUT leaves the lockfile in place. *)
Lemma lock_present_put w path u body res fs : lock_present w path u →
  spec_put w u body = (res, fs) → lock_present (set_fs fs w) path u.
Proof.
  intros (lp & d & m & Hn & Hlp & Hm & Hne). unfold spec_put.
  destruct (namei w u) as [p|e] eqn:Hu.
  2: { intros [= _ <-]. exists lp, d, m. split_and!; try done. change (namei w u ≠ Ok lp). congruence. }
  assert (Hput : ∀ b mm, (∀ m', w_fs w !! p ≠ Some (NDir m')) →
    lock_present (set_fs (<[p := NFile b mm]> (w_fs w)) w) path u).
  { intros b mm Hp. exists lp, d, m. split_and!; try done.
    - unfold namei in *. destruct path; [done|]. by apply walk_file.
    - cbn. rewrite lookup_insert_ne; [done|]. congruence.
    - assert (namei (set_fs (<[p := NFile b mm]> (w_fs w)) w) u = Ok p) as ->; [|done].
      unfold namei in *. destruct u; [done|]. by apply walk_file. }
  assert (Hsame : lock_present (set_fs (w_fs w) w) path u).
  { exists lp, d, m. split_and!; try done. change (namei w u ≠ Ok lp). congruence. }
  destruct (w_fs w !! p) as [[d' m'|m'|m']|] eqn:Hp; repeat case_match; intros [= _ <-];
    try exact Hsame; by apply Hput.
Qed.

(** The lockfile can be opened, or made where it is not there yet; it is not the
    file the URI names. *)
Definition lockable (w : world) (path u : bytes) : Prop :=
  ∃ lp, namei w path = Ok lp ∧ namei w u ≠ Ok lp ∧
    match w_fs w !! lp with
    | Some (NFile _ m) => m_r m = true
    | None => ∃ m, w_fs w !! removelast lp = Some (NDir m) ∧ m_w m = true
    | _ => False
    end.

Lemma lockable_open w path u : lockable w path u → (do_open path LOCK_FLAGS w).2 = Ok (fd_alloc (w_fds w)).
Proof.
  intros (lp & Hn & _ & Hlp). unfold do_open. rewrite Hn. destruct (w_fs w !! lp) as [[d m|m|m]|]; try done; cbn.
  - by rewrite Hlp.
  - destruct Hlp as (m & -> & Hm). by rewrite Hm.
Qed.

Lemma lockable_proper w v path u : w ≡ v → lockable v path u → lockable w path u.
Proof. intros H (lp & H1). exists lp. by rewrite !(namei_proper _ _ _ H), (w_fs_proper _ _ H). Qed.

(** It stays so when a file is written that is not the lockfile, or the lockfile
    is made. *)
Lemma lockable_file w path u p b m : lockable w path u → namei w u = Ok p → (∀ m', w_fs w !! p ≠ Some (NDir m')) →
  lockable (set_fs (<[p := NFile b m]> (w_fs w)) w) path u.
Proof.
  intros (lp & Hn & Hne & Hlp) Hu Hp. assert (Hpl : p ≠ lp) by congruence. exists lp. split_and!.
  - unfold namei in *. destruct path; [done|]. by apply walk_file.
  - assert (namei (set_fs (<[p := NFile b m]> (w_fs w)) w) u = Ok p) as ->; [|congruence].
    unfold namei in *. destruct u; [done|]. by apply walk_file.
  - cbn. rewrite lookup_insert_ne by done. destruct (w_fs w !! lp) as [[]|]; try done.
    destruct Hlp as (m' & Hd & Hm). exists m'. split; [|done]. rewrite lookup_insert_ne; [done|]. intros ->. by apply (Hp m').
Qed.

Lemma lockable_tree w path u p fs : lockable w path u → namei w u = Ok p → lock_tree w path fs →
  lockable (set_fs fs w) path u ∧ namei (set_fs fs w) u = Ok p ∧ w_fs w ⊆ fs ∧ fs !! p = w_fs w !! p.
Proof.
  intros Hl Hu Hfs. pose proof Hl as (lp & Hn & Hne & _).
  destruct Hfs as [->|(lp' & Hn' & Hno & ->)]; [by rewrite set_fs_id|]. rewrite Hn in Hn'. injection Hn' as <-.
  assert (Hsub : w_fs w ⊆ <[lp := NFile [] (mode_0600 w)]> (w_fs w)) by by apply insert_subseteq.
  assert (Hu' : namei (set_fs (<[lp := NFile [] (mode_0600 w)]> (w_fs w)) w) u = Ok p) by by apply namei_mono.
  split_and!; [|done|done|rewrite lookup_insert_ne; [done|congruence]].
  exists lp. split_and!; [by apply namei_mono|congruence|]. cbn. by rewrite lookup_insert_eq.
Qed.

(** A PUT that succeeds does so whether or not the lockfile is there, and a GET
    then finds the body, whether or not it is. *)
Lemma spec_put_tree w path u body res fs fs1 : lockable w path u → lock_tree w path fs1 →
  spec_put w u body = (res, fs) → res = RESPONSE_OK ∨ res = RESPONSE_CREATED →
  (∀ p d m, namei w u = Ok p → w_fs w !! p = Some (NFile d m) → m_r m = true) →
  ∃ fs', spec_put (set_fs fs1 w) u body = (res, fs') ∧ lockable (set_fs fs' w) path u ∧
    spec_get (set_fs fs' w) u = (RESPONSE_OK, file_header (Z.of_nat (length body)) ++ body).
Proof.
  intros Hl Ht Hput Hres Hread. unfold spec_put in Hput. destruct (namei w u) as [p|e] eqn:Hu.
  2: { injection Hput as <- _. unfold put_open_error in Hres. by repeat case_bool_decide; destruct Hres. }
  destruct (lockable_tree w path u p fs1 Hl Hu Ht) as (Hl1 & Hu1 & Hsub & Hp1).
  assert (Hin : ∀ b m, (∀ m', w_fs w !! p ≠ Some (NDir m')) → lockable (set_fs (<[p := NFile b m]> fs1) w) path u).
  { intros b m Hp. apply (lockable_file (set_fs fs1 w) path u p b m Hl1 Hu1). cbn. by rewrite Hp1. }
  assert (Hsp : ∃ fs', spec_put (set_fs fs1 w) u body = (res, fs') ∧ lockable (set_fs fs' w) path u).
  { unfold spec_put. rewrite Hu1. change (w_fs (set_fs fs1 w)) with fs1. rewrite Hp1.
    destruct (w_fs w !! p) as [[d m|m|m]|] eqn:Hp; [|by simplify_eq; destruct Hres..|].
    - destruct (m_w m); simplify_eq; [|by destruct Hres]. eexists. split; [done|]. by apply Hin.
    - destruct (w_fs w !! removelast p) as [[|m|]|] eqn:Hd; try by simplify_eq; destruct Hres.
      rewrite (lookup_weaken _ _ _ _ Hd Hsub). destruct (m_w m); simplify_eq; [|by destruct Hres].
      eexists. split; [done|]. by apply Hin. }
  destruct Hsp as (fs' & Hsp & Hlk). exists fs'. split_and!; [done|done|].
  apply (spec_put_get (set_fs fs1 w) u body fs' res Hsp Hres). intros p' d m. rewrite Hu1. intros [= <-].
  cbn. rewrite Hp1. by apply Hread.
Qed.

Lemma spec_get_tree w path u fs msg : lockable w path u → lock_tree w path fs →
  spec_get w u = (RESPONSE_OK, msg) → spec_get (set_fs fs w) u = (RESPONSE_OK, msg).
Proof.
  intros Hl Ht. unfold spec_get. destruct (namei w u) as [p|e] eqn:Hu.
  - destruct (lockable_tree w path u p fs Hl Hu Ht) as (_ & -> & _ & Hp). cbn. by rewrite Hp.
  - unfold get_open_error. by repeat case_bool_decide.
Qed.

(** ** Properties *)

(** C7. Serving a GET, from the first byte to the close: when a client sends a
    well-formed GET request whose head fits the buffer, with no body or one in
    which no text reads like a header field, and no call fails, those on the
    audit stream included, the server answers exactly what [spec_get] says -- the
    file with its length, or the error status for its reason --, appends exactly
    one audit line with the method, the URI, that status and the Request-Id,
    leaves every file as it was (a lockfile may be new), and closes the
    connection with every lock and descriptor given back. *)
Theorem handle_connection_get dir fd c w s m u hs body : at_rest w fd c s → calm c w →
  sk_in s = request_head m u hs ++ body → wf_request m u hs → line_request m = REQUEST_GET →
  Z.of_nat (length (request_head m u hs)) ≤ BUFFER_SIZE →
  regexec (Regex false header_pieces) (CRLF ++ body) = None →
  let path := lock_path_for dir u 192 in
  wpt (handle_connection dir fd) w (λ _ w', ∃ fs res msg rest, lock_tree w path fs ∧
    (res, msg) = match (do_open path LOCK_FLAGS w).2 with
      | Err _ => (RESPONSE_INTERNAL_SERVER_ERROR, response_message RESPONSE_INTERNAL_SERVER_ERROR)
      | Ok _ => spec_get (set_fs fs w) u
      end ∧
    w' ≡ set_fds (delete fd (w_fds w)) (log_app (request_audit REQUEST_GET u hs res)
           (sock_out (set_fs fs (sock_in w c rest)) c msg))).
Proof. apply connection_get. Qed.

(** C6. Serving a PUT, from the first byte to the close.  The request is
    well-formed, its head fits the buffer and declares the length of the body,
    the body holds no text that reads like a header field (such text is taken for
    one, C36, and the file then does not get the body), and no call fails, those
    on the audit stream included.  Then, however the body is divided between the
    head's buffer and later segments, the file tree becomes exactly [spec_put]'s
    -- the named file holds the body and nothing else changed (but for the
    lockfile), or, if it may not be written, nothing --, the answer and the one
    audit line carry the status of [spec_put] (201 for a new file, 200 for an old
    one, 403 or 500 with the reason), and the connection is closed with every
    lock and descriptor given back. *)
Theorem handle_connection_put dir fd c w s m u hs body : at_rest w fd c s → calm c w →
  sk_in s = request_head m u hs ++ body → wf_request m u hs → line_request m = REQUEST_PUT →
  header_value CONTENT_LENGTH_KEY hs = Some (dec (Z.of_nat (length body))) →
  Z.of_nat (length body) ≤ LONG_MAX →
  Z.of_nat (length (request_head m u hs)) ≤ BUFFER_SIZE →
  regexec (Regex false header_pieces) (CRLF ++ body) = None →
  let path := lock_path_for dir u 192 in
  wpt (handle_connection dir fd) w (λ _ w', ∃ fs fs' res rest, lock_tree w path fs ∧
    (res, fs') = match (do_open path LOCK_FLAGS w).2 with
      | Err _ => (RESPONSE_INTERNAL_SERVER_ERROR, fs)
      | Ok _ => spec_put (set_fs fs w) u body
      end ∧
    w' ≡ set_fds (delete fd (w_fds w)) (log_app (request_audit REQUEST_PUT u hs res)
           (sock_out (set_fs fs' (sock_in w c rest)) c (response_message res)))).
Proof. apply connection_put. Qed.

(** C8. One request, one line, nothing leaked: whatever a client sends, in
    whatever segments, and whatever calls fail other than those on the audit
    stream (with which C3 and C13 deal), handle_connection returns; the
    connection's descriptor is closed and every other descriptor, every lock
    and the log's mutex are as before.  It either stays silent (nothing sent,
    nothing audited), which happens only when the client sent nothing or memory
    ran out, or it appends exactly one audit line and sends a prefix of the one
    message that belongs to the status in that line, the whole message if no
    call fails. *)
Theorem handle_connection_once dir fd c w s : at_rest w fd c s →
  wpt (handle_connection dir fd) w (λ _ w', ∃ v, w' ≡ set_fds (delete fd (w_fds w)) v ∧
    ((∃ rest, v = sock_in w c rest ∧ (¬ calm c w ∨ sk_in s = [] ∧ rest = [])) ∨
     (∃ conn res msg fs got rest k, conn_ok fd conn ∧ sk_in s = got ++ rest ∧
        message_of res msg ∧ (calm c w → k = length msg) ∧
        v ≡ log_app (conn_line conn res)
              (sock_out (set_fs fs (sock_in w c rest)) c (take k msg)) ∧
        (sk_in s = [] → sk_eof s = true → ¬ calm c w)))).
Proof.
  intros [Hfd Hs Hlog Hfree Hsizes].
  eapply wpt_conseq; [apply (handle_connection_any dir fd c w s (calm c w)); auto with http|].
  intros [] w' (_ & v & Hw' & Hv). exists v. split; [done|].
  destruct Hv as [?|(conn & res & msg & fs & Hok & (got & rest & k & H1 & H2 & H3 & H4) & H5)];
    [by left|]. right. by exists conn, res, msg, fs, got, rest, k.
Qed.

(** C15. A file that was PUT is what a GET returns: one client PUTs a body to a URI
    and is told success (200, or 201 for a file that is new), then another client
    GETs the same URI, no call failing; it is sent status 200, the length of the
    body and exactly the body, and the audit log has gained the two lines in that
    order.  The requests are well-formed and their heads fit the buffer; the PUT
    declares the length of its body, in which no text reads like a header field
    (such text is taken for one, C36); the lockfile of the URI can be opened, or
    made if it is not there yet, and is not the file the URI names; and the file,
    if it is there, may be read. *)
Theorem put_then_get dir fd1 c1 s1 fd2 c2 s2 w mp mg u hp hg body res fs :
  at_rest w fd1 c1 s1 → serene w → w_fds w !! fd2 = Some (OSock c2) → w_socks w !! c2 = Some s2 →
  c1 ≠ c2 → fd1 ≠ fd2 → lockable w (lock_path_for dir u 192) u →
  sk_in s1 = request_head mp u hp ++ body → wf_request mp u hp → line_request mp = REQUEST_PUT →
  header_value CONTENT_LENGTH_KEY hp = Some (dec (Z.of_nat (length body))) →
  Z.of_nat (length body) ≤ LONG_MAX → Z.of_nat (length (request_head mp u hp)) ≤ BUFFER_SIZE →
  regexec (Regex false header_pieces) (CRLF ++ body) = None →
  sk_in s2 = request_head mg u hg → wf_request mg u hg → line_request mg = REQUEST_GET →
  Z.of_nat (length (request_head mg u hg)) ≤ BUFFER_SIZE →
  spec_put w u body = (res, fs) → res = RESPONSE_OK ∨ res = RESPONSE_CREATED →
  (∀ p d m, namei w u = Ok p → w_fs w !! p = Some (NFile d m) → m_r m = true) →
  wpt (handle_connection dir fd1) w (λ _ w1,
    wpt (handle_connection dir fd2) w1 (λ _ w2, ∃ s2',
      w_socks w2 !! c2 = Some s2' ∧
      sk_out s2' = sk_out s2 ++ file_header (Z.of_nat (length body)) ++ body ∧
      w_log_out w2 = w_log_out w ++ request_audit REQUEST_PUT u hp res ++
                     request_audit REQUEST_GET u hg RESPONSE_OK)).
Proof.
  intros Hrest Hc1 Hfd2 Hs2 Hc Hfd Hlock Hin1 Hwf1 Hput Hcl Hmax Hlen1 Hno Hin2 Hwf2 Hget Hlen2
    Hspec Hres Hread.
  eapply wpt_conseq; [by eapply (wpt_serene _ _ _ Hc1), (connection_put dir fd1 c1 w s1 mp u hp body)|].
  intros [] w1 [(fs1 & fs1' & res1 & rest1 & Ht1 & Hr1 & Hw1) Hc2].
  destruct (spec_put_tree w _ u body res fs fs1 Hlock Ht1 Hspec Hres Hread) as (fs' & Hsp1 & Hlk1 & Hg).
  rewrite (lockable_open _ _ _ Hlock), Hsp1 in Hr1. injection Hr1 as -> ->.
  assert (Hsk : ∃ s2', w_socks w1 !! c2 = Some s2' ∧ unfault s2' = unfault s2).
  { apply (equiv_sock _ _ _ _ Hw1). cbn. by rewrite !lookup_alter_ne by done. }
  destruct Hsk as (s2' & Hs2' & [= Hin2' _ Hout2']).
  assert (Hrest2 : at_rest w1 fd2 c2 s2').
  { destruct Hrest as [_ _ [Hlog Hlf] Hfree Hsizes]. split; [|done|..].
    - rewrite (w_fds_proper _ _ Hw1). cbn. by rewrite lookup_delete_ne.
    - apply (log_ready_proper _ _ Hw1). split; [|done]. split; [done|]. split; [done|]. apply Hlog.
    - by rewrite (w_flocks_proper _ _ Hw1).
    - intros p d m. rewrite (w_fs_proper _ _ Hw1). cbn. apply (spec_put_sizes (set_fs fs1 w) u body res fs' _ _ _ Hsp1).
      + by apply (lock_tree_sizes w (lock_path_for dir u 192) fs1).
      + unfold LONG_MAX, ULLONG_MAX in *. lia. }
  eapply wpt_conseq.
  { eapply (connection_get dir fd2 c2 w1 s2' mg u hg []); try done.
    by rewrite Hin2', Hin2, app_nil_r. }
  intros [] w2 (fs2 & res2 & msg2 & rest2 & Ht2 & Hr2 & Hw2).
  assert (Hlk : lockable w1 (lock_path_for dir u 192) u) by (by apply (lockable_proper _ _ _ _ Hw1)).
  rewrite (lockable_open _ _ _ Hlk), (spec_get_tree w1 _ u fs2 (file_header (Z.of_nat (length body)) ++ body) Hlk Ht2) in Hr2
    by (rewrite (spec_get_proper _ _ _ Hw1); exact Hg).
  injection Hr2 as -> ->.
  destruct (equiv_sock _ _ c2 (Sock rest2 (sk_eof s2') (sk_out s2' ++
    file_header (Z.of_nat (length body)) ++ body) (sk_faults s2')) Hw2) as (s3 & Hs3 & [= _ _ Ho3]).
  { cbn. rewrite lookup_alter, decide_True, lookup_alter, decide_True, Hs2' by done. done. }
  exists s3. split; [done|]. rewrite Ho3, Hout2'. split; [done|].
  rewrite (w_log_out_proper _ _ Hw2). cbn. rewrite (w_log_out_proper _ _ Hw1). cbn.
  by rewrite <- app_assoc.
Qed.

(** ** Instances *)

Lemma demo_at_rest input fs fl :
  at_rest (demo_world input fs fl) 5 0 (Sock input true [] fs).
Proof.
  split; try done. intros p d m Hp%demo_sizes. unfold ULLONG_MAX. lia.
Qed.

Definition demo_get : bytes := request_head (B "GET") (B "a.txt") [(B "Request-Id", B "9")].
Definition demo_put : bytes :=
  request_head (B "PUT") (B "new.txt") [(B "Content-Length", B "5"); (B "Request-Id", B "10")].

Lemma handle_connection_get_witness :
  wpt (handle_connection demo_dir 5) (demo_world demo_get [FShort 7; FShort 1] [])
    (λ _ w', ∃ res, w_log_out w' = audit_line (B "GET") (B "a.txt") (response_get_code res) (B "9")).
Proof.
  eapply wpt_conseq.
  - apply (handle_connection_get demo_dir 5 0 _ _ (B "GET") (B "a.txt") [(B "Request-Id", B "9")] []
      (demo_at_rest demo_get [FShort 7; FShort 1] [])).
    + by apply demo_calm; repeat constructor.
    + by rewrite app_nil_r.
    + apply (bool_decide_unpack _). vm_compute. exact I.
    + reflexivity.
    + vm_compute. discriminate.
    + vm_compute. reflexivity.
  - intros [] w' (fs & res & msg & rest & _ & _ & Hw'). exists res.
    rewrite (w_log_out_proper _ _ Hw'). reflexivity.
Defined.

Lemma handle_connection_put_witness :
  wpt (handle_connection demo_dir 5) (demo_world (demo_put ++ B "hello") [FShort 3; FShort 75] [])
    (λ _ w', ∃ res, w_log_out w' = audit_line (B "PUT") (B "new.txt") (response_get_code res) (B "10")).
Proof.
  eapply wpt_conseq.
  - apply (handle_connection_put demo_dir 5 0 _ _ (B "PUT") (B "new.txt")
      [(B "Content-Length", B "5"); (B "Request-Id", B "10")] (B "hello")
      (demo_at_rest (demo_put ++ B "hello") [FShort 3; FShort 75] [])).
    + by apply demo_calm; repeat constructor.
    + reflexivity.
    + apply (bool_decide_unpack _). vm_compute. exact I.
    + reflexivity.
    + reflexivity.
    + vm_compute. discriminate.
    + vm_compute. discriminate.
    + vm_compute. reflexivity.
  - intros [] w' (fs & fs' & res & rest & _ & _ & Hw'). exists res.
    rewrite (w_log_out_proper _ _ Hw'). reflexivity.
Defined.

Lemma handle_connection_once_witness :
  wpt (handle_connection demo_dir 5)
    (demo_world (B "PUT /x HTTP/1.0") [FShort 4; FErr EPIPE] [FShort 0; FErr ENOSPC])
    (λ _ w', w_fds w' = ∅).
Proof.
  eapply wpt_conseq.
  - apply (handle_connection_once demo_dir 5 0 _ _
      (demo_at_rest (B "PUT /x HTTP/1.0") [FShort 4; FErr EPIPE] [FShort 0; FErr ENOSPC])).
  - intros [] w' (v & Hw' & _). rewrite (w_fds_proper _ _ Hw'). reflexivity.
Defined.


(** Two clients, and the lockfile of new.txt. *)
Definition demo_hs : list (bytes * bytes) := [(B "Content-Length", B "5"); (B "Request-Id", B "10")].
Definition demo_two : world :=
  let w := demo_world (demo_put ++ B "hello") [FShort 3; FShort 75] [] in
  set_fds (<[6%nat := OSock 1]> (w_fds w))
    (set_socks (<[1%nat := Sock (request_head (B "GET") (B "new.txt") []) true [] [FShort 9]]> (w_socks w))
       (set_fs (<[[B "tmp"; LOCKS; B "new.txt"] := NFile [] rw]> (w_fs w)) w)).

Lemma demo_two_sizes p d m : w_fs demo_two !! p = Some (NFile d m) →
  Z.of_nat (length d) ≤ ULLONG_MAX.
Proof.
  unfold demo_two. cbn [w_fs set_fds set_socks set_fs demo_world]. rewrite lookup_insert.
  case_decide; [intros [= <- _]; done|]. intros Hp%demo_sizes. unfold ULLONG_MAX. lia.
Qed.

Lemma demo_two_serene : serene demo_two.
Proof.
  apply serene_map; [constructor|].
  change (w_socks demo_two) with (<[1%nat := Sock (request_head (B "GET") (B "new.txt") []) true [] [FShort 9]]>
    ({[0%nat := Sock (demo_put ++ B "hello") true [] [FShort 3; FShort 75]]} : gmap nat sock)).
  apply map_Forall_insert_2; [by repeat constructor|]. apply map_Forall_singleton. by repeat constructor.
Qed.

(** The same before anybody asked for new.txt: its lockfile is not there. *)
Definition demo_first : world := set_fs demo_fs demo_two.

Lemma put_then_get_witness :
  wpt (handle_connection demo_dir 5) demo_first (λ _ w1,
    wpt (handle_connection demo_dir 6) w1 (λ _ w2, ∃ s, w_socks w2 !! 1%nat = Some s ∧
      sk_out s = B "HTTP/1.1 200 OK" ++ CRLF ++ B "Content-Length: 5" ++ CRLF ++ CRLF ++ B "hello")).
Proof.
  eapply wpt_conseq.
  - apply (put_then_get demo_dir 5 0 (Sock (demo_put ++ B "hello") true [] [FShort 3; FShort 75]) 6 1
      (Sock (request_head (B "GET") (B "new.txt") []) true [] [FShort 9]) demo_first
      (B "PUT") (B "GET") (B "new.txt") demo_hs [] (B "hello") RESPONSE_CREATED
      (<[srv ++ [B "new.txt"] := NFile (B "hello") (mode_0600 demo_two)]> demo_fs)).
    + split; [reflexivity|reflexivity|by vm_compute|reflexivity|].
      intros p d m Hp%demo_sizes. unfold ULLONG_MAX. lia.
    + exact demo_two_serene.
    + reflexivity.
    + reflexivity.
    + done.
    + done.
    + exists [B "tmp"; LOCKS; B "new.txt"]. split_and!; [reflexivity|by vm_compute|].
      exists rwx. split; reflexivity.
    + reflexivity.
    + apply (bool_decide_unpack _). vm_compute. exact I.
    + reflexivity.
    + reflexivity.
    + vm_compute. discriminate.
    + vm_compute. discriminate.
    + vm_compute. reflexivity.
    + reflexivity.
    + apply (bool_decide_unpack _). vm_compute. exact I.
    + reflexivity.
    + vm_compute. discriminate.
    + reflexivity.
    + by right.
    + intros p d m. vm_compute. by intros [= <-].
  - intros [] w1 H. eapply wpt_conseq; [exact H|].
    intros [] w2 (s & Hs & Ho & _). exists s. split; [exact Hs|exact Ho].
Defined.
