(* ===== verification/Quirks.v ===== *)
(** * Behaviours of the server a reader should know of

    Where the code does what one might not expect of it, as theorems about every
    request of the kind: what a body is read as, where a URI can lead, what a
    lock does not exclude, and which letters of a method count. *)
From S2P Require Import Prelude Libc Regex Http Prog Posix Util.
From S2P Require Import Demo Connection Log Server Parsing Transfer Locks Handlers Serve.
Local Open Scope Z_scope.
Local Open Scope prog_scope.

(** ** Bodies that look like headers *)

(** A byte that starts no key is skipped in the search for a field. *)
Lemma search_skip c s : cset_mem (pc_set key_piece) c = false →
  search header_pieces (c :: s) =
  match search header_pieces s with Some (off, v) => Some (S off, v) | None => None end.
Proof.
  intros Hc. cbn [search]. destruct (longest (matches header_pieces (c :: s))) as [v|] eqn:Hl; [|done]. exfalso.
  apply longest_spec in Hl as [(h & sp & rest & [(Hk1 & _ & Hk) _] & _ & Heq & _)%matches_spec%header_vec_ok _].
  destruct (h.1) as [|k key]; cbn in Hk1, Heq; [lia|]. injection Heq as -> _.
  inversion_clear Hk as [|? ? Hk' _]. cbn in Hk'. cbn in Hc. congruence.
Qed.

(** A field behind a line end is found there. *)
Lemma regexec_blank_header h rest : wf_header h →
  regexec (Regex false header_pieces) (CRLF ++ header_line h ++ rest) =
  Some [(2, 2 + length (header_line h)); (2, 2 + length h.1);
        (2 + (length h.1 + 2), 2 + (length h.1 + 2) + length h.2)]%nat.
Proof.
  intros Hwf. unfold regexec. cbn [re_anchored re_pieces].
  rewrite cstr_app by (by apply (bool_decide_unpack _); vm_compute). cbn [CRLF app].
  rewrite !search_skip by reflexivity. rewrite cstr_app by by apply header_line_no_nul.
  rewrite search_header_line by done.
  destruct h as [k v]. unfold header_vec, header_line, total. cbn. len. cbn. f_equal. pairs_eq.
Qed.

Lemma header_field_shift conn a s m1 m2 :
  header_field conn (a ++ s) (length a + m1.1, length a + m1.2)%nat (length a + m2.1, length a + m2.2)%nat =
  header_field conn s m1 m2.
Proof.
  unfold header_field, matched. cbn [fst snd]. rewrite !drop_app_add.
  by replace (length a + m1.2 - (length a + m1.1))%nat with (m1.2 - m1.1)%nat by lia;
    replace (length a + m2.2 - (length a + m2.1))%nat with (m2.2 - m2.1)%nat by lia.
Qed.

(** The loop runs over the blank line into the fields [hs'] of the body. *)
Lemma header_loop_over hs h hs' tail fuel conn : Forall wf_header hs → wf_header h → Forall wf_header hs' →
  (length hs + length hs' + 1 < fuel)%nat → regexec (Regex false header_pieces) tail = None →
  header_loop fuel (Regex false header_pieces) (header_text hs ++ CRLF ++ header_text (h :: hs') ++ tail) conn 0 =
  (foldl apply_header conn (hs ++ h :: hs'), length (header_text hs) + 2 + length (header_text (h :: hs')))%nat.
Proof.
  intros Hhs Hh Hhs' Hf Hno. replace fuel with (length hs + S (fuel - S (length hs)))%nat by lia.
  pose proof (header_loop_lines hs (CRLF ++ header_text (h :: hs') ++ tail) (S (fuel - S (length hs))) conn [] Hhs) as Hl.
  cbn [app length Nat.add] in Hl. rewrite Hl. clear Hl. cbn [header_loop]. rewrite drop_app_length.
  change (header_text (h :: hs')) with (header_line h ++ header_text hs').
  rewrite <- (app_assoc (header_line h)), regexec_blank_header by done.
  rewrite (header_field_shift _ CRLF _ (0, length h.1) (length h.1 + 2, length h.1 + 2 + length h.2))%nat.
  rewrite header_field_line by done. cbn [fst snd].
  set (pre := header_text hs ++ CRLF ++ header_line h).
  replace (header_text hs ++ CRLF ++ header_line h ++ header_text hs' ++ tail) with (pre ++ header_text hs' ++ tail)
    by (unfold pre; by rewrite <- !app_assoc).
  replace (length (header_text hs) + (2 + length (header_line h)))%nat with (length pre) by (unfold pre; len; cbn; lia).
  rewrite header_loop_text by (done || lia). rewrite foldl_app. cbn [foldl]. f_equal. unfold pre. len. cbn. lia.
Qed.

(** What comes in one segment is read in one go. *)
Lemma read_until_at_once fd c w s buf n needle : w_fds w !! fd = Some (OSock c) → w_socks w !! c = Some s →
  sk_faults s = [] → needle ≠ [] → (∃ pre post, sk_in s = pre ++ needle ++ post) →
  Z.of_nat (length (sk_in s)) ≤ n → n ≤ Z.of_nat (length buf) →
  wpt (read_until fd buf n (Some needle)) w (λ r w',
    r = (Ok (Z.of_nat (length (sk_in s))), store buf 0 (sk_in s)) ∧ w' = sock_in w c []).
Proof.
  intros Hfd Hs Hfl Hne Hneedle Hn Hbuf. unfold read_until. cbn [default from_option id].
  assert (Hpos : (0 < length (sk_in s))%nat).
  { destruct Hneedle as (pre & post & ->). destruct needle; [done|]. rewrite length_app. cbn. lia. }
  apply wpt_iter_step. rewrite (proj2 (Z.ltb_lt 0 n)) by lia. apply wpt_bind.
  unfold read_retry. apply wpt_iter_step. apply wpt_bind.
  assert (Hread : sys (Read fd (Z.to_nat (n - 0))) w = Some (sock_in w c [], Ok (sk_in s))).
  { cbn. unfold sys_read. rewrite Hfd, Hs. unfold sock_read, sock_fault. rewrite Hfl.
    destruct (sk_in s) as [|x inp] eqn:Hin; [cbn in Hpos; lia|]. cbn [transfer].
    rewrite Nat.min_r, drop_ge, take_ge by (rewrite ?Nat.min_r; lia || done). do 2 f_equal. unfold sock_in, upd_sock. f_equal.
    apply map_eq. intros i. rewrite lookup_insert, lookup_alter. case_decide; [subst|done]. rewrite Hs. cbn. by rewrite Hfl. }
  eapply wpt_trigger; [exact Hread|]. apply wpt_ret. destruct (sk_in s) as [|x inp]; [cbn in Hpos; lia|].
  change (Z.to_nat 0) with 0%nat. rewrite Z.add_0_l, Nat2Z.id.
  assert (needle_found (store buf 0 (x :: inp)) (length (x :: inp)) needle = true) as ->; [|by apply wpt_ret].
  apply needle_found_spec; [done|rewrite length_store; lia|].
  by rewrite (take_store buf 0 (x :: inp) (Nat.le_0_l _) : take (length (x :: inp)) _ = _).
Qed.

(** parse_headers when the body starts with fields. *)
Lemma parse_headers_over conn w q c pre hs h hs' tail n Q : quiet q c w →
  buffer conn = pre ++ header_text hs ++ CRLF ++ (header_text (h :: hs') ++ tail) ++ replicate n NUL →
  message_start conn = Z.of_nat (length pre) → Forall wf_header (hs ++ h :: hs') →
  regexec (Regex false header_pieces) tail = None →
  (∀ w', w' ≡ w → quiet q c w' →
     Q (set_message_start (Z.of_nat (length pre + length (header_text hs) + length (header_text (h :: hs')) + 4))
          (foldl apply_header conn (hs ++ h :: hs')), None) w' ∧
     (¬ q → Q (conn, Some RESPONSE_INTERNAL_SERVER_ERROR) w')) →
  wpt (parse_headers conn) w Q.
Proof.
  intros Hq Hbuf Hms [Hhs [Hh Hhs']%Forall_cons]%Forall_app Hno HQ. unfold parse_headers. apply wpt_bind.
  apply (wpt_compile _ _ q c); [done|]. intros w' Hw Hq'. rewrite regcomp_header.
  destruct (HQ w' Hw Hq') as [H1 H2]. split; [|intros ?; apply wpt_ret; auto].
  rewrite Hms, Nat2Z.id, Hbuf, drop_app_length, <- (app_assoc (header_text (h :: hs'))).
  rewrite header_loop_over; try done.
  - apply wpt_ret. destruct (apply_headers_fields conn (hs ++ h :: hs')) as (_ & _ & _ & -> & _). rewrite Hms.
    replace (Z.of_nat (length pre) + _)
      with (Z.of_nat (length pre + length (header_text hs) + length (header_text (h :: hs')) + 4)) by lia. exact H1.
  - pose proof (header_text_length hs). pose proof (header_text_length (h :: hs')). cbn [length] in *. len.
  - unfold regexec in *. cbn [re_anchored re_pieces] in *. by rewrite cstr_pad.
Qed.

Lemma slice_skip (a t p : bytes) start n : start = Z.of_nat (length a + 2) → n = Z.of_nat (length a + length t) →
  slice (a ++ t ++ p) start (n - start) = drop 2 t.
Proof.
  intros -> ->. unfold slice. rewrite Nat2Z.id, drop_app_add.
  replace (Z.to_nat _) with (length (drop 2 t)) by (rewrite length_drop; lia).
  destruct (decide (2 ≤ length t)%nat); [by rewrite drop_app_le, take_app_length|].
  by rewrite (drop_ge t) by lia.
Qed.

(** C36. The header loop does not stop at the blank line: when the body of a
    request that arrives in one segment starts with text of the form of header
    fields, those lines count as headers of the request, however many they are
    and whatever the real headers say.  The last Content-Length and Request-Id
    of head and body together are the ones that are used, and what is taken for
    the body is what follows the lines, less its first two bytes.  (The request
    is well-formed, as are the lines, it fits the buffer, no further text that
    reads like a header field follows the lines, and no call fails.) *)
Theorem parse_headers_reads_body fd c w s m u hs h hs' tail : calm c w →
  w_fds w !! fd = Some (OSock c) → w_socks w !! c = Some s → sk_faults s = [] →
  sk_in s = request_head m u hs ++ header_text (h :: hs') ++ tail → wf_request m u (hs ++ h :: hs') →
  Z.of_nat (length (sk_in s)) ≤ BUFFER_SIZE → regexec (Regex false header_pieces) tail = None →
  wpt (conn_parse (fresh_conn fd)) w (λ '(conn, r) w', r = None ∧ w' ≡ sock_in w c [] ∧
    request conn = line_request m ∧ uri conn = u ∧
    content_length conn = match header_value CONTENT_LENGTH_KEY (hs ++ h :: hs') with
      | Some v => to_s64 (strtoull v) | None => 0 end ∧
    request_id conn = default (B "0") (header_value REQUEST_ID_KEY (hs ++ h :: hs')) ∧
    slice (buffer conn) (message_start conn) (in_message conn) = drop 2 tail).
Proof.
  intros Hc Hfd Hs Hfl Hin (Hm & Hu & Hall) Hlen Hno. unfold conn_parse. apply wpt_bind.
  set (body := header_text (h :: hs') ++ tail) in *. set (head := request_head m u hs) in *.
  eapply wpt_conseq.
  { apply (read_until_at_once fd c w s _ BUFFER_SIZE (CRLF ++ CRLF)); try done.
    rewrite Hin. destruct (request_head_ends m u hs) as [pre Hpre]. exists pre, body.
    unfold head. by rewrite Hpre, <- app_assoc. }
  intros [r buf] w1 [[-> ->]%pair_equal_spec ->]. rewrite Hin in *.
  destruct (store_fresh (head ++ body)) as [Hst1 Hst2]; [lia|].
  change (buffer (fresh_conn fd)) with (buffer (fresh_conn 0)). rewrite Hst1.
  destruct (Z.eqb_spec (Z.of_nat (length (head ++ body))) 0) as [H0|_].
  { unfold head in H0. destruct (request_head_ends m u hs) as [pre Hpre]. rewrite Hpre in H0. len. cbn in H0. lia. }
  cbn [set_bytes_read set_buffer buffer]. rewrite Nat2Z.id, Hst2. apply wpt_bind.
  assert (Hq : quiet (calm c w) c (sock_in w c [])).
  { intros _. destruct Hc as [H1 H2]. split; [exact H1|]. intros s'. unfold sock_in, upd_sock. cbn.
    rewrite lookup_alter, decide_True, Hs by done. intros [= <-]. cbn. by rewrite Hfl. }
  assert (Hhs : Forall wf_header hs) by (by apply Forall_app in Hall as [? _]).
  apply (process_request_text fd _ (calm c w) c m u hs body); [done|done| |by intros ? _ _ []].
  intros conn1 w1 Hw1 Hq1 Hconn1 Hbuf. eapply (parse_headers_over _ _ (calm c w) c _ hs h hs' tail);
    [done|exact Hbuf|by rewrite Hconn1|done|done|].
  intros w2 Hw2 Hq2. split; [|by intros []]. apply wpt_ret. set (all := hs ++ h :: hs') in *.
  set (start := Z.of_nat (_ + _ + _ + 4)).
  destruct (apply_headers_fields conn1 all) as (_ & Hf2 & Hf3 & _ & _ & Hf6 & Hf7).
  destruct (apply_headers_values conn1 all) as [Hv1 Hv2].
  cbn [request uri content_length request_id buffer message_start in_message bytes_read set_in_message set_message_start].
  rewrite Hf2, Hf3, Hf6, Hf7, Hv1, Hv2, Hbuf, Hconn1. split_and!; try done; [by transitivity w1|].
  set (pad := replicate _ NUL). unfold body. set (a := request_line m u (B "1") "."%char (B "1") ++ header_text hs ++ CRLF ++ header_text (h :: hs')).
  replace (_ ++ header_text hs ++ CRLF ++ (header_text (h :: hs') ++ tail) ++ pad) with (a ++ tail ++ pad)
    by (unfold a; by rewrite <- !app_assoc).
  apply slice_skip.
  - unfold start, a. len. cbn. lia.
  - cbn [bytes_read set_message_start set_uri set_request set_bytes_read]. unfold a, head, body, request_head. len.
Qed.

(** A body of 24 bytes that says that there are 3. *)
Definition demo_body : bytes := header_line (B "Content-Length", B "3") ++ B "hello".
Definition demo_body_input : bytes := request_head (B "PUT") (B "f") [(B "Content-Length", B "24")] ++ demo_body.

Lemma parse_headers_reads_body_witness :
  wpt (conn_parse (fresh_conn 5)) (demo_world demo_body_input [] []) (λ '(conn, r) w', r = None ∧
    content_length conn = 3 ∧ slice (buffer conn) (message_start conn) (in_message conn) = B "llo").
Proof.
  eapply wpt_conseq.
  - apply (parse_headers_reads_body 5 0 _ (Sock demo_body_input true [] []) (B "PUT") (B "f")
      [(B "Content-Length", B "24")] (B "Content-Length", B "3") [] (B "hello")).
    + by apply demo_calm.
    + reflexivity.
    + reflexivity.
    + reflexivity.
    + reflexivity.
    + apply (bool_decide_unpack _). vm_compute. exact I.
    + vm_compute. discriminate.
    + vm_compute. reflexivity.
  - intros [conn r] w' (-> & _ & _ & _ & Hcl & _ & Hsl). split; [done|]. split; [exact Hcl|exact Hsl].
Defined.

(** ** Where a URI leads *)

(** What a client was sent and what was audited, on top of [w]. *)
Definition got_answer (c : nat) (s : sock) (msg line : bytes) (w w' : world) : Prop :=
  ∃ s', w_socks w' !! c = Some s' ∧ sk_out s' = sk_out s ++ msg ∧ w_log_out w' = w_log_out w ++ line.

Lemma answer_of w c s rest fs msg line fds w' : w_socks w !! c = Some s →
  w' ≡ set_fds fds (log_app line (sock_out (set_fs fs (sock_in w c rest)) c msg)) → got_answer c s msg line w w'.
Proof.
  intros Hs Hw'. destruct (equiv_sock _ _ c (Sock rest (sk_eof s) (sk_out s ++ msg) (sk_faults s)) Hw') as (s' & Hs' & [= _ _ Ho]).
  { cbn. by rewrite lookup_alter, decide_True, lookup_alter, decide_True, Hs by done. }
  exists s'. split; [done|]. split; [exact Ho|]. by rewrite (w_log_out_proper _ _ Hw').
Qed.

(** A GET of a file that may be read. *)
Lemma get_served dir fd c w s m u hs msg : at_rest w fd c s → calm c w →
  sk_in s = request_head m u hs → wf_request m u hs → line_request m = REQUEST_GET →
  Z.of_nat (length (request_head m u hs)) ≤ BUFFER_SIZE → lockable w (lock_path_for dir u 192) u →
  spec_get w u = (RESPONSE_OK, msg) →
  wpt (handle_connection dir fd) w (λ _ w', got_answer c s msg (request_audit REQUEST_GET u hs RESPONSE_OK) w w').
Proof.
  intros Hr Hc Hin Hwf Hm Hlen Hl Hg. eapply wpt_conseq.
  { apply (connection_get dir fd c w s m u hs [] Hr Hc); try done. by rewrite app_nil_r. }
  intros [] w' (fs & res & msg' & rest & Ht & Hres & Hw').
  rewrite (lockable_open _ _ _ Hl), (spec_get_tree _ _ _ _ _ Hl Ht Hg) in Hres. injection Hres as -> ->.
  eapply answer_of; [apply Hr|exact Hw'].
Qed.

(** The server's directory and those above it can be searched. *)
Definition searchable (w : world) : Prop :=
  ∀ q, q `prefix_of` w_cwd w → ∃ m, w_fs w !! q = Some (NDir m) ∧ m_x m = true.

Definition ups (n : nat) : bytes := concat (replicate n (B "../")).

Lemma split_ups n name : split_path (ups n ++ name) = replicate n (B "..") ++ split_path name.
Proof. unfold ups. induction n as [|n IH]; [done|]. cbn in *. by rewrite IH. Qed.

Lemma walk_up fs d comps : (∀ q, q `prefix_of` d → ∃ m, fs !! q = Some (NDir m) ∧ m_x m = true) →
  walk fs d (replicate (length d) (B "..") ++ comps) = walk fs [] comps.
Proof.
  induction d as [|x d IH] using rev_ind; intros Hd; [done|].
  rewrite length_app, Nat.add_comm. cbn [length replicate app Nat.add].
  destruct (Hd _ ltac:(done)) as (m & Hm & Hx). cbn [walk]. rewrite Hm, Hx. cbn [negb].
  rewrite bool_decide_false by (by intros []). rewrite bool_decide_true, removelast_last by done.
  apply IH. intros q Hq. apply Hd. by apply prefix_app_r.
Qed.

(** Enough steps up, and a relative name means what the absolute one means. *)
Lemma namei_up w name : searchable w → name ≠ [] →
  namei w (ups (length (w_cwd w)) ++ name) = namei w (B "/" ++ name).
Proof.
  intros Hs Hne. destruct (Hs [] (prefix_nil _)) as (m & Hm & Hx).
  assert (Hroot : namei w (B "/" ++ name) = walk (w_fs w) [] (split_path name)).
  { change (walk (w_fs w) [] ([] :: split_path name) = walk (w_fs w) [] (split_path name)). cbn [walk].
    rewrite Hm, Hx. cbn [negb]. rewrite bool_decide_true by (by left). by destruct (split_path name). }
  rewrite Hroot. unfold namei.
  assert (Hw : walk (w_fs w) (w_cwd w) (split_path (ups (length (w_cwd w)) ++ name)) = walk (w_fs w) [] (split_path name))
    by (rewrite split_ups; by apply walk_up).
  destruct (w_cwd w) as [|x cwd] eqn:Hcwd; [destruct name as [|y name]; [done|]; cbn [length ups replicate concat app] in *; by destruct (bool_decide (y = "/"%char))|]. exact Hw.
Qed.

(** C37. A URI may climb out of the served directory: dots and slashes are allowed
    characters and nothing checks the components.  Every file of the system that
    the server may read, not only those in its directory, is sent to a client
    that asks for it by its absolute name behind enough of ../ -- as many as the
    server's directory has components --, if the URI is of the allowed form, its
    head fits the buffer, the directories on the way up may be searched, the
    lockfile can be opened or made and no call fails. *)
Theorem uri_escapes_directory dir fd c w s hs name p d mt : at_rest w fd c s → calm c w → searchable w →
  let u := ups (length (w_cwd w)) ++ name in
  sk_in s = request_head (B "GET") u hs → wf_request (B "GET") u hs →
  Z.of_nat (length (request_head (B "GET") u hs)) ≤ BUFFER_SIZE → lockable w (lock_path_for dir u 192) u →
  name ≠ [] → namei w (B "/" ++ name) = Ok p → w_fs w !! p = Some (NFile d mt) → m_r mt = true →
  wpt (handle_connection dir fd) w (λ _ w',
    got_answer c s (file_header (Z.of_nat (length d)) ++ d) (request_audit REQUEST_GET u hs RESPONSE_OK) w w').
Proof.
  intros Hr Hc Hse u Hin Hwf Hlen Hl Hne Hn Hp Hm. apply (get_served dir fd c w s (B "GET") u hs); try done.
  unfold spec_get. unfold u. by rewrite namei_up, Hn, Hp, Hm by done.
Qed.

Definition demo_secret : world :=
  let w := demo_world (request_head (B "GET") (B "../secret") []) [] [] in
  set_fs (<[[B "secret"] := NFile (B "key") rw]> (w_fs w)) w.

Lemma uri_escapes_directory_witness : wpt (handle_connection demo_dir 5) demo_secret (λ _ w', ∃ s,
  w_socks w' !! 0%nat = Some s ∧ sk_out s = B "HTTP/1.1 200 OK" ++ CRLF ++ B "Content-Length: 3" ++ CRLF ++ CRLF ++ B "key").
Proof.
  eapply wpt_conseq.
  - apply (uri_escapes_directory demo_dir 5 0 demo_secret (Sock (request_head (B "GET") (B "../secret") []) true [] []) []
      (B "secret") [B "secret"] (B "key") rw).
    + split; [reflexivity|reflexivity|by vm_compute|reflexivity|]. intros p d m. unfold demo_secret. cbn [w_fs set_fs].
      rewrite lookup_insert. case_decide; [by intros [= <- _]|]. intros Hp%demo_sizes. unfold ULLONG_MAX. lia.
    + split; [constructor|]. by intros s [= <-].
    + intros q Hq. exists rwx. assert (Hin : q = [] ∨ q = srv).
      { destruct Hq as [t Ht]. destruct q as [|a [|b q]]; [by left|right|done]. by injection Ht as <- _. }
      destruct Hin as [-> | ->]; split; reflexivity.
    + reflexivity.
    + apply (bool_decide_unpack _). vm_compute. exact I.
    + vm_compute. discriminate.
    + exists [B "tmp"; LOCKS; B "..%secret"]. split_and!; [reflexivity|by vm_compute|]. exists rwx. split; reflexivity.
    + done.
    + reflexivity.
    + reflexivity.
    + reflexivity.
  - intros [] w' (s & Hs & Ho & _). exists s. split; [exact Hs|exact Ho].
Defined.

(** ** Two spellings of a name *)

Lemma split_path_last a n : "/"%char ∉ n → split_path (a ++ B "/" ++ n) = split_path a ++ [n].
Proof.
  intros Hn. assert (Hs : split_path n = [n]).
  { induction n as [|c n IH]; [done|]. apply not_elem_of_cons in Hn as [Hc Hn]. cbn.
    by rewrite bool_decide_false, IH by done. }
  induction a as [|c a IH]; [change ([] :: split_path n = [[]; n]); by rewrite Hs|].
  change ((if bool_decide (c = "/"%char) then [] :: split_path (a ++ B "/" ++ n)
    else match split_path (a ++ B "/" ++ n) with comp :: comps => (c :: comp) :: comps | [] => [[c]] end) =
    split_path (c :: a) ++ [n]).
  rewrite IH. cbn [split_path]. case_bool_decide; [done|].
  destruct (split_path a) as [|x comps] eqn:Ha; [|done]. exfalso. destruct a as [|y a]; [done|].
  cbn [split_path] in Ha. case_bool_decide; [done|]. by destruct (split_path a).
Qed.

(** A name that resolves ends in its last component, or is a directory. *)
Lemma walk_last fs d comps n lp : walk fs d (comps ++ [n]) = Ok lp →
  (∃ m, fs !! lp = Some (NDir m)) ∨ ∃ q, lp = q ++ [n].
Proof.
  revert d. induction comps as [|x comps IH]; intros d; cbn [app walk];
    (destruct (fs !! d) as [[]|] eqn:Hd; try done); (destruct (negb (m_x m)); [done|]).
  - repeat case_bool_decide; [intros [= <-]; left; eauto| |intros [= <-]; right; by exists d].
    destruct (fs !! removelast d) as [[]|] eqn:Hd'; try done. intros [= <-]. left. eauto.
  - repeat case_bool_decide; [apply IH..|]. destruct comps; apply IH.
Qed.

Definition alias (u : bytes) : bytes := B "./" ++ u.

Lemma namei_alias w u : (∃ m, w_fs w !! w_cwd w = Some (NDir m) ∧ m_x m = true) →
  u ≠ [] → head u ≠ Some "/"%char → namei w (alias u) = namei w u.
Proof.
  intros (m & Hm & Hx) Hne Hu. destruct u as [|y u]; [done|].
  change (walk (w_fs w) (w_cwd w) (B "." :: split_path (y :: u)) = namei w (y :: u)). cbn [walk]. rewrite Hm, Hx. cbn [negb].
  rewrite bool_decide_true by (by right). unfold namei. rewrite bool_decide_false; [done|]. by intros ->.
Qed.

(** Lockfiles of URIs of different lengths are different files. *)
Lemma lock_files_differ dir u v w lp lp' : (length dir ≤ 64)%nat → (length u ≤ 63)%nat → (length v ≤ 63)%nat →
  length u ≠ length v → lockable w (lock_path_for dir u 192) u → lockable w (lock_path_for dir v 192) v →
  namei w (lock_path_for dir u 192) = Ok lp → namei w (lock_path_for dir v 192) = Ok lp' → lp ≠ lp'.
Proof.
  intros Hd Hu Hv Hne Hlu Hlv. rewrite !lock_path_for_whole in * by done.
  assert (Hlast : ∀ x p, lockable w (dir ++ B "/" ++ lock_name x) x → namei w (dir ++ B "/" ++ lock_name x) = Ok p →
    ∃ q, p = q ++ [lock_name x]).
  { intros x p (p' & Hp' & _ & Hk) Hp. rewrite Hp in Hp'. injection Hp' as <-. revert Hp. unfold namei.
    destruct (dir ++ B "/" ++ lock_name x) as [|y t] eqn:Ht; [done|]. rewrite <- Ht, split_path_last by apply lock_name_no_slash.
    intros Hp. apply walk_last in Hp as [[m Hm]|Hq]; [|done]. by rewrite Hm in Hk. }
  intros [q ->]%(Hlast u) [q' ->]%(Hlast v); [|done..]. intros [_ Heq]%app_inj_tail.
  apply Hne. apply (f_equal length) in Heq. unfold lock_name in Heq. by rewrite !length_map in Heq.
Qed.

(** The other lockfile can still be opened when the first is open and locked. *)
Lemma lockable_other w path path' x lp lp' fs fd op : lockable w path' x → lock_tree w path fs →
  namei w path = Ok lp → namei w path' = Ok lp' → lp ≠ lp' →
  let v := locked (opened w lp fd fs) lp fd op in
  namei v path' = Ok lp' ∧ (do_open path' LOCK_FLAGS v).2 = Ok (fd_alloc (w_fds v)).
Proof.
  intros (p & Hp & _ & Hk) Ht Hn Hn' Hne v. rewrite Hn' in Hp. injection Hp as <-.
  assert (Hsub : w_fs w ⊆ fs ∧ fs !! lp' = w_fs w !! lp').
  { destruct Ht as [->|(q & Hq & Hno & ->)]; [done|]. rewrite Hn in Hq. injection Hq as <-.
    split; [by apply insert_subseteq|]. by rewrite lookup_insert_ne. }
  destruct Hsub as [Hsub Heq].
  assert (Hn2 : namei v path' = Ok lp') by exact (namei_mono w fs path' lp' Hsub Hn').
  split; [done|]. unfold do_open. rewrite Hn2. change (w_fs v) with fs. rewrite Heq.
  destruct (w_fs w !! lp') as [[d m|m|m]|]; try done; cbn; [by rewrite Hk|].
  destruct Hk as (m & Hm & Hmw). by rewrite (lookup_weaken _ _ _ _ Hm Hsub), Hmw.
Qed.

(** C38. Two spellings, two locks: for every URI of the allowed form (one that does
    not start with a slash, and leaves room for two more bytes), the URI and the
    URI behind ./ name the same file, yet a lock of either kind on the one does
    not keep anybody from a lock of either kind on the other: after the one is
    granted the other is granted at once, and both are held, on two different
    lockfiles.  So a GET and a PUT, or two PUTs, of one file under two names are
    not excluded from one another.  (The lock directory's name is as lockdir_init
    makes it, the lockfiles can be opened or made, and no call fails.) *)
Theorem aliased_uris_not_excluded dir u w c op op' : calm c w → w_flocks w = ∅ →
  (length dir ≤ 64)%nat → piece_ok uri_piece u → piece_ok uri_piece (alias u) → head u ≠ Some "/"%char →
  (∃ m, w_fs w !! w_cwd w = Some (NDir m) ∧ m_x m = true) → op ≠ LOCK_UN → op' ≠ LOCK_UN →
  lockable w (lock_path_for dir u 192) u → lockable w (lock_path_for dir (alias u) 192) (alias u) →
  namei w (alias u) = namei w u ∧
  wpt (uri_lock dir u op) w (λ r w1, ∃ lfd lp, r = Some lfd ∧
    wpt (uri_lock dir (alias u) op') w1 (λ r' w2, ∃ lfd' lp', r' = Some lfd' ∧ lfd ≠ lfd' ∧ lp ≠ lp' ∧
      w_flocks w2 !! lp = Some (lock_state op lfd) ∧ w_flocks w2 !! lp' = Some (lock_state op' lfd'))).
Proof.
  intros Hc Hfl Hd Hu Ha Hh Hcwd Hop Hop' Hl Hl'. split.
  { apply namei_alias; [done| |done]. apply (piece_not_nil uri_piece); [cbn; lia|done]. }
  eapply wpt_conseq.
  { apply (uri_lock_spec dir u op w w (calm c w) c Hop (reflexivity w) (quiet_self c w)). intros lp _. by rewrite Hfl. }
  intros [lfd|] w1 [Hq1 H].
  2: { destruct H as (fs & _ & _ & Hno). destruct (Hno Hc) as (_ & e & He). by rewrite (lockable_open _ _ _ Hl) in He. }
  destruct H as (lp & fs & Hn & Ht & -> & _ & Hw1). set (lfd := fd_alloc (w_fds w)) in *. exists lfd, lp. split; [done|].
  pose proof Hl' as (lp' & Hn' & _ & _).
  assert (Hne : lp ≠ lp').
  { apply (lock_files_differ dir u (alias u) w); try done; [apply Hu|apply Ha|]. unfold alias. rewrite length_app. cbn. lia. }
  destruct (lockable_other w _ _ _ lp lp' fs lfd op Hl' Ht Hn Hn' Hne) as [Hnv Hov].
  set (v := locked (opened w lp lfd fs) lp lfd op) in *.
  assert (Hflv : w_flocks v = {[lp := lock_state op lfd]}) by (unfold v; cbn; by rewrite Hfl).
  eapply wpt_conseq.
  { apply (uri_lock_spec dir (alias u) op' w1 v (calm c w) c Hop' Hw1 Hq1). intros q. rewrite Hnv. intros [= <-].
    by rewrite Hflv, lookup_singleton_ne. }
  intros [lfd'|] w2 [_ H].
  2: { destruct H as (fs' & _ & _ & Hno). destruct (Hno Hc) as (_ & e & He). by rewrite Hov in He. }
  destruct H as (q & fs' & Hq & _ & -> & _ & Hw2). rewrite Hnv in Hq. injection Hq as <-.
  exists (fd_alloc (w_fds v)), lp'. split; [done|]. split.
  { intros Heq. pose proof (fd_alloc_fresh (w_fds v)) as Hf. rewrite <- Heq in Hf. cbn in Hf. by rewrite lookup_insert_eq in Hf. }
  split; [done|]. rewrite !(w_flocks_proper _ _ Hw2). cbn [w_flocks locked set_flocks opened set_fds set_fs].
  rewrite Hflv, lookup_insert_ne, lookup_singleton_eq, lookup_insert_eq by done. done.
Qed.

Lemma aliased_uris_not_excluded_witness : let w := demo_world [] [] [] in
  namei w (B "./a.txt") = namei w (B "a.txt") ∧
  wpt (uri_lock demo_dir (B "a.txt") LOCK_SH) w (λ r w1, ∃ lfd lp, r = Some lfd ∧
    wpt (uri_lock demo_dir (B "./a.txt") LOCK_EX) w1 (λ r' w2, ∃ lfd' lp', r' = Some lfd' ∧ lfd ≠ lfd' ∧ lp ≠ lp' ∧
      w_flocks w2 !! lp = Some (LShared {[lfd]}) ∧ w_flocks w2 !! lp' = Some (LExclusive lfd'))).
Proof.
  apply (aliased_uris_not_excluded demo_dir (B "a.txt") (demo_world [] [] []) 0 LOCK_SH LOCK_EX).
  - by apply demo_calm.
  - reflexivity.
  - vm_compute. lia.
  - apply (bool_decide_unpack _). vm_compute. exact I.
  - apply (bool_decide_unpack _). vm_compute. exact I.
  - done.
  - exists rwx. split; reflexivity.
  - done.
  - done.
  - exists [B "tmp"; LOCKS; B "a.txt"]. split_and!; [reflexivity|by vm_compute|]. exists rwx. split; reflexivity.
  - exists [B "tmp"; LOCKS; B ".%a.txt"]. split_and!; [reflexivity|by vm_compute|]. exists rwx. split; reflexivity.
Defined.

(** ** What decides the method *)

(** A request with an unsupported method. *)
Lemma connection_unsupported dir fd c w s m u hs body : at_rest w fd c s → calm c w →
  sk_in s = request_head m u hs ++ body → wf_request m u hs → line_request m = REQUEST_UNSUPPORTED →
  Z.of_nat (length (request_head m u hs)) ≤ BUFFER_SIZE →
  regexec (Regex false header_pieces) (CRLF ++ body) = None →
  let res := RESPONSE_NOT_IMPLEMENTED in
  wpt (handle_connection dir fd) w (λ _ w', ∃ rest,
    w' ≡ set_fds (delete fd (w_fds w)) (log_app (request_audit REQUEST_UNSUPPORTED u hs res)
           (sock_out (set_fs (w_fs w) (sock_in w c rest)) c (response_message res)))).
Proof.
  intros [Hfd Hs Hlog Hfree Hsizes] Hc Hin Hwf Hm Hlen Hno res.
  apply (handle_connection_head dir fd c w s (calm c w) Hfd Hs m u hs body); auto with http.
  intros conn d rest w1 Hb Hw1 Hq1 Hp. rewrite Hm. unfold handle_unsupported. eapply wpt_conseq.
  { apply (respond_spec conn RESPONSE_NOT_IMPLEMENTED w1 (sock_in w c rest) c
      (Sock rest (sk_eof s) (sk_out s) (sk_faults s)) (calm c w)); try done.
    - by rewrite (pd_fd _ _ _ _ _ _ Hp).
    - unfold sock_in, upd_sock. cbn. by rewrite lookup_alter, decide_True, Hs by done. }
  intros [] w2 [Hq2 (k & Hw2 & Hk)]. split; [done|]. rewrite (Hk Hc), take_ge in Hw2 by lia.
  rewrite (parsed_line _ _ _ _ _ _ _ Hp), Hm in Hw2. eexists. split; [exact Hw2|]. split; [done|]. intros w' Hw'. by exists rest.
Qed.

(** C40. Only the first three letters of the method count.  Of the well-formed
    requests with a method word of up to eight letters, those whose word starts
    with GET, GETX as well as GET, are served and audited as a GET, those whose
    word starts with PUT as a PUT, which stores the body, and all others, lower
    case get among them, are answered and audited as unsupported (501) and leave
    the file tree untouched.  (The request declares the length of its body, which
    holds no text that reads like a header field, its head fits the buffer, the
    lockfile can be opened or made, and no call fails.  GET and PUT are stated for
    the requests that [spec_get] and [spec_put] answer with success, and PUT for a
    file that may be read if it is there.) *)
Theorem method_prefix_served dir fd c w s m u hs body : at_rest w fd c s → calm c w →
  sk_in s = request_head m u hs ++ body → wf_request m u hs →
  header_value CONTENT_LENGTH_KEY hs = Some (dec (Z.of_nat (length body))) → Z.of_nat (length body) ≤ LONG_MAX →
  Z.of_nat (length (request_head m u hs)) ≤ BUFFER_SIZE →
  regexec (Regex false header_pieces) (CRLF ++ body) = None → lockable w (lock_path_for dir u 192) u →
  wpt (handle_connection dir fd) w (λ _ w',
    (take 3 m = B "GET" → ∀ msg, spec_get w u = (RESPONSE_OK, msg) →
       got_answer c s msg (request_audit REQUEST_GET u hs RESPONSE_OK) w w') ∧
    (take 3 m = B "PUT" → ∀ res fs, spec_put w u body = (res, fs) → res = RESPONSE_OK ∨ res = RESPONSE_CREATED →
       (∀ p d mt, namei w u = Ok p → w_fs w !! p = Some (NFile d mt) → m_r mt = true) →
       got_answer c s (response_message res) (request_audit REQUEST_PUT u hs res) w w' ∧
       spec_get w' u = (RESPONSE_OK, file_header (Z.of_nat (length body)) ++ body)) ∧
    (take 3 m ≠ B "GET" → take 3 m ≠ B "PUT" → let res := RESPONSE_NOT_IMPLEMENTED in
       got_answer c s (response_message res) (request_audit REQUEST_UNSUPPORTED u hs res) w w' ∧ w_fs w' = w_fs w)).
Proof.
  intros Hr Hc Hin Hwf Hcl Hmax Hlen Hno Hl. pose proof (eq_refl (line_request m)) as Hm. unfold line_request in Hm at 2.
  pose proof (ar_sock _ _ _ _ Hr) as Hs. case_bool_decide as Hg; [|case_bool_decide as Hp].
  - eapply wpt_conseq; [by apply (connection_get dir fd c w s m u hs body)|].
    intros [] w' (fs & res & msg & rest & Ht & Hres & Hw'). rewrite (lockable_open _ _ _ Hl) in Hres.
    split_and!; [|by rewrite Hg|done]. intros _ msg' Hsp.
    rewrite (spec_get_tree _ _ _ _ _ Hl Ht Hsp) in Hres. injection Hres as -> ->. by eapply answer_of.
  - eapply wpt_conseq; [by apply (connection_put dir fd c w s m u hs body)|].
    intros [] w' (fs & fs' & res & rest & Ht & Hres & Hw'). rewrite (lockable_open _ _ _ Hl) in Hres.
    split_and!; [done| |done]. intros _ res' fs2 Hsp Hok Hread.
    destruct (spec_put_tree w _ u body res' fs2 fs Hl Ht Hsp Hok Hread) as (fs3 & Hsp' & _ & Hget).
    rewrite Hsp' in Hres. injection Hres as -> ->. split; [by eapply answer_of|].
    rewrite (spec_get_proper _ _ _ Hw'). exact Hget.
  - eapply wpt_conseq; [by apply (connection_unsupported dir fd c w s m u hs body)|].
    intros [] w' (rest & Hw'). split_and!; [done|done|]. intros _ _. split; [by eapply answer_of|].
    by rewrite (w_fs_proper _ _ Hw').
Qed.

(** A client that says GETX, and one that says get. *)
Definition demo_zero : list (bytes * bytes) := [(B "Content-Length", B "0")].
Definition demo_method (m : bytes) : world := demo_world (request_head m (B "a.txt") demo_zero) [] [].

Lemma method_prefix_served_witness :
  wpt (handle_connection demo_dir 5) (demo_method (B "GETX")) (λ _ w', ∃ s, w_socks w' !! 0%nat = Some s ∧
    sk_out s = B "HTTP/1.1 200 OK" ++ CRLF ++ B "Content-Length: 5" ++ CRLF ++ CRLF ++ B "alpha" ∧
    w_log_out w' = B "GET,a.txt,200,0" ++ [LF]) ∧
  wpt (handle_connection demo_dir 5) (demo_method (B "get")) (λ _ w',
    w_log_out w' = B "UNSUPPORTED,a.txt,501,0" ++ [LF] ∧ w_fs w' = demo_fs).
Proof.
  assert (Hl : ∀ m, lockable (demo_method m) (lock_path_for demo_dir (B "a.txt") 192) (B "a.txt")).
  { intros m. exists [B "tmp"; LOCKS; B "a.txt"]. split_and!; [reflexivity|by vm_compute|]. exists rwx. split; reflexivity. }
  split; eapply wpt_conseq.
  - apply (method_prefix_served demo_dir 5 0 (demo_method (B "GETX"))
      (Sock (request_head (B "GETX") (B "a.txt") demo_zero) true [] []) (B "GETX") (B "a.txt") demo_zero []).
    + apply demo_at_rest.
    + by apply demo_calm.
    + by rewrite app_nil_r.
    + apply (bool_decide_unpack _). vm_compute. exact I.
    + reflexivity.
    + vm_compute. discriminate.
    + vm_compute. discriminate.
    + vm_compute. reflexivity.
    + apply Hl.
  - intros [] w' (Hg & _). destruct (Hg eq_refl _ eq_refl) as (s & Hs & Ho & Hlog). exists s.
    split; [exact Hs|]. split; [exact Ho|exact Hlog].
  - apply (method_prefix_served demo_dir 5 0 (demo_method (B "get"))
      (Sock (request_head (B "get") (B "a.txt") demo_zero) true [] []) (B "get") (B "a.txt") demo_zero []).
    + apply demo_at_rest.
    + by apply demo_calm.
    + by rewrite app_nil_r.
    + apply (bool_decide_unpack _). vm_compute. exact I.
    + reflexivity.
    + vm_compute. discriminate.
    + vm_compute. discriminate.
    + vm_compute. reflexivity.
    + apply Hl.
  - intros [] w' (_ & _ & Hu). destruct Hu as [(s & _ & _ & Hlog) Hfs]; [done..|]. split; [exact Hlog|exact Hfs].
Defined.
