(* ===== verification/Starter.v ===== *)
(** * The skeleton server (practica/asgn4-starter/httpserver.c)

    A single-threaded predecessor of the server: main listens on a port and
    handles one connection after the other; PUT is written out, GET is left to
    the reader.  Its connection library (connection.h) is not in the repository,
    so it is a parameter here: [ConnLib] has its functions and [ConnLaws] what
    the header promises of them.  StarterRuns.v proves what main and the handlers
    do from the laws, and that Connection.v's functions keep them. *)
From ITree Require Import Core.Subevent Indexed.Sum Interp.Interp.
From S2P Require Import Prelude Libc Regex Http Prog Posix Util.
From S2P Require Import Demo Connection Server Parsing Transfer Handlers Startup Serve.
Local Open Scope Z_scope.
Local Open Scope prog_scope.

(** ** The connection library *)

(** The functions of connection.h.  A [conn] is what the pointer stands for, so
    a function that may change the object returns it. *)
Class ConnLib (conn : Type) := {
  lib_conn_new : Z → itree sysE conn;
  lib_conn_parse : conn → itree sysE (conn * option Response);
  lib_conn_get_request : conn → Request;
  lib_conn_get_uri : conn → bytes;
  lib_conn_get_header : conn → bytes → conn * option bytes;
  lib_conn_recv_file : conn → nat → itree sysE (conn * option Response);
  lib_conn_send_file : conn → nat → Z → itree sysE (conn * option Response);
  lib_conn_send_response : conn → Response → itree sysE (conn * option Response);
  lib_conn_str : conn → bytes;
  lib_conn_delete : conn → itree sysE unit
}.

(** ** Events *)

Variant starterE : Type → Type :=
  | OpenTrunc (p : bytes) : starterE (rc nat)     (* open(p, O_CREAT | O_TRUNC | O_WRONLY, 0600) *)
  | IgnoreSigpipe : starterE unit                 (* signal(SIGPIPE, SIG_IGN) *)
  | ListenerInit (port : Z) : starterE Z
  | ListenerAccept : starterE Z.

(** The world, what main has set up, and what the listener will answer. *)
Record stworld := STW {
  st_world : world;
  st_sigpipe : bool;           (* SIGPIPE is ignored *)
  st_port : option Z;          (* the port listener_init was called with *)
  st_init : Z;                 (* what listener_init returns *)
  st_accepts : list Z          (* what listener_accept will return *)
}.
Definition set_st (w : world) (st : stworld) : stworld :=
  STW w (st_sigpipe st) (st_port st) (st_init st) (st_accepts st).

(** A file that is opened for writing with O_TRUNC is emptied. *)
Definition do_open_trunc (p : bytes) (w : world) : world * rc nat :=
  match do_open p PUT_FLAGS w with
  | (w, Err e) => (w, Err e)
  | (w, Ok fd) => ((do_ftruncate fd w).1, Ok fd)
  end.

Abbreviation skelE := (sysE +' starterE).

#[export] Instance starter_kernel : Kernel skelE stworld := λ X e st,
  match e with
  | inl1 e =>
      match sys e (st_world st) with
      | Some (w, x) => Some (set_st w st, x)
      | None => None
      end
  | inr1 e =>
      match e in starterE X return option (stworld * X) with
      | OpenTrunc p => let '(w, r) := faulty (do_open_trunc p) (st_world st) in Some (set_st w st, r)
      | IgnoreSigpipe => Some (STW (st_world st) true (st_port st) (st_init st) (st_accepts st), tt)
      | ListenerInit port =>
          Some (STW (st_world st) (st_sigpipe st) (Some port) (st_init st) (st_accepts st), st_init st)
      | ListenerAccept =>
          match st_accepts st with
          | [] => None
          | fd :: fds => Some (STW (st_world st) (st_sigpipe st) (st_port st) (st_init st) fds, fd)
          end
      end
  end.

Definition calls {R} (t : itree sysE R) : itree skelE R := translate (λ X e, inl1 e) t.
Definition own {X} (e : starterE X) : itree skelE X := perform (inr1 e : skelE X).

(** ** The program *)

Section program.
Context {conn : Type} `{!ConnLib conn}.

(** The body of handle_get only prints the URI. *)
Definition starter_handle_get (c : conn) : itree skelE conn :=
  let uri := lib_conn_get_uri c in
  Ret c.

Definition starter_handle_unsupported (c : conn) : itree skelE conn :=
  let! (c, _) := calls (lib_conn_send_response c RESPONSE_NOT_IMPLEMENTED) in
  Ret c.

Definition starter_handle_put (c : conn) : itree skelE conn :=
  let uri := lib_conn_get_uri c in
  let! existed := calls ! (Access uri) in
  let! fd := own (OpenTrunc uri) in
  let! (c, res) :=
    match fd with
    | Err e =>
        Ret (c, if bool_decide (e = EACCES ∨ e = EISDIR ∨ e = ENOENT) then RESPONSE_FORBIDDEN
                else RESPONSE_INTERNAL_SERVER_ERROR)
    | Ok fd =>
        let! (c, res) := calls (lib_conn_recv_file c fd) in
        let res := match res with
                   | None => if (existed : bool) then RESPONSE_OK else RESPONSE_CREATED
                   | Some res => res
                   end in
        do! calls ! (Close fd) in
        Ret (c, res)
    end in
  let! (c, _) := calls (lib_conn_send_response c res) in
  Ret c.

Definition starter_handle_connection (connfd : Z) : itree skelE unit :=
  let! c := calls (lib_conn_new connfd) in
  let! (c, res) := calls (lib_conn_parse c) in
  let! c :=
    match res with
    | Some res => let! (c, _) := calls (lib_conn_send_response c res) in Ret c
    | None =>
        match lib_conn_get_request c with
        | REQUEST_GET => starter_handle_get c
        | REQUEST_PUT => starter_handle_put c
        | REQUEST_UNSUPPORTED => starter_handle_unsupported c
        end
    end in
  calls (lib_conn_delete c).

(** close of an int: a negative one is no descriptor. *)
Definition close_int (fd : Z) : itree sysE unit :=
  if fd <? 0 then Ret tt else ! (Close (Z.to_nat fd)).

Definition accept_one (_ : unit) : itree skelE (unit + Z) :=
  let! connfd := own ListenerAccept in
  do! starter_handle_connection connfd in
  do! calls (close_int connfd) in
  Ret (inl tt).

(** while (1) *)
Definition accept_loop : itree skelE Z := ITree.iter accept_one tt.

(** The port is passed as an int. *)
Definition starter_main (argv : list bytes) : itree skelE Z :=
  match argv with
  | _ :: arg :: _ =>
      let '(port, endptr) := strtoull_end arg in
      match endptr with
      | _ :: _ => Ret EXIT_FAILURE
      | [] =>
          do! own IgnoreSigpipe in
          do! own (ListenerInit (to_s32 port)) in
          accept_loop
      end
  | _ => Ret EXIT_FAILURE
  end.
End program.

(** ** What connection.h promises *)

(** What conn_parse finds: an error to answer, or a request. *)
Inductive reading := Refused (res : Response) | Asked (rq : Request) (u body : bytes).

(** Calls that meet no error.  [reads text eof rd]: [rd] is what the library
    finds when a client sends [text] and then closes ([eof]) or falls silent.
    [speaks x fd]: [x] is a connection on descriptor [fd].  [carries x fd rest
    body]: it stands for a request with that body, of which [rest] is still to
    be received.  [message res]: the canonical message of a response, whichever
    bytes the library has for it. *)
Class ConnLaws (conn : Type) `{!ConnLib conn} := {
  message : Response → bytes;
  reads : bytes → bool → reading → Prop;
  speaks : conn → nat → Prop;
  carries : conn → nat → bytes → bytes → Prop;
  law_parse fd c w s rd : w_fds w !! fd = Some (OSock c) → w_socks w !! c = Some s → serene w →
    reads (sk_in s) (sk_eof s) rd →
    wpt (lib_conn_new (Z.of_nat fd)) w (λ x w1, wpt (lib_conn_parse x) w1 (λ '(x, r) w', ∃ rest,
      w' ≡ sock_in w c rest ∧ speaks x fd ∧
      match rd with
      | Refused res => r = Some res
      | Asked rq u body => r = None ∧ lib_conn_get_request x = rq ∧ lib_conn_get_uri x = u ∧
          (rq = REQUEST_PUT → carries x fd rest body)
      end));
  law_recv x fd ffd c w s p m body : w_fds w !! fd = Some (OSock c) → w_socks w !! c = Some s →
    serene w → w_fds w !! ffd = Some (OFile p 0) → w_fs w !! p = Some (NFile [] m) →
    speaks x fd → carries x fd (sk_in s) body →
    wpt (lib_conn_recv_file x ffd) w (λ '(x, r) w', r = None ∧ speaks x fd ∧
      ∃ rest, w' ≡ file_at (sock_in w c rest) ffd p m body);
  law_send x fd c w s res : w_fds w !! fd = Some (OSock c) → w_socks w !! c = Some s → serene w →
    speaks x fd →
    wpt (lib_conn_send_response x res) w (λ '(x, _) w',
      speaks x fd ∧ w' ≡ sock_out w c (message res));
  law_delete x fd w : speaks x fd → serene w → wpt (lib_conn_delete x) w (λ _ w', w' ≡ w)
}.

(** ** What a connection means *)

(** The answer, if there is one, and the tree that a request leaves. *)
Definition starter_spec (v : world) (rd : reading) : option Response * gmap path node :=
  match rd with
  | Refused res => (Some res, w_fs v)
  | Asked REQUEST_GET _ _ => (None, w_fs v)
  | Asked REQUEST_PUT u body => let '(res, fs) := spec_put v u body in (Some res, fs)
  | Asked REQUEST_UNSUPPORTED _ _ => (Some RESPONSE_NOT_IMPLEMENTED, w_fs v)
  end.

Section served.
Context {conn : Type} `{!ConnLib conn} `{!ConnLaws conn}.

Definition answer (r : option Response) : bytes := default [] (message <$> r).

(** [w'] is [w] after the connection on [fd] was handled. *)
Definition starter_served (w : world) (fd c : nat) (rd : reading) (w' : world) : Prop :=
  ∃ rest, w' ≡ sock_out (set_fs (starter_spec w rd).2 (sock_in w c rest)) c (answer (starter_spec w rd).1).
End served.
