(* ===== verification/StarterRuns.v ===== *)
(** * The skeleton server served (practica/asgn4-starter/httpserver.c)

    The handlers and the loop of Starter.v for any connection library that
    keeps [ConnLaws]; the instance [repo_laws] for Connection.v's functions; the
    theorems on main and on the agreement with the server of src/src. *)
From ITree Require Import Core.Subevent Indexed.Sum Interp.Interp.
From S2P Require Import Prelude Libc Regex Http Prog Posix Util.
From S2P Require Import Demo Connection Server Parsing Transfer Handlers Startup Serve Starter.
Local Open Scope Z_scope.
Local Open Scope prog_scope.

(** ** The handlers *)

Lemma wpt_calls {R} (t : itree sysE R) st (Q : R → stworld → Prop) :
  wpt t (st_world st) (λ r w', Q r (set_st w' st)) → wpt (calls t) st Q.
Proof.
  apply (wpt_translate _ st_world set_st); [|by destruct st].
  intros X e w. cbn. by destruct (sys e w) as [[]|].
Qed.

(** The library's calls: no error is left behind for those that follow. *)
Lemma wpt_lib {R} (t : itree sysE R) st (P : R → world → Prop) (Q : R → stworld → Prop) :
  serene (st_world st) → wpt t (st_world st) P →
  (∀ r w', P r w' → serene w' → Q r (set_st w' st)) → wpt (calls t) st Q.
Proof.
  intros Hse Ht HQ. apply wpt_calls. eapply wpt_conseq; [exact (wpt_serene t _ P Hse Ht)|].
  intros r w' [HP Hse']. by apply HQ.
Qed.

#[export] Instance do_open_trunc_proper p : CallProper (do_open_trunc p).
Proof.
  unfold CallProper. intros w v Hwv. unfold do_open_trunc.
  destruct (call_proper (body := do_open p PUT_FLAGS) _ _ Hwv) as (Hr & Hw & Hf & Hs).
  destruct (do_open p PUT_FLAGS w) as [w1 r], (do_open p PUT_FLAGS v) as [v1 r']. cbn in *. subst r'.
  destruct r as [fd|e]; cbn; [|done].
  destruct (call_proper (body := do_ftruncate fd) _ _ Hw) as (_ & Hw2 & Hf2 & Hs2).
  split_and!; [done|done|congruence..].
Qed.

Lemma wpt_open_trunc p st (Q : rc nat → stworld → Prop) : serene (st_world st) →
  (∀ w', serene w' → w' ≡ (do_open_trunc p (st_world st)).1 →
     Q (do_open_trunc p (st_world st)).2 (set_st w' st)) →
  wpt (own (OpenTrunc p)) st Q.
Proof.
  intros Hse HQ. destruct (faulty (do_open_trunc p) (st_world st)) as [w' r] eqn:Hf.
  eapply wpt_trigger; [cbn; by rewrite Hf|].
  pose proof (faulty_serene (do_open_trunc p) _ Hse) as Hse'. rewrite Hf in Hse'.
  eapply (faulty_spec (do_open_trunc p) _ (st_world st) True 0) in Hf as [_ [(_ & Hn & _)|[Hw' ->]]];
    [by destruct Hn|by apply HQ|done|by intros _].
Qed.

(** What the open of a PUT leaves: the error of [spec_put], or an empty file. *)
Lemma open_trunc_spec w u : match (do_open_trunc u w).2 with
  | Err e => (do_open_trunc u w).1 = w ∧ ∀ body, spec_put w u body = (put_open_error e, w_fs w)
  | Ok ffd => ∃ p fs m, ffd = fd_alloc (w_fds w) ∧
      (do_open_trunc u w).1 = opened w p ffd (<[p := NFile [] m]> fs) ∧
      ∀ body, spec_put w u body =
        (if sys_access u w then RESPONSE_OK else RESPONSE_CREATED, <[p := NFile body m]> fs)
  end.
Proof.
  unfold do_open_trunc. pose proof (spec_put_open w u) as H.
  destruct (do_open u PUT_FLAGS w) as [w1 [ffd|e]]; cbn in *; [|done].
  destruct H as (p & fs & d & m & -> & Hp & -> & _ & _ & Hspec). exists p, fs, m. split_and!; try done.
  unfold do_ftruncate. cbn. rewrite lookup_insert_eq, Hp. done.
Qed.

(** Closing the file that a body was received in. *)
Lemma close_received w c rest ffd p m fs body : w_flocks w = ∅ → w_fds w !! ffd = None →
  sys_close ffd (file_at (sock_in (opened w p ffd (<[p := NFile [] m]> fs)) c rest) ffd p m body) =
  set_fs (<[p := NFile body m]> fs) (sock_in w c rest).
Proof.
  intros Hfree Hn. set (v := file_at _ _ _ _ _).
  assert (Hf : w_fds v !! ffd = Some (OFile p (length body))) by apply lookup_insert_eq.
  unfold sys_close. rewrite Hf. unfold v. apply world_ext; cbn; try done.
  - by rewrite !insert_insert_eq.
  - by rewrite !delete_insert_eq, delete_id.
  - by rewrite Hfree, drop_lock_none.
Qed.

Section handlers.
Context {conn : Type} `{!ConnLib conn} `{!ConnLaws conn}.

(** Sending an answer. *)
Lemma send_spec x fd c st v res : w_fds v !! fd = Some (OSock c) → is_Some (w_socks v !! c) →
  st_world st ≡ v → serene (st_world st) → speaks x fd →
  wpt (let! (x, _) := calls (lib_conn_send_response x res) in Ret x) st (λ x st', ∃ w',
    st' = set_st w' st ∧ serene w' ∧ speaks x fd ∧ w' ≡ sock_out v c (message res)).
Proof.
  intros Hfd [s Hs] Hv Hse Hx. destruct (equiv_sock _ _ _ _ Hv Hs) as (s1 & Hs1 & _).
  apply wpt_bind. eapply wpt_lib; [done| |].
  { eapply (law_send x fd c _ s1 res); [|done..]. by rewrite (w_fds_proper _ _ Hv). }
  intros [x' r] w' [Hx' Hw'] Hse'. apply wpt_ret. exists w'. split_and!; try done.
  etrans; [exact Hw'|]. by apply (sock_out_proper c _ _ v).
Qed.

Lemma starter_served_proper w v fd c rd w' : w ≡ v → starter_served w fd c rd w' → starter_served v fd c rd w'.
Proof.
  intros H [rest Hw']. exists rest. etrans; [exact Hw'|].
  assert (starter_spec w rd = starter_spec v rd) as ->.
  { destruct rd as [res|[] u body]; cbn; by rewrite ?(spec_put_proper _ _ _ _ H), ?(w_fs_proper _ _ H). }
  by apply (sock_out_proper c), set_fs_proper, (sock_in_proper c).
Qed.

(** access, with its answer in the world it leaves. *)
Lemma access_spec p st (Q : bool → stworld → Prop) : serene (st_world st) →
  (∀ w', serene w' → w' ≡ st_world st → Q (sys_access p w') (set_st w' st)) → wpt (calls ! (Access p)) st Q.
Proof.
  intros Hse HQ. eapply (wpt_lib _ _ (λ b w', w' ≡ st_world st ∧ b = sys_access p w')); [done| |].
  - apply (wpt_access p _ (st_world st) True 0); [done|by intros _|]. intros w' b Hw' _ Hb.
    by rewrite (Hb I), (sys_access_proper _ _ _ Hw').
  - intros b w' [Hw' ->] Hse'. by apply HQ.
Qed.

Lemma starter_put_spec x fd c st s body : let w := st_world st in
  w_fds w !! fd = Some (OSock c) → w_socks w !! c = Some s → serene w → w_flocks w = ∅ →
  speaks x fd → carries x fd (sk_in s) body →
  wpt (starter_handle_put x) st (λ x' st', ∃ w', st' = set_st w' st ∧ serene w' ∧ speaks x' fd ∧
    starter_served w fd c (Asked REQUEST_PUT (lib_conn_get_uri x) body) w').
Proof.
  intros w0 Hfd0 Hs0 Hse0 Hfree0 Hx Hbody. unfold starter_handle_put. set (u := lib_conn_get_uri x).
  apply wpt_bind. apply access_spec; [done|]. fold w0. intros w Hse Hw.
  destruct (equiv_sock w w0 c s Hw Hs0) as (s' & Hs & [= Hin _ _]). rewrite <- Hin in Hbody.
  rewrite <- (w_fds_proper _ _ Hw) in Hfd0. rename Hfd0 into Hfd.
  rewrite <- (w_flocks_proper _ _ Hw) in Hfree0. rename Hfree0 into Hfree. clear s Hin Hs0. rename s' into s.
  apply (wpt_conseq _ _ (λ x' st', ∃ w', st' = set_st w' st ∧ serene w' ∧ speaks x' fd ∧
    starter_served w fd c (Asked REQUEST_PUT u body) w')).
  2: { intros x' st' (w' & H1 & H2 & H3 & H4). exists w'. split_and!; [done..|by eapply starter_served_proper]. }
  apply wpt_bind. apply wpt_open_trunc; [done|]. cbn [st_world set_st]. intros w1 Hse1 Hw1.
  pose proof (open_trunc_spec w u) as Hop. apply wpt_bind.
  destruct (do_open_trunc u w).2 as [ffd|e].
  2: { destruct Hop as [Hop Hspec]. rewrite Hop in Hw1. apply wpt_ret.
       eapply wpt_conseq; [by apply (send_spec x fd c _ w)|].
       intros x' st' (w2 & -> & Hse2 & Hx2 & Hw2). exists w2. split_and!; try done.
       exists (sk_in s). cbn [starter_spec]. rewrite Hspec, sock_in_id by done.
       etrans; [exact Hw2|]. by destruct w. }
  destruct Hop as (p & fs & m & -> & Hop & Hspec). rewrite Hop in Hw1.
  set (ffd := fd_alloc (w_fds w)) in *. pose proof (fd_alloc_fresh (w_fds w)) as Hnew. fold ffd in Hnew.
  assert (Hne : fd ≠ ffd) by congruence.
  set (v1 := opened w p ffd (<[p := NFile [] m]> fs)) in *.
  destruct (equiv_sock w1 v1 c s Hw1 Hs) as (s1 & Hs1 & [= Hin1 _ _]).
  apply wpt_bind. eapply wpt_lib; [done| |].
  { eapply (law_recv x fd ffd c w1 s1 p m body); try done; [| | |by rewrite Hin1].
    - rewrite (w_fds_proper _ _ Hw1). cbn. by rewrite lookup_insert_ne.
    - rewrite (w_fds_proper _ _ Hw1). cbn. by rewrite lookup_insert_eq.
    - rewrite (w_fs_proper _ _ Hw1). cbn. by rewrite lookup_insert_eq. }
  intros [x2 r2] w2 (-> & Hx2 & rest & Hw2) Hse2. apply wpt_bind.
  set (v2 := set_fs (<[p := NFile body m]> fs) (sock_in w c rest)).
  assert (Hcl : sys_close ffd w2 ≡ v2).
  { rewrite (sys_close_proper ffd _ _ Hw2).
    rewrite (sys_close_proper ffd _ _ (file_at_proper ffd p m body _ _ (sock_in_proper c rest _ _ Hw1))).
    unfold v1, v2. by rewrite close_received. }
  eapply wpt_lib; [done|eapply (wpt_trigger _ _ _ _ (λ _ w', w' = sys_close ffd w2)); reflexivity|].
  intros [] w3 -> Hse3. apply wpt_ret. eapply wpt_conseq; [apply (send_spec x2 fd c _ v2)|]; try done.
  { cbn. by rewrite lookup_alter, decide_True, Hs by done. }
  intros x' st' (w4 & -> & Hse4 & Hx4 & Hw4). exists w4. split_and!; try done.
  exists rest. cbn [starter_spec]. by rewrite Hspec.
Qed.

(** The whole of handle_connection. *)
Lemma starter_connection_spec fd c st s rd : let w := st_world st in
  w_fds w !! fd = Some (OSock c) → w_socks w !! c = Some s → serene w → w_flocks w = ∅ →
  reads (sk_in s) (sk_eof s) rd →
  wpt (starter_handle_connection (Z.of_nat fd)) st (λ _ st', ∃ w', st' = set_st w' st ∧ serene w' ∧
    starter_served w fd c rd w').
Proof.
  intros w Hfd Hs Hse Hfree Hrd. unfold starter_handle_connection. apply wpt_bind.
  eapply wpt_lib; [done|by eapply law_parse|]. cbn beta. intros x0 w0 Hp Hse0. apply wpt_bind.
  eapply wpt_lib; [done|exact Hp|]. intros [x r] w1 (rest & Hw1 & Hx & Hrd1) Hse1. apply wpt_bind.
  set (v1 := sock_in w c rest) in *.
  set (s1 := Sock rest (sk_eof s) (sk_out s) (sk_faults s)).
  assert (Hs1 : w_socks v1 !! c = Some s1) by (cbn; by rewrite lookup_alter, decide_True, Hs by done).
  apply (wpt_conseq _ _ (λ x' st', ∃ w', st' = set_st w' st ∧ serene w' ∧ speaks x' fd ∧ starter_served w fd c rd w')).
  2: { intros x' st' (w' & -> & Hse' & Hx' & Hsv). eapply wpt_lib; [done|by eapply law_delete|].
       intros [] w2 Hw2 Hse2. exists w2. split_and!; try done.
       destruct Hsv as (rest' & Hsv). exists rest'. by etrans. }
  assert (Hsend : ∀ res, starter_spec w rd = (Some res, w_fs w) →
    wpt (let! (x, _) := calls (lib_conn_send_response x res) in Ret x) (set_st w1 (set_st w0 st))
      (λ x' st', ∃ w', st' = set_st w' st ∧ serene w' ∧ speaks x' fd ∧ starter_served w fd c rd w')).
  { intros res Hres. eapply wpt_conseq; [by apply (send_spec x fd c _ v1)|].
    intros x' st' (w' & -> & Hse' & Hx' & Hw'). exists w'. split_and!; try done.
    exists rest. by rewrite Hres. }
  destruct rd as [res|rq u body].
  - rewrite Hrd1. by apply Hsend.
  - destruct Hrd1 as (-> & -> & <- & Hbody). destruct rq.
    + apply wpt_ret. exists w1. split_and!; try done. exists rest. cbn. by rewrite sock_out_nil.
    + destruct (equiv_sock w1 v1 c s1 Hw1 Hs1) as (s2 & Hs2 & [= Hin2 _ _]).
      eapply wpt_conseq; [apply (starter_put_spec x fd c _ s2 body); cbn; try done|].
      * by rewrite (w_fds_proper _ _ Hw1).
      * by rewrite (w_flocks_proper _ _ Hw1).
      * rewrite Hin2. by apply Hbody.
      * intros x' st' (w' & -> & Hse' & Hx' & rest' & Hw'). exists w'. split_and!; try done.
        exists rest'. etrans; [exact Hw'|]. cbn [starter_spec set_st st_world].
        assert (spec_put w1 (lib_conn_get_uri x) body = spec_put w (lib_conn_get_uri x) body) as ->
          by exact (spec_put_proper _ _ _ _ Hw1).
        destruct (spec_put w (lib_conn_get_uri x) body) as [res fs]. cbn [fst snd].
        apply (sock_out_proper c), set_fs_proper. etrans; [by apply (sock_in_proper c)|].
        unfold v1, sock_in. by rewrite upd_sock_upd.
    + by apply Hsend.
Qed.
End handlers.

(** ** The clients of a run *)

Record client := Client { cl_fd : nat; cl_sock : nat; cl_reading : reading }.

Section loop.
Context {conn : Type} `{!ConnLib conn} `{!ConnLaws conn}.

(** The clients are connected, each on its own descriptor and socket, and send
    what is read as their requests. *)
Record lined_up (w : world) (cls : list client) : Prop := {
  lu_sends : Forall (λ k, w_fds w !! cl_fd k = Some (OSock (cl_sock k)) ∧
    ∃ s, w_socks w !! cl_sock k = Some s ∧ reads (sk_in s) (sk_eof s) (cl_reading k)) cls;
  lu_fds : NoDup (cl_fd <$> cls);
  lu_socks : NoDup (cl_sock <$> cls)
}.

(** The requests executed one after the other: the answers and the tree. *)
Fixpoint starter_history (w : world) (rds : list reading) : list (option Response) * gmap path node :=
  match rds with
  | [] => ([], w_fs w)
  | rd :: rds =>
      let '(r, fs) := starter_spec w rd in
      let '(rs, fs') := starter_history (set_fs fs w) rds in
      (r :: rs, fs')
  end.

(** [w'] is [w] after all clients were served in order. *)
Definition all_served (w : world) (cls : list client) (w' : world) : Prop :=
  let '(rs, fs) := starter_history w (cl_reading <$> cls) in
  w_fs w' = fs ∧ w_fds w' = foldl (λ fds k, delete (cl_fd k) fds) (w_fds w) cls ∧
  ∀ i k r, cls !! i = Some k → rs !! i = Some r → ∃ s s', w_socks w !! cl_sock k = Some s ∧
    w_socks w' !! cl_sock k = Some s' ∧ sk_out s' = sk_out s ++ answer r.

(** One turn of the loop of main. *)
Definition turn (w : world) (k : client) (w' : world) : Prop := ∃ rest,
  let '(r, fs) := starter_spec w (cl_reading k) in
  w' ≡ set_fds (delete (cl_fd k) (w_fds w))
         (sock_out (set_fs fs (sock_in w (cl_sock k) rest)) (cl_sock k) (answer r)).

Lemma history_proper w v rds : w_fs w = w_fs v → w_cwd w = w_cwd v → w_euid w = w_euid v →
  starter_history w rds = starter_history v rds.
Proof.
  revert w v. induction rds as [|rd rds IH]; intros w v Hf Hc He; cbn; [by rewrite Hf|].
  assert (starter_spec w rd = starter_spec v rd) as ->.
  { destruct rd as [res|[] u body]; cbn; unfold spec_put, mode_0600, namei; by rewrite Hf, ?Hc, ?He. }
  destruct (starter_spec v rd) as [r fs]. by rewrite (IH (set_fs fs w) (set_fs fs v)).
Qed.

Lemma turn_other w k w' c s : turn w k w' → c ≠ cl_sock k → w_socks w !! c = Some s →
  ∃ s', w_socks w' !! c = Some s' ∧ unfault s' = unfault s.
Proof.
  intros [rest Hw] Hne Hs. destruct (starter_spec w (cl_reading k)) as [r fs].
  apply (equiv_sock _ _ _ _ Hw). cbn. by rewrite !lookup_alter_ne by done.
Qed.

Lemma turn_own w k w' s : turn w k w' → w_socks w !! cl_sock k = Some s →
  ∃ s', w_socks w' !! cl_sock k = Some s' ∧ sk_out s' = sk_out s ++ answer (starter_spec w (cl_reading k)).1.
Proof.
  intros [rest Hw] Hs. destruct (starter_spec w (cl_reading k)) as [r fs].
  destruct (equiv_sock w' _ (cl_sock k) (Sock rest (sk_eof s) (sk_out s ++ answer r) (sk_faults s)) Hw)
    as (s' & Hs' & [= _ _ Ho]); [|by exists s'].
  cbn. by rewrite lookup_alter, decide_True, lookup_alter, decide_True, Hs by done.
Qed.

Lemma turn_lined_up w k cls w' : turn w k w' → lined_up w (k :: cls) → lined_up w' cls.
Proof.
  intros Ht [Hall Hf Hc]. rewrite fmap_cons in Hf, Hc. apply NoDup_cons in Hf as [Hf1 Hf2].
  apply NoDup_cons in Hc as [Hc1 Hc2]. apply Forall_cons in Hall as [_ Hall]. split; [|done..].
  rewrite Forall_forall in *. intros k' Hk'. destruct (Hall k' Hk') as (Hfd & s & Hs & Hr).
  assert (cl_fd k' ≠ cl_fd k) by (intros Heq; apply Hf1; rewrite <- Heq; by apply list_elem_of_fmap_2).
  assert (cl_sock k' ≠ cl_sock k) by (intros Heq; apply Hc1; rewrite <- Heq; by apply list_elem_of_fmap_2).
  destruct (turn_other _ _ _ _ _ Ht H0 Hs) as (s' & Hs' & [= Hi He _]). split.
  - destruct Ht as [rest Hw]. destruct (starter_spec w (cl_reading k)). rewrite (w_fds_proper _ _ Hw).
    cbn. by rewrite lookup_delete_ne.
  - exists s'. by rewrite Hi, He.
Qed.

Lemma turn_all_served w k cls w' w'' : turn w k w' → lined_up w (k :: cls) →
  all_served w' cls w'' → (∀ s, w_socks w' !! cl_sock k = Some s → ∃ s', w_socks w'' !! cl_sock k = Some s' ∧ sk_out s' = sk_out s) →
  all_served w (k :: cls) w''.
Proof.
  intros Ht Hlu Hs Hkeep. pose proof (lu_sends _ _ Hlu) as Hall. unfold all_served in *. cbn.
  pose proof Ht as [rest Hw]. pose proof (turn_own w k w') as Hown.
  destruct (starter_spec w (cl_reading k)) as [r fs].
  rewrite (history_proper w' (set_fs fs w)) in Hs by
    (by rewrite ?(w_fs_proper _ _ Hw), ?(w_cwd_proper _ _ Hw), ?(w_euid_proper _ _ Hw)).
  destruct (starter_history (set_fs fs w) (cl_reading <$> cls)) as [rs fs'].
  destruct Hs as (Hfs & Hfds & Hout). split; [done|]. split.
  { by rewrite Hfds, (w_fds_proper _ _ Hw). }
  apply Forall_cons in Hall as [(_ & s0 & Hs0 & _) Hall].
  intros [|i] k' r' Hk Hr; cbn in Hk, Hr; simplify_eq.
  - destruct (Hown s0 Ht Hs0) as (s1 & Hs1 & Ho1). destruct (Hkeep s1 Hs1) as (s2 & Hs2 & Ho2).
    exists s0, s2. split_and!; try done. by rewrite Ho2, Ho1.
  - destruct (Hout i k' r' Hk Hr) as (s1 & s2 & Hs1 & Hs2 & Ho).
    rewrite Forall_lookup in Hall. destruct (Hall i k' Hk) as (_ & s & Hs & _).
    destruct (turn_other w k w' (cl_sock k') s Ht) as (s1' & Hs1' & [= _ _ Hso]); [|done|].
    + pose proof (lu_socks _ _ Hlu) as Hnd. rewrite fmap_cons in Hnd. apply NoDup_cons in Hnd as [Hnd _].
      intros Heq. apply Hnd. rewrite <- Heq. eapply list_elem_of_fmap_2, list_elem_of_lookup_2, Hk.
    + simplify_eq. exists s, s2. split_and!; try done. by rewrite Ho, Hso.
Qed.

(** The other clients' sockets are left alone. *)
Definition keeps (w : world) (cls : list client) (w' : world) : Prop :=
  ∀ c s, c ∉ cl_sock <$> cls → w_socks w !! c = Some s →
    ∃ s', w_socks w' !! c = Some s' ∧ unfault s' = unfault s.

Lemma body_turn k cls st : let w := st_world st in
  lined_up w (k :: cls) → serene w → w_flocks w = ∅ →
  wpt (accept_one tt) (STW w (st_sigpipe st) (st_port st) (st_init st) (Z.of_nat <$> (cl_fd <$> k :: cls)))
    (λ lr st', lr = inl tt ∧ ∃ w', serene w' ∧ w_flocks w' = ∅ ∧ turn w k w' ∧
       st' = STW w' (st_sigpipe st) (st_port st) (st_init st) (Z.of_nat <$> (cl_fd <$> cls))).
Proof.
  intros w [Hall Hnf Hnc] Hse Hfree. apply Forall_cons in Hall as [(Hfd & s & Hs & Hrd) _].
  apply wpt_bind. eapply wpt_trigger; [reflexivity|]. apply wpt_bind.
  eapply wpt_conseq; [by eapply (starter_connection_spec (cl_fd k) (cl_sock k))|].
  cbn beta. intros [] st1 (w1 & -> & Hse1 & rest & Hw1). apply wpt_bind.
  unfold close_int. destruct (Z.ltb_spec (Z.of_nat (cl_fd k)) 0); [lia|]. rewrite Nat2Z.id.
  eapply wpt_lib; [done|eapply (wpt_trigger _ _ _ _ (λ _ w', w' = sys_close (cl_fd k) w1)); reflexivity|].
  intros [] w2 -> Hse2. apply wpt_ret. split; [done|]. eexists. split_and!; [done| | |reflexivity].
  - rewrite (w_flocks_proper _ _ (sys_close_proper _ _ _ Hw1)). unfold sys_close. cbn. by rewrite Hfd.
  - exists rest. cbn [st_world] in Hw1. destruct (starter_spec w (cl_reading k)) as [r fs].
    etrans; [by apply sys_close_proper|]. unfold sys_close. cbn. by rewrite Hfd.
Qed.

Lemma loop_serves cls : ∀ st, let w := st_world st in
  lined_up w cls → serene w → w_flocks w = ∅ →
  ∃ w', all_served w cls w' ∧ keeps w cls w' ∧
    rtc thread_step
      (accept_loop, STW w (st_sigpipe st) (st_port st) (st_init st) (Z.of_nat <$> (cl_fd <$> cls)))
      (accept_loop, STW w' (st_sigpipe st) (st_port st) (st_init st) []).
Proof.
  induction cls as [|k cls IH]; intros st w Hlu Hse Hfree.
  - exists w. split; [|split; [by intros c s _ Hs; exists s|done]]. by split_and!.
  - destruct (iter_turn _ tt tt _ _ (body_turn k cls st Hlu Hse Hfree))
      as (st1 & Hrun & w1 & Hse1 & Hfree1 & Ht & ->).
    destruct (IH (set_st w1 st) (turn_lined_up _ _ _ _ Ht Hlu) Hse1 Hfree1) as (w2 & Hs2 & Hk2 & Hrun2).
    pose proof (lu_socks _ _ Hlu) as Hnd. rewrite fmap_cons in Hnd. apply NoDup_cons in Hnd as [Hnd _].
    exists w2. split_and!.
    + apply (turn_all_served w k cls w1 w2 Ht Hlu Hs2). intros s Hs.
      destruct (Hk2 _ _ Hnd Hs) as (s' & Hs' & [= _ _ Ho]). by exists s'.
    + intros c s Hc Hs. rewrite fmap_cons in Hc. apply not_elem_of_cons in Hc as [Hc1 Hc2].
      destruct (turn_other _ _ _ _ _ Ht Hc1 Hs) as (s1 & Hs1 & <-). by apply Hk2.
    + etrans; [exact Hrun|exact Hrun2].
Qed.
End loop.

(** ** The repository's library *)

(** Connection.v's functions.  A null pointer is what conn_new returns when
    memory is short; nothing is promised of it. *)
#[export] Instance repo_lib : ConnLib (option Conn) := {
  lib_conn_new fd := conn_new (Z.to_nat fd);
  lib_conn_parse x := match x with
    | Some k => let! (k, r) := conn_parse k in Ret (Some k, r)
    | None => Ret (None, None)
    end;
  lib_conn_get_request x := default REQUEST_UNSUPPORTED (conn_get_request <$> x);
  lib_conn_get_uri x := default [] (conn_get_uri <$> x);
  lib_conn_get_header x h := match x with
    | Some k => let '(k, v) := conn_get_header k h in (Some k, v)
    | None => (None, None)
    end;
  lib_conn_recv_file x fd := match x with
    | Some k => let! r := conn_recv_file k fd in Ret (x, r)
    | None => Ret (x, None)
    end;
  lib_conn_send_file x fd count := match x with
    | Some k => let! r := conn_send_file k fd count in Ret (x, r)
    | None => Ret (x, None)
    end;
  lib_conn_str x := default [] (conn_str <$> x);
  lib_conn_send_response x res := match x with
    | Some k => let! r := conn_send_response k res in Ret (x, r)
    | None => Ret (x, None)
    end;
  lib_conn_delete x := Ret tt
}.

(** What it accepts and refuses without errors. *)
Definition repo_reads (text : bytes) (eof : bool) (rd : reading) : Prop :=
  match rd with
  | Refused res => res = RESPONSE_BAD_REQUEST ∧ eof = true ∧
      ∀ d m u min, d `prefix_of` text → ¬ line_of d m u min
  | Asked rq u body => ∃ m hs, text = request_head m u hs ++ body ∧ wf_request m u hs ∧
      line_request m = rq ∧ Z.of_nat (length (request_head m u hs)) ≤ BUFFER_SIZE ∧
      regexec (Regex false header_pieces) (CRLF ++ body) = None ∧
      (rq = REQUEST_PUT → header_value CONTENT_LENGTH_KEY hs = Some (dec (Z.of_nat (length body))) ∧
         Z.of_nat (length body) ≤ LONG_MAX)
  end.

Definition repo_speaks (x : option Conn) (fd : nat) : Prop := ∃ k, x = Some k ∧ connfd k = fd.

Definition repo_carries (x : option Conn) (fd : nat) (rest body : bytes) : Prop :=
  ∃ k d, x = Some k ∧ connfd k = fd ∧ body = d ++ rest ∧
    slice (buffer k) (message_start k) (in_message k) = d ∧
    Z.max 0 (in_message k) = Z.of_nat (length d) ∧
    to_s64 (content_length k - Z.of_nat (length d)) = Z.of_nat (length rest).

Lemma repo_parse fd c w s rd : w_fds w !! fd = Some (OSock c) → w_socks w !! c = Some s → serene w →
  repo_reads (sk_in s) (sk_eof s) rd →
  wpt (conn_parse (fresh_conn fd)) w (λ '(k, r) w', ∃ rest,
    w' ≡ sock_in w c rest ∧ connfd k = fd ∧
    match rd with
    | Refused res => r = Some res
    | Asked rq u body => r = None ∧ request k = rq ∧ uri k = u ∧
        (rq = REQUEST_PUT → repo_carries (Some k) fd rest body)
    end).
Proof.
  intros Hfd Hs Hse Hrd. assert (Hq : quiet True c w) by (by intros _).
  destruct rd as [res|rq u body].
  - destruct Hrd as (-> & Heof & Hno). eapply wpt_conseq; [by apply (conn_parse_any fd c w s True)|].
    intros [k r] w' (d & rest & Hd & Hw' & _ & Hok & Hpost & _). exists rest.
    split; [done|]. split; [by destruct Hok|]. assert (Hpre : d `prefix_of` sk_in s) by (by exists rest).
    destruct r as [[]|]; try done; exfalso.
    + by destruct Hpost as [?|[_ ?]]; [tauto|congruence].
    + destruct Hpost as (m & min & Hl & _). by eapply Hno.
    + destruct Hpost as (_ & m & Hl & _). by eapply Hno.
  - destruct Hrd as (m & hs & Hin & Hwf & Hm & Hlen & Hno & Hput).
    eapply wpt_conseq; [by apply (conn_parse_head fd c w s m u hs body True)|].
    intros [k r] w' [_ [(-> & d & rest & Hb & Hw' & Hp)|[Hn _]]]; [|by destruct Hn].
    exists rest. split; [done|]. split; [by eapply pd_fd|]. split; [done|].
    split; [by rewrite (pd_request _ _ _ _ _ _ Hp)|]. split; [by eapply pd_uri|].
    intros Hrq. destruct (Hput Hrq) as [Hcl Hmax]. rewrite Hb in Hcl, Hmax.
    destruct (parsed_body _ _ _ _ _ _ _ Hp Hcl Hmax) as (H1 & H2 & H3).
    exists k, d. split_and!; try done. by eapply pd_fd.
Qed.

Lemma repo_recv x fd ffd c w s p m body : w_fds w !! fd = Some (OSock c) → w_socks w !! c = Some s →
  serene w → w_fds w !! ffd = Some (OFile p 0) → w_fs w !! p = Some (NFile [] m) →
  repo_carries x fd (sk_in s) body →
  wpt (lib_conn_recv_file x ffd) w (λ '(x', r) w', x' = x ∧ r = None ∧
    ∃ rest, w' ≡ file_at (sock_in w c rest) ffd p m body).
Proof.
  intros Hfd Hs Hse Hf Hp (k & d & -> & Hk & -> & Hsl & Hin & Hrem). cbn. apply wpt_bind.
  eapply wpt_conseq.
  { apply (conn_recv_file_spec w c fd ffd p m s True Hfd Hs ltac:(congruence) k w d); try done.
    - by intros _.
    - by rewrite recv_view_start. }
  intros r w' [(got & rest & n & Hgot & Hw' & Hle & Hr) _]. apply wpt_ret. rewrite Hrem in *.
  split; [done|]. destruct r as [res|].
  { exfalso. destruct Hr as [_ [Hn|(-> & _ & Hlt)]]; [by destruct Hn|].
    rewrite app_nil_r in Hgot. rewrite Hgot in Hlt. lia. }
  split; [done|]. exists rest. destruct Hr as [-> Hr]. destruct (recv_got got rest _ Hle Hr) as [Hg _].
  rewrite <- Hgot, Nat2Z.id, take_ge in Hg by done. rewrite take_ge in Hw' by done. by rewrite <- Hg.
Qed.

#[export] Program Instance repo_laws : ConnLaws (option Conn) := {
  message := response_message; reads := repo_reads; speaks := repo_speaks; carries := repo_carries
}.
Next Obligation.
  intros fd c w s rd Hfd Hs Hse Hrd. cbn. unfold conn_new. rewrite Nat2Z.id. apply wpt_bind.
  destruct (pop_fault w) as [f w1] eqn:Hf. pose proof (pop_fault_spec _ _ _ Hf) as (fl & -> & _).
  destruct (pop_fault_serene _ _ _ Hf Hse) as [Hse1 Hne].
  eapply wpt_trigger; [cbn; unfold sys_alloc; by rewrite Hf|]. apply wpt_ret.
  assert (match f with FErr _ => false | _ => true end = true) as -> by (by destruct f).
  apply wpt_bind. eapply wpt_conseq; [by eapply (repo_parse fd c (set_faults fl w) s rd)|].
  intros [k r] w' (rest & Hw' & Hk & Hpost). apply wpt_ret. exists rest. split; [exact Hw'|].
  split; [by exists k|]. by destruct rd.
Qed.
Next Obligation.
  intros x fd ffd c w s p m body Hfd Hs Hse Hf Hp Hx Hb.
  eapply wpt_conseq; [by eapply (repo_recv x fd ffd c w s p m body)|].
  intros [x' r] w' (-> & -> & rest & Hw'). split_and!; [done..|by exists rest].
Qed.
Next Obligation.
  intros x fd c w s res Hfd Hs Hse (k & -> & <-). cbn. apply wpt_bind.
  eapply wpt_conseq; [by apply (conn_send_response_spec k res w c s True); [..|intros _]|].
  intros r w' [(n & Hw' & Hn) _]. apply wpt_ret. split; [by exists k|].
  destruct r; [by destruct Hn as [_ []]|]. by rewrite Hn, take_ge in Hw' by done.
Qed.
Next Obligation. intros x fd w _ _. by apply wpt_ret. Qed.

(** ** The properties *)

(** Whether main takes the command line: a number and nothing after it. *)
Definition port_taken_as (argv : list bytes) : option Z :=
  match argv with
  | _ :: arg :: _ => match strtoull_end arg with (port, []) => Some (to_s32 port) | _ => None end
  | _ => None
  end.

Section properties.
Context {conn : Type} `{!ConnLib conn}.

(** A command line main takes: SIGPIPE is ignored, the port given to the
    listener, and the loop entered. *)
Lemma main_enters argv port st : port_taken_as argv = Some port →
  ∃ u, rtc thread_step (starter_main argv, st)
    (u, STW (st_world st) true (Some port) (st_init st) (st_accepts st)) ∧ observe u = observe accept_loop.
Proof.
  unfold port_taken_as, starter_main. destruct argv as [|a0 [|arg more]]; try done.
  destruct (strtoull_end arg) as [n [|]]; [|done]. intros [= <-].
  exists (ITree.bind (Ret (st_init st)) (λ _, accept_loop)). split; [|reflexivity].
  eapply rtc_l; [reflexivity|]. cbn [fst snd]. eapply rtc_l; [reflexivity|]. cbn. apply rtc_refl.
Qed.

Lemma main_refuses argv st : port_taken_as argv = None → evals (starter_main argv) st EXIT_FAILURE st.
Proof.
  unfold port_taken_as, starter_main. destruct argv as [|a0 [|arg more]]; try (intros _; by apply evals_ret).
  destruct (strtoull_end arg) as [n [|]]; [done|]. intros _. by apply evals_ret.
Qed.

Lemma main_loops argv port st r st' : port_taken_as argv = Some port → ¬ evals (starter_main argv) st r st'.
Proof.
  unfold port_taken_as, starter_main. destruct argv as [|a0 [|arg more]]; try done.
  destruct (strtoull_end arg) as [n [|]]; [|done]. intros _ He.
  apply evals_bind_inv in He as (_ & st1 & He). apply evals_bind_inv in He as (_ & st2 & He).
  revert He. apply iter_never. intros [] w lr w' He. exists tt.
  do 3 apply evals_bind_inv in He as (? & ? & He). inversion He as [? ? ? Ho|? ? ? ? ? ? Hs]; subst.
  - cbn in Ho. by injection Ho.
  - by cbn in Hs.
Qed.

(** C34. When main of the skeleton returns.  With any connection library and in
    any world, it returns exactly when it is given no port argument or one that
    strtoull does not read to its end; then it returns EXIT_FAILURE and has done
    nothing.  Otherwise it has called listener_init and serves for ever, whatever
    listener_init said: no run of it returns. *)
Theorem starter_main_returns argv st r st' :
  evals (starter_main argv) st r st' ↔ port_taken_as argv = None ∧ r = EXIT_FAILURE ∧ st' = st.
Proof.
  split; [|intros (Hp & -> & ->); by apply main_refuses].
  intros He. destruct (port_taken_as argv) as [port|] eqn:Hp; [by eapply main_loops in He|].
  destruct (evals_det _ _ _ _ _ _ He (main_refuses argv st Hp)) as [-> ->]. done.
Qed.

Context `{!ConnLaws conn}.

(** C16. The skeleton serves its clients one after the other.  With any
    connection library that keeps what its header promises, and clients that
    are accepted in some order and meet no failing calls, main gets to the point
    where it waits for another client, with SIGPIPE ignored and the listener
    started on the port of the command line; the files are then those of the
    requests executed in the order of acceptance, where a PUT means what
    it means for the server of src/src ([spec_put]) and a GET changes nothing; every client was sent exactly the answer of its request, nothing in the
    case of a GET; and every connection is closed. *)
Theorem starter_serves argv port cls w init : port_taken_as argv = Some port →
  lined_up w cls → serene w → w_flocks w = ∅ →
  ∃ w' u, let st' := STW w' true (Some port) init [] in
    rtc thread_step (starter_main argv, STW w false None init (Z.of_nat <$> (cl_fd <$> cls))) (u, st') ∧
    observe u = observe accept_loop ∧ step_thread u st' = None ∧ all_served w cls w'.
Proof.
  intros Hp Hlu Hse Hfree.
  destruct (loop_serves cls (STW w true (Some port) init []) Hlu Hse Hfree) as (w' & Hs & _ & Hrun).
  destruct (main_enters argv port (STW w false None init (Z.of_nat <$> (cl_fd <$> cls))) Hp) as (u & Hu & Ho).
  destruct (rtc_observe _ _ _ _ _ Ho Hrun) as (u' & Hu' & Ho').
  exists w', u'. split_and!; try done; [by etrans|]. by rewrite (step_thread_observe _ _ _ Ho').
Qed.
End properties.

(** The two clients of [demo_two], the GET accepted first. *)
Definition demo_line : list client :=
  [ Client 6 1 (Asked REQUEST_GET (B "new.txt") []);
    Client 5 0 (Asked REQUEST_PUT (B "new.txt") (B "hello")) ].

Lemma demo_lined_up : lined_up demo_two demo_line.
Proof.
  split; [|by apply (bool_decide_unpack _)..]. repeat constructor; eexists; (split; [reflexivity|]).
  - exists (B "GET"), []. split_and!; try reflexivity; try done.
    all: apply (bool_decide_unpack _); by vm_compute.
  - exists (B "PUT"), demo_hs. split_and!; try reflexivity; try done.
    all: apply (bool_decide_unpack _); by vm_compute.
Qed.

Lemma starter_serves_witness : ∃ w' u, let st' := STW w' true (Some 8080) (-1) [] in
  rtc thread_step (starter_main [B "httpserver"; B "8080"], STW demo_two false None (-1) [6; 5]) (u, st') ∧
  step_thread u st' = None ∧ w_fds w' = ∅ ∧
  w_fs w' !! (srv ++ [B "new.txt"]) = Some (NFile (B "hello") (mode_0600 demo_two)).
Proof.
  destruct (starter_serves [B "httpserver"; B "8080"] 8080 demo_line demo_two (-1))
    as (w' & u & Hrun & _ & Hst & Hs).
  - by vm_compute.
  - exact demo_lined_up.
  - exact demo_two_serene.
  - reflexivity.
  - exists w', u. destruct Hs as (Hfs & Hfds & _). split_and!; [exact Hrun|exact Hst|..].
    + rewrite Hfds. by vm_compute.
    + rewrite Hfs. by vm_compute.
Defined.

(** C17. The skeleton and the server agree on PUT.  In the same world, with the
    repository's connection library, a well-formed PUT that meets no failing
    call leaves the same files and the same descriptors and is sent the same
    bytes whether the server's handler (with its lock, which is there, and its
    audit line) handles the connection or the skeleton does. *)
Theorem starter_put_agrees dir fd c w s u body st : at_rest w fd c s → serene w →
  lock_present w (lock_path_for dir u 192) u → st_world st = w →
  repo_reads (sk_in s) (sk_eof s) (Asked REQUEST_PUT u body) →
  wpt (handle_connection dir fd) w (λ _ w1,
    wpt (do! starter_handle_connection (Z.of_nat fd) in calls (close_int (Z.of_nat fd))) st (λ _ st2,
      let w2 := st_world st2 in w_fs w1 = w_fs w2 ∧ w_fds w1 = w_fds w2 ∧
      ∃ s1 s2, w_socks w1 !! c = Some s1 ∧ w_socks w2 !! c = Some s2 ∧ sk_out s1 = sk_out s2)).
Proof.
  intros Har Hse Hlock Hst Hrd. pose proof Hrd as (m & hs & Hin & Hwf & Hm & Hlen & Hno & Hput).
  destruct (Hput eq_refl) as [Hcl Hmax]. destruct (lock_present_open _ _ _ Hlock) as [Hop Htree].
  eapply wpt_conseq; [by eapply (connection_put dir fd c w s m u hs body)|].
  intros [] w1 (fs & fs' & res & rest & Ht & Hr & Hw1).
  rewrite (Htree _ Ht), Hop, set_fs_id in Hr. destruct Har as [Hfd Hs _ Hfree _].
  apply wpt_bind. eapply wpt_conseq.
  { eapply (starter_connection_spec fd c st s (Asked REQUEST_PUT u body)); by rewrite ?Hst. }
  cbn beta. intros [] st2 (w2 & -> & Hse2 & rest2 & Hw2). rewrite Hst in Hw2.
  cbn [starter_spec] in Hw2. rewrite <- Hr in Hw2. cbn [fst snd answer] in Hw2.
  unfold close_int. destruct (Z.ltb_spec (Z.of_nat fd) 0); [lia|]. rewrite Nat2Z.id.
  apply wpt_calls. eapply wpt_trigger; [reflexivity|]. cbn [st_world set_st].
  pose proof (sys_close_proper fd _ _ Hw2) as Hw3.
  unfold sys_close in Hw3 at 2. cbn [w_fds sock_out upd_sock set_socks set_fs sock_in] in Hw3.
  rewrite Hfd in Hw3. rewrite (w_fs_proper _ _ Hw1), (w_fs_proper _ _ Hw3).
  split; [done|]. rewrite (w_fds_proper _ _ Hw1), (w_fds_proper _ _ Hw3). split; [done|].
  destruct (equiv_sock _ _ c (Sock rest (sk_eof s) (sk_out s ++ response_message res) (sk_faults s)) Hw1)
    as (s1 & Hs1 & [= _ _ Ho1]).
  { cbn. by rewrite lookup_alter, decide_True, lookup_alter, decide_True, Hs by done. }
  destruct (equiv_sock _ _ c (Sock rest2 (sk_eof s) (sk_out s ++ response_message res) (sk_faults s)) Hw3)
    as (s2 & Hs2 & [= _ _ Ho2]).
  { cbn. by rewrite lookup_alter, decide_True, lookup_alter, decide_True, Hs by done. }
  exists s1, s2. split_and!; try done. by rewrite Ho1, Ho2.
Qed.

Lemma starter_put_agrees_witness :
  wpt (handle_connection demo_dir 5) demo_two (λ _ w1,
    wpt (do! starter_handle_connection 5 in calls (close_int 5)) (STW demo_two true (Some 8080) 0 []) (λ _ st2,
      w_fs w1 = w_fs (st_world st2))).
Proof.
  eapply wpt_conseq.
  - apply (starter_put_agrees demo_dir 5 0 demo_two
      (Sock (demo_put ++ B "hello") true [] [FShort 3; FShort 75]) (B "new.txt") (B "hello")
      (STW demo_two true (Some 8080) 0 [])).
    + split; [reflexivity|reflexivity|by vm_compute|reflexivity|apply demo_two_sizes].
    + exact demo_two_serene.
    + exists [B "tmp"; LOCKS; B "new.txt"], [], rw. split_and!; try reflexivity. by vm_compute.
    + reflexivity.
    + exists (B "PUT"), demo_hs. split_and!; try reflexivity; try done.
      apply (bool_decide_unpack _). by vm_compute.
  - intros [] w1 H. eapply wpt_conseq; [exact H|]. intros [] st2 [E _]. exact E.
Defined.
