(* ===== verification/Pools.v ===== *)
(** * Threads that interleave

    [pool_step] interleaves any number of threads one event at a time and
    records a trace of labels.  [ok] is the step-indexed safety judgement by
    which an invariant of all interleavings is proved thread by thread
    ([pool_sound]); [does] bounds the events a thread performs, and [ok_lift]
    carries a proof about a component over to an invariant that extends the
    component's. *)
From S2P Require Import Prelude Prog.

(** The label an event leaves in the trace of an execution. *)
Class Labelled (E : Type → Type) (L : Type) :=
  lab : ∀ X, E X → X → list L.
Arguments lab {E L _ X} _ _.

Section pools.
Context {E : Type → Type} {W L : Type} `{K : !Kernel E W} `{Lb : !Labelled E L}.

(** The label of the step [step_thread] takes. *)
Definition step_label {R} (t : itree E R) (w : W) : list L :=
  match observe t with
  | VisF e k => match sys e w with Some (_, x) => lab e x | None => [] end
  | _ => []
  end.

Record pool := Pool {
  pool_threads : list (itree E unit);
  pool_world : W;
  pool_trace : list (nat * L)  (* thread and label, oldest first *)
}.

(** Any thread that is not blocked or finished may take the next step. *)
Inductive pool_step : pool → pool → Prop :=
  | PoolStep i ts t t' w w' tr :
      ts !! i = Some t →
      step_thread t w = Some (t', w') →
      pool_step (Pool ts w tr)
        (Pool (<[i:=t']> ts) w' (tr ++ map (pair i) (step_label t w))).

Definition reachable (p q : pool) : Prop := rtc pool_step p q.

(** Executable scheduling: run the named threads in turn, skipping one that
    cannot move. *)
Fixpoint schedule (sched : list nat) (p : pool) : pool :=
  match sched with
  | [] => p
  | i :: sched =>
      schedule sched
        match pool_threads p !! i with
        | Some t =>
            match step_thread t (pool_world p) with
            | Some (t', w') =>
                Pool (<[i:=t']> (pool_threads p)) w'
                  (pool_trace p ++ map (pair i) (step_label t (pool_world p)))
            | None => p
            end
        | None => p
        end
  end.

Lemma schedule_reachable sched p : reachable p (schedule sched p).
Proof.
  unfold reachable.
  revert p. induction sched as [|i sched IH]; intros [ts w tr]; cbn; [done|].
  destruct (ts !! i) as [t|] eqn:Hi; [|apply IH].
  destruct (step_thread t w) as [[t' w']|] eqn:Hs; [|apply IH].
  eapply rtc_l; [by econstructor|apply IH].
Qed.

(** Threads neither appear nor disappear, and only they are in the trace. *)
Lemma reachable_threads p q : reachable p q →
  length (pool_threads q) = length (pool_threads p) ∧
  ((∀ i l, (i, l) ∈ pool_trace p → (i < length (pool_threads p))%nat) →
   ∀ i l, (i, l) ∈ pool_trace q → (i < length (pool_threads q))%nat).
Proof.
  unfold reachable. induction 1 as [p|p p1 q Hs _ [IH1 IH2]]; [done|].
  inversion Hs as [i ts t t' w w' tr Hi Hst]; subst. cbn in *. rewrite length_insert in *.
  split; [done|]. intros Hp. apply IH2. intros j l [Hj|Hj]%elem_of_app; [by eapply Hp|].
  apply list_elem_of_fmap in Hj as (l' & [= -> ->] & _). by eapply lookup_lt_Some.
Qed.

(** No thread can move. *)
Definition stuck (p : pool) : bool :=
  forallb (λ t, match step_thread t (pool_world p) with Some _ => false | None => true end)
    (pool_threads p).

Lemma stuck_thread p i t : stuck p = true → pool_threads p !! i = Some t →
  step_thread t (pool_world p) = None.
Proof.
  unfold stuck. rewrite forallb_forall. intros H Ht.
  specialize (H t (proj1 (list_elem_of_In _ _) (list_elem_of_lookup_2 _ _ _ Ht))).
  by destruct (step_thread t (pool_world p)).
Qed.

(** *** Safety of one thread under interference

    [G] is the ghost state of a thread (where it is, what it holds) and [Inv]
    the invariant that ties the trace, every thread's ghost state and the
    world together; [At g e] says which events a thread in ghost state [g] may
    be about to perform.  [ok n t g Q] says that for [n] more steps thread
    [t], being in ghost state [g], preserves [Inv] whatever the others did in
    between, and that [Q] holds when it returns. *)
Context {G : Type} (Inv : list (nat * L) → list G → W → Prop).
Context (At : ∀ X, G → E X → Prop).
Arguments At {X} _ _.

Fixpoint ok (n : nat) {R} (t : itree E R) (g : G) (Q : R → G → Prop) : Prop :=
  match n with
  | O => True
  | S n =>
      match observe t with
      | RetF r => Q r g
      | TauF t' => ok n t' g Q
      | VisF e k => At g e ∧ ∀ tr gs w w' x i,
          gs !! i = Some g → Inv tr gs w → sys e w = Some (w', x) →
          ∃ g', Inv (tr ++ map (pair i) (lab e x)) (<[i:=g']> gs) w' ∧
                ok n (k x) g' Q
      end
  end.

Lemma ok_S n {R} (t : itree E R) g Q : ok (S n) t g Q → ok n t g Q.
Proof.
  revert t g. induction n as [|n IH]; intros t g; [done|]. intros H.
  change (match observe t with
      | RetF r => Q r g
      | TauF t' => ok (S n) t' g Q
      | VisF e k => At g e ∧ ∀ tr gs w w' x i,
          gs !! i = Some g → Inv tr gs w → sys e w = Some (w', x) →
          ∃ g', Inv (tr ++ map (pair i) (lab e x)) (<[i:=g']> gs) w' ∧
                ok (S n) (k x) g' Q
      end) in H.
  cbn. destruct (observe t) as [r|t'|X e k]; [done|by apply IH|].
  destruct H as [HA H]. split; [done|]. intros tr gs w w' x i Hi HI Hs.
  destruct (H tr gs w w' x i Hi HI Hs) as (g' & ? & ?). eauto.
Qed.

Lemma ok_le n m {R} (t : itree E R) g Q : (m ≤ n)%nat → ok n t g Q → ok m t g Q.
Proof. induction 1; [done|]. intros H'. apply IHle. by apply ok_S. Qed.

Lemma ok_ret n {R} (r : R) g (Q : R → G → Prop) : Q r g → ok n (Ret r) g Q.
Proof. by destruct n. Qed.

Lemma ok_conseq n {R} (t : itree E R) g (P Q : R → G → Prop) :
  ok n t g P → (∀ r g', P r g' → Q r g') → ok n t g Q.
Proof.
  intros H HPQ. revert t g H. induction n as [|n IH]; intros t g; [done|].
  cbn. destruct (observe t) as [r|t'|X e k]; [by auto|by auto|].
  intros [HA H]. split; [done|]. intros tr gs w w' x i Hi HI Hs.
  destruct (H tr gs w w' x i Hi HI Hs) as (g' & ? & ?). eauto.
Qed.

Lemma ok_bind n {R S} (t : itree E R) (k : R → itree E S) g Q :
  ok n t g (λ r g', ok n (k r) g' Q) → ok n (ITree.bind t k) g Q.
Proof.
  intros H.
  assert (Hgen : ∀ m t g, ok m t g (λ r g', ok n (k r) g' Q) → (m ≤ n)%nat →
    ok m (ITree.bind t k) g Q); [|by apply Hgen].
  clear. induction m as [|m IH]; intros t g; [done|].
  cbn. rewrite observe_bind. destruct (observe t) as [r|t'|X e h].
  - intros H Hle. apply (ok_le _ (Datatypes.S m)) in H; [done|lia].
  - intros H Hle. apply IH; [done|lia].
  - intros [HA H] Hle. split; [done|]. intros tr gs w w' x i Hi HI Hs.
    destruct (H tr gs w w' x i Hi HI Hs) as (g' & ? & ?).
    exists g'. split; [done|]. apply IH; [done|lia].
Qed.

Lemma ok_vis n {X R} (e : E X) (k : X → itree E R) g Q :
  At g e →
  (∀ tr gs w w' x i, gs !! i = Some g → Inv tr gs w → sys e w = Some (w', x) →
     ∃ g', Inv (tr ++ map (pair i) (lab e x)) (<[i:=g']> gs) w' ∧
           ok n (k x) g' Q) →
  ok n (Vis e k) g Q.
Proof.
  intros HA H. apply ok_S. cbn. by split.
Qed.

Lemma ok_trigger n {X} (e : E X) g (Q : X → G → Prop) :
  At g e →
  (∀ tr gs w w' x i, gs !! i = Some g → Inv tr gs w → sys e w = Some (w', x) →
     ∃ g', Inv (tr ++ map (pair i) (lab e x)) (<[i:=g']> gs) w' ∧ Q x g') →
  ok n (perform e) g Q.
Proof.
  intros HA H. apply ok_vis; [done|]. intros tr gs w w' x i Hi HI Hs.
  destruct (H tr gs w w' x i Hi HI Hs) as (g' & ? & ?).
  exists g'. split; [done|by apply ok_ret].
Qed.

Lemma ok_iter n {R I} (f : I → itree E (I + R)) (P : I → G → Prop) (Q : R → G → Prop) :
  (∀ m i g, P i g → ok m (f i) g (λ lr g', match lr with
     | inl j => P j g' | inr r => Q r g' end)) →
  ∀ i g, P i g → ok n (ITree.iter f i) g Q.
Proof.
  intros Hf. induction n as [|n IH]; intros i g HP; [done|].
  assert (Hb : ok (Datatypes.S n) (ITree.bind (f i) (λ lr, match lr with
      inl l => Tau (ITree.iter f l) | inr r => Ret r end)) g Q).
  { apply ok_bind. eapply ok_conseq; [by apply Hf|].
    intros [j|r] g' H'; [|by apply ok_ret]. cbn. by apply IH. }
  cbn in Hb |- *. by rewrite observe_iter.
Qed.

(** An invariant that every thread preserves holds in every reachable pool. *)
Lemma pool_sound_n (Q : unit → G → Prop) n m p q gs :
  nsteps pool_step m p q →
  Inv (pool_trace p) gs (pool_world p) →
  Forall2 (λ t g, ok (m + n) t g Q) (pool_threads p) gs →
  ∃ gs', Inv (pool_trace q) gs' (pool_world q) ∧
         Forall2 (λ t g, ok n t g Q) (pool_threads q) gs'.
Proof.
  intros Hsteps. revert gs.
  induction Hsteps as [p|m p p1 q Hstep _ IH]; intros gs HI Hok; [eauto|].
  inversion Hstep as [i ts t t' w w' tr Hi Hs]; subst. cbn in *.
  destruct (Forall2_lookup_l _ _ _ _ _ Hok Hi) as (g & Hg & Hokt).
  assert (∃ g', Inv (tr ++ map (pair i) (step_label t w)) (<[i:=g']> gs) w' ∧
      ok (m + n) t' g' Q) as (g' & HI' & Hok').
  { cbn in Hokt. unfold step_thread, step_label in *.
    destruct (observe t) as [r|t1|X e k]; simplify_eq.
    - exists g. cbn. rewrite app_nil_r, list_insert_id by done. done.
    - destruct (sys e w) as [[w1 x]|] eqn:He; simplify_eq.
      by apply (proj2 Hokt tr gs w w' x i). }
  apply (IH (<[i:=g']> gs)); [done|]. cbn.
  apply Forall2_insert; [|done].
  eapply Forall2_impl; [done|]. cbn. intros ?? H. by apply ok_S in H.
Qed.

Lemma pool_sound (Q : unit → G → Prop) p q gs :
  reachable p q →
  Inv (pool_trace p) gs (pool_world p) →
  (∀ n, Forall2 (λ t g, ok n t g Q) (pool_threads p) gs) →
  ∃ gs', Inv (pool_trace q) gs' (pool_world q) ∧
         Forall2 (λ t g, ok 1 t g Q) (pool_threads q) gs'.
Proof.
  intros Hr HI Hok. apply rtc_nsteps in Hr as [m Hm].
  by eapply (pool_sound_n Q 1 m).
Qed.


End pools.

Arguments pool _ _ _ : clear implicits.

(** ** What a thread left in the trace *)

Definition labels_of {L} (i : nat) (tr : list (nat * L)) : list L :=
  omap (λ '(j, l), if decide (i = j) then Some l else None) tr.

Lemma labels_of_app {L} i (tr tr' : list (nat * L)) :
  labels_of i (tr ++ tr') = labels_of i tr ++ labels_of i tr'.
Proof. apply omap_app. Qed.

Lemma labels_of_self {L} i (ls : list L) : labels_of i (map (pair i) ls) = ls.
Proof.
  unfold labels_of. induction ls as [|l ls IH]; cbn; [done|].
  rewrite decide_True by done. by rewrite IH.
Qed.
Lemma labels_of_other {L} i j (ls : list L) : i ≠ j → labels_of i (map (pair j) ls) = [].
Proof.
  intros Hne. unfold labels_of. induction ls as [|l ls IH]; cbn; [done|].
  by rewrite decide_False.
Qed.

Lemma labels_of_elem {L} i l (tr : list (nat * L)) : l ∈ labels_of i tr → (i, l) ∈ tr.
Proof.
  unfold labels_of. rewrite list_elem_of_omap. intros ([j l'] & Hin & Hj). by case_decide; simplify_eq.
Qed.

(** ** Counting threads by ghost state *)

Section total.
Context {G : Type}.
Implicit Types (f h : G → nat) (gs : list G).

(** How many threads (with multiplicity) [f] counts. *)
Definition total f gs : nat := sum_list_with f gs.

Lemma total_insert f gs i g g' : gs !! i = Some g →
  (total f (<[i := g']> gs) + f g = total f gs + f g')%nat.
Proof.
  unfold total. revert i. induction gs as [|a gs IH]; intros [|i]; simpl; try done.
  - intros [= ->]. lia.
  - intros Hi. specialize (IH i Hi). lia.
Qed.

Lemma total_in f gs i g : gs !! i = Some g → (f g ≤ total f gs)%nat.
Proof.
  unfold total. revert i. induction gs as [|a gs IH]; intros [|i]; cbn; try done.
  - intros [= ->]. lia.
  - intros Hi. specialize (IH i Hi). lia.
Qed.

Lemma total_two f gs i j g g' : i ≠ j → gs !! i = Some g → gs !! j = Some g' →
  (f g + f g' ≤ total f gs)%nat.
Proof.
  unfold total. revert i j. induction gs as [|a gs IH]; intros [|i] [|j] Hne; cbn; try done.
  - intros [= ->] Hj. pose proof (total_in f gs j g' Hj) as H. unfold total in H. lia.
  - intros Hi [= ->]. pose proof (total_in f gs i g Hi) as H. unfold total in H. lia.
  - intros Hi Hj. specialize (IH i j ltac:(congruence) Hi Hj). lia.
Qed.

Lemma total_zero f gs : (∀ g, g ∈ gs → f g = 0%nat) → total f gs = 0%nat.
Proof.
  intros H. unfold total. induction gs as [|g gs IH]; cbn; [done|].
  rewrite (H g) by left. rewrite IH; [done|]. intros g' Hg'. apply H. by right.
Qed.

Lemma total_pos f gs : total f gs ≠ 0%nat → ∃ i g, gs !! i = Some g ∧ f g ≠ 0%nat.
Proof.
  unfold total. induction gs as [|a gs IH]; cbn; [done|]. intros H.
  destruct (decide (f a = 0%nat)) as [Ha|Ha]; [|by exists 0%nat, a].
  destruct IH as (i & g & Hi & Hg); [lia|]. by exists (S i), g.
Qed.

(** The one thread that [h] counts accounts for all that [f ≤ h] counts. *)
Lemma total_alone f h gs i g : (∀ x, (f x ≤ h x)%nat) → gs !! i = Some g → h g = 1%nat →
  (total h gs ≤ 1)%nat → total f gs = f g.
Proof.
  intros Hf Hi Hg Hle.
  unfold total in *. revert i Hi Hle. induction gs as [|a gs IH]; intros [|i]; cbn; try done.
  - intros [= ->] Hle.
    assert (sum_list_with f gs = 0)%nat; [|lia].
    assert (sum_list_with h gs = 0)%nat as H0 by lia.
    clear -Hf H0. induction gs as [|b gs IH]; cbn in *; [done|].
    specialize (Hf b). rewrite IH by lia. lia.
  - intros Hi Hle. pose proof (total_in h gs i g Hi) as Hin. unfold total in Hin.
    rewrite (IH i Hi) by lia. specialize (Hf a). lia.
Qed.
End total.

(** ** The events of a thread *)

Section events.
Context {E : Type → Type} (P : ∀ X, E X → Prop).
Arguments P {X} _.

(** For [n] steps, whatever the answers, [t] performs only events in [P]. *)
Fixpoint does (n : nat) {R} (t : itree E R) : Prop :=
  match n with
  | O => True
  | S n =>
      match observe t with
      | RetF _ => True
      | TauF t' => does n t'
      | VisF e k => P e ∧ ∀ x, does n (k x)
      end
  end.

Lemma does_S n {R} (t : itree E R) : does (S n) t → does n t.
Proof.
  revert t. induction n as [|n IH]; intros t; [done|]. intros H.
  change (match observe t with
      | RetF _ => True | TauF t' => does (S n) t' | VisF e k => P e ∧ ∀ x, does (S n) (k x)
      end) in H.
  cbn. destruct (observe t) as [r|t'|X e k]; [done|by apply IH|].
  destruct H as [HP H]. split; [done|]. intros x. apply IH, H.
Qed.

Lemma does_ret n {R} (r : R) : does n (Ret r).
Proof. by destruct n. Qed.

Lemma does_trigger n {X} (e : E X) : P e → does n (perform e).
Proof. intros He. destruct n; [done|]. cbn. split; [done|]. intros x. apply does_ret. Qed.

Lemma does_bind n {R S} (t : itree E R) (k : R → itree E S) :
  does n t → (∀ r, does n (k r)) → does n (ITree.bind t k).
Proof.
  intros Ht Hk. revert t Ht. induction n as [|n IH]; intros t Ht; [done|].
  cbn in Ht |- *. rewrite observe_bind. destruct (observe t) as [r|t'|X e h].
  - apply Hk.
  - apply IH; [|done]. intros r. apply does_S, Hk.
  - destruct Ht as [HP H]. split; [done|]. intros x. apply IH; [|done]. intros r. apply does_S, Hk.
Qed.

Lemma does_iter n {R I} (f : I → itree E (I + R)) :
  (∀ m i, does m (f i)) → ∀ i, does n (ITree.iter f i).
Proof.
  intros Hf. induction n as [|n IH]; intros i; [done|].
  assert (Hb : does (Datatypes.S n) (ITree.bind (f i) (λ lr, match lr with
      inl l => Tau (ITree.iter f l) | inr r => Ret r end))).
  { apply does_bind; [apply Hf|]. intros [j|r]; [cbn; apply IH|apply does_ret]. }
  cbn in Hb |- *. by rewrite observe_iter.
Qed.
End events.

(** Through the code, when every event is plainly in the set. *)
Ltac does_tac := repeat first
  [ apply does_bind; [|intros ?] | apply does_trigger; exact Logic.I | apply does_ret
  | apply does_iter; intros ? ? | case_match ].

(** ** From a component's invariant to one that extends it *)

Section lifting.
Context {E : Type → Type} {W L : Type} `{K : !Kernel E W} `{Lb : !Labelled E L}.
Context {C G : Type} (I : list (nat * L) → list G → W → Prop) (At : ∀ X, G → E X → Prop).
Context (I' : list (nat * L) → list (C * G) → W → Prop) (At' : ∀ X, C * G → E X → Prop).
Context (P : ∀ X, E X → Prop) (c : C).

(** A thread whose outer ghost state is [c] while it runs [t]: the outer
    invariant gives the component's, and a step by an event in [P] that keeps
    the component's invariant keeps the outer one. *)
Lemma ok_lift n {R} (t : itree E R) g (Q : R → G → Prop) :
  (∀ X (e : E X) g, P X e → At X g e → At' X (c, g) e) →
  (∀ tr gs w i g, I' tr gs w → gs !! i = Some (c, g) → I tr (gs.*2) w) →
  (∀ X (e : E X) x tr gs w w' i g g', P X e → I' tr gs w → gs !! i = Some (c, g) →
     sys e w = Some (w', x) →
     I (tr ++ map (pair i) (lab e x)) (<[i:=g']> (gs.*2)) w' →
     I' (tr ++ map (pair i) (lab e x)) (<[i:=(c, g')]> gs) w') →
  ok I At n t g Q → does P n t → ok I' At' n t (c, g) (λ r g', g'.1 = c ∧ Q r g'.2).
Proof.
  intros HA Hin Hout. revert t g. induction n as [|n IH]; intros t g; [done|].
  cbn. destruct (observe t) as [r|t'|X e k]; [done|by auto|].
  intros [Hat H] [HP Hd]. split; [by apply HA|]. intros tr gs w w' x i Hi HI Hs.
  destruct (H tr (gs.*2) w w' x i) as (g' & HI' & Hok); [|by eapply Hin|done|].
  { by rewrite list_lookup_fmap, Hi. }
  exists (c, g'). split; [by eapply Hout|]. apply IH; [done|apply Hd].
Qed.
End lifting.
