(* ===== verification/Alone.v ===== *)
(** * A thread that runs alone first

    Until main has created its threads they cannot move, so what main does
    before is a sequential run: every state of the pool is one of that run, or is
    reachable from the state it leaves. *)
From S2P Require Import Prelude Prog Pools.

Section alone.
Context {E : Type → Type} {W L : Type} `{K : !Kernel E W} `{Lb : !Labelled E L}.
Context (idle : W → Prop) (P : ∀ X, E X → Prop) (i : nat) (ts : list (itree E unit)).

(** In an [idle] world the other threads are blocked. *)
Context (Hblocked : ∀ j t w, j ≠ i → ts !! j = Some t → idle w → step_thread t w = None).

(** The calls of the prefix leave the world idle, and nothing in the trace. *)
Context (Hquiet : ∀ X (e : E X) w w' x, P X e → idle w → sys e w = Some (w', x) → idle w' ∧ lab e x = []).

Definition with_main (t : itree E unit) (w : W) (tr : list (nat * L)) : pool E W L := Pool (<[i := t]> ts) w tr.

Lemma alone_step {R} (t t1 : itree E R) (k : R → itree E unit) w w1 tr q : (∀ n, does P n t) → idle w →
  step_thread t w = Some (t1, w1) → pool_step (with_main (ITree.bind t k) w tr) q →
  q = with_main (ITree.bind t1 k) w1 tr.
Proof.
  intros Hd Hid Hs Hp. inversion Hp as [j ts' t' t2 w' w2 tr' Hj Hst]; subst.
  rewrite list_lookup_insert in Hj. case_decide as Hc.
  - destruct Hc as [<- _]. injection Hj as <-. specialize (Hd 1%nat). cbn in Hd.
    unfold with_main, step_thread, step_label in *. rewrite list_insert_insert_eq. rewrite observe_bind in *.
    destruct (observe t) as [r|t'|X e h]; [done|..].
    + simplify_eq. by rewrite app_nil_r.
    + destruct (sys e w) as [[w' x]|] eqn:He; [|done]. simplify_eq.
      destruct (Hquiet _ _ _ _ _ (proj1 Hd) Hid He) as [_ ->]. by rewrite app_nil_r.
  - destruct (decide (j = i)) as [->|Hne]; [destruct Hc; split; [done|by eapply lookup_lt_Some]|]. by rewrite (Hblocked _ _ _ Hne Hj Hid) in Hst.
Qed.

Lemma alone_reach {R} (t : itree E R) (k : R → itree E unit) w r w' tr q :
  evals t w r w' → (∀ n, does P n t) → idle w → reachable (with_main (ITree.bind t k) w tr) q →
  (∃ t1 w1 y, q = with_main (ITree.bind t1 k) w1 tr ∧ step_thread t1 w1 = Some y ∧ evals t1 w1 r w' ∧ idle w1) ∨
  ∃ u, observe u = observe (k r) ∧ reachable (with_main u w' tr) q.
Proof.
  intros He. revert q. induction He as [t w r Ht|t w t1 w1 r w' Hs He IH]; intros q Hd Hid Hr.
  - right. exists (ITree.bind t k). split; [|done]. by rewrite observe_bind, Ht.
  - inversion Hr as [|? q1 ? Hq1 Hr1]; subst.
    + left. exists t, w, (t1, w1). split_and!; try done. by eapply evals_step.
    + apply (alone_step _ _ _ _ _ _ _ Hd Hid Hs) in Hq1 as ->. apply IH; [| |done].
      all: assert (Hd' := λ n, Hd (S n)); cbn in Hd'; unfold step_thread in Hs;
        destruct (observe t) as [r'|t'|X e h]; [done|..].
      * intros n. injection Hs as <- _. apply Hd'.
      * intros n. destruct (sys e w) as [[w2 x]|]; [|done]. injection Hs as <- _. apply Hd'.
      * by injection Hs as _ <-.
      * destruct (sys e w) as [[w2 x]|] eqn:Hsys; [|done]. injection Hs as _ <-.
        by eapply Hquiet; [apply (Hd' 0%nat)|..].
Qed.
End alone.

(** What no call undoes. *)
Lemma evals_stable {E W R} `{K : !Kernel E W} (P : W → Prop) (t : itree E R) w r w' :
  (∀ X (e : E X) w w' x, sys e w = Some (w', x) → P w → P w') → evals t w r w' → P w → P w'.
Proof.
  intros HP. induction 1 as [|t w t1 w1 r w' Hs _ IH]; [done|]. intros Hw. apply IH. unfold step_thread in Hs.
  destruct (observe t) as [|t'|X e h]; [done|by simplify_eq|].
  destruct (sys e w) as [[w2 x]|] eqn:He; [|done]. simplify_eq. by eapply HP.
Qed.

Lemma reachable_stable {E W L} `{K : !Kernel E W} `{Lb : !Labelled E L} (P : W → Prop) (p q : pool E W L) :
  (∀ X (e : E X) w w' x, sys e w = Some (w', x) → P w → P w') → reachable p q → P (pool_world p) → P (pool_world q).
Proof.
  intros HP. unfold reachable. induction 1 as [|p p1 q Hs _ IH]; [done|]. intros Hp. apply IH.
  inversion Hs as [i ts t t' w w' tr Hi Hst]; subst. cbn in *. unfold step_thread in Hst.
  destruct (observe t) as [|t1|X e h]; [done|by simplify_eq|].
  destruct (sys e w) as [[w2 x]|] eqn:He; [|done]. simplify_eq. by eapply HP.
Qed.

(** Only what a thread does next matters. *)
Lemma ok_observe {E W L G R} `{K : !Kernel E W} `{Lb : !Labelled E L} (Inv : list (nat * L) → list G → W → Prop)
    (At : ∀ X, G → E X → Prop) n (t u : itree E R) g Q :
  observe t = observe u → ok Inv At n u g Q → ok Inv At n t g Q.
Proof. intros Ho. destruct n; [done|]. cbn. by rewrite Ho. Qed.
