(* ===== verification/PoolsTerm.v ===== *)
(** * Threads that interleave and end

    [okt] is the total version of [ok] (Pools.v): whatever the others did in
    between, the thread preserves the invariant and returns after finitely many
    steps.  A loop that an outside event sends round once more is bounded by
    the world's [budget] of such events (faults still to come), which no step
    may raise.  If all threads of a pool are [okt] then the pool has no infinite
    run ([pool_terminates]). *)
From S2P Require Import Prelude Prog Pools.

(** No call raises the budget. *)
Class Falling (E : Type → Type) {W} `{K : !Kernel E W} (budget : W → nat) :=
  budget_falls : ∀ X (e : E X) w w' x, sys e w = Some (w', x) → (budget w' ≤ budget w)%nat.

Section term.
Context {E : Type → Type} {W L : Type} `{K : !Kernel E W} `{Lb : !Labelled E L}.
Context {G : Type} (Inv : list (nat * L) → list G → W → Prop).
Context (At : ∀ X, G → E X → Prop).
Context (budget : W → nat).
Arguments At {X} _ _.

(** [okt b t g Q]: with at most [b] in the budget, [t] is safe and returns. *)
Inductive okt (b : nat) {R} (t : itree E R) (g : G) (Q : R → G → Prop) : Prop :=
  | okt_return r : observe t = RetF r → Q r g → okt b t g Q
  | okt_silent t' : observe t = TauF t' → okt b t' g Q → okt b t g Q
  | okt_event X (e : E X) k : observe t = VisF e k → At g e →
      (∀ tr gs w w' x i, gs !! i = Some g → Inv tr gs w → (budget w ≤ b)%nat → sys e w = Some (w', x) →
         ∃ g', Inv (tr ++ map (pair i) (lab e x)) (<[i:=g']> gs) w' ∧ okt (budget w') (k x) g' Q) →
      okt b t g Q.

(** What one call leaves: [P] of the budget, the thread and its ghost state. *)
Definition after_event (b : nat) {R X} (e : E X) (k : X → itree E R) (g : G)
    (P : nat → itree E R → G → Prop) : Prop :=
  ∀ tr gs w w' x i, gs !! i = Some g → Inv tr gs w → (budget w ≤ b)%nat → sys e w = Some (w', x) →
    ∃ g', Inv (tr ++ map (pair i) (lab e x)) (<[i:=g']> gs) w' ∧ P (budget w') (k x) g'.

(** The induction principle, with the hypothesis under the existential. *)
Lemma okt_elim {R} (P : nat → itree E R → G → (R → G → Prop) → Prop) :
  (∀ b t g Q r, observe t = RetF r → Q r g → P b t g Q) →
  (∀ b t g Q t', observe t = TauF t' → okt b t' g Q → P b t' g Q → P b t g Q) →
  (∀ b t g Q X (e : E X) k, observe t = VisF e k → At g e →
     after_event b e k g (λ b' t' g', okt b' t' g' Q ∧ P b' t' g' Q) → P b t g Q) →
  ∀ b t g Q, okt b t g Q → P b t g Q.
Proof.
  intros HR HT HV. fix IH 5. intros b t g Q [r Ho HQ|t' Ho H|X e k Ho HA H].
  - by eapply HR.
  - eapply HT; [done..|]. by apply IH.
  - eapply HV; [done..|]. intros tr gs w w' x i Hi HI Hb Hs.
    destruct (H tr gs w w' x i Hi HI Hb Hs) as (g' & H1 & H2).
    exists g'. split; [done|]. split; [done|]. by apply IH.
Qed.

Local Ltac okt_induction H :=
  match type of H with
  | okt ?b ?t ?g ?Q => pattern b, t, g, Q; refine (okt_elim _ _ _ _ b t g Q H); clear b t g Q H; cbn beta
  end.

Lemma okt_mono b b' {R} (t : itree E R) g Q : (b' ≤ b)%nat → okt b t g Q → okt b' t g Q.
Proof.
  intros Hle H. revert b' Hle. okt_induction H;
    [intros b t g Q r Ho HQ b' Hle|intros b t g Q t' Ho _ IH b' Hle|intros b t g Q X e k Ho HA H b' Hle].
  - by eapply okt_return.
  - eapply okt_silent; eauto.
  - eapply okt_event; [done..|]. intros tr gs w w' x i Hi HI Hb Hs.
    destruct (H tr gs w w' x i Hi HI ltac:(lia) Hs) as (g' & H1 & H2 & _). eauto.
Qed.

Lemma okt_ret b {R} (r : R) g (Q : R → G → Prop) : Q r g → okt b (Ret r) g Q.
Proof. by apply okt_return. Qed.

Lemma okt_conseq b {R} (t : itree E R) g (P Q : R → G → Prop) :
  okt b t g P → (∀ r g', P r g' → Q r g') → okt b t g Q.
Proof.
  intros H. okt_induction H;
    [intros b t g P r Ho HQ HPQ|intros b t g P t' Ho _ IH HPQ|intros b t g P X e k Ho HA H HPQ].
  - eapply okt_return; eauto.
  - eapply okt_silent; eauto.
  - eapply okt_event; [done..|]. intros tr gs w w' x i Hi HI Hb Hs.
    destruct (H tr gs w w' x i Hi HI Hb Hs) as (g' & H1 & _ & H2). eauto.
Qed.

Lemma okt_observe b {R} (t t' : itree E R) g Q : observe t = observe t' → okt b t' g Q → okt b t g Q.
Proof.
  intros Ho [r Hr HQ|u Hr H|X e k Hr HA H]; rewrite <- Ho in Hr.
  - by eapply okt_return.
  - by eapply okt_silent.
  - by eapply okt_event.
Qed.

Context `{Hfalls : !Falling E budget}.

Lemma okt_bind b {R S} (t : itree E R) (k : R → itree E S) g Q :
  okt b t g (λ r g', okt b (k r) g' Q) → okt b (ITree.bind t k) g Q.
Proof.
  enough (Hgen : ∀ b1 P, okt b1 t g P → (b1 ≤ b)%nat → (∀ r g', P r g' → okt b (k r) g' Q) →
    okt b1 (ITree.bind t k) g Q) by eauto.
  intros b1 P H. okt_induction H;
    [intros b1 t g P r Ho HQ Hle HP|intros b1 t g P t' Ho _ IH Hle HP|intros b1 t g P X e h Ho HA H Hle HP].
  - eapply okt_observe; [by rewrite observe_bind, Ho|]. eapply okt_mono; eauto.
  - eapply okt_silent; [by rewrite observe_bind, Ho|]. by apply IH.
  - eapply okt_event; [by rewrite observe_bind, Ho|done|]. intros tr gs w w' x i Hi HI Hb Hs.
    destruct (H tr gs w w' x i Hi HI Hb Hs) as (g' & H1 & _ & H2). exists g'.
    split; [done|]. apply H2; [|done]. apply budget_falls in Hs. lia.
Qed.

Lemma okt_trigger b {X} (e : E X) g (Q : X → G → Prop) : At g e →
  (∀ tr gs w w' x i, gs !! i = Some g → Inv tr gs w → sys e w = Some (w', x) →
     ∃ g', Inv (tr ++ map (pair i) (lab e x)) (<[i:=g']> gs) w' ∧ Q x g') →
  okt b (perform e) g Q.
Proof.
  intros HA H. eapply okt_event; [done..|]. intros tr gs w w' x i Hi HI _ Hs.
  destruct (H tr gs w w' x i Hi HI Hs) as (g' & H1 & H2). exists g'. split; [done|]. by apply okt_ret.
Qed.

(** A loop that goes round at most once. *)
Lemma okt_iter_once b {R I} (f : I → itree E (I + R)) i g (Q : R → G → Prop) :
  okt b (f i) g (λ lr g', match lr with inl _ => False | inr r => Q r g' end) → okt b (ITree.iter f i) g Q.
Proof.
  intros H. eapply okt_observe; [apply observe_iter|]. apply okt_bind. eapply okt_conseq; [exact H|].
  intros [j|r] g'; [done|]. by apply okt_ret.
Qed.

(** A loop in which [m] falls with every turn. *)
Lemma okt_iter b {R I} (f : I → itree E (I + R)) (P : I → G → Prop) (m : I → nat) (Q : R → G → Prop) :
  (∀ i g, P i g → okt b (f i) g (λ lr g', match lr with inl j => P j g' ∧ (m j < m i)%nat | inr r => Q r g' end)) →
  ∀ i g, P i g → okt b (ITree.iter f i) g Q.
Proof.
  intros Hf i. remember (m i) as n eqn:Hn. revert i Hn. induction (lt_wf n) as [n _ IH]. intros i -> g HP.
  eapply okt_observe; [apply observe_iter|]. apply okt_bind. eapply okt_conseq; [by apply Hf|].
  intros [j|r] g'; [|by apply okt_ret]. intros [HP' Hm]. eapply okt_silent; [done|]. by eapply IH.
Qed.

(** A loop whose turn is one call: [m] falls, or the budget does. *)
Lemma okt_iter_call b {R I} (f : I → itree E (I + R)) (P : I → G → Prop) (m : I → nat) (Q : R → G → Prop) :
  (∀ i g, P i g → (∃ r, observe (f i) = RetF (inr r) ∧ Q r g) ∨
     ∃ X (e : E X) k, observe (f i) = VisF e k ∧ At g e ∧
       ∀ tr gs w w' x j, gs !! j = Some g → Inv tr gs w → sys e w = Some (w', x) →
         ∃ g' lr, Inv (tr ++ map (pair j) (lab e x)) (<[j:=g']> gs) w' ∧ observe (k x) = RetF lr ∧
           match lr with inl l => P l g' ∧ ((budget w' < budget w)%nat ∨ (m l < m i)%nat) | inr r => Q r g' end) →
  ∀ i g, P i g → okt b (ITree.iter f i) g Q.
Proof.
  intros Hf. induction (lt_wf b) as [b _ IHb]. intros i. remember (m i) as n eqn:Hn. revert i Hn.
  induction (lt_wf n) as [n _ IHn]. intros i -> g HP. eapply okt_observe; [apply observe_iter|].
  destruct (Hf i g HP) as [(r & Ho & HQ)|(X & e & k & Ho & HA & H)].
  - eapply okt_return; [by rewrite observe_bind, Ho|done].
  - eapply okt_event; [by rewrite observe_bind, Ho|done|]. intros tr gs w w' x j Hj HI Hb Hs.
    destruct (H tr gs w w' x j Hj HI Hs) as (g' & lr & HI' & Hr & Hlr). exists g'. split; [done|].
    destruct lr as [l|r].
    + eapply okt_silent; [by rewrite observe_bind, Hr|]. destruct Hlr as [HP' Hor].
      pose proof (budget_falls _ _ _ _ _ Hs).
      destruct (decide (budget w' < b)%nat); [by apply IHb|]. eapply okt_mono; [|eapply IHn]; [lia| |done|done]. lia.
    + eapply okt_return; [by rewrite observe_bind, Hr|done].
Qed.

(** What a thread that is [okt] is about to do. *)
Definition now {R} (t : itree E R) (g : G) (Q : R → G → Prop) : Prop :=
  match observe t with RetF r => Q r g | TauF _ => True | VisF e _ => At g e end.

Lemma okt_now b {R} (t : itree E R) g Q : okt b t g Q → now t g Q.
Proof. unfold now. by intros [r -> ?|t' -> ?|X e k -> ? ?]. Qed.

(** ** Pools *)

Section runs.
Context (Q : unit → G → Prop).
Implicit Types (t : itree E unit) (l : list (itree E unit * G)).

Definition all_okt (b : nat) l : Prop := Forall (λ '(t, g), okt b t g Q) l.

(** [F] holds after the next step of a thread, unless it lowers the budget. *)
Definition after_step (b : nat) t g (F : itree E unit → G → Prop) : Prop :=
  match observe t with
  | RetF _ => True
  | TauF t' => okt b t' g Q ∧ F t' g
  | VisF e k => after_event b e k g (λ b' t' g', okt b' t' g' Q ∧ (b' = b → F t' g'))
  end.

(** What holds of the threads as soon as it holds after any step of any of them. *)
Definition stepwise (b : nat) (D : list (itree E unit * G) → Prop) : Prop :=
  ∀ l, (∀ i t g, l !! i = Some (t, g) → after_step b t g (λ t' g', D (<[i := (t', g')]> l))) → D l.

Lemma after_step_mono b t g (F F' : itree E unit → G → Prop) :
  (∀ t' g', okt b t' g' Q → F t' g' → F' t' g') → after_step b t g F → after_step b t g F'.
Proof.
  intros HF. unfold after_step. destruct (observe t) as [r|t'|X e k]; [done|..].
  - intros [H1 H2]. auto.
  - intros H tr gs w w' x i Hi HI Hb Hs. destruct (H tr gs w w' x i Hi HI Hb Hs) as (g' & H1 & H2 & H3).
    exists g'. split; [done|]. split; [done|]. intros <-. auto.
Qed.

Lemma okt_head b n (D : list (itree E unit * G) → Prop) : stepwise b D →
  (∀ D', stepwise b D' → ∀ l, length l = n → all_okt b l → D' l) →
  ∀ t g, okt b t g Q → ∀ l, length l = n → all_okt b l → D ((t, g) :: l).
Proof.
  intros HD IHn.
  assert (Htail : ∀ t g, (∀ l, length l = n → all_okt b l → after_step b t g (λ t' g', D ((t', g') :: l))) →
    ∀ l, length l = n → all_okt b l → D ((t, g) :: l)).
  { intros t g Hh l Hlen Hall.
    refine (IHn (λ l, length l = n → all_okt b l → D ((t, g) :: l)) _ l Hlen Hall Hlen Hall).
    clear l Hlen Hall. intros l Hl Hlen Hall. apply HD. intros [|j] t1 g1 Hj; cbn in Hj |- *.
    - injection Hj as <- <-. by apply Hh.
    - eapply after_step_mono; [|by apply Hl]. intros t' g' Hok HF.
      apply HF; [by rewrite length_insert|by apply Forall_insert]. }
  intros t g Ht.
  enough (Hgen : ∀ b1 Q1, okt b1 t g Q1 → b1 = b → Q1 = Q → ∀ l, length l = n → all_okt b l → D ((t, g) :: l)) by eauto.
  clear Ht. intros b1 Q1 H. okt_induction H;
    [intros b1 t g Q1 r Ho _ -> ->|intros b1 t g Q1 t' Ho Hok IH -> ->|intros b1 t g Q1 X e k Ho _ H -> ->];
    apply Htail; intros l Hlen Hall; unfold after_step; rewrite Ho; [done|by eauto|].
  intros tr gs w w' x i Hi HI Hb Hs. destruct (H tr gs w w' x i Hi HI Hb Hs) as (g' & H1 & H2 & H3).
  exists g'. split; [done|]. split; [done|]. intros E'. by apply H3.
Qed.

Lemma okt_threads b (D : list (itree E unit * G) → Prop) l : stepwise b D → all_okt b l → D l.
Proof.
  enough (H : ∀ n D', stepwise b D' → ∀ l, length l = n → all_okt b l → D' l) by (intros HD; by apply (H (length l) D HD)).
  clear D l. induction n as [|n IH]; intros D HD [|[t g] l]; try done.
  - intros _ _. by apply HD.
  - intros [= Hlen] [Ht Hl]%Forall_cons. by eapply okt_head.
Qed.

(** The pool, with the ghost state of each thread. *)
Definition annotated (p : pool E W L) l : Prop :=
  pool_threads p = l.*1 ∧ Inv (pool_trace p) l.*2 (pool_world p) ∧ all_okt (budget (pool_world p)) l.

Lemma all_okt_mono b b' l : (b' ≤ b)%nat → all_okt b l → all_okt b' l.
Proof. intros Hle Hall. eapply Forall_impl; [exact Hall|]. intros [t g]. by apply okt_mono. Qed.

(** One step of an annotated pool. *)
Lemma annotated_step F i ts t t' w w' tr l : annotated (Pool ts w tr) l → ts !! i = Some t →
  step_thread t w = Some (t', w') → (∀ g, l !! i = Some (t, g) → after_step (budget w) t g F) →
  ∃ g', annotated (Pool (<[i:=t']> ts) w' (tr ++ map (pair i) (step_label t w))) (<[i:=(t', g')]> l) ∧
    (budget w' ≤ budget w)%nat ∧ (budget w' = budget w → F t' g').
Proof.
  intros (Hts & HI & Hall) Hi Hs HF. cbn in *. subst ts.
  rewrite list_lookup_fmap, fmap_Some in Hi. destruct Hi as ([t0 g] & Hi & E0). cbn in E0. subst t0. specialize (HF g Hi).
  assert (Hg : l.*2 !! i = Some g) by (by rewrite list_lookup_fmap, Hi).
  enough (∃ g', Inv (tr ++ map (pair i) (step_label t w)) (<[i:=g']> l.*2) w' ∧ (budget w' ≤ budget w)%nat ∧
    okt (budget w') t' g' Q ∧ (budget w' = budget w → F t' g')) as (g' & H1 & H2 & H3 & H4).
  { exists g'. split; [|done]. unfold annotated. cbn. rewrite !list_fmap_insert. split; [done|]. split; [done|].
    apply Forall_insert; [by eapply all_okt_mono|done]. }
  unfold after_step in HF. unfold step_thread, step_label in *. destruct (observe t) as [r|t1|X e k]; [done|..].
  - injection Hs as <- <-. exists g. destruct HF. rewrite app_nil_r, list_insert_id by done. auto.
  - destruct (sys e w) as [[w1 x]|] eqn:He; [|done]. injection Hs as <- <-.
    destruct (HF tr l.*2 w w1 x i Hg HI (Nat.le_refl _) He) as (g' & H1 & H2 & H3). eauto 10.
Qed.

Lemma okt_step b t g : okt b t g Q → after_step b t g (λ _ _, True).
Proof.
  intros [r Ho HQ|t' Ho H|X e k Ho HA H]; unfold after_step; rewrite Ho; [done..|].
  intros tr gs w w' x i Hi HI Hb Hs. destruct (H tr gs w w' x i Hi HI Hb Hs) as (g' & H1 & H2). eauto.
Qed.

(** The invariant holds in every reachable state, *)
Lemma pool_sound_t p q l : reachable p q → annotated p l → ∃ l', annotated q l'.
Proof.
  unfold reachable. intros Hr. revert l. induction Hr as [p|p p1 q Hs _ IH]; intros l Hp; [by exists l|].
  inversion Hs as [i ts t t' w w' tr Hi Hst]; subst.
  destruct (annotated_step (λ _ _, True) i ts t t' w w' tr l Hp Hi Hst) as (g' & Hq & _); [|by eapply IH].
  intros g Hg. apply okt_step. destruct Hp as (_ & _ & Hall). by apply (Forall_lookup_1 _ _ _ _ Hall Hg).
Qed.

(** and there is no infinite run. *)
Theorem pool_terminates p l : annotated p l → sn pool_step p.
Proof.
  remember (budget (pool_world p)) as b eqn:Hb. revert p l Hb.
  induction (lt_wf b) as [b _ IHb]. intros p l Hb Hp. destruct (Hp) as (_ & _ & Hall). rewrite <- Hb in Hall.
  revert p Hb Hp. refine (okt_threads b (λ l, ∀ p, b = budget (pool_world p) → annotated p l → sn pool_step p) l _ Hall).
  clear l Hall. intros l Hl p -> Hp. constructor. intros q Hs.
  inversion Hs as [i ts t t' w w' tr Hi Hst]; subst. cbn in *.
  destruct (annotated_step (λ t' g', ∀ p, budget w = budget (pool_world p) → annotated p (<[i := (t', g')]> l) →
    sn pool_step p) i ts t t' w w' tr l Hp Hi Hst) as (g' & Hq & Hle & Hsame).
  { intros g Hg. by apply Hl. }
  destruct (decide (budget w' = budget w)) as [E'|Hne]; [by apply Hsame|].
  eapply IHb; [|done|exact Hq]. cbn. lia.
Qed.
End runs.
End term.

(** ** Runs that end *)

Section ends.
Context {E : Type → Type} {W L : Type} `{K : !Kernel E W} `{Lb : !Labelled E L}.

Lemma sn_reachable (p q : pool E W L) : sn pool_step p → reachable p q → sn pool_step q.
Proof. intros Hp Hr. unfold reachable in Hr. induction Hr as [|p p1 q Hs _ IH]; [done|]. apply IH. by apply Hp. Qed.

Lemma stuck_or_step (p : pool E W L) : stuck p = true ∨ ∃ q, pool_step p q.
Proof.
  destruct p as [ts w tr]. unfold stuck. cbn.
  destruct (forallb _ ts) eqn:Hf; [by left|right].
  assert (¬ Forall (λ t, step_thread t w = None) ts) as Hn.
  { intros Hall. apply not_true_iff_false in Hf. apply Hf, forallb_forall. intros t Ht%list_elem_of_In.
    rewrite Forall_forall in Hall. by rewrite (Hall t Ht). }
  apply not_Forall_Exists, Exists_exists in Hn as (t & [i Hi]%list_elem_of_lookup_1 & Ht);
    [|intros t; destruct (step_thread t w); [by right|by left]].
  destruct (step_thread t w) as [[t' w']|] eqn:Hs; [|done]. eexists. by econstructor.
Qed.

(** A run that cannot go on for ever can be brought to its end. *)
Lemma sn_finishes (p : pool E W L) : sn pool_step p → ∃ q, reachable p q ∧ stuck q = true.
Proof.
  unfold reachable. induction 1 as [p _ IH]. destruct (stuck_or_step p) as [Hst|[p1 Hs]]; [by exists p|].
  destruct (IH p1 Hs) as (q & Hr & Hq). exists q. split; [by eapply rtc_l|done].
Qed.
End ends.
