(* ===== verification/Paced.v ===== *)
(** * Threads that pace each other

    The other way to show that a pool has no infinite run.  A call of a thread
    is a [Gain] when it uses up something of which only so much is there, and a
    [Spend] when it gives some of it back to the others, as one who wakes
    sleepers does; each thread may spend [B] times, and takes no more than [N]
    steps from one such call to the next.  A [Fresh] call, of which it is shown
    that it no longer occurs, gives a thread both anew.  A routine [costs d c]
    when it needs at most [d] spendings and [c] other steps; the loops of the
    pool need no bound as long as every turn is a gain, a spending or fresh. *)
From Stdlib Require Import Relation_Operators Wellfounded.
From S2P Require Import Prelude Prog Pools PoolsTerm.

Lemma sum_insert (ks : list nat) i k k' : ks !! i = Some k → (sum_list (<[i:=k']> ks) + k = sum_list ks + k')%nat.
Proof. apply (total_insert id). Qed.

Variant pace := Slow | Gain | Spend | Fresh.

Section paced.
Context {E : Type → Type} {W L : Type} `{K : !Kernel E W} `{Lb : !Labelled E L}.
Context (pace_of : ∀ X, E X → X → W → W → pace) (B N : nat).
Arguments pace_of {X} _ _ _ _.

(** What a call leaves of [b] spendings and [k] steps, handed on to [F]. *)
Definition charge (p : pace) (b k : nat) (F : nat → nat → Prop) : Prop :=
  match p with
  | Slow => match k with O => False | S k => F b k end
  | Gain => F b N
  | Spend => match b with O => False | S b => F b N end
  | Fresh => F B N
  end.

Lemma charge_mono p b k (F F' : nat → nat → Prop) : (∀ b k, F b k → F' b k) → charge p b k F → charge p b k F'.
Proof. intros H. destruct p, b, k; cbn; auto. Qed.

(** For [n] steps [t] has never used up its [b] spendings nor its [k] steps, and
    from the next gain, spending or fresh call on its [N] steps; [Q] is told
    what is left. *)
Fixpoint paces (n b k : nat) {R} (t : itree E R) (Q : nat → nat → R → Prop) : Prop :=
  match n with
  | O => True
  | S n =>
      match observe t with
      | RetF r => Q b k r
      | TauF t' => charge Slow b k (λ b k, paces n b k t' Q)
      | VisF e h => ∀ w w' x, sys e w = Some (w', x) →
          charge (pace_of e x w w') b k (λ b k, paces n b k (h x) Q)
      end
  end.

Lemma paces_conseq n b k {R} (t : itree E R) (P Q : nat → nat → R → Prop) :
  paces n b k t P → (∀ b' k' r, P b' k' r → Q b' k' r) → paces n b k t Q.
Proof.
  intros H HPQ. revert b k t H. induction n as [|n IH]; intros b k t; [done|]. cbn [paces].
  destruct (observe t) as [r|t'|X e h]; [by auto|..].
  - apply charge_mono. intros. by apply IH.
  - intros H w w' x Hs. eapply charge_mono, H, Hs. intros. by apply IH.
Qed.

Lemma paces_S n b k {R} (t : itree E R) (Q : nat → nat → R → Prop) : paces (S n) b k t Q → paces n b k t Q.
Proof.
  revert b k t. induction n as [|n IH]; intros b k t; [done|]. intros H.
  change (match observe t with
      | RetF r => Q b k r
      | TauF t' => charge Slow b k (λ b k, paces (S n) b k t' Q)
      | VisF e h => ∀ w w' x, sys e w = Some (w', x) →
          charge (pace_of e x w w') b k (λ b k, paces (S n) b k (h x) Q)
      end) in H.
  cbn [paces]. destruct (observe t) as [r|t'|X e h]; [done|..].
  - eapply charge_mono, H. intros. by apply IH.
  - intros w w' x Hs. eapply charge_mono, H, Hs. intros. by apply IH.
Qed.

Lemma paces_le n m b k {R} (t : itree E R) (Q : nat → nat → R → Prop) : (m ≤ n)%nat → paces n b k t Q → paces m b k t Q.
Proof. induction 1; [done|]. intros H'. by apply IHle, paces_S. Qed.

Lemma paces_ret n b k {R} (r : R) (Q : nat → nat → R → Prop) : Q b k r → paces n b k (Ret r) Q.
Proof. by destruct n. Qed.

Lemma paces_bind n b k {R S} (t : itree E R) (f : R → itree E S) (Q : nat → nat → S → Prop) :
  paces n b k t (λ b' k' r, paces n b' k' (f r) Q) → paces n b k (ITree.bind t f) Q.
Proof.
  intros H. assert (Hgen : ∀ m b k t, paces m b k t (λ b' k' r, paces n b' k' (f r) Q) → (m ≤ n)%nat →
    paces m b k (ITree.bind t f) Q); [|by apply Hgen].
  clear. induction m as [|m IH]; intros b k t H Hle; [done|]. cbn [paces] in H |- *. rewrite observe_bind.
  destruct (observe t) as [r|t'|X e h].
  - change (paces (Datatypes.S m) b k (f r) Q). by eapply paces_le.
  - eapply charge_mono, H. intros. apply IH; [done|lia].
  - intros w w' x Hs. eapply charge_mono, H, Hs. intros. apply IH; [done|lia].
Qed.

Lemma paces_trigger n b k {X} (e : E X) (Q : nat → nat → X → Prop) :
  (∀ w w' x, sys e w = Some (w', x) → charge (pace_of e x w w') b k (λ b k, Q b k x)) →
  paces n b k (perform e) Q.
Proof.
  intros H. destruct n as [|n]; [done|]. intros w w' x Hs. eapply charge_mono, H, Hs. intros. by apply paces_ret.
Qed.

(** A loop: [J] is what a turn may count on, and a turn takes one more step. *)
Lemma paces_iter {R I} (f : I → itree E (I + R)) (J : nat → nat → I → Prop) (Q : nat → nat → R → Prop) :
  (∀ n b k i, J b k i → paces n b k (f i) (λ b' k' lr, match lr with
     | inl j => match k' with O => False | S k' => J b' k' j end
     | inr r => Q b' k' r end)) →
  ∀ n b k i, J b k i → paces n b k (ITree.iter f i) Q.
Proof.
  intros Hf. induction n as [|n IH]; intros b k i HJ; [done|].
  assert (Hb : paces (S n) b k (ITree.bind (f i) (λ lr, match lr with
      inl l => Tau (ITree.iter f l) | inr r => Ret r end)) Q).
  { apply paces_bind. eapply paces_conseq; [by apply Hf|]. intros b' k' [j|r]; [|by apply paces_ret].
    cbn. destruct k'; [done|]. apply IH. }
  cbn [paces] in Hb |- *. by rewrite observe_iter.
Qed.

(** ** Costs *)

(** Between [b] and [B] spendings, between [k] and [N] steps are left. *)
Definition at_least (b k : nat) (b' k' : nat) : Prop := (b ≤ b' ≤ B ∧ k ≤ k' ≤ N)%nat.

(** At most [d] spendings and [c] steps until it returns, progress apart. *)
Definition costs (d c : nat) {R} (t : itree E R) : Prop :=
  ∀ n b k, (d ≤ b ≤ B)%nat → (c ≤ k ≤ N)%nat → paces n b k t (λ b' k' _, at_least (b - d) (k - c) b' k').

Lemma costs_le d d' c c' {R} (t : itree E R) : (d ≤ d')%nat → (c ≤ c')%nat → costs d c t → costs d' c' t.
Proof.
  intros Hd Hle H n b k Hb Hk. eapply paces_conseq; [apply H; lia|]. unfold at_least. cbn. intros. lia.
Qed.

Lemma costs_ret d c {R} (r : R) : costs d c (Ret r).
Proof. intros n b k Hb Hk. apply paces_ret. unfold at_least. lia. Qed.

Lemma costs_trigger d c {X} (e : E X) : (∀ w w' x, sys e w = Some (w', x) → pace_of e x w w' = Spend → (0 < d)%nat) →
  (0 < c)%nat → costs d c (perform e).
Proof.
  intros He Hc n b k Hb Hk. apply paces_trigger. intros w w' x Hs. specialize (He w w' x Hs). unfold at_least.
  destruct (pace_of e x w w'); cbn; [destruct k; lia|lia| |lia]. specialize (He eq_refl). destruct b; lia.
Qed.

(** Paying for the first part from the whole. *)
Lemma costs_seq d c D C {R S} (t : itree E R) (f : R → itree E S) :
  (d ≤ D)%nat → (c ≤ C)%nat → costs d c t → (∀ r, costs (D - d) (C - c) (f r)) → costs D C (ITree.bind t f).
Proof.
  intros HdD HcC Ht Hf n b k Hb Hk. apply paces_bind. eapply paces_conseq; [apply Ht; lia|]. cbn.
  intros b' k' r [Hb' Hk']. eapply paces_conseq; [apply Hf; lia|]. unfold at_least. cbn. intros. lia.
Qed.

(** ** Pools *)

Definition steady (t : itree E unit) (bk : nat * nat) : Prop :=
  (bk.1 ≤ B ∧ bk.2 ≤ N)%nat ∧ ∀ n, paces n bk.1 bk.2 t (λ _ _ _, True).

Lemma costs_steady d c (t : itree E unit) : (d ≤ B)%nat → (c ≤ N)%nat → costs d c t → steady t (B, N).
Proof. intros Hd Hc H. split; [done|]. intros n. eapply paces_conseq; [apply H|]; done. Qed.

(** What one step of thread [i] leaves of its account, when it is the call [p]. *)
Definition charged (p : pace) (bk bk' : nat * nat) : Prop :=
  match p with
  | Slow => bk'.1 = bk.1 ∧ (bk'.2 < bk.2)%nat
  | Gain => bk'.1 = bk.1
  | Spend => (bk'.1 < bk.1)%nat
  | Fresh => True
  end.

Definition step_pace (t : itree E unit) (w : W) : pace :=
  match observe t with
  | VisF e h => match sys e w with Some (w', x) => pace_of e x w w' | None => Slow end
  | _ => Slow
  end.

Lemma charge_charged p b k (F : nat → nat → nat → Prop) : (b ≤ B)%nat → (k ≤ N)%nat →
  (∀ n, charge p b k (F n)) → ∃ bk', charged p (b, k) bk' ∧ (bk'.1 ≤ B ∧ bk'.2 ≤ N)%nat ∧ ∀ n, F n bk'.1 bk'.2.
Proof.
  intros Hb Hk H. destruct p; cbn in H |- *.
  - destruct k; [by destruct (H 0%nat)|]. exists (b, k). cbn. split_and!; [done|lia..|done].
  - by exists (b, N).
  - destruct b; [by destruct (H 0%nat)|]. exists (b, N). cbn. split_and!; [lia..|done].
  - by exists (B, N).
Qed.

Lemma steady_step t t' w w' bk : step_thread t w = Some (t', w') → steady t bk →
  ∃ bk', charged (step_pace t w) bk bk' ∧ steady t' bk'.
Proof.
  intros Hs [[Hb Hk] Hp]. assert (Hp' := λ n, Hp (S n)). cbn [paces] in Hp'. unfold step_thread, step_pace in *.
  destruct bk as [b k]. cbn [fst snd] in *. destruct (observe t) as [r|t1|X e h]; [done|..].
  - injection Hs as <- <-. destruct (charge_charged Slow b k _ Hb Hk Hp') as (bk' & ? & ? & ?). by exists bk'.
  - destruct (sys e w) as [[w1 x]|] eqn:He; [|done]. injection Hs as <- <-.
    destruct (charge_charged _ b k _ Hb Hk (λ n, Hp' n w w1 x He)) as (bk' & ? & ? & ?). by exists bk'.
Qed.

Lemma steady_reach (p q : pool E W L) bks : reachable p q → Forall2 steady (pool_threads p) bks →
  ∃ bks', Forall2 steady (pool_threads q) bks'.
Proof.
  unfold reachable. intros Hr. revert bks. induction Hr as [p|p p1 q Hs _ IH]; intros bks Hp; [by exists bks|].
  inversion Hs as [i ts t t' w w' tr Hi Hst]; subst. cbn in *.
  destruct (Forall2_lookup_l _ _ _ _ _ Hp Hi) as (bk & Hbk & Ht).
  destruct (steady_step _ _ _ _ _ Hst Ht) as (bk' & _ & Ht'). apply (IH (<[i:=bk']> bks)). cbn. by apply Forall2_insert.
Qed.

Context (p0 : pool E W L) (left_ : list (nat * L) → W → nat).

(** What is left falls with a gain and rises only with a spending; nothing is
    fresh. *)
Context (Hleft : ∀ ts w tr i t X (e : E X) h w' x, reachable p0 (Pool ts w tr) → ts !! i = Some t →
  observe t = VisF e h → sys e w = Some (w', x) →
  let m := left_ tr w in let m' := left_ (tr ++ map (pair i) (lab e x)) w' in
  match pace_of e x w w' with
  | Slow => (m' ≤ m)%nat
  | Gain => (m' < m)%nat
  | Spend => True
  | Fresh => False
  end).

(** Spendings still to come, what is left, steps still to come. *)
Definition measure (p : pool E W L) (bks : list (nat * nat)) : nat * (nat * nat) :=
  (sum_list bks.*1, (left_ (pool_trace p) (pool_world p), sum_list bks.*2)).

Definition below : relation (nat * (nat * nat)) := slexprod _ _ lt (slexprod _ _ lt lt).

Lemma below_wf : well_founded below.
Proof. do 2 (apply wf_slexprod; [exact lt_wf|]). exact lt_wf. Qed.

Lemma below_intro a l s a' l' s' : (a' < a)%nat ∨ a' = a ∧ ((l' < l)%nat ∨ (l' ≤ l)%nat ∧ (s' < s)%nat) →
  below (a', (l', s')) (a, (l, s)).
Proof.
  intros [H|[-> H]]; [by left|right]. destruct (decide (l' < l)%nat); [by left|].
  assert (l' = l ∧ s' < s)%nat as [-> Hs] by lia. by right.
Qed.

Lemma measure_step p q bks : reachable p0 p → pool_step p q → Forall2 steady (pool_threads p) bks →
  ∃ bks', Forall2 steady (pool_threads q) bks' ∧ below (measure q bks') (measure p bks).
Proof.
  intros Hr Hs Hp. inversion Hs as [i ts t t' w w' tr Hi Hst]; subst. cbn in Hp.
  destruct (Forall2_lookup_l _ _ _ _ _ Hp Hi) as (bk & Hbk & Ht).
  destruct (steady_step _ _ _ _ _ Hst Ht) as (bk' & Hch & Ht'). exists (<[i:=bk']> bks).
  split; [by apply Forall2_insert|]. unfold measure. cbn [pool_trace pool_world]. rewrite !list_fmap_insert.
  assert (H1 : bks.*1 !! i = Some bk.1) by (by rewrite list_lookup_fmap, Hbk).
  assert (H2 : bks.*2 !! i = Some bk.2) by (by rewrite list_lookup_fmap, Hbk).
  apply (sum_insert _ _ _ bk'.1) in H1. apply (sum_insert _ _ _ bk'.2) in H2.
  apply below_intro. unfold step_thread, step_label, step_pace in *. destruct (observe t) as [r|t1|X e h] eqn:Ho; [done|..].
  - injection Hst as <- <-. rewrite app_nil_r. cbn in Hch. lia.
  - destruct (sys e w) as [[w1 x]|] eqn:He; [|done]. injection Hst as <- <-.
    pose proof (Hleft ts w tr i t X e h w1 x Hr Hi Ho He) as Hm. cbn in Hm.
    destruct (pace_of e x w w1); cbn in Hch; lia.
Qed.

Lemma steady_terminates p bks : reachable p0 p → Forall2 steady (pool_threads p) bks → sn pool_step p.
Proof.
  remember (measure p bks) as m eqn:Hm. revert p bks Hm. induction (below_wf m) as [m _ IH]. intros p bks -> Hr Hp.
  constructor. intros q Hs. destruct (measure_step _ _ _ Hr Hs Hp) as (bks' & Hq & Hlt).
  eapply IH; [exact Hlt|done| |done]. by eapply rtc_r.
Qed.
End paced.

(** Tactics for costs: pay for the first routine of a sequence, or for an event
    that spends nothing. *)
Ltac pay d c := apply (costs_seq _ _ _ d c); [lia|lia| |intros; cbn [Nat.sub]].
Ltac free_event := apply costs_trigger; [done|lia].
Ltac pay_event := pay 0%nat 1%nat; [free_event|].

(** Threads without loops: [takes c t] when [t] returns within [c] steps, and a
    pool of such threads has no infinite run. *)
Section straight.
Context {E : Type → Type} {W L : Type} `{K : !Kernel E W} `{Lb : !Labelled E L}.

Definition all_slow X (e : E X) (x : X) (w w' : W) : pace := Slow.
Definition takes (N c : nat) {R} (t : itree E R) : Prop := costs all_slow 0 N 0 c t.

Lemma takes_terminates N (p : pool E W L) : Forall (takes N N) (pool_threads p) → sn pool_step p.
Proof.
  intros Hall. apply (steady_terminates all_slow 0 N p (λ _ _, 0%nat))
    with (bks := replicate (length (pool_threads p)) (0%nat, N)); [cbn; lia|apply rtc_refl|].
  apply Forall2_same_length_lookup_2; [by rewrite length_replicate|]. intros i t bk Ht Hk.
  apply lookup_replicate in Hk as [-> _]. rewrite Forall_lookup in Hall. eapply costs_steady; [| |by eapply Hall]; done.
Qed.
End straight.
