(* ===== verification/Queue.v ===== *)
(** * The bounded queue (src/queue.c)

    The queue is shared memory: every read and write of a field, of a slot of
    the buffer and of a semaphore is one event of [poolE], so the theorems
    below range over all interleavings of the C statements of any number of
    threads.  The world also carries what src/threadpool.c needs (threads that
    are created, exit and are joined).  A read or write outside the buffer, or
    of a queue that was deleted, and a free of a block that is not allocated,
    set [pw_ub]; abort() sets [pw_aborted]. *)
From S2P Require Import Prelude Prog Pools Posix.
Local Open Scope Z_scope.
Local Open Scope prog_scope.

(** ** The shared world *)

Inductive sem := SemMutex | SemEmpty | SemFull.
Inductive field := FSize | FCount | FHead | FTail.

#[export] Instance sem_eq_dec : EqDecision sem.
Proof. solve_decision. Defined.

(** What malloc is asked for: the pool's struct and its array of thread ids, the
    queue's struct and its buffer. *)
Inductive block := BPool | BThreads | BQueue | BBuffer.

#[export] Instance block_eq_dec : EqDecision block.
Proof. solve_decision. Defined.
#[export] Instance block_countable : Countable block.
Proof.
  refine (inj_countable' (λ b, match b with BPool => 0 | BThreads => 1 | BQueue => 2 | BBuffer => 3 end)%nat
    (λ n, match n with 0 => BPool | 1 => BThreads | 2 => BQueue | _ => BBuffer end)%nat _).
  by intros [].
Defined.

(** A pointer to an element is an integer (the code stores descriptors and
    the sentinel in it). *)
Record pworld := PW {
  q_size : Z;
  q_count : Z;
  q_buffer : list Z;
  q_head : Z;
  q_tail : Z;
  q_mutex : Z;
  q_empty : Z;
  q_full : Z;
  pw_freed : bool;
  pw_heap : gset block;     (* what is allocated *)
  pw_ub : bool;
  pw_aborted : bool;
  pw_created : nat;         (* threads 0 .. pw_created - 1 were started *)
  pw_exited : gset nat;
  pw_faults : list bool;    (* whether the next call that may fail does *)
  pw_listen : bool;         (* whether listener_init succeeds *)
  pw_accepts : list Z       (* what the coming listener_accept calls return *)
}.

Definition get_field (f : field) (w : pworld) : Z :=
  match f with FSize => q_size w | FCount => q_count w | FHead => q_head w | FTail => q_tail w end.

Definition get_sem (s : sem) (w : pworld) : Z :=
  match s with SemMutex => q_mutex w | SemEmpty => q_empty w | SemFull => q_full w end.

Definition set_field (f : field) (v : Z) (w : pworld) : pworld :=
  match f with
  | FSize => PW v (q_count w) (q_buffer w) (q_head w) (q_tail w) (q_mutex w) (q_empty w)
      (q_full w) (pw_freed w) (pw_heap w) (pw_ub w) (pw_aborted w) (pw_created w) (pw_exited w) (pw_faults w) (pw_listen w) (pw_accepts w)
  | FCount => PW (q_size w) v (q_buffer w) (q_head w) (q_tail w) (q_mutex w) (q_empty w)
      (q_full w) (pw_freed w) (pw_heap w) (pw_ub w) (pw_aborted w) (pw_created w) (pw_exited w) (pw_faults w) (pw_listen w) (pw_accepts w)
  | FHead => PW (q_size w) (q_count w) (q_buffer w) v (q_tail w) (q_mutex w) (q_empty w)
      (q_full w) (pw_freed w) (pw_heap w) (pw_ub w) (pw_aborted w) (pw_created w) (pw_exited w) (pw_faults w) (pw_listen w) (pw_accepts w)
  | FTail => PW (q_size w) (q_count w) (q_buffer w) (q_head w) v (q_mutex w) (q_empty w)
      (q_full w) (pw_freed w) (pw_heap w) (pw_ub w) (pw_aborted w) (pw_created w) (pw_exited w) (pw_faults w) (pw_listen w) (pw_accepts w)
  end.

Definition set_sem (s : sem) (v : Z) (w : pworld) : pworld :=
  match s with
  | SemMutex => PW (q_size w) (q_count w) (q_buffer w) (q_head w) (q_tail w) v (q_empty w)
      (q_full w) (pw_freed w) (pw_heap w) (pw_ub w) (pw_aborted w) (pw_created w) (pw_exited w) (pw_faults w) (pw_listen w) (pw_accepts w)
  | SemEmpty => PW (q_size w) (q_count w) (q_buffer w) (q_head w) (q_tail w) (q_mutex w) v
      (q_full w) (pw_freed w) (pw_heap w) (pw_ub w) (pw_aborted w) (pw_created w) (pw_exited w) (pw_faults w) (pw_listen w) (pw_accepts w)
  | SemFull => PW (q_size w) (q_count w) (q_buffer w) (q_head w) (q_tail w) (q_mutex w) (q_empty w)
      v (pw_freed w) (pw_heap w) (pw_ub w) (pw_aborted w) (pw_created w) (pw_exited w) (pw_faults w) (pw_listen w) (pw_accepts w)
  end.

Definition set_qbuffer (b : list Z) (w : pworld) : pworld :=
  PW (q_size w) (q_count w) b (q_head w) (q_tail w) (q_mutex w) (q_empty w)
     (q_full w) (pw_freed w) (pw_heap w) (pw_ub w) (pw_aborted w) (pw_created w) (pw_exited w) (pw_faults w) (pw_listen w) (pw_accepts w).
Definition set_freed (w : pworld) : pworld :=
  PW (q_size w) (q_count w) (q_buffer w) (q_head w) (q_tail w) (q_mutex w) (q_empty w)
     (q_full w) true (pw_heap w ∖ {[BQueue; BBuffer]}) (pw_ub w) (pw_aborted w) (pw_created w) (pw_exited w) (pw_faults w) (pw_listen w) (pw_accepts w).
Definition set_ub (w : pworld) : pworld :=
  PW (q_size w) (q_count w) (q_buffer w) (q_head w) (q_tail w) (q_mutex w) (q_empty w)
     (q_full w) (pw_freed w) (pw_heap w) true (pw_aborted w) (pw_created w) (pw_exited w) (pw_faults w) (pw_listen w) (pw_accepts w).
Definition set_aborted (w : pworld) : pworld :=
  PW (q_size w) (q_count w) (q_buffer w) (q_head w) (q_tail w) (q_mutex w) (q_empty w)
     (q_full w) (pw_freed w) (pw_heap w) (pw_ub w) true (pw_created w) (pw_exited w) (pw_faults w) (pw_listen w) (pw_accepts w).
Definition set_threads (n : nat) (ex : gset nat) (w : pworld) : pworld :=
  PW (q_size w) (q_count w) (q_buffer w) (q_head w) (q_tail w) (q_mutex w) (q_empty w)
     (q_full w) (pw_freed w) (pw_heap w) (pw_ub w) (pw_aborted w) n ex (pw_faults w) (pw_listen w) (pw_accepts w).
Definition set_pfaults (fl : list bool) (w : pworld) : pworld :=
  PW (q_size w) (q_count w) (q_buffer w) (q_head w) (q_tail w) (q_mutex w) (q_empty w)
     (q_full w) (pw_freed w) (pw_heap w) (pw_ub w) (pw_aborted w) (pw_created w) (pw_exited w) fl (pw_listen w) (pw_accepts w).
Definition set_accepts (l : list Z) (w : pworld) : pworld :=
  PW (q_size w) (q_count w) (q_buffer w) (q_head w) (q_tail w) (q_mutex w) (q_empty w)
     (q_full w) (pw_freed w) (pw_heap w) (pw_ub w) (pw_aborted w) (pw_created w) (pw_exited w) (pw_faults w) (pw_listen w) l.
Definition set_listen (b : bool) (w : pworld) : pworld :=
  PW (q_size w) (q_count w) (q_buffer w) (q_head w) (q_tail w) (q_mutex w) (q_empty w)
     (q_full w) (pw_freed w) (pw_heap w) (pw_ub w) (pw_aborted w) (pw_created w) (pw_exited w) (pw_faults w) b (pw_accepts w).

Definition set_heap (h : gset block) (w : pworld) : pworld :=
  PW (q_size w) (q_count w) (q_buffer w) (q_head w) (q_tail w) (q_mutex w) (q_empty w)
     (q_full w) (pw_freed w) h (pw_ub w) (pw_aborted w) (pw_created w) (pw_exited w) (pw_faults w) (pw_listen w) (pw_accepts w).

(** ** Events *)

Variant poolE : Type → Type :=
  | Malloc (b : block) : poolE bool
  | BufAlloc (n : Z) : poolE bool         (* q->buffer = malloc(...) *)
  | SemInit (s : sem) (v : Z) : poolE bool
  | SemWait (s : sem) : poolE (rc unit)
  | SemPost (s : sem) : poolE (rc unit)
  | Abort : poolE unit
  | Get (f : field) : poolE Z
  | Set_ (f : field) (v : Z) : poolE unit
  | BufGet (i : Z) : poolE Z
  | BufSet (i v : Z) : poolE unit
  | FreeQueue : poolE unit                (* sem_destroy and free *)
  | Create (i : nat) : poolE bool         (* pthread_create of threads[i] *)
  | Begin (i : nat) : poolE unit          (* thread i runs *)
  | Exit (i : nat) : poolE unit           (* thread i returns *)
  | Join (i : nat) : poolE unit           (* pthread_join of threads[i] *)
  | Handler (fd : Z) : poolE unit         (* tp->handler(fd) *)
  | ListenInit : poolE bool               (* listener_init(&sock, port) succeeds *)
  | Accept : poolE Z                      (* listener_accept(&sock) *)
  | Errx : poolE unit                     (* errx(EXIT_FAILURE, ...) *)
  | Free (p : option block) : poolE unit. (* free, of NULL or a block *)

(** Whether the next call fails. *)
Definition pop_pfault (w : pworld) : bool * pworld :=
  match pw_faults w with [] => (false, w) | b :: fl => (b, set_pfaults fl w) end.

Definition SEM_VALUE_MAX : Z := INT_MAX.

(** What is in freshly allocated memory. *)
Definition garbage : Z := -7.

Definition in_buffer (i : Z) (w : pworld) : bool :=
  (0 <=? i) && (i <? Z.of_nat (length (q_buffer w))) && negb (pw_freed w).

(** An access to the queue's memory: undefined once it was freed. *)
Definition alive (w : pworld) : pworld := if pw_freed w then set_ub w else w.

#[export] Instance pool_kernel : Kernel poolE pworld := λ X e w,
  match e in poolE X return option (pworld * X) with
  | Malloc m =>
      let '(b, w) := pop_pfault w in
      Some (if (b : bool) then w else set_heap ({[m]} ∪ pw_heap w) w, negb b)
  | BufAlloc n =>
      let '(b, w) := pop_pfault w in
      let b := b || (n <? 0) in   (* sizeof(void * ) * size wraps to a huge size *)
      Some (if b then w else set_heap ({[BBuffer]} ∪ pw_heap w) (set_qbuffer (replicate (Z.to_nat n) garbage) w), negb b)
  | SemInit s v =>
      let '(b, w) := pop_pfault w in
      let b := b || (SEM_VALUE_MAX <? v) in
      Some (if b then w else set_sem s v w, negb b)
  | SemWait s =>
      let '(b, w) := pop_pfault (alive w) in
      if (b : bool) then Some (w, Err EINTR)
      else if 0 <? get_sem s w then Some (set_sem s (get_sem s w - 1) w, Ok tt)
      else None
  | SemPost s =>
      if get_sem s w <? SEM_VALUE_MAX
      then Some (set_sem s (get_sem s w + 1) (alive w), Ok tt)
      else Some (alive w, Err ENOSPC)
  | Abort => Some (set_aborted w, tt)
  | Get f => Some (alive w, get_field f w)
  | Set_ f v => Some (set_field f v (alive w), tt)
  | BufGet i =>
      Some (if in_buffer i w then w else set_ub w, default garbage (q_buffer w !! Z.to_nat i))
  | BufSet i v =>
      Some (if in_buffer i w then set_qbuffer (<[Z.to_nat i := v]> (q_buffer w)) w
            else set_ub w, tt)
  | FreeQueue => Some (set_freed (if decide ({[BQueue; BBuffer]} ⊆ pw_heap w) then alive w else set_ub w), tt)
  | Create i =>
      let '(b, w) := pop_pfault w in
      Some (if (b : bool) then w else set_threads (S i) (pw_exited w) w, negb b)
  | Begin i => if (i <? pw_created w)%nat then Some (w, tt) else None
  | Exit i => Some (set_threads (pw_created w) ({[i]} ∪ pw_exited w) w, tt)
  | Join i => if decide (i ∈ pw_exited w) then Some (w, tt) else None
  | Handler fd => Some (w, tt)
  | ListenInit => Some (w, pw_listen w)
  | Accept =>
      match pw_accepts w with [] => None | fd :: l => Some (set_accepts l w, fd) end
  | Errx => Some (w, tt)
  | Free None => Some (w, tt)
  | Free (Some b) => Some (if decide (b ∈ pw_heap w) then set_heap (pw_heap w ∖ {[b]}) w else set_ub w, tt)
  end.

(** What the trace records: elements entering and leaving the buffer, handler
    calls, workers that return, results of listener_accept and fatal errors. *)
Inductive qlabel :=
  | LPush (v : Z) | LPop (v : Z) | LHandle (fd : Z) | LExit (i : nat) | LAccept (fd : Z) | LErrx.

#[export] Instance pool_labelled : Labelled poolE qlabel := λ X e,
  match e in poolE X return X → list qlabel with
  | BufSet i v => λ _, [LPush v]
  | BufGet i => λ v, [LPop v]
  | Handler fd => λ _, [LHandle fd]
  | Exit i => λ _, [LExit i]
  | Accept => λ fd, [LAccept fd]
  | Errx => λ _, [LErrx]
  | _ => λ _, []
  end.

(** ** The functions *)

(** abort() does not return; what follows it is not reached. *)
Definition sem_wait_checked (s : sem) : itree poolE unit :=
  ITree.iter (λ _ : unit,
    let! r := ! (SemWait s) in
    match r with
    | Ok _ => Ret (inr tt)
    | Err e => if bool_decide (e ≠ EINTR) then do! ! Abort in Ret (inl tt) else Ret (inl tt)
    end) tt.

Definition sem_post_checked (s : sem) : itree poolE unit :=
  let! r := ! (SemPost s) in
  match r with Ok _ => Ret tt | Err _ => ! Abort end.

(** A queue_t pointer: NULL or the queue of the world. *)
Abbreviation queue_t := (option unit).

Definition set_fields (size : Z) : itree poolE unit :=
  do! ! (Set_ FSize size) in
  do! ! (Set_ FCount 0) in
  do! ! (Set_ FTail 0) in
  ! (Set_ FHead 0).

(** free(q->buffer); free(q); return NULL; *)
Definition queue_new_fails : itree poolE queue_t :=
  do! ! (Free (Some BBuffer)) in
  do! ! (Free (Some BQueue)) in
  Ret None.

Definition queue_new (size : Z) : itree poolE queue_t :=
  let! q := ! (Malloc BQueue) in
  if negb q then Ret None
  else
    let! b := ! (BufAlloc size) in
    if negb b then
      do! ! (Free (Some BQueue)) in
      Ret None
    else
      do! set_fields size in
      let! i1 := ! (SemInit SemMutex 1) in
      if negb i1 then queue_new_fails
      else
        let! i2 := ! (SemInit SemFull (size mod 2 ^ 32)) in
        if negb i2 then queue_new_fails
        else
          let! i3 := ! (SemInit SemEmpty 0) in
          if negb i3 then queue_new_fails
          else Ret (Some tt).

Definition queue_push (q : queue_t) (elem : Z) : itree poolE bool :=
  match q with
  | None => Ret false
  | Some _ =>
      do! sem_wait_checked SemFull in
      do! sem_wait_checked SemMutex in
      let! tail := ! (Get FTail) in
      do! ! (BufSet tail elem) in
      let! tail := ! (Get FTail) in
      let! size := ! (Get FSize) in
      do! ! (Set_ FTail (Z.rem (tail + 1) size)) in
      let! count := ! (Get FCount) in
      do! ! (Set_ FCount (count + 1)) in
      do! sem_post_checked SemMutex in
      do! sem_post_checked SemEmpty in
      Ret true
  end.

(** [elem] is the caller's pointer, NULL or not; the element stored through it
    is returned. *)
Definition queue_pop (q : queue_t) (elem : option unit) : itree poolE (option Z) :=
  match q, elem with
  | None, _ | _, None => Ret None
  | Some _, Some _ =>
      do! sem_wait_checked SemEmpty in
      do! sem_wait_checked SemMutex in
      let! head := ! (Get FHead) in
      let! item := ! (BufGet head) in
      let! head := ! (Get FHead) in
      let! size := ! (Get FSize) in
      do! ! (Set_ FHead (Z.rem (head + 1) size)) in
      let! count := ! (Get FCount) in
      do! ! (Set_ FCount (count - 1)) in
      do! sem_post_checked SemMutex in
      do! sem_post_checked SemFull in
      Ret (Some item)
  end.

Definition queue_delete (q : queue_t) : itree poolE queue_t :=
  match q with
  | None => Ret None
  | Some _ => do! ! FreeQueue in Ret None
  end.
