(* ===== verification/QueueInv.v ===== *)
(** * The queue under concurrency (src/queue.c)

    The invariant that every interleaving of queue_push and queue_pop keeps,
    and from it: mutual exclusion, no access out of bounds, no abort, and
    first-in first-out order.  A thread's ghost state is how far it is inside a
    queue operation ([stage]) and the labels it has left in the trace. *)
From S2P Require Import Prelude Prog Pools Posix Queue.
Local Open Scope Z_scope.
Local Open Scope prog_scope.

(** ** Where a thread is *)

(** Constructors in the order of the code; the arguments are local copies of
    shared fields. *)
Inductive stage :=
  | SIdle
  | PFull | PLock | PTail (t : Z) | PStored | PTail2 (t : Z) | PSize (t n : Z) | PTailed
  | PCount (k : Z) | PCounted | PUnlocked
  | CEmpty | CLock | CHead (h : Z) | CLoaded | CHead2 (h : Z) | CSize (h n : Z) | CHeaded
  | CCount (k : Z) | CCounted | CUnlocked.

(** It holds a free slot it has not filled. *)
Definition claims_slot (s : stage) : nat :=
  match s with PFull | PLock | PTail _ => 1 | _ => 0 end.
(** It filled a slot and has not announced it. *)
Definition unannounced (s : stage) : nat :=
  match s with
  | PStored | PTail2 _ | PSize _ _ | PTailed | PCount _ | PCounted | PUnlocked => 1
  | _ => 0 end.
(** It was promised an element and has not taken it. *)
Definition claims_elem (s : stage) : nat :=
  match s with CEmpty | CLock | CHead _ => 1 | _ => 0 end.
(** It took an element and has not given the slot back. *)
Definition unreturned (s : stage) : nat :=
  match s with
  | CLoaded | CHead2 _ | CSize _ _ | CHeaded | CCount _ | CCounted | CUnlocked => 1
  | _ => 0 end.
(** It holds the mutex. *)
Definition in_cs (s : stage) : nat :=
  match s with SIdle | PFull | PUnlocked | CEmpty | CUnlocked => 0 | _ => 1 end.
(** Its store is not yet reflected in tail, in count; its load in head, in count. *)
Definition tail_due (s : stage) : nat :=
  match s with PStored | PTail2 _ | PSize _ _ => 1 | _ => 0 end.
Definition inc_due (s : stage) : nat :=
  match s with PStored | PTail2 _ | PSize _ _ | PTailed | PCount _ => 1 | _ => 0 end.
Definition head_due (s : stage) : nat :=
  match s with CLoaded | CHead2 _ | CSize _ _ => 1 | _ => 0 end.
Definition dec_due (s : stage) : nat :=
  match s with CLoaded | CHead2 _ | CSize _ _ | CHeaded | CCount _ => 1 | _ => 0 end.

(** Its local copies are current. *)
Definition local_ok (s : stage) (w : pworld) : Prop :=
  match s with
  | PTail t | PTail2 t => t = q_tail w
  | PSize t n => t = q_tail w ∧ n = q_size w
  | CHead h | CHead2 h => h = q_head w
  | CSize h n => h = q_head w ∧ n = q_size w
  | PCount k | CCount k => k = q_count w
  | _ => True
  end.

(** ** Histories *)

Abbreviation history := (list qlabel).
Abbreviation trace := (list (nat * qlabel)).

Definition pushes (tr : trace) : list Z :=
  omap (λ '(_, l), match l with LPush v => Some v | _ => None end) tr.
Definition pops (tr : trace) : list Z :=
  omap (λ '(_, l), match l with LPop v => Some v | _ => None end) tr.

Abbreviation ghost := (stage * history)%type.

(** How many threads are in a stage counted by [f]. *)
Definition tot (f : stage → nat) (gs : list ghost) : nat := total (λ g, f g.1) gs.

Lemma tot_insert f gs i g g' : gs !! i = Some g →
  (tot f (<[i := g']> gs) + f g.1 = tot f gs + f g'.1)%nat.
Proof. apply (total_insert (λ g : ghost, f g.1)). Qed.

Lemma tot_in f gs i g : gs !! i = Some g → (f g.1 ≤ tot f gs)%nat.
Proof. apply (total_in (λ g : ghost, f g.1)). Qed.

Lemma tot_two f gs i j g g' : i ≠ j → gs !! i = Some g → gs !! j = Some g' →
  (f g.1 + f g'.1 ≤ tot f gs)%nat.
Proof. apply (total_two (λ g : ghost, f g.1)). Qed.

(** The one thread in the critical section accounts for all that is due. *)
Lemma tot_cs f gs i g : (∀ s, (f s ≤ in_cs s)%nat) → gs !! i = Some g → in_cs g.1 = 1%nat →
  (tot in_cs gs ≤ 1)%nat → tot f gs = f g.1.
Proof. intros Hf. apply (total_alone (λ g : ghost, f g.1) (λ g : ghost, in_cs g.1)). intros x. apply Hf. Qed.

(** ** The invariant *)

Lemma pushes_app tr tr' : pushes (tr ++ tr') = pushes tr ++ pushes tr'.
Proof. apply omap_app. Qed.
Lemma pops_app tr tr' : pops (tr ++ tr') = pops tr ++ pops tr'.
Proof. apply omap_app. Qed.

Section invariant.
Context (N : Z).

(** Elements in the queue: stored and not taken. *)
Definition qlen (tr : trace) : Z := Z.of_nat (length (pushes tr)) - Z.of_nat (length (pops tr)).

Record qinv (tr : trace) (gs : list ghost) (w : pworld) : Prop := {
  qi_N : 0 < N ≤ INT_MAX;
  qi_size : q_size w = N;
  qi_len : length (q_buffer w) = Z.to_nat N;
  qi_flags : pw_freed w = false ∧ pw_ub w = false ∧ pw_aborted w = false;
  qi_prefix : pops tr `prefix_of` pushes tr;
  qi_full : q_full w + Z.of_nat (tot claims_slot gs) + qlen tr + Z.of_nat (tot unreturned gs) = N;
  qi_empty : q_empty w + Z.of_nat (tot unannounced gs) + Z.of_nat (tot claims_elem gs) = qlen tr;
  qi_mutex : q_mutex w + Z.of_nat (tot in_cs gs) = 1;
  qi_nonneg : 0 ≤ q_full w ∧ 0 ≤ q_empty w ∧ 0 ≤ q_mutex w;
  qi_tail : q_tail w = (Z.of_nat (length (pushes tr)) - Z.of_nat (tot tail_due gs)) mod N;
  qi_head : q_head w = (Z.of_nat (length (pops tr)) - Z.of_nat (tot head_due gs)) mod N;
  qi_count : q_count w = qlen tr - Z.of_nat (tot inc_due gs) + Z.of_nat (tot dec_due gs);
  qi_buf : ∀ k x, (length (pops tr) ≤ k)%nat → pushes tr !! k = Some x →
    q_buffer w !! Z.to_nat (Z.of_nat k mod N) = Some x;
  qi_local : ∀ i s h, gs !! i = Some (s, h) → local_ok s w;
  qi_hist : ∀ i s h, gs !! i = Some (s, h) → h = labels_of i tr
}.

(** What a thread may be about to do, by stage: it waits only where it holds
    no lock that a waiter needs, and it touches the queue only inside the
    critical section.  [start] says with which history it may start a push
    (waiting for SemFull) or a pop (waiting for SemEmpty). *)
Definition waits (start : sem → history → Prop) X (g : ghost) (e : poolE X) : Prop :=
  match e with
  | SemWait sm =>
      match g.1 with
      | SIdle => sm ≠ SemMutex ∧ start sm g.2
      | PFull | CEmpty => sm = SemMutex
      | _ => False
      end
  | Get _ | Set_ _ _ | BufGet _ | BufSet _ _ => in_cs g.1 = 1%nat
  | SemPost _ | Abort => True
  | _ => False
  end.

(** *** Pieces of a step *)

Lemma hist_step tr (gs : list ghost) i s h s' ls :
  (∀ i s h, gs !! i = Some (s, h) → h = labels_of i tr) → gs !! i = Some (s, h) →
  ∀ j s1 h1, <[i := (s', h ++ ls)]> gs !! j = Some (s1, h1) →
    h1 = labels_of j (tr ++ map (pair i) ls).
Proof.
  intros Hh Hi j s1 h1. rewrite labels_of_app, list_lookup_insert. case_decide as Hc.
  - destruct Hc as [-> _]. intros [= <- <-]. by rewrite labels_of_self, (Hh _ _ _ Hi).
  - intros Hj. rewrite labels_of_other, app_nil_r; [by eapply Hh|].
    intros ->. apply Hc. split; [done|]. by eapply lookup_lt_Some.
Qed.

Lemma local_ok_out s w : in_cs s = 0%nat → local_ok s w.
Proof. by destruct s. Qed.

Definition same_fields (w w' : pworld) : Prop :=
  q_tail w' = q_tail w ∧ q_head w' = q_head w ∧ q_count w' = q_count w ∧ q_size w' = q_size w.

Lemma local_ok_same s w w' : same_fields w w' → local_ok s w → local_ok s w'.
Proof. intros (H1 & H2 & H3 & H4). destruct s; cbn; by rewrite ?H1, ?H2, ?H3, ?H4. Qed.

Lemma local_step (gs : list ghost) w w' i s h s' h' :
  (∀ i s h, gs !! i = Some (s, h) → local_ok s w) → gs !! i = Some (s, h) → local_ok s' w' →
  same_fields w w' ∨ (in_cs s = 1%nat ∧ (tot in_cs gs ≤ 1)%nat) →
  ∀ j s1 h1, <[i := (s', h')]> gs !! j = Some (s1, h1) → local_ok s1 w'.
Proof.
  intros Hl Hi Hs' Hw j s1 h1. rewrite list_lookup_insert. case_decide as Hc.
  - by intros [= <- <-].
  - intros Hj. destruct Hw as [Hw|[Hcs Hle]]; [by eapply local_ok_same, Hl|].
    apply local_ok_out. destruct (decide (i = j)) as [->|Hne].
    { exfalso. apply Hc. split; [done|]. by eapply lookup_lt_Some. }
    pose proof (tot_two in_cs gs i j _ _ Hne Hi Hj) as H2. cbn in H2. rewrite Hcs in H2. lia.
Qed.

(** All the counts after thread [i] moves from one stage to another. *)
Ltac counts Hi g' :=
  pose proof (tot_insert claims_slot _ _ _ g' Hi);
  pose proof (tot_insert unannounced _ _ _ g' Hi);
  pose proof (tot_insert claims_elem _ _ _ g' Hi);
  pose proof (tot_insert unreturned _ _ _ g' Hi);
  pose proof (tot_insert in_cs _ _ _ g' Hi);
  pose proof (tot_insert tail_due _ _ _ g' Hi);
  pose proof (tot_insert inc_due _ _ _ g' Hi);
  pose proof (tot_insert head_due _ _ _ g' Hi);
  pose proof (tot_insert dec_due _ _ _ g' Hi);
  cbn [fst claims_slot unannounced claims_elem unreturned in_cs tail_due inc_due head_due
       dec_due] in *.

(** A step that moves no element and touches only semaphores. *)
Lemma qinv_quiet tr gs w w' i s h s' : qinv tr gs w → gs !! i = Some (s, h) →
  same_fields w w' → q_buffer w' = q_buffer w →
  pw_freed w' = pw_freed w ∧ pw_ub w' = pw_ub w ∧ pw_aborted w' = pw_aborted w →
  local_ok s' w' →
  tail_due s' = tail_due s ∧ inc_due s' = inc_due s ∧ head_due s' = head_due s ∧
    dec_due s' = dec_due s →
  (q_full w' + Z.of_nat (claims_slot s') + Z.of_nat (unreturned s') =
    q_full w + Z.of_nat (claims_slot s) + Z.of_nat (unreturned s)) →
  (q_empty w' + Z.of_nat (unannounced s') + Z.of_nat (claims_elem s') =
    q_empty w + Z.of_nat (unannounced s) + Z.of_nat (claims_elem s)) →
  (q_mutex w' + Z.of_nat (in_cs s') = q_mutex w + Z.of_nat (in_cs s)) →
  0 ≤ q_full w' ∧ 0 ≤ q_empty w' ∧ 0 ≤ q_mutex w' →
  qinv (tr ++ map (pair i) []) (<[i := (s', h)]> gs) w'.
Proof.
  intros [H1 H2 H3 H4 H5 H6 H7 H8 H9 H10 H11 H12 H13 H14 H15] Hi Hsf Hb (Hf1 & Hf2 & Hf3) Hl
    (D1 & D2 & D3 & D4) E1 E2 E3 Hn.
  counts Hi (s', h).
  assert (tot tail_due (<[i := (s', h)]> gs) = tot tail_due gs) as Ht by lia.
  assert (tot head_due (<[i := (s', h)]> gs) = tot head_due gs) as Hh by lia.
  rewrite app_nil_r. destruct Hsf as (S1 & S2 & S3 & S4).
  split; try done; try (rewrite ?Hf1, ?Hf2, ?Hf3, ?S1, ?S2, ?S3, ?S4, ?Hb, ?Ht, ?Hh; done || lia).
  - by eapply local_step; [..|left].
  - pose proof (hist_step tr gs i s h s' [] H15 Hi) as Hs. by rewrite !app_nil_r in Hs.
Qed.

(** A step that leaves the queue alone; its labels are neither pushes nor pops. *)
Definition same_queue (w w' : pworld) : Prop :=
  same_fields w w' ∧ q_buffer w' = q_buffer w ∧ (∀ sm, get_sem sm w' = get_sem sm w) ∧
  pw_freed w' = pw_freed w ∧ pw_ub w' = pw_ub w ∧ pw_aborted w' = pw_aborted w.

Lemma qinv_label tr gs w w' i s h ls : qinv tr gs w → gs !! i = Some (s, h) → same_queue w w' →
  pushes (map (pair i) ls) = [] → pops (map (pair i) ls) = [] →
  qinv (tr ++ map (pair i) ls) (<[i := (s, h ++ ls)]> gs) w'.
Proof.
  intros [H1 H2 H3 H4 H5 H6 H7 H8 H9 H10 H11 H12 H13 H14 H15] Hi
    ((S1 & S2 & S3 & S4) & Hb & Hsem & Hf1 & Hf2 & Hf3) Hpu Hpo.
  pose proof (Hsem SemFull) as M1. pose proof (Hsem SemEmpty) as M2. pose proof (Hsem SemMutex) as M3.
  cbn in M1, M2, M3.
  assert (Ht : ∀ f, tot f (<[i := (s, h ++ ls)]> gs) = tot f gs).
  { intros f. pose proof (tot_insert f _ _ _ (s, h ++ ls) Hi). cbn in *. lia. }
  split; unfold qlen; rewrite ?pushes_app, ?pops_app, ?Hpu, ?Hpo, ?app_nil_r, ?Ht, ?S1, ?S2, ?S3, ?S4,
    ?Hb, ?M1, ?M2, ?M3, ?Hf1, ?Hf2, ?Hf3; try done.
  - eapply local_step; [done|done| |by left]. eapply local_ok_same, H14; done.
  - by eapply hist_step.
Qed.

(** Slots of different elements are different. *)
Lemma slot_neq a b n : 0 < n → 0 < b - a < n → a mod n ≠ b mod n.
Proof.
  intros Hn Hab Heq. pose proof (Z.div_mod a n ltac:(lia)) as Ha.
  pose proof (Z.div_mod b n ltac:(lia)) as Hb. rewrite Heq in Ha.
  generalize dependent (a / n). generalize dependent (b / n). generalize (b mod n) as m.
  intros m qb Hb qa Ha. assert (Hd : b - a = n * (qb - qa)) by (subst; ring).
  destruct (Z.le_gt_cases (qb - qa) 0) as [Hle|Hgt]; nia.
Qed.

Lemma slot_range a n : 0 < n → 0 ≤ a mod n < n.
Proof. intros Hn. by apply Z.mod_pos_bound. Qed.

Lemma next_slot a n : 0 < n → Z.rem (a mod n + 1) n = (a + 1) mod n.
Proof.
  intros Hn. pose proof (slot_range a n Hn).
  rewrite Z.rem_mod_nonneg by lia. apply Z.add_mod_idemp_l. lia.
Qed.

Lemma qlen_push tr i v : qlen (tr ++ map (pair i) [LPush v]) = qlen tr + 1.
Proof. unfold qlen. rewrite pushes_app, pops_app, !length_app. cbn. lia. Qed.
Lemma qlen_pop tr i v : qlen (tr ++ map (pair i) [LPop v]) = qlen tr - 1.
Proof. unfold qlen. rewrite pushes_app, pops_app, !length_app. cbn. lia. Qed.

(** The store into the buffer. *)
Lemma qinv_store tr gs w i t v h : qinv tr gs w → gs !! i = Some (PTail t, h) →
  in_buffer t w = true ∧
  qinv (tr ++ map (pair i) [LPush v]) (<[i := (PStored, h ++ [LPush v])]> gs)
    (set_qbuffer (<[Z.to_nat t := v]> (q_buffer w)) w).
Proof.
  intros HI Hi. pose proof HI as [H1 H2 H3 H4 H5 H6 H7 H8 H9 H10 H11 H12 H13 H14 H15].
  assert (Hcs : (tot in_cs gs ≤ 1)%nat) by lia.
  pose proof (tot_cs tail_due gs i _ ltac:(by intros []; cbn; lia) Hi eq_refl Hcs) as Ht. cbn in Ht.
  pose proof (tot_in claims_slot gs i _ Hi) as Hslot. cbn in Hslot.
  pose proof (H14 _ _ _ Hi) as Hloc. cbn in Hloc. subst t.
  rewrite Ht, Z.sub_0_r in H10. pose proof (slot_range (Z.of_nat (length (pushes tr))) N ltac:(lia)).
  counts Hi (PStored, h ++ [LPush v]). unfold qlen in *.
  destruct H4 as (F1 & F2 & F3).
  split. { unfold in_buffer. rewrite F1, H3, H10. cases_bool; lia || done. }
  split; try done.
  - cbn. by rewrite length_insert.
  - rewrite pops_app, pushes_app. cbn [pops omap map]. rewrite app_nil_r. by apply prefix_app_r.
  - rewrite qlen_push. unfold qlen. cbn [q_full q_empty q_count set_qbuffer]. lia.
  - rewrite qlen_push. unfold qlen. cbn [q_full q_empty q_count set_qbuffer]. lia.
  - cbn. lia.
  - cbn. rewrite H10, pushes_app, length_app. cbn. f_equal. lia.
  - cbn. rewrite H11, pops_app, length_app. cbn. f_equal. lia.
  - rewrite qlen_push. unfold qlen. cbn [q_full q_empty q_count set_qbuffer]. lia.
  - intros k x Hk Hx. rewrite pops_app, length_app in Hk. cbn in Hk.
    rewrite pushes_app in Hx. cbn [q_buffer set_qbuffer]. rewrite H10.
    destruct (decide (k < length (pushes tr))%nat) as [Hlt|Hge].
    + rewrite lookup_app_l in Hx by done.
      pose proof (slot_neq (Z.of_nat k) (Z.of_nat (length (pushes tr))) N ltac:(lia) ltac:(lia)).
      pose proof (slot_range (Z.of_nat k) N ltac:(lia)).
      rewrite list_lookup_insert_ne by lia. apply H13; [lia|done].
    + rewrite lookup_app_r in Hx by lia.
      apply list_lookup_singleton_Some in Hx as [Hk0 ->].
      assert (k = length (pushes tr)) as -> by lia.
      apply list_lookup_insert_eq. lia.
  - eapply (local_step gs w); [done|done|done|]. by left.
  - by eapply hist_step.
Qed.

(** The load from the buffer: it finds the oldest element. *)
Lemma qinv_load tr gs w i t h : qinv tr gs w → gs !! i = Some (CHead t, h) →
  in_buffer t w = true ∧
  ∃ v, q_buffer w !! Z.to_nat t = Some v ∧
    qinv (tr ++ map (pair i) [LPop v]) (<[i := (CLoaded, h ++ [LPop v])]> gs) w.
Proof.
  intros HI Hi. pose proof HI as [H1 H2 H3 H4 H5 H6 H7 H8 H9 H10 H11 H12 H13 H14 H15].
  assert (Hcs : (tot in_cs gs ≤ 1)%nat) by lia.
  pose proof (tot_cs head_due gs i _ ltac:(by intros []; cbn; lia) Hi eq_refl Hcs) as Ht. cbn in Ht.
  pose proof (tot_in claims_elem gs i _ Hi) as Helem. cbn in Helem.
  pose proof (H14 _ _ _ Hi) as Hloc. cbn in Hloc. subst t.
  rewrite Ht, Z.sub_0_r in H11. pose proof (slot_range (Z.of_nat (length (pops tr))) N ltac:(lia)).
  unfold qlen in *. destruct H4 as (F1 & F2 & F3).
  split. { unfold in_buffer. rewrite F1, H3, H11. cases_bool; lia || done. }
  destruct (lookup_lt_is_Some_2 (pushes tr) (length (pops tr))) as [v Hv]; [lia|].
  exists v. rewrite H11. split; [by apply H13|].
  counts Hi (CLoaded, h ++ [LPop v]).
  split; try done.
  - rewrite pops_app, pushes_app. cbn [pushes omap map]. rewrite app_nil_r. cbn.
    destruct H5 as [r Hr]. rewrite Hr in Hv |- *.
    rewrite lookup_app_r, Nat.sub_diag in Hv by lia. destruct r as [|y r]; [done|].
    cbn in Hv. injection Hv as ->. exists r. by rewrite <- app_assoc.
  - rewrite qlen_pop. unfold qlen. lia.
  - rewrite qlen_pop. unfold qlen. lia.
  - cbn. lia.
  - cbn. rewrite H10, pushes_app, length_app. cbn. f_equal. lia.
  - cbn. rewrite H11, pops_app, length_app. cbn. f_equal. lia.
  - rewrite qlen_pop. unfold qlen. lia.
  - intros k x Hk Hx. rewrite pops_app, length_app in Hk. rewrite pushes_app in Hx. cbn in Hk, Hx.
    rewrite app_nil_r in Hx. apply H13; [lia|done].
  - eapply (local_step gs w); [done|done|done|]. by left.
  - by eapply hist_step.
Qed.

(** Moving tail and head, and the count. *)
Lemma qinv_set_tail tr gs w i t n h : qinv tr gs w → gs !! i = Some (PSize t n, h) →
  qinv (tr ++ map (pair i) []) (<[i := (PTailed, h)]> gs) (set_field FTail (Z.rem (t + 1) n) w).
Proof.
  intros HI Hi. pose proof HI as [H1 H2 H3 H4 H5 H6 H7 H8 H9 H10 H11 H12 H13 H14 H15].
  assert (Hcs : (tot in_cs gs ≤ 1)%nat) by lia.
  pose proof (tot_cs tail_due gs i _ ltac:(by intros []; cbn; lia) Hi eq_refl Hcs) as Ht. cbn in Ht.
  destruct (H14 _ _ _ Hi) as [-> ->]. rewrite app_nil_r. counts Hi (PTailed, h).
  split; try done; cbn [q_full q_empty q_mutex q_head q_count q_tail set_field]; try lia.
  - rewrite H10, H2, next_slot by lia. f_equal. lia.
  - rewrite H11. f_equal. lia.
  - eapply (local_step gs w); [done|done|done|]. by right.
  - pose proof (hist_step tr gs i _ h PTailed [] H15 Hi) as Hs. by rewrite !app_nil_r in Hs.
Qed.

Lemma qinv_set_head tr gs w i t n h : qinv tr gs w → gs !! i = Some (CSize t n, h) →
  qinv (tr ++ map (pair i) []) (<[i := (CHeaded, h)]> gs) (set_field FHead (Z.rem (t + 1) n) w).
Proof.
  intros HI Hi. pose proof HI as [H1 H2 H3 H4 H5 H6 H7 H8 H9 H10 H11 H12 H13 H14 H15].
  assert (Hcs : (tot in_cs gs ≤ 1)%nat) by lia.
  pose proof (tot_cs head_due gs i _ ltac:(by intros []; cbn; lia) Hi eq_refl Hcs) as Ht. cbn in Ht.
  destruct (H14 _ _ _ Hi) as [-> ->]. rewrite app_nil_r. counts Hi (CHeaded, h).
  split; try done; cbn [q_full q_empty q_mutex q_head q_count q_tail set_field]; try lia.
  - rewrite H10. f_equal. lia.
  - rewrite H11, H2, next_slot by lia. f_equal. lia.
  - eapply (local_step gs w); [done|done|done|]. by right.
  - pose proof (hist_step tr gs i _ h CHeaded [] H15 Hi) as Hs. by rewrite !app_nil_r in Hs.
Qed.

Lemma qinv_set_count tr gs w i s s' k d h : qinv tr gs w → gs !! i = Some (s, h) →
  (s = PCount k ∧ s' = PCounted ∧ d = 1) ∨ (s = CCount k ∧ s' = CCounted ∧ d = -1) →
  qinv (tr ++ map (pair i) []) (<[i := (s', h)]> gs) (set_field FCount (k + d) w).
Proof.
  intros HI Hi Hs. pose proof HI as [H1 H2 H3 H4 H5 H6 H7 H8 H9 H10 H11 H12 H13 H14 H15].
  assert (Hcs : (tot in_cs gs ≤ 1)%nat) by lia. rewrite app_nil_r.
  assert (Hlocal : ∀ s1 h1 j, <[i := (s', h)]> gs !! j = Some (s1, h1) →
    local_ok s1 (set_field FCount (k + d) w)).
  { intros s1 h1 j. eapply (local_step gs w); [done|done| |].
    - by destruct Hs as [(_ & -> & _)|(_ & -> & _)].
    - right. split; [|done]. by destruct Hs as [(-> & _)|(-> & _)]. }
  assert (Hk : k = q_count w).
  { pose proof (H14 _ _ _ Hi) as Hl. by destruct Hs as [(-> & _)|(-> & _)]. }
  assert (Hhist : ∀ j s1 h1, <[i := (s', h)]> gs !! j = Some (s1, h1) → h1 = labels_of j tr).
  { pose proof (hist_step tr gs i s h s' [] H15 Hi) as Hh. by rewrite !app_nil_r in Hh. }
  destruct Hs as [(-> & -> & ->)|(-> & -> & ->)].
  all: [> counts Hi (PCounted, h) | counts Hi (CCounted, h)].
  all: split; try done; cbn [q_full q_empty q_mutex q_head q_count q_tail set_field]; try lia.
  all: try (rewrite H10; f_equal; lia).
  all: try (rewrite H11; f_equal; lia).
  all: intros j s1 h1; apply Hlocal.
Qed.

(** ** The operations keep the invariant *)

(** Reading a field. *)
Context (start : sem → history → Prop).

Lemma ok_get n f s s' h (Q : Z → ghost → Prop) : in_cs s = 1%nat →
  (∀ w, local_ok s w → local_ok (s' (get_field f w)) w) →
  (∀ x, tail_due (s' x) = tail_due s ∧ inc_due (s' x) = inc_due s ∧ head_due (s' x) = head_due s ∧
     dec_due (s' x) = dec_due s ∧ claims_slot (s' x) = claims_slot s ∧
     unreturned (s' x) = unreturned s ∧ unannounced (s' x) = unannounced s ∧
     claims_elem (s' x) = claims_elem s ∧ in_cs (s' x) = in_cs s) →
  (∀ x, Q x (s' x, h)) → ok qinv (waits start) n (perform (Get f)) (s, h) Q.
Proof.
  intros Hcs Hl Hs HQ. apply ok_trigger; [done|]. intros tr gs w w' x i Hi HI Hsys.
  pose proof (qi_flags _ _ _ HI) as (F1 & _). cbn in Hsys. unfold alive in Hsys. rewrite F1 in Hsys.
  injection Hsys as <- <-. exists (s' (get_field f w), h). split; [|apply HQ].
  destruct (Hs (get_field f w)) as (D1 & D2 & D3 & D4 & D5 & D6 & D7 & D8 & D9).
  apply (qinv_quiet _ _ w _ _ s); try done; rewrite ?D5, ?D6, ?D7, ?D8, ?D9; try done.
  - apply Hl. by eapply qi_local.
  - by eapply qi_nonneg.
Qed.

(** What a thread in a stage holds of each semaphore. *)
Definition held (sm : sem) (s : stage) : nat :=
  match sm with
  | SemFull => claims_slot s + unreturned s
  | SemEmpty => unannounced s + claims_elem s
  | SemMutex => in_cs s
  end.

(** From [s] to [s'] one unit of [sm] changes hands, and nothing else does. *)
Definition sem_move (sm : sem) (s s' : stage) (d : Z) : Prop :=
  (∀ sm', Z.of_nat (held sm' s') = Z.of_nat (held sm' s) + (if decide (sm' = sm) then d else 0)) ∧
  tail_due s' = tail_due s ∧ inc_due s' = inc_due s ∧ head_due s' = head_due s ∧
  dec_due s' = dec_due s ∧ (∀ w, local_ok s' w).

Lemma qinv_sem tr gs w w1 i s h s' sm d : qinv tr gs w → gs !! i = Some (s, h) →
  sem_move sm s s' d → 0 ≤ get_sem sm w - d →
  same_fields w w1 → q_buffer w1 = q_buffer w →
  pw_freed w1 = pw_freed w ∧ pw_ub w1 = pw_ub w ∧ pw_aborted w1 = pw_aborted w →
  (∀ sm', get_sem sm' w1 = get_sem sm' w) →
  qinv (tr ++ map (pair i) []) (<[i := (s', h)]> gs) (set_sem sm (get_sem sm w - d) w1).
Proof.
  intros HI Hi (Hh & D1 & D2 & D3 & D4 & Hl) Hd (S1 & S2 & S3 & S4) Hb Hf Hsem.
  pose proof (Hh SemFull) as A1. pose proof (Hh SemEmpty) as A2. pose proof (Hh SemMutex) as A3.
  pose proof (Hsem SemFull) as B1. pose proof (Hsem SemEmpty) as B2. pose proof (Hsem SemMutex) as B3.
  destruct (qi_nonneg _ _ _ HI) as (N1 & N2 & N3). cbn in A1, A2, A3, B1, B2, B3.
  destruct sm; cbn in Hd |- *; repeat (case_decide; try done);
    (apply (qinv_quiet _ _ w _ _ s); [done|done|split; [exact S1|done]|exact Hb|exact Hf|done|done
      |cbn in *; lia|cbn in *; lia|cbn in *; lia|cbn in *; lia]).
Qed.

Lemma ok_sem_wait n sm s s' h (Q : unit → ghost → Prop) : sem_move sm s s' 1 → waits start _ (s, h) (SemWait sm) →
  Q tt (s', h) → ok qinv (waits start) n (sem_wait_checked sm) (s, h) Q.
Proof.
  intros Hm Hw HQ. unfold sem_wait_checked.
  assert (Hl : ∀ w, local_ok s w) by (intros w; by destruct s).
  apply (ok_iter _ _ _ _ (λ _ g, g = (s, h))); [|done]. intros m [] g ->.
  apply ok_bind, ok_trigger; [done|]. intros tr gs w w' x i Hi HI Hsys.
  pose proof (qi_flags _ _ _ HI) as (F1 & _). cbn in Hsys. unfold alive in Hsys. rewrite F1 in Hsys.
  assert (Hp : ∃ fl, (pop_pfault w).2 = set_pfaults fl w).
  { unfold pop_pfault. destruct (pw_faults w) as [|b fl] eqn:Hf; [|by exists fl].
    exists []. destruct w; cbn in *; by subst. }
  destruct Hp as [fl Hp]. destruct (pop_pfault w) as [b w1] eqn:Hpop. cbn in Hp. subst w1.
  destruct b.
  - injection Hsys as <- <-. exists (s, h). split.
    + apply (qinv_quiet _ _ w _ _ s); try done. exact (qi_nonneg _ _ _ HI).
    + rewrite bool_decide_false by (by intros []). by apply ok_ret.
  - change (get_sem sm (set_pfaults fl w)) with (get_sem sm w) in Hsys.
    destruct (Z.ltb_spec 0 (get_sem sm w)); [|by destruct sm].
    assert (Hs : w' = set_sem sm (get_sem sm w - 1) (set_pfaults fl w) ∧ x = Ok tt)
      by (by destruct sm; injection Hsys as <- <-).
    destruct Hs as [-> ->]. exists (s', h). split; [|by apply ok_ret].
    apply (qinv_sem _ _ w _ _ s); try done. lia.
Qed.

Lemma ok_sem_post n sm s s' h (Q : unit → ghost → Prop) : sem_move sm s s' (-1) →
  Q tt (s', h) → ok qinv (waits start) n (sem_post_checked sm) (s, h) Q.
Proof.
  intros Hm HQ. unfold sem_post_checked. apply ok_bind, ok_trigger; [done|].
  intros tr gs w w' x i Hi HI Hsys.
  pose proof (qi_flags _ _ _ HI) as (F1 & _). cbn in Hsys. unfold alive in Hsys. rewrite F1 in Hsys.
  assert (Hmax : 0 ≤ get_sem sm w < SEM_VALUE_MAX).
  { destruct (qi_nonneg _ _ _ HI) as (N1 & N2 & N3). pose proof (qi_N _ _ _ HI).
    pose proof (proj1 Hm sm) as Hh. rewrite decide_True in Hh by done.
    pose proof (qi_full _ _ _ HI). pose proof (qi_empty _ _ _ HI). pose proof (qi_mutex _ _ _ HI).
    pose proof (tot_in claims_slot _ _ _ Hi). pose proof (tot_in unreturned _ _ _ Hi).
    pose proof (tot_in unannounced _ _ _ Hi). pose proof (tot_in claims_elem _ _ _ Hi).
    pose proof (tot_in in_cs _ _ _ Hi). unfold SEM_VALUE_MAX, INT_MAX in *.
    destruct sm; cbn in *; lia. }
  destruct (Z.ltb_spec (get_sem sm w) SEM_VALUE_MAX); [|lia].
  assert (Hs : w' = set_sem sm (get_sem sm w + 1) w ∧ x = Ok tt)
    by (by destruct sm; injection Hsys as <- <-).
  destruct Hs as [-> ->]. exists (s', h). split; [|by apply ok_ret].
  replace (get_sem sm w + 1) with (get_sem sm w - -1) by lia.
  apply (qinv_sem _ _ w _ _ s); try done. lia.
Qed.

Ltac sem_move_tac :=
  split; [by intros []|]; split_and!; done.

Lemma ok_set n f v s s' h (Q : unit → ghost → Prop) : in_cs s = 1%nat →
  (∀ tr gs w i, qinv tr gs w → gs !! i = Some (s, h) →
     qinv (tr ++ map (pair i) []) (<[i := (s', h)]> gs) (set_field f v w)) →
  Q tt (s', h) → ok qinv (waits start) n (perform (Set_ f v)) (s, h) Q.
Proof.
  intros Hcs Hstep HQ. apply ok_trigger; [done|]. intros tr gs w w' [] i Hi HI Hsys.
  pose proof (qi_flags _ _ _ HI) as (F1 & _). cbn in Hsys. unfold alive in Hsys. rewrite F1 in Hsys.
  injection Hsys as <-. exists (s', h). split; [by apply Hstep|done].
Qed.

Lemma ok_buf_set n t v h (Q : unit → ghost → Prop) :
  Q tt (PStored, h ++ [LPush v]) → ok qinv (waits start) n (perform (BufSet t v)) (PTail t, h) Q.
Proof.
  intros HQ. apply ok_trigger; [done|]. intros tr gs w w' [] i Hi HI Hsys.
  destruct (qinv_store _ _ _ _ _ v _ HI Hi) as [Hin HI']. cbn in Hsys. rewrite Hin in Hsys.
  injection Hsys as <-. by exists (PStored, h ++ [LPush v]).
Qed.

Lemma ok_buf_get n t h (Q : Z → ghost → Prop) :
  (∀ v, Q v (CLoaded, h ++ [LPop v])) → ok qinv (waits start) n (perform (BufGet t)) (CHead t, h) Q.
Proof.
  intros HQ. apply ok_trigger; [done|]. intros tr gs w w' x i Hi HI Hsys.
  destruct (qinv_load _ _ _ _ _ _ HI Hi) as (Hin & v & Hv & HI').
  cbn in Hsys. rewrite Hin, Hv in Hsys. injection Hsys as <- <-.
  by exists (CLoaded, h ++ [LPop v]).
Qed.

(** A push, and a pop, from outside the queue to outside the queue. *)
Lemma ok_queue_push n v h (Q : bool → ghost → Prop) : start SemFull h →
  Q true (SIdle, h ++ [LPush v]) → ok qinv (waits start) n (queue_push (Some tt) v) (SIdle, h) Q.
Proof.
  intros Hst HQ. unfold queue_push.
  apply ok_bind, (ok_sem_wait _ _ _ PFull); [sem_move_tac|done|].
  apply ok_bind, (ok_sem_wait _ _ _ PLock); [sem_move_tac|done|].
  apply ok_bind, (ok_get _ _ _ PTail); [done|done|done|intros t].
  apply ok_bind, ok_buf_set.
  apply ok_bind, (ok_get _ _ _ PTail2); [done|done|done|intros t2].
  apply ok_bind, (ok_get _ _ _ (PSize t2)); [done|done|done|intros sz].
  apply ok_bind, (ok_set _ _ _ _ PTailed); [done|intros; by eapply qinv_set_tail|].
  apply ok_bind, (ok_get _ _ _ PCount); [done|done|done|intros k].
  apply ok_bind, (ok_set _ _ _ _ PCounted); [done|intros; eapply qinv_set_count; eauto|].
  apply ok_bind, (ok_sem_post _ _ _ PUnlocked); [sem_move_tac|].
  apply ok_bind, (ok_sem_post _ _ _ SIdle); [sem_move_tac|]. by apply ok_ret.
Qed.

Lemma ok_queue_pop n h (Q : option Z → ghost → Prop) : start SemEmpty h →
  (∀ v, Q (Some v) (SIdle, h ++ [LPop v])) → ok qinv (waits start) n (queue_pop (Some tt) (Some tt)) (SIdle, h) Q.
Proof.
  intros Hst HQ. unfold queue_pop.
  apply ok_bind, (ok_sem_wait _ _ _ CEmpty); [sem_move_tac|done|].
  apply ok_bind, (ok_sem_wait _ _ _ CLock); [sem_move_tac|done|].
  apply ok_bind, (ok_get _ _ _ CHead); [done|done|done|intros t].
  apply ok_bind, ok_buf_get. intros v.
  apply ok_bind, (ok_get _ _ _ CHead2); [done|done|done|intros t2].
  apply ok_bind, (ok_get _ _ _ (CSize t2)); [done|done|done|intros sz].
  apply ok_bind, (ok_set _ _ _ _ CHeaded); [done|intros; by eapply qinv_set_head|].
  apply ok_bind, (ok_get _ _ _ CCount); [done|done|done|intros k].
  apply ok_bind, (ok_set _ _ _ _ CCounted); [done|intros; eapply (qinv_set_count _ _ _ _ _ _ _ (-1)); eauto|].
  apply ok_bind, (ok_sem_post _ _ _ CUnlocked); [sem_move_tac|].
  apply ok_bind, (ok_sem_post _ _ _ SIdle); [sem_move_tac|]. by apply ok_ret.
Qed.
End invariant.

(** ** Any clients *)

(** A thread that only pushes and pops: a finite script of operations. *)
Inductive qop := OpPush (v : Z) | OpPop.

Fixpoint client (ops : list qop) : itree poolE unit :=
  match ops with
  | [] => Ret tt
  | OpPush v :: ops => do! queue_push (Some tt) v in client ops
  | OpPop :: ops => do! queue_pop (Some tt) (Some tt) in client ops
  end.

(** The world a successful queue_new leaves. *)
Definition queue_ready (n : Z) (w : pworld) : Prop :=
  q_size w = n ∧ q_count w = 0 ∧ q_head w = 0 ∧ q_tail w = 0 ∧ length (q_buffer w) = Z.to_nat n ∧
  q_mutex w = 1 ∧ q_empty w = 0 ∧ q_full w = n ∧
  pw_freed w = false ∧ pw_ub w = false ∧ pw_aborted w = false.

Lemma tot_idle f k : f SIdle = 0%nat → tot f (replicate k (SIdle, [])) = 0%nat.
Proof. intros H. unfold tot, total. induction k as [|k IH]; cbn; [done|]. rewrite H, IH. done. Qed.

Lemma qinv_ready n k w : 0 < n ≤ INT_MAX → queue_ready n w →
  qinv n [] (replicate k (SIdle, [])) w.
Proof.
  intros Hn (H1 & H2 & H3 & H4 & H5 & H6 & H7 & H8 & H9).
  split; try done; rewrite ?tot_idle by done; unfold qlen; cbn; try lia.
  - rewrite Z.mod_0_l by lia. done.
  - rewrite Z.mod_0_l by lia. done.
  - intros i s h [[= -> ->] _]%lookup_replicate. done.
  - intros i s h [[= -> ->] _]%lookup_replicate. done.
Qed.

(** A client starts its operations whenever. *)
Definition any_start (_ : sem) (_ : history) : Prop := True.

Lemma ok_client N n ops h : ok (qinv N) (waits any_start) n (client ops) (SIdle, h) (λ _ g, g.1 = SIdle).
Proof.
  revert h. induction ops as [|[v|] ops IH]; intros h; cbn [client].
  - by apply ok_ret.
  - apply ok_bind, ok_queue_push; [done|]. apply IH.
  - apply ok_bind, ok_queue_pop; [done|]. intros v. apply IH.
Qed.

(** The invariant in every pool that clients reach. *)
Lemma clients_inv n w scripts q : 0 < n ≤ INT_MAX → queue_ready n w →
  reachable (Pool (map client scripts) w []) q →
  ∃ gs, qinv n (pool_trace q) gs (pool_world q) ∧
    Forall2 (λ t g, ok (qinv n) (waits any_start) 1 t g (λ _ g, g.1 = SIdle)) (pool_threads q) gs.
Proof.
  intros Hn Hw Hr.
  apply (pool_sound _ _ _ _ _ (replicate (length scripts) (SIdle, [])) Hr); cbn; [by apply qinv_ready|].
  intros m. clear. induction scripts as [|ops scripts IH]; cbn; constructor; [apply ok_client|done].
Qed.

(** The fields stay in range, mid-operation too. *)
Lemma qinv_ranges n tr gs w : qinv n tr gs w →
  0 ≤ qlen tr ≤ n ∧ 0 ≤ q_head w < n ∧ 0 ≤ q_tail w < n ∧ 0 ≤ q_count w ≤ n.
Proof.
  intros HI. pose proof (qi_N _ _ _ _ HI) as Hn. pose proof (qi_nonneg _ _ _ _ HI).
  pose proof (qi_full _ _ _ _ HI). pose proof (qi_empty _ _ _ _ HI).
  rewrite (qi_tail _ _ _ _ HI), (qi_head _ _ _ _ HI), (qi_count _ _ _ _ HI).
  assert (Hle : ∀ f g, (∀ s, (f s ≤ g s)%nat) → (tot f gs ≤ tot g gs)%nat).
  { intros f g Hfg. clear -Hfg. unfold tot, total. induction gs as [|a gs IH]; cbn; [done|].
    specialize (Hfg a.1). lia. }
  pose proof (Hle inc_due unannounced ltac:(intros []; cbn; lia)).
  pose proof (Hle dec_due unreturned ltac:(intros []; cbn; lia)).
  split_and!; try apply slot_range; lia.
Qed.

(** The thread is about to read or write a field or a slot of the queue. *)
Definition accessing (t : itree poolE unit) : bool :=
  match observe t with
  | VisF e _ => match e with Get _ | Set_ _ _ | BufGet _ | BufSet _ _ => true | _ => false end
  | _ => false
  end.

Lemma accessing_in_cs n st t g Q : ok (qinv n) (waits st) 1 t g Q → accessing t = true → in_cs g.1 = 1%nat.
Proof.
  unfold accessing. cbn. destruct (observe t) as [r|t'|X e k]; [done|done|].
  intros [HA _]. destruct e; try done; intros _; exact HA.
Qed.

(** C14. Whatever threads share a queue of capacity n, each running any script
    of pushes and pops, and however their statements interleave: the elements
    taken are, in order, the first of the elements stored; at most n are in
    the queue; no access is out of bounds, no index or count leaves its range
    (so no int overflows), no semaphore call aborts, and no two threads are
    ever about to access the queue's fields or slots at once (no data race). *)
Theorem queue_fifo n w scripts q :
  0 < n ≤ INT_MAX → queue_ready n w →
  reachable (Pool (map client scripts) w []) q →
  let tr := pool_trace q in
  let w' := pool_world q in
  pops tr `prefix_of` pushes tr ∧
  Z.of_nat (length (pushes tr)) - Z.of_nat (length (pops tr)) ≤ n ∧
  pw_ub w' = false ∧ pw_aborted w' = false ∧
  0 ≤ q_head w' < n ∧ 0 ≤ q_tail w' < n ∧ 0 ≤ q_count w' ≤ n ∧
  (∀ i j t t', pool_threads q !! i = Some t → pool_threads q !! j = Some t' →
     accessing t = true → accessing t' = true → i = j).
Proof.
  cbn zeta. intros Hn Hw Hr. destruct (clients_inv n w scripts q Hn Hw Hr) as (gs & HI & Hok).
  pose proof (qinv_ranges _ _ _ _ HI) as (H1 & H2 & H3 & H4).
  pose proof (qi_flags _ _ _ _ HI) as (_ & F2 & F3).
  pose proof (qi_prefix _ _ _ _ HI). unfold qlen in H1.
  split_and!; try done; try lia.
  intros i j t t' Hi Hj Ha Ha'. destruct (decide (i = j)) as [|Hne]; [done|]. exfalso.
  destruct (Forall2_lookup_l _ _ _ _ _ Hok Hi) as (g & Hg & Hok1).
  destruct (Forall2_lookup_l _ _ _ _ _ Hok Hj) as (g' & Hg' & Hok2).
  apply (accessing_in_cs _ _ _ _ _ Hok1) in Ha. apply (accessing_in_cs _ _ _ _ _ Hok2) in Ha'.
  pose proof (tot_two in_cs _ _ _ _ _ Hne Hg Hg'). pose proof (qi_mutex _ _ _ _ HI).
  pose proof (qi_nonneg _ _ _ _ HI). lia.
Qed.

(** An empty queue of capacity 2. *)
Definition demo_queue : pworld :=
  PW 2 0 [garbage; garbage] 0 0 1 0 2 false ∅ false false 0 ∅ [true] true [].
(** Three pushers-and-poppers, scheduled round robin. *)
Definition demo_clients : list (list qop) :=
  [[OpPush 7; OpPush 8; OpPush 9]; [OpPop; OpPush 10]; [OpPop; OpPop]].
Definition demo_run : pool poolE pworld qlabel :=
  schedule (concat (replicate 90 [0; 1; 2]%nat)) (Pool (map client demo_clients) demo_queue []).

Lemma queue_fifo_witness :
  pushes (pool_trace demo_run) = [7; 8; 10; 9] ∧ pops (pool_trace demo_run) = [7; 8; 10] ∧
  q_count (pool_world demo_run) = 1 ∧
  pops (pool_trace demo_run) `prefix_of` pushes (pool_trace demo_run).
Proof.
  split; [by vm_compute|]. split; [by vm_compute|]. split; [by vm_compute|].
  apply (queue_fifo 2 demo_queue demo_clients demo_run); [unfold INT_MAX; lia| |].
  - repeat split; done.
  - apply schedule_reachable.
Defined.

(** ** Blocking *)

(** The semaphore the thread is about to wait for, if that is its next event. *)
Definition waiting_for (t : itree poolE unit) : option sem :=
  match observe t with
  | VisF e _ => match e with SemWait sm => Some sm | _ => None end
  | _ => None
  end.

Definition returned (t : itree poolE unit) : bool :=
  match observe t with RetF _ => true | _ => false end.

Lemma tot_zero f gs : (∀ g, g ∈ gs → f g.1 = 0%nat) → tot f gs = 0%nat.
Proof. apply total_zero. Qed.

(** When every thread is outside the queue or waits for a mutex that is
    taken, all are outside and the semaphores count elements and free slots. *)
Lemma idle_counts n tr gs w : qinv n tr gs w →
  (∀ g, g ∈ gs → g.1 = SIdle ∨ (in_cs g.1 = 0%nat ∧ q_mutex w ≤ 0)) →
  (∀ g, g ∈ gs → g.1 = SIdle) ∧ q_full w = n - qlen tr ∧ q_empty w = qlen tr.
Proof.
  intros HI Hg. pose proof (qi_mutex _ _ _ _ HI) as Hm.
  rewrite (tot_zero in_cs) in Hm by (intros g [->|[-> _]]%Hg; done).
  assert (Hall : ∀ g, g ∈ gs → g.1 = SIdle) by (intros g [->|[_ H]]%Hg; [done|lia]).
  pose proof (qi_full _ _ _ _ HI) as Hf. pose proof (qi_empty _ _ _ _ HI) as He.
  rewrite !tot_zero in Hf, He by (by intros g ->%Hall). split_and!; [done|lia|lia].
Qed.

Lemma sem_wait_blocked sm (w : pworld) : sys (SemWait sm) w = None → get_sem sm w ≤ 0.
Proof.
  assert (Ha : get_sem sm (alive w) = get_sem sm w) by (unfold alive; destruct (pw_freed w); by destruct sm).
  cbn. unfold pop_pfault. destruct (pw_faults (alive w)) as [|[] fl]; [|done|].
  - rewrite Ha. by destruct (Z.ltb_spec 0 (get_sem sm w)).
  - replace (get_sem sm (set_pfaults fl (alive w))) with (get_sem sm w) by (rewrite <- Ha; by destruct sm).
    by destruct (Z.ltb_spec 0 (get_sem sm w)).
Qed.

(** A thread inside the queue's code that cannot move waits for a semaphore
    that is zero. *)
Lemma stuck_waits n st tr gs w t g Q : qinv n tr gs w → ok (qinv n) (waits st) 1 t g Q →
  step_thread t w = None → returned t = false →
  ∃ sm, waiting_for t = Some sm ∧ get_sem sm w ≤ 0 ∧ waits st _ g (SemWait sm).
Proof.
  intros HI. unfold returned, waiting_for, step_thread. cbn.
  destruct (observe t) as [r|t'|X e k]; [done|done|]. intros [HA _] Hs _.
  destruct (sys e w) as [[w' x]|] eqn:Hsys; [done|].
  destruct e as [| | |sm|sm| | | | | | | | | | | | | | |]; try done; try (by destruct HA).
  - exists sm. by apply sem_wait_blocked in Hsys.
  - cbn in Hsys. by destruct (_ <? _).
Qed.

(** C20. A queue shared by any clients loses no wakeup: when no thread can move,
    every thread has finished its script, or the queue is full and every
    unfinished thread waits to push, or it is empty and every unfinished
    thread waits to pop. *)
Theorem queue_no_lost_wakeup n w scripts q :
  0 < n ≤ INT_MAX → queue_ready n w →
  reachable (Pool (map client scripts) w []) q →
  stuck q = true →
  let queued := Z.of_nat (length (pushes (pool_trace q))) - Z.of_nat (length (pops (pool_trace q))) in
  (∀ t, t ∈ pool_threads q → returned t = true) ∨
  (queued = n ∧ ∀ t, t ∈ pool_threads q → returned t = true ∨ waiting_for t = Some SemFull) ∨
  (queued = 0 ∧ ∀ t, t ∈ pool_threads q → returned t = true ∨ waiting_for t = Some SemEmpty).
Proof.
  intros Hn Hw Hr Hstuck. cbn zeta.
  destruct (clients_inv n w scripts q Hn Hw Hr) as (gs & HI & Hok).
  set (w' := pool_world q) in *. fold (qlen (pool_trace q)).
  assert (Hcase : ∀ i t g, pool_threads q !! i = Some t → gs !! i = Some g →
    g.1 = SIdle ∧ returned t = true ∨
    ∃ sm, waiting_for t = Some sm ∧ get_sem sm w' ≤ 0 ∧ waits any_start _ g (SemWait sm)).
  { intros i t g Ht Hg. pose proof (Forall2_lookup_lr _ _ _ _ _ _ Hok Ht Hg) as H.
    destruct (returned t) eqn:Hret; [left|right].
    2:{ eapply stuck_waits; [done|exact H|by eapply stuck_thread|done]. }
    split; [|done]. revert Hret H. unfold returned. cbn. by destruct (observe t). }
  destruct (idle_counts _ _ _ _ HI) as (Hidle & Hfull & Hempty).
  { intros g [i Hg]%list_elem_of_lookup. destruct (Forall2_lookup_r _ _ _ _ _ Hok Hg) as (t & Ht & _).
    destruct (Hcase i t g Ht Hg) as [[H _]|(sm & _ & Hz & Hwt)]; [by left|].
    destruct g as [s h]. cbn in Hwt |- *. destruct s; try done; [by left|subst sm; auto..]. }
  assert (Ht : ∀ t, t ∈ pool_threads q → returned t = true ∨
    (waiting_for t = Some SemFull ∧ qlen (pool_trace q) = n) ∨
    (waiting_for t = Some SemEmpty ∧ qlen (pool_trace q) = 0)).
  { pose proof (qinv_ranges _ _ _ _ HI) as (Hq & _).
    intros t [i Ht]%list_elem_of_lookup. destruct (Forall2_lookup_l _ _ _ _ _ Hok Ht) as (g & Hg & _).
    destruct (Hcase i t g Ht Hg) as [[_ H]|(sm & Hsm & Hz & Hwt)]; [by left|right].
    assert (g.1 = SIdle) as Hs by (apply Hidle; by eapply list_elem_of_lookup_2).
    destruct g as [s h]. cbn in Hs. subst s. destruct sm; cbn in Hwt, Hz; [by destruct Hwt|right|left]; (split; [done|lia]). }
  destruct (decide (qlen (pool_trace q) = n)) as [Hqn|Hqn]; [right; left|
    destruct (decide (qlen (pool_trace q) = 0)) as [Hq0|Hq0]; [right; right|left]].
  - split; [done|]. intros t [?|[[? _]|[_ ?]]]%Ht; [by auto|by auto|lia].
  - split; [done|]. intros t [?|[[_ ?]|[? _]]]%Ht; [by auto|lia|by auto].
  - intros t [?|[[_ ?]|[_ ?]]]%Ht; [done|lia|lia].
Qed.

(** Three elements for two slots: the last push waits. *)
Definition full_run : pool poolE pworld qlabel :=
  schedule (replicate 90 0%nat)
    (Pool (map client [[OpPush 7; OpPush 8; OpPush 9]]) demo_queue []).

Lemma queue_no_lost_wakeup_witness :
  stuck full_run = true ∧ pushes (pool_trace full_run) = [7; 8] ∧
  (∀ t, t ∈ pool_threads full_run → returned t = true ∨ waiting_for t = Some SemFull).
Proof.
  split; [by vm_compute|]. split; [by vm_compute|].
  destruct (queue_no_lost_wakeup 2 demo_queue [[OpPush 7; OpPush 8; OpPush 9]] full_run)
    as [H|[[_ H]|[H _]]].
  - unfold INT_MAX; lia.
  - repeat split; done.
  - apply schedule_reachable.
  - by vm_compute.
  - intros t Ht. left. by apply H.
  - exact H.
  - by vm_compute in H.
Defined.

(** ** Creation *)

(** Whether one of the next [k] calls that may fail does. *)
Definition fails (k : nat) (fl : list bool) : bool := existsb id (take k fl).

Lemma pop_pfault_spec w : ∃ b fl, pop_pfault w = (b, set_pfaults fl w) ∧
  ∀ k, fails (S k) (pw_faults w) = b || fails k fl.
Proof.
  unfold pop_pfault, fails. destruct (pw_faults w) as [|b fl] eqn:H.
  - exists false, []. split; [|intros k; cbn; by rewrite take_nil]. f_equal. destruct w; cbn in *; by subst.
  - exists b, fl. split; [done|]. intros k. cbn. done.
Qed.

(** A call that may fail, followed by the rest of queue_new or by the clean-up
    [t0]; [bad] is whether a call up to the end fails. *)
Lemma wpt_checked {R} (e : poolE bool) (f : pworld → pworld) (t0 t : itree poolE (option R)) k bad w Q :
  (∀ w, sys e w = let '(b, w) := pop_pfault w in Some (if (b : bool) then w else f w, negb b)) →
  fails (S k) (pw_faults w) = bad → (bad = true → ∀ fl, wpt t0 (set_pfaults fl w) Q) →
  (∀ fl, fails k fl = bad → wpt t (f (set_pfaults fl w)) Q) →
  wpt (let! b := ! e in if negb b then t0 else t) w Q.
Proof.
  intros He <- Hbad Hgood. apply wpt_bind. destruct (pop_pfault_spec w) as (b & fl & Hp & Hk).
  eapply wpt_trigger; [by rewrite He, Hp|]. destruct b; cbn.
  - apply Hbad. by rewrite Hk.
  - apply Hgood. by rewrite Hk.
Qed.

Lemma wpt_free b w (Q : unit → pworld → Prop) : b ∈ pw_heap w → Q tt (set_heap (pw_heap w ∖ {[b]}) w) →
  wpt (perform (Free (Some b))) w Q.
Proof. intros Hb HQ. eapply wpt_trigger; [cbn; by rewrite decide_True|done]. Qed.

(** What the clean-up leaves. *)
Lemma wpt_queue_new_fails w (Q : queue_t → pworld → Prop) : BBuffer ∈ pw_heap w → BQueue ∈ pw_heap w →
  Q None (set_heap (pw_heap w ∖ {[BBuffer]} ∖ {[BQueue]}) w) → wpt queue_new_fails w Q.
Proof.
  intros H1 H2 HQ. unfold queue_new_fails. apply wpt_bind, wpt_free; [done|]. apply wpt_bind, wpt_free; [set_solver|].
  by apply wpt_ret.
Qed.

Lemma sys_sem_init sm v w : v ≤ SEM_VALUE_MAX →
  sys (SemInit sm v) w =
  let '(b, w) := pop_pfault w in Some (if (b : bool) then w else set_sem sm v w, negb b).
Proof.
  intros Hv. cbn. destruct (pop_pfault w) as [b w1].
  destruct (Z.ltb_spec SEM_VALUE_MAX v); [lia|]. by rewrite orb_false_r.
Qed.

Lemma set_fields_spec size w (Q : unit → pworld → Prop) : pw_freed w = false →
  Q tt (set_field FHead 0 (set_field FTail 0 (set_field FCount 0 (set_field FSize size w)))) →
  wpt (set_fields size) w Q.
Proof.
  intros Hf HQ. unfold set_fields.
  assert (Hset : ∀ f v w, pw_freed w = false → sys (Set_ f v) w = Some (set_field f v w, tt)).
  { intros f v w0 H0. cbn. unfold alive. by rewrite H0. }
  do 3 (eapply wpt_bind, wpt_trigger; [by apply Hset|]).
  eapply wpt_trigger; [by apply Hset|]. done.
Qed.

(** What queue_new leaves when it fails: no memory of its own. *)
Definition queue_none (w w' : pworld) : Prop :=
  (pw_freed w' = pw_freed w ∧ pw_ub w' = pw_ub w ∧ pw_aborted w' = pw_aborted w) ∧
  (BQueue ∉ pw_heap w → BBuffer ∉ pw_heap w → pw_heap w' = pw_heap w).

Lemma queue_new_wpt size w : 0 < size ≤ INT_MAX →
  pw_freed w = false ∧ pw_ub w = false ∧ pw_aborted w = false →
  wpt (queue_new size) w (λ q w',
    if fails 5 (pw_faults w) then q = None ∧ queue_none w w'
    else q = Some tt ∧ queue_ready size w' ∧ pw_heap w' = {[BQueue; BBuffer]} ∪ pw_heap w).
Proof.
  intros Hs (F1 & F2 & F3). unfold queue_new. assert (SEM_VALUE_MAX = INT_MAX) by done.
  apply (wpt_checked _ (λ w, set_heap ({[BQueue]} ∪ pw_heap w) w) _ _ 4 (fails 5 (pw_faults w)));
    [done|done|intros -> fl; by apply wpt_ret|intros fl1 H1].
  apply (wpt_checked _ (λ w, set_heap ({[BBuffer]} ∪ pw_heap w) (set_qbuffer (replicate (Z.to_nat size) garbage) w)) _ _ 3
    (fails 5 (pw_faults w))); [|done| |intros fl2 H2].
  { intros w0. cbn. destruct (pop_pfault w0) as [b w1].
    destruct (Z.ltb_spec size 0); [lia|]. by rewrite orb_false_r. }
  { intros -> fl. apply wpt_bind, wpt_free; [cbn; set_solver|]. apply wpt_ret. split; [done|]. split; [done|].
    cbn. set_solver. }
  apply wpt_bind, set_fields_spec; [done|].
  assert (1 ≤ SEM_VALUE_MAX) by (unfold SEM_VALUE_MAX, INT_MAX; lia).
  rewrite Z.mod_small by (unfold INT_MAX in *; lia).
  assert (Hbad : ∀ w', pw_heap w' = {[BBuffer]} ∪ ({[BQueue]} ∪ pw_heap w) → pw_freed w' = pw_freed w →
    pw_ub w' = pw_ub w → pw_aborted w' = pw_aborted w → fails 5 (pw_faults w) = true →
    wpt queue_new_fails w' (λ q w', if fails 5 (pw_faults w) then q = None ∧ queue_none w w'
      else q = Some tt ∧ queue_ready size w' ∧ pw_heap w' = {[BQueue; BBuffer]} ∪ pw_heap w)).
  { intros w' Hh G1 G2 G3 ->. apply wpt_queue_new_fails; [rewrite Hh; set_solver..|]. split; [done|]. split; [done|].
    cbn. rewrite Hh. set_solver. }
  apply (wpt_checked _ (set_sem SemMutex 1) _ _ 2 (fails 5 (pw_faults w)));
    [intros; by apply sys_sem_init|exact H2|intros Hf fl; by apply Hbad|intros fl3 H3].
  apply (wpt_checked _ (set_sem SemFull size) _ _ 1 (fails 5 (pw_faults w)));
    [intros; apply sys_sem_init; lia|exact H3|intros Hf fl; by apply Hbad|intros fl4 H4].
  apply (wpt_checked _ (set_sem SemEmpty 0) _ _ 0 (fails 5 (pw_faults w)));
    [intros; apply sys_sem_init; lia|exact H4|intros Hf fl; by apply Hbad|intros fl5 H5].
  apply wpt_ret. change (fails 0 _) with false in H5. rewrite <- H5.
  split; [done|]. split; [|cbn; set_solver]. repeat split; try done. cbn. by rewrite length_replicate.
Qed.

(** C23. queue_new(size), for a positive size, returns a queue whose size field,
    empty buffer, indices and semaphores are those of an empty queue of that
    capacity, and NULL when and only when one of its two allocations or three
    sem_init calls fails.  With a queue it has allocated the queue and its
    buffer and nothing else; with NULL it has freed what it had allocated, and
    nothing that was not allocated. *)
Theorem queue_new_ready size w : 0 < size ≤ INT_MAX →
  pw_freed w = false ∧ pw_ub w = false ∧ pw_aborted w = false →
  wpt (queue_new size) w (λ q w',
    if fails 5 (pw_faults w) then q = None ∧ queue_none w w'
    else q = Some tt ∧ queue_ready size w' ∧ pw_heap w' = {[BQueue; BBuffer]} ∪ pw_heap w).
Proof. apply queue_new_wpt. Qed.

Lemma queue_new_ready_witness :
  let w0 := PW 3 5 [] 9 9 0 0 0 false {[BPool]} false false 0 ∅ in
  wpt (queue_new 4) (w0 [] true []) (λ q w', q = Some tt ∧ queue_ready 4 w') ∧
  wpt (queue_new 4) (w0 [false; true] true []) (λ q w', q = None ∧ pw_heap w' = {[BPool]}).
Proof.
  split; eapply wpt_conseq.
  - apply (queue_new_ready 4 (PW 3 5 [] 9 9 0 0 0 false {[BPool]} false false 0 ∅ [] true []));
      [unfold INT_MAX; lia|done].
  - cbn. by intros q w' (? & ? & _).
  - apply (queue_new_ready 4 (PW 3 5 [] 9 9 0 0 0 false {[BPool]} false false 0 ∅ [false; true] true []));
      [unfold INT_MAX; lia|done].
  - cbn. intros q w' (-> & _ & Hh). split; [done|]. apply Hh; cbn; set_solver.
Defined.
