(* ===== verification/PoolTrace.v ===== *)
(** * Traces of a process

    The trace of a pool against the histories of its threads: what the whole
    process did is, up to order, what its threads did. *)
From S2P Require Import Prelude Prog Pools Posix Queue QueueInv.
Local Open Scope Z_scope.

(** What [f] selects from a trace. *)
Definition events {A} (f : qlabel → option A) (tr : trace) : list A := omap (λ '(_, l), f l) tr.

Lemma events_app {A} (f : qlabel → option A) tr tr' : events f (tr ++ tr') = events f tr ++ events f tr'.
Proof. apply omap_app. Qed.

Lemma labels_of_cons {L} i j (l : L) tr :
  labels_of i ((j, l) :: tr) = (if decide (i = j) then [l] else []) ++ labels_of i tr.
Proof. unfold labels_of. cbn. by destruct (decide (i = j)). Qed.

Lemma concat_zip {A B} (a b : A → list B) (l : list A) :
  concat (map (λ i, a i ++ b i) l) ≡ₚ concat (map a l) ++ concat (map b l).
Proof.
  induction l as [|i l IH]; cbn; [done|]. rewrite IH.
  rewrite <- !app_assoc. f_equiv. rewrite !app_assoc. f_equiv. apply Permutation_app_comm.
Qed.

Lemma concat_one {A B} `{!EqDecision A} (x : list B) (i : A) (l : list A) : NoDup l → i ∈ l →
  concat (map (λ j, if decide (j = i) then x else []) l) = x.
Proof.
  induction 1 as [|j l Hj _ IH]; [by intros ?%elem_of_nil|]. intros [->|Hi]%elem_of_cons; cbn.
  - rewrite decide_True by done. replace (concat _) with (@nil B); [by rewrite app_nil_r|].
    symmetry. clear IH. induction l as [|k l IH]; cbn; [done|].
    rewrite decide_False by set_solver. apply IH. set_solver.
  - rewrite decide_False by set_solver. by apply IH.
Qed.

Lemma events_split {A} (f : qlabel → option A) tr k :
  (∀ i l, (i, l) ∈ tr → (i < k)%nat) →
  events f tr ≡ₚ concat (map (λ i, omap f (labels_of i tr)) (seq 0 k)).
Proof.
  induction tr as [|[j l] tr IH]; intros Hk.
  - cbn. symmetry. apply Permutation_nil_r. induction (seq 0 k) as [|i s IHs]; [done|exact IHs].
  - assert (Hj : (j < k)%nat) by (apply (Hk j l); left).
    set (x := match f l with Some a => [a] | None => [] end).
    transitivity (x ++ events f tr).
    { unfold events, x. cbn. by destruct (f l). }
    rewrite IH by (intros i l' H; apply (Hk i l'); by right).
    rewrite <- (concat_one x j (seq 0 k)) at 1; [|apply NoDup_seq|apply elem_of_seq; lia].
    rewrite <- concat_zip. f_equiv. apply reflexive_eq, map_ext. intros i.
    rewrite labels_of_cons, omap_app. f_equal. destruct (decide (i = j)); [|done].
    unfold x. cbn. by destruct (f l).
Qed.

Lemma labels_of_none {L} i (tr : list (nat * L)) k : (∀ j l, (j, l) ∈ tr → (j < k)%nat) → (k ≤ i)%nat → labels_of i tr = [].
Proof.
  intros Hk Hi. induction tr as [|[j l] tr IH]; [done|]. rewrite labels_of_cons, IH.
  2:{ intros j' l' H. apply (Hk j' l'). by right. }
  rewrite decide_False; [done|]. intros <-. specialize (Hk i l ltac:(left)). lia.
Qed.

(** When all of it is thread [j]'s, the order is thread [j]'s order. *)
Lemma events_one {A} (f : qlabel → option A) tr j :
  (∀ i, i ≠ j → omap f (labels_of i tr) = []) → events f tr = omap f (labels_of j tr).
Proof.
  induction tr as [|[i l] tr IH]; intros H; [done|].
  assert (Htr : ∀ i', i' ≠ j → omap f (labels_of i' tr) = []).
  { intros i' Hi'. specialize (H i' Hi'). rewrite labels_of_cons, omap_app in H.
    by apply app_eq_nil in H as [_ H]. }
  specialize (IH Htr). rewrite labels_of_cons, omap_app.
  transitivity (match f l with Some a => [a] | None => [] end ++ events f tr).
  { unfold events. cbn. by destruct (f l). }
  rewrite IH. f_equal. destruct (decide (j = i)) as [->|Hne]; [cbn; by destruct (f l)|].
  specialize (H i ltac:(congruence)). rewrite labels_of_cons, decide_True in H by done.
  rewrite omap_app in H. apply app_eq_nil in H as [H _]. cbn in H. by destruct (f l).
Qed.

(** ** Selections *)

Definition is_push (l : qlabel) : option Z := match l with LPush v => Some v | _ => None end.
Definition is_pop (l : qlabel) : option Z := match l with LPop v => Some v | _ => None end.
Definition is_handle (l : qlabel) : option Z := match l with LHandle v => Some v | _ => None end.
Definition is_accept (l : qlabel) : option Z := match l with LAccept v => Some v | _ => None end.

(** The connections handled, and the results of listener_accept. *)
Definition handled (tr : trace) : list Z := events is_handle tr.
Definition accepted (tr : trace) : list Z := events is_accept tr.
