(* ===== verification/Threadpool.v ===== *)
(** * The worker pool (src/threadpool.c)

    The pool's threads are those of a [pool]: thread 0 is the dispatcher and
    thread [S i] is the worker the dispatcher creates as threads[i].  The
    handler a worker calls is the event [Handler] (its behaviour, with the
    server's handle_connection, is the subject of other files). *)
From S2P Require Import Prelude Prog Pools Posix Queue.
Local Open Scope Z_scope.
Local Open Scope prog_scope.

Definition STOP_SENTINEL : Z := -1.

(** struct threadpool: the array of thread ids is the world's [pw_created], the
    handler the event.  The fields are set before a worker is created and never
    again, so the functions take the struct where the C code has a pointer to it;
    its memory is the block [BPool]. *)
Record threadpool := TP { nthreads : Z; tp_q : queue_t }.

(** [item] is NULL unless queue_pop stores to it. *)
Definition worker (tp : threadpool) : itree poolE unit :=
  ITree.iter (λ _ : unit,
    let! r := queue_pop (tp_q tp) (Some tt) in
    let item := default 0 r in
    if item =? STOP_SENTINEL then Ret (inr tt)
    else do! ! (Handler (to_s32 item)) in Ret (inl tt)) tt.

(** A created thread: it runs once pthread_create has started it, and its end
    is what pthread_join waits for. *)
Definition worker_thread (tp : threadpool) (i : nat) : itree poolE unit :=
  do! ! (Begin i) in
  do! worker tp in
  ! (Exit i).

(** for (int j = 0; j < k; ++j) queue_push(tp->q, STOP_SENTINEL); *)
Fixpoint push_stops (q : queue_t) (k : nat) : itree poolE unit :=
  match k with
  | O => Ret tt
  | S k => do! queue_push q STOP_SENTINEL in push_stops q k
  end.

(** [k] iterations of the join loop from thread [j]. *)
Fixpoint join_all (j k : nat) : itree poolE unit :=
  match k with
  | O => Ret tt
  | S k => do! ! (Join j) in join_all (S j) k
  end.

(** [k] iterations of the creation loop from [i], with its rollback. *)
Fixpoint create_all (tp : threadpool) (i k : nat) : itree poolE (option threadpool) :=
  match k with
  | O => Ret (Some tp)
  | S k =>
      let! created := ! (Create i) in
      if negb created then
        do! push_stops (tp_q tp) i in
        do! join_all 0 i in
        do! queue_delete (tp_q tp) in
        do! ! (Free (Some BThreads)) in
        do! ! (Free (Some BPool)) in
        Ret None
      else create_all tp (S i) k
  end.

(** [handler] is whether the handler pointer is not NULL. *)
Definition threadpool_new (nthreads queue_size : Z) (handler : bool)
    : itree poolE (option threadpool) :=
  if (nthreads <=? 0) || (queue_size <=? 0) || negb handler then Ret None
  else
    let! tp := ! (Malloc BPool) in
    if negb tp then Ret None
    else
      let! threads := ! (Malloc BThreads) in
      let! q := queue_new queue_size in
      match threads, q with
      | true, Some _ => create_all (TP nthreads q) 0 (Z.to_nat nthreads)
      | _, _ =>
          do! ! (Free (if threads then Some BThreads else None)) in
          do! queue_delete q in
          do! ! (Free (Some BPool)) in
          Ret None
      end.

Definition threadpool_submit (tp : option threadpool) (connfd : Z) : itree poolE bool :=
  match tp with
  | None => Ret false
  | Some tp => queue_push (tp_q tp) connfd
  end.

Definition threadpool_destroy (tp : option threadpool) : itree poolE unit :=
  match tp with
  | None => Ret tt
  | Some tp =>
      do! push_stops (tp_q tp) (Z.to_nat (nthreads tp)) in
      do! join_all 0 (Z.to_nat (nthreads tp)) in
      do! queue_delete (tp_q tp) in
      do! ! (Free (Some BThreads)) in
      do! ! (Free (Some BPool)) in
      Ret tt
  end.

(** ** The dispatcher (main, src/httpserver.c) *)

(** The loop of main: for (;;) { connfd = listener_accept(&sock); ... } *)
Definition dispatcher (tp : option threadpool) : itree poolE unit :=
  ITree.iter (λ _ : unit,
    let! connfd := ! Accept in
    if connfd <? 0 then Ret (inl tt)
    else do! threadpool_submit tp connfd in Ret (inl tt)) tt.

(** main from the creation of the pool on. *)
Definition serve (n_threads : Z) : itree poolE unit :=
  let! pool := threadpool_new n_threads n_threads true in
  match pool with
  | None => ! Errx
  | Some tp =>
      let! listening := ! ListenInit in
      if negb listening then ! Errx else dispatcher (Some tp)
  end.

(** A pool that is given a list of connections and shut down. *)
Fixpoint submit_all (tp : option threadpool) (fds : list Z) : itree poolE unit :=
  match fds with
  | [] => Ret tt
  | fd :: fds => do! threadpool_submit tp fd in submit_all tp fds
  end.

Definition session (n size : Z) (fds : list Z) : itree poolE unit :=
  let! pool := threadpool_new n size true in
  match pool with
  | None => ! Errx
  | Some tp =>
      do! submit_all (Some tp) fds in
      threadpool_destroy (Some tp)
  end.

(** The threads of the process: the dispatcher and the workers it may create. *)
Definition process (main : itree poolE unit) (n : Z) (w : pworld) : pool poolE pworld qlabel :=
  Pool (main :: (worker_thread (TP n (Some tt)) <$> seq 0 (Z.to_nat n))) w [].
