(* ===== verification/ThreadpoolInv.v ===== *)
(** * The worker pool under concurrency (src/threadpool.c, main)

    The invariant of a process that creates a pool, hands it connections and
    may shut it down, on top of the queue's invariant: who was created, who
    has returned and was joined, and that the queue is deleted only when no
    worker can touch it again.  A thread's ghost state is its part in the
    pool's life ([ctl]) beside its ghost state for the queue. *)
From S2P Require Import Prelude Prog Pools Alone Posix Queue QueueInv Threadpool.
Local Open Scope Z_scope.
Local Open Scope prog_scope.

(** ** Ghost state *)

Inductive ctl :=
  | MInit (w : pworld)   (* the dispatcher, alone so far: the world is [w] *)
  | MLive (c e : nat)    (* the dispatcher, [c] workers created, the first [e] joined *)
  | MFree (c : nat) (h : gset block)
                         (* the dispatcher, the queue deleted and [h] still to free *)
  | MDone (c : nat)      (* the dispatcher, done with the pool, [c] workers created *)
  | WNew (i : nat) | WRun (i : nat) | WDone (i : nat).

Abbreviation tghost := (ctl * ghost)%type.

(** What a worker does with the elements [vs]. *)
Definition jobs (vs : list Z) : history := concat (map (λ v, [LPop v; LHandle (to_s32 v)]) vs).

Definition real (v : Z) : Prop := v ≠ STOP_SENTINEL.

(** A worker between two jobs, and one that returned. *)
Definition run_hist (h : history) : Prop := ∃ vs, Forall real vs ∧ h = jobs vs.
Definition done_hist (i : nat) (h : history) : Prop :=
  ∃ vs, Forall real vs ∧ h = jobs vs ++ [LPop STOP_SENTINEL; LExit i].

#[export] Instance qlabel_eq_dec : EqDecision qlabel.
Proof. solve_decision. Defined.

(** How many sentinels a history pushes. *)
Definition stops (h : history) : nat :=
  length (filter (λ l, l = LPush STOP_SENTINEL) h).

(** What the dispatcher does with the results of listener_accept. *)
Definition dispatched (rs : list Z) : history :=
  concat (map (λ r, if r <? 0 then [LAccept r] else [LAccept r; LPush r]) rs).
Definition dispatch_hist (h : history) : Prop := ∃ rs, h = dispatched rs.

(** Worker [i]'s ghost state against the world. *)
Definition wrole (w : pworld) (i : nat) (x : tghost) : Prop :=
  match x.1 with
  | WNew j => j = i ∧ x.2 = (SIdle, []) ∧ i ∉ pw_exited w
  | WRun j => j = i ∧ (i < pw_created w)%nat ∧ i ∉ pw_exited w
  | WDone j => j = i ∧ (i < pw_created w)%nat ∧ i ∈ pw_exited w ∧ x.2.1 = SIdle ∧ done_hist i x.2.2
  | _ => False
  end.

(** No worker runs, now or later. *)
Definition quiet_pool (tr : trace) (gs : list tghost) (w : pworld) : Prop :=
  pw_ub w = false ∧ pw_aborted w = false ∧ pops tr `prefix_of` pushes tr ∧
  (∀ i g, gs !! i = Some g → g.2.1 = SIdle ∧ g.2.2 = labels_of i tr) ∧
  (∀ i g, gs !! S i = Some g →
     match g.1 with WNew _ => (pw_created w ≤ i)%nat | WDone _ => True | _ => False end).

(** The memory of a pool. *)
Definition pool_heap : gset block := {[BPool; BThreads; BQueue; BBuffer]}.

Section invariant.
(** [N] is the queue's capacity, [K] the number of worker threads there can be,
    [accepts] whether the dispatcher is main's (it accepts connections). *)
Context (N : Z) (K : nat) (accepts : Prop).

Definition main_inv (tr : trace) (gs : list tghost) (w : pworld) (x : tghost) : Prop :=
  match x.1 with
  | MInit w0 => w = w0 ∧ x.2 = (SIdle, []) ∧ tr = [] ∧ pw_created w = 0%nat ∧
      pw_freed w = false ∧ pw_ub w = false ∧ pw_aborted w = false
  | MLive c e => qinv N tr (gs.*2) w ∧ pw_created w = c ∧ (∀ j, (j < e)%nat → j ∈ pw_exited w) ∧
      pw_heap w = pool_heap
  | MFree c h => quiet_pool tr gs w ∧ pw_created w = c ∧ pw_heap w = h
  | MDone c => quiet_pool tr gs w ∧ pw_created w = c ∧ pw_heap w = ∅
  | _ => False
  end.

Record tinv (tr : trace) (gs : list tghost) (w : pworld) : Prop := {
  ti_roles : ∀ i x, gs !! S i = Some x → wrole w i x;
  ti_main : ∃ x, gs !! 0%nat = Some x ∧ main_inv tr gs w x
}.

(** With which history the dispatcher starts a push, a worker a pop. *)
Definition main_start (c : nat) (sm : sem) (h : history) : Prop :=
  sm = SemFull ∧ (stops h < c ≤ K)%nat.
Definition worker_start (sm : sem) (h : history) : Prop := sm = SemEmpty ∧ run_hist h.

Definition tat X (x : tghost) (e : poolE X) : Prop :=
  match x.1 with
  | MInit w0 => sys e w0 ≠ None
  | MLive c m =>
      match e with
      | Join j => x.2.1 = SIdle ∧ j = m ∧ (m < c ≤ K)%nat ∧ stops x.2.2 = c
      | Accept => x.2.1 = SIdle ∧ dispatch_hist x.2.2 ∧ (0 < c ≤ K)%nat ∧ accepts
      | Create _ | FreeQueue | Errx | ListenInit => x.2.1 = SIdle
      | _ => waits (main_start c) X x.2 e
      end
  | MFree _ h => match e with Free (Some b) => b ∈ h | _ => False end
  | MDone _ => match e with Errx => True | _ => False end
  | WNew i => match e with Begin j => j = i | _ => False end
  | WRun _ =>
      match e with
      | Handler _ | Exit _ => x.2.1 = SIdle
      | _ => waits worker_start X x.2 e
      end
  | WDone _ => False
  end.

(** *** Positions *)

Definition is_main (m : ctl) : bool :=
  match m with MInit _ | MLive _ _ | MFree _ _ | MDone _ => true | _ => false end.

Lemma main_at tr gs w p m g : tinv tr gs w → gs !! p = Some (m, g) → is_main m = true → p = 0%nat.
Proof.
  intros HI Hp Hm. destruct p as [|i]; [done|]. exfalso.
  pose proof (ti_roles _ _ _ HI _ _ Hp) as H. unfold wrole in H. by destruct m.
Qed.

Lemma worker_at tr gs w p m g : tinv tr gs w → gs !! p = Some (m, g) → is_main m = false →
  ∃ i, p = S i ∧ wrole w i (m, g).
Proof.
  intros HI Hp Hm. destruct p as [|i]; [|eexists; split; [done|by eapply ti_roles]].
  destruct (ti_main _ _ _ HI) as (x & Hx & HM). rewrite Hp in Hx. simplify_eq.
  unfold main_inv in HM. by destruct m.
Qed.

Lemma main_inv_at tr gs w p m g : tinv tr gs w → gs !! p = Some (m, g) → is_main m = true →
  p = 0%nat ∧ main_inv tr gs w (m, g).
Proof.
  intros HI Hp Hm. pose proof (main_at _ _ _ _ _ _ HI Hp Hm) as ->. split; [done|].
  destruct (ti_main _ _ _ HI) as (x & Hx & HM). rewrite Hp in Hx. by simplify_eq.
Qed.

(** A running worker: the pool is live. *)
Lemma live_at tr gs w p i g : tinv tr gs w → gs !! p = Some (WRun i, g) →
  p = S i ∧ ∃ c e gm, gs !! 0%nat = Some (MLive c e, gm) ∧ main_inv tr gs w (MLive c e, gm).
Proof.
  intros HI Hp. destruct (worker_at _ _ _ _ _ _ HI Hp) as (j & -> & -> & Hlt & _); [done|].
  split; [done|]. destruct (ti_main _ _ _ HI) as ([m gm] & Hm & HM).
  destruct m; try done.
  - destruct HM as (_ & _ & _ & Hc & _). lia.
  - by exists c, e, gm.
  - destruct HM as ((_ & _ & _ & _ & HW) & _). by destruct (HW _ _ Hp).
  - destruct HM as ((_ & _ & _ & _ & HW) & _). by destruct (HW _ _ Hp).
Qed.

(** Roles after one thread's ghost state is replaced. *)
Lemma roles_insert (gs : list tghost) w w' p x' :
  (∀ i x, gs !! S i = Some x → wrole w i x) →
  (∀ i x, S i ≠ p → wrole w i x → wrole w' i x) →
  (∀ i, p = S i → wrole w' i x') →
  ∀ i x, <[p := x']> gs !! S i = Some x → wrole w' i x.
Proof.
  intros HR Hk Hx i x. rewrite list_lookup_insert. case_decide as Hc.
  - destruct Hc as [-> _]. intros [= <-]. by apply Hx.
  - intros Hi. destruct (decide (S i = p)) as [<-|Hne]; [|by eapply Hk, HR].
    exfalso. apply Hc. split; [done|]. by eapply lookup_lt_Some.
Qed.

Lemma wrole_same w w' i x : pw_created w' = pw_created w → pw_exited w' = pw_exited w →
  wrole w i x → wrole w' i x.
Proof. unfold wrole. intros -> ->. done. Qed.

(** *** Queue operations inside the pool *)

(** The events of queue_push and queue_pop. *)
Definition qevent X (e : poolE X) : Prop :=
  match e with
  | SemWait _ | SemPost _ | Abort | Get _ | Set_ _ _ | BufGet _ | BufSet _ _ => True
  | _ => False
  end.

(** Threads are as they were, and the allocated memory. *)
Definition same_threads (w w' : pworld) : Prop :=
  pw_created w' = pw_created w ∧ pw_exited w' = pw_exited w.
Definition same_pool (w w' : pworld) : Prop := same_threads w w' ∧ pw_heap w' = pw_heap w.

Lemma pop_pfault_same w b w' : pop_pfault w = (b, w') → same_pool w w' ∧ same_queue w w'.
Proof.
  unfold pop_pfault. destruct (pw_faults w) as [|b' fl]; intros [= <- <-]; repeat split; done || by intros [].
Qed.

Lemma alive_same w : same_pool w (alive w).
Proof. unfold alive. by destruct (pw_freed w). Qed.

Lemma qevent_pool X (e : poolE X) w w' x : qevent X e → sys e w = Some (w', x) → same_pool w w'.
Proof.
  pose proof (alive_same w) as Ha.
  destruct e as [| | |sm|sm| |f|f v|i|i v| | | | | | | | | |]; try done; intros _ Hs; cbn in Hs.
  - destruct (pop_pfault (alive w)) as [b w1] eqn:Hp.
    apply pop_pfault_same in Hp as [[[H1 H2] H3] _]. destruct Ha as [[Ha1 Ha2] Ha3].
    destruct b; [by simplify_eq; repeat split; congruence|]. destruct (_ <? _); simplify_eq.
    destruct sm; repeat split; cbn; congruence.
  - by destruct (_ <? _); simplify_eq; [destruct sm|].
  - by simplify_eq.
  - by simplify_eq.
  - by destruct f; simplify_eq.
  - by simplify_eq; destruct (in_buffer i w).
  - by simplify_eq; destruct (in_buffer i w).
Qed.

(** A thread that works on the queue: the dispatcher of a live pool, or a
    running worker. *)
Definition on_queue (m : ctl) : bool :=
  match m with MLive _ _ | WRun _ => true | _ => false end.

Lemma queue_inv_at tr gs w p m g : tinv tr gs w → gs !! p = Some (m, g) → on_queue m = true →
  qinv N tr (gs.*2) w.
Proof.
  intros HI Hp Hm. destruct m; try done.
  - by destruct (main_inv_at _ _ _ _ _ _ HI Hp) as (_ & HM & _).
  - by destruct (live_at _ _ _ _ _ _ HI Hp) as (_ & c & e & gm & _ & HM & _).
Qed.

Lemma live_step tr tr' gs w w' p m g g' : tinv tr gs w → gs !! p = Some (m, g) → on_queue m = true →
  same_pool w w' → qinv N tr' (<[p := g']> (gs.*2)) w' → tinv tr' (<[p := (m, g')]> gs) w'.
Proof.
  intros HI Hp Hm [[Hc He] Hh] HQ0.
  assert (HQ : qinv N tr' ((<[p := (m, g')]> gs).*2) w') by (by rewrite list_fmap_insert).
  clear HQ0. split.
  - apply (roles_insert _ w); [by apply ti_roles with tr| |].
    + intros i x _. by apply wrole_same.
    + intros i ->. pose proof (ti_roles _ _ _ HI _ _ Hp) as HR. destruct m; try done.
      apply (wrole_same w); [done|done|]. exact HR.
  - destruct m as [|c e| | | |i|]; try done.
    + destruct (main_inv_at _ _ _ _ _ _ HI Hp) as (-> & _ & H1 & H2 & H3); [done|].
      exists (MLive c e, g'). split; [apply list_lookup_insert_eq; by eapply lookup_lt_Some|].
      split_and!; [done|cbn; congruence| |cbn; congruence]. intros j Hj. rewrite He. by apply H2.
    + destruct (live_at _ _ _ _ _ _ HI Hp) as (-> & c & e & gm & H0 & _ & H1 & H2 & H3).
      exists (MLive c e, gm). split; [by rewrite list_lookup_insert_ne|].
      split_and!; [done|cbn; congruence| |cbn; congruence]. intros j Hj. rewrite He. by apply H2.
Qed.

Lemma does_queue_push n q v : does qevent n (queue_push q v).
Proof. unfold queue_push, sem_wait_checked, sem_post_checked. does_tac. Qed.
Lemma does_queue_pop n q e : does qevent n (queue_pop q e).
Proof. unfold queue_pop, sem_wait_checked, sem_post_checked. does_tac. Qed.

(** A queue operation proved against the queue's invariant, inside the pool. *)
Lemma ok_on_queue {R} n m (st : sem → history → Prop) (t : itree poolE R) g Q :
  on_queue m = true →
  (∀ X (e : poolE X) g, qevent X e → waits st X g e → tat X (m, g) e) →
  (∀ n, does qevent n t) → ok (qinv N) (waits st) n t g Q →
  ok tinv tat n t (m, g) (λ r x, x.1 = m ∧ Q r x.2).
Proof.
  intros Hm Hat Hd Hok. eapply ok_lift; [exact Hat| | |exact Hok|apply Hd].
  - intros tr gs w i g0 HI Hi. by eapply queue_inv_at.
  - intros X e x tr gs w w' i g0 g' HP HI Hi Hs HQ.
    eapply live_step; [done|done|done|by eapply qevent_pool|done].
Qed.

Lemma ok_pool_push n v c e h (Q : bool → tghost → Prop) : (stops h < c ≤ K)%nat →
  Q true (MLive c e, (SIdle, h ++ [LPush v])) →
  ok tinv tat n (queue_push (Some tt) v) (MLive c e, (SIdle, h)) Q.
Proof.
  intros Hh HQ. eapply ok_conseq.
  - apply (ok_on_queue n (MLive c e) (main_start c)); [done| |intros; apply does_queue_push|].
    + intros X ev g HP Hw. by destruct ev.
    + by apply (ok_queue_push N _ n v h (λ r g, r = true ∧ g = (SIdle, h ++ [LPush v]))).
  - intros r [m g] [Hm Hr]. cbn in Hm, Hr. destruct Hr as [-> ->]. by subst.
Qed.

Lemma ok_pool_pop n i h (Q : option Z → tghost → Prop) : run_hist h →
  (∀ v, Q (Some v) (WRun i, (SIdle, h ++ [LPop v]))) →
  ok tinv tat n (queue_pop (Some tt) (Some tt)) (WRun i, (SIdle, h)) Q.
Proof.
  intros Hh HQ. eapply ok_conseq.
  - apply (ok_on_queue n (WRun i) worker_start); [done| |intros; apply does_queue_pop|].
    + intros X ev g HP Hw. by destruct ev.
    + apply (ok_queue_pop N _ n h (λ r g, ∃ v, r = Some v ∧ g = (SIdle, h ++ [LPop v]))); [done|].
      intros v. by exists v.
  - intros r [m g] [Hm Hr]. cbn in Hm, Hr. destruct Hr as (v & -> & ->). by subst.
Qed.

(** *** The other events *)

Lemma lookup_snd (gs : list tghost) p m g : gs !! p = Some (m, g) → gs.*2 !! p = Some g.
Proof. intros H. by rewrite list_lookup_fmap, H. Qed.

Lemma pushes_at i j ls : pushes (map (pair i) ls) = pushes (map (pair j) ls).
Proof. unfold pushes. induction ls as [|[] ls IH]; cbn; congruence. Qed.
Lemma pops_at i j ls : pops (map (pair i) ls) = pops (map (pair j) ls).
Proof. unfold pops. induction ls as [|[] ls IH]; cbn; congruence. Qed.

(** An event of a thread on the queue that touches neither queue nor threads. *)
Lemma ok_outside {X} n (e : poolE X) m s h (ls : X → history) (Q : X → tghost → Prop) :
  on_queue m = true → tat X (m, (s, h)) e →
  (∀ x, lab e x = ls x ∧ pushes (map (pair 0%nat) (ls x)) = [] ∧ pops (map (pair 0%nat) (ls x)) = []) →
  (∀ w w' x, sys e w = Some (w', x) → same_pool w w' ∧ same_queue w w') →
  (∀ x, Q x (m, (s, h ++ ls x))) → ok tinv tat n (perform e) (m, (s, h)) Q.
Proof.
  intros Hm Hat Hls Hsys HQ. apply ok_trigger; [done|]. intros tr gs w w' x p Hp HI Hs.
  destruct (Hsys _ _ _ Hs) as [Ht Hq]. destruct (Hls x) as (-> & H1 & H2).
  exists (m, (s, h ++ ls x)). split; [|apply HQ].
  eapply live_step; [done|done|done|done|].
  apply (qinv_label N _ _ w); [by eapply queue_inv_at|by eapply lookup_snd|done|..].
  - by rewrite (pushes_at _ 0).
  - by rewrite (pops_at _ 0).
Qed.

(** *** Workers *)

Lemma ok_begin n i (Q : unit → tghost → Prop) : Q tt (WRun i, (SIdle, [])) →
  ok tinv tat n (perform (Begin i)) (WNew i, (SIdle, [])) Q.
Proof.
  intros HQ. apply ok_trigger; [done|]. intros tr gs w w' [] p Hp HI Hs.
  change (sys (Begin i) w) with (if (i <? pw_created w)%nat then Some (w, tt) else None) in Hs.
  destruct (Nat.ltb_spec i (pw_created w)) as [Hlt|]; [|done]. injection Hs as Hs. subst w'.
  exists (WRun i, (SIdle, [])). split; [|done]. cbn. rewrite app_nil_r.
  destruct (worker_at _ _ _ _ _ _ HI Hp) as (j & -> & <- & _ & Hex); [done|]. split.
  - apply (roles_insert _ w); [by apply ti_roles with tr|by intros|]. intros j [= <-]. done.
  - destruct (ti_main _ _ _ HI) as ([m gm] & Hm & HM). exists (m, gm).
    split; [by rewrite list_lookup_insert_ne|]. destruct m as [|c e|c e| | | |]; try done.
    + destruct HM as (HQ' & Hc & He). split; [|done].
      rewrite list_fmap_insert, list_insert_id by (by eapply lookup_snd). done.
    + destruct HM as ((_ & _ & _ & _ & HW) & _). specialize (HW _ _ Hp). cbn in HW. lia.
    + destruct HM as ((_ & _ & _ & _ & HW) & _). specialize (HW _ _ Hp). cbn in HW. lia.
Qed.

Lemma ok_exit n i h (Q : unit → tghost → Prop) : done_hist i (h ++ [LExit i]) →
  Q tt (WDone i, (SIdle, h ++ [LExit i])) →
  ok tinv tat n (perform (Exit i)) (WRun i, (SIdle, h)) Q.
Proof.
  intros Hd HQ. apply ok_trigger; [done|]. intros tr gs w w' [] p Hp HI Hs. cbn in Hs. simplify_eq.
  exists (WDone i, (SIdle, h ++ [LExit i])). split; [|done].
  pose proof (queue_inv_at _ _ _ _ _ _ HI Hp eq_refl) as HQ0.
  destruct (live_at _ _ _ _ _ _ HI Hp) as (-> & c & e & gm & H0 & _ & H1 & H2 & H3).
  pose proof (ti_roles _ _ _ HI _ _ Hp) as (_ & Hlt & Hne). split.
  - eapply roles_insert; [by apply ti_roles with tr| |].
    + intros j [m g] Hj. unfold wrole. destruct m; cbn; set_solver.
    + intros j [= <-]. unfold wrole; cbn. split_and!; [done|done|set_solver|done|done].
  - exists (MLive c e, gm). split; [by rewrite list_lookup_insert_ne|]. split_and!.
    + rewrite list_fmap_insert. eapply qinv_label; [done|by eapply lookup_snd| |done|done].
      repeat split; done || by intros [].
    + done.
    + intros j Hj. cbn. specialize (H2 j Hj). set_solver.
    + done.
Qed.

Lemma jobs_snoc vs v : jobs (vs ++ [v]) = jobs vs ++ [LPop v; LHandle (to_s32 v)].
Proof. unfold jobs. by rewrite map_app, concat_app. Qed.

Lemma ok_worker n i tp : tp_q tp = Some tt →
  ok tinv tat n (worker_thread tp i) (WNew i, (SIdle, [])) (λ _ x, x.1 = WDone i).
Proof.
  intros Hq. unfold worker_thread, worker. rewrite Hq. apply ok_bind, ok_begin, ok_bind.
  eapply (ok_iter _ _ _ _ (λ _ x, ∃ h, x = (WRun i, (SIdle, h)) ∧ run_hist h)
    (λ _ x, ok tinv tat n (perform (Exit i)) x (λ _ x, x.1 = WDone i))).
  2:{ exists []. split; [done|]. by exists []. }
  intros m _ x (h & -> & Hh). apply ok_bind, ok_pool_pop; [done|]. intros v. cbn [default from_option id].
  destruct Hh as (vs & Hvs & ->). destruct (Z.eqb_spec v STOP_SENTINEL) as [->|Hv].
  - apply ok_ret, ok_exit; [|done]. exists vs. by rewrite <- app_assoc.
  - apply ok_bind, (ok_outside _ _ _ _ _ (λ _, [LHandle (to_s32 v)])); [done..| |].
    + intros w w' [] Hs. cbn in Hs. simplify_eq. repeat split; done || by intros [].
    + intros _. apply ok_ret. eexists. split; [done|]. exists (vs ++ [v]).
      rewrite jobs_snoc, <- app_assoc. split; [|done]. apply Forall_app. auto.
Qed.

(** *** The dispatcher *)

(** A step of a live pool's dispatcher that leaves the queue alone. *)
Lemma main_step tr gs w w' p c e s h c' e' : tinv tr gs w → gs !! p = Some (MLive c e, (s, h)) →
  same_queue w w' → pw_heap w' = pw_heap w → (∀ i x, wrole w i x → wrole w' i x) →
  pw_created w' = c' → (∀ j, (j < e')%nat → j ∈ pw_exited w') →
  tinv (tr ++ map (pair p) []) (<[p := (MLive c' e', (s, h))]> gs) w'.
Proof.
  intros HI Hp Hq Hh Hr Hc He.
  destruct (main_inv_at _ _ _ _ _ _ HI Hp) as (-> & HQ & _ & _ & H0); [done|]. split.
  - apply (roles_insert _ w); [by apply ti_roles with tr|by auto|done].
  - exists (MLive c' e', (s, h)). split; [apply list_lookup_insert_eq; by eapply lookup_lt_Some|].
    split_and!; [|exact Hc|exact He|cbn; congruence]. rewrite list_fmap_insert.
    pose proof (qinv_label N _ _ w w' 0 s h [] HQ (lookup_snd _ _ _ _ Hp) Hq eq_refl eq_refl) as H.
    rewrite !app_nil_r in H. cbn. by rewrite app_nil_r.
Qed.

(** The step that makes the pool live: the queue is ready and nobody runs. *)
Lemma first_step tr gs w w' p w0 c' : tinv tr gs w → gs !! p = Some (MInit w0, (SIdle, [])) →
  0 < N ≤ INT_MAX → queue_ready N w' → pw_heap w' = pool_heap → (∀ i x, wrole w i x → wrole w' i x) → pw_created w' = c' →
  tinv (tr ++ map (pair p) []) (<[p := (MLive c' 0, (SIdle, []))]> gs) w'.
Proof.
  intros HI Hp HN Hq Hh Hr Hc.
  destruct (main_inv_at _ _ _ _ _ _ HI Hp) as (-> & _ & _ & -> & H0 & _); [done|]. split.
  - apply (roles_insert _ w); [by apply ti_roles with []|by auto|done].
  - exists (MLive c' 0, (SIdle, [])). split; [apply list_lookup_insert_eq; by eapply lookup_lt_Some|].
    split_and!; [|exact Hc|lia|exact Hh]. cbn. rewrite list_fmap_insert.
    replace (<[0%nat := _]> (gs.*2)) with (replicate (length gs) (SIdle, []) : list ghost);
      [by apply qinv_ready|].
    apply replicate_as_Forall. split; [by rewrite length_insert, length_fmap|].
    apply Forall_insert; [|done]. apply Forall_fmap, Forall_lookup. intros [|i] x Hx; cbn.
    + rewrite Hp in Hx. by simplify_eq.
    + pose proof (ti_roles _ _ _ HI _ _ Hx) as HR. unfold wrole in HR. rewrite H0 in HR.
      destruct x as [[] g]; cbn in HR |- *; naive_solver lia.
Qed.

Lemma create_spec i (w w' : pworld) (x : bool) : sys (Create i) w = Some (w', x) → same_queue w w' ∧
  pw_exited w' = pw_exited w ∧ pw_created w' = (if x then S i else pw_created w) ∧ pw_heap w' = pw_heap w.
Proof.
  cbn. destruct (pop_pfault w) as [b w1] eqn:Hp. apply pop_pfault_same in Hp as [[[H1 H2] H4] H3].
  intros [= <- <-]. by destruct b.
Qed.

Lemma wrole_grow w w' i x : (pw_created w ≤ pw_created w')%nat → pw_exited w' = pw_exited w →
  wrole w i x → wrole w' i x.
Proof. unfold wrole. intros Hc ->. destruct x.1; naive_solver lia. Qed.

Lemma ok_create n c h (Q : bool → tghost → Prop) :
  (∀ b, Q b (MLive (if b then S c else c) 0, (SIdle, h))) →
  ok tinv tat n (perform (Create c)) (MLive c 0, (SIdle, h)) Q.
Proof.
  intros HQ. apply ok_trigger; [done|]. intros tr gs w w' b p Hp HI Hs.
  destruct (create_spec _ _ _ _ Hs) as (H1 & H2 & H3 & H4). eexists. split; [|apply HQ].
  destruct (main_inv_at _ _ _ _ _ _ HI Hp) as (_ & _ & Hc & _); [done|]. cbn in Hc.
  apply (main_step _ _ w _ _ c 0); try done; [|by destruct b; congruence|lia].
  intros i x. apply wrole_grow; [destruct b; lia|done].
Qed.

Lemma ok_create_first n w0 (Q : bool → tghost → Prop) : 0 < N ≤ INT_MAX → queue_ready N w0 → pw_heap w0 = pool_heap →
  (∀ b, Q b (MLive (if b then 1 else 0) 0, (SIdle, []))) →
  ok tinv tat n (perform (Create 0)) (MInit w0, (SIdle, [])) Q.
Proof.
  intros HN Hq Hh HQ. apply ok_trigger.
  { cbn. by destruct (pop_pfault w0). }
  intros tr gs w w' b p Hp HI Hs. destruct (create_spec _ _ _ _ Hs) as (H1 & H2 & H3 & H4).
  eexists. split; [|apply HQ].
  destruct (main_inv_at _ _ _ _ _ _ HI Hp) as (_ & HM); [done|].
  destruct HM as (-> & _ & _ & Hc & _). apply (first_step _ _ w0 _ _ w0); try done.
  - destruct H1 as ((S1 & S2 & S3 & S4) & Hb & Hsem & F1 & F2 & F3).
    pose proof (Hsem SemFull) as M1. pose proof (Hsem SemEmpty) as M2. pose proof (Hsem SemMutex) as M3.
    cbn in M1, M2, M3. unfold queue_ready. by rewrite S1, S2, S3, S4, Hb, M1, M2, M3, F1, F2, F3.
  - congruence.
  - intros i x. apply wrole_grow; [destruct b; lia|done].
  - by destruct b; congruence.
Qed.

Lemma ok_join n c e h (Q : unit → tghost → Prop) : (e < c ≤ K)%nat → stops h = c →
  Q tt (MLive c (S e), (SIdle, h)) → ok tinv tat n (perform (Join e)) (MLive c e, (SIdle, h)) Q.
Proof.
  intros He Hh HQ. apply ok_trigger; [done|]. intros tr gs w w' [] p Hp HI Hs. cbn in Hs.
  case_decide as Hex; [|done]. injection Hs as Hs. subst w'. eexists. split; [|exact HQ].
  destruct (main_inv_at _ _ _ _ _ _ HI Hp) as (_ & _ & Hc & Hj); [done|].
  apply (main_step _ _ w _ _ c e); try done.
  intros j Hlt. destruct (decide (j = e)) as [->|]; [done|]. apply Hj. lia.
Qed.

Lemma quiet_init tr gs w w0 : tinv tr gs w → gs !! 0%nat = Some (MInit w0, (SIdle, [])) →
  quiet_pool tr gs w.
Proof.
  intros HI Hp. destruct (main_inv_at _ _ _ _ _ _ HI Hp) as (_ & HM); [done|].
  destruct HM as (_ & _ & -> & Hc & _ & F2 & F3). split_and!; try done.
  - intros [|i] [m g] Hx; [rewrite Hp in Hx; by simplify_eq|].
    pose proof (ti_roles _ _ _ HI _ _ Hx) as HR. unfold wrole in HR. rewrite Hc in HR.
    destruct m; cbn in HR |- *; naive_solver lia.
  - intros i [m g] Hx. pose proof (ti_roles _ _ _ HI _ _ Hx) as HR. unfold wrole in HR.
    rewrite Hc in HR. destruct m; cbn in HR |- *; naive_solver lia.
Qed.

(** All created workers are joined. *)
Lemma quiet_joined tr gs w c h : tinv tr gs w → gs !! 0%nat = Some (MLive c c, (SIdle, h)) →
  quiet_pool tr gs w.
Proof.
  intros HI Hp. destruct (main_inv_at _ _ _ _ _ _ HI Hp) as (_ & HM); [done|].
  destruct HM as (HQ & Hc & Hj & _). cbn in Hc.
  assert (HW : ∀ i g, gs !! S i = Some g → g.2.1 = SIdle ∧
    match g.1 with WNew _ => (pw_created w ≤ i)%nat | WDone _ => True | _ => False end).
  { intros i [m g] Hx. pose proof (ti_roles _ _ _ HI _ _ Hx) as HR. unfold wrole in HR.
    specialize (Hj i). destruct m; cbn in HR |- *; try done.
    - destruct HR as (_ & -> & Hne). split; [done|]. apply Nat.nlt_ge. intros Hlt. apply Hne, Hj. lia.
    - destruct HR as (_ & Hlt & Hne). destruct Hne. apply Hj. lia.
    - naive_solver. }
  destruct (qi_flags _ _ _ _ HQ) as (_ & F2 & F3). split_and!; try done.
  - by eapply qi_prefix.
  - intros i [m [st h']] Hx. split; [destruct i; [rewrite Hp in Hx; by simplify_eq|by apply (HW i)]|].
    eapply (qi_hist _ _ _ _ HQ). by eapply lookup_snd.
  - intros i g Hx. by apply HW.
Qed.

Lemma quiet_done tr gs w c h : tinv tr gs w → gs !! 0%nat = Some (MDone c, (SIdle, h)) →
  quiet_pool tr gs w.
Proof. intros HI Hp. by destruct (main_inv_at _ _ _ _ _ _ HI Hp) as (_ & HM & _). Qed.

(** A step of the dispatcher when nobody else runs any more. *)
Lemma done_step tr gs w w' m m' h ls : tinv tr gs w → gs !! 0%nat = Some (m, (SIdle, h)) →
  quiet_pool tr gs w → same_threads w w' → pw_ub w' = false → pw_aborted w' = false →
  pushes (map (pair 0%nat) ls) = [] → pops (map (pair 0%nat) ls) = [] →
  m' = MDone (pw_created w) ∧ pw_heap w' = ∅ ∨ m' = MFree (pw_created w) (pw_heap w') →
  tinv (tr ++ map (pair 0%nat) ls) (<[0%nat := (m', (SIdle, h ++ ls))]> gs) w'.
Proof.
  intros HI Hp (_ & _ & Hpre & Hh & HW) [Hc He] F2 F3 Hpu Hpo Hm'. split.
  - apply (roles_insert _ w); [by apply ti_roles with tr| |done]. intros i x _. by apply wrole_same.
  - eexists. split; [apply list_lookup_insert_eq; by eapply lookup_lt_Some|].
    assert (Hq : quiet_pool (tr ++ map (pair 0%nat) ls) (<[0%nat := (m', (SIdle, h ++ ls))]> gs) w').
    { split_and!; try done.
      + by rewrite pushes_app, pops_app, Hpu, Hpo, !app_nil_r.
      + intros i g. rewrite labels_of_app, list_lookup_insert. case_decide as Hd.
        * destruct Hd as [<- _]. intros [= <-]. destruct (Hh _ _ Hp) as [_ Hh0].
          cbn in Hh0 |- *. by rewrite labels_of_self, Hh0.
        * intros Hg. rewrite labels_of_other, app_nil_r; [by apply Hh|].
          intros ->. apply Hd. split; [done|]. by eapply lookup_lt_Some.
      + intros i g. rewrite list_lookup_insert_ne by done. rewrite Hc. apply HW. }
    by destruct Hm' as [[-> ?]| ->].
Qed.

(** queue_delete, when all workers were joined. *)
Lemma ok_free n c h (Q : unit → tghost → Prop) : Q tt (MFree c {[BPool; BThreads]}, (SIdle, h)) →
  ok tinv tat n (perform FreeQueue) (MLive c c, (SIdle, h)) Q.
Proof.
  intros HQ. apply ok_trigger; [done|]. intros tr gs w w' [] p Hp HI Hs.
  destruct (main_inv_at _ _ _ _ _ _ HI Hp) as (-> & HM & Hc & _ & Hh); [done|]. cbn in Hc, Hs.
  destruct (qi_flags _ _ _ _ HM) as (F1 & F2 & F3). eexists. split; [|exact HQ].
  rewrite decide_True in Hs by (rewrite Hh; unfold pool_heap; set_solver). injection Hs as <-.
  rewrite <- (app_nil_r h). unfold alive. rewrite F1. subst c.
  eapply (done_step _ _ w); try done; [by eapply quiet_joined|]. right. f_equal. cbn. rewrite Hh. unfold pool_heap. set_solver.
Qed.

Lemma ok_errx n m c h (Q : unit → tghost → Prop) :
  m = MDone c ∨ (c = 0%nat ∧ h = [] ∧ ∃ w0, m = MInit w0 ∧ pw_heap w0 = ∅) →
  Q tt (MDone c, (SIdle, h ++ [LErrx])) → ok tinv tat n (perform Errx) (m, (SIdle, h)) Q.
Proof.
  intros Hm HQ. apply ok_trigger; [by destruct Hm as [->|(_ & _ & w0 & -> & _)]|].
  intros tr gs w w' [] p Hp HI Hs. cbn in Hs. injection Hs as Hs. subst w'.
  eexists. split; [|exact HQ].
  destruct (main_inv_at _ _ _ _ _ _ HI Hp) as (-> & HM); [by destruct Hm as [->|(_ & _ & w0 & -> & _)]|].
  assert (Hq : quiet_pool tr gs w ∧ pw_created w = c ∧ pw_heap w = ∅).
  { destruct Hm as [->|(-> & -> & w0 & -> & Hh)]; [done|]. split; [by eapply quiet_init|].
    destruct HM as (-> & _ & _ & ? & _). done. }
  destruct Hq as (Hq & <- & Hh). eapply done_step; try done; [apply Hq..|by left].
Qed.

(** queue_delete, when there is no memory for the thread ids. *)
Lemma ok_free_init n w0 (Q : unit → tghost → Prop) : pw_heap w0 = {[BPool; BQueue; BBuffer]} →
  Q tt (MFree 0 {[BPool]}, (SIdle, [])) →
  ok tinv tat n (perform FreeQueue) (MInit w0, (SIdle, [])) Q.
Proof.
  intros Hh HQ. apply ok_trigger; [done|]. intros tr gs w w' [] p Hp HI Hs.
  destruct (main_inv_at _ _ _ _ _ _ HI Hp) as (-> & HM); [done|].
  destruct HM as (Hw & _ & _ & Hc & F1 & F2 & F3). cbn in Hw. subst w0. eexists. split; [|exact HQ].
  cbn in Hs. rewrite decide_True in Hs by (rewrite Hh; set_solver). injection Hs as <-.
  unfold alive. rewrite F1. pose proof (done_step tr gs w (set_freed w) _ (MFree 0 {[BPool]}) [] [] HI Hp) as H.
  rewrite Hc in H. apply H; try done; [by eapply quiet_init|]. right. f_equal. cbn. rewrite Hh. set_solver.
Qed.

(** free, of a block that is still there; after the last nothing is. *)
Lemma ok_free_block n b c H h m' (Q : unit → tghost → Prop) : b ∈ H →
  m' = (if decide (H ∖ {[b]} = ∅) then MDone c else MFree c (H ∖ {[b]})) → Q tt (m', (SIdle, h)) →
  ok tinv tat n (perform (Free (Some b))) (MFree c H, (SIdle, h)) Q.
Proof.
  intros Hb Hm' HQ. apply ok_trigger; [done|]. intros tr gs w w' [] p Hp HI Hs.
  destruct (main_inv_at _ _ _ _ _ _ HI Hp) as (-> & HM & Hc & Hh); [done|]. cbn in Hc, Hh.
  eexists. split; [|exact HQ]. cbn in Hs. rewrite decide_True in Hs by (by rewrite Hh). injection Hs as <-.
  rewrite <- (app_nil_r h). eapply (done_step _ _ w); try done; [apply HM..|].
  rewrite Hm', Hc. cbn. rewrite Hh. case_decide; [by left|by right].
Qed.

(** The last two lines of threadpool_destroy. *)
Lemma ok_free_pool {R} n c h (r : R) (Q : R → tghost → Prop) : Q r (MDone c, (SIdle, h)) →
  ok tinv tat n (do! ! (Free (Some BThreads)) in do! ! (Free (Some BPool)) in Ret r) (MFree c {[BPool; BThreads]}, (SIdle, h)) Q.
Proof.
  intros HQ. apply ok_bind, (ok_free_block _ _ _ _ _ (MFree c {[BPool]})); [set_solver| |].
  { by vm_compute. }
  apply ok_bind, (ok_free_block _ _ _ _ _ (MDone c)); [set_solver| |by apply ok_ret].
  by vm_compute.
Qed.

(** *** Before there is a pool: the dispatcher runs alone *)

Definition init_event X (e : poolE X) : Prop :=
  match e with Malloc _ | BufAlloc _ | SemInit _ _ | Set_ _ _ | Free _ => True | _ => False end.

Definition same_flags (w w' : pworld) : Prop :=
  pw_freed w' = pw_freed w ∧ pw_ub w' = pw_ub w ∧ pw_aborted w' = pw_aborted w.

Lemma init_event_step X (e : poolE X) (w w' : pworld) x : init_event X e → pw_freed w = false →
  sys e w = Some (w', x) → same_threads w w' ∧ pw_freed w' = false ∧ pw_aborted w' = pw_aborted w ∧ lab e x = [].
Proof.
  intros He Hf. destruct e as [blk|k|sm v| | | |f|f v|i|i v| | | | | | | | | |[b|]]; try done; cbn.
  4:{ unfold alive. rewrite Hf. intros [= <- <-]. by destruct f. }
  4:{ intros [= <- <-]. by case_decide. }
  4:{ by intros [= <- <-]. }
  all: destruct (pop_pfault w) as [b w1] eqn:Hp;
    apply pop_pfault_same in Hp as [[[H1 H2] _] (_ & _ & _ & F1 & F2 & F3)]; rewrite Hf in F1; intros [= <- <-].
  - by destruct b.
  - by destruct (b || _).
  - destruct (b || _); [done|]. by destruct sm.
Qed.

(** What is undefined stays so. *)
Lemma ub_stays X (e : poolE X) w w' x : sys e w = Some (w', x) → pw_ub w = true → pw_ub w' = true.
Proof.
  assert (Ha : ∀ v, pw_ub v = true → pw_ub (alive v) = true) by (intros v; unfold alive; by destruct (pw_freed v)).
  assert (Hp : ∀ v, pw_ub (pop_pfault v).2 = pw_ub v) by (intros v; unfold pop_pfault; by destruct (pw_faults v)).
  intros Hs Hu. destruct e as [blk|k|sm v|sm|sm| |f|f v|i|i v| |i|i|i|i|fd| | | |[b|]]; cbn in Hs.
  all: try (match type of Hs with context [pop_pfault ?v] =>
    specialize (Hp v); destruct (pop_pfault v) as [bb w1]; cbn in Hp end).
  all: repeat (case_match || simplify_eq); try destruct sm; try destruct f; cbn; try rewrite Hp; auto; congruence.
Qed.

Lemma ok_init {R} n (t : itree poolE R) w0 (r : R) w1 (Q : R → tghost → Prop) :
  evals t w0 r w1 → (∀ n, does init_event n t) → pw_ub w1 = false → Q r (MInit w1, (SIdle, [])) →
  ok tinv tat n t (MInit w0, (SIdle, [])) Q.
Proof.
  intros He. revert n. induction He as [t w r Ht|t w t1 w1' r w' Hs Hev IH]; intros [|n] Hd Hub HQ; try done.
  - cbn. by rewrite Ht.
  - assert (Hd1 : ∀ n, does init_event (S n) t) by (intros m; apply Hd).
    unfold step_thread in Hs. cbn in Hd1 |- *. destruct (observe t) as [?|t'|X e k] eqn:Ht; simplify_eq.
    { apply IH; [|done|done]. intros m. by apply Hd1. }
    destruct (sys e w) as [[w2 y]|] eqn:Hsys; simplify_eq.
    split; [done|].
    intros tr gs w0 w2 x p Hp HI Hs2. destruct (main_inv_at _ _ _ _ _ _ HI Hp) as (-> & HM); [done|].
    destruct HM as (Hw & _ & Htr & Hc & F1 & F2 & F3). cbn in Hw. subst w0 tr.
    rewrite Hsys in Hs2. simplify_eq.
    destruct (init_event_step X e w w2 x (proj1 (Hd1 0%nat)) F1 Hsys) as ([T1 T2] & G1 & G3 & ->).
    assert (G2 : pw_ub w2 = false).
    { destruct (pw_ub w2) eqn:Hu; [|done].
      rewrite (evals_stable (λ w, pw_ub w = true) _ _ _ _ ub_stays Hev Hu) in Hub. done. }
    exists (MInit w2, (SIdle, [])). split; [|apply IH; [intros m; apply Hd1|done|done]]. split.
    + apply (roles_insert _ w); [by apply ti_roles with []| |done]. intros i x' _. by apply wrole_same.
    + eexists. split; [apply list_lookup_insert_eq; by eapply lookup_lt_Some|].
      cbn. split_and!; try done; congruence.
Qed.

Lemma does_queue_new n size : does init_event n (queue_new size).
Proof. unfold queue_new, set_fields. does_tac. Qed.

Lemma ok_queue_new n w0 (Q : queue_t → tghost → Prop) : 0 < N ≤ INT_MAX →
  BQueue ∉ pw_heap w0 → BBuffer ∉ pw_heap w0 →
  (∀ w1, pw_heap w1 = pw_heap w0 → same_flags w0 w1 → Q None (MInit w1, (SIdle, []))) →
  (∀ w1, queue_ready N w1 → pw_heap w1 = {[BQueue; BBuffer]} ∪ pw_heap w0 → Q (Some tt) (MInit w1, (SIdle, []))) →
  pw_freed w0 = false ∧ pw_ub w0 = false ∧ pw_aborted w0 = false →
  ok tinv tat n (queue_new N) (MInit w0, (SIdle, [])) Q.
Proof.
  intros HN Hb1 Hb2 H0 H1 Hf. destruct (queue_new_wpt N w0 HN Hf) as (r & w1 & He & Hr).
  destruct (fails 5 (pw_faults w0)).
  - destruct Hr as (-> & Hfl & Hh). eapply ok_init; [done|intros; apply does_queue_new| |by apply H0; auto].
    destruct Hfl as (_ & -> & _). apply Hf.
  - destruct Hr as (-> & Hr & Hh). eapply ok_init; [done|intros; apply does_queue_new| |by apply H1].
    apply Hr.
Qed.

Lemma ok_malloc n b w0 (Q : bool → tghost → Prop) : pw_ub w0 = false →
  (∀ (r : bool) w1, same_flags w0 w1 → pw_heap w1 = (if r then {[b]} else ∅) ∪ pw_heap w0 → Q r (MInit w1, (SIdle, []))) →
  ok tinv tat n (perform (Malloc b)) (MInit w0, (SIdle, [])) Q.
Proof.
  intros Hub HQ. destruct (pop_pfault w0) as [x w1] eqn:Hp.
  pose proof (pop_pfault_same _ _ _ Hp) as [[_ Hh] (_ & _ & _ & F1 & F2 & F3)].
  eapply (ok_init n _ w0 (negb x) (if x then w1 else set_heap ({[b]} ∪ pw_heap w1) w1)); [|intros; by apply does_trigger| |].
  - eapply evals_step; [unfold step_thread; cbn; by rewrite Hp|by apply evals_ret].
  - destruct x; cbn; congruence.
  - apply HQ; destruct x; cbn; [done|done|rewrite Hh; set_solver|by rewrite Hh].
Qed.

(** free before there is a pool. *)
Lemma ok_free_early n p w0 (Q : unit → tghost → Prop) : pw_ub w0 = false →
  match p with Some b => b ∈ pw_heap w0 | None => True end →
  (∀ w1, same_flags w0 w1 → pw_heap w1 = pw_heap w0 ∖ (match p with Some b => {[b]} | None => ∅ end) → Q tt (MInit w1, (SIdle, []))) →
  ok tinv tat n (perform (Free p)) (MInit w0, (SIdle, [])) Q.
Proof.
  intros Hub Hin HQ. destruct p as [b|].
  - eapply (ok_init n _ w0 tt (set_heap (pw_heap w0 ∖ {[b]}) w0)); [|intros; by apply does_trigger|done|by apply HQ].
    eapply evals_step; [unfold step_thread; cbn; by rewrite decide_True|by apply evals_ret].
  - eapply (ok_init n _ w0 tt w0); [|intros; by apply does_trigger|done|apply HQ; [done|set_solver]].
    eapply evals_step; [reflexivity|by apply evals_ret].
Qed.

(** *** The functions of threadpool.c *)

Lemma stops_app h h' : stops (h ++ h') = (stops h + stops h')%nat.
Proof. unfold stops. by rewrite filter_app, length_app. Qed.

Lemma stops_replicate k : stops (replicate k (LPush STOP_SENTINEL)) = k.
Proof. induction k as [|k IH]; [done|]. change (S (stops (replicate k (LPush STOP_SENTINEL))) = S k). by rewrite IH. Qed.

Lemma ok_push_stops n k c e h (Q : unit → tghost → Prop) : (stops h + k ≤ c ≤ K)%nat →
  Q tt (MLive c e, (SIdle, h ++ replicate k (LPush STOP_SENTINEL))) →
  ok tinv tat n (push_stops (Some tt) k) (MLive c e, (SIdle, h)) Q.
Proof.
  revert h. induction k as [|k IH]; intros h Hk HQ; cbn [push_stops].
  - apply ok_ret. by rewrite app_nil_r in HQ.
  - apply ok_bind, ok_pool_push; [lia|]. apply IH.
    + rewrite stops_app. change (stops [LPush STOP_SENTINEL]) with 1%nat. lia.
    + by rewrite <- app_assoc.
Qed.

Lemma ok_join_all n k c e h (Q : unit → tghost → Prop) : (e + k ≤ c ≤ K)%nat → stops h = c →
  Q tt (MLive c (e + k), (SIdle, h)) → ok tinv tat n (join_all e k) (MLive c e, (SIdle, h)) Q.
Proof.
  revert e. induction k as [|k IH]; intros e Hk Hh HQ; cbn [join_all].
  - apply ok_ret. by rewrite Nat.add_0_r in HQ.
  - apply ok_bind, ok_join; [lia|done|]. apply IH; [lia|done|]. by rewrite <- Nat.add_succ_comm in HQ.
Qed.

(** Stop, join and delete. *)
Lemma ok_shutdown {R} n c h (r : R) (Q : R → tghost → Prop) : (c ≤ K)%nat → stops h = 0%nat →
  Q r (MDone c, (SIdle, h ++ replicate c (LPush STOP_SENTINEL))) →
  ok tinv tat n (do! push_stops (Some tt) c in do! join_all 0 c in
                 do! queue_delete (Some tt) in
                 do! ! (Free (Some BThreads)) in do! ! (Free (Some BPool)) in Ret r) (MLive c 0, (SIdle, h)) Q.
Proof.
  intros HK Hh HQ. apply ok_bind, ok_push_stops; [lia|].
  apply ok_bind, ok_join_all; [lia|by rewrite stops_app, Hh, stops_replicate|].
  apply ok_bind. unfold queue_delete. apply ok_bind, ok_free. by apply ok_ret, ok_free_pool.
Qed.

Lemma ok_create_all n k i m (Q : option threadpool → tghost → Prop) : (i + k ≤ K)%nat →
  Q (Some (TP m (Some tt))) (MLive (i + k) 0, (SIdle, [])) →
  (∀ c, Q None (MDone c, (SIdle, replicate c (LPush STOP_SENTINEL)))) →
  ok tinv tat n (create_all (TP m (Some tt)) i k) (MLive i 0, (SIdle, [])) Q.
Proof.
  intros HK HQ Hbad. revert i HK HQ. induction k as [|k IH]; intros i HK HQ; cbn [create_all].
  - apply ok_ret. by rewrite Nat.add_0_r in HQ.
  - apply ok_bind, ok_create. intros [|]; cbn [negb].
    + apply IH; [lia|]. by rewrite <- Nat.add_succ_comm in HQ.
    + apply ok_shutdown; [lia|done|]. apply Hbad.
Qed.

(** How threadpool_new may have failed. *)
Definition no_pool (x : tghost) : Prop :=
  ∃ c, x.2 = (SIdle, replicate c (LPush STOP_SENTINEL)) ∧
    (x.1 = MDone c ∨ (c = 0%nat ∧ ∃ w, x.1 = MInit w ∧ pw_heap w = ∅)).

Lemma ok_threadpool_new n m w0 (Q : option threadpool → tghost → Prop) : 0 < N ≤ INT_MAX →
  0 < m → (Z.to_nat m ≤ K)%nat →
  pw_freed w0 = false ∧ pw_ub w0 = false ∧ pw_aborted w0 = false → pw_heap w0 = ∅ →
  (∀ x, no_pool x → Q None x) →
  Q (Some (TP m (Some tt))) (MLive (Z.to_nat m) 0, (SIdle, [])) →
  ok tinv tat n (threadpool_new m N true) (MInit w0, (SIdle, [])) Q.
Proof.
  intros HN Hm HK (F1 & F2 & F3) Hh0 Hbad HQ. unfold threadpool_new.
  destruct (Z.leb_spec m 0); [lia|]. destruct (Z.leb_spec N 0); [lia|]. cbn [orb negb].
  assert (Hinit : ∀ w, pw_heap w = ∅ → no_pool (MInit w, (SIdle, []))).
  { intros w Hw. exists 0%nat. split; [done|]. eauto. }
  apply ok_bind, ok_malloc; [done|]. rewrite Hh0. intros [|] w1 (G1 & G2 & G3) Hh1; cbn [negb].
  2:{ apply ok_ret, Hbad, Hinit. set_solver. }
  apply ok_bind, ok_malloc; [congruence|]. intros threads w2 (I1 & I2 & I3) Hh2.
  assert (Hh2' : pw_heap w2 = (if threads then {[BThreads]} else ∅) ∪ {[BPool]}) by (rewrite Hh2, Hh1; set_solver).
  apply ok_bind, ok_queue_new; [done|destruct threads; set_solver..| | |split_and!; congruence].
  { intros w3 Hh3 (J1 & J2 & J3). destruct threads.
    all: apply ok_bind, ok_free_early; [congruence|rewrite ?Hh3, ?Hh2'; set_solver|intros w4 (L1 & L2 & L3) Hh4].
    all: unfold queue_delete; apply ok_bind, ok_ret, ok_bind, ok_free_early; [congruence|rewrite Hh4, Hh3, Hh2'; set_solver|].
    all: intros w5 _ Hh5; apply ok_ret, Hbad, Hinit; rewrite Hh5, Hh4, Hh3, Hh2'; set_solver. }
  intros w3 Hready Hh3. destruct threads.
  - destruct (Z.to_nat m) as [|k] eqn:Hk; [lia|]. cbn [create_all].
    apply ok_bind, ok_create_first; [done|done|rewrite Hh3, Hh2'; unfold pool_heap; set_solver|]. intros [|]; cbn [negb].
    + apply ok_create_all; [lia|done|]. intros c. apply Hbad. exists c. auto.
    + apply ok_shutdown; [lia|done|]. apply Hbad. exists 0%nat. auto.
  - apply ok_bind, ok_free_early; [apply Hready|done|]. intros w4 _ Hh4.
    apply ok_bind. unfold queue_delete. apply ok_bind, ok_free_init; [rewrite Hh4, Hh3, Hh2'; set_solver|].
    apply ok_ret, ok_bind, (ok_free_block _ _ _ _ _ (MDone 0)); [set_solver|by vm_compute|].
    apply ok_ret, Hbad. exists 0%nat. auto.
Qed.

Lemma ok_no_pool n x (Q : unit → tghost → Prop) : no_pool x →
  (∀ c, Q tt (MDone c, (SIdle, replicate c (LPush STOP_SENTINEL) ++ [LErrx]))) →
  ok tinv tat n (perform Errx) x Q.
Proof.
  destruct x as [m g]. intros (c & Hg & Hm) HQ. cbn in Hg, Hm. subst g.
  apply (ok_errx _ _ c); [|apply HQ]. destruct Hm as [->|(-> & w & -> & ?)]; eauto 8.
Qed.

End invariant.
