(* ===== verification/PoolHist.v ===== *)
(** * Histories of a process with a worker pool (src/threadpool.c, main)

    The two programs of the dispatcher ([session]: create a pool, submit
    connections, destroy it; [serve]: what main runs) against the pool's
    invariant, and the accounting of what each thread pushed, popped and
    handled, at every moment and after a shutdown. *)
From S2P Require Import Prelude Prog Pools Posix Queue QueueInv PoolTrace Threadpool ThreadpoolInv.
Local Open Scope Z_scope.
Local Open Scope prog_scope.

(** Before anything was created. *)
Definition fresh_world (w : pworld) : Prop :=
  pw_freed w = false ∧ pw_ub w = false ∧ pw_aborted w = false ∧
  pw_created w = 0%nat ∧ pw_exited w = ∅ ∧ pw_heap w = ∅.

(** A descriptor listener_accept may return. *)
Definition is_fd (v : Z) : Prop := 0 ≤ v ≤ INT_MAX.

Lemma is_fd_real v : is_fd v → real v.
Proof. unfold is_fd, real, STOP_SENTINEL. lia. Qed.

Definition start_ghosts (w : pworld) (k : nat) : list tghost :=
  (MInit w, (SIdle, [])) :: ((λ i, (WNew i, (SIdle, []))) <$> seq 0 k).

Lemma tinv_start N w k : fresh_world w → tinv N [] (start_ghosts w k) w.
Proof.
  intros (F1 & F2 & F3 & Hc & He & _). split.
  - intros i x Hx. change (((λ i, (WNew i, (SIdle, []))) <$> seq 0 k) !! i = Some x) in Hx.
    rewrite list_lookup_fmap, fmap_Some in Hx. destruct Hx as (j & Hj & ->).
    apply lookup_seq in Hj as [-> _]. repeat split. by rewrite He.
  - eexists. split; [done|]. by split_and!.
Qed.

(** ** The two programs against the invariant *)

(** What is left when a thread returns; [Qm] for the dispatcher, which leaves a
    live pool behind only when it is main's ([A]) and cannot listen. *)
Definition finished (A : Prop) (Qm : nat → history → Prop) (_ : unit) (x : tghost) : Prop :=
  match x.1 with
  | MDone c => Qm c x.2.2
  | MLive _ _ => A ∧ LErrx ∈ x.2.2
  | WDone _ => True
  | _ => False
  end.

Definition failed_start (c : nat) (h : history) : Prop :=
  h = replicate c (LPush STOP_SENTINEL) ++ [LErrx].

Definition session_end (m : Z) (fds : list Z) (c : nat) (h : history) : Prop :=
  failed_start c h ∨
  c = Z.to_nat m ∧ h = map LPush fds ++ replicate c (LPush STOP_SENTINEL).

Lemma stops_pushes fds : Forall real fds → stops (map LPush fds) = 0%nat.
Proof.
  intros H. unfold stops. induction H as [|v fds Hv _ IH]; [done|]. cbn.
  rewrite decide_False; [done|]. intros [= ->]. done.
Qed.

Lemma ok_submit_all N K A n tp c fds h (Q : unit → tghost → Prop) :
  (0 < c ≤ K)%nat → tp_q tp = Some tt → Forall real fds → stops h = 0%nat →
  Q tt (MLive c 0, (SIdle, h ++ map LPush fds)) →
  ok (tinv N) (tat K A) n (submit_all (Some tp) fds) (MLive c 0, (SIdle, h)) Q.
Proof.
  intros Hc Hq Hf. revert h. induction Hf as [|v fds Hv _ IH]; intros h Hh HQ; cbn [submit_all].
  - apply ok_ret. by rewrite app_nil_r in HQ.
  - unfold threadpool_submit. rewrite Hq. apply ok_bind, ok_pool_push; [lia|]. apply IH.
    + rewrite stops_app, Hh. apply (stops_pushes [v]). auto.
    + by rewrite <- app_assoc.
Qed.

Lemma ok_session N n m fds w : 0 < N ≤ INT_MAX → 0 < m → Forall real fds → fresh_world w →
  ok (tinv N) (tat (Z.to_nat m) False) n (session m N fds) (MInit w, (SIdle, [])) (finished False (session_end m fds)).
Proof.
  intros HN Hm Hf (F1 & F2 & F3 & _ & _ & Hh). unfold session. apply ok_bind, ok_threadpool_new; try done.
  - intros x Hx. apply ok_no_pool; try done. intros c. by left.
  - apply ok_bind, ok_submit_all; try done; [lia|]. unfold threadpool_destroy. cbn [nthreads tp_q].
    apply ok_shutdown; [done|by apply stops_pushes|]. by right.
Qed.

Lemma dispatched_snoc rs r : dispatched (rs ++ [r]) =
  dispatched rs ++ (if r <? 0 then [LAccept r] else [LAccept r; LPush r]).
Proof. unfold dispatched. rewrite map_app, concat_app. cbn. by rewrite app_nil_r. Qed.

Lemma dispatched_stops rs : stops (dispatched rs) = 0%nat.
Proof.
  induction rs as [|r rs IH] using rev_ind; [done|].
  rewrite dispatched_snoc, stops_app, IH. destruct (Z.ltb_spec r 0) as [|Hr]; [done|].
  unfold stops, STOP_SENTINEL. cbn. rewrite decide_False by done.
  rewrite decide_False; [done|]. intros [= ->]. lia.
Qed.

Lemma ok_serve N n w : 0 < N ≤ INT_MAX → fresh_world w →
  ok (tinv N) (tat (Z.to_nat N) True) n (serve N) (MInit w, (SIdle, [])) (finished True failed_start).
Proof.
  intros HN (F1 & F2 & F3 & _ & _ & Hh). unfold serve. apply ok_bind, ok_threadpool_new; try done; [lia| |].
  { intros x Hx. by apply ok_no_pool. }
  apply ok_bind, (ok_outside _ _ _ _ _ _ _ _ (λ _, [])); [done|done|done| |].
  { intros w1 w2 b [= <- <-]. repeat split; done || by intros []. }
  intros [|]; cbn [negb app].
  2:{ apply (ok_outside _ _ _ _ _ _ _ _ (λ _, [LErrx])); [done|done|done| |].
      - intros w1 w2 [] Hs. cbn in Hs. simplify_eq. repeat split; done || by intros [].
      - intros ?. unfold finished. cbn. set_solver. }
  apply (ok_iter _ _ _ _ (λ _ x, ∃ rs, x = (MLive (Z.to_nat N) 0, (SIdle, dispatched rs)))).
  2:{ by exists []. }
  intros k _ x (rs & ->).
  apply ok_bind, (ok_outside _ _ _ _ _ _ _ _ (λ r, [LAccept r])); [done| |done| |].
  - split_and!; [done|by exists rs|lia|lia|done].
  - intros w1 w2 r Hs. cbn in Hs. destruct (pw_accepts w1); simplify_eq. repeat split; done || by intros [].
  - intros r. pose proof (dispatched_snoc rs r) as Hd. destruct (r <? 0) eqn:Hr.
    + apply ok_ret. exists (rs ++ [r]). by rewrite Hd.
    + apply ok_bind, ok_pool_push; [rewrite stops_app, dispatched_stops; change (stops [_]) with 0%nat; lia|].
      apply ok_ret. exists (rs ++ [r]). by rewrite Hd, <- app_assoc.
Qed.

(** ** Every reachable state *)

Lemma process_inv N A m main Qm w q : fresh_world w →
  (∀ n, ok (tinv N) (tat (Z.to_nat m) A) n main (MInit w, (SIdle, [])) (finished A Qm)) →
  reachable (process main m w) q →
  ∃ gs, tinv N (pool_trace q) gs (pool_world q) ∧
    Forall2 (λ t g, ok (tinv N) (tat (Z.to_nat m) A) 1 t g (finished A Qm)) (pool_threads q) gs.
Proof.
  intros Hw Hmain Hr.
  apply (pool_sound _ _ _ _ _ (start_ghosts w (Z.to_nat m)) Hr); cbn; [by apply tinv_start|].
  intros n. constructor; [apply Hmain|]. apply Forall2_fmap, Forall_Forall2_diag, Forall_forall.
  intros i _. eapply ok_conseq; [by apply ok_worker|]. intros r [c g]. cbn. by intros ->.
Qed.

Lemma tinv_hist N tr gs w i x : tinv N tr gs w → gs !! i = Some x → x.2.2 = labels_of i tr.
Proof.
  intros HI Hx. destruct (ti_main _ _ _ _ HI) as ([m g] & Hm & HM). destruct m as [w0|c e|c hp|c| | |]; try done.
  - destruct HM as (-> & Hg & -> & Hc & _). cbn in Hg, Hc. subst g. destruct i as [|i]; [by simplify_eq|].
    pose proof (ti_roles _ _ _ _ HI _ _ Hx) as HR. unfold wrole in HR. rewrite Hc in HR.
    destruct x as [[] ?]; cbn in HR |- *; naive_solver lia.
  - destruct HM as (HQ & _). destruct x as [m' [s h]]. eapply (qi_hist _ _ _ _ HQ). by eapply lookup_snd.
  - destruct HM as ((_ & _ & _ & Hh & _) & _). by apply Hh.
  - destruct HM as ((_ & _ & _ & Hh & _) & _). by apply Hh.
Qed.

Lemma tinv_safe N tr gs w : tinv N tr gs w →
  pw_ub w = false ∧ pw_aborted w = false ∧ pops tr `prefix_of` pushes tr.
Proof.
  intros HI. destruct (ti_main _ _ _ _ HI) as ([m g] & Hm & HM). destruct m as [w0|c e|c hp|c| | |]; try done.
  - by destruct HM as (-> & _ & -> & _ & _ & F2 & F3).
  - destruct HM as (HQ & _). pose proof (qi_flags _ _ _ _ HQ). pose proof (qi_prefix _ _ _ _ HQ). tauto.
  - destruct HM as ((? & ? & ? & _) & _). done.
  - destruct HM as ((? & ? & ? & _) & _). done.
Qed.

(** ** Accounting *)

#[export] Instance real_dec v : Decision (real v).
Proof. unfold real. apply _. Defined.

(** What a thread popped, less the sentinel, as it is handled. *)
Definition taken (h : history) : list Z := to_s32 <$> filter real (omap is_pop h).

(** It handled nothing else, and when [settled] nothing is left. *)
Definition accounts (h : history) : Prop := omap is_handle h ⊆+ taken h.
Definition settled (h : history) : Prop := omap is_handle h = taken h.

Lemma pops_split tr k : (∀ i l, (i, l) ∈ tr → (i < k)%nat) →
  to_s32 <$> filter real (pops tr) ≡ₚ concat (map (λ i, taken (labels_of i tr)) (seq 0 k)).
Proof.
  intros Hk. rewrite (events_split is_pop tr k Hk : pops tr ≡ₚ _).
  induction (seq 0 k) as [|i s IH]; cbn; [done|]. by rewrite filter_app, fmap_app, IH.
Qed.

Lemma handled_accounts tr k : (∀ i l, (i, l) ∈ tr → (i < k)%nat) →
  (∀ i, accounts (labels_of i tr)) → handled tr ⊆+ (to_s32 <$> filter real (pops tr)).
Proof.
  intros Hk Ha. rewrite (pops_split tr k Hk). unfold handled. rewrite (events_split is_handle tr k Hk).
  induction (seq 0 k) as [|i s IH]; cbn; [done|]. by apply submseteq_app; [apply Ha|].
Qed.

Lemma handled_settled tr k : (∀ i l, (i, l) ∈ tr → (i < k)%nat) →
  (∀ i, (i < k)%nat → settled (labels_of i tr)) → handled tr ≡ₚ to_s32 <$> filter real (pops tr).
Proof.
  intros Hk Ha. rewrite (pops_split tr k Hk). unfold handled. rewrite (events_split is_handle tr k Hk).
  f_equiv. apply reflexive_eq, map_ext_in. intros i Hi%in_seq. apply Ha. lia.
Qed.

Lemma jobs_cons v vs : jobs (v :: vs) = LPop v :: LHandle (to_s32 v) :: jobs vs.
Proof. done. Qed.

Lemma jobs_events vs : omap is_pop (jobs vs) = vs ∧ omap is_handle (jobs vs) = to_s32 <$> vs ∧
  omap is_push (jobs vs) = [] ∧ omap is_accept (jobs vs) = [].
Proof.
  induction vs as [|v vs (H1 & H2 & H3 & H4)]; [done|]. rewrite jobs_cons. cbn. by rewrite H1, H2, H3, H4.
Qed.

Lemma filter_real vs : Forall real vs → filter real vs = vs.
Proof. induction 1 as [|v vs Hv _ IH]; [done|]. by rewrite filter_cons_True, IH. Qed.

Lemma run_hist_settled h : run_hist h → settled h.
Proof.
  intros (vs & Hvs & ->). unfold settled, taken. destruct (jobs_events vs) as (-> & -> & _).
  by rewrite filter_real.
Qed.

Lemma done_hist_settled i h : done_hist i h → settled h ∧ omap is_push h = [].
Proof.
  intros (vs & Hvs & ->). unfold settled, taken. rewrite !omap_app, filter_app.
  destruct (jobs_events vs) as (-> & -> & -> & _). rewrite filter_real by done. cbn.
  by rewrite !app_nil_r.
Qed.

(** *** Sentinels *)

Definition is_stop (l : qlabel) : option Z :=
  match l with LPop v => if decide (v = STOP_SENTINEL) then Some v else None | _ => None end.

Lemma jobs_stop vs : Forall real vs → omap is_stop (jobs vs) = [].
Proof.
  induction 1 as [|v vs Hv _ IH]; [done|]. rewrite jobs_cons. cbn. by rewrite decide_False, IH.
Qed.

Lemma done_hist_stop i h : done_hist i h → omap is_stop h = [STOP_SENTINEL].
Proof. intros (vs & Hvs & ->). by rewrite omap_app, jobs_stop. Qed.

Lemma events_stop tr : events is_stop tr = filter (λ v, v = STOP_SENTINEL) (pops tr).
Proof.
  induction tr as [|[i l] tr IH]; [done|]. destruct l as [|v| | | |]; try exact IH.
  change (pops ((i, LPop v) :: tr)) with (v :: pops tr).
  destruct (decide (v = STOP_SENTINEL)) as [->|Hv].
  - rewrite filter_cons_True by done. by rewrite <- IH.
  - rewrite filter_cons_False by done. rewrite <- IH. unfold events. cbn. by rewrite decide_False.
Qed.

(** A prefix that has all the sentinels is everything. *)
Lemma prefix_stops p fds k : p `prefix_of` fds ++ replicate k STOP_SENTINEL → (0 < k)%nat →
  Forall real fds → (k ≤ length (filter (λ v, v = STOP_SENTINEL) p))%nat →
  p = fds ++ replicate k STOP_SENTINEL.
Proof.
  intros [r Hr] Hk Hf Hn. destruct r as [|x r _] using rev_ind; [by rewrite app_nil_r in Hr|exfalso].
  assert (Hc : length (filter (λ v, v = STOP_SENTINEL) (fds ++ replicate k STOP_SENTINEL)) = k).
  { rewrite filter_app, length_app.
    assert (filter (λ v, v = STOP_SENTINEL) fds = []) as ->.
    { clear -Hf. induction Hf as [|v fds Hv _ IH]; [done|]. by rewrite filter_cons_False. }
    clear. induction k as [|k IH]; [done|]. cbn [replicate]. by rewrite filter_cons_True; cbn in *; rewrite ?IH. }
  rewrite Hr, !filter_app, !length_app in Hc.
  destruct k as [|k]; [lia|]. rewrite replicate_S_end, app_assoc, app_assoc in Hr.
  apply app_inj_tail in Hr as [_ <-].
  change (length (filter (λ v, v = STOP_SENTINEL) [STOP_SENTINEL])) with 1%nat in Hc. lia.
Qed.

(** ** After a shutdown *)

Lemma pushes_only vs : omap is_push (map LPush vs) = vs ∧ omap is_pop (map LPush vs) = [] ∧
  omap is_handle (map LPush vs) = [] ∧ omap is_stop (map LPush vs) = [].
Proof. induction vs as [|v vs (H1 & H2 & H3 & H4)]; [done|]. cbn. by rewrite H1, H2, H3, H4. Qed.

Lemma is_fd_s32 fds : Forall is_fd fds → to_s32 <$> fds = fds.
Proof. induction 1 as [|v fds Hv _ IH]; [done|]. cbn. by rewrite IH, to_s32_id. Qed.

(** What the dispatcher's own history says when the session is over. *)
Lemma session_hist fds c :
  let h := map LPush fds ++ replicate c (LPush STOP_SENTINEL) in
  omap is_push h = fds ++ replicate c STOP_SENTINEL ∧ settled h ∧ omap is_stop h = [].
Proof.
  cbn zeta. replace (replicate c (LPush STOP_SENTINEL)) with (map LPush (replicate c STOP_SENTINEL)).
  2:{ induction c; cbn; congruence. }
  rewrite <- map_app. destruct (pushes_only (fds ++ replicate c STOP_SENTINEL)) as (H1 & H2 & H3 & H4).
  unfold settled, taken. by rewrite H1, H2, H3, H4.
Qed.

Lemma concat_const {A} (x : list A) (f : nat → list A) (l : list nat) :
  (∀ i, i ∈ l → f i = x) → concat (map f l) = concat (replicate (length l) x).
Proof.
  intros H. induction l as [|i l IH]; [done|]. cbn. rewrite (H i) by left. f_equal. apply IH.
  intros j Hj. apply H. by right.
Qed.

Lemma shutdown_complete N m fds tr gs w s h : 0 < m → Forall is_fd fds → tinv N tr gs w →
  let c := Z.to_nat m in
  length gs = S c → (∀ i l, (i, l) ∈ tr → (i < length gs)%nat) →
  gs !! 0%nat = Some (MDone c, (s, h)) → h = map LPush fds ++ replicate c (LPush STOP_SENTINEL) →
  handled tr ≡ₚ fds ∧ ∀ i, (i < c)%nat → i ∈ pw_exited w.
Proof.
  intros Hm Hf HI c Hlen Hids H0 Hh.
  assert (Hreal : Forall real fds) by (eapply Forall_impl; [done|apply is_fd_real]).
  destruct (main_inv_at _ _ _ _ _ _ _ HI H0) as (_ & (_ & _ & Hpre & _ & HW) & Hc & _); [done|]. cbn in Hc.
  pose proof (tinv_hist _ _ _ _ _ _ HI H0) as Hh0. cbn in Hh0. rewrite Hh in Hh0. clear h Hh H0.
  assert (Hdone : ∀ i, (i < c)%nat → i ∈ pw_exited w ∧ done_hist i (labels_of (S i) tr)).
  { intros i Hi. destruct (lookup_lt_is_Some_2 gs (S i)) as [x Hx]; [lia|].
    rewrite <- (tinv_hist _ _ _ _ _ _ HI Hx). pose proof (ti_roles _ _ _ _ HI _ _ Hx) as HR.
    specialize (HW _ _ Hx). destruct x as [[] g]; try done; cbn in HW; [lia|].
    unfold wrole in HR; cbn in HR |- *. naive_solver. }
  split; [|intros i Hi; by apply Hdone].
  destruct (session_hist fds c) as (P1 & P2 & P3). rewrite Hh0 in P1, P2, P3. rewrite Hlen in Hids.
  assert (Hpush : pushes tr = fds ++ replicate c STOP_SENTINEL).
  { rewrite <- P1. apply (events_one is_push). intros [|i] Hi; [done|].
    destruct (decide (i < c)%nat) as [Hlt|Hge]; [by eapply done_hist_settled, Hdone|].
    by rewrite (labels_of_none _ _ (S c)) by (done || lia). }
  assert (Hpops : pops tr = fds ++ replicate c STOP_SENTINEL).
  { rewrite Hpush in Hpre. apply prefix_stops; try done; [lia|].
    rewrite <- events_stop, (Permutation_length (events_split is_stop tr (S c) Hids)).
    cbn. rewrite P3. cbn. rewrite (concat_const [STOP_SENTINEL]), length_seq.
    - clear. induction c as [|k IH]; cbn; lia.
    - intros [|i] Hi%elem_of_seq; [lia|]. eapply done_hist_stop, Hdone. lia. }
  rewrite (handled_settled tr (S c) Hids).
  - rewrite Hpops, filter_app, filter_real by done.
    assert (filter real (replicate c STOP_SENTINEL) = []) as ->.
    { clear. induction c as [|k IH]; [done|]. cbn [replicate]. by rewrite filter_cons_False by (by intros []). }
    by rewrite app_nil_r, is_fd_s32.
  - intros [|i] Hi; [done|]. eapply done_hist_settled, Hdone. lia.
Qed.

(** ** At every moment *)

Section histories.
(** What the dispatcher's history satisfies, whatever it is doing. *)
Context (P : history → Prop).
Context (Pstop : ∀ h, P h → P (h ++ [LPush STOP_SENTINEL])).
Context (Perrx : ∀ h, P h → P (h ++ [LErrx])).
Context (Pnil : P []).

(** Of the dispatcher, and of a worker. *)
Definition hsafe (b : bool) (h : history) : Prop :=
  if b then P h ∧ omap is_pop h = [] ∧ omap is_handle h = []
  else accounts h ∧ omap is_push h = [] ∧ omap is_accept h = [].

Definition hinv (tr : trace) (gs : list (bool * history)) (_ : pworld) : Prop :=
  ∀ i b h, gs !! i = Some (b, h) → b = (i =? 0)%nat ∧ h = labels_of i tr ∧ hsafe b h.

Definition hat X (_ : bool * history) (_ : poolE X) : Prop := True.

Lemma ok_h_event {X} n (e : poolE X) b h (ls : X → history) (Q : X → bool * history → Prop) :
  (∀ x, lab e x = ls x) → (∀ x, hsafe b (h ++ ls x)) → (∀ x, Q x (b, h ++ ls x)) →
  ok hinv hat n (perform e) (b, h) Q.
Proof.
  intros Hl Hs HQ. apply ok_trigger; [done|]. intros tr gs w w' x i Hi HI _. rewrite Hl.
  exists (b, h ++ ls x). split; [|apply HQ]. intros j b' h'. rewrite list_lookup_insert, labels_of_app.
  destruct (HI _ _ _ Hi) as (Hb & Hh & _). case_decide as Hc.
  - destruct Hc as [-> _]. intros [= <- <-]. rewrite labels_of_self, <- Hh. auto.
  - intros Hj. destruct (HI _ _ _ Hj) as (Hb' & Hh' & Hs'). rewrite labels_of_other, app_nil_r; [done|].
    intros ->. apply Hc. split; [done|]. by eapply lookup_lt_Some.
Qed.

Definition silent X (e : poolE X) : Prop := ∀ x, lab e x = [].

Lemma ok_h_silent {R} n (t : itree poolE R) b h (Q : R → bool * history → Prop) :
  does silent n t → hsafe b h → (∀ r, Q r (b, h)) → ok hinv hat n t (b, h) Q.
Proof.
  intros Hd Hs HQ. revert t Hd. induction n as [|n IH]; intros t; [done|]. cbn.
  destruct (observe t) as [r|t'|X e k]; [done|by auto|]. intros [He Hd].
  assert (Hev : ok hinv hat 2 (perform e) (b, h) (λ x g, ok hinv hat n (k x) g Q)).
  { apply (ok_h_event _ _ _ _ (λ _, [])); [exact He|by rewrite app_nil_r|].
    intros x. rewrite app_nil_r. apply IH, Hd. }
  cbn in Hev. exact Hev.
Qed.

Lemma does_silent_wait n sm : does silent n (sem_wait_checked sm).
Proof.
  unfold sem_wait_checked. apply does_iter. intros m _. apply does_bind; [by apply does_trigger|].
  intros [[]|e]; [apply does_ret|]. case_match; [|apply does_ret].
  apply does_bind; [by apply does_trigger|intros; apply does_ret].
Qed.
Lemma does_silent_post n sm : does silent n (sem_post_checked sm).
Proof.
  unfold sem_post_checked. apply does_bind; [by apply does_trigger|].
  intros [[]|e]; [apply does_ret|by apply does_trigger].
Qed.

Ltac silently := repeat (apply ok_bind, ok_h_silent;
  [first [apply does_silent_wait | apply does_silent_post | by apply does_trigger]|done|intros ?]).

Lemma ok_h_push n v b h (Q : bool → bool * history → Prop) : hsafe b h → hsafe b (h ++ [LPush v]) →
  Q true (b, h ++ [LPush v]) → ok hinv hat n (queue_push (Some tt) v) (b, h) Q.
Proof.
  intros H1 H2 HQ. unfold queue_push. silently.
  apply ok_bind, (ok_h_event _ _ _ _ (λ _, [LPush v])); [done|done|intros _]. silently. by apply ok_ret.
Qed.

Lemma ok_h_pop n b h (Q : option Z → bool * history → Prop) : hsafe b h →
  (∀ v, hsafe b (h ++ [LPop v])) → (∀ v, Q (Some v) (b, h ++ [LPop v])) →
  ok hinv hat n (queue_pop (Some tt) (Some tt)) (b, h) Q.
Proof.
  intros H1 H2 HQ. unfold queue_pop. silently.
  apply ok_bind, (ok_h_event _ _ _ _ (λ v, [LPop v])); [done|done|intros v].
  pose proof (H2 v) as H2v. silently. by apply ok_ret.
Qed.

Lemma hsafe_jobs vs ls : Forall real vs →
  omap is_handle ls = [] → omap is_push ls = [] → omap is_accept ls = [] → hsafe false (jobs vs ++ ls).
Proof.
  intros Hvs Hh Hp Ha. destruct (jobs_events vs) as (E1 & E2 & E3 & E4). split.
  - unfold accounts, taken. rewrite !omap_app, E1, E2, Hh, app_nil_r, filter_app, filter_real, fmap_app by done.
    by apply submseteq_inserts_r.
  - by rewrite !omap_app, E3, E4, Hp, Ha.
Qed.

Lemma hsafe_jobs0 vs : Forall real vs → hsafe false (jobs vs).
Proof. intros Hvs. rewrite <- (app_nil_r (jobs vs)). by apply hsafe_jobs. Qed.

Lemma ok_h_worker n i tp : tp_q tp = Some tt →
  ok hinv hat n (worker_thread tp i) (false, []) (λ _ _, True).
Proof.
  intros Hq. unfold worker_thread, worker. rewrite Hq.
  apply ok_bind, ok_h_silent; [by apply does_trigger|by apply (hsafe_jobs0 [])|intros _].
  apply ok_bind. eapply (ok_iter _ _ _ _ (λ _ x, ∃ vs, Forall real vs ∧ x = (false, jobs vs))
    (λ _ x, ok hinv hat n (perform (Exit i)) x (λ _ _, True))).
  2:{ exists []. split; [constructor|done]. }
  intros m _ x (vs & Hvs & ->). apply ok_bind, ok_h_pop; [by apply hsafe_jobs0| |].
  { intros v. by apply hsafe_jobs. }
  intros v. cbn [default from_option id]. destruct (Z.eqb_spec v STOP_SENTINEL) as [->|Hv].
  - apply ok_ret, (ok_h_event _ _ _ _ (λ _, [LExit i])); [done| |done]. intros _.
    rewrite <- app_assoc. by apply hsafe_jobs.
  - assert (Hvs' : Forall real (vs ++ [v])) by (apply Forall_app; auto).
    apply ok_bind, (ok_h_event _ _ _ _ (λ _, [LHandle (to_s32 v)])); [done|intros _|intros _].
    + rewrite <- app_assoc. cbn. rewrite <- jobs_snoc. by apply hsafe_jobs0.
    + apply ok_ret. exists (vs ++ [v]). split; [done|]. by rewrite <- app_assoc, jobs_snoc.
Qed.

(** *** The dispatcher's functions *)

Lemma hsafe_push v h : hsafe true h → P (h ++ [LPush v]) → hsafe true (h ++ [LPush v]).
Proof. intros (_ & H2 & H3) HP. split; [done|]. by rewrite !omap_app, H2, H3. Qed.

Lemma hsafe_start : hsafe true [].
Proof. done. Qed.

Lemma ok_h_push_stops n k h (Q : unit → bool * history → Prop) : hsafe true h →
  (∀ h', hsafe true h' → Q tt (true, h')) → ok hinv hat n (push_stops (Some tt) k) (true, h) Q.
Proof.
  revert h. induction k as [|k IH]; intros h Hh HQ; cbn [push_stops]; [apply ok_ret; auto|].
  assert (hsafe true (h ++ [LPush STOP_SENTINEL])) by (apply hsafe_push; [done|apply Pstop, Hh]).
  apply ok_bind, ok_h_push; auto.
Qed.

Lemma does_silent_join n j k : does silent n (join_all j k).
Proof.
  revert j. induction k as [|k IH]; intros j; cbn; [apply does_ret|].
  apply does_bind; [by apply does_trigger|intros; apply IH].
Qed.

Lemma does_silent_delete n q : does silent n (queue_delete q).
Proof.
  destruct q; cbn; [|apply does_ret]. apply does_bind; [by apply does_trigger|intros; apply does_ret].
Qed.

Lemma ok_h_shutdown {R} n k h (r : R) (Q : R → bool * history → Prop) : hsafe true h →
  (∀ h', hsafe true h' → Q r (true, h')) →
  ok hinv hat n (do! push_stops (Some tt) k in do! join_all 0 k in
                 do! queue_delete (Some tt) in
                 do! ! (Free (Some BThreads)) in do! ! (Free (Some BPool)) in Ret r) (true, h) Q.
Proof.
  intros Hh HQ. apply ok_bind, ok_h_push_stops; [done|]. intros h' Hh'.
  apply ok_bind, ok_h_silent; [apply does_silent_join|done|intros _].
  apply ok_bind, ok_h_silent; [apply does_silent_delete|done|intros _].
  do 2 (apply ok_bind, ok_h_silent; [by apply does_trigger|done|intros _]). by apply ok_ret, HQ.
Qed.

Lemma ok_h_threadpool_new n m size (Q : option threadpool → bool * history → Prop) :
  (∀ h, hsafe true h → Q None (true, h)) → Q (Some (TP m (Some tt))) (true, []) →
  ok hinv hat n (threadpool_new m size true) (true, []) Q.
Proof.
  intros Hbad HQ. pose proof hsafe_start as H0. unfold threadpool_new.
  case_match; [apply ok_ret; auto|].
  apply ok_bind, ok_h_silent; [by apply does_trigger|done|intros b].
  case_match; [apply ok_ret; auto|].
  apply ok_bind, ok_h_silent; [by apply does_trigger|done|intros threads].
  apply ok_bind, ok_h_silent; [|done|intros q].
  { unfold queue_new, queue_new_fails, set_fields. repeat first [apply does_bind; [|intros ?] | by apply does_trigger
      | apply does_ret | case_match]. }
  assert (Hdel : ok hinv hat n (do! ! (Free (if threads then Some BThreads else None)) in do! queue_delete q in
      do! ! (Free (Some BPool)) in Ret None) (true, []) Q).
  { apply ok_bind, ok_h_silent; [by apply does_trigger|done|intros _].
    apply ok_bind, ok_h_silent; [apply does_silent_delete|done|intros _].
    apply ok_bind, ok_h_silent; [by apply does_trigger|done|intros _]. apply ok_ret. auto. }
  destruct threads, q as [[]|]; try exact Hdel. clear Hdel.
  generalize 0%nat as i. induction (Z.to_nat m) as [|k IH]; intros i; cbn [create_all]; [by apply ok_ret|].
  apply ok_bind, ok_h_silent; [by apply does_trigger|done|intros []]; cbn [negb]; [apply IH|].
  apply ok_h_shutdown; auto.
Qed.

Lemma ok_h_errx n h : hsafe true h → ok hinv hat n (perform Errx) (true, h) (λ _ _, True).
Proof.
  intros (H1 & H2 & H3). apply (ok_h_event _ _ _ _ (λ _, [LErrx])); [done| |done].
  intros _. split; [by apply Perrx|]. by rewrite !omap_app, H2, H3.
Qed.

(** Every reachable state. *)
Lemma process_histories m main w q : (∀ n, ok hinv hat n main (true, []) (λ _ _, True)) →
  reachable (process main m w) q →
  handled (pool_trace q) ⊆+ (to_s32 <$> filter real (pops (pool_trace q))) ∧
  pushes (pool_trace q) = omap is_push (labels_of 0 (pool_trace q)) ∧
  accepted (pool_trace q) = omap is_accept (labels_of 0 (pool_trace q)) ∧
  hsafe true (labels_of 0 (pool_trace q)).
Proof.
  intros Hmain Hr.
  destruct (reachable_threads _ _ Hr) as [Hlen Hids]. specialize (Hids ltac:(by intros ?? ?%elem_of_nil)).
  set (gs0 := (true, []) :: ((λ _ : nat, (false, [])) <$> seq 0 (Z.to_nat m)) : list (bool * history)).
  destruct (pool_sound hinv hat (λ _ _, True) _ q gs0 Hr) as (gs & HI & Hok).
  { intros [|i] b h Hi; [by simplify_eq/=|].
    change (((λ _ : nat, (false, [])) <$> seq 0 (Z.to_nat m)) !! i = Some (b, h)) in Hi.
    rewrite list_lookup_fmap, fmap_Some in Hi. destruct Hi as (_ & _ & [= -> ->]).
    split_and!; [done|done|]. by apply (hsafe_jobs0 []). }
  { intros n. constructor; [apply Hmain|]. apply Forall2_fmap, Forall_Forall2_diag, Forall_forall.
    intros i _. by apply ok_h_worker. }
  pose proof (Forall2_length _ _ _ Hok) as Hl. set (tr := pool_trace q) in *.
  assert (Hsafe : ∀ i, hsafe (i =? 0)%nat (labels_of i tr)).
  { intros i. destruct (gs !! i) as [[b h]|] eqn:Hi.
    - by destruct (HI _ _ _ Hi) as (-> & -> & Hs).
    - apply lookup_ge_None in Hi. rewrite (labels_of_none i tr _ Hids) by lia.
      destruct i; [done|]. by apply (hsafe_jobs0 []). }
  split_and!.
  - apply (handled_accounts tr _ Hids). intros [|i]; [|apply (Hsafe (S i))].
    destruct (Hsafe 0%nat) as (_ & H2 & H3). unfold accounts. rewrite H3. apply submseteq_nil_l.
  - apply (events_one is_push). intros [|i] Hi; [done|]. apply (Hsafe (S i)).
  - apply (events_one is_accept). intros [|i] Hi; [done|]. apply (Hsafe (S i)).
  - apply (Hsafe 0%nat).
Qed.
End histories.

(** What each program hands over. *)
Definition hands_over (fds : list Z) (h : history) : Prop := filter real (omap is_push h) `prefix_of` fds.
Definition hands_accepted (h : history) : Prop :=
  filter real (omap is_push h) = filter (λ r, 0 ≤ r) (omap is_accept h) ∨
  ∃ r, 0 ≤ r ∧ filter real (omap is_push h) ++ [r] = filter (λ r, 0 ≤ r) (omap is_accept h).

Lemma push_stop_real h : filter real (omap is_push (h ++ [LPush STOP_SENTINEL])) =
  filter real (omap is_push h).
Proof. rewrite omap_app, filter_app. change (filter real _) with (@nil Z) at 2. apply app_nil_r. Qed.

Lemma ok_h_session n m size fds : Forall real fds →
  ok (hinv (hands_over fds)) hat n (session m size fds) (true, []) (λ _ _, True).
Proof.
  intros Hf. unfold session.
  assert (Pstop : ∀ h, hands_over fds h → hands_over fds (h ++ [LPush STOP_SENTINEL])).
  { intros h. unfold hands_over. by rewrite push_stop_real. }
  assert (Perrx : ∀ h, hands_over fds h → hands_over fds (h ++ [LErrx])).
  { intros h. unfold hands_over. by rewrite omap_app, app_nil_r. }
  apply ok_bind, ok_h_threadpool_new; [done|by exists fds| |].
  { intros h Hh. by apply ok_h_errx. }
  apply ok_bind.
  assert (Hs : ∀ vs, vs `prefix_of` fds → hsafe (hands_over fds) true (map LPush vs)).
  { intros vs Hvs. destruct (pushes_only vs) as (E1 & E2 & E3 & _). split; [|done].
    unfold hands_over. rewrite E1, filter_real; [done|]. destruct Hvs as [r ->].
    by apply Forall_app in Hf as [Hf _]. }
  assert (Hsub : ∀ done rest, fds = done ++ rest → ok (hinv (hands_over fds)) hat n
    (submit_all (Some (TP m (Some tt))) rest) (true, map LPush done)
    (λ _ x, x = (true, map LPush fds))).
  { intros don rest. revert don. induction rest as [|v rest IH]; intros don Hfds; cbn [submit_all].
    - apply ok_ret. by rewrite Hfds, app_nil_r.
    - rewrite cons_middle, app_assoc in Hfds.
      assert (Hv : hsafe (hands_over fds) true (map LPush don ++ [LPush v])).
      { change [LPush v] with (map LPush [v]). rewrite <- map_app. apply Hs. by exists rest. }
      apply ok_bind, ok_h_push; [|done|].
      + apply Hs. exists (v :: rest). by rewrite Hfds, <- app_assoc.
      + specialize (IH _ Hfds). by rewrite map_app in IH. }
  eapply ok_conseq; [by apply (Hsub [] fds)|]. intros [] x ->.
  apply ok_h_shutdown; [done|by apply Hs|done].
Qed.

Lemma dispatched_events rs : omap is_push (dispatched rs) = filter (λ r, 0 ≤ r) rs ∧
  omap is_accept (dispatched rs) = rs ∧ omap is_pop (dispatched rs) = [] ∧
  omap is_handle (dispatched rs) = [].
Proof.
  induction rs as [|r rs (H1 & H2 & H3 & H4)] using rev_ind; [done|].
  rewrite dispatched_snoc, !omap_app, filter_app, H1, H2, H3, H4.
  destruct (Z.ltb_spec r 0) as [Hr|Hr].
  - rewrite filter_cons_False by lia. by rewrite !app_nil_r.
  - by rewrite filter_cons_True by lia.
Qed.

Lemma filter_fds (rs : list Z) : filter real (filter (λ r, 0 ≤ r) rs) = filter (λ r, 0 ≤ r) rs.
Proof.
  apply filter_real, Forall_forall. intros r [Hr _]%list_elem_of_filter.
  unfold real, STOP_SENTINEL. lia.
Qed.

Lemma ok_h_serve n m : ok (hinv hands_accepted) hat n (serve m) (true, []) (λ _ _, True).
Proof.
  assert (Pstop : ∀ h, hands_accepted h → hands_accepted (h ++ [LPush STOP_SENTINEL])).
  { intros h. unfold hands_accepted. by rewrite push_stop_real, omap_app, app_nil_r. }
  assert (Perrx : ∀ h, hands_accepted h → hands_accepted (h ++ [LErrx])).
  { intros h. unfold hands_accepted. by rewrite !omap_app, !app_nil_r. }
  unfold serve. apply ok_bind, ok_h_threadpool_new; [done|by left| |].
  { intros h Hh. by apply ok_h_errx. }
  apply ok_bind, ok_h_silent; [by apply does_trigger|by split; [left|]|intros [|]]; cbn [negb].
  2:{ apply ok_h_errx; [done|]. by split; [left|]. }
  assert (Hs : ∀ rs, hsafe hands_accepted true (dispatched rs)).
  { intros rs. destruct (dispatched_events rs) as (E1 & E2 & E3 & E4). split; [|done].
    left. by rewrite E1, E2, filter_fds. }
  apply (ok_iter _ _ _ _ (λ _ x, ∃ rs, x = (true, dispatched rs))); [|by exists []].
  intros k _ x (rs & ->).
  assert (Hacc : ∀ r, hsafe hands_accepted true (dispatched rs ++ [LAccept r])).
  { intros r. destruct (dispatched_events rs) as (E1 & E2 & E3 & E4). split; [|by rewrite !omap_app, E3, E4].
    unfold hands_accepted. rewrite !omap_app, E1, E2, !filter_app, filter_fds. cbn [omap list_omap is_accept is_push].
    destruct (decide (0 ≤ r)) as [Hr|Hr]; [right; exists r|left].
    - rewrite filter_cons_True by done. by rewrite !app_nil_r.
    - by rewrite filter_cons_False. }
  apply ok_bind, (ok_h_event _ _ _ _ _ (λ r, [LAccept r])); [done|done|intros r].
  pose proof (dispatched_snoc rs r) as Hd. destruct (r <? 0).
  - apply ok_ret. exists (rs ++ [r]). by rewrite Hd.
  - apply ok_bind, ok_h_push; [done| |].
    + rewrite <- app_assoc. cbn. rewrite <- Hd. apply Hs.
    + apply ok_ret. exists (rs ++ [r]). by rewrite Hd, <- app_assoc.
Qed.
