(* ===== verification/PoolRuns.v ===== *)
(** * What a process with a worker pool does (src/threadpool.c, main)

    For every interleaving of the dispatcher and the workers: no undefined
    access and no abort, each connection handled at most once and none that was
    not handed over, no deadlock, and after a shutdown everything handled. *)
From S2P Require Import Prelude Prog Pools Posix Queue QueueInv PoolTrace Threadpool ThreadpoolInv.
From S2P Require Import PoolHist.
Local Open Scope Z_scope.
Local Open Scope prog_scope.

(** ** When nothing moves *)

(** Why a thread that cannot move cannot. *)
Definition blocked (K : nat) (A : Prop) (w : pworld) (t : itree poolE unit) (x : tghost) : Prop :=
  match x.1 with
  | MInit _ => False
  | MLive c e =>
      returned t = true ∨
      (x.2.1 = SIdle ∧ (e ∉ pw_exited w) ∧ (e < c ≤ K)%nat ∧ stops x.2.2 = c) ∨
      (x.2.1 = SIdle ∧ pw_accepts w = [] ∧ dispatch_hist x.2.2 ∧ (0 < c ≤ K)%nat ∧ A ∧
       ∃ k, observe t = VisF Accept k) ∨
      ∃ sm, get_sem sm w ≤ 0 ∧ waits (main_start K c) _ x.2 (SemWait sm)
  | MFree _ _ => False
  | MDone c => returned t = true
  | WNew i => (pw_created w ≤ i)%nat
  | WRun _ => ∃ sm, get_sem sm w ≤ 0 ∧ waits worker_start _ x.2 (SemWait sm)
  | WDone _ => True
  end.

Lemma stuck_blocked N K A Qm tr gs w t i x : tinv N tr gs w → gs !! i = Some x →
  ok (tinv N) (tat K A) 1 t x (finished A Qm) → step_thread t w = None → blocked K A w t x.
Proof.
  intros HI Hx. unfold step_thread, blocked, returned. cbn.
  destruct (observe t) as [r|t'|X e k] eqn:Ht; [|done|].
  { unfold finished. destruct x as [[] g]; try done. by left. }
  intros [HA _] Hs. destruct (sys e w) as [[w' y]|] eqn:Hsys; [done|]. clear Hs.
  destruct x as [m g]. destruct m as [w0|c j|c hp|c|j|j|j]; unfold tat in HA; cbn [fst snd] in HA |- *.
  - destruct (main_inv_at _ _ _ _ _ _ _ HI Hx) as (_ & -> & _); [done|]. by rewrite Hsys in HA.
  - destruct e as [| | |sm|sm| | | | | | | | | | | | | | |]; try done; try (by destruct HA).
    + right. right. right. exists sm. by apply sem_wait_blocked in Hsys.
    + cbn in Hsys. by destruct (_ <? _).
    + cbn in Hsys. by destruct (pop_pfault w).
    + right. left. destruct HA as (H1 & -> & H2 & H3). cbn in Hsys. by case_decide.
    + right. right. left. destruct HA as (H1 & H2 & H3 & H4). cbn in Hsys. destruct (pw_accepts w); [|done]. eauto 10.
  - destruct e as [| | | | | | | | | | | | | | | | | | |[b|]]; try done; cbn in Hsys; by case_decide.
  - by destruct e.
  - destruct e; try done. subst j.
    change (sys (Begin i0) w) with (if (i0 <? pw_created w)%nat then Some (w, tt) else None) in Hsys.
    by destruct (Nat.ltb_spec i0 (pw_created w)).
  - destruct e as [| | |sm|sm| | | | | | | | | | | | | | |]; try done; try (by destruct HA).
    + exists sm. by apply sem_wait_blocked in Hsys.
    + cbn in Hsys. by destruct (_ <? _).
  - done.
Qed.

Lemma concat_seq_S {A} (f : nat → list A) k :
  length (concat (map f (seq 0 (S k)))) = (length (concat (map f (seq 0 k))) + length (f k))%nat.
Proof. rewrite seq_S, map_app, concat_app, length_app. cbn. by rewrite app_nil_r. Qed.

Lemma concat_ge {A} (f : nat → list A) c k : (c ≤ k)%nat → (∀ i, (i < c)%nat → length (f i) = 1%nat) →
  (c ≤ length (concat (map f (seq 0 k))))%nat.
Proof.
  intros Hc Hf. assert (H : (c `min` k ≤ length (concat (map f (seq 0 k))))%nat); [|lia]. clear Hc.
  induction k as [|k IH]; [lia|]. rewrite concat_seq_S.
  destruct (decide (k < c)%nat) as [Hk|]; [rewrite (Hf k Hk)|]; lia.
Qed.

Lemma concat_lt {A} (f : nat → list A) c k e : (e < c ≤ k)%nat →
  (∀ i, (length (f i) ≤ 1)%nat) → (∀ i, (c ≤ i)%nat → f i = []) → f e = [] →
  (length (concat (map f (seq 0 k))) < c)%nat.
Proof.
  intros He H1 H0 Hfe.
  assert (H : (length (concat (map f (seq 0 k))) + (if decide (e < k)%nat then 1 else 0) ≤ c `min` k)%nat).
  { clear -H1 H0 Hfe He. destruct He as [He _]. induction k as [|k IH]; [cbn; case_decide; lia|].
    rewrite concat_seq_S. specialize (H1 k). destruct (decide (k < c)%nat) as [Hk|Hk].
    - destruct (decide (k = e)) as [->|Hne]; [rewrite Hfe; cbn [length]; repeat case_decide; lia|].
      repeat case_decide; lia.
    - rewrite (H0 k) by lia. cbn [length]. repeat case_decide; lia. }
  case_decide; lia.
Qed.

Lemma stops_filter h : stops h = length (filter (λ v, v = STOP_SENTINEL) (omap is_push h)).
Proof.
  unfold stops. induction h as [|l h IH]; [done|]. destruct l as [v| | | | |]; try exact IH.
  change (omap is_push (LPush v :: h)) with (v :: omap is_push h).
  destruct (decide (v = STOP_SENTINEL)) as [->|Hv].
  - rewrite !filter_cons_True by done. cbn. by rewrite IH.
  - rewrite !filter_cons_False; [done|done|]. by intros [= ->].
Qed.

Lemma prefix_stops_le p q : p `prefix_of` q →
  (length (filter (λ v, v = STOP_SENTINEL) p) ≤ length (filter (λ v, v = STOP_SENTINEL) q))%nat.
Proof. intros [r ->]. rewrite filter_app, length_app. lia. Qed.

Section stuck.
Context (N : Z) (K : nat) (A : Prop) (tr : trace) (gs : list tghost) (w : pworld).
Context (HI : tinv N tr gs w) (Hlen : length gs = S K).
Context (Hids : ∀ i l, (i, l) ∈ tr → (i < S K)%nat).
Context (Hblocked : ∀ i x, gs !! i = Some x →
  ∃ t, blocked K A w t x ∧ (i = 0%nat → returned t = false)).
Context (Hpops0 : omap is_pop (labels_of 0 tr) = []).
Context (c e : nat) (s : stage) (h : history) (Hmain : gs !! 0%nat = Some (MLive c e, (s, h))).

Lemma stuck_queue : qinv N tr (gs.*2) w.
Proof. by eapply queue_inv_at. Qed.

Lemma stuck_created : pw_created w = c.
Proof. by destruct (main_inv_at _ _ _ _ _ _ _ HI Hmain) as (_ & _ & Hc & _). Qed.

Lemma stuck_hist : h = labels_of 0 tr.
Proof. apply (tinv_hist _ _ _ _ _ _ HI Hmain). Qed.

(** Everybody is outside the queue. *)
Lemma stuck_idle : (∀ g, g ∈ gs.*2 → g.1 = SIdle) ∧ q_full w = N - qlen tr ∧ q_empty w = qlen tr.
Proof.
  apply (idle_counts _ _ _ _ stuck_queue). intros g ([m g'] & -> & Hx)%list_elem_of_fmap.
  apply list_elem_of_lookup in Hx as [i Hx]. destruct (Hblocked i _ Hx) as (t & Hb & Hnr).
  assert (Hw : ∀ st sm, get_sem sm w ≤ 0 → waits st _ g' (SemWait sm) →
    g'.1 = SIdle ∨ (in_cs g'.1 = 0%nat ∧ q_mutex w ≤ 0)).
  { intros st sm Hz Hw. destruct g' as [[] h']; cbn in Hw |- *; auto; try done; by subst sm; auto. }
  unfold blocked in Hb. destruct m; cbn in Hb |- *.
  - done.
  - destruct (main_inv_at _ _ _ _ _ _ _ HI Hx) as [-> _]; [done|]. rewrite Hnr in Hb by done.
    destruct Hb as [[=]|[(-> & _)|[(-> & _)|(sm & Hz & Hsm)]]]; [by left..|by eapply Hw].
  - done.
  - destruct (main_inv_at _ _ _ _ _ _ _ HI Hx) as [-> _]; [done|]. by rewrite Hmain in Hx.
  - destruct (worker_at _ _ _ _ _ _ _ HI Hx) as (j & _ & _ & HR & _); [done|]. cbn in HR. subst. by left.
  - destruct Hb as (sm & Hz & Hsm). by eapply Hw.
  - destruct (worker_at _ _ _ _ _ _ _ HI Hx) as (j & _ & _ & _ & _ & HR & _); [done|]. by left.
Qed.

(** Each worker was not created, waits for work, or has returned. *)
Lemma stuck_worker i : (i < K)%nat →
  ((c ≤ i)%nat ∧ labels_of (S i) tr = []) ∨
  (q_empty w ≤ 0 ∧ (i ∉ pw_exited w) ∧ run_hist (labels_of (S i) tr) ∧ (i < c)%nat) ∨
  (i ∈ pw_exited w ∧ done_hist i (labels_of (S i) tr) ∧ (i < c)%nat).
Proof.
  intros Hi. destruct (lookup_lt_is_Some_2 gs (S i)) as [[m g] Hx]; [lia|].
  destruct (Hblocked _ _ Hx) as (t & Hb & _). pose proof (ti_roles _ _ _ _ HI _ _ Hx) as HR.
  rewrite <- (tinv_hist _ _ _ _ _ _ HI Hx). pose proof stuck_created as Hc.
  assert (Hidle : g.1 = SIdle).
  { apply (proj1 stuck_idle). apply list_elem_of_lookup. exists (S i). by eapply lookup_snd. }
  unfold blocked, wrole in *. destruct m; cbn in *; try done.
  - left. destruct HR as (-> & -> & _). split; [lia|done].
  - right. left. destruct HR as (-> & Hlt & Hne). destruct Hb as (sm & Hz & Hw).
    cbn in Hw. rewrite Hidle in Hw. destruct Hw as (_ & -> & Hrun). cbn in Hz.
    split_and!; [done|done|done|lia].
  - right. right. destruct HR as (-> & Hlt & Hex & _ & Hd). split_and!; [done|done|lia].
Qed.

Lemma stuck_pushes : pushes tr = omap is_push h.
Proof.
  rewrite stuck_hist. apply (events_one is_push). intros [|i] Hi; [done|].
  destruct (decide (i < K)%nat) as [Hlt|].
  - destruct (stuck_worker i Hlt) as [[_ ->]|[(_ & _ & Hr & _)|(_ & Hd & _)]]; [done| |].
    + destruct Hr as (vs & _ & ->). apply jobs_events.
    + by eapply done_hist_settled.
  - by rewrite (labels_of_none _ _ (S K)) by (done || lia).
Qed.

(** Sentinels taken, worker by worker. *)
Lemma stuck_stops : length (filter (λ v, v = STOP_SENTINEL) (pops tr)) =
  length (concat (map (λ i, omap is_stop (labels_of (S i) tr)) (seq 0 K))).
Proof.
  rewrite <- events_stop, (Permutation_length (events_split is_stop tr (S K) Hids)).
  cbn. rewrite <- seq_shift, map_map.
  replace (omap is_stop (labels_of 0 tr)) with (@nil Z); [done|].
  revert Hpops0. generalize (labels_of 0 tr) as h0. intros h0. induction h0 as [|l h0 IH]; [done|].
  destruct l; try done; exact IH.
Qed.

Lemma stuck_stop_one i : (length (omap is_stop (labels_of (S i) tr)) ≤ 1)%nat ∧
  ((c ≤ i)%nat ∨ i ∉ pw_exited w → omap is_stop (labels_of (S i) tr) = []).
Proof.
  destruct (decide (i < K)%nat) as [Hlt|].
  - destruct (stuck_worker i Hlt) as [[_ ->]|[(_ & _ & (vs & Hvs & ->) & _)|(Hex & Hd & Hc)]].
    + cbn. auto with lia.
    + rewrite jobs_stop by done. cbn. auto with lia.
    + rewrite (done_hist_stop _ _ Hd). cbn. split; [lia|]. intros [?|?]; [lia|done].
  - rewrite (labels_of_none _ _ (S K)) by (done || lia). cbn. auto with lia.
Qed.

(** With no worker waiting for work all created ones have returned. *)
Lemma stuck_all_done : 0 < q_empty w → (c ≤ K)%nat → (c ≤ stops h)%nat.
Proof.
  intros He HK. rewrite stops_filter, <- stuck_pushes.
  etransitivity; [|apply prefix_stops_le, (qi_prefix _ _ _ _ stuck_queue)].
  rewrite stuck_stops. apply concat_ge; [done|]. intros i Hi.
  destruct (stuck_worker i) as [[? _]|[(? & _)|(_ & Hd & _)]]; [lia|lia|lia|].
  by rewrite (done_hist_stop _ _ Hd).
Qed.

Lemma stuck_drained : qlen tr = 0 → pops tr = pushes tr.
Proof.
  intros Hq. destruct (qi_prefix _ _ _ _ stuck_queue) as [[|x r] Hr]; [by rewrite app_nil_r in Hr|].
  exfalso. unfold qlen in Hq. rewrite Hr, length_app in Hq. cbn in Hq. lia.
Qed.

Lemma stuck_main_at t : blocked K A w t (MLive c e, (s, h)) → returned t = false →
  A ∧ dispatch_hist h ∧ pw_accepts w = [] ∧ qlen tr = 0 ∧ stops h = 0%nat ∧ ∃ k, observe t = VisF Accept k.
Proof.
  intros Hb Hnr. destruct stuck_idle as (Hidle & Hfull & Hempty). pose proof (qinv_ranges _ _ _ _ stuck_queue) as (Hq & _).
  pose proof (qi_N _ _ _ _ stuck_queue) as HN.
  assert (Hs : s = SIdle).
  { apply (Hidle (s, h)). apply list_elem_of_lookup. exists 0%nat. by eapply lookup_snd. }
  unfold blocked in Hb. cbn [fst snd] in Hb.
  rewrite Hnr in Hb. destruct Hb as [[=]|[(_ & Hex & Hec & Hst)|[(_ & Hacc & Hd & Hc & HA & Hk)|(sm & Hz & Hw)]]].
  - exfalso. assert (qlen tr = 0) as Hq0.
    { destruct (stuck_worker e) as [[? _]|[(? & _)|(? & _)]]; [lia|lia|lia|done]. }
    pose proof stuck_stops as Hcount. rewrite (stuck_drained Hq0), stuck_pushes, <- stops_filter, Hst in Hcount.
    pose proof (concat_lt (λ i, omap is_stop (labels_of (S i) tr)) c K e Hec) as Hlt.
    rewrite <- Hcount in Hlt. enough (c < c)%nat by lia. apply Hlt.
    + intros i. apply stuck_stop_one.
    + intros i Hi. apply stuck_stop_one. by left.
    + apply stuck_stop_one. by right.
  - destruct Hd as [rs Hrs]. assert (Hst : stops h = 0%nat) by (rewrite Hrs; apply dispatched_stops).
    split_and!; try done; [by exists rs|].
    destruct (decide (0 < q_empty w)) as [He|]; [|lia]. pose proof (stuck_all_done He). lia.
  - exfalso. cbn in Hw. rewrite Hs in Hw. destruct Hw as (_ & -> & Hst). cbn in Hz.
    assert (0 < q_empty w) as He by lia. pose proof (stuck_all_done He). lia.
Qed.

Lemma stuck_main : A ∧ dispatch_hist h ∧ pw_accepts w = [] ∧ qlen tr = 0 ∧ stops h = 0%nat.
Proof.
  destruct (Hblocked _ _ Hmain) as (t & Hb & Hnr). destruct (stuck_main_at t Hb (Hnr eq_refl)) as (? & ? & ? & ? & ? & _).
  done.
Qed.

(** All that was handed over was handled. *)
Lemma stuck_settled : omap is_handle (labels_of 0 tr) = [] →
  handled tr ≡ₚ to_s32 <$> filter real (omap is_push h).
Proof.
  intros Hh0. destruct stuck_main as (_ & _ & _ & Hq & _).
  rewrite <- stuck_pushes, <- (stuck_drained Hq). apply (handled_settled tr (S K) Hids).
  intros [|i] Hi; [unfold settled, taken; by rewrite Hpops0, Hh0|].
  destruct (stuck_worker i) as [[_ ->]|[(_ & _ & Hrun & _)|(_ & Hd & _)]]; [lia|done| |].
  - by apply run_hist_settled.
  - by eapply done_hist_settled.
Qed.
End stuck.

(** ** The theorems *)

Lemma filter_prefix {A} (Pr : A → Prop) `{!∀ x, Decision (Pr x)} (p q : list A) :
  p `prefix_of` q → filter Pr p `prefix_of` filter Pr q.
Proof. intros [r ->]. rewrite filter_app. by exists (filter Pr r). Qed.

(** What was handled is among what was handed over. *)
Lemma handled_fds tr fds : Forall is_fd fds → pops tr `prefix_of` pushes tr →
  filter real (pushes tr) `prefix_of` fds → handled tr ⊆+ (to_s32 <$> filter real (pops tr)) →
  handled tr ⊆+ fds.
Proof.
  intros Hf H1 H2 H3. assert (Hp : filter real (pops tr) `prefix_of` fds).
  { etransitivity; [by apply filter_prefix|done]. }
  destruct Hp as [r Hr]. rewrite Hr in Hf |- *. apply Forall_app in Hf as [Hf _].
  rewrite is_fd_s32 in H3 by done. etransitivity; [done|]. by apply submseteq_inserts_r.
Qed.

Lemma main_finished N K A Qm tr gs w t x : tinv N tr gs w → gs !! 0%nat = Some x →
  ok (tinv N) (tat K A) 1 t x (finished A Qm) → returned t = true →
  A ∧ LErrx ∈ labels_of 0 tr ∨
  pw_heap w = ∅ ∧ ∃ c s, x = (MDone c, (s, labels_of 0 tr)) ∧ Qm c (labels_of 0 tr).
Proof.
  intros HI Hx Hok Hr. pose proof (tinv_hist _ _ _ _ _ _ HI Hx) as Hh.
  destruct (ti_main _ _ _ _ HI) as (x' & Hx' & HM). rewrite Hx in Hx'. simplify_eq.
  unfold returned in Hr. cbn in Hok. destruct (observe t); try done.
  destruct x' as [m [s h]]. cbn in Hh. subst h. unfold finished in Hok. destruct m; try done; [by left|].
  right. destruct HM as (_ & _ & Hh). eauto.
Qed.

(** The dispatcher is about to call listener_accept. *)
Definition at_accept (q : pool poolE pworld qlabel) : Prop :=
  ∃ t k, pool_threads q !! 0%nat = Some t ∧ observe t = VisF Accept k.

(** When nothing moves: the dispatcher has returned, or it waits for a
    connection and all it handed over was handled. *)
Lemma stuck_process N K A Qm q gs : tinv N (pool_trace q) gs (pool_world q) →
  Forall2 (λ t g, ok (tinv N) (tat K A) 1 t g (finished A Qm)) (pool_threads q) gs →
  length gs = S K → (∀ i l, (i, l) ∈ pool_trace q → (i < S K)%nat) →
  omap is_pop (labels_of 0 (pool_trace q)) = [] → omap is_handle (labels_of 0 (pool_trace q)) = [] →
  stuck q = true →
  (∃ t, pool_threads q !! 0%nat = Some t ∧ returned t = true) ∨
  (A ∧ at_accept q ∧ pw_accepts (pool_world q) = [] ∧ dispatch_hist (labels_of 0 (pool_trace q)) ∧
   handled (pool_trace q) ≡ₚ to_s32 <$> filter real (omap is_push (labels_of 0 (pool_trace q)))).
Proof.
  intros HI Hok Hlen Hids Hp0 Hh0 Hst.
  assert (Hb : ∀ i x, gs !! i = Some x → ∃ t, pool_threads q !! i = Some t ∧
    blocked K A (pool_world q) t x).
  { intros i x Hx. destruct (Forall2_lookup_r _ _ _ _ _ Hok Hx) as (t & Ht & Hokt). exists t.
    split; [done|]. eapply stuck_blocked; [done|done|exact Hokt|by eapply stuck_thread]. }
  destruct (ti_main _ _ _ _ HI) as ([m [s h]] & Hx & HM). destruct (Hb _ _ Hx) as (t & Ht & Hbt).
  destruct (returned t) eqn:Hret; [left; eauto|right].
  assert (Hbl : ∀ i x, gs !! i = Some x →
    ∃ t, blocked K A (pool_world q) t x ∧ (i = 0%nat → returned t = false)).
  { intros i x (t' & Ht' & Hbt')%Hb. exists t'. split; [done|]. intros ->. congruence. }
  destruct m as [w0|c e|c hp|c| | |]; try done; [|cbn in Hbt; congruence].
  pose proof (tinv_hist _ _ _ _ _ _ HI Hx) as Hh. cbn in Hh. rewrite <- Hh.
  destruct (stuck_main_at N K A _ gs _ HI Hlen Hids Hbl Hp0 c e s h Hx t Hbt Hret) as (HA & Hd & Hemp & _ & _ & k & Hk).
  split_and!; try done; [by exists t, k|]. by apply (stuck_settled N K A _ gs _ HI Hlen Hids Hbl Hp0 c e s h Hx).
Qed.

Lemma session_reachable m size fds w q : 0 < m → 0 < size ≤ INT_MAX →
  Forall is_fd fds → fresh_world w → reachable (process (session m size fds) m w) q →
  ∃ gs, tinv size (pool_trace q) gs (pool_world q) ∧
    Forall2 (λ t g, ok (tinv size) (tat (Z.to_nat m) False) 1 t g (finished False (session_end m fds)))
      (pool_threads q) gs ∧
    length gs = S (Z.to_nat m) ∧ (∀ i l, (i, l) ∈ pool_trace q → (i < S (Z.to_nat m))%nat).
Proof.
  intros Hm Hs Hf Hw Hr.
  assert (Hreal : Forall real fds) by (eapply Forall_impl; [done|apply is_fd_real]).
  destruct (process_inv size False m _ _ w q Hw (λ n, ok_session size n m fds w Hs Hm Hreal Hw) Hr)
    as (gs & HI & Hok).
  destruct (reachable_threads _ _ Hr) as [Hl Hids]. specialize (Hids ltac:(by intros ?? ?%elem_of_nil)).
  cbn in Hl. rewrite length_fmap, length_seq in Hl. pose proof (Forall2_length _ _ _ Hok) as Hl2.
  exists gs. rewrite Hl in Hids. split_and!; try done. congruence.
Qed.

(** C12. A pool of m workers that is given a list of connections and destroyed,
    in every interleaving: nothing touches the queue's memory out of bounds or
    after it is freed and nothing is freed twice, no semaphore call aborts, no
    connection is handled that was not submitted and none is handled twice; and
    when threadpool_destroy has returned, every connection was handled and every
    worker has returned (or the pool could not be created and the process
    reported that), and all memory of the pool and its queue has been freed. *)
Theorem threadpool_session m size fds w q :
  0 < m ≤ INT_MAX → 0 < size ≤ INT_MAX → Forall is_fd fds → fresh_world w →
  reachable (process (session m size fds) m w) q →
  pw_ub (pool_world q) = false ∧ pw_aborted (pool_world q) = false ∧
  handled (pool_trace q) ⊆+ fds ∧
  (∀ t, pool_threads q !! 0%nat = Some t → returned t = true →
     pw_heap (pool_world q) = ∅ ∧
     (LErrx ∈ labels_of 0 (pool_trace q) ∨
      handled (pool_trace q) ≡ₚ fds ∧
      ∀ i, (i < Z.to_nat m)%nat → i ∈ pw_exited (pool_world q))).
Proof.
  intros [Hm _] Hs Hf Hw Hr.
  destruct (session_reachable m size fds w q Hm Hs Hf Hw Hr) as (gs & HI & Hok & Hlen & Hids).
  destruct (tinv_safe _ _ _ _ HI) as (H1 & H2 & Hpre).
  assert (Hreal : Forall real fds) by (eapply Forall_impl; [done|apply is_fd_real]).
  destruct (process_histories (hands_over fds) ltac:(by exists fds) m (session m size fds) w q)
    as (Hh & Hpu & _ & HP & _); [intros n; by apply ok_h_session|done|].
  split_and!; [done|done| |].
  - apply handled_fds; try done. rewrite Hpu. exact HP.
  - intros t Ht Hret. destruct (Forall2_lookup_l _ _ _ _ _ Hok Ht) as (x & Hx & Hokx).
    destruct (main_finished _ _ _ _ _ _ _ _ _ HI Hx Hokx Hret) as [[[] _]|(Hh0 & c & s & -> & [Hfail|[-> Hend]])];
      (split; [done|]).
    + left. rewrite Hfail. set_solver.
    + right. eapply shutdown_complete; try done. by rewrite Hlen.
Qed.

(** C19. No deadlock: when no thread of such a process can move, the dispatcher
    has returned from threadpool_destroy (or reported that there is no pool). *)
Theorem threadpool_no_deadlock m size fds w q t :
  0 < m ≤ INT_MAX → 0 < size ≤ INT_MAX → Forall is_fd fds → fresh_world w →
  reachable (process (session m size fds) m w) q → stuck q = true →
  pool_threads q !! 0%nat = Some t → returned t = true.
Proof.
  intros [Hm _] Hs Hf Hw Hr Hst Ht.
  destruct (session_reachable m size fds w q Hm Hs Hf Hw Hr) as (gs & HI & Hok & Hlen & Hids).
  assert (Hreal : Forall real fds) by (eapply Forall_impl; [done|apply is_fd_real]).
  destruct (process_histories (hands_over fds) ltac:(by exists fds) m (session m size fds) w q)
    as (_ & _ & _ & _ & Hp0 & Hh0); [intros n; by apply ok_h_session|done|].
  destruct (stuck_process _ _ _ _ _ _ HI Hok Hlen Hids Hp0 Hh0 Hst) as [(t' & Ht' & Hret)|[[] _]].
  by simplify_eq.
Qed.

Lemma serve_runs n w q :
  0 < n ≤ INT_MAX → fresh_world w → reachable (process (serve n) n w) q →
  Forall (λ r, r ≤ INT_MAX) (accepted (pool_trace q)) →
  let fds := filter (λ r, 0 ≤ r) (accepted (pool_trace q)) in
  pw_ub (pool_world q) = false ∧ pw_aborted (pool_world q) = false ∧
  handled (pool_trace q) ⊆+ fds ∧
  (stuck q = true → LErrx ∈ labels_of 0 (pool_trace q) ∨
     handled (pool_trace q) ≡ₚ fds ∧ pw_accepts (pool_world q) = [] ∧ at_accept q).
Proof.
  intros Hn Hw Hr Hacc fds.
  destruct (process_inv n True n _ _ w q Hw (λ k, ok_serve n k w Hn Hw) Hr) as (gs & HI & Hok).
  destruct (reachable_threads _ _ Hr) as [Hl Hids]. specialize (Hids ltac:(by intros ?? ?%elem_of_nil)).
  cbn in Hl. rewrite length_fmap, length_seq in Hl. pose proof (Forall2_length _ _ _ Hok) as Hl2.
  destruct (process_histories hands_accepted ltac:(by left) n (serve n) w q)
    as (Hh & Hpu & Ha & HP & Hp0 & Hh0); [intros k; apply ok_h_serve|done|].
  destruct (tinv_safe _ _ _ _ HI) as (H1 & H2 & Hpre).
  assert (Hfds : Forall is_fd fds).
  { apply Forall_forall. intros r [Hr0 Hr1]%list_elem_of_filter. rewrite Forall_forall in Hacc.
    specialize (Hacc r Hr1). split; [done|exact Hacc]. }
  split_and!; [done|done| |].
  - apply handled_fds; try done. rewrite Hpu. unfold fds. rewrite Ha.
    destruct HP as [->|(r & _ & <-)]; [done|by exists [r]].
  - intros Hst. rewrite Hl in Hids.
    destruct (stuck_process _ _ _ _ _ _ HI Hok ltac:(congruence) Hids Hp0 Hh0 Hst)
      as [(t & Ht & Hret)|(_ & Hat & Hemp & (rs & Hrs) & Hall)]; [left|right].
    + destruct (Forall2_lookup_l _ _ _ _ _ Hok Ht) as (x & Hx & Hokx).
      destruct (main_finished _ _ _ _ _ _ _ _ _ HI Hx Hokx Hret) as [[_ ?]|(_ & c & s & _ & Hfail)];
        [done|]. rewrite Hfail. set_solver.
    + split; [|done]. rewrite Hall. unfold fds in *. rewrite Ha, Hrs in *.
      destruct (dispatched_events rs) as (E1 & E2 & _). rewrite E1, E2, filter_fds in *.
      by rewrite is_fd_s32.
Qed.

(** What main runs, with n workers and a queue of n slots, in every
    interleaving: no undefined access, no abort, every handled connection is
    one that listener_accept returned and none is handled twice; and whenever
    no thread can move, the server is waiting for the next connection and has
    handled all it accepted (or it could not create its pool or listen, and
    exited with an error). *)
Theorem serve_handles_accepted n w q :
  0 < n ≤ INT_MAX → fresh_world w → reachable (process (serve n) n w) q →
  Forall (λ r, r ≤ INT_MAX) (accepted (pool_trace q)) →
  let fds := filter (λ r, 0 ≤ r) (accepted (pool_trace q)) in
  pw_ub (pool_world q) = false ∧ pw_aborted (pool_world q) = false ∧
  handled (pool_trace q) ⊆+ fds ∧
  (stuck q = true → LErrx ∈ labels_of 0 (pool_trace q) ∨
     handled (pool_trace q) ≡ₚ fds ∧ pw_accepts (pool_world q) = [] ∧ at_accept q).
Proof. apply serve_runs. Qed.

(** *** Runs *)

(** Two workers, a queue of one slot, three connections; calls fail with EINTR
    now and then. *)
Definition demo_pool_world (accepts : list Z) : pworld :=
  PW 0 0 [] 0 0 0 0 0 false ∅ false false 0 ∅
     [false; false; false; false; false; false; false; false; false; true; false; true] true accepts.
Definition demo_session : pool poolE pworld qlabel :=
  schedule (concat (replicate 150 [0; 1; 2]%nat)) (process (session 2 1 [5; 6; 7]) 2 (demo_pool_world [])).
Definition demo_serve : pool poolE pworld qlabel :=
  schedule (concat (replicate 150 [0; 1; 2]%nat)) (process (serve 2) 2 (demo_pool_world [5; -1; 6; 7])).

Lemma threadpool_session_witness :
  handled (pool_trace demo_session) = [5; 6; 7] ∧ handled (pool_trace demo_session) ≡ₚ [5; 6; 7] ∧
  pw_ub (pool_world demo_session) = false.
Proof.
  destruct (threadpool_session 2 1 [5; 6; 7] (demo_pool_world []) demo_session) as (H1 & _ & _ & H4).
  - unfold INT_MAX; lia.
  - unfold INT_MAX; lia.
  - repeat constructor; unfold INT_MAX; lia.
  - by repeat split.
  - apply schedule_reachable.
  - split; [by vm_compute|]. split; [|done].
    destruct (pool_threads demo_session !! 0%nat) as [t|] eqn:Ht; [|by vm_compute in Ht].
    destruct (H4 t eq_refl) as [_ [H|[H _]]]; [|by vm_compute in H; set_solver|done].
    by vm_compute in Ht; injection Ht as <-.
Defined.

Lemma threadpool_no_deadlock_witness :
  stuck demo_session = true ∧
  (∀ t, pool_threads demo_session !! 0%nat = Some t → returned t = true).
Proof.
  split; [by vm_compute|]. intros t.
  apply (threadpool_no_deadlock 2 1 [5; 6; 7] (demo_pool_world []) demo_session t).
  - unfold INT_MAX; lia.
  - unfold INT_MAX; lia.
  - repeat constructor; unfold INT_MAX; lia.
  - by repeat split.
  - apply schedule_reachable.
  - by vm_compute.
Defined.

Lemma serve_handles_accepted_witness :
  stuck demo_serve = true ∧ accepted (pool_trace demo_serve) = [5; -1; 6; 7] ∧
  handled (pool_trace demo_serve) ⊆+ [5; 6; 7].
Proof.
  assert (E : accepted (pool_trace demo_serve) = [5; -1; 6; 7]) by (by vm_compute).
  split; [by vm_compute|]. split; [exact E|].
  destruct (serve_handles_accepted 2 (demo_pool_world [5; -1; 6; 7]) demo_serve) as (_ & _ & H & _).
  - unfold INT_MAX; lia.
  - by repeat split.
  - apply schedule_reachable.
  - rewrite E. repeat constructor; unfold INT_MAX; lia.
  - rewrite E in H. exact H.
Defined.
