(* ===== verification/PoolEnds.v ===== *)
(** * Every run of the pool ends (src/queue.c, src/threadpool.c, main)

    The workers and the dispatcher loop for ever, but every turn of a worker
    that is not its last calls the handler and every turn of the dispatcher
    accepts a connection; a turn of sem_wait_checked uses up an interruption.
    So with finitely many connections and interruptions every run ends. *)
From S2P Require Import Prelude Prog Pools PoolsTerm Posix Queue QueueInv PoolTrace Threadpool PoolHist PoolRuns Paced.
Local Open Scope Z_scope.
Local Open Scope prog_scope.

(** ** Connections *)

Lemma events_labels {A} (h : qlabel → option A) j ls : events h (map (pair j) ls) = omap h ls.
Proof. unfold events. induction ls as [|x ls IH]; cbn; [done|]. by rewrite IH. Qed.

(** Connections are accepted in the order in which they come. *)
Lemma accept_step {X} (e : poolE X) w w' x : sys e w = Some (w', x) →
  omap is_accept (lab e x) ++ pw_accepts w' = pw_accepts w.
Proof.
  intros Hs. destruct e; cbn in Hs; unfold pop_pfault, alive, set_sem, set_field in Hs;
    repeat (case_match || simplify_eq); cbn; try done.
Qed.

Lemma accepted_order p q : reachable p q →
  accepted (pool_trace q) ++ pw_accepts (pool_world q) = accepted (pool_trace p) ++ pw_accepts (pool_world p).
Proof.
  unfold reachable. induction 1 as [p|p p1 q Hs _ IH]; [done|]. rewrite IH.
  inversion Hs as [i ts t t' w w' tr Hi Hst]; subst. cbn [pool_trace pool_world]. unfold accepted. rewrite events_app, events_labels, <- app_assoc.
  f_equal. unfold step_thread, step_label in *. destruct (observe t) as [r|t1|X e k]; [done|by simplify_eq|].
  destruct (sys e w) as [[w1 x]|] eqn:He; [|done]. injection Hst as <- <-. by apply accept_step.
Qed.

(** ** Progress *)

Definition pool_pace X (e : poolE X) (x : X) (w w' : pworld) : pace :=
  match e in poolE X return X → pace with
  | Accept => λ _, Gain
  | Handler _ => λ _, Gain
  | SemWait _ => λ r, match r with Err _ => Gain | Ok _ => Slow end
  | _ => λ _, Slow
  end x.

Lemma pool_pace_free X (e : poolE X) w w' x : pool_pace X e x w w' ≠ Spend.
Proof. destruct e; cbn; try done. by destruct x. Qed.

Lemma sem_wait_err s w w' e : sys (SemWait s) w = Some (w', Err e) →
  e = EINTR ∧ (length (pw_faults w') < length (pw_faults w))%nat.
Proof.
  cbn. assert (Hf : ∀ b w1, pop_pfault (alive w) = (b, w1) → b = true → (length (pw_faults w1) < length (pw_faults w))%nat).
  { intros b w1. assert (pw_faults (alive w) = pw_faults w) as E by (unfold alive; by destruct (pw_freed w)).
    unfold pop_pfault. rewrite E. destruct (pw_faults w) as [|b' fl]; intros [= <- <-]; [done|]. cbn. lia. }
  destruct (pop_pfault (alive w)) as [b w1]. specialize (Hf b w1 eq_refl). destruct b; [|by case_match].
  intros [= <- <-]. auto.
Qed.

Lemma pop_pfault_falls w b w1 : pop_pfault w = (b, w1) → (length (pw_faults w1) ≤ length (pw_faults w))%nat.
Proof. unfold pop_pfault. destruct (pw_faults w) as [|b' fl] eqn:E; intros [= <- <-]; [by rewrite E|cbn; lia]. Qed.

Lemma pool_faults_fall {X} (e : poolE X) w w' x : sys e w = Some (w', x) →
  (length (pw_faults w') ≤ length (pw_faults w))%nat.
Proof.
  assert (Ha : pw_faults (alive w) = pw_faults w) by (unfold alive; by destruct (pw_freed w)).
  pose proof (pop_pfault_falls w) as Hp. pose proof (pop_pfault_falls (alive w)) as Hq. rewrite Ha in Hq.
  intros Hs. destruct e; cbn in Hs; try destruct (pop_pfault _) as [fl w1]; try specialize (Hp fl w1 eq_refl);
    try specialize (Hq fl w1 eq_refl); repeat (case_match || simplify_eq); cbn; try rewrite Ha; try done;
    try (destruct s); try (destruct f); cbn; rewrite ?Ha; try done; by eapply Hq.
Qed.

(** ** What the routines cost *)

Section costs.
Context (N : nat).
Local Abbreviation pays := (paces pool_pace 0 N).
Local Abbreviation cost := (costs pool_pace 0 N 0).

Lemma cost_event c {X} (e : poolE X) : (0 < c)%nat → cost c (perform e).
Proof. intros Hc. apply costs_trigger; [|done]. intros w w' x _ H. by apply pool_pace_free in H. Qed.

Local Ltac pay_call := pay 0%nat 1%nat; [apply cost_event; lia|].

Lemma cost_sem_wait s : cost 2 (sem_wait_checked s).
Proof.
  intros n b k Hb Hk. unfold sem_wait_checked.
  apply (paces_iter _ _ _ _ (λ b' k' _, at_least 0 N b (k - 1) b' k')); [|unfold at_least; lia].
  clear n. intros n b1 k1 [] [Hb1 Hk1].
  apply paces_bind, paces_trigger. unfold at_least. intros w w' [[]|e] Hs; cbn [pool_pace charge].
  - destruct k1; [lia|]. apply paces_ret. lia.
  - apply sem_wait_err in Hs as [-> _]. rewrite bool_decide_false by naive_solver.
    apply paces_ret. destruct N; lia.
Qed.

Lemma cost_sem_post s : cost 2 (sem_post_checked s).
Proof.
  unfold sem_post_checked. pay_call. destruct r; [apply costs_ret|apply cost_event; lia].
Qed.

Lemma cost_queue_push q v : cost 15 (queue_push q v).
Proof.
  destruct q; [|apply costs_ret]. cbn [queue_push]. do 2 (pay 0%nat 2%nat; [apply cost_sem_wait|]).
  do 7 pay_call. do 2 (pay 0%nat 2%nat; [apply cost_sem_post|]). apply costs_ret.
Qed.

Lemma cost_queue_pop q : cost 15 (queue_pop q (Some tt)).
Proof.
  destruct q; [|apply costs_ret]. cbn [queue_pop]. do 2 (pay 0%nat 2%nat; [apply cost_sem_wait|]).
  do 7 pay_call. do 2 (pay 0%nat 2%nat; [apply cost_sem_post|]). apply costs_ret.
Qed.

Lemma cost_push_stops q k : cost (15 * k) (push_stops q k).
Proof.
  induction k as [|k IH]; cbn [push_stops]; [apply costs_ret|].
  apply (costs_seq _ _ _ 0 15); [lia|lia|apply cost_queue_push|]. intros _. by replace (15 * S k - 15)%nat with (15 * k)%nat by lia.
Qed.

Lemma cost_join_all j k : cost k (join_all j k).
Proof.
  revert j. induction k as [|k IH]; intros j; cbn [join_all]; [apply costs_ret|].
  apply (costs_seq _ _ _ 0 1); [lia|lia|apply cost_event; lia|]. intros _. replace (S k - 1)%nat with k by lia. apply IH.
Qed.

Lemma cost_delete q : cost 1 (queue_delete q).
Proof. destruct q; [|apply costs_ret]. cbn. pay_call. apply costs_ret. Qed.

Lemma cost_create_all tp i k : cost (k + 16 * (i + k) + 3) (create_all tp i k).
Proof.
  revert i. induction k as [|k IH]; intros i; cbn [create_all]; [apply costs_ret|].
  apply (costs_seq _ _ _ 0 1); [lia|lia|apply cost_event; lia|]. intros []; cbn [negb].
  - eapply costs_le; [done| |apply IH]. lia.
  - eapply (costs_seq _ _ _ 0 (15 * i)); [lia|lia|apply cost_push_stops|]. intros _.
    eapply (costs_seq _ _ _ 0 i); [lia|lia|apply cost_join_all|]. intros _.
    eapply (costs_seq _ _ _ 0 1); [lia|lia|apply cost_delete|]. intros _.
    do 2 (eapply (costs_seq _ _ _ 0 1); [lia|lia|apply cost_event; lia|]; intros _). apply costs_ret.
Qed.

Lemma cost_queue_new_fails : cost 2 queue_new_fails.
Proof. unfold queue_new_fails. do 2 pay_call. apply costs_ret. Qed.

Lemma cost_queue_new size : cost 11 (queue_new size).
Proof.
  unfold queue_new. pay_call. destruct r; cbn [negb]; [|apply costs_ret].
  pay_call. destruct r; cbn [negb]; [|pay_call; apply costs_ret].
  pay 0%nat 4%nat. { unfold set_fields. do 3 pay_call. apply cost_event; lia. }
  do 3 (pay_call; match goal with b : bool |- _ => destruct b end; cbn [negb];
    [|eapply costs_le; [done| |apply cost_queue_new_fails]; lia]). apply costs_ret.
Qed.

Lemma cost_threadpool_new n size : cost (16 + 17 * Z.to_nat n) (threadpool_new n size true).
Proof.
  unfold threadpool_new. case_match; [apply costs_ret|].
  apply (costs_seq _ _ _ 0 1); [lia|lia|apply cost_event; lia|]. intros []; cbn [negb]; [|apply costs_ret].
  apply (costs_seq _ _ _ 0 1); [lia|lia|apply cost_event; lia|]. intros threads.
  apply (costs_seq _ _ _ 0 11); [lia|lia|apply cost_queue_new|]. intros q.
  assert (Hd : cost (16 + 17 * Z.to_nat n - 1 - 1 - 11) (do! ! (Free (if threads then Some BThreads else None)) in
    do! queue_delete q in do! ! (Free (Some BPool)) in Ret (None : option threadpool))).
  { apply (costs_seq _ _ _ 0 1); [lia|lia|apply cost_event; lia|]. intros _.
    apply (costs_seq _ _ _ 0 1); [lia|lia|apply cost_delete|]. intros _.
    apply (costs_seq _ _ _ 0 1); [lia|lia|apply cost_event; lia|]. intros _. apply costs_ret. }
  destruct threads, q; try exact Hd. eapply costs_le; [done| |apply cost_create_all]. lia.
Qed.

(** ** The threads *)

Context (n : Z) (HN : N = (40 + 17 * Z.to_nat n)%nat).

Lemma worker_steady tp i : steady pool_pace 0 N (worker_thread tp i) (0%nat, N).
Proof.
  split; [done|]. intros m. cbn [fst snd]. unfold worker_thread. apply paces_bind.
  eapply paces_conseq; [apply (cost_event 1); lia|]. cbn beta. intros b k [] [Hb Hk].
  apply paces_bind. apply (paces_conseq _ _ _ _ _ _ _ (λ b' k' _, at_least 0 N 0 1 b' k')).
  - unfold worker. apply (paces_iter _ _ _ _ (λ b' k' _, at_least 0 N 0 17 b' k')); [|unfold at_least; lia].
    clear m b k Hb Hk. intros m b k [] [Hb Hk].
    apply paces_bind. eapply paces_conseq; [apply cost_queue_pop; lia|]. unfold at_least. cbn beta.
    intros b' k' r Hk'. destruct (_ =? _); [apply paces_ret; lia|]. apply paces_bind, paces_trigger.
    intros w w' [] _. cbn [pool_pace charge]. apply paces_ret. destruct N; lia.
  - intros b' k' [] [Hb' Hk']. eapply paces_conseq; [apply (cost_event 1); lia|done].
Qed.

Lemma dispatcher_paces m k tp : pays m 0 k (dispatcher (Some tp)) (λ _ _ _, True).
Proof.
  unfold dispatcher. apply (paces_iter _ _ _ _ (λ b _ _, b = 0%nat)); [|done]. clear m k. intros m b k [] ->.
  apply paces_bind, paces_trigger. intros w w' fd _. cbn [pool_pace charge].
  destruct (fd <? 0); [apply paces_ret; destruct N; [lia|done]|].
  apply paces_bind. cbn [threadpool_submit]. eapply paces_conseq; [apply cost_queue_push; lia|]. cbn beta.
  intros b' k' r [Hb' Hk']. apply paces_ret. destruct k'; lia.
Qed.

Lemma main_steady : steady pool_pace 0 N (serve n) (0%nat, N).
Proof.
  split; [done|]. intros m. cbn [fst snd]. unfold serve. apply paces_bind.
  eapply paces_conseq; [apply cost_threadpool_new; lia|]. cbn beta. intros b k [tp|] [Hb Hk].
  - apply paces_bind. eapply paces_conseq; [apply (cost_event 1); lia|]. cbn beta.
    intros b' k' [] [Hb' Hk']; cbn [negb]; [replace b' with 0%nat by lia; apply dispatcher_paces|].
    eapply paces_conseq; [apply (cost_event 1); lia|done].
  - eapply paces_conseq; [apply (cost_event 1); lia|done].
Qed.
End costs.

(** ** The end *)

Section ends.
Context (n : Z) (pw : pworld) (Hn : 0 < n ≤ INT_MAX) (Hfresh : fresh_world pw).
Context (Hmax : Forall (λ r, r ≤ INT_MAX) (pw_accepts pw)).
Let p0 := process (serve n) n pw.

(** Connections still to be accepted, handlers still to be called,
    interruptions still to come. *)
Definition to_come (tr : trace) (w : pworld) : nat :=
  (length (pw_accepts pw) - length (accepted tr)) + (length (pw_accepts pw) - length (handled tr)) +
  length (pw_faults w).

Lemma few_events p : reachable p0 p →
  (length (accepted (pool_trace p)) ≤ length (pw_accepts pw))%nat ∧
  (length (handled (pool_trace p)) ≤ length (pw_accepts pw))%nat.
Proof.
  intros Hr. pose proof (accepted_order _ _ Hr) as Ho. cbn [p0 process pool_trace pool_world] in Ho.
  change (accepted []) with (@nil Z) in Ho. rewrite app_nil_l in Ho.
  destruct (serve_runs n pw p Hn Hfresh Hr) as (_ & _ & H3 & _).
  { rewrite <- Ho in Hmax. by apply Forall_app in Hmax as [? _]. }
  apply submseteq_length in H3. pose proof (length_filter (λ r, 0 ≤ r) (accepted (pool_trace p))) as Hl.
  rewrite <- Ho, length_app. lia.
Qed.

Lemma to_come_falls ts w tr i t X (e : poolE X) h w' x : reachable p0 (Pool ts w tr) → ts !! i = Some t →
  observe t = VisF e h → sys e w = Some (w', x) →
  let m := to_come tr w in let m' := to_come (tr ++ map (pair i) (lab e x)) w' in
  match pool_pace X e x w w' with Slow => (m' ≤ m)%nat | Gain => (m' < m)%nat | Spend => True | Fresh => False end.
Proof.
  intros Hr Hi Ho Hs.
  assert (Hr' : reachable p0 (Pool (<[i := h x]> ts) w' (tr ++ map (pair i) (lab e x)))).
  { eapply rtc_r; [exact Hr|]. replace (lab e x) with (step_label t w) by (unfold step_label; by rewrite Ho, Hs).
    econstructor; [done|]. unfold step_thread. by rewrite Ho, Hs. }
  apply few_events in Hr' as [Ha Hh]. cbn [pool_trace] in Ha, Hh. pose proof (pool_faults_fall e w w' x Hs) as Hf.
  unfold to_come, accepted, handled in *. rewrite !events_app, !events_labels, !length_app in *.
  destruct e; cbn in *; try lia. destruct x as [|er]; cbn; [lia|]. apply (sem_wait_err s) in Hs. lia.
Qed.

Lemma serve_ends : sn pool_step p0.
Proof.
  eapply (steady_terminates pool_pace 0 (40 + 17 * Z.to_nat n) p0 to_come to_come_falls p0
    (replicate (length (pool_threads p0)) (0, 40 + 17 * Z.to_nat n)%nat)).
  - apply rtc_refl.
  - apply Forall2_same_length_lookup_2; [by rewrite length_replicate|].
    intros i t k Ht [-> _]%lookup_replicate. unfold p0 in Ht. cbn in Ht. destruct i as [|i]; cbn in Ht.
    + injection Ht as <-. by apply main_steady.
    + apply list_lookup_fmap_Some in Ht as (j & -> & _). by eapply worker_steady.
Qed.
End ends.
