(* ===== verification/Listener.v ===== *)
(** * The listening socket (src/listener.c)

    Sockets are entries of a table; a call that the code checks may fail, as
    the list of pending faults says.  bind() also fails on a port that a
    listening socket has. *)
From S2P Require Import Prelude Prog Posix.
Local Open Scope Z_scope.
Local Open Scope prog_scope.

(** ** Sockets *)

Record sockaddr_in := Addr { sin_addr : Z; sin_port : Z }.
Definition INADDR_ANY : Z := 0.

(** What the calls have set on a socket. *)
Record lsock := LSock {
  so_reuseaddr : bool;
  so_addr : option sockaddr_in;  (* what it is bound to *)
  so_listening : bool;
  so_peer : option nat;       (* accepted: the client's number *)
  so_rcvtimeo : Z;            (* seconds, 0 for none *)
  so_sndtimeo : Z
}.

Record lworld := LW {
  l_socks : gmap Z lsock;
  l_next : Z;                 (* the next free descriptor *)
  l_clients : list nat;       (* who will connect *)
  l_faults : list bool        (* whether the next call fails *)
}.

Definition new_socket : lsock := LSock false None false None 0 0.

Variant timeout := SO_RCVTIMEO | SO_SNDTIMEO.

Variant listenE : Type → Type :=
  | Socket : listenE Z
  | ReuseAddr (fd : Z) : listenE Z
  | Bind (fd : Z) (addr : sockaddr_in) : listenE Z
  | Listen (fd : Z) : listenE Z
  | AcceptOn (fd : Z) : listenE Z
  | SetTimeout (fd : Z) (which : timeout) (secs : Z) : listenE Z
  | CloseSock (fd : Z) : listenE unit.

Definition pop_lfault (w : lworld) : bool * lworld :=
  match l_faults w with
  | [] => (false, w)
  | b :: fl => (b, LW (l_socks w) (l_next w) (l_clients w) fl)
  end.

Definition set_socks (m : gmap Z lsock) (w : lworld) : lworld :=
  LW m (l_next w) (l_clients w) (l_faults w).

Definition add_sock (s : lsock) (w : lworld) : lworld :=
  LW (<[l_next w := s]> (l_socks w)) (l_next w + 1) (l_clients w) (l_faults w).

Definition drop_client (w : lworld) : lworld :=
  LW (l_socks w) (l_next w) (tail (l_clients w)) (l_faults w).

(** Apply [f] to the socket [fd]: 0, or -1 when there is none or the call fails. *)
Definition on_sock (fd : Z) (f : lsock → option lsock) (w : lworld) : option (lworld * Z) :=
  let '(b, w) := pop_lfault w in
  match l_socks w !! fd with
  | Some s =>
      match (if (b : bool) then None else f s) with
      | Some s' => Some (set_socks (<[fd := s']> (l_socks w)) w, 0)
      | None => Some (w, -1)
      end
  | None => Some (w, -1)
  end.

(** A listening socket is bound to that port on that address, or one of the two
    addresses stands for all. *)
Definition claims (addr : sockaddr_in) (s : lsock) : bool :=
  so_listening s &&
  match so_addr s with
  | Some a => (sin_port a =? sin_port addr) &&
      ((sin_addr a =? sin_addr addr) || (sin_addr a =? INADDR_ANY) || (sin_addr addr =? INADDR_ANY))
  | None => false
  end.
Definition addr_taken (addr : sockaddr_in) (w : lworld) : bool :=
  bool_decide (map_Exists (λ _ s, claims addr s = true) (l_socks w)).

(** On all interfaces. *)
Definition any_addr (port : Z) : sockaddr_in := Addr INADDR_ANY port.
Definition port_taken (port : Z) (w : lworld) : bool := addr_taken (any_addr port) w.

Definition is_listening (fd : Z) (w : lworld) : bool :=
  match l_socks w !! fd with Some s => so_listening s | None => false end.

#[export] Instance listen_kernel : Kernel listenE lworld := λ X e w,
  match e in listenE X return option (lworld * X) with
  | Socket =>
      let '(b, w) := pop_lfault w in
      if (b : bool) then Some (w, -1) else Some (add_sock new_socket w, l_next w)
  | ReuseAddr fd =>
      on_sock fd (λ s, Some (LSock true (so_addr s) (so_listening s) (so_peer s)
                              (so_rcvtimeo s) (so_sndtimeo s))) w
  | Bind fd addr =>
      on_sock fd (λ s, if addr_taken addr w then None
                       else Some (LSock (so_reuseaddr s) (Some addr) (so_listening s) (so_peer s)
                                   (so_rcvtimeo s) (so_sndtimeo s))) w
  | Listen fd =>
      on_sock fd (λ s, Some (LSock (so_reuseaddr s) (so_addr s) true (so_peer s)
                              (so_rcvtimeo s) (so_sndtimeo s))) w
  | AcceptOn fd =>
      let '(b, w) := pop_lfault w in
      if (b : bool) || negb (is_listening fd w) then Some (w, -1)
      else match l_clients w with
           | [] => None
           | c :: _ => Some (add_sock (LSock false None false (Some c) 0 0) (drop_client w), l_next w)
           end
  | SetTimeout fd which secs =>
      on_sock fd (λ s, Some (LSock (so_reuseaddr s) (so_addr s) (so_listening s) (so_peer s)
                              (match which with SO_RCVTIMEO => secs | _ => so_rcvtimeo s end)
                              (match which with SO_SNDTIMEO => secs | _ => so_sndtimeo s end))) w
  | CloseSock fd => Some (set_socks (delete fd (l_socks w)) w, tt)
  end.

(** ** The functions *)

(** The result and what is left in sock->fd. *)
Definition listener_init (port : Z) : itree listenE (Z * Z) :=
  let! fd := ! Socket in
  if fd <? 0 then Ret (-1, fd)
  else
    let! r := ! (ReuseAddr fd) in
    if r <? 0 then do! ! (CloseSock fd) in Ret (-1, fd)
    else
      (* htons takes a uint16_t *)
      let addr := Addr INADDR_ANY (port mod 2 ^ 16) in
      let! r := ! (Bind fd addr) in
      if r <? 0 then do! ! (CloseSock fd) in Ret (-1, fd)
      else
        let! r := ! (Listen fd) in
        if r <? 0 then do! ! (CloseSock fd) in Ret (-1, fd)
        else Ret (0, fd).

Definition listener_accept (sock : Z) : itree listenE Z :=
  let! connfd := ! (AcceptOn sock) in
  if connfd <? 0 then Ret (-1)
  else
    let! r := ! (SetTimeout connfd SO_RCVTIMEO 5) in
    if r <? 0 then do! ! (CloseSock connfd) in Ret (-1)
    else
      let! r := ! (SetTimeout connfd SO_SNDTIMEO 5) in
      if r <? 0 then do! ! (CloseSock connfd) in Ret (-1)
      else Ret connfd.

(** ** Properties *)

(** What listener_init makes. *)
Definition bound_socket (port : Z) : lsock := LSock true (Some (any_addr port)) true None 0 0.

(** Descriptors are handed out upwards. *)
Definition lworld_ok (w : lworld) : Prop :=
  0 ≤ l_next w ∧ ∀ fd s, l_socks w !! fd = Some s → fd < l_next w.

Lemma lworld_fresh w : lworld_ok w → l_socks w !! l_next w = None.
Proof.
  intros [_ Hw]. destruct (l_socks w !! l_next w) as [s|] eqn:Hs; [|done]. apply Hw in Hs. lia.
Qed.

Lemma pop_lfault_eq w : ∃ b fl, pop_lfault w = (b, LW (l_socks w) (l_next w) (l_clients w) fl) ∧
  fl ⊆ l_faults w ∧ (length fl ≤ length (l_faults w))%nat ∧ (b = true → true ∈ l_faults w).
Proof.
  unfold pop_lfault. destruct (l_faults w) as [|b fl] eqn:H; [exists false, []|exists b, fl].
  - split; [|done]. destruct w; cbn in *; by subst.
  - split; [done|]. split_and!; [set_solver|cbn; lia|]. intros ->. by left.
Qed.

(** A call on the socket just made, failing or not. *)
Lemma wpt_on_sock {R} (e : listenE Z) fd f s m nx cl fl (t1 t2 : itree listenE R) Q :
  let w := LW (<[fd := s]> m) nx cl fl in
  sys e w = on_sock fd f w →
  (∀ fl', fl' ⊆ fl → (length fl' ≤ length fl)%nat → true ∈ fl ∨ f s = None → wpt t1 (LW (<[fd := s]> m) nx cl fl') Q) →
  (∀ s' fl', fl' ⊆ fl → (length fl' ≤ length fl)%nat → f s = Some s' → wpt t2 (LW (<[fd := s']> m) nx cl fl') Q) →
  wpt (let! r := ! e in if r <? 0 then t1 else t2) w Q.
Proof.
  intros w Hsys H1 H2. destruct (pop_lfault_eq w) as (b & fl' & Hp & Hsub & Hle & Hb).
  unfold on_sock in Hsys. rewrite Hp in Hsys. cbn in Hsys, Hsub, Hle, Hb.
  rewrite lookup_insert_eq in Hsys. apply wpt_bind.
  destruct (if b then None else f s) as [s'|] eqn:Hf.
  - eapply wpt_trigger; [exact Hsys|]. cbn. unfold set_socks. cbn. rewrite insert_insert_eq.
    apply H2; [done|done|]. by destruct b.
  - eapply wpt_trigger; [exact Hsys|]. cbn. apply H1; [done|done|]. destruct b; auto.
Qed.

Lemma wpt_close_sock {R} fd s m nx cl fl (r : R) Q : m !! fd = None → Q r (LW m nx cl fl) →
  wpt (do! ! (CloseSock fd) in Ret r) (LW (<[fd := s]> m) nx cl fl) Q.
Proof.
  intros Hm HQ. eapply wpt_bind, wpt_trigger; [done|]. apply wpt_ret. cbn. unfold set_socks. cbn.
  by rewrite delete_insert_id.
Qed.

(** A socket that does not listen takes no port. *)
Lemma port_taken_insert port fd s m nx cl fl w : so_listening s = false → l_socks w = m →
  m !! fd = None → port_taken port (LW (<[fd := s]> m) nx cl fl) = true → port_taken port w = true.
Proof.
  intros Hs <- Hm. unfold port_taken, addr_taken. cbn. rewrite !bool_decide_eq_true.
  intros (fd' & s' & Hl & Hc). apply lookup_insert_Some in Hl as [[_ <-]|[_ Hl]]; [by unfold claims in Hc; rewrite Hs in Hc|].
  by exists fd', s'.
Qed.

Lemma listener_init_wpt port w : lworld_ok w → 0 ≤ port < 2 ^ 16 →
  wpt (listener_init port) w (λ '(r, fd) w',
    (r = 0 ∧ fd = l_next w ∧ ∃ fl, (length fl ≤ length (l_faults w))%nat ∧
       w' = LW (<[fd := bound_socket port]> (l_socks w)) (l_next w + 1) (l_clients w) fl) ∨
    (r = -1 ∧ l_socks w' = l_socks w ∧ (true ∈ l_faults w ∨ port_taken port w = true))).
Proof.
  intros Hok Hp. pose proof (lworld_fresh w Hok) as Hfresh. destruct Hok as [Hn _].
  unfold listener_init. rewrite Z.mod_small by done. apply wpt_bind.
  destruct (pop_lfault_eq w) as (b & fl & Hpop & Hsub & Hle & Hb). destruct b.
  { eapply wpt_trigger; [cbn; by rewrite Hpop|]. cbn. apply wpt_ret. right. auto. }
  eapply wpt_trigger; [cbn; by rewrite Hpop|]. cbn. unfold add_sock. cbn.
  destruct (Z.ltb_spec (l_next w) 0); [lia|].
  eapply wpt_on_sock; [done| |intros s1 fl1 Hsub1 Hle1 [= <-]].
  { intros fl' _ _ [Hf|[=]]. apply wpt_close_sock; [done|]. right. split_and!; [done|done|auto]. }
  eapply wpt_on_sock; [done| |intros s2 fl2 Hsub2 Hle2 Hs2].
  { intros fl' _ _ Hf. apply wpt_close_sock; [done|]. right. split_and!; [done|done|].
    destruct Hf as [Hf|Hf]; [left; auto|right]. case_match eqn:Ht; [|done].
    eapply port_taken_insert, Ht; done. }
  case_match; [done|]. injection Hs2 as <-.
  eapply wpt_on_sock; [done| |intros s3 fl3 _ Hle3 [= <-]].
  { intros fl' _ _ [Hf|[=]]. apply wpt_close_sock; [done|]. right. split_and!; [done|done|left; auto]. }
  apply wpt_ret. left. split_and!; [done|done|]. exists fl3. split; [lia|done].
Qed.

(** C24. listener_init, whatever calls fail: it returns 0 with a new socket that
    has SO_REUSEADDR set, is bound to the port on all interfaces and listens,
    and touches no other socket; or it returns -1, leaves open no socket that
    was not open before, and a call failed or the port was taken. *)
Theorem listener_init_spec port w : lworld_ok w → 0 ≤ port < 2 ^ 16 →
  wpt (listener_init port) w (λ '(r, fd) w',
    (r = 0 ∧ fd = l_next w ∧
     l_socks w' = <[fd := bound_socket port]> (l_socks w)) ∨
    (r = -1 ∧ l_socks w' = l_socks w ∧ (true ∈ l_faults w ∨ port_taken port w = true))).
Proof.
  intros Hok Hp. eapply wpt_conseq; [by apply listener_init_wpt|].
  intros [r fd] w' [(-> & -> & fl & _ & ->)|?]; [by left|by right].
Qed.

(** How listener_accept may go, once a client connects or a call fails: the
    client is taken and its socket is new and has its timeouts, or the call ends
    with -1 and no new socket. *)
Definition accept_outcome (w : lworld) (fd : Z) (w' : lworld) : Prop :=
  (∃ c cs fl, l_clients w = c :: cs ∧ fl ⊆ l_faults w ∧ (length fl ≤ length (l_faults w))%nat ∧
     ((fd = l_next w ∧ w' = LW (<[fd := LSock false None false (Some c) 5 5]> (l_socks w)) (l_next w + 1) cs fl) ∨
      (fd = -1 ∧ true ∈ l_faults w ∧ w' = LW (l_socks w) (l_next w + 1) cs fl))) ∨
  (fd = -1 ∧ ∃ fl, l_faults w = true :: fl ∧ w' = LW (l_socks w) (l_next w) (l_clients w) fl).

Lemma listener_accept_wpt sock w : lworld_ok w → is_listening sock w = true →
  l_clients w ≠ [] ∨ head (l_faults w) = Some true → wpt (listener_accept sock) w (accept_outcome w).
Proof.
  intros Hok Hl Hc. pose proof (lworld_fresh w Hok) as Hfresh. destruct Hok as [Hn _].
  unfold listener_accept. apply wpt_bind.
  assert (Hpop : (∃ fl, l_faults w = true :: fl ∧ pop_lfault w = (true, LW (l_socks w) (l_next w) (l_clients w) fl)) ∨
    ∃ fl c cs, l_clients w = c :: cs ∧ fl ⊆ l_faults w ∧ (length fl ≤ length (l_faults w))%nat ∧
      pop_lfault w = (false, LW (l_socks w) (l_next w) (l_clients w) fl)).
  { assert (Hcl : head (l_faults w) ≠ Some true → ∃ c cs, l_clients w = c :: cs).
    { intros Hh. destruct (l_clients w) as [|c cs]; [by destruct Hc|eauto]. }
    destruct (pop_lfault_eq w) as (b & fl & Hpop & Hsub & Hle & _). revert Hpop. unfold pop_lfault in *.
    destruct (l_faults w) as [|[] fl'] eqn:Hf; intros Hpop; [right|left; by eexists|right];
      destruct (Hcl ltac:(done)) as (c & cs & Hcs); exists fl, c, cs; (split_and!; [done..|]);
      by destruct b; [discriminate Hpop|]. }
  destruct Hpop as [(fl & Hf & Hpop)|(fl & c & cs & Hcl & Hsub & Hle & Hpop)].
  { eapply wpt_trigger; [cbn; by rewrite Hpop|]. cbn. apply wpt_ret. right. eauto. }
  eapply wpt_trigger.
  { cbn. rewrite Hpop. unfold is_listening in *. cbn. rewrite Hl. cbn. by rewrite Hcl. }
  cbn. unfold add_sock, drop_client. cbn. destruct (Z.ltb_spec (l_next w) 0); [lia|].
  assert (Hbad : ∀ fl', true ∈ l_faults w → fl' ⊆ l_faults w → (length fl' ≤ length (l_faults w))%nat →
    accept_outcome w (-1) (LW (l_socks w) (l_next w + 1) cs fl')).
  { intros fl' ? ? ?. left. exists c, cs, fl'. split_and!; auto. }
  eapply wpt_on_sock; [done| |intros s1 fl1 Hsub1 Hle1 [= <-]].
  { intros fl' Hs' Hl' [Hf|[=]]. apply wpt_close_sock; [done|]. apply Hbad; [auto|set_solver|lia]. }
  eapply wpt_on_sock; [done| |intros s2 fl2 Hsub2 Hle2 [= <-]].
  { intros fl' Hs' Hl' [Hf|[=]]. apply wpt_close_sock; [done|]. apply Hbad; [auto|set_solver|lia]. }
  apply wpt_ret. left. exists c, cs, fl2. split_and!; [done|set_solver|lia|]. by left.
Qed.

(** C25. listener_accept, whatever calls fail, on a listening socket once a client
    connects: it returns a descriptor that is a new socket to that client with a
    timeout of 5 seconds in both directions; or it returns -1, leaves no new
    socket open, and a call failed. *)
Theorem listener_accept_spec sock w c cs : lworld_ok w → is_listening sock w = true → l_clients w = c :: cs →
  wpt (listener_accept sock) w (λ fd w',
    (fd = l_next w ∧ 0 ≤ fd ∧ l_socks w' = <[fd := LSock false None false (Some c) 5 5]> (l_socks w)) ∨
    (fd = -1 ∧ l_socks w' = l_socks w ∧ true ∈ l_faults w)).
Proof.
  intros Hok Hl Hc. eapply wpt_conseq; [apply listener_accept_wpt; [done|done|left; by rewrite Hc]|].
  destruct Hok as [Hn _]. intros fd w' [(c' & cs' & fl & Hc' & _ & _ & [[-> ->]|(-> & Hf & ->)])|(-> & fl & Hf & ->)].
  - rewrite Hc in Hc'. injection Hc' as <- <-. by left.
  - by right.
  - right. split_and!; [done|done|]. rewrite Hf. left.
Qed.

(** A process with its standard streams closed, and one client coming. *)
Definition demo_lworld (fl : list bool) : lworld := LW ∅ 0 [7%nat] fl.
(** ... once it listens. *)
Definition demo_listening (fl : list bool) : lworld := LW {[0 := bound_socket 8080]} 1 [7%nat] fl.

Lemma demo_lworld_ok fl : lworld_ok (demo_lworld fl).
Proof. split; [done|]. intros fd s H. cbn in H. by rewrite lookup_empty in H. Qed.

Lemma listener_init_spec_witness :
  (∃ r w', run 10 (listener_init 8080) (demo_lworld []) = Some (r, w') ∧ r = (0, 0)) ∧
  wpt (listener_init 8080) (demo_lworld [false; true]) (λ '(r, fd) w',
    (r = 0 ∧ fd = 0 ∧ l_socks w' = <[fd := bound_socket 8080]> ∅) ∨
    (r = -1 ∧ l_socks w' = ∅ ∧
     (true ∈ [false; true] ∨ port_taken 8080 (demo_lworld [false; true]) = true))).
Proof.
  split; [eexists _, _; split; [vm_compute; reflexivity|done]|].
  apply (listener_init_spec 8080 (demo_lworld [false; true])); [apply demo_lworld_ok|lia].
Defined.

Lemma demo_listening_ok fl : lworld_ok (demo_listening fl).
Proof. split; [done|]. intros fd s H. cbn in H. apply lookup_singleton_Some in H as [<- _]. done. Qed.

Lemma listener_accept_spec_witness :
  (∃ w', run 10 (listener_accept 0) (demo_listening []) = Some (1, w')) ∧
  wpt (listener_accept 0) (demo_listening [false; true]) (λ fd w',
    (fd = 1 ∧ 0 ≤ fd ∧ l_socks w' = <[fd := LSock false None false (Some 7%nat) 5 5]> (l_socks (demo_listening []))) ∨
    (fd = -1 ∧ l_socks w' = l_socks (demo_listening []) ∧ true ∈ [false; true])).
Proof.
  split; [eexists; vm_compute; reflexivity|].
  apply (listener_accept_spec 0 (demo_listening [false; true]) 7 []); [apply demo_listening_ok|by vm_compute|done].
Defined.
