(* ===== verification/IoEvents.v ===== *)
(** * The events of the IO routines (src/util.c, src/connection.c)

    Which system calls write_all, pass_bytes, read_until, and the connection
    functions built on them, can make: the bounds by which a proof about all
    interleavings knows what they leave alone. *)
From S2P Require Import Prelude Libc Http Prog Pools Posix Util Connection.
Local Open Scope Z_scope.
Local Open Scope prog_scope.

Section events.
Context (P : ∀ X, sysE X → Prop).

(** The trees are sequences, loops and branches of events in [P]. *)
Ltac events := repeat first
  [ apply does_bind; [|intros ?] | apply does_trigger; auto | apply does_ret
  | apply does_iter; intros ? ? | case_match ].

Lemma does_write_all n fd buf k : (∀ d, P _ (Write fd d)) → does P n (write_all fd buf k).
Proof. intros HP. unfold write_all. events. Qed.

Lemma does_read_retry n fd k : (∀ m, P _ (Read fd m)) → does P n (read_retry fd k).
Proof. intros HP. unfold read_retry. events. Qed.

Lemma does_pass_bytes n a b k : (∀ m, P _ (Read a m)) → (∀ d, P _ (Write b d)) →
  does P n (pass_bytes a b k).
Proof.
  intros Ha Hb. unfold pass_bytes. apply does_iter. intros m tot. case_match; [|apply does_ret].
  apply does_bind; [by apply does_read_retry|]. intros [[|c d]|e]; [apply does_ret| |apply does_ret].
  apply does_bind; [by apply does_write_all|]. intros [|]; apply does_ret.
Qed.

Lemma does_read_until n fd buf k s : (∀ m, P _ (Read fd m)) → does P n (read_until fd buf k s).
Proof.
  intros Hr. unfold read_until. apply does_iter. intros m [tot b]. case_match; [|apply does_ret].
  apply does_bind; [by apply does_read_retry|]. intros [[|c d]|e]; [apply does_ret| |apply does_ret].
  case_match; apply does_ret.
Qed.

Lemma does_compile n r : P _ Alloc → does P n (compile r).
Proof. intros HP. unfold compile. events. Qed.

Lemma does_conn_parse n conn : P _ Alloc → (∀ m, P _ (Read (connfd conn) m)) → does P n (conn_parse conn).
Proof.
  intros HA Hr. unfold conn_parse. apply does_bind; [by apply does_read_until|]. intros [r buf].
  unfold process_request, parse_headers.
  repeat first [ by apply does_compile | apply does_bind; [|intros ?] | apply does_ret | case_match ].
Qed.

Lemma does_send_response n conn res : (∀ d, P _ (Write (connfd conn) d)) →
  does P n (conn_send_response conn res).
Proof.
  intros HP. unfold conn_send_response. case_match. apply does_bind; [by apply does_write_all|].
  intros [|]; apply does_ret.
Qed.

Lemma does_send_file n conn fd k : (∀ d, P _ (Write (connfd conn) d)) → (∀ m, P _ (Read fd m)) →
  does P n (conn_send_file conn fd k).
Proof.
  intros Hw Hr. unfold conn_send_file. case_match. apply does_bind; [by apply does_write_all|].
  intros [|]; [|apply does_ret]. case_match; [|apply does_ret].
  apply does_bind; [by apply does_pass_bytes|]. intros [|]; apply does_ret.
Qed.

Lemma does_recv_file n conn fd : (∀ m, P _ (Read (connfd conn) m)) → (∀ d, P _ (Write fd d)) →
  does P n (conn_recv_file conn fd).
Proof.
  intros Hr Hw. unfold conn_recv_file. repeat first
    [ by apply does_write_all | by apply does_pass_bytes | apply does_bind; [|intros ?]
    | apply does_ret | case_match ].
Qed.
End events.
