(* ===== verification/AuditLog.v ===== *)
(** * The audit log under concurrency (src/log.c with src/httpserver.c)

    Any number of connections handled at the same time, in every interleaving
    of their system calls: lines of the log are never mixed, a connection leaves
    at most one, and a line is in the file before the call that writes it
    returns; it is torn only when a call on the stream fails. *)
From S2P Require Import Prelude Libc Http Prog Pools Posix Util Demo Connection IoEvents Log Server Parsing.
From S2P Require Import Serve.
Local Open Scope Z_scope.
Local Open Scope prog_scope.

(** What the trace records: the lines printed. *)
#[export] Instance sys_labelled : Labelled sysE bytes := λ X e,
  match e in sysE X return X → list bytes with
  | Fprintf text => λ _, [text]
  | _ => λ _, []
  end.

Abbreviation log_trace := (list (nat * bytes)).

(** ** Ghost state: where a thread is in log_audit, and whether it has printed *)

Inductive log_stage := LIdle | LHeld | LPrinted (text : bytes).
Abbreviation log_ghost := (log_stage * bool)%type.

#[export] Instance log_stage_eq_dec : EqDecision log_stage.
Proof. solve_decision. Defined.

(** The one line that may be printed and not yet in the file. *)
Definition pending (gs : list log_ghost) (pend : log_trace) : Prop :=
  (pend = [] ∧ ∀ i t b, gs !! i ≠ Some (LPrinted t, b)) ∨
  (∃ i t b, pend = [(i, t)] ∧ gs !! i = Some (LPrinted t, b)).

Definition is_audit_line (text : bytes) : Prop :=
  ∃ oper uri status rid, text = audit_line oper uri status rid.

(** What is in the file and in the buffer of the lines that were written and of
    the one that is pending: all of them if no call fails ([clean]). *)
Definition log_holds (clean : Prop) (out0 : bytes) (done pend : log_trace) (w : world) : Prop :=
  ∃ pieces, w_log_out w = out0 ++ concat pieces ∧ Forall2 prefix pieces done.*2 ∧
    w_log_buf w `prefix_of` concat pend.*2 ∧
    (clean → pieces = done.*2 ∧ w_log_buf w = concat pend.*2 ∧ w_log_faults w = []).

Record linv (clean : Prop) (out0 : bytes) (tr : log_trace) (gs : list log_ghost) (w : world) : Prop := {
  li_stream : w_log_stream w ≠ SNull;
  li_mu : ∀ i s b, gs !! i = Some (s, b) → s ≠ LIdle → w_log_mu w = true;
  li_one : ∀ i j s s' b b', gs !! i = Some (s, b) → gs !! j = Some (s', b') →
    s ≠ LIdle → s' ≠ LIdle → i = j;
  li_out : ∃ done pend, tr = done ++ pend ∧ pending gs pend ∧ log_holds clean out0 done pend w;
  li_once : NoDup (tr.*1);
  li_fresh : ∀ i s, gs !! i = Some (s, false) → i ∉ tr.*1;
  li_lines : Forall is_audit_line (tr.*2)
}.

Definition log_event X (e : sysE X) : Prop :=
  match e with
  | LogLock | LogUnlock | GetLogStream | SetLogStream _ | Fprintf _ | Fflush | Fclose => True
  | _ => False
  end.
Definition nonlog X (e : sysE X) : Prop := ¬ log_event X e.

Definition same_log (w w' : world) : Prop :=
  w_log_stream w' = w_log_stream w ∧ w_log_mu w' = w_log_mu w ∧
  w_log_buf w' = w_log_buf w ∧ w_log_out w' = w_log_out w ∧ w_log_faults w' = w_log_faults w.

(** Only log events touch the log. *)
Ltac same_log_tac :=
  repeat match goal with
  | H : context [pop_fault ?v] |- _ =>
      let f := fresh "f" in let v' := fresh "v" in let Hp := fresh "Hp" in
      destruct (pop_fault v) as [f v'] eqn:Hp; apply pop_fault_spec in Hp as (? & -> & _)
  | _ => progress case_match
  | _ => progress simplify_eq/=
  end; try done.

Lemma nonlog_same X (e : sysE X) (w w' : world) x : nonlog X e → sys e w = Some (w', x) →
  same_log w w' ∧ lab e x = [].
Proof.
  intros He Hs. destruct e; try (by destruct He); clear He; (split; [|done]);
    change (sys ?e w) with (posix _ e w) in Hs; unfold posix in Hs;
    unfold sys_open, sys_close, sys_read, sys_write, sys_fstat, sys_ftruncate, sys_flock, sys_mkdir,
      sys_lstat, sys_stat_cwd, sys_alloc, call_access, faulty, do_open, new_fd, do_fstat, do_ftruncate, do_mkdir, do_lstat in Hs;
    same_log_tac.
Qed.

(** ** Steps *)

Section steps.
Context (clean : Prop) (out0 : bytes).

(** The next ghost state of thread [i] where nobody else is in log_audit. *)
Lemma pending_insert gs pend i s b s' b' : pending gs pend → gs !! i = Some (s, b) →
  (∀ t, s ≠ LPrinted t) → (∀ t, s' ≠ LPrinted t) → pending (<[i := (s', b')]> gs) pend.
Proof.
  intros [[-> Hno]|(j & t & c & -> & Hj)] Hi Hs Hs'.
  - left. split; [done|]. intros j t c. rewrite list_lookup_insert. case_decide; [|apply Hno].
    intros [= -> _]. by eapply Hs'.
  - right. exists j, t, c. split; [done|]. rewrite list_lookup_insert_ne; [done|].
    intros ->. rewrite Hj in Hi. simplify_eq. by eapply Hs.
Qed.

Lemma lookup_update {A} (l : list A) i j x y : <[i := x]> l !! j = Some y →
  (i = j ∧ y = x) ∨ (i ≠ j ∧ l !! j = Some y).
Proof.
  rewrite list_lookup_insert. case_decide as Hc; [intros [= <-]; left; by destruct Hc|].
  intros Hj. destruct (decide (i = j)) as [->|]; [|by right].
  exfalso. apply Hc. split; [done|]. by eapply lookup_lt_Some.
Qed.

(** A step that prints nothing. *)
Lemma linv_silent tr gs w w' i s b s' : linv clean out0 tr gs w → gs !! i = Some (s, b) →
  (∀ t, s ≠ LPrinted t) → (∀ t, s' ≠ LPrinted t) →
  w_log_stream w' = w_log_stream w → w_log_buf w' = w_log_buf w → w_log_out w' = w_log_out w →
  w_log_faults w' = w_log_faults w → (s' ≠ LIdle → s ≠ LIdle ∨ w_log_mu w = false) → (s' ≠ LIdle → w_log_mu w' = true) →
  (w_log_mu w' = w_log_mu w ∨ s ≠ LIdle ∨ w_log_mu w = false) →
  linv clean out0 (tr ++ map (pair i) []) (<[i := (s', b)]> gs) w'.
Proof.
  intros [H1 H2 H3 (dn & pend & H4 & Hp & Hh) H5 H6 H7] Hi Hs Hs' E1 E2 E3 E4 Hm Hm' Hmu.
  assert (Hother : ∀ j s1 b1, j ≠ i → gs !! j = Some (s1, b1) → s1 ≠ LIdle → s = LIdle ∧ w_log_mu w = true).
  { intros j s1 b1 Hj Hg Hne. split; [|by eapply H2]. destruct (decide (s = LIdle)) as [|Hsne]; [done|].
    exfalso. apply Hj. by eapply H3. }
  cbn. rewrite app_nil_r. split; rewrite ?E1; try done.
  - intros j s1 b1 [[-> [= -> ->]]|[Hne Hg]]%lookup_update; [done|]. intros Hs1.
    destruct (Hother j s1 b1) as [-> Hmt]; [done..|]. destruct Hmu as [->|[?|?]]; [done|done|congruence].
  - intros j k s1 s2 b1 b2 Hj Hk Hn1 Hn2.
    apply lookup_update in Hj as [[-> [= -> ->]]|[Hne Hj]]; apply lookup_update in Hk as [[-> [= -> ->]]|[Hne' Hk]].
    + done.
    + destruct (Hother k s2 b2) as [-> Hmt]; [done..|]. destruct (Hm Hn1) as [?|?]; [done|congruence].
    + destruct (Hother j s1 b1) as [-> Hmt]; [done..|]. destruct (Hm Hn2) as [?|?]; [done|congruence].
    + by eapply H3.
  - exists dn, pend. split_and!; [done|by eapply pending_insert|]. unfold log_holds. by rewrite E2, E3, E4.
  - intros j s1 [[<- [= -> <-]]|[Hne Hg]]%lookup_update; by eapply H6.
Qed.

(** The roles after the one thread in log_audit moves on inside it. *)
Lemma busy_step tr gs w i s b s' b' : linv clean out0 tr gs w → gs !! i = Some (s, b) → s ≠ LIdle →
  (∀ j s1 b1, <[i := (s', b')]> gs !! j = Some (s1, b1) → s1 ≠ LIdle → w_log_mu w = true) ∧
  (∀ j k s1 s2 b1 b2, <[i := (s', b')]> gs !! j = Some (s1, b1) →
     <[i := (s', b')]> gs !! k = Some (s2, b2) → s1 ≠ LIdle → s2 ≠ LIdle → j = k) ∧
  (∀ j s1 b1, i ≠ j → gs !! j = Some (s1, b1) → s1 = LIdle).
Proof.
  intros HI Hi Hs. pose proof (li_mu _ _ _ _ _ HI _ _ _ Hi Hs) as Hmu.
  assert (Ho : ∀ j s1 b1, i ≠ j → gs !! j = Some (s1, b1) → s1 = LIdle).
  { intros j s1 b1 Hne Hj. destruct (decide (s1 = LIdle)) as [|Hn]; [done|].
    destruct Hne. by eapply (li_one _ _ _ _ _ HI). }
  split_and!; [done| |done]. intros j k s1 s2 b1 b2 Hj Hk H1 H2.
  apply lookup_update in Hj as [[<- _]|[Hne Hj]]; apply lookup_update in Hk as [[<- _]|[Hne' Hk]]; try done.
  - destruct H2. by apply (Ho k s2 b2).
  - destruct H1. by apply (Ho j s1 b1).
  - destruct H1. by apply (Ho j s1 b1).
Qed.

(** Nothing is pending when a thread is about to print, and its line is when it
    is about to flush. *)
Lemma pending_held gs pend i s b : pending gs pend → gs !! i = Some (s, b) →
  (∀ j s1 b1, i ≠ j → gs !! j = Some (s1, b1) → s1 = LIdle) →
  pend = match s with LPrinted t => [(i, t)] | _ => [] end.
Proof.
  intros Hp Hi Ho. destruct Hp as [[-> Hno]|(j & t & c & -> & Hj)].
  - destruct s; [done|done|]. by apply Hno in Hi.
  - destruct (decide (i = j)) as [<-|Hne]; [rewrite Hj in Hi; by simplify_eq|]. by specialize (Ho _ _ _ Hne Hj).
Qed.

Lemma log_part_prefix f text : log_part f text `prefix_of` text.
Proof. destruct f as [|k|e]; cbn; [done| |apply prefix_nil]. exists (drop k text). by rewrite take_drop. Qed.

(** A call on the stream. *)
Lemma pop_log_cases w : ∃ f fl, pop_log_fault w = (f, set_log_faults fl w) ∧
  (w_log_faults w = [] → f = FNone ∧ fl = []).
Proof.
  unfold pop_log_fault. destruct (w_log_faults w) as [|f fl] eqn:Hf; [|by exists f, fl].
  exists FNone, []. split; [|done]. rewrite <- Hf. by destruct w.
Qed.

Lemma linv_print tr gs w i text : linv clean out0 tr gs w → gs !! i = Some (LHeld, false) →
  is_audit_line text →
  linv clean out0 (tr ++ map (pair i) [text]) (<[i := (LPrinted text, true)]> gs) (print_log text w).
Proof.
  intros HI Hi Htext. destruct (busy_step tr gs w i LHeld false (LPrinted text) true HI Hi) as (B1 & B2 & B3);
    [done|]. destruct HI as [H1 H2 H3 (dn & pend & -> & Hp & Hh) H5 H6 H7].
  rewrite (pending_held _ _ _ _ _ Hp Hi B3) in *. destruct Hh as (pieces & Ho & Hpc & Hb & Hcl).
  apply prefix_nil_inv in Hb. rewrite app_nil_r in *.
  unfold print_log. destruct (pop_log_cases w) as (f & fl & -> & Hf). split; try done.
  - exists dn, [(i, text)]. split_and!; [done| |].
    + right. exists i, text, true. split; [done|]. apply list_lookup_insert_eq. by eapply lookup_lt_Some.
    + exists pieces. cbn. rewrite Hb, app_nil_r. cbn. split_and!; [done|done|apply log_part_prefix|].
      intros Hc. destruct (Hcl Hc) as (-> & _ & Hfl). by destruct (Hf Hfl) as [-> ->].
  - rewrite fmap_app. apply NoDup_app. split_and!; [done| |apply NoDup_singleton].
    intros j Hj Hj'%list_elem_of_singleton. cbn in Hj'. subst j. by eapply H6 in Hi.
  - intros j s1 [[-> [=]]|[Hne Hg]]%lookup_update. rewrite fmap_app. intros [Hj|Hj]%elem_of_app.
    + by eapply H6.
    + apply list_elem_of_singleton in Hj. by subst.
  - rewrite fmap_app. apply Forall_app. split; [done|]. by repeat constructor.
Qed.

Lemma linv_flush tr gs w i text b : linv clean out0 tr gs w → gs !! i = Some (LPrinted text, b) →
  linv clean out0 (tr ++ map (pair i) []) (<[i := (LHeld, b)]> gs) (flush_log w).
Proof.
  intros HI Hi. destruct (busy_step tr gs w i _ b LHeld b HI Hi) as (B1 & B2 & B3); [done|].
  destruct HI as [H1 H2 H3 (dn & pend & -> & Hp & Hh) H5 H6 H7].
  rewrite (pending_held _ _ _ _ _ Hp Hi B3) in *. destruct Hh as (pieces & Ho & Hpc & Hb & Hcl).
  cbn in Hb. rewrite app_nil_r in Hb. cbn [map]. rewrite app_nil_r.
  unfold flush_log. destruct (pop_log_cases w) as (f & fl & -> & Hf). split; try done.
  - exists (dn ++ [(i, text)]), []. split_and!; [by rewrite app_nil_r| |].
    + left. split; [done|]. intros j t c [[-> [=]]|[Hne Hg]]%lookup_update. by specialize (B3 _ _ _ Hne Hg).
    + exists (pieces ++ [log_part f (w_log_buf w)]). cbn. rewrite fmap_app. split_and!; [| |done|].
      * by rewrite Ho, concat_app, app_assoc; cbn; rewrite app_nil_r.
      * apply Forall2_app; [done|]. repeat constructor. etrans; [apply log_part_prefix|exact Hb].
      * intros Hc. destruct (Hcl Hc) as (-> & Hbf & Hfl). destruct (Hf Hfl) as [-> ->].
        split_and!; [|done|done]. cbn. rewrite Hbf. cbn. by rewrite app_nil_r.
  - intros j s1 [[<- [= -> <-]]|[Hne Hg]]%lookup_update; by eapply H6.
Qed.

(** ** The code *)

Definition lat X (_ : log_ghost) (_ : sysE X) : Prop := True.

Lemma ok_nonlog {R} n (t : itree sysE R) b (Q : R → log_ghost → Prop) :
  does nonlog n t → (∀ r, Q r (LIdle, b)) → ok (linv clean out0) lat n t (LIdle, b) Q.
Proof.
  intros Hd HQ. revert t Hd. induction n as [|n IH]; intros t; [done|]. cbn.
  destruct (observe t) as [r|t'|X e k]; [done|by auto|]. intros [He Hd]. split; [done|].
  intros tr gs w w' x i Hi HI Hs. destruct (nonlog_same _ _ _ _ _ He Hs) as ((E1 & E2 & E3 & E4 & E5) & ->).
  exists (LIdle, b). split; [|by apply IH, Hd]. eapply linv_silent; try done. by left.
Qed.

(** The events inside the critical section of log_audit. *)
Lemma ok_log_lock n b (Q : unit → log_ghost → Prop) : Q tt (LHeld, b) →
  ok (linv clean out0) lat n (perform LogLock) (LIdle, b) Q.
Proof.
  intros HQ. apply ok_trigger; [done|]. intros tr gs w w' [] i Hi HI Hs. cbn in Hs.
  destruct (w_log_mu w) eqn:Hmu; [done|]. simplify_eq. exists (LHeld, b).
  split; [eapply linv_silent; try done; auto|done].
Qed.

Lemma ok_log_stream n b (Q : stream → log_ghost → Prop) : (∀ s, s ≠ SNull → Q s (LHeld, b)) →
  ok (linv clean out0) lat n (perform GetLogStream) (LHeld, b) Q.
Proof.
  intros HQ. apply ok_trigger; [done|]. intros tr gs w w' s i Hi HI Hs. cbn in Hs.
  injection Hs as Hw Hs. subst w' s. exists (LHeld, b). split; [|by apply HQ; eapply li_stream].
  eapply linv_silent; try done; auto. intros _. by eapply (li_mu _ _ _ _ _ HI).
Qed.

Lemma ok_log_print n text (Q : unit → log_ghost → Prop) : is_audit_line text →
  Q tt (LPrinted text, true) → ok (linv clean out0) lat n (perform (Fprintf text)) (LHeld, false) Q.
Proof.
  intros Ht HQ. apply ok_trigger; [done|]. intros tr gs w w' [] i Hi HI Hs. cbn in Hs. simplify_eq.
  exists (LPrinted text, true). split; [by apply linv_print|done].
Qed.

Lemma ok_log_flush n text b (Q : unit → log_ghost → Prop) : Q tt (LHeld, b) →
  ok (linv clean out0) lat n (perform Fflush) (LPrinted text, b) Q.
Proof.
  intros HQ. apply ok_trigger; [done|]. intros tr gs w w' [] i Hi HI Hs. cbn in Hs. simplify_eq.
  exists (LHeld, b). split; [by eapply linv_flush|done].
Qed.

Lemma ok_log_unlock n b (Q : unit → log_ghost → Prop) : Q tt (LIdle, b) →
  ok (linv clean out0) lat n (perform LogUnlock) (LHeld, b) Q.
Proof.
  intros HQ. apply ok_trigger; [done|]. intros tr gs w w' [] i Hi HI Hs. cbn in Hs. simplify_eq.
  exists (LIdle, b). split; [|done]. eapply linv_silent; try done; auto.
Qed.

Lemma ok_log_audit n oper uri status rid (Q : unit → log_ghost → Prop) :
  Q tt (LIdle, true) → ok (linv clean out0) lat n (log_audit oper uri status rid) (LIdle, false) Q.
Proof.
  intros HQ. unfold log_audit. apply ok_bind, ok_log_lock, ok_bind, ok_log_stream. intros s Hs.
  assert (Hline : is_audit_line (audit_line oper uri status rid)) by (by eexists _, _, _, _).
  destruct s; [done|..]; by apply ok_bind, ok_bind, ok_log_print, ok_log_flush, ok_log_unlock.
Qed.

(** *** The handlers *)

Ltac nonlog_tac := repeat first
  [ apply does_bind; [|intros ?] | apply does_trigger; intros [] | apply does_ret
  | apply does_iter; intros ? ? | case_match ].

Lemma nonlog_uri_lock n dir uri op : does nonlog n (uri_lock dir uri op).
Proof. unfold uri_lock, flock_retry. nonlog_tac. Qed.
Lemma nonlog_uri_unlock n l : does nonlog n (uri_unlock l).
Proof. unfold uri_unlock. nonlog_tac. Qed.

(** What a handler leaves: the thread is out of the log. *)
Definition logged (_ : unit) (g : log_ghost) : Prop := g.1 = LIdle.

Lemma ok_respond n conn res (Q : unit → log_ghost → Prop) : Q tt (LIdle, true) →
  ok (linv clean out0) lat n (respond conn res) (LIdle, false) Q.
Proof.
  intros HQ. unfold respond. apply ok_bind, ok_nonlog; [apply does_send_response; by intros ? []|intros _].
  by apply ok_log_audit.
Qed.

Ltac nolog_lemma := first [ apply nonlog_uri_lock | apply nonlog_uri_unlock
  | apply does_recv_file; by intros ? [] | apply does_send_file; by intros ? []
  | apply does_conn_parse; [by intros []|by intros ? []] | apply does_trigger; by intros [] ].

(** One statement: an answer with its line, a call that does not log, or a branch. *)
Ltac handler_step := first
  [ apply ok_bind, ok_respond | apply ok_respond | apply ok_bind, ok_log_audit
  | apply ok_bind, ok_nonlog; [nolog_lemma|intros ?] | apply ok_nonlog; [nolog_lemma|intros ?; done]
  | case_match | done ].

Lemma ok_handle_get n dir conn : ok (linv clean out0) lat n (handle_get dir conn) (LIdle, false) logged.
Proof. unfold handle_get. repeat handler_step. Qed.

Lemma ok_handle_put n dir conn : ok (linv clean out0) lat n (handle_put dir conn) (LIdle, false) logged.
Proof. unfold handle_put. repeat handler_step. Qed.

Lemma ok_handle_connection n dir fd :
  ok (linv clean out0) lat n (handle_connection dir fd) (LIdle, false) logged.
Proof.
  unfold handle_connection.
  apply ok_bind, ok_nonlog; [unfold conn_new; nonlog_tac|intros [conn|]]; [|repeat handler_step].
  apply ok_bind, ok_nonlog; [nolog_lemma|intros [conn' [res|]]]; [repeat handler_step|].
  apply ok_bind. apply (ok_conseq _ _ _ _ _ logged).
  - destruct (conn_get_request conn'); [apply ok_handle_get|apply ok_handle_put|].
    unfold handle_unsupported. by apply ok_respond.
  - intros [] [s b]. cbn. intros ->. repeat handler_step.
Qed.
End steps.

(** ** Any connections at once *)

Definition thread_returned (t : itree sysE unit) : bool :=
  match observe t with RetF _ => true | _ => false end.

Lemma linv_start w k : w_log_stream w ≠ SNull → w_log_buf w = [] →
  linv (w_log_faults w = []) (w_log_out w) [] (replicate k (LIdle, false)) w.
Proof.
  intros Hs Hbuf. split.
  - exact Hs.
  - by intros i s b [[= -> ->] _]%lookup_replicate.
  - by intros i j s s' b b' [[= -> ->] _]%lookup_replicate.
  - exists [], []. split_and!; [done| |].
    + left. split; [done|]. by intros i t b [[=] _]%lookup_replicate.
    + exists []. rewrite Hbuf. split_and!; [by rewrite app_nil_r|constructor|done|done].
  - apply NoDup_nil_2.
  - intros i s _. apply not_elem_of_nil.
  - constructor.
Qed.

Lemma audit_log_runs dir fds w q :
  w_log_stream w ≠ SNull → w_log_buf w = [] →
  reachable (Pool (map (handle_connection dir) fds) w []) q → let I := linv (w_log_faults w = []) (w_log_out w) in
  ∃ gs, I (pool_trace q) gs (pool_world q) ∧ Forall2 (λ t g, ok I lat 1 t g logged) (pool_threads q) gs.
Proof.
  intros Hs Hbuf Hr I.
  apply (pool_sound I lat logged _ q (replicate (length fds) (LIdle, false)) Hr); cbn.
  - by apply linv_start.
  - intros n. clear. induction fds as [|fd fds IH]; cbn; constructor; [apply ok_handle_connection|done].
Qed.

(** A thread that returned has no line left to write. *)
Lemma returned_idle clean out0 t g : ok (linv clean out0) lat 1 t g logged → thread_returned t = true → g.1 = LIdle.
Proof. unfold thread_returned. cbn. by destruct (observe t). Qed.

(** The file [out] of a world [w] that had lines [written] added: all of each, or
    a first part where a call on the stream failed. *)
Definition file_holds (w : world) (out : bytes) (written : list bytes) : Prop :=
  ∃ pieces, out = w_log_out w ++ concat pieces ∧ Forall2 prefix pieces written ∧
    (w_log_faults w = [] → pieces = written).

Lemma audit_lines_whole dir fds w q :
  w_log_stream w ≠ SNull → w_log_buf w = [] →
  reachable (Pool (map (handle_connection dir) fds) w []) q →
  ∃ written unwritten, pool_trace q = written ++ unwritten ∧
    file_holds w (w_log_out (pool_world q)) written.*2 ∧
    (length unwritten ≤ 1)%nat ∧
    NoDup ((pool_trace q).*1) ∧ Forall is_audit_line ((pool_trace q).*2) ∧
    (∀ i t, pool_threads q !! i = Some t → thread_returned t = true → i ∉ unwritten.*1).
Proof.
  intros Hs Hbuf Hr.
  destruct (audit_log_runs dir fds w q Hs Hbuf Hr) as (gs & HI & Hok).
  destruct HI as [_ _ _ (dn & pend & Htr & Hp & (pieces & Ho & Hpc & _ & Hcl)) H5 _ H7]. exists dn, pend. split_and!; try done.
  - exists pieces. split_and!; [done|done|]. intros Hc. by destruct (Hcl Hc).
  - destruct Hp as [[-> _]|(j & t & c & -> & _)]; cbn; lia.
  - intros i t Ht Hret Hi. destruct Hp as [[-> _]|(j & l & c & -> & Hj)]; [by apply elem_of_nil in Hi|].
    apply list_elem_of_singleton in Hi. cbn in Hi. subst j.
    by pose proof (returned_idle _ _ _ _ (Forall2_lookup_lr _ _ _ _ _ _ Hok Ht Hj) Hret).
Qed.

(** C13. Any number of connections handled at once, in every interleaving of
    their calls: if no call on the stream fails the audit file is its old
    contents followed by whole audit lines, in the order they were printed; where
    one fails (the disk is full) the line being written has only a first part in
    the file, and the others are as they were.  Each connection has printed at
    most one line; at most one line is printed and not yet in the file, and its
    thread is still inside log_audit, so what is written of the line of a
    connection that is done is in the file whatever happens to the process next. *)
Theorem audit_log_atomic dir fds w q :
  w_log_stream w ≠ SNull → w_log_buf w = [] →
  reachable (Pool (map (handle_connection dir) fds) w []) q →
  ∃ written unwritten, pool_trace q = written ++ unwritten ∧
    file_holds w (w_log_out (pool_world q)) written.*2 ∧
    (length unwritten ≤ 1)%nat ∧
    NoDup ((pool_trace q).*1) ∧ Forall is_audit_line ((pool_trace q).*2) ∧
    (∀ i t, pool_threads q !! i = Some t → thread_returned t = true → i ∉ unwritten.*1).
Proof. apply audit_lines_whole. Qed.

(** A PUT and a GET of the same file at once. *)
Definition demo_both : pool sysE world bytes :=
  schedule (concat (replicate 60 [0; 1]%nat))
    (Pool (map (handle_connection demo_dir) [5; 6]%nat) demo_two []).

Lemma audit_log_atomic_witness :
  w_log_out (pool_world demo_both) =
    B "PUT,new.txt,201,10" ++ [LF] ++ B "GET,new.txt,200,0" ++ [LF] ∧
  (∃ written unwritten, pool_trace demo_both = written ++ unwritten ∧
     file_holds demo_two (w_log_out (pool_world demo_both)) written.*2 ∧
     NoDup ((pool_trace demo_both).*1)).
Proof.
  split; [by vm_compute|].
  destruct (audit_log_atomic demo_dir [5; 6]%nat demo_two demo_both) as (a & b & H1 & H2 & _ & H3 & _).
  - done.
  - reflexivity.
  - apply schedule_reachable.
  - exists a, b. exact (conj H1 (conj H2 H3)).
Defined.
