(* ===== verification/Shared.v ===== *)
(** * Connections that share a file tree

    Any number of well-formed requests handled at the same time.  Every thread
    owns some of the world: its client's socket, the descriptors it has open,
    a lock on its URI's lockfile and, under that lock, what the file is.
    [local] is what a thread owns, and [cinv] says that the world is what the
    threads own together, and that each file nobody is writing is what the
    requests audited so far, executed one after another, have made it. *)
From S2P Require Import Prelude Libc Regex Http Prog Pools Posix Util Connection Log Server Parsing.
From S2P Require Import Transfer Locks Handlers Serve AuditLog.
Local Open Scope Z_scope.
Local Open Scope prog_scope.

(** ** Requests and their meaning *)

(** A client's request: its descriptor and socket, what it sends, the file its
    URI names and the lockfile of that URI. *)
Record request := Req {
  rq_fd : nat; rq_sock : nat;
  rq_method : bytes; rq_uri : bytes; rq_headers : list (bytes * bytes); rq_body : bytes;
  rq_path : path; rq_lock : path
}.

Definition rq_head (r : request) : bytes := request_head (rq_method r) (rq_uri r) (rq_headers r).
Definition rq_kind (r : request) : Request := line_request (rq_method r).
Definition rq_line (r : request) (res : Response) : bytes :=
  request_audit (rq_kind r) (rq_uri r) (rq_headers r) res.

(** The meaning of a request on the tree [A] (of a server started in [w0]):
    status, message, new tree. *)
Definition spec_request (w0 : world) (r : request) (A : gmap path node) : Response * bytes * gmap path node :=
  match rq_kind r with
  | REQUEST_GET => let '(res, msg) := spec_get (set_fs A w0) (rq_uri r) in (res, msg, A)
  | REQUEST_PUT =>
      let '(res, A') := spec_put (set_fs A w0) (rq_uri r) (rq_body r) in (res, response_message res, A')
  | REQUEST_UNSUPPORTED =>
      (RESPONSE_NOT_IMPLEMENTED, response_message RESPONSE_NOT_IMPLEMENTED, A)
  end.

(** The same on the one node that matters; [own] is the mode of a new file and
    [parent] says whether its directory may be written. *)
Definition get_result (n : option node) : Response * bytes :=
  let error res := (res, response_message res) in
  match n with
  | Some (NFile d m) =>
      if m_r m then (RESPONSE_OK, file_header (Z.of_nat (length d)) ++ d) else error RESPONSE_FORBIDDEN
  | Some (NDir _) => error RESPONSE_FORBIDDEN
  | Some (NOther _) => error RESPONSE_INTERNAL_SERVER_ERROR
  | None => error RESPONSE_NOT_FOUND
  end.

Definition put_result (parent : bool) (own : meta) (body : bytes) (n : option node) : Response * option node :=
  match n with
  | Some (NFile _ m) => if m_w m then (RESPONSE_OK, Some (NFile body m)) else (RESPONSE_FORBIDDEN, n)
  | Some (NDir _) => (RESPONSE_FORBIDDEN, n)
  | Some (NOther _) => (RESPONSE_INTERNAL_SERVER_ERROR, n)
  | None => if parent then (RESPONSE_CREATED, Some (NFile body own)) else (RESPONSE_FORBIDDEN, None)
  end.

Definition writable_dir (w : world) (p : path) : bool :=
  match w_fs w !! p with Some (NDir m) => m_w m | _ => false end.

Definition outcome (w0 : world) (r : request) (n : option node) : Response * bytes * option node :=
  match rq_kind r with
  | REQUEST_GET => let '(res, msg) := get_result n in (res, msg, n)
  | REQUEST_PUT =>
      let '(res, n') := put_result (writable_dir w0 (removelast (rq_path r))) (mode_0600 w0) (rq_body r) n in
      (res, response_message res, n')
  | REQUEST_UNSUPPORTED => (RESPONSE_NOT_IMPLEMENTED, response_message RESPONSE_NOT_IMPLEMENTED, n)
  end.

(** The directories of two trees are the same. *)
Definition same_dirs (A B : gmap path node) : Prop :=
  ∀ p m, A !! p = Some (NDir m) ↔ B !! p = Some (NDir m).

#[export] Instance same_dirs_equivalence : Equivalence same_dirs.
Proof.
  split.
  - by intros A p m.
  - intros A B H p m. by rewrite (H p m).
  - intros A B C H1 H2 p m. by rewrite (H1 p m).
Qed.

(** Resolution follows directories only. *)
Lemma walk_dirs fs fs' dir comps q : same_dirs fs fs' → walk fs dir comps = Ok q →
  walk fs' dir comps = Ok q.
Proof.
  intros Hd. revert dir. induction comps as [|c comps IH]; intros dir; cbn [walk];
    destruct (fs !! dir) as [[]|] eqn:Hl; try done; rewrite (proj1 (Hd dir m) Hl); [done|].
  destruct (negb (m_x m)); [done|]. repeat case_bool_decide; [apply IH..|].
  destruct comps; [done|apply IH].
Qed.

Lemma namei_dirs w w' p q : w_cwd w' = w_cwd w → same_dirs (w_fs w) (w_fs w') →
  namei w p = Ok q → namei w' p = Ok q.
Proof. intros Hc Hd. unfold namei. destruct p; [done|]. rewrite Hc. by apply walk_dirs. Qed.

Lemma same_dirs_insert A p n n' : A !! p = n → (∀ m, n ≠ Some (NDir m)) → (∀ m, n' ≠ NDir m) →
  same_dirs A (<[p := n']> A).
Proof.
  intros Hp Hn Hn' p' m. rewrite lookup_insert. case_decide; [subst|done].
  split; intros H; [by rewrite H in Hn; destruct (Hn m)|]. injection H as ->. by destruct (Hn' m).
Qed.

(** What a request does to a tree with the server's directories, it does to the
    node its URI names. *)
Lemma spec_request_local w0 r A : namei w0 (rq_uri r) = Ok (rq_path r) → same_dirs (w_fs w0) A →
  ∃ A', spec_request w0 r A = ((outcome w0 r (A !! rq_path r)).1, A') ∧
    A' !! rq_path r = (outcome w0 r (A !! rq_path r)).2 ∧ (∀ p, p ≠ rq_path r → A' !! p = A !! p) ∧
    (rq_kind r ≠ REQUEST_PUT → A' = A) ∧ same_dirs A A'.
Proof.
  intros Hn Hd. set (p := rq_path r) in *.
  assert (Hn' : namei (set_fs A w0) (rq_uri r) = Ok p) by (by apply (namei_dirs w0)).
  unfold spec_request, outcome. destruct (rq_kind r).
  - exists A. unfold spec_get. rewrite Hn'. cbn [w_fs set_fs]. fold (get_result (A !! p)).
    destruct (get_result (A !! p)). by split_and!.
  - unfold spec_put. rewrite Hn'. cbn [w_fs set_fs]. unfold put_result. fold p.
    assert (Hpar : writable_dir w0 (removelast p) =
      match A !! removelast p with Some (NDir m) => m_w m | _ => false end).
    { unfold writable_dir. destruct (w_fs w0 !! removelast p) as [[]|] eqn:E1;
        destruct (A !! removelast p) as [[]|] eqn:E2; try done; try (by apply Hd in E1; simplify_eq);
        try (by apply Hd in E2; simplify_eq). }
    rewrite Hpar. destruct (A !! p) as [[d m|m|m]|] eqn:Hp.
    + destruct (m_w m); [|by exists A].
      exists (<[p := NFile (rq_body r) m]> A). split; [done|]. rewrite lookup_insert_eq. split_and!; try done.
      * intros p' Hne. by rewrite lookup_insert_ne.
      * by eapply same_dirs_insert.
    + by exists A.
    + by exists A.
    + destruct (A !! removelast p) as [[|m|]|]; try by exists A. destruct (m_w m); [|by exists A].
      exists (<[p := NFile (rq_body r) (mode_0600 w0)]> A). split; [done|]. rewrite lookup_insert_eq.
      split_and!; try done.
      * intros p' Hne. by rewrite lookup_insert_ne.
      * by eapply same_dirs_insert.
  - exists A. by split_and!.
Qed.

(** ** Histories *)

Section clients.
Context (w0 : world) (dir : bytes) (reqs : list request).

(** The tree after the audited requests, executed in the order of the log. *)
Definition tree_after (tr : log_trace) : gmap path node :=
  foldl (λ A '(i, _), match reqs !! i with Some r => (spec_request w0 r A).2 | None => A end) (w_fs w0) tr.

Lemma tree_after_snoc tr i l r : reqs !! i = Some r →
  tree_after (tr ++ [(i, l)]) = (spec_request w0 r (tree_after tr)).2.
Proof. intros Hr. unfold tree_after. rewrite foldl_app. cbn. by rewrite Hr. Qed.

(** What the clients and the world must be like. *)
Record client_ok (r : request) : Prop := {
  cl_wf : wf_request (rq_method r) (rq_uri r) (rq_headers r);
  cl_head : Z.of_nat (length (rq_head r)) ≤ BUFFER_SIZE;
  cl_plain : regexec (Regex false header_pieces) (CRLF ++ rq_body r) = None;
  cl_length : rq_kind r = REQUEST_PUT →
    header_value CONTENT_LENGTH_KEY (rq_headers r) = Some (dec (Z.of_nat (length (rq_body r)))) ∧
    Z.of_nat (length (rq_body r)) ≤ LONG_MAX;
  cl_fd : w_fds w0 !! rq_fd r = Some (OSock (rq_sock r));
  cl_sock : ∃ s, w_socks w0 !! rq_sock r = Some s ∧ sk_in s = rq_head r ++ rq_body r ∧
    Forall no_err (sk_faults s);
  cl_path : namei w0 (rq_uri r) = Ok (rq_path r);
  cl_lock : namei w0 (lock_path_for dir (rq_uri r) 192) = Ok (rq_lock r);
  cl_lockdir : writable_dir w0 (removelast (rq_lock r)) = true;
  cl_lockfile : match w_fs w0 !! rq_lock r with
    | None => True | Some (NFile _ m) => m_r m = true | _ => False end
}.

Record clients_ok : Prop := {
  cs_each : ∀ r, r ∈ reqs → client_ok r;
  cs_fds : NoDup (rq_fd <$> reqs);
  cs_socks : NoDup (rq_sock <$> reqs);
  cs_alias : ∀ r r', r ∈ reqs → r' ∈ reqs → rq_path r = rq_path r' → rq_uri r = rq_uri r';
  cs_lockfiles : ∀ r r', r ∈ reqs → r' ∈ reqs → rq_lock r ≠ rq_path r';
  cs_log : log_ready w0;
  cs_flocks : w_flocks w0 = ∅;
  cs_faults : Forall no_err (w_faults w0);
  cs_sizes : ∀ p d m, w_fs w0 !! p = Some (NFile d m) → Z.of_nat (length d) ≤ ULLONG_MAX
}.

(** ** What a thread owns *)

Record local := Local {
  l_id : nat; l_req : request;
  l_sock : sock;                     (* its client's socket *)
  l_fds : gmap nat ofd;              (* its descriptors *)
  l_held : option (lockop * nat);    (* the lock it has, and on which descriptor *)
  l_pre : option node;               (* under the lock: the file by the log so far, *)
  l_cur : option node;               (* and as it is *)
  l_log : bool;                      (* it is inside log_audit *)
  l_printed : bool
}.

Definition with_sock s g := Local (l_id g) (l_req g) s (l_fds g) (l_held g) (l_pre g) (l_cur g) (l_log g) (l_printed g).
Definition with_fds x g := Local (l_id g) (l_req g) (l_sock g) x (l_held g) (l_pre g) (l_cur g) (l_log g) (l_printed g).
Definition with_file h pre cur g :=
  Local (l_id g) (l_req g) (l_sock g) (l_fds g) h pre cur (l_log g) (l_printed g).
Definition with_log b p g :=
  Local (l_id g) (l_req g) (l_sock g) (l_fds g) (l_held g) (l_pre g) (l_cur g) b p.

Definition l_path g := rq_path (l_req g).
Definition l_lockfile g := rq_lock (l_req g).

(** [fd] is among the holders of the lock on [p]. *)
Definition lock_has (w : world) (p : path) (fd : nat) : Prop :=
  match w_flocks w !! p with
  | Some (LExclusive fd') => fd = fd'
  | Some (LShared s) => fd ∈ s
  | None => False
  end.

(** It holds a lock of kind [op]. *)
Definition holds (w : world) (p : path) (op : lockop) (fd : nat) : Prop :=
  match op with
  | LOCK_SH => ∃ s, w_flocks w !! p = Some (LShared s) ∧ fd ∈ s
  | _ => w_flocks w !! p = Some (LExclusive fd)
  end.

Definition writes (g : local) : Prop := ∃ fd, l_held g = Some (LOCK_EX, fd).

Definition is_lockfile (p : path) : Prop := ∃ r, r ∈ reqs ∧ rq_lock r = p.

Definition lockfile_ok (n : option node) : Prop :=
  match n with None => True | Some (NFile _ m) => m_r m = true | _ => False end.

(** What the thread's share says of the world. *)
Record owns (A : gmap path node) (g : local) (w : world) : Prop := {
  ow_sock : w_socks w !! rq_sock (l_req g) = Some (l_sock g);
  ow_calm : Forall no_err (sk_faults (l_sock g));
  ow_fds : l_fds g ⊆ w_fds w;
  ow_held : ∀ op fd, l_held g = Some (op, fd) →
    holds w (l_lockfile g) op fd ∧ (∃ off, l_fds g !! fd = Some (OFile (l_lockfile g) off)) ∧
    A !! l_path g = l_pre g ∧ w_fs w !! l_path g = l_cur g ∧ (op ≠ LOCK_EX → l_pre g = l_cur g)
}.

Definition one (b : bool) : nat := if b then 1 else 0.

(** The bytes client [r] had been sent before. *)
Definition out0 (r : request) : bytes :=
  match w_socks w0 !! rq_sock r with Some s => sk_out s | None => [] end.

Record cinv (tr : log_trace) (gs : list local) (w : world) : Prop := {
  ci_who : ∀ i g, gs !! i = Some g → l_id g = i ∧ reqs !! i = Some (l_req g);
  ci_len : length gs = length reqs;
  ci_static : w_cwd w = w_cwd w0 ∧ w_euid w = w_euid w0;
  ci_stream : w_log_stream w ≠ SNull;
  ci_faults : Forall no_err (w_faults w);
  ci_owns : ∀ i g, gs !! i = Some g → owns (tree_after tr) g w;
  ci_apart : ∀ i j g g', i ≠ j → gs !! i = Some g → gs !! j = Some g' → l_fds g ##ₘ l_fds g';
  ci_free : ∀ p, ¬ is_lockfile p → (∀ i g, gs !! i = Some g → l_path g = p → ¬ writes g) →
    w_fs w !! p = tree_after tr !! p;
  ci_lockfile : ∀ p, is_lockfile p → lockfile_ok (w_fs w !! p);
  ci_dirs : same_dirs (w_fs w0) (w_fs w);
  ci_owner : ∀ p fd, lock_has w p fd → ∃ i g op, gs !! i = Some g ∧ l_lockfile g = p ∧ l_held g = Some (op, fd);
  ci_shared : ∀ p, w_flocks w !! p ≠ Some (LShared ∅);
  ci_mu : total (λ g, one (l_log g)) gs = one (w_log_mu w);
  ci_printed : ∀ i g, gs !! i = Some g → l_printed g = bool_decide (i ∈ tr.*1);
  ci_legal : ∀ tr1 i l tr2, tr = tr1 ++ (i, l) :: tr2 → (i ∉ tr1.*1) ∧ ∃ g, gs !! i = Some g ∧
    let '(res, msg, _) := spec_request w0 (l_req g) (tree_after tr1) in
    l = rq_line (l_req g) res ∧ sk_out (l_sock g) = out0 (l_req g) ++ msg
}.

(** ** One step *)

(** The thread that owns [g] does something silent: it then owns [g']. *)
Record lmove (g g' : local) (w w' : world) : Prop := {
  lm_same : l_id g' = l_id g ∧ l_req g' = l_req g ∧ l_printed g' = l_printed g;
  lm_static : w_cwd w' = w_cwd w ∧ w_euid w' = w_euid w ∧ w_log_stream w' = w_log_stream w;
  lm_faults : Forall no_err (w_faults w) → Forall no_err (w_faults w');
  lm_sock : w_socks w' !! rq_sock (l_req g) = Some (l_sock g');
  lm_socks : ∀ c, c ≠ rq_sock (l_req g) → w_socks w' !! c = w_socks w !! c;
  lm_calm : Forall no_err (sk_faults (l_sock g'));
  lm_out : l_printed g = true → sk_out (l_sock g') = sk_out (l_sock g);
  lm_fds : l_fds g' ⊆ w_fds w';
  lm_others : ∀ fd o, l_fds g !! fd = None → w_fds w !! fd = Some o →
    w_fds w' !! fd = Some o ∧ l_fds g' !! fd = None;
  lm_locks : ∀ p op fd, l_fds g !! fd = None → holds w p op fd → holds w' p op fd;
  lm_held : ∀ op fd, l_held g' = Some (op, fd) →
    holds w' (l_lockfile g) op fd ∧ (∃ off, l_fds g' !! fd = Some (OFile (l_lockfile g) off)) ∧
    w_fs w' !! l_path g = l_cur g' ∧ (op ≠ LOCK_EX → l_pre g' = l_cur g');
  lm_pre : ∀ h, l_held g' = Some h → (l_held g = Some h ∧ l_pre g' = l_pre g) ∨
    (l_held g = None ∧ l_pre g' = w_fs w !! l_path g ∧
     ∀ fd, w_flocks w !! l_lockfile g ≠ Some (LExclusive fd));
  lm_release : l_held g ≠ None → l_held g' = None →
    l_pre g = l_cur g ∧ w_fs w' !! l_path g = w_fs w !! l_path g;
  lm_fs : ∀ p, ¬ is_lockfile p → (p = l_path g → ¬ writes g) → w_fs w' !! p = w_fs w !! p;
  lm_lockfile : ∀ p, is_lockfile p → lockfile_ok (w_fs w !! p) → lockfile_ok (w_fs w' !! p);
  lm_dirs : same_dirs (w_fs w) (w_fs w');
  lm_owner : ∀ p fd, lock_has w' p fd →
    (lock_has w p fd ∧ (l_held g' = l_held g ∨ ∀ op, l_held g ≠ Some (op, fd))) ∨
    (p = l_lockfile g ∧ ∃ op, l_held g' = Some (op, fd));
  lm_shared : (∀ p, w_flocks w !! p ≠ Some (LShared ∅)) → ∀ p, w_flocks w' !! p ≠ Some (LShared ∅);
  lm_mu : (one (w_log_mu w') + one (l_log g) = one (w_log_mu w) + one (l_log g'))%nat
}.

Context (Hcs : clients_ok).

Lemma cinv_req tr gs w i g : cinv tr gs w → gs !! i = Some g → l_req g ∈ reqs.
Proof. intros HI Hi. destruct (ci_who _ _ _ HI _ _ Hi) as [_ Hr]. by eapply list_elem_of_lookup_2. Qed.

Lemma cinv_client tr gs w i g : cinv tr gs w → gs !! i = Some g → client_ok (l_req g).
Proof. intros HI Hi. eapply (cs_each Hcs), cinv_req; eauto. Qed.

Lemma path_not_lock r : r ∈ reqs → ¬ is_lockfile (rq_path r).
Proof. intros Hr (r' & Hr' & E). by apply (cs_lockfiles Hcs r' r Hr' Hr). Qed.

(** Requests for the same file have the same lockfile. *)
Lemma same_path_lock tr gs w i j g g' : cinv tr gs w → gs !! i = Some g → gs !! j = Some g' →
  l_path g = l_path g' → l_lockfile g = l_lockfile g'.
Proof.
  intros HI Hi Hj Hp. pose proof (cinv_req _ _ _ _ _ HI Hi) as R1. pose proof (cinv_req _ _ _ _ _ HI Hj) as R2.
  pose proof (cs_alias Hcs _ _ R1 R2 Hp) as Hu.
  pose proof (cl_lock _ (cs_each Hcs _ R1)) as L1. pose proof (cl_lock _ (cs_each Hcs _ R2)) as L2.
  rewrite Hu, L2 in L1. unfold l_lockfile. congruence.
Qed.

(** A writer is alone on its file. *)
Lemma writer_alone tr gs w i j g g' : cinv tr gs w → i ≠ j → gs !! i = Some g → gs !! j = Some g' →
  writes g → l_path g' = l_path g → l_held g' = None.
Proof.
  intros HI Hne Hi Hj [fd Hw] Hp. destruct (l_held g') as [[op fd']|] eqn:Hh; [exfalso|done].
  destruct (ow_held _ _ _ (ci_owns _ _ _ HI _ _ Hi) _ _ Hw) as (Hl & (off & Hf) & _).
  destruct (ow_held _ _ _ (ci_owns _ _ _ HI _ _ Hj) _ _ Hh) as (Hl' & (off' & Hf') & _).
  rewrite (same_path_lock _ _ _ _ _ _ _ HI Hj Hi Hp) in Hl'. cbn in Hl.
  pose proof (ci_apart _ _ _ HI _ _ _ _ Hne Hi Hj) as Hd.
  assert (fd ≠ fd') by (intros <-; by eapply (map_disjoint_spec (l_fds g) (l_fds g'))).
  destruct op; cbn in Hl'; [destruct Hl' as (s & Hl' & _)|..]; rewrite Hl in Hl'; simplify_eq.
Qed.

Lemma lookup_moved (gs : list local) i g g' j x : gs !! i = Some g → <[i := g']> gs !! j = Some x →
  (j = i ∧ x = g') ∨ (j ≠ i ∧ gs !! j = Some x).
Proof. intros _ [[-> ->]|[? ?]]%lookup_update; auto. Qed.

Section step.
Context tr gs w i g g' w' (HI : cinv tr gs w) (Hi : gs !! i = Some g) (Hm : lmove g g' w w').
Let A := tree_after tr.
Let gs' := <[i := g']> gs.

Lemma step_apart j k x y : j ≠ k → gs' !! j = Some x → gs' !! k = Some y → l_fds x ##ₘ l_fds y.
Proof.
  intros Hne Hj Hk.
  assert (Hother : ∀ k y, k ≠ i → gs !! k = Some y → l_fds g' ##ₘ l_fds y).
  { intros k0 y0 Hk0 Hy0. apply map_disjoint_spec. intros fd o o' Ho Ho'.
    assert (l_fds g !! fd = None).
    { eapply map_disjoint_Some_r; [|exact Ho']. eapply (ci_apart _ _ _ HI i k0); eauto. }
    destruct (lm_others _ _ _ _ Hm fd o') as [_ Hn]; [done| |congruence].
    eapply lookup_weaken; [exact Ho'|]. by eapply ow_fds, (ci_owns _ _ _ HI). }
  destruct (lookup_moved _ _ _ _ _ _ Hi Hj) as [[-> ->]|[Hji Hj']];
    destruct (lookup_moved _ _ _ _ _ _ Hi Hk) as [[-> ->]|[Hki Hk']]; try done.
  - by apply (Hother k).
  - symmetry. by apply (Hother j).
  - by eapply (ci_apart _ _ _ HI j k).
Qed.

(** Nobody else's file changes. *)
Lemma step_file j x : j ≠ i → gs !! j = Some x → l_held x ≠ None → w_fs w' !! l_path x = w_fs w !! l_path x.
Proof.
  intros Hj Hx Hh. apply (lm_fs _ _ _ _ Hm); [by eapply path_not_lock, cinv_req|].
  intros Hp Hw. apply Hh. eapply (writer_alone _ _ _ i j); eauto.
Qed.

Lemma step_owns_mine : owns A g' w'.
Proof.
  destruct (lm_same _ _ _ _ Hm) as (_ & Hr & _). split.
  - rewrite Hr. apply (lm_sock _ _ _ _ Hm).
  - apply Hm.
  - apply Hm.
  - unfold l_lockfile, l_path. rewrite Hr. intros op fd Hh.
    destruct (lm_held _ _ _ _ Hm op fd Hh) as (H1 & H2 & H3 & H4). split_and!; try done.
    destruct (lm_pre _ _ _ _ Hm _ Hh) as [[Hg ->]|(Hg & -> & Hfree)].
    + by destruct (ow_held _ _ _ (ci_owns _ _ _ HI _ _ Hi) _ _ Hg) as (_ & _ & ? & _).
    + symmetry. apply (ci_free _ _ _ HI); [by eapply path_not_lock, cinv_req|].
      intros j x Hx Hp [fdx Hwx]. destruct (ow_held _ _ _ (ci_owns _ _ _ HI _ _ Hx) _ _ Hwx) as (Hl & _).
      rewrite (same_path_lock _ _ _ _ _ _ _ HI Hx Hi Hp) in Hl. by apply (Hfree fdx).
Qed.

Lemma step_owns_other j x : j ≠ i → gs !! j = Some x → owns A x w'.
Proof.
  intros Hj Hx. destruct (ci_owns _ _ _ HI _ _ Hx) as [H1 H2 H3 H4].
  assert (Hnone : ∀ fd o, l_fds x !! fd = Some o → l_fds g !! fd = None).
  { intros fd o Ho. eapply map_disjoint_Some_r; [|exact Ho]. eapply (ci_apart _ _ _ HI i j); eauto. }
  split; [|done|..].
  - rewrite (lm_socks _ _ _ _ Hm); [done|]. intros E. apply Hj.
    destruct (ci_who _ _ _ HI _ _ Hx) as [_ R1]. destruct (ci_who _ _ _ HI _ _ Hi) as [_ R2].
    eapply NoDup_lookup; [exact (cs_socks Hcs)|rewrite list_lookup_fmap, R1; reflexivity|].
    rewrite list_lookup_fmap, R2. cbn. congruence.
  - apply map_subseteq_spec. intros fd o Ho. eapply (lm_others _ _ _ _ Hm); [by eapply Hnone|].
    by eapply lookup_weaken.
  - intros op fd Hh. destruct (H4 op fd Hh) as (L1 & (off & L2) & L3 & L4 & L5). split_and!; try done.
    + eapply (lm_locks _ _ _ _ Hm); [by eapply Hnone|done].
    + eauto.
    + rewrite (step_file j x); [done..|congruence].
Qed.

Lemma step_free p : ¬ is_lockfile p → (∀ j x, gs' !! j = Some x → l_path x = p → ¬ writes x) →
  w_fs w' !! p = A !! p.
Proof.
  intros Hp Hno. assert (Hmine : gs' !! i = Some g') by (apply list_lookup_insert_eq; by eapply lookup_lt_Some).
  destruct (lm_same _ _ _ _ Hm) as (_ & Hr & _).
  assert (Hpath : l_path g' = l_path g) by (unfold l_path; by rewrite Hr).
  assert (Hdec : p = l_path g ∧ writes g ∨ (p = l_path g → ¬ writes g)).
  { unfold writes. destruct (l_held g) as [[[] fd]|]; try (right; naive_solver).
    destruct (decide (p = l_path g)); [left; eauto|by right]. }
  destruct Hdec as [[-> [fd Hw]]|Hn].
  - destruct (l_held g') as [h|] eqn:Hh.
    { exfalso. apply (Hno i g' Hmine Hpath). destruct (lm_pre _ _ _ _ Hm h Hh) as [[E _]|[E _]]; [|congruence].
      exists fd. congruence. }
    destruct (lm_release _ _ _ _ Hm) as [E ->]; [congruence|done|].
    destruct (ow_held _ _ _ (ci_owns _ _ _ HI _ _ Hi) _ _ Hw) as (_ & _ & E1 & E2 & _).
    unfold A. congruence.
  - rewrite (lm_fs _ _ _ _ Hm p Hp Hn). apply (ci_free _ _ _ HI); [done|]. intros j x Hx Hxp.
    destruct (decide (j = i)) as [->|Hj].
    + rewrite Hi in Hx. injection Hx as <-. by apply Hn.
    + apply (Hno j); [|done]. unfold gs'. by rewrite list_lookup_insert_ne by done.
Qed.

Lemma step_owner p fd : lock_has w' p fd →
  ∃ j x op, gs' !! j = Some x ∧ l_lockfile x = p ∧ l_held x = Some (op, fd).
Proof.
  intros Hl. assert (Hmine : gs' !! i = Some g') by (apply list_lookup_insert_eq; by eapply lookup_lt_Some).
  destruct (lm_same _ _ _ _ Hm) as (_ & Hr & _).
  assert (Hlf : l_lockfile g' = l_lockfile g) by (unfold l_lockfile; by rewrite Hr).
  destruct (lm_owner _ _ _ _ Hm p fd Hl) as [[Hold Hor]|[-> [op Hh]]]; [|by exists i, g', op].
  destruct (ci_owner _ _ _ HI p fd Hold) as (j & x & op & Hx & Hp & Hh).
  destruct (decide (j = i)) as [->|Hj].
  - rewrite Hi in Hx. injection Hx as <-. exists i, g', op. split; [done|]. split; [congruence|].
    destruct Hor as [->|Hno]; [done|]. by destruct (Hno op).
  - exists j, x, op. split; [|done]. unfold gs'. by rewrite list_lookup_insert_ne.
Qed.

Lemma cinv_step : cinv (tr ++ map (pair i) []) gs' w'.
Proof.
  destruct (lm_same _ _ _ _ Hm) as (Hid & Hr & Hpr). destruct (lm_static _ _ _ _ Hm) as (S1 & S2 & S3).
  cbn. rewrite app_nil_r. constructor.
  - intros j x Hx. destruct (lookup_moved _ _ _ _ _ _ Hi Hx) as [[-> ->]|[_ Hx']].
    + rewrite Hid, Hr. by apply (ci_who _ _ _ HI).
    + by apply (ci_who _ _ _ HI).
  - unfold gs'. rewrite length_insert. apply HI.
  - rewrite S1, S2. apply HI.
  - rewrite S3. apply HI.
  - apply (lm_faults _ _ _ _ Hm), HI.
  - intros j x Hx. destruct (lookup_moved _ _ _ _ _ _ Hi Hx) as [[-> ->]|[Hj Hx']].
    + apply step_owns_mine.
    + by eapply step_owns_other.
  - apply step_apart.
  - apply step_free.
  - intros p Hp. apply (lm_lockfile _ _ _ _ Hm); [done|]. by apply (ci_lockfile _ _ _ HI).
  - etrans; [apply HI|apply Hm].
  - apply step_owner.
  - apply (lm_shared _ _ _ _ Hm), HI.
  - pose proof (total_insert (λ g, one (l_log g)) _ _ _ g' Hi) as E. pose proof (ci_mu _ _ _ HI).
    pose proof (lm_mu _ _ _ _ Hm). unfold gs'. cbn in E. lia.
  - intros j x Hx. destruct (lookup_moved _ _ _ _ _ _ Hi Hx) as [[-> ->]|[Hj Hx']].
    + rewrite Hpr. by apply (ci_printed _ _ _ HI).
    + by apply (ci_printed _ _ _ HI).
  - intros tr1 j l tr2 Htr. destruct (ci_legal _ _ _ HI _ _ _ _ Htr) as (Hn & x & Hx & Hsp).
    split; [done|]. destruct (decide (j = i)) as [->|Hj].
    + exists g'. split; [apply list_lookup_insert_eq; by eapply lookup_lt_Some|]. rewrite Hi in Hx. injection Hx as <-.
      rewrite Hr, (lm_out _ _ _ _ Hm); [done|]. rewrite (ci_printed _ _ _ HI _ _ Hi), Htr.
      apply bool_decide_eq_true. rewrite fmap_app. set_solver.
    + exists x. split; [|done]. unfold gs'. by rewrite list_lookup_insert_ne.
Qed.
End step.

(** *** Printing the line: where a request takes effect *)

Lemma tree_after_dirs tr : same_dirs (w_fs w0) (tree_after tr).
Proof.
  induction tr as [|[i l] tr IH] using rev_ind; [done|].
  destruct (reqs !! i) as [r|] eqn:Hr.
  - rewrite (tree_after_snoc _ _ _ _ Hr). apply list_elem_of_lookup_2 in Hr. etrans; [exact IH|].
    destruct (spec_request_local w0 r (tree_after tr)) as (A' & -> & _ & _ & _ & Hd); [|done|done].
    by apply cl_path, (cs_each Hcs).
  - unfold tree_after. rewrite foldl_app. cbn. by rewrite Hr.
Qed.

(** It has the lock its request needs, its client was sent the message, and the
    file is what the request makes of it. *)
Definition ready_to_print (g : local) (line : bytes) : Prop :=
  let '(res, msg, n') := outcome w0 (l_req g) (l_pre g) in
  line = rq_line (l_req g) res ∧ sk_out (l_sock g) = out0 (l_req g) ++ msg ∧
  match rq_kind (l_req g) with
  | REQUEST_GET => l_held g ≠ None
  | REQUEST_PUT => writes g ∧ l_cur g = n'
  | REQUEST_UNSUPPORTED => l_held g = None
  end.

(** Its file is then what the log says. *)
Definition printed_file (g : local) : option node := (outcome w0 (l_req g) (l_pre g)).2.

Definition after_print (g : local) : local :=
  with_file (l_held g) (printed_file g) (l_cur g) (with_log (l_log g) true g).

Lemma outcome_not_put r n : rq_kind r ≠ REQUEST_PUT → (outcome w0 r n).2 = n.
Proof. unfold outcome. destruct (rq_kind r); try done. by destruct (get_result n). Qed.

Lemma outcome_unsupported r n n' : rq_kind r = REQUEST_UNSUPPORTED → (outcome w0 r n).1 = (outcome w0 r n').1.
Proof. unfold outcome. by intros ->. Qed.

Lemma snoc_split {X} (l l1 l2 : list X) a b : l ++ [a] = l1 ++ b :: l2 →
  (l = l1 ∧ a = b ∧ l2 = []) ∨ ∃ l2', l = l1 ++ b :: l2'.
Proof.
  destruct l2 as [|c l2 _] using rev_ind.
  - intros [-> [= ->]]%app_inj_tail. auto.
  - rewrite app_comm_cons, app_assoc. intros [-> _]%app_inj_tail. right. by exists l2.
Qed.

Section print.
Context tr gs w i g (line : bytes) (HI : cinv tr gs w) (Hi : gs !! i = Some g).
Context (Hlog : l_log g = true) (Hnew : l_printed g = false) (Hready : ready_to_print g line).
Let A := tree_after tr.
Let A' := tree_after (tr ++ [(i, line)]).
Let p := l_path g.

Lemma print_known : rq_kind (l_req g) ≠ REQUEST_UNSUPPORTED → A !! p = l_pre g.
Proof.
  intros Hk. assert (∃ op fd, l_held g = Some (op, fd)) as (op & fd & Hh).
  { unfold ready_to_print in Hready. destruct (outcome _ _ _) as [[res msg] n']. destruct Hready as (_ & _ & H).
    destruct (rq_kind (l_req g)); [|destruct H as [[fd ->] _]; eauto|done].
    destruct (l_held g) as [[op fd]|]; [eauto|done]. }
  by destruct (ow_held _ _ _ (ci_owns _ _ _ HI _ _ Hi) _ _ Hh) as (_ & _ & ? & _).
Qed.

Lemma print_spec : spec_request w0 (l_req g) A = ((outcome w0 (l_req g) (l_pre g)).1, A') ∧
  (rq_kind (l_req g) ≠ REQUEST_UNSUPPORTED → A' !! p = printed_file g) ∧
  (∀ p', p' ≠ p → A' !! p' = A !! p') ∧ (rq_kind (l_req g) ≠ REQUEST_PUT → A' = A).
Proof.
  destruct (ci_who _ _ _ HI _ _ Hi) as [_ Hr].
  destruct (spec_request_local w0 (l_req g) A) as (B & HB & B1 & B2 & B3 & _).
  { by eapply cl_path, cinv_client. }
  { apply tree_after_dirs. }
  assert (A' = B) as HAB.
  { unfold A'. rewrite (tree_after_snoc _ _ _ _ Hr). fold A. by rewrite HB. }
  rewrite HAB. split_and!; try done.
  - rewrite HB. f_equal. destruct (decide (rq_kind (l_req g) = REQUEST_UNSUPPORTED)) as [Hu|Hu].
    + by apply outcome_unsupported.
    + change (rq_path (l_req g)) with p. by rewrite (print_known Hu).
  - intros Hu. change (rq_path (l_req g)) with p in B1. by rewrite B1, (print_known Hu).
Qed.

Lemma print_owns_mine w' : w_socks w' = w_socks w → w_fds w' = w_fds w → w_fs w' = w_fs w →
  w_flocks w' = w_flocks w → owns A' (after_print g) w'.
Proof.
  intros E1 E2 E3 E4. destruct (ci_owns _ _ _ HI _ _ Hi) as [H1 H2 H3 H4].
  destruct print_spec as (_ & P1 & _ & _). unfold ready_to_print, printed_file in *.
  split; [by rewrite E1|done|by rewrite E2|]. intros op fd Hh. cbn in Hh. destruct (H4 op fd Hh) as (L1 & L2 & L3 & L4 & L5).
  unfold holds. rewrite E3, E4. cbn -[outcome].
  destruct (decide (rq_kind (l_req g) = REQUEST_UNSUPPORTED)) as [Hu|Hu].
  { exfalso. rewrite Hu in Hready. destruct (outcome _ _ _) as [[res msg] n']. destruct Hready as (_ & _ & ?). congruence. }
  split_and!; try done; [by apply P1|]. intros Hop. destruct (decide (rq_kind (l_req g) = REQUEST_PUT)) as [Hp|Hp].
  - rewrite Hp in Hready. destruct (outcome _ _ _) as [[res msg] n']. destruct Hready as (_ & _ & [fd' Hw] & _). congruence.
  - unfold printed_file. rewrite (outcome_not_put _ _ Hp). by apply L5.
Qed.

Lemma print_owns_other j x : j ≠ i → gs !! j = Some x → ∀ op fd, l_held x = Some (op, fd) → A' !! l_path x = l_pre x.
Proof.
  intros Hj Hx op fd Hh. destruct (ow_held _ _ _ (ci_owns _ _ _ HI _ _ Hx) _ _ Hh) as (_ & _ & E & _).
  destruct print_spec as (_ & _ & P2 & P3). fold A in E.
  destruct (decide (l_path x = p)) as [Hp|Hp]; [|by rewrite P2].
  destruct (decide (rq_kind (l_req g) = REQUEST_PUT)) as [Hk|Hk]; [|by rewrite P3].
  exfalso. assert (Hw : writes g).
  { unfold ready_to_print in Hready. destruct (outcome _ _ _) as [[res msg] n']. rewrite Hk in Hready.
    by destruct Hready as (_ & _ & ? & _). }
  assert (l_held x = None); [|congruence]. eapply (writer_alone _ _ _ i j); eauto.
Qed.

Lemma cinv_print w' : w' = print_log line w →
  cinv (tr ++ map (pair i) [line]) (<[i := after_print g]> gs) w'.
Proof.
  intros ->. unfold print_log. destruct (pop_log_cases w) as (f & fl & -> & _). cbn [map]. destruct print_spec as (P0 & P1 & P2 & P3).
  assert (Hmine : <[i := after_print g]> gs !! i = Some (after_print g))
    by (apply list_lookup_insert_eq; by eapply lookup_lt_Some).
  assert (Hfresh : i ∉ tr.*1).
  { pose proof (ci_printed _ _ _ HI _ _ Hi) as E. rewrite Hnew in E. by apply eq_sym, bool_decide_eq_false in E. }
  constructor; cbn [w_cwd w_euid w_log_stream w_faults w_fs w_flocks w_log_mu set_log set_log_faults]; try apply HI.
  - intros j x Hx. destruct (lookup_moved _ _ _ _ _ _ Hi Hx) as [[-> ->]|[_ Hx']].
    + exact (ci_who _ _ _ HI _ _ Hi).
    + by apply (ci_who _ _ _ HI).
  - rewrite length_insert. apply HI.
  - intros j x Hx. destruct (lookup_moved _ _ _ _ _ _ Hi Hx) as [[-> ->]|[Hj Hx']]; [by apply print_owns_mine|].
    destruct (ci_owns _ _ _ HI _ _ Hx') as [H1 H2 H3 H4]. split; [done|done|done|]. intros op fd Hh.
    destruct (H4 op fd Hh) as (L1 & L2 & L3 & L4 & L5). split_and!; try done. by eapply print_owns_other.
  - intros j k x y Hne Hj Hk. destruct (lookup_moved _ _ _ _ _ _ Hi Hj) as [[-> ->]|[Hji Hj']];
      destruct (lookup_moved _ _ _ _ _ _ Hi Hk) as [[-> ->]|[Hki Hk']]; try done;
        [exact (ci_apart _ _ _ HI i k _ _ Hne Hi Hk')|exact (ci_apart _ _ _ HI j i _ _ Hne Hj' Hi)|].
    by eapply (ci_apart _ _ _ HI j k).
  - intros p' Hp' Hno. fold A'. rewrite (ci_free _ _ _ HI p' Hp').
    + destruct (decide (p' = p)) as [->|Hne]; [|by rewrite P2].
      rewrite P3; [done|]. intros Hk. apply (Hno i (after_print g) Hmine eq_refl).
      unfold ready_to_print in Hready. destruct (outcome _ _ _) as [[res msg] n']. rewrite Hk in Hready.
      by destruct Hready as (_ & _ & ? & _).
    + intros j x Hx Hxp. destruct (decide (j = i)) as [->|Hj].
      * rewrite Hi in Hx. injection Hx as <-. by apply (Hno i (after_print g)).
      * apply (Hno j); [|done]. by rewrite list_lookup_insert_ne.
  - intros p' fd Hl. destruct (ci_owner _ _ _ HI p' fd Hl) as (j & x & op & Hx & Hp & Hh).
    destruct (decide (j = i)) as [->|Hj].
    + rewrite Hi in Hx. injection Hx as <-. by exists i, (after_print g), op.
    + exists j, x, op. by rewrite list_lookup_insert_ne.
  - pose proof (total_insert (λ g, one (l_log g)) _ _ _ (after_print g) Hi) as E. pose proof (ci_mu _ _ _ HI).
    cbn in E. lia.
  - intros j x Hx. rewrite fmap_app. destruct (lookup_moved _ _ _ _ _ _ Hi Hx) as [[-> ->]|[Hj Hx']].
    + cbn. symmetry. apply bool_decide_eq_true. set_solver.
    + rewrite (ci_printed _ _ _ HI _ _ Hx'). apply bool_decide_ext. cbn. set_solver.
  - intros tr1 j l tr2 Htr. apply snoc_split in Htr as [(<- & [= <- <-] & _)|[tr2' Htr]].
    + split; [done|]. exists (after_print g). split; [done|]. cbn -[spec_request]. fold A. rewrite P0.
      unfold ready_to_print in Hready. destruct (outcome _ _ _) as [[res msg] n']. by destruct Hready as (? & ? & _).
    + destruct (ci_legal _ _ _ HI _ _ _ _ Htr) as (Hn & x & Hx & Hsp). split; [done|].
      exists x. split; [|done]. rewrite list_lookup_insert_ne; [done|]. intros <-. apply Hfresh.
      rewrite Htr, fmap_app. set_solver.
Qed.
End print.
End clients.
