(* ===== verification/SharedRules.v ===== *)
(** * Rules for threads that share a file tree

    What one call of a thread does to what it owns ([ok_*] lemmas), and the
    transfer principle [ok_private]: a routine that touches only what its
    thread owns behaves, in any interleaving, as the sequential theorems say it
    does alone. *)
From S2P Require Import Prelude Libc Regex Http Prog Pools PoolsTerm Posix Util Connection Log Server Parsing.
From S2P Require Import Transfer Locks Handlers Serve AuditLog Shared.
Local Open Scope Z_scope.
Local Open Scope prog_scope.

(** What a thread may be about to wait for. *)
Definition cwaits X (g : local) (e : sysE X) : Prop :=
  match e with
  | Flock fd op => op = LOCK_UN ∨
      (l_held g = None ∧ l_log g = false ∧ ∃ off, l_fds g !! fd = Some (OFile (l_lockfile g) off))
  | LogLock => l_log g = false
  | _ => True
  end.

(** The faults still to come: no call adds one. *)
Definition fault_budget (w : world) : nat := length (w_faults w).

Lemma pop_fault_budget w f w1 : pop_fault w = (f, w1) → (fault_budget w1 ≤ fault_budget w)%nat.
Proof. intros (fl & -> & H)%pop_fault_spec. unfold fault_budget. cbn. destruct f; lia. Qed.

Lemma faulty_budget {A} (body : world → world * rc A) w w' r :
  (∀ w w' r, body w = (w', r) → w_faults w' = w_faults w) → faulty body w = (w', r) →
  (fault_budget w' ≤ fault_budget w)%nat.
Proof.
  intros Hb. unfold faulty. destruct (pop_fault w) as [f w1] eqn:Hp. apply pop_fault_budget in Hp.
  destruct f; [..|by intros [= <- _]]; intros E%Hb; unfold fault_budget in *; by rewrite E.
Qed.

Local Ltac by_cases_of_call := repeat (case_match || simplify_eq); done.

#[export] Instance fault_budget_falls : Falling sysE fault_budget.
Proof.
  intros X e w w' x Hs. destruct e; cbn in Hs; try (injection Hs as Hs); try (by simplify_eq).
  1,5,6,9,10,11: eapply faulty_budget; [|exact Hs]; clear; intros w w' r Hs.
  - unfold do_open, new_fd in Hs. by_cases_of_call.
  - unfold do_fstat in Hs. by_cases_of_call.
  - unfold do_ftruncate in Hs. by_cases_of_call.
  - unfold do_mkdir in Hs. by_cases_of_call.
  - unfold do_lstat in Hs. by_cases_of_call.
  - by injection Hs as <- _.
  - unfold sys_close in Hs. by_cases_of_call.
  - unfold sys_read in Hs. destruct (pop_fault w) as [f w1] eqn:Hp. apply pop_fault_budget in Hp. by_cases_of_call.
  - unfold sys_write in Hs. destruct (pop_fault w) as [f w1] eqn:Hp. apply pop_fault_budget in Hp. by_cases_of_call.
  - unfold call_access in Hs. destruct (pop_fault w) as [f w1] eqn:Hp. apply pop_fault_budget in Hp. by_cases_of_call.
  - unfold sys_flock in Hs. destruct (pop_fault w) as [f w1] eqn:Hp. apply pop_fault_budget in Hp. by_cases_of_call.
  - unfold sys_alloc in Hs. destruct (pop_fault w) as [f w1] eqn:Hp. apply pop_fault_budget in Hp. by_cases_of_call.
  - by_cases_of_call.
  - unfold print_log, pop_log_fault in Hs. by_cases_of_call.
  - unfold flush_log, pop_log_fault in Hs. by_cases_of_call.
  - unfold flush_log, pop_log_fault in Hs. by_cases_of_call.
Qed.

Section rules.
Context (w0 : world) (dir : bytes) (reqs : list request) (Hcs : clients_ok w0 dir reqs).
Local Abbreviation cok := (okt (cinv w0 reqs) cwaits fault_budget).

Lemma cok_bind n {R S} (t : itree sysE R) (k : R → itree sysE S) g Q :
  cok n t g (λ r g', cok n (k r) g' Q) → cok n (ITree.bind t k) g Q.
Proof. apply okt_bind, _. Qed.

Lemma cok_iter_once n {R I} (f : I → itree sysE (I + R)) i g (Q : R → local → Prop) :
  cok n (f i) g (λ lr g', match lr with inl _ => False | inr r => Q r g' end) → cok n (ITree.iter f i) g Q.
Proof. apply okt_iter_once, _. Qed.

Lemma ok_move n {X} (e : sysE X) g (Q : X → local → Prop) : cwaits X g e →
  (∀ tr gs w w' x, cinv w0 reqs tr gs w → gs !! l_id g = Some g → sys e w = Some (w', x) →
     lab e x = [] ∧ ∃ g', lmove reqs g g' w w' ∧ Q x g') →
  cok n (perform e) g Q.
Proof.
  intros HA H. apply okt_trigger; [done|]. intros tr gs w w' x i Hi HI Hs.
  assert (l_id g = i) as Hid by (by eapply ci_who in Hi as [? _]).
  destruct (H tr gs w w' x HI) as (-> & g' & Hm & HQ); [by rewrite Hid|done|].
  exists g'. split; [by eapply (cinv_step w0 dir)|done].
Qed.

(** ** Moves on what is owned *)

(** Worlds that differ at most in sockets, descriptors, files and faults. *)
Definition same_rest (w w' : world) : Prop :=
  w_cwd w' = w_cwd w ∧ w_euid w' = w_euid w ∧ w_flocks w' = w_flocks w ∧
  w_log_stream w' = w_log_stream w ∧ w_log_mu w' = w_log_mu w ∧
  (Forall no_err (w_faults w) → Forall no_err (w_faults w')).

Section own.
Context A g w w' (s : sock) (fds : gmap nat ofd) (cur : option node) (Ho : owns A g w) (Hsame : same_rest w w').
Hypothesis Hreq : l_req g ∈ reqs.
Hypothesis Hsocks : w_socks w' = <[rq_sock (l_req g) := s]> (w_socks w).
Hypothesis Hcalm : Forall no_err (sk_faults s).
Hypothesis Hout : l_printed g = true → sk_out s = sk_out (l_sock g).
(** At most the offset of an open file changes, *)
Hypothesis Hfds : (w_fds w' = w_fds w ∧ fds = l_fds g) ∨
  ∃ f off o', l_fds g !! f = Some (OFile (l_path g) off) ∧
    w_fds w' = <[f := o']> (w_fds w) ∧ fds = <[f := o']> (l_fds g).
(** and, under the exclusive lock, the contents of the thread's file. *)
Hypothesis Hfs : (w_fs w' = w_fs w ∧ cur = l_cur g) ∨
  ∃ fd d m d' m', l_held g = Some (LOCK_EX, fd) ∧ l_cur g = Some (NFile d m) ∧
    cur = Some (NFile d' m') ∧ w_fs w' = <[l_path g := NFile d' m']> (w_fs w).

Lemma lmove_own : lmove reqs g
  (Local (l_id g) (l_req g) s fds (l_held g) (l_pre g) cur (l_log g) (l_printed g)) w w'.
Proof.
  destruct Hsame as (S1 & S2 & S3 & S4 & S5 & S6). destruct Ho as [O1 O2 O3 O4].
  assert (Hlp : ¬ is_lockfile reqs (l_path g)) by (by eapply path_not_lock).
  assert (Hne : l_lockfile g ≠ l_path g) by (intros E; apply Hlp; exists (l_req g); by split).
  constructor; cbn [l_id l_req l_sock l_fds l_held l_pre l_cur l_log l_printed]; try done.
  - by rewrite Hsocks, lookup_insert_eq.
  - intros c Hc. by rewrite Hsocks, lookup_insert_ne.
  - destruct Hfds as [[-> ->]|(f & off & o' & Hf & -> & ->)]; [done|]. by apply insert_mono.
  - intros fd o Hn Hs. destruct Hfds as [[-> ->]|(f & off & o' & Hf & -> & ->)]; [done|].
    rewrite !lookup_insert_ne by congruence. done.
  - intros p op fd _. unfold holds. by rewrite S3.
  - intros op fd Hh. destruct (O4 op fd Hh) as (L1 & (off & L2) & L3 & L4 & L5). unfold holds. rewrite S3.
    split_and!; [done| | |].
    + destruct Hfds as [[_ ->]|(f & off' & o' & Hf & _ & ->)]; [by exists off|].
      exists off. rewrite lookup_insert_ne; [done|]. intros ->. congruence.
    + destruct Hfs as [[-> ->]|(fd' & d & m & d' & m' & _ & _ & -> & ->)]; [done|]. by rewrite lookup_insert_eq.
    + intros Hop. destruct Hfs as [[_ ->]|(fd' & d & m & d' & m' & ? & _)]; [auto|congruence].
  - intros h Hh. by left.
  - intros p Hp Hw. destruct Hfs as [[-> _]|(fd' & d & m & d' & m' & Hx & _ & _ & ->)]; [done|].
    rewrite lookup_insert_ne; [done|]. intros <-. apply Hw; [done|]. by exists fd'.
  - intros p Hp. destruct Hfs as [[-> _]|(fd' & d & m & d' & m' & Hx & _ & _ & ->)]; [done|].
    rewrite lookup_insert_ne; [done|]. by intros <-.
  - destruct Hfs as [[-> _]|(fd' & d & m & d' & m' & Hx & Hc & _ & ->)]; [done|].
    destruct (O4 _ _ Hx) as (_ & _ & _ & E & _). rewrite Hc in E. by eapply same_dirs_insert.
  - intros p fd. unfold lock_has. rewrite S3. auto.
  - intros Hs p. by rewrite S3.
  - by rewrite S5.
Qed.
End own.

(** Only a fault is used up. *)
Lemma lmove_idle tr gs w i g fl : cinv w0 reqs tr gs w → gs !! i = Some g → Forall no_err fl →
  lmove reqs g g w (set_faults fl w).
Proof.
  intros HI Hi Hfl. pose proof (ci_owns _ _ _ _ _ HI _ _ Hi) as Ho. destruct (Ho) as [O1 O2 _ _].
  replace g with (Local (l_id g) (l_req g) (l_sock g) (l_fds g) (l_held g) (l_pre g) (l_cur g) (l_log g)
    (l_printed g)) at 2 by (by destruct g).
  apply (lmove_own (tree_after w0 reqs tr)); auto; [by split_and!|by eapply cinv_req|]. cbn. by rewrite insert_id.
Qed.

(** ** Private routines *)

(** The world that holds only what the thread owns. *)
Definition private (g : local) : world :=
  World (match l_cur g with Some n => {[l_path g := n]} | None => ∅ end) [] (0, 0) 0 (l_fds g)
    {[rq_sock (l_req g) := l_sock g]} ∅ SStderr false [] [] [] [].

Lemma private_file g : w_fs (private g) !! l_path g = l_cur g.
Proof. cbn. destruct (l_cur g); [by rewrite lookup_singleton_eq|apply lookup_empty]. Qed.

(** Only the socket [sfd] and, perhaps, the file [ffd] are read, and written
    ([wr] for the file). *)
Definition pevent (sfd : nat) (ffd : option nat) (wr : bool) X (e : sysE X) : Prop :=
  match e with
  | Alloc => True
  | Read fd _ => fd = sfd ∨ ffd = Some fd
  | Write fd _ => fd = sfd ∨ (wr = true ∧ ffd = Some fd)
  | _ => False
  end.

Record pok (sfd : nat) (ffd : option nat) (wr : bool) (g : local) : Prop := {
  po_sock : l_fds g !! sfd = Some (OSock (rq_sock (l_req g)));
  po_new : l_printed g = false;
  po_file : ∀ f, ffd = Some f → (∃ off, l_fds g !! f = Some (OFile (l_path g) off)) ∧
    l_held g ≠ None ∧ (wr = true → writes g)
}.

(** What a private routine leaves alone. *)
Definition same_frame (g g' : local) : Prop :=
  l_id g' = l_id g ∧ l_req g' = l_req g ∧ l_held g' = l_held g ∧ l_pre g' = l_pre g ∧
  l_log g' = l_log g ∧ l_printed g' = l_printed g.

Lemma same_frame_trans g1 g2 g3 : same_frame g1 g2 → same_frame g2 g3 → same_frame g1 g3.
Proof. unfold same_frame. intros (?&?&?&?&?&?) (?&?&?&?&?&?). split_and!; congruence. Qed.

(** The fault [f] that a call met on its way from [w] to [w1] is met by the same
    call in a world where it comes next; if it did not use up a fault, also in
    one where none is to come. *)
Definition same_pop (w w1 : world) (f : fault) : Prop :=
  (∀ fl v, pop_fault (set_faults (f :: fl) v) = (f, set_faults fl v)) ∧
  ((fault_budget w1 < fault_budget w)%nat ∨ ∀ v, pop_fault (set_faults [] v) = (f, set_faults [] v)).

Lemma pop_calm w f w1 : Forall no_err (w_faults w) → pop_fault w = (f, w1) →
  no_err f ∧ Forall no_err (w_faults w1) ∧ (∃ fl, w1 = set_faults fl w) ∧ same_pop w w1 f.
Proof.
  intros Hc Hp. destruct (pop_fault_no_err _ _ _ Hp Hc) as [H1 H2].
  destruct (pop_fault_spec _ _ _ Hp) as (fl & E & _). split_and!; [done..|by exists fl|].
  split; [intros fl' v; unfold pop_fault; cbn; by destruct f|].
  unfold pop_fault in Hp. unfold fault_budget. destruct (w_faults w) as [|f0 fl0] eqn:Hw.
  - injection Hp as <- <-. by right.
  - injection Hp as _ <-. left. cbn. lia.
Qed.

(** The step of the shared world is a step of the private one, for some faults,
    and without any if no fault was used up. *)
Definition simulates (w w' : world) (g g' : local) {X} (e : sysE X) (x : X) : Prop :=
  (∃ pre, Forall no_err pre ∧ ∀ fl, sys e (set_faults (pre ++ fl) (private g)) = Some (set_faults fl (private g'), x)) ∧
  ((fault_budget w' < fault_budget w)%nat ∨ sys e (set_faults [] (private g)) = Some (set_faults [] (private g'), x)).

Lemma simulates_calm w w' g g' {X} (e : sysE X) x :
  (∀ fl, sys e (set_faults fl (private g)) = Some (set_faults fl (private g'), x)) → simulates w w' g g' e x.
Proof. intros H. split; [by exists []|by right]. Qed.

Lemma simulates_pop w w' fl' g g' {X} (e : sysE X) x f : no_err f → same_pop w (set_faults fl' w) f →
  w_faults w' = fl' →
  (∀ fl1 fl2, pop_fault (set_faults fl1 (private g)) = (f, set_faults fl2 (private g)) →
     sys e (set_faults fl1 (private g)) = Some (set_faults fl2 (private g'), x)) → simulates w w' g g' e x.
Proof.
  intros Hf [H1 H2] <- Hseq. split.
  - exists [f]. split; [by repeat constructor|]. intros fl. apply Hseq, H1.
  - destruct H2 as [H2|H2]; [by left|right]. apply Hseq, H2.
Qed.

Section step.
Context (sfd : nat) (ffd : option nat) (wr : bool).
Context tr gs g (w : world) (HI : cinv w0 reqs tr gs w) (Hi : gs !! l_id g = Some g) (Hp : pok sfd ffd wr g).

Lemma pok_frame g' : same_frame g g' → l_fds g' = l_fds g → pok sfd ffd wr g'.
Proof.
  intros (E1 & E2 & E3 & E4 & E5 & E6) Ef. destruct Hp as [P1 P2 P3].
  split; unfold l_path, writes; rewrite ?E2, ?E3, ?Ef, ?E6; auto.
Qed.

Lemma pstep_sock s w' {X} (e : sysE X) x : w' = set_socks (<[rq_sock (l_req g) := s]> (w_socks w)) w →
  Forall no_err (sk_faults s) →
  (∀ fl, sys e (set_faults fl (private g)) = Some (set_faults fl (set_socks {[rq_sock (l_req g) := s]} (private g)), x)) →
  ∃ g', lmove reqs g g' w w' ∧ pok sfd ffd wr g' ∧ same_frame g g' ∧ simulates w w' g g' e x.
Proof.
  intros -> Hs Hfl. exists (with_sock s g). split_and!.
  - eapply (lmove_own (tree_after w0 reqs tr) g w _ s (l_fds g) (l_cur g)); try done; auto.
    + by eapply ci_owns.
    + by eapply cinv_req.
    + intros Hpr. by rewrite (po_new _ _ _ _ Hp) in Hpr.
  - by apply pok_frame.
  - done.
  - by apply simulates_calm.
Qed.

Lemma pstep_faults fl' w' {X} (e : sysE X) x f : w' = set_faults fl' w → Forall no_err fl' → no_err f →
  same_pop w (set_faults fl' w) f →
  (∀ fl1 fl2, pop_fault (set_faults fl1 (private g)) = (f, set_faults fl2 (private g)) →
     sys e (set_faults fl1 (private g)) = Some (set_faults fl2 (private g), x)) →
  ∃ g', lmove reqs g g' w w' ∧ pok sfd ffd wr g' ∧ same_frame g g' ∧ simulates w w' g g' e x.
Proof.
  intros -> Hfl Hf Hpop Hseq. exists g. split_and!; try done.
  - by eapply lmove_idle.
  - by eapply simulates_pop.
Qed.

Lemma pstep_same {X} (e : sysE X) x :
  (∀ fl, sys e (set_faults fl (private g)) = Some (set_faults fl (private g), x)) →
  ∃ g', lmove reqs g g' w w ∧ pok sfd ffd wr g' ∧ same_frame g g' ∧ simulates w w g g' e x.
Proof.
  intros Hseq. exists g. split_and!; try done.
  - replace w with (set_faults (w_faults w) w) at 2 by (by destruct w). eapply lmove_idle; [done..|apply HI].
  - by apply simulates_calm.
Qed.

(** A transfer on the thread's file: the offset moves, and for a write the
    contents change. *)
Lemma pstep_file fd off o' cur fl' w' {X} (e : sysE X) x f :
  l_fds g !! fd = Some (OFile (l_path g) off) → (∃ off', o' = OFile (l_path g) off') → no_err f → Forall no_err fl' →
  (cur = l_cur g ∧ w' = set_fds (<[fd := o']> (w_fds w)) (set_faults fl' w)) ∨
  (writes g ∧ ∃ d m d' m', l_cur g = Some (NFile d m) ∧ cur = Some (NFile d' m') ∧
     w' = set_fs (<[l_path g := NFile d' m']> (w_fs w)) (set_fds (<[fd := o']> (w_fds w)) (set_faults fl' w))) →
  same_pop w (set_faults fl' w) f →
  (∀ fl1 fl2, pop_fault (set_faults fl1 (private g)) = (f, set_faults fl2 (private g)) →
     sys e (set_faults fl1 (private g)) =
     Some (set_faults fl2 (private (with_fds (<[fd := o']> (l_fds g)) (with_file (l_held g) (l_pre g) cur g))), x)) →
  ∃ g', lmove reqs g g' w w' ∧ pok sfd ffd wr g' ∧ same_frame g g' ∧ simulates w w' g g' e x.
Proof.
  intros Hfd [off' ->] Hf Hfl Hw Hpop Hseq.
  exists (with_fds (<[fd := OFile (l_path g) off']> (l_fds g)) (with_file (l_held g) (l_pre g) cur g)).
  pose proof (ci_owns _ _ _ _ _ HI _ _ Hi) as Ho. destruct (Ho) as [O1 O2 _ _].
  split_and!; [|..|eapply simulates_pop; [done..| |exact Hseq]; by destruct Hw as [[_ ->]|(_ & d & m & d' & m' & _ & _ & ->)]]; [|..|done].
  - eapply (lmove_own (tree_after w0 reqs tr) g w w' (l_sock g)); auto.
    + by destruct Hw as [[_ ->]|(_ & d & m & d' & m' & _ & _ & ->)].
    + by eapply cinv_req.
    + destruct Hw as [[_ ->]|(_ & d & m & d' & m' & _ & _ & ->)]; cbn; by rewrite insert_id.
    + right. exists fd, off, (OFile (l_path g) off'). split; [done|]. split; [|done].
      by destruct Hw as [[_ ->]|(_ & d & m & d' & m' & _ & _ & ->)].
    + destruct Hw as [[-> ->]|([lfd Hl] & d & m & d' & m' & Hc & -> & ->)]; [by left|right].
      by exists lfd, d, m, d', m'.
  - destruct Hp as [P1 P2 P3]. split; [|done|]; cbn.
    + rewrite lookup_insert_ne; [done|]. congruence.
    + intros f' Ef. destruct (P3 f' Ef) as [(o & Ho') P3']. split; [|done]. rewrite lookup_insert.
      case_decide; [by exists off'|by exists o].
Qed.

Lemma own_lookup fd o : l_fds g !! fd = Some o → w_fds w !! fd = Some o.
Proof. intros H. eapply lookup_weaken; [exact H|]. by eapply ow_fds, ci_owns. Qed.

Lemma own_file : l_held g ≠ None → w_fs w !! l_path g = l_cur g.
Proof.
  destruct (l_held g) as [[op fd]|] eqn:Hh; [|done]. intros _.
  by destruct (ow_held _ _ _ (ci_owns _ _ _ _ _ HI _ _ Hi) _ _ Hh) as (_ & _ & _ & ? & _).
Qed.

Lemma pstep_read fd n w' x : pevent sfd ffd wr _ (Read fd n) → sys_read fd n w = (w', x) →
  ∃ g', lmove reqs g g' w w' ∧ pok sfd ffd wr g' ∧ same_frame g g' ∧ simulates w w' g g' (Read fd n) x.
Proof.
  destruct (ci_owns _ _ _ _ _ HI _ _ Hi) as [O1 O2 _ _].
  intros [->|Hf] Hs; unfold sys_read in Hs.
  - rewrite (own_lookup _ _ (po_sock _ _ _ _ Hp)), O1 in Hs.
    destruct (sock_read (l_sock g) n) as [s' r] eqn:Hr. injection Hs as <- <-.
    apply (pstep_sock s'); [done|by apply (sock_read_calm _ _ _ _ Hr)|]. intros fl. cbn. unfold sys_read. cbn.
    rewrite (po_sock _ _ _ _ Hp), lookup_singleton_eq, Hr. by rewrite insert_singleton_eq.
  - destruct (po_file _ _ _ _ Hp fd Hf) as ((off & Hfd) & Hh & _).
    rewrite (own_lookup _ _ Hfd), (own_file Hh) in Hs.
    assert (Hseq : ∀ fl, sys_read fd n (set_faults fl (private g)) = match l_cur g with
      | Some (NFile d m) => let '(f, v) := pop_fault (set_faults fl (private g)) in
          match f with FErr e => (v, Err e) | _ =>
            let k := transfer f (min n (length (drop off d))) in
            (set_fds (<[fd := OFile (l_path g) (off + k)]> (w_fds v)) v, Ok (take k (drop off d))) end
      | _ => (set_faults fl (private g), Err EISDIR) end).
    { intros fl. unfold sys_read. cbn -[private pop_fault]. change (w_fds (private g)) with (l_fds g).
      by rewrite Hfd, private_file. }
    destruct (l_cur g) as [[d m|m|m]|] eqn:Hcur;
      try (injection Hs as <- <-; apply pstep_same; intros fl; cbn -[sys_read]; by rewrite Hseq).
    destruct (pop_fault w) as [f w1] eqn:Hpop.
    destruct (pop_calm _ _ _ (ci_faults _ _ _ _ _ HI) Hpop) as (Hf1 & Hf2 & (fl' & ->) & Hf3).
    destruct f as [|k|e]; [..|done]; injection Hs as <- <-.
    all: eapply (pstep_file fd off _ (l_cur g) fl'); [done|by eexists|done|done|by left|done|].
    all: intros fl1 fl2 Hpf; cbn -[sys_read]; by rewrite Hseq, Hpf.
Qed.

Lemma pstep_write fd data w' x : pevent sfd ffd wr _ (Write fd data) → sys_write fd data w = (w', x) →
  ∃ g', lmove reqs g g' w w' ∧ pok sfd ffd wr g' ∧ same_frame g g' ∧ simulates w w' g g' (Write fd data) x.
Proof.
  destruct (ci_owns _ _ _ _ _ HI _ _ Hi) as [O1 O2 _ _].
  intros [->|[Hwr Hf]] Hs; unfold sys_write in Hs.
  - rewrite (own_lookup _ _ (po_sock _ _ _ _ Hp)), O1 in Hs.
    destruct (sock_write (l_sock g) data) as [s' r] eqn:Hr. injection Hs as <- <-.
    apply (pstep_sock s'); [done|by apply (sock_write_calm _ _ _ _ Hr)|]. intros fl. cbn. unfold sys_write. cbn.
    rewrite (po_sock _ _ _ _ Hp), lookup_singleton_eq, Hr. by rewrite insert_singleton_eq.
  - destruct (po_file _ _ _ _ Hp fd Hf) as ((off & Hfd) & Hh & Hw).
    rewrite (own_lookup _ _ Hfd), (own_file Hh) in Hs.
    assert (Hseq : ∀ fl, sys_write fd data (set_faults fl (private g)) = match l_cur g with
      | Some (NFile d m) => let '(f, v) := pop_fault (set_faults fl (private g)) in
          match f with FErr e => (v, Err e) | _ =>
            let k := transfer f (length data) in
            (set_fs (<[l_path g := NFile (file_write d off (take k data)) m]> (w_fs v))
              (set_fds (<[fd := OFile (l_path g) (off + k)]> (w_fds v)) v), Ok k) end
      | _ => (set_faults fl (private g), Err EBADF) end).
    { intros fl. unfold sys_write. cbn -[private pop_fault]. change (w_fds (private g)) with (l_fds g).
      by rewrite Hfd, private_file. }
    destruct (l_cur g) as [[d m|m|m]|] eqn:Hcur;
      try (injection Hs as <- <-; apply pstep_same; intros fl; cbn -[sys_write]; by rewrite Hseq).
    destruct (pop_fault w) as [f w1] eqn:Hpop.
    destruct (pop_calm _ _ _ (ci_faults _ _ _ _ _ HI) Hpop) as (Hf1 & Hf2 & (fl' & ->) & Hf3).
    set (k := transfer f (length data)). set (d' := file_write d off (take k data)).
    assert (Hs' : (set_fs (<[l_path g := NFile d' m]> (w_fs w))
      (set_fds (<[fd := OFile (l_path g) (off + k)]> (w_fds w)) (set_faults fl' w)), Ok k) = (w', x)).
    { by destruct f. }
    injection Hs' as <- <-.
    apply (pstep_file fd off (OFile (l_path g) (off + k)) (Some (NFile d' m)) fl' _ _ _ f); try done; [by eexists|..].
    + right. split; [by apply Hw|]. by exists d, m, d', m.
    + intros fl1 fl2 Hpf. cbn -[sys_write]. rewrite Hseq, Hpf. destruct f as [|j|e]; [..|done];
        unfold private; cbn; rewrite Hcur; unfold set_fs, set_fds, set_faults; cbn; by rewrite insert_singleton_eq.
Qed.

Lemma pstep {X} (e : sysE X) w' x : pevent sfd ffd wr X e → sys e w = Some (w', x) →
  lab e x = [] ∧ ∃ g', lmove reqs g g' w w' ∧ pok sfd ffd wr g' ∧ same_frame g g' ∧ simulates w w' g g' e x.
Proof.
  intros He Hs. destruct e; try done; (split; [done|]); cbn in Hs; injection Hs as Hs.
  - by apply pstep_read.
  - by apply pstep_write.
  - unfold sys_alloc in Hs. destruct (pop_fault w) as [f w1] eqn:Hpop.
    destruct (pop_calm _ _ _ (ci_faults _ _ _ _ _ HI) Hpop) as (Hf1 & Hf2 & (fl' & ->) & Hf3).
    injection Hs as <- <-. apply (pstep_faults fl' _ _ _ f); try done.
    intros fl1 fl2 Hpf. cbn -[sys_alloc]. unfold sys_alloc. by rewrite Hpf.
Qed.
End step.

(** What holds alone, for all faults, holds in any interleaving. *)
Lemma wpt_inv {R} (t : itree sysE R) v Q : wpt t v Q →
  match observe t with
  | RetF r => Q r v
  | TauF t' => wpt t' v Q
  | VisF e k => ∀ v' x, sys e v = Some (v', x) → wpt (k x) v' Q
  end.
Proof.
  intros (r & v1 & He & HQ). inversion He as [? ? ? Ht|? ? t1 w1 ? ? Hs He1]; subst.
  - by rewrite Ht.
  - unfold step_thread in Hs. destruct (observe t) as [r'|t'|X e k]; [done|..].
    + injection Hs as <- <-. by exists r, v1.
    + intros v' x Hsys. rewrite Hsys in Hs. injection Hs as <- <-. by exists r, v1.
Qed.

Definition sock_calm (g : local) : Prop := Forall no_err (sk_faults (l_sock g)).

Lemma ok_private sfd ffd wr b {R} (t : itree sysE R) g (Post : R → world → Prop) :
  pok sfd ffd wr g → sock_calm g → (∀ n, does (pevent sfd ffd wr) n t) →
  (∀ fl, Forall no_err fl → wpt t (set_faults fl (private g)) Post) →
  cok b t g (λ r g', same_frame g g' ∧ sock_calm g' ∧ ∃ fl, Post r (set_faults fl (private g'))).
Proof.
  revert t g. induction (lt_wf b) as [b _ IHb]. intros t g Hp Hcalm Hd Hw.
  destruct (Hw [] (Forall_nil_2 _)) as (r & v1 & He & _).
  remember (set_faults [] (private g)) as v eqn:Hv. revert g Hv Hp Hcalm Hd Hw.
  induction He as [t v r Ho|t v t1 v1 r v2 Hs _ IH]; intros g -> Hp Hcalm Hd Hw.
  - eapply okt_return; [done|]. split_and!; [done..|]. exists []. specialize (Hw [] (Forall_nil_2 _)).
    apply wpt_inv in Hw. by rewrite Ho in Hw.
  - unfold step_thread in Hs. assert (Hinv := λ fl Hfl, wpt_inv _ _ _ (Hw fl Hfl)). clear Hw.
    destruct (observe t) as [r'|t'|X e k] eqn:Ho; [done|..].
    + injection Hs as <- <-. eapply okt_silent; [done|]. apply IH; try done.
      intros n. specialize (Hd (S n)). cbn in Hd. by rewrite Ho in Hd.
    + assert (Hd' : pevent sfd ffd wr X e ∧ ∀ n x, does (pevent sfd ffd wr) n (k x)).
      { split; [specialize (Hd 1%nat)|intros n x; specialize (Hd (S n))]; cbn in Hd; rewrite Ho in Hd; apply Hd. }
      destruct Hd' as [He Hd']. eapply okt_event; [done|by destruct e|]. intros tr gs w w' x i Hi HI Hb Hsys.
      assert (l_id g = i) as Hid by (by eapply ci_who in Hi as [? _]). subst i.
      destruct (pstep _ _ _ tr gs g w HI Hi Hp e w' x He Hsys)
        as (-> & g' & Hm & Hp' & Hfr & (pre & Hpre & Hsim) & Hlast).
      exists g'. split; [by eapply (cinv_step w0 dir)|]. eapply okt_conseq.
      * assert (Hnext : ∀ fl, Forall no_err fl → wpt (k x) (set_faults fl (private g')) Post).
        { intros fl Hfl. eapply Hinv; [|apply Hsim]. by apply Forall_app. }
        destruct Hlast as [Hlt|Hlast]; [apply IHb; [lia|done|apply Hm|done|done]|].
        rewrite Hlast in Hs. injection Hs as <- <-.
        eapply okt_mono; [|apply IH; [done|done|apply Hm|done|done]]. apply fault_budget_falls in Hsys. lia.
      * intros r0 g'' (Hfr' & Hpost). split; [by eapply same_frame_trans|done].
Qed.
End rules.
