(* ===== verification/SharedCalls.v ===== *)
(** * Calls of threads that share a file tree

    What opening, locking, closing and writing to the log do to what a thread
    owns. *)
From S2P Require Import Prelude Libc Regex Http Prog Pools PoolsTerm Posix Util Connection Log Server Parsing.
From S2P Require Import Transfer Locks Handlers Serve AuditLog Shared SharedRules.
Local Open Scope Z_scope.
Local Open Scope prog_scope.

(** A descriptor without a lock has none to drop. *)
Lemma drop_lock_absent p fd locks : ¬ (match locks !! p with
    | Some (LExclusive fd') => fd = fd' | Some (LShared s) => fd ∈ s | None => False end) →
  locks !! p ≠ Some (LShared ∅) → drop_lock p fd locks = locks.
Proof.
  intros Hn He. unfold drop_lock. destruct (locks !! p) as [[s|fd']|] eqn:Hp; [|by rewrite decide_False|done].
  rewrite (difference_disjoint_L s {[fd]}) by set_solver. rewrite decide_False by congruence. by apply insert_id.
Qed.

Section calls.
Context (w0 : world) (dir : bytes) (reqs : list request) (Hcs : clients_ok w0 dir reqs).
Local Abbreviation cok := (okt (cinv w0 reqs) cwaits fault_budget).

(** ** Opening *)

Lemma faulty_calm {X} (body : world → world * rc X) w w' r : Forall no_err (w_faults w) →
  faulty body w = (w', r) → ∃ fl, Forall no_err fl ∧ body (set_faults fl w) = (w', r).
Proof.
  intros Hc. unfold faulty. destruct (pop_fault w) as [f w1] eqn:Hp.
  destruct (pop_calm _ _ _ Hc Hp) as (Hf & Hf2 & (fl & ->) & _). by destruct f; [exists fl..|].
Qed.

Section open.
Context tr gs g (w : world) (HI : cinv w0 reqs tr gs w) (Hi : gs !! l_id g = Some g).

(** A descriptor is opened on [p]; only a lockfile, or the file the thread may
    write, can be new. *)
Lemma lmove_open fl p fs cur : Forall no_err fl →
  (fs = w_fs w ∧ cur = l_cur g) ∨
  (∃ m, w_fs w !! p = None ∧ fs = <[p := NFile [] m]> (w_fs w) ∧
     ((is_lockfile reqs p ∧ m_r m = true ∧ cur = l_cur g) ∨
      (p = l_path g ∧ writes g ∧ cur = Some (NFile [] m)))) →
  let f := fd_alloc (w_fds w) in
  l_fds g !! f = None ∧
  lmove reqs g (with_fds (<[f := OFile p 0]> (l_fds g)) (with_file (l_held g) (l_pre g) cur g)) w
    (opened (set_faults fl w) p f fs).
Proof.
  intros Hfl Hfs f. pose proof (fd_alloc_fresh (w_fds w)) as Hfresh. fold f in Hfresh.
  pose proof (ci_owns _ _ _ _ _ HI _ _ Hi) as Ho. destruct (Ho) as [O1 O2 O3 O4].
  assert (Hlp : ¬ is_lockfile reqs (l_path g)) by (eapply path_not_lock, cinv_req; eauto).
  assert (Hf : l_fds g !! f = None) by (by eapply lookup_weaken_None).
  split; [done|]. constructor; cbn; try done.
  - by apply insert_mono.
  - intros fd o Hn Hs. rewrite !lookup_insert_ne by congruence. done.
  - intros op fd Hh. destruct (O4 op fd Hh) as (L1 & (off & L2) & L3 & L4 & L5). split_and!; [done| | |].
    + exists off. rewrite lookup_insert_ne by congruence. done.
    + destruct Hfs as [[-> ->]|(m & Hn & -> & [(Hl & _ & ->)|(-> & _ & ->)])]; [done| |by rewrite lookup_insert_eq].
      rewrite lookup_insert_ne; [done|]. by intros ->.
    + intros Hop. destruct Hfs as [[_ ->]|(m & _ & _ & [(_ & _ & ->)|(_ & [fd' Hw] & _)])]; [auto..|congruence].
  - intros h Hh. by left.
  - intros p' Hp' Hw. destruct Hfs as [[-> _]|(m & Hn & -> & [(Hl & _)|(-> & Hwr & _)])]; [done|..];
      rewrite lookup_insert_ne; try done; intros <-; [done|]. by apply Hw.
  - intros p' Hp' Hok. destruct Hfs as [[-> _]|(m & Hn & -> & [(Hl & Hm & _)|(-> & Hwr & _)])]; [done|..].
    + rewrite lookup_insert. case_decide; [done|by subst].
    + rewrite lookup_insert_ne; [done|]. by intros <-.
  - destruct Hfs as [[-> _]|(m & Hn & -> & _)]; [done|]. by eapply same_dirs_insert.
  - intros p' fd. auto.
Qed.

Lemma own_namei u p : namei w0 u = Ok p → namei w u = Ok p.
Proof. apply namei_dirs; apply HI. Qed.

(** The lockfile can always be opened. *)
Lemma open_lock_move w' r :
  sys_open (lock_path_for dir (rq_uri (l_req g)) 192) LOCK_FLAGS w = (w', r) →
  ∃ fd, r = Ok fd ∧ l_fds g !! fd = None ∧
    lmove reqs g (with_fds (<[fd := OFile (l_lockfile g) 0]> (l_fds g)) g) w w'.
Proof.
  intros Hs. apply faulty_calm in Hs as (fl & Hfl & Hs); [|apply HI].
  pose proof (cinv_client w0 dir reqs Hcs _ _ _ _ _ HI Hi) as Hc.
  pose proof (own_namei _ _ (cl_lock _ _ _ Hc)) as Hn.
  assert (Hlf : is_lockfile reqs (l_lockfile g)) by (exists (l_req g); split; [by eapply cinv_req|done]).
  pose proof (ci_lockfile _ _ _ _ _ HI _ Hlf) as Hok.
  pose proof (cl_lockdir _ _ _ Hc) as Hdir. unfold writable_dir in Hdir.
  unfold do_open in Hs. change (namei (set_faults fl w) ?p) with (namei w p) in Hs. rewrite Hn in Hs.
  fold (l_lockfile g) in Hs, Hdir. cbn [w_fs set_faults] in Hs. exists (fd_alloc (w_fds w)).
  replace g with (with_file (l_held g) (l_pre g) (l_cur g) g) at 4 by (by destruct g).
  destruct (w_fs w !! l_lockfile g) as [[d m|m|m]|] eqn:Hlk; cbn in Hok; try done.
  - cbn in Hs. rewrite Hok in Hs. injection Hs as <- <-. split; [done|].
    apply (lmove_open fl (l_lockfile g) (w_fs w) (l_cur g)); auto.
  - cbn in Hs. destruct (w_fs w0 !! removelast (l_lockfile g)) as [[|m|]|] eqn:Hd; try done.
    rewrite (proj1 (ci_dirs _ _ _ _ _ HI _ _) Hd), Hdir in Hs. injection Hs as <- <-. split; [done|].
    apply (lmove_open fl (l_lockfile g) _ (l_cur g)); [done|]. right. eexists. split_and!; [done..|]. by left.
Qed.

Lemma open_get_move w' r : l_held g ≠ None → sys_open (rq_uri (l_req g)) O_RDONLY w = (w', r) →
  match r with
  | Err e => lmove reqs g g w w' ∧ get_result (l_cur g) = (get_open_error e, response_message (get_open_error e))
  | Ok fd => l_fds g !! fd = None ∧ lmove reqs g (with_fds (<[fd := OFile (l_path g) 0]> (l_fds g)) g) w w' ∧
      match l_cur g with
      | Some (NFile d m) => get_result (l_cur g) = (RESPONSE_OK, file_header (Z.of_nat (length d)) ++ d)
      | Some (NDir _) => get_result (l_cur g) = (RESPONSE_FORBIDDEN, response_message RESPONSE_FORBIDDEN)
      | _ => False
      end
  end.
Proof.
  intros Hh Hs. apply faulty_calm in Hs as (fl & Hfl & Hs); [|apply HI].
  pose proof (own_namei _ _ (cl_path _ _ _ (cinv_client w0 dir reqs Hcs _ _ _ _ _ HI Hi))) as Hn.
  unfold do_open in Hs. change (namei (set_faults fl w) ?p) with (namei w p) in Hs. rewrite Hn in Hs.
  fold (l_path g) in Hs. cbn [w_fs set_faults] in Hs. rewrite (own_file w0 reqs tr gs g w HI Hi Hh) in Hs.
  pose proof (lmove_idle w0 dir reqs Hcs _ _ _ _ _ _ HI Hi Hfl) as Hidle.
  assert (Hopen : let f := fd_alloc (w_fds w) in l_fds g !! f = None ∧
    lmove reqs g (with_fds (<[f := OFile (l_path g) 0]> (l_fds g)) g) w (opened (set_faults fl w) (l_path g) f (w_fs w))).
  { intros f. replace g with (with_file (l_held g) (l_pre g) (l_cur g) g) at 4 by (by destruct g).
    apply (lmove_open fl (l_path g) (w_fs w) (l_cur g)); auto. }
  unfold get_result. destruct (l_cur g) as [[d m|m|m]|] eqn:Hcur; cbn in Hs.
  - destruct (m_r m); injection Hs as <- <-; [|done]. destruct Hopen. by split_and!.
  - destruct (m_r m); injection Hs as <- <-; [|done]. destruct Hopen. by split_and!.
  - by injection Hs as <- <-.
  - by injection Hs as <- <-.
Qed.

Lemma open_put_move w' r : writes g → sys_open (rq_uri (l_req g)) PUT_FLAGS w = (w', r) →
  let result := put_result (writable_dir w0 (removelast (l_path g))) (mode_0600 w0) (rq_body (l_req g)) (l_cur g) in
  match r with
  | Err e => lmove reqs g g w w' ∧ result = (put_open_error e, l_cur g)
  | Ok fd => ∃ d m, l_fds g !! fd = None ∧
      lmove reqs g (with_fds (<[fd := OFile (l_path g) 0]> (l_fds g))
        (with_file (l_held g) (l_pre g) (Some (NFile d m)) g)) w w' ∧
      result = (match l_cur g with Some _ => RESPONSE_OK | None => RESPONSE_CREATED end, Some (NFile (rq_body (l_req g)) m))
  end.
Proof.
  intros Hwr Hs result. apply faulty_calm in Hs as (fl & Hfl & Hs); [|apply HI].
  pose proof (own_namei _ _ (cl_path _ _ _ (cinv_client w0 dir reqs Hcs _ _ _ _ _ HI Hi))) as Hn.
  assert (Hh : l_held g ≠ None) by (destruct Hwr as [fd ->]; done).
  unfold do_open in Hs. change (namei (set_faults fl w) ?p) with (namei w p) in Hs. rewrite Hn in Hs.
  fold (l_path g) in Hs. cbn [w_fs set_faults] in Hs. pose proof (own_file w0 reqs tr gs g w HI Hi Hh) as Hfile. rewrite Hfile in Hs.
  pose proof (lmove_idle w0 dir reqs Hcs _ _ _ _ _ _ HI Hi Hfl) as Hidle.
  unfold result, put_result, writable_dir. destruct (l_cur g) as [[d m|m|m]|] eqn:Hcur; cbn in Hs.
  - destruct (m_w m); injection Hs as <- <-; [|done]. exists d, m.
    destruct (lmove_open fl (l_path g) (w_fs w) (Some (NFile d m)) Hfl) as [H1 H2]; [by left|by split_and!].
  - by injection Hs as <- <-.
  - by injection Hs as <- <-.
  - destruct (w_fs w !! removelast (l_path g)) as [[|m|]|] eqn:Hd.
    2: rewrite (proj2 (ci_dirs _ _ _ _ _ HI _ _) Hd); destruct (m_w m); injection Hs as <- <-; [|done].
    2: { exists [], (mode_0600 w0). assert (mode_0600 (set_faults fl w) = mode_0600 w0) as ->.
         { unfold mode_0600. cbn. by destruct (ci_static _ _ _ _ _ HI) as [_ ->]. }
         destruct (lmove_open fl (l_path g) (<[l_path g := NFile [] (mode_0600 w0)]> (w_fs w))
           (Some (NFile [] (mode_0600 w0))) Hfl) as [H1 H2]; [|by split_and!].
         right. eexists. split_and!; [done..|]. by right. }
    all: injection Hs as <- <-; split; [done|].
    all: destruct (w_fs w0 !! removelast (l_path g)) as [[|m'|]|] eqn:Hd0; try done.
    all: by rewrite (proj1 (ci_dirs _ _ _ _ _ HI _ _) Hd0) in Hd.
Qed.
End open.

(** ** Locks *)

Section lock.
Context tr gs g (w : world) (HI : cinv w0 reqs tr gs w) (Hi : gs !! l_id g = Some g).

(** A descriptor of this thread holds a lock only if the thread says so. *)
Lemma own_lock p fd : is_Some (l_fds g !! fd) → lock_has w p fd →
  l_lockfile g = p ∧ ∃ op, l_held g = Some (op, fd).
Proof.
  intros [o Ho] Hl. destruct (ci_owner _ _ _ _ _ HI p fd Hl) as (j & x & op & Hx & Hlp & Hh).
  destruct (ow_held _ _ _ (ci_owns _ _ _ _ _ HI _ _ Hx) _ _ Hh) as (_ & (off & Hf) & _).
  destruct (decide (j = l_id g)) as [->|Hj]; [rewrite Hi in Hx; injection Hx as <-; eauto|exfalso].
  pose proof (ci_apart _ _ _ _ _ HI _ _ _ _ Hj Hx Hi) as Hd. by eapply (map_disjoint_spec (l_fds x) (l_fds g)).
Qed.

Lemma flock_move fd op off w' r : op ≠ LOCK_UN → l_held g = None →
  l_fds g !! fd = Some (OFile (l_lockfile g) off) → sys_flock fd op w = Some (w', r) →
  r = Ok tt ∧ ∃ n, lmove reqs g (with_file (Some (op, fd)) n n g) w w'.
Proof.
  intros Hop Hh Hfd Hs. unfold sys_flock in Hs.
  rewrite (own_lookup w0 reqs tr gs g w HI Hi _ _ Hfd), decide_False in Hs by done.
  destruct (pop_fault w) as [f w1] eqn:Hp.
  destruct (pop_calm _ _ _ (ci_faults _ _ _ _ _ HI) Hp) as (Hf & Hf2 & (fl & ->) & _). cbn [w_flocks set_faults] in Hs.
  destruct (take_lock _ fd op (w_flocks w)) as [locks|] eqn:Ht; [|by destruct f].
  assert (w' = set_flocks locks (set_faults fl w) ∧ r = Ok tt) as [-> ->] by (destruct f; [by simplify_eq..|done]).
  clear Hs. split; [done|]. exists (w_fs w !! l_path g).
  pose proof (ci_owns _ _ _ _ _ HI _ _ Hi) as Ho. destruct (Ho) as [O1 O2 O3 O4].
  assert (Hlk : ∀ p, p ≠ l_lockfile g → locks !! p = w_flocks w !! p).
  { intros p Hne. unfold take_lock in Ht. destruct op, (w_flocks w !! l_lockfile g) as [[]|]; simplify_eq;
      by rewrite lookup_insert_ne. }
  assert (Hmine : locks !! l_lockfile g = match op, w_flocks w !! l_lockfile g with
    | LOCK_SH, Some (LShared s) => Some (LShared ({[fd]} ∪ s)) | LOCK_SH, _ => Some (LShared {[fd]})
    | _, _ => Some (LExclusive fd) end).
  { unfold take_lock in Ht. destruct op, (w_flocks w !! l_lockfile g) as [[]|]; simplify_eq;
      by rewrite lookup_insert_eq. }
  unfold take_lock in Ht.
  constructor; cbn [l_id l_req l_sock l_fds l_held l_pre l_cur l_log l_printed with_file
    w_cwd w_euid w_log_stream w_faults w_socks w_fds w_fs w_flocks w_log_mu set_flocks set_faults]; try done.
  - intros p op' fd' Hn. unfold holds. cbn. destruct (decide (p = l_lockfile g)) as [->|Hne]; [|by rewrite Hlk].
    rewrite Hmine. destruct op', op, (w_flocks w !! l_lockfile g) as [[s|]|]; simplify_eq; try done.
    + intros (s' & [= <-] & Hin). eexists. split; [done|]. set_solver.
    + by intros (s' & ? & _).
    + by intros (s' & ? & _).
  - intros op' fd' [= <- <-]. split_and!; try done; [|by exists off]. unfold holds. cbn. rewrite Hmine.
    destruct op, (w_flocks w !! l_lockfile g) as [[s|]|]; simplify_eq; try done; eexists; (split; [done|]); set_solver.
  - intros h [= <-]. right. split_and!; try done. intros fd' E. rewrite E in Ht. by destruct op.
  - intros p fd'. unfold lock_has. cbn. destruct (decide (p = l_lockfile g)) as [->|Hne].
    + rewrite Hmine. destruct op, (w_flocks w !! l_lockfile g) as [[s|]|]; simplify_eq; intros Hin.
      * apply elem_of_union in Hin as [->%elem_of_singleton|Hin]; [right; eauto|left].
        split; [done|]. right. by rewrite Hh.
      * apply elem_of_singleton in Hin as ->. right. eauto.
      * subst. right. eauto.
    + rewrite Hlk by done. intros Hl. left. split; [done|]. right. by rewrite Hh.
  - intros Hs p. destruct (decide (p = l_lockfile g)) as [->|Hne]; [|by rewrite Hlk].
    rewrite Hmine. destruct op, (w_flocks w !! l_lockfile g) as [[s|]|]; simplify_eq; try done; intros [=]; set_solver.
Qed.

Lemma unlock_move op fd w' r : l_held g = Some (op, fd) → l_pre g = l_cur g →
  sys_flock fd LOCK_UN w = Some (w', r) → lmove reqs g (with_file None (l_pre g) (l_cur g) g) w w'.
Proof.
  intros Hh Hpc Hs. pose proof (ci_owns _ _ _ _ _ HI _ _ Hi) as Ho. destruct (Ho) as [O1 O2 O3 O4].
  destruct (O4 _ _ Hh) as (L1 & (off & L2) & L3 & L4 & _).
  unfold sys_flock in Hs. rewrite (own_lookup w0 reqs tr gs g w HI Hi _ _ L2), decide_True in Hs by done.
  injection Hs as <- <-. set (lp := l_lockfile g) in *. set (locks := drop_lock lp fd (w_flocks w)).
  assert (Hlk : ∀ p, p ≠ lp → locks !! p = w_flocks w !! p).
  { intros p Hne. unfold locks, drop_lock. destruct (w_flocks w !! lp) as [[s|fd']|]; [|case_decide|];
      try case_decide; by rewrite ?lookup_delete_ne, ?lookup_insert_ne. }
  assert (Hmine : locks !! lp = match w_flocks w !! lp with
    | Some (LShared s) => if decide (s ∖ {[fd]} = ∅) then None else Some (LShared (s ∖ {[fd]})) | _ => None end).
  { unfold locks, drop_lock. destruct op; cbn in L1; [destruct L1 as (s & L1 & _)|..]; rewrite L1.
    - case_decide; by rewrite ?lookup_delete_eq, ?lookup_insert_eq.
    - rewrite decide_True by done. by rewrite lookup_delete_eq.
    - rewrite decide_True by done. by rewrite lookup_delete_eq. }
  clearbody locks.
  constructor; cbn [l_id l_req l_sock l_fds l_held l_pre l_cur l_log l_printed with_file
    w_cwd w_euid w_log_stream w_faults w_socks w_fds w_fs w_flocks w_log_mu set_flocks]; try done.
  - intros p op' fd' Hn. assert (fd' ≠ fd) by congruence. unfold holds. cbn.
    destruct (decide (p = lp)) as [->|Hne]; [|by rewrite Hlk].
    rewrite Hmine. destruct op; cbn in L1; [destruct L1 as (s & L1 & Hin)|..]; rewrite L1;
      destruct op'; try (by intros (s' & ? & _)); try (intros; by simplify_eq).
    intros (s' & [= <-] & Hin'). assert (fd' ∈ s ∖ {[fd]}) by set_solver. rewrite decide_False by set_solver. eauto.
  - intros p fd'. unfold lock_has. cbn. destruct (decide (p = lp)) as [->|Hne].
    + rewrite Hmine. intros Hl. left. destruct (w_flocks w !! lp) as [[s|fd1]|]; [|done..]. case_decide; [done|].
      split; [set_solver|]. right. intros op' E. rewrite Hh in E. injection E as _ <-. set_solver.
    + rewrite Hlk by done. intros Hl. left. split; [done|]. right. intros op' E. rewrite Hh in E. injection E as _ <-.
      destruct (own_lock p fd) as [E _]; [by rewrite L2|done|]. by destruct Hne.
  - intros Hs p. destruct (decide (p = lp)) as [->|Hne]; [|by rewrite Hlk]. rewrite Hmine.
    destruct (w_flocks w !! lp) as [[s|fd1]|]; [|done..]. case_decide; [done|]. congruence.
Qed.

Lemma close_move fd o : l_fds g !! fd = Some o → (∀ op, l_held g ≠ Some (op, fd)) →
  lmove reqs g (with_fds (delete fd (l_fds g)) g) w (sys_close fd w).
Proof.
  intros Hfd Hnl. pose proof (ci_owns _ _ _ _ _ HI _ _ Hi) as Ho. destruct (Ho) as [O1 O2 O3 O4].
  assert (Hno : ∀ p, ¬ lock_has w p fd).
  { intros p Hl. destruct (own_lock p fd) as [_ [op Hh]]; [by rewrite Hfd|done|]. by destruct (Hnl op). }
  assert (sys_close fd w = set_fds (delete fd (w_fds w)) w) as ->.
  { unfold sys_close. rewrite (own_lookup w0 reqs tr gs g w HI Hi _ _ Hfd). destruct o as [p off|c]; [|done].
    rewrite drop_lock_absent; [by destruct w|by apply Hno|apply HI]. }
  constructor; cbn; try done.
  - by apply delete_mono.
  - intros fd' o' Hn Hs. rewrite !lookup_delete_ne by congruence. done.
  - intros op fd' Hh. destruct (O4 op fd' Hh) as (L1 & (off & L2) & L3 & L4 & L5). split_and!; try done.
    exists off. rewrite lookup_delete_ne; [done|]. intros ->. by destruct (Hnl op).
  - intros h Hh. by left.
  - intros p fd'. auto.
Qed.

(** ** The file under its lock *)

Lemma fstat_move fd off n w' r : l_held g ≠ None → l_fds g !! fd = Some (OFile (l_path g) off) → l_cur g = Some n →
  sys_fstat fd w = (w', r) → r = Ok (stat_of n) ∧ lmove reqs g g w w'.
Proof.
  intros Hh Hfd Hn Hs. apply faulty_calm in Hs as (fl & Hfl & Hs); [|apply HI].
  unfold do_fstat in Hs. cbn [w_fds w_fs set_faults] in Hs.
  rewrite (own_lookup w0 reqs tr gs g w HI Hi _ _ Hfd), (own_file w0 reqs tr gs g w HI Hi Hh), Hn in Hs.
  injection Hs as <- <-. split; [done|]. by eapply (lmove_idle w0 dir).
Qed.

Lemma ftruncate_move fd off d m w' r : writes g → l_fds g !! fd = Some (OFile (l_path g) off) →
  l_cur g = Some (NFile d m) → sys_ftruncate fd w = (w', r) →
  r = Ok tt ∧ lmove reqs g (with_file (l_held g) (l_pre g) (Some (NFile [] m)) g) w w'.
Proof.
  intros Hwr Hfd Hn Hs. assert (Hh : l_held g ≠ None) by (destruct Hwr as [? ->]; done).
  apply faulty_calm in Hs as (fl & Hfl & Hs); [|apply HI].
  unfold do_ftruncate in Hs. cbn [w_fds w_fs set_faults] in Hs.
  rewrite (own_lookup w0 reqs tr gs g w HI Hi _ _ Hfd), (own_file w0 reqs tr gs g w HI Hi Hh), Hn in Hs.
  injection Hs as <- <-. split; [done|]. pose proof (ci_owns _ _ _ _ _ HI _ _ Hi) as Ho. destruct (Ho) as [O1 O2 _ _].
  destruct Hwr as [lfd Hl].
  apply (lmove_own w0 dir reqs Hcs (tree_after w0 reqs tr) g w _ (l_sock g) (l_fds g)); auto.
  - by split_and!.
  - by eapply cinv_req.
  - cbn. by rewrite insert_id.
  - right. exists lfd, d, m, [], m. by split_and!.
Qed.

Lemma access_own : l_held g ≠ None →
  sys_access (rq_uri (l_req g)) w = match l_cur g with Some _ => true | None => false end.
Proof.
  intros Hh. unfold sys_access.
  rewrite (own_namei tr gs w HI _ _ (cl_path _ _ _ (cinv_client w0 dir reqs Hcs _ _ _ _ _ HI Hi))).
  fold (l_path g). rewrite (own_file w0 reqs tr gs g w HI Hi Hh). by destruct (l_cur g).
Qed.

(** ** The log *)

Lemma lmove_log b mu buf out fl : (one mu + one (l_log g) = one (w_log_mu w) + one b)%nat →
  lmove reqs g (with_log b (l_printed g) g) w (set_log (w_log_stream w) mu buf out (set_log_faults fl w)).
Proof.
  intros Hmu. pose proof (ci_owns _ _ _ _ _ HI _ _ Hi) as Ho. destruct (Ho) as [O1 O2 O3 O4].
  constructor; cbn; try done.
  - intros op fd Hh. destruct (O4 op fd Hh) as (L1 & L2 & L3 & L4 & L5). by split_and!.
  - intros h Hh. by left.
  - intros p fd. auto.
Qed.

Lemma log_held : l_log g = true → w_log_mu w = true.
Proof.
  intros Hl. pose proof (total_in (λ g, one (l_log g)) _ _ _ Hi) as H. pose proof (ci_mu _ _ _ _ _ HI) as Hm.
  cbn in H. rewrite Hl in H. destruct (w_log_mu w); [done|]. cbn in *. lia.
Qed.
End lock.
End calls.
