(* ===== verification/Linear.v ===== *)
(** * The audit log is a linearization (src/httpserver.c, src/log.c)

    The handlers under interference, and the property their locking is for:
    however many connections are handled at once, the lines of the audit log,
    in their order, are the history of a server that executes one request at a
    time, and every client was answered as that server would have answered. *)
From S2P Require Import Prelude Libc Regex Http Prog Pools PoolsTerm Posix Util Demo Connection IoEvents Log Server Parsing.
From S2P Require Import Transfer Locks Handlers Serve AuditLog Shared SharedRules SharedCalls.
Local Open Scope Z_scope.
Local Open Scope prog_scope.

Section linear.
Context (w0 : world) (dir : bytes) (reqs : list request) (Hcs : clients_ok w0 dir reqs).
Local Abbreviation cok := (okt (cinv w0 reqs) cwaits fault_budget).

(** Files stay within what the header can announce. *)
Definition size_ok (n : option node) : Prop :=
  match n with Some (NFile d _) => Z.of_nat (length d) ≤ ULLONG_MAX | _ => True end.

Lemma outcome_size r n : client_ok w0 dir r → size_ok n → size_ok (outcome w0 r n).2.
Proof.
  intros Hc Hn. pose proof (cl_length _ _ _ Hc) as Hl. unfold outcome.
  destruct (rq_kind r); [by destruct (get_result n)| |done].
  destruct (Hl eq_refl) as [_ Hb]. assert (Z.of_nat (length (rq_body r)) ≤ ULLONG_MAX)
    by (unfold LONG_MAX, ULLONG_MAX in *; lia).
  unfold put_result. destruct n as [[d m|m|m]|]; [by destruct (m_w m)|done..|by destruct (writable_dir _ _)].
Qed.

Lemma tree_after_sizes tr p : size_ok (tree_after w0 reqs tr !! p).
Proof.
  revert p. induction tr as [|[i l] tr IH] using rev_ind; intros p.
  { unfold tree_after. cbn. destruct (w_fs w0 !! p) as [[d m| |]|] eqn:Hp; try done. by apply (cs_sizes _ _ _ Hcs) in Hp. }
  destruct (reqs !! i) as [r|] eqn:Hr.
  - rewrite (tree_after_snoc _ _ _ _ _ _ Hr). apply list_elem_of_lookup_2 in Hr as Hin.
    pose proof (cs_each _ _ _ Hcs r Hin) as Hc.
    destruct (spec_request_local w0 r (tree_after w0 reqs tr)) as (A' & -> & HA & Ho & _).
    { apply Hc. }
    { by apply (tree_after_dirs w0 dir). }
    cbn [snd]. destruct (decide (p = rq_path r)) as [->|Hne]; [|by rewrite Ho].
    rewrite HA. by apply outcome_size.
  - unfold tree_after. rewrite foldl_app. cbn. rewrite Hr. apply IH.
Qed.

(** ** Steps of the handlers *)

Lemma ok_open_lock n g (Q : rc nat → local → Prop) :
  (∀ fd, l_fds g !! fd = None → Q (Ok fd) (with_fds (<[fd := OFile (l_lockfile g) 0]> (l_fds g)) g)) →
  cok n (perform (Open (lock_path_for dir (rq_uri (l_req g)) 192) LOCK_FLAGS)) g Q.
Proof.
  intros HQ. apply (ok_move w0 dir reqs Hcs); [done|]. intros tr gs w w' x HI Hi Hs. split; [done|].
  cbn in Hs. injection Hs as Hs.
  destruct (open_lock_move w0 dir reqs Hcs tr gs g w HI Hi w' x Hs) as (fd & -> & Hn & Hm). eauto.
Qed.

Lemma ok_flock n g fd off op (Q : rc unit → local → Prop) : op ≠ LOCK_UN → l_held g = None → l_log g = false →
  l_fds g !! fd = Some (OFile (l_lockfile g) off) →
  (∀ m, size_ok m → Q (Ok tt) (with_file (Some (op, fd)) m m g)) → cok n (flock_retry fd op) g Q.
Proof.
  intros Hop Hh Hl Hfd HQ. unfold flock_retry.
  apply cok_iter_once. apply cok_bind.
  apply (ok_move w0 dir reqs Hcs); [by right; eauto|]. intros tr gs w w' x HI Hi Hs. split; [done|].
  destruct (flock_move w0 dir reqs Hcs tr gs g w HI Hi fd op off w' x) as (-> & k & Hm); try done.
  eexists. split; [exact Hm|]. apply okt_ret, HQ.
  pose proof (step_owns_mine w0 dir reqs Hcs _ _ _ _ _ _ _ HI Hi Hm) as [_ _ _ Ho].
  destruct (Ho op fd eq_refl) as (_ & _ & E & _). cbn in E. rewrite <- E. apply tree_after_sizes.
Qed.

Lemma ok_uri_lock n g op (Q : option nat → local → Prop) : op ≠ LOCK_UN → l_held g = None → l_log g = false →
  (∀ fd m, l_fds g !! fd = None → size_ok m →
     Q (Some fd) (with_file (Some (op, fd)) m m (with_fds (<[fd := OFile (l_lockfile g) 0]> (l_fds g)) g))) →
  cok n (uri_lock dir (rq_uri (l_req g)) op) g Q.
Proof.
  intros Hop Hh Hl HQ. unfold uri_lock. apply cok_bind, ok_open_lock. intros fd Hfd. apply cok_bind.
  eapply ok_flock; [done|done|done|apply lookup_insert_eq|]. intros m Hm. apply okt_ret. by apply HQ.
Qed.

Lemma ok_close n g fd o (Q : unit → local → Prop) : l_fds g !! fd = Some o → (∀ op, l_held g ≠ Some (op, fd)) →
  Q tt (with_fds (delete fd (l_fds g)) g) → cok n (perform (Close fd)) g Q.
Proof.
  intros Hfd Hn HQ. apply (ok_move w0 dir reqs Hcs); [done|]. intros tr gs w w' [] HI Hi Hs. split; [done|].
  cbn in Hs. injection Hs as <-. eexists. split; [by eapply close_move|done].
Qed.

Lemma ok_uri_unlock n g op fd off (Q : unit → local → Prop) : l_held g = Some (op, fd) → l_pre g = l_cur g →
  l_fds g !! fd = Some (OFile (l_lockfile g) off) →
  Q tt (with_fds (delete fd (l_fds g)) (with_file None (l_pre g) (l_cur g) g)) → cok n (uri_unlock (Some fd)) g Q.
Proof.
  intros Hh Hpc Hfd HQ. unfold uri_unlock. apply cok_bind.
  apply (ok_move w0 dir reqs Hcs); [by left|]. intros tr gs w w' x HI Hi Hs. split; [done|].
  eexists. split; [by eapply unlock_move|]. by eapply ok_close.
Qed.

(** *** The audit line: the request takes effect *)

Lemma lin_log_audit n g oper u status rid (Q : unit → local → Prop) : l_log g = false → l_printed g = false →
  ready_to_print w0 g (audit_line oper u status rid) → Q tt (after_print w0 g) →
  cok n (log_audit oper u status rid) g Q.
Proof.
  intros Hl Hp Hr HQ. unfold log_audit. apply cok_bind.
  apply (ok_move w0 dir reqs Hcs); [done|]. intros tr gs w w' [] HI Hi Hs. split; [done|]. cbn in Hs.
  destruct (w_log_mu w) eqn:Hmu; [done|]. injection Hs as <-.
  exists (with_log true (l_printed g) g). split; [apply (lmove_log w0 reqs _ _ _ _ HI Hi true true _ _ (w_log_faults w)); by rewrite Hmu, Hl|].
  clear tr gs w HI Hi Hmu. set (g1 := with_log true (l_printed g) g).
  apply cok_bind. apply (ok_move w0 dir reqs Hcs); [done|]. intros tr gs w w' st HI Hi Hs. split; [done|].
  cbn in Hs. injection Hs as <- <-. exists g1. split.
  { replace w with (set_log (w_log_stream w) (w_log_mu w) (w_log_buf w) (w_log_out w) w) at 2 by (by destruct w).
    by apply (lmove_log w0 reqs _ _ _ _ HI Hi true _ _ _ (w_log_faults w)). }
  pose proof (ci_stream _ _ _ _ _ HI) as Hst. revert Hst. generalize (w_log_stream w) as st. clear tr gs w HI Hi.
  intros st Hst. apply cok_bind.
  apply (okt_conseq _ _ _ _ _ _ (λ _ g', g' = after_print w0 g1)).
  - assert (Hprint : cok n (do! ! (Fprintf (audit_line oper u status rid)) in ! Fflush) g1
      (λ _ g', g' = after_print w0 g1)).
    { apply cok_bind, okt_trigger; [done|]. intros tr gs w w' [] i Hi HI Hs. cbn in Hs. injection Hs as <-.
      assert (l_id g1 = i) as Hid by (by eapply ci_who in Hi as [? _]). exists (after_print w0 g1).
      split; [by eapply (cinv_print w0 dir reqs Hcs _ _ _ _ _ _ HI Hi)|].
      apply (ok_move w0 dir reqs Hcs); [done|]. clear. intros tr gs w w' [] HI Hi Hs. split; [done|].
      cbn in Hs. injection Hs as <-. exists (after_print w0 g1). split; [|done].
      unfold flush_log. destruct (pop_log_cases w) as (f & fl & -> & _).
      by apply (lmove_log w0 reqs _ _ _ _ HI Hi true). }
    destruct st; [done|exact Hprint|exact Hprint].
  - intros [] g' ->. apply (ok_move w0 dir reqs Hcs); [done|]. intros tr gs w w' [] HI Hi Hs. split; [done|].
    cbn in Hs. injection Hs as <-. exists (after_print w0 g). split; [|done].
    replace (after_print w0 g) with (with_log false (l_printed (after_print w0 g1)) (after_print w0 g1))
      by (unfold after_print, with_file, with_log; cbn; by rewrite Hl).
    apply (lmove_log w0 reqs _ _ _ _ HI Hi false false _ _ (w_log_faults w)). cbn. by rewrite (log_held w0 reqs _ _ _ _ HI Hi).
Qed.

(** ** Routines on what the thread owns *)

Lemma frame_eta g g' fds cur : same_frame g g' → l_fds g' = fds → l_cur g' = cur →
  g' = Local (l_id g) (l_req g) (l_sock g') fds (l_held g) (l_pre g) cur (l_log g) (l_printed g).
Proof. intros (? & ? & ? & ? & ? & ?) ? ?. destruct g'; cbn in *. congruence. Qed.

(** What the private world says after a routine. *)
Lemma private_equiv g g' fl v s : same_frame g g' → set_faults fl (private g') ≡ v →
  w_socks v !! rq_sock (l_req g) = Some s →
  l_fds g' = w_fds v ∧ l_cur g' = w_fs v !! l_path g ∧ unfault (l_sock g') = unfault s.
Proof.
  intros (_ & Hr & _) Hv Hs. split_and!.
  - by rewrite <- (w_fds_proper _ _ Hv).
  - rewrite <- (w_fs_proper _ _ Hv). unfold l_path. rewrite <- Hr. symmetry. apply private_file.
  - destruct (equiv_sock _ _ _ _ Hv Hs) as (s' & Hs' & <-). cbn in Hs'. rewrite Hr, lookup_singleton_eq in Hs'.
    by injection Hs' as <-.
Qed.

Lemma private_calm g fl : Forall no_err fl → Forall no_err (sk_faults (l_sock g)) →
  calm (rq_sock (l_req g)) (set_faults fl (private g)).
Proof. intros Hfl Hs. split; [done|]. intros s. cbn. rewrite lookup_singleton_eq. by intros [= <-]. Qed.

Definition sent (s : sock) (x : bytes) : sock := Sock (sk_in s) (sk_eof s) (sk_out s ++ x) (sk_faults s).

Lemma ok_send_response n g conn res (Q : option Response → local → Prop) :
  pok (connfd conn) None false g → sock_calm g →
  (∀ r s', Forall no_err (sk_faults s') → sk_out s' = sk_out (l_sock g) ++ response_message res →
     Q r (with_sock s' g)) →
  cok n (conn_send_response conn res) g Q.
Proof.
  intros Hp Hcalm HQ. set (c := rq_sock (l_req g)).
  eapply okt_conseq.
  { eapply (ok_private w0 dir reqs Hcs (connfd conn) None false _ _ _
      (λ r w', ∃ fl, w' ≡ sock_out (set_faults fl (private g)) c (response_message res))); [done|done|..].
    - intros ?; apply does_send_response. intros d. by left.
    - intros fl Hfl. pose proof (private_calm g fl Hfl Hcalm) as Hq.
      eapply wpt_conseq; [apply (conn_send_response_spec conn res _ c (l_sock g) True); [apply Hp|apply lookup_singleton_eq|by intros _]|].
      intros r w' [(k & Hw' & Hr) _]. exists fl. destruct r as [e|]; [by destruct Hr|].
      by rewrite Hr, take_ge in Hw' by lia. }
  intros r g' (Hfr & Hcalm' & fl & fl0 & Hw').
  destruct (private_equiv _ _ _ _ (sent (l_sock g) (response_message res)) Hfr Hw') as (E1 & E2 & E3).
  { cbn. by rewrite lookup_alter, decide_True, lookup_singleton_eq by done. }
  rewrite (frame_eta _ _ _ _ Hfr E1 E2). cbn -[response_message].
  change (match l_cur g with Some n => {[l_path g := n]} | None => ∅ end) with (w_fs (private g)).
  rewrite private_file. apply HQ; [done|]. by injection E3.
Qed.

(** An answer and its line. *)
Lemma lin_respond n g conn res (Q : unit → local → Prop) :
  pok (connfd conn) None false g → sock_calm g → l_log g = false →
  (∀ s', Forall no_err (sk_faults s') → sk_out s' = sk_out (l_sock g) ++ response_message res →
     ready_to_print w0 (with_sock s' g) (conn_line conn res) ∧ Q tt (after_print w0 (with_sock s' g))) →
  cok n (respond conn res) g Q.
Proof.
  intros Hp Hc Hl HQ. unfold respond. apply cok_bind, ok_send_response; [done..|]. intros r s' Hcs' Hs'.
  destruct (HQ s' Hcs' Hs') as [Hr HQ']. unfold audit_send_response.
  apply lin_log_audit; [done|apply Hp|exact Hr|exact HQ'].
Qed.

Lemma ok_send_file n g conn ffd d m (Q : option Response → local → Prop) :
  pok (connfd conn) (Some ffd) false g → sock_calm g → l_fds g !! ffd = Some (OFile (l_path g) 0) →
  l_cur g = Some (NFile d m) → Z.of_nat (length d) ≤ ULLONG_MAX →
  (∀ r s' off, Forall no_err (sk_faults s') →
     sk_out s' = sk_out (l_sock g) ++ file_header (Z.of_nat (length d)) ++ d →
     Q r (with_fds (<[ffd := OFile (l_path g) off]> (l_fds g)) (with_sock s' g))) →
  cok n (conn_send_file conn ffd (Z.of_nat (length d))) g Q.
Proof.
  intros Hp Hcalm Hfd Hcur Hd HQ. set (c := rq_sock (l_req g)). set (msg := file_header _ ++ d) in HQ.
  assert (Hne : connfd conn ≠ ffd) by (intros <-; pose proof (po_sock _ _ _ _ Hp); congruence).
  eapply okt_conseq.
  { eapply (ok_private w0 dir reqs Hcs (connfd conn) (Some ffd) false _ _ _
      (λ r w', ∃ fl rest, w' ≡ send_view (set_faults fl (private g)) c ffd (l_path g) d rest msg)); [done|done|..].
    - intros ?; apply does_send_file; [intros x; by left|intros k; by right].
    - intros fl Hfl. pose proof (private_calm g fl Hfl Hcalm) as Hq.
      eapply wpt_conseq.
      { apply (conn_send_file_spec (set_faults fl (private g)) c (connfd conn) ffd (l_path g) d m (l_sock g) True);
          try done; [apply Hp|apply lookup_singleton_eq|by rewrite <- Hcur, <- private_file|by intros _|].
        by rewrite send_view_start. }
      intros r w' (_ & k & rest & Hw' & Hr). exists fl, rest. destruct r as [e|]; [by destruct Hr|].
      by rewrite Hr, take_ge in Hw' by lia. }
  intros r g' (Hfr & Hcalm' & fl & fl0 & rest & Hw').
  destruct (private_equiv _ _ _ _ (sent (l_sock g) msg) Hfr Hw') as (E1 & E2 & E3).
  { cbn. by rewrite lookup_alter, decide_True, lookup_singleton_eq by done. }
  change (w_fs (send_view _ _ _ _ _ _ _)) with (w_fs (private g)) in E2. rewrite private_file in E2.
  rewrite (frame_eta _ _ _ _ Hfr E1 E2). apply HQ; [done|]. by injection E3.
Qed.

Lemma ok_recv_file n g conn ffd m d rest (Q : option Response → local → Prop) :
  pok (connfd conn) (Some ffd) true g → sock_calm g → l_fds g !! ffd = Some (OFile (l_path g) 0) →
  l_cur g = Some (NFile [] m) → sk_in (l_sock g) = rest →
  Z.max 0 (in_message conn) = Z.of_nat (length d) →
  slice (buffer conn) (message_start conn) (in_message conn) = d →
  to_s64 (content_length conn - Z.of_nat (length d)) = Z.of_nat (length rest) →
  (∀ s' off, Forall no_err (sk_faults s') → sk_out s' = sk_out (l_sock g) →
     Q None (with_fds (<[ffd := OFile (l_path g) off]> (l_fds g))
       (with_file (l_held g) (l_pre g) (Some (NFile (d ++ rest) m)) (with_sock s' g)))) →
  cok n (conn_recv_file conn ffd) g Q.
Proof.
  intros Hp Hcalm Hfd Hcur Hin Him Hsl Hrem HQ. set (c := rq_sock (l_req g)).
  assert (Hne : connfd conn ≠ ffd) by (intros <-; pose proof (po_sock _ _ _ _ Hp); congruence).
  eapply okt_conseq.
  { eapply (ok_private w0 dir reqs Hcs (connfd conn) (Some ffd) true _ _ _
      (λ r w', r = None ∧ ∃ fl, w' ≡ recv_view (set_faults fl (private g)) c ffd (l_path g) m [] (d ++ rest)));
      [done|done|..].
    - intros ?; apply does_recv_file; [intros x; by left|intros k; by right].
    - intros fl Hfl. pose proof (private_calm g fl Hfl Hcalm) as Hq.
      eapply wpt_conseq.
      { apply (conn_recv_file_spec (set_faults fl (private g)) c (connfd conn) ffd (l_path g) m (l_sock g) True)
          with (d := d); try done; [apply Hp|apply lookup_singleton_eq|by intros _|].
        rewrite recv_view_start; [done|done|by rewrite <- Hcur, <- private_file|apply lookup_singleton_eq]. }
      intros r w' [(got & rest' & k & Hgot & Hw' & Hle & Hr) _]. rewrite Hrem in *. rewrite Hin in Hgot.
      destruct r as [e|].
      { destruct Hr as [_ [?|(-> & _ & Hlt)]]; [done|]. rewrite Hgot, app_nil_r in Hlt. lia. }
      destruct Hr as [-> Hr]. destruct (recv_got got rest' _ Hle Hr) as [Hg Hg']. rewrite <- Hgot, Nat2Z.id in *.
      rewrite take_ge in Hg by lia. rewrite drop_ge in Hg' by lia. subst got rest'.
      rewrite take_ge in Hw' by lia. eauto. }
  intros r g' (Hfr & Hcalm' & fl & -> & fl0 & Hw').
  destruct (private_equiv _ _ _ _ (Sock [] (sk_eof (l_sock g)) (sk_out (l_sock g)) (sk_faults (l_sock g))) Hfr Hw')
    as (E1 & E2 & E3).
  { cbn. by rewrite lookup_alter, decide_True, lookup_singleton_eq by done. }
  assert (E2' : l_cur g' = Some (NFile (d ++ rest) m)) by (rewrite E2; cbn; by rewrite lookup_insert_eq).
  rewrite (frame_eta _ _ _ _ Hfr E1 E2'). apply HQ; [done|]. by injection E3.
Qed.

Lemma ok_conn_parse n g (Q : Conn * option Response → local → Prop) :
  let r := l_req g in client_ok w0 dir r → pok (rq_fd r) None false g → sock_calm g →
  sk_in (l_sock g) = rq_head r ++ rq_body r →
  (∀ conn d rest s', rq_body r = d ++ rest → parsed (rq_fd r) (rq_method r) (rq_uri r) (rq_headers r) d conn →
     Forall no_err (sk_faults s') → sk_in s' = rest → sk_out s' = sk_out (l_sock g) →
     Q (conn, None) (with_sock s' g)) →
  cok n (conn_parse (fresh_conn (rq_fd r))) g Q.
Proof.
  intros r Hc Hp Hcalm Hin HQ. set (c := rq_sock r).
  eapply okt_conseq.
  { eapply (ok_private w0 dir reqs Hcs (rq_fd r) None false _ _ _
      (λ '(conn, res) w', res = None ∧ ∃ fl d rest, rq_body r = d ++ rest ∧
         w' ≡ sock_in (set_faults fl (private g)) c rest ∧
         parsed (rq_fd r) (rq_method r) (rq_uri r) (rq_headers r) d conn)); [done|done|..].
    - intros ?; apply does_conn_parse; [done|]. intros k. by left.
    - intros fl Hfl. pose proof (private_calm g fl Hfl Hcalm) as Hq.
      eapply wpt_conseq.
      { apply (conn_parse_head (rq_fd r) c _ (l_sock g) (rq_method r) (rq_uri r) (rq_headers r) (rq_body r) True);
          [by intros _|apply Hp|apply lookup_singleton_eq|done|apply Hc|apply Hc|apply Hc]. }
      intros [conn res] w' [_ [(-> & d & rest & Hb & Hw' & Hpd)|[? _]]]; [|done]. split; [done|].
      by exists fl, d, rest. }
  intros [conn res] g' (Hfr & Hcalm' & fl & -> & fl0 & d & rest & Hb & Hw' & Hpd).
  destruct (private_equiv _ _ _ _ (Sock rest (sk_eof (l_sock g)) (sk_out (l_sock g)) (sk_faults (l_sock g))) Hfr Hw')
    as (E1 & E2 & E3).
  { cbn. by rewrite lookup_alter, decide_True, lookup_singleton_eq by done. }
  change (w_fs (sock_in _ _ _)) with (w_fs (private g)) in E2. rewrite private_file in E2.
  rewrite (frame_eta _ _ _ _ Hfr E1 E2). injection E3 as E4 E5 E6. by apply (HQ conn d rest).
Qed.

(** ** The handlers *)

(** A parsed request at the door of its handler. *)
Record entered (conn : Conn) (g : local) : Prop := {
  en_fds : l_fds g = {[connfd conn := OSock (rq_sock (l_req g))]};
  en_held : l_held g = None;
  en_log : l_log g = false;
  en_new : l_printed g = false;
  en_calm : sock_calm g;
  en_uri : uri conn = rq_uri (l_req g);
  en_line : ∀ res, conn_line conn res = rq_line (l_req g) res;
  en_out : sk_out (l_sock g) = out0 w0 (l_req g)
}.

(** And after it: the line is printed, and only the connection is left. *)
Record handled (conn : Conn) (g : local) : Prop := {
  hd_fds : l_fds g = {[connfd conn := OSock (rq_sock (l_req g))]};
  hd_held : l_held g = None;
  hd_log : l_log g = false;
  hd_printed : l_printed g = true
}.

(** With the lock on [lfd] and nothing else open: unlock. *)
Lemma ok_leave n g conn op lfd off :
  l_fds g = <[lfd := OFile (l_lockfile g) off]> {[connfd conn := OSock (rq_sock (l_req g))]} →
  connfd conn ≠ lfd → l_held g = Some (op, lfd) → l_pre g = l_cur g → l_log g = false → l_printed g = true →
  cok n (uri_unlock (Some lfd)) g (λ _ g', handled conn g').
Proof.
  intros Hfds Hne Hh Hpc Hl Hp. eapply ok_uri_unlock; [done|done|rewrite Hfds; apply lookup_insert_eq|].
  split; try done. cbn. rewrite Hfds. apply delete_insert_id. by rewrite lookup_singleton_ne.
Qed.

(** With the target open as well: close it first. *)
Lemma ok_close_leave n g conn op lfd off ffd o :
  l_fds g = <[ffd := o]> (<[lfd := OFile (l_lockfile g) off]> {[connfd conn := OSock (rq_sock (l_req g))]}) →
  connfd conn ≠ lfd → ffd ≠ lfd → connfd conn ≠ ffd → l_held g = Some (op, lfd) → l_pre g = l_cur g →
  l_log g = false → l_printed g = true →
  cok n (do! ! (Close ffd) in uri_unlock (Some lfd)) g (λ _ g', handled conn g').
Proof.
  intros Hfds Hne Hfl Hcf Hh Hpc Hl Hp. apply cok_bind.
  eapply ok_close; [rewrite Hfds; apply lookup_insert_eq|congruence|].
  eapply (ok_leave _ _ _ op lfd off); try done. cbn. rewrite Hfds. apply delete_insert_id.
  rewrite lookup_insert_ne, lookup_singleton_ne; done.
Qed.

Lemma pok_conn conn g : l_fds g !! connfd conn = Some (OSock (rq_sock (l_req g))) → l_printed g = false →
  pok (connfd conn) None false g.
Proof. by split. Qed.

Lemma ok_open_get n g (Q : rc nat → local → Prop) : l_held g ≠ None →
  (∀ e, get_result (l_cur g) = (get_open_error e, response_message (get_open_error e)) → Q (Err e) g) →
  (∀ fd, l_fds g !! fd = None →
     match l_cur g with
     | Some (NFile d m) => get_result (l_cur g) = (RESPONSE_OK, file_header (Z.of_nat (length d)) ++ d)
     | Some (NDir _) => get_result (l_cur g) = (RESPONSE_FORBIDDEN, response_message RESPONSE_FORBIDDEN)
     | _ => False
     end → Q (Ok fd) (with_fds (<[fd := OFile (l_path g) 0]> (l_fds g)) g)) →
  cok n (perform (Open (rq_uri (l_req g)) O_RDONLY)) g Q.
Proof.
  intros Hh HE HO. apply (ok_move w0 dir reqs Hcs); [done|]. intros tr gs w w' x HI Hi Hs. split; [done|].
  cbn in Hs. injection Hs as Hs. pose proof (open_get_move w0 dir reqs Hcs tr gs g w HI Hi w' x Hh Hs) as H.
  destruct x as [fd|e]; [destruct H as (? & ? & ?)|destruct H]; eauto.
Qed.

Lemma ok_fstat n g fd off nd (Q : rc stat → local → Prop) : l_held g ≠ None →
  l_fds g !! fd = Some (OFile (l_path g) off) → l_cur g = Some nd → Q (Ok (stat_of nd)) g →
  cok n (perform (Fstat fd)) g Q.
Proof.
  intros Hh Hfd Hn HQ. apply (ok_move w0 dir reqs Hcs); [done|]. intros tr gs w w' x HI Hi Hs. split; [done|].
  cbn in Hs. injection Hs as Hs.
  destruct (fstat_move w0 dir reqs Hcs tr gs g w HI Hi fd off nd w' x Hh Hfd Hn Hs) as [-> Hm]. eauto.
Qed.

(** A GET is ready to be audited once its answer is out. *)
Lemma get_ready conn g g' s' res msg : entered conn g → rq_kind (l_req g) = REQUEST_GET →
  l_req g' = l_req g → l_sock g' = s' → l_held g' ≠ None → get_result (l_pre g') = (res, msg) →
  sk_out s' = sk_out (l_sock g) ++ msg → ready_to_print w0 g' (conn_line conn res).
Proof.
  intros Hen Hk Hr Hs Hh Hres Hout. unfold ready_to_print, outcome. rewrite Hr, Hk, Hres, Hs.
  split_and!; [apply Hen|by rewrite Hout, (en_out _ _ Hen)|done].
Qed.

Lemma get_printed g : rq_kind (l_req g) = REQUEST_GET → printed_file w0 g = l_pre g.
Proof. intros Hk. apply outcome_not_put. by rewrite Hk. Qed.

Lemma lin_handle_get n g conn : entered conn g → rq_kind (l_req g) = REQUEST_GET →
  cok n (handle_get dir conn) g (λ _ g', handled conn g').
Proof.
  intros Hen Hk. destruct (Hen) as [Hfds Hh Hl Hnew Hcalm Huri Hline Hout].
  unfold handle_get, conn_get_uri. rewrite Huri. apply cok_bind, ok_uri_lock; [done..|].
  intros lfd m Hlfd Hsz. rewrite Hfds in Hlfd.
  assert (Hcl : connfd conn ≠ lfd) by (intros <-; by rewrite lookup_singleton_eq in Hlfd).
  set (g1 := with_file _ _ _ _). apply cok_bind, (ok_open_get _ g1); [done|..].
  - intros e He. apply cok_bind, lin_respond; try done.
    { apply pok_conn; [|done]. cbn. rewrite Hfds, lookup_insert_ne, lookup_singleton_eq; done. }
    intros s' Hs' Ho. split; [by eapply (get_ready conn g)|].
    eapply (ok_leave _ _ _ LOCK_SH lfd 0); try done; cbn; [by rewrite Hfds|by rewrite get_printed].
  - intros ffd Hffd Hn. cbn [l_fds with_fds with_file g1] in Hffd.
    assert (Hfl : ffd ≠ lfd) by (intros ->; by rewrite lookup_insert_eq in Hffd).
    rewrite lookup_insert_ne, Hfds in Hffd by done.
    assert (Hcf : connfd conn ≠ ffd) by (intros <-; by rewrite lookup_singleton_eq in Hffd).
    set (g2 := with_fds _ _).
    assert (Hg2 : l_fds g2 = <[ffd := OFile (l_path g) 0]> (<[lfd := OFile (l_lockfile g) 0]>
      {[connfd conn := OSock (rq_sock (l_req g))]})) by (cbn; by rewrite Hfds).
    assert (Hpok : pok (connfd conn) None false g2).
    { apply pok_conn; [|done]. rewrite Hg2, !lookup_insert_ne, lookup_singleton_eq; done. }
    change (l_cur g1) with m in Hn.
    destruct m as [[d md|md|]|] eqn:Hm; [..|done|done].
    + apply cok_bind. eapply (ok_fstat _ g2 ffd 0 (NFile d md)); [done|rewrite Hg2; apply lookup_insert_eq|done|].
      cbn [stat_of st_isdir st_size]. apply cok_bind. eapply (ok_send_file _ g2 conn ffd d md); try done.
      * split; [apply Hpok|done|]. intros f [= <-]. split; [|done]. exists 0%nat. rewrite Hg2. apply lookup_insert_eq.
      * rewrite Hg2. apply lookup_insert_eq.
      * intros r s' off Hs' Ho. apply cok_bind. unfold audit_send_response.
        apply lin_log_audit; [done|done|by eapply (get_ready conn g)|].
        eapply (ok_close_leave _ _ _ LOCK_SH lfd 0 ffd); try done; cbn -[l_fds]; [|by rewrite get_printed].
        cbn. by rewrite insert_insert_eq, Hfds.
    + apply cok_bind. eapply (ok_fstat _ g2 ffd 0 (NDir md)); [done|rewrite Hg2; apply lookup_insert_eq|done|].
      cbn [stat_of st_isdir]. apply cok_bind, lin_respond; try done.
      intros s' Hs' Ho. split; [by eapply (get_ready conn g)|].
      eapply (ok_close_leave _ _ _ LOCK_SH lfd 0 ffd); try done; cbn -[l_fds printed_file];
        rewrite ?get_printed; cbn; by rewrite ?Hfds.
Qed.

(** *** PUT *)

Definition put_node (r : request) (n : option node) : Response * option node :=
  put_result (writable_dir w0 (removelast (rq_path r))) (mode_0600 w0) (rq_body r) n.

Lemma ok_access n g (Q : bool → local → Prop) : l_held g ≠ None →
  Q (match l_cur g with Some _ => true | None => false end) g →
  cok n (perform (Access (rq_uri (l_req g)))) g Q.
Proof.
  intros Hh HQ. apply (ok_move w0 dir reqs Hcs); [done|]. intros tr gs w w' x HI Hi Hs. split; [done|].
  cbn in Hs. unfold call_access in Hs. destruct (pop_fault w) as [f w1] eqn:Hp.
  destruct (pop_fault_no_err _ _ _ Hp (ci_faults _ _ _ _ _ HI)) as [Hfl Hne].
  apply pop_fault_spec in Hp as (fl & -> & _). injection Hs as <- <-.
  change (sys_access (rq_uri (l_req g)) (set_faults fl w)) with (sys_access (rq_uri (l_req g)) w).
  rewrite (access_own w0 dir reqs Hcs tr gs g w HI Hi Hh).
  exists g. split; [by eapply (lmove_idle w0 dir)|by destruct f].
Qed.

Lemma ok_open_put n g (Q : rc nat → local → Prop) : writes g →
  (∀ e, put_node (l_req g) (l_cur g) = (put_open_error e, l_cur g) → Q (Err e) g) →
  (∀ fd d m, l_fds g !! fd = None →
     put_node (l_req g) (l_cur g) =
       (match l_cur g with Some _ => RESPONSE_OK | None => RESPONSE_CREATED end, Some (NFile (rq_body (l_req g)) m)) →
     Q (Ok fd) (with_fds (<[fd := OFile (l_path g) 0]> (l_fds g))
       (with_file (l_held g) (l_pre g) (Some (NFile d m)) g))) →
  cok n (perform (Open (rq_uri (l_req g)) PUT_FLAGS)) g Q.
Proof.
  intros Hw HE HO. apply (ok_move w0 dir reqs Hcs); [done|]. intros tr gs w w' x HI Hi Hs. split; [done|].
  cbn in Hs. injection Hs as Hs. pose proof (open_put_move w0 dir reqs Hcs tr gs g w HI Hi w' x Hw Hs) as H.
  cbv zeta in H. destruct x as [fd|e]; [destruct H as (d & m & ? & ? & ?)|destruct H]; eauto.
Qed.

Lemma ok_ftruncate n g fd off d m (Q : rc unit → local → Prop) : writes g →
  l_fds g !! fd = Some (OFile (l_path g) off) → l_cur g = Some (NFile d m) →
  Q (Ok tt) (with_file (l_held g) (l_pre g) (Some (NFile [] m)) g) → cok n (perform (Ftruncate fd)) g Q.
Proof.
  intros Hw Hfd Hn HQ. apply (ok_move w0 dir reqs Hcs); [done|]. intros tr gs w w' x HI Hi Hs. split; [done|].
  cbn in Hs. injection Hs as Hs.
  destruct (ftruncate_move w0 dir reqs Hcs tr gs g w HI Hi fd off d m w' x Hw Hfd Hn Hs) as [-> Hm]. eauto.
Qed.

(** The body, part in the buffer and part still to come. *)
Record body_split (conn : Conn) (g : local) (d rest : bytes) : Prop := {
  bs_body : rq_body (l_req g) = d ++ rest;
  bs_in : sk_in (l_sock g) = rest;
  bs_len : Z.max 0 (in_message conn) = Z.of_nat (length d);
  bs_buf : slice (buffer conn) (message_start conn) (in_message conn) = d;
  bs_rem : to_s64 (content_length conn - Z.of_nat (length d)) = Z.of_nat (length rest)
}.

Lemma put_ready conn g g' s' res n' : entered conn g → rq_kind (l_req g) = REQUEST_PUT →
  l_req g' = l_req g → l_sock g' = s' → writes g' → put_node (l_req g) (l_pre g') = (res, n') → l_cur g' = n' →
  sk_out s' = sk_out (l_sock g) ++ response_message res →
  ready_to_print w0 g' (conn_line conn res) ∧ printed_file w0 g' = n'.
Proof.
  intros Hen Hk Hr Hs Hw Hres Hcur Hout. unfold ready_to_print, printed_file, outcome.
  rewrite Hr, Hk. fold (put_node (l_req g) (l_pre g')). rewrite Hres, Hs.
  split_and!; [apply Hen|by rewrite Hout, (en_out _ _ Hen)|done..].
Qed.

(** With the emptied file open: receive, answer, leave. *)
Lemma ok_put_receive n g g2 conn d rest lfd ffd pre m existed : let r := l_req g in
  entered conn g → rq_kind r = REQUEST_PUT → body_split conn g d rest →
  connfd conn ≠ lfd → ffd ≠ lfd → connfd conn ≠ ffd →
  put_node r pre = (if (existed : bool) then RESPONSE_OK else RESPONSE_CREATED, Some (NFile (rq_body r) m)) →
  g2 = Local (l_id g) r (l_sock g) (<[ffd := OFile (l_path g) 0]> (<[lfd := OFile (l_lockfile g) 0]>
         {[connfd conn := OSock (rq_sock r)]})) (Some (LOCK_EX, lfd)) pre (Some (NFile [] m)) false false →
  cok n (let! res := conn_recv_file conn ffd in
         let res := match res with
                    | Some res => res
                    | None => if (existed : bool) then RESPONSE_OK else RESPONSE_CREATED
                    end in
         do! respond conn res in do! ! (Close ffd) in uri_unlock (Some lfd)) g2 (λ _ g', handled conn g').
Proof.
  intros r Hen Hk [B1 B2 B3 B4 B5] Hcl Hfl Hcf Hres ->.
  assert (Hconn : ∀ o : ofd, <[ffd := o]> (<[lfd := OFile (l_lockfile g) 0]> {[connfd conn := OSock (rq_sock r)]} : gmap nat ofd)
    !! connfd conn = Some (OSock (rq_sock r))) by (intros o; rewrite !lookup_insert_ne, lookup_singleton_eq; done).
  apply cok_bind. eapply (ok_recv_file _ _ _ _ m d rest); try done.
  - split; [apply Hconn|done|]. intros f [= <-]. split_and!; [exists 0%nat; apply lookup_insert_eq|done|].
    intros _. by exists lfd.
  - apply Hen.
  - apply lookup_insert_eq.
  - intros s' off Hs' Ho. apply cok_bind, lin_respond; try done.
    { apply pok_conn; [|done]. cbn. rewrite insert_insert_eq. apply Hconn. }
    intros s2 Hs2 Ho2. cbn in Ho2.
    match goal with |- ready_to_print _ ?g' _ ∧ _ =>
      edestruct (put_ready conn g g' s2) as [Hready Hpr];
        [exact Hen|exact Hk|done|done|by exists lfd|exact Hres|cbn; by rewrite <- B1|by rewrite Ho2, Ho|]
    end.
    split; [exact Hready|].
    eapply (ok_close_leave _ _ _ LOCK_EX lfd 0 ffd); try done.
    + cbn. by rewrite insert_insert_eq.
    + etransitivity; [exact Hpr|]. cbn. by rewrite <- B1.
Qed.

Lemma lin_handle_put n g conn d rest : entered conn g → rq_kind (l_req g) = REQUEST_PUT →
  body_split conn g d rest → cok n (handle_put dir conn) g (λ _ g', handled conn g').
Proof.
  intros Hen Hk Hb. destruct (Hen) as [Hfds Hh Hl Hnew Hcalm Huri Hline Hout].
  unfold handle_put, conn_get_uri. rewrite Huri. apply cok_bind, ok_uri_lock; [done..|].
  intros lfd m Hlfd _. rewrite Hfds in Hlfd.
  assert (Hcl : connfd conn ≠ lfd) by (intros <-; by rewrite lookup_singleton_eq in Hlfd).
  set (g1 := with_file _ _ _ _). apply cok_bind, (ok_access _ g1); [done|].
  apply cok_bind, (ok_open_put _ g1); [by exists lfd|..]; change (l_cur g1) with m; change (l_req g1) with (l_req g).
  - intros e He. apply cok_bind, lin_respond; try done.
    { apply pok_conn; [|done]. cbn. rewrite Hfds, lookup_insert_ne, lookup_singleton_eq; done. }
    intros s' Hs' Ho. edestruct (put_ready conn g (with_sock s' g1)) as [Hready Hpr];
      [exact Hen|exact Hk|done|done|by exists lfd|exact He|done|done|]. split; [exact Hready|].
    eapply (ok_leave _ _ _ LOCK_EX lfd 0); try done; cbn -[printed_file]; by rewrite ?Hfds.
  - intros ffd d0 md Hffd Hres. cbn [l_fds with_fds with_file g1] in Hffd.
    assert (Hfl : ffd ≠ lfd) by (intros ->; by rewrite lookup_insert_eq in Hffd).
    rewrite lookup_insert_ne, Hfds in Hffd by done.
    assert (Hcf : connfd conn ≠ ffd) by (intros <-; by rewrite lookup_singleton_eq in Hffd).
    apply cok_bind. eapply (ok_ftruncate _ _ ffd 0 d0 md); [by exists lfd|apply lookup_insert_eq|done|].
    eapply (ok_put_receive _ g _ conn d rest lfd ffd m md); try done.
    + rewrite Hres. by destruct m.
    + unfold g1, with_fds, with_file. cbn. by rewrite Hfds, Hl, Hnew.
Qed.

(** *** A connection *)

Lemma lin_handle_unsupported n g conn : entered conn g → rq_kind (l_req g) = REQUEST_UNSUPPORTED →
  cok n (handle_unsupported conn) g (λ _ g', handled conn g').
Proof.
  intros Hen Hk. destruct (Hen) as [Hfds Hh Hl Hnew Hcalm Huri Hline Hout].
  unfold handle_unsupported. apply lin_respond; [|done|done|].
  { apply pok_conn; [|done]. rewrite Hfds. apply lookup_singleton_eq. }
  intros s' Hs' Ho. split; [|by split].
  unfold ready_to_print, outcome. cbn -[response_message]. rewrite Hk, Hline, Ho, Hout. by split_and!.
Qed.

Lemma ok_conn_new n g (Q : option Conn → local → Prop) : Q (Some (fresh_conn (rq_fd (l_req g)))) g →
  cok n (conn_new (rq_fd (l_req g))) g Q.
Proof.
  intros HQ. unfold conn_new. apply cok_bind, (ok_move w0 dir reqs Hcs); [done|].
  intros tr gs w w' x HI Hi Hs. split; [done|]. cbn in Hs. unfold sys_alloc in Hs.
  destruct (pop_fault w) as [f w1] eqn:Hf.
  destruct (pop_calm _ _ _ (ci_faults _ _ _ _ _ HI) Hf) as (Hno & Hfl & (fl & ->) & _).
  injection Hs as <- <-. exists g. split; [by eapply (lmove_idle w0 dir)|]. by destruct f; [apply okt_ret..|].
Qed.

(** A thread before it starts. *)
Definition start_of (i : nat) (r : request) (s : sock) : local :=
  Local i r s {[rq_fd r := OSock (rq_sock r)]} None None None false false.

(** And when it is done. *)
Record served_out (g : local) : Prop := {
  so_fds : l_fds g = ∅;
  so_held : l_held g = None;
  so_log : l_log g = false;
  so_printed : l_printed g = true
}.

Lemma parsed_entered i r s s' conn d rest : client_ok w0 dir r →
  rq_body r = d ++ rest → parsed (rq_fd r) (rq_method r) (rq_uri r) (rq_headers r) d conn →
  Forall no_err (sk_faults s') → sk_in s' = rest → sk_out s' = out0 w0 r →
  let g := with_sock s' (start_of i r s) in
  entered conn g ∧ (rq_kind r = REQUEST_PUT → body_split conn g d rest).
Proof.
  intros Hc Hb Hpd Hcalm Hin Hout g. split.
  - split; try done.
    + cbn. by rewrite (pd_fd _ _ _ _ _ _ Hpd).
    + apply (pd_uri _ _ _ _ _ _ Hpd).
    + intros res. apply (parsed_line _ _ _ _ _ _ _ Hpd).
  - intros Hk. destruct (cl_length _ _ _ Hc Hk) as [Hcl Hmax]. rewrite Hb in Hcl, Hmax.
    destruct (parsed_body _ _ _ _ _ _ _ Hpd Hcl Hmax) as (? & ? & ?). by split.
Qed.

Lemma lin_handle_connection n i r s : client_ok w0 dir r → w_socks w0 !! rq_sock r = Some s →
  cok n (handle_connection dir (rq_fd r)) (start_of i r s) (λ _ g', served_out g').
Proof.
  intros Hc Hs. destruct (cl_sock _ _ _ Hc) as (s0 & Hs0 & Hin & Hcalm). rewrite Hs in Hs0. injection Hs0 as <-.
  unfold handle_connection. apply cok_bind, (ok_conn_new _ (start_of i r s)), cok_bind, (ok_conn_parse _ (start_of i r s)); try done.
  { split; try done. apply lookup_singleton_eq. }
  intros conn d rest s' Hb Hpd Hcalm' Hin' Hout.
  destruct (parsed_entered i r s s' conn d rest Hc Hb Hpd Hcalm' Hin') as [Hen Hbs].
  { rewrite Hout. unfold out0. by rewrite Hs. }
  set (g := with_sock s' (start_of i r s)) in *. apply cok_bind.
  unfold conn_get_request. rewrite (pd_request _ _ _ _ _ _ Hpd).
  change (line_request _) with (rq_kind r).
  apply (okt_conseq _ _ _ _ _ _ (λ _ g', handled conn g')).
  - destruct (rq_kind r) eqn:Hk; [by apply lin_handle_get|by eapply lin_handle_put; eauto|by apply lin_handle_unsupported].
  - intros [] g' [H1 H2 H3 H4]. rewrite (pd_fd _ _ _ _ _ _ Hpd) in H1.
    eapply ok_close; [rewrite H1; apply lookup_singleton_eq|congruence|]. split; try done.
    cbn. rewrite H1. apply delete_singleton_eq.
Qed.
End linear.
