(* ===== verification/LinearRuns.v ===== *)
(** * Clients served at once: the theorems (src/httpserver.c, src/log.c)

    Any number of clients with well-formed requests, handled at the same time in
    any interleaving of their calls.  The audit log is a linearization of what
    the clients saw, and no interleaving leaves a client unserved. *)
From S2P Require Import Prelude Libc Regex Http Prog Pools PoolsTerm Posix Util Demo Connection IoEvents Log Server Parsing.
From S2P Require Import Transfer Locks Handlers Serve AuditLog Shared SharedRules SharedCalls Linear.
Local Open Scope Z_scope.
Local Open Scope prog_scope.

Section runs.
Context (w0 : world) (dir : bytes) (reqs : list request).

(** The clients' connections, all accepted, none begun. *)
Definition clients_pool : pool sysE world bytes :=
  Pool (map (handle_connection dir) (rq_fd <$> reqs)) w0 [].

Definition sock0 (r : request) : sock := default (Sock [] true [] []) (w_socks w0 !! rq_sock r).
Definition starts : list local := imap (λ i r, start_of i r (sock0 r)) reqs.

Context (Hcs : clients_ok w0 dir reqs).

Lemma starts_lookup i g : starts !! i = Some g →
  ∃ r, reqs !! i = Some r ∧ r ∈ reqs ∧ g = start_of i r (sock0 r) ∧ w_socks w0 !! rq_sock r = Some (sock0 r).
Proof.
  unfold starts. rewrite list_lookup_imap, fmap_Some. intros (r & Hr & ->). exists r.
  apply list_elem_of_lookup_2 in Hr as Hin. split_and!; try done.
  destruct (cl_sock _ _ _ (cs_each _ _ _ Hcs r Hin)) as (s & Hs & _). unfold sock0. by rewrite Hs.
Qed.

Lemma cinv_start : cinv w0 reqs [] starts w0.
Proof.
  destruct Hcs as [Heach Hfds Hsocks Halias Hlocks [(Hmu & Hbuf & Hst) Hlf] Hfl Hfa Hsz]. split; try done.
  - intros i g (r & Hr & _ & -> & _)%starts_lookup. done.
  - unfold starts. by rewrite length_imap.
  - intros i g (r & Hr & Hin & -> & Hs)%starts_lookup. specialize (Heach r Hin). split; try done.
    + destruct (cl_sock _ _ _ Heach) as (s & Hs' & _ & Hc). cbn. congruence.
    + cbn. apply map_singleton_subseteq_l, Heach.
  - intros i j g g' Hne (r & Hr & _ & -> & _)%starts_lookup (r' & Hr' & _ & -> & _)%starts_lookup. cbn.
    apply map_disjoint_singleton_r, lookup_singleton_ne. intros E. apply Hne.
    eapply NoDup_lookup; [exact Hfds|by rewrite list_lookup_fmap, Hr|]. rewrite list_lookup_fmap, Hr'. cbn. congruence.
  - intros p (r & Hin & <-). apply (cl_lockfile _ _ _ (Heach r Hin)).
  - intros p fd. unfold lock_has. by rewrite Hfl, lookup_empty.
  - intros p. by rewrite Hfl, lookup_empty.
  - rewrite Hmu. apply total_zero. intros g [i Hi]%list_elem_of_lookup_1.
    by apply starts_lookup in Hi as (r & _ & _ & -> & _).
  - intros i g (r & _ & _ & -> & _)%starts_lookup. done.
  - intros tr1 i l tr2 H. by destruct tr1.
Qed.

Lemma clients_annotated :
  annotated (cinv w0 reqs) cwaits fault_budget (λ _ g', served_out g') clients_pool
    (zip (pool_threads clients_pool) starts).
Proof.
  assert (Hlen : length (pool_threads clients_pool) = length starts).
  { cbn. unfold starts. by rewrite length_map, length_fmap, length_imap. }
  unfold annotated. rewrite fst_zip, snd_zip by lia. split_and!; [done|apply cinv_start|].
  apply Forall_lookup. intros i [t g] Htg.
  apply lookup_zip_with_Some in Htg as (t' & g' & [= -> ->] & Ht & Hg).
  apply starts_lookup in Hg as (r & Hr' & Hin & -> & Hs). cbn in Ht.
  rewrite list_lookup_fmap, list_lookup_fmap, Hr' in Ht. injection Ht as <-.
  apply lin_handle_connection; [done|by apply (cs_each _ _ _ Hcs)|done].
Qed.

Lemma clients_run q : reachable clients_pool q → ∃ gs, cinv w0 reqs (pool_trace q) gs (pool_world q) ∧
  Forall2 (λ t g, now cwaits t g (λ _ g', served_out g')) (pool_threads q) gs.
Proof.
  intros Hr. destruct (pool_sound_t _ _ _ _ _ q _ Hr clients_annotated) as (l & Hts & HI & Hall).
  exists l.*2. split; [done|]. rewrite Hts. apply Forall2_fmap, Forall_Forall2_diag.
  eapply Forall_impl; [exact Hall|]. intros [t g]. apply okt_now.
Qed.

(** ** When no thread can move *)

(** A thread that cannot move: it is done, or waits for a lock that is taken. *)
Lemma cannot_move t g tr gs w i : cinv w0 reqs tr gs w → gs !! i = Some g →
  now cwaits t g (λ _ g', served_out g') → step_thread t w = None →
  l_log g = false ∧ ((thread_returned t = true ∧ served_out g) ∨ w_log_mu w = true ∨
    (l_held g = None ∧ w_flocks w !! l_lockfile g ≠ None)).
Proof.
  intros HI Hi Hok Hst. unfold now in Hok. unfold step_thread in Hst. unfold thread_returned.
  destruct (observe t) as [[]|t'|X e k]; [|done|].
  { split; [by destruct Hok|by left; split]. }
  rename Hok into HA. destruct (sys e w) as [[w' x]|] eqn:Hs; [done|].
  destruct e; try done; cbn in Hs, HA.
  - unfold sys_flock in Hs.
    destruct HA as [->|(Hh & Hl & off & Hfd)]; [by repeat case_match|].
    split; [done|]. right. right. split; [done|]. intros Hfree.
    pose proof (ow_fds _ _ _ (ci_owns _ _ _ _ _ HI _ _ Hi)) as Hsub.
    rewrite (lookup_weaken _ _ _ _ Hfd Hsub) in Hs. case_decide; [done|].
    destruct (pop_fault w) as [f w1] eqn:Hf. apply pop_fault_spec in Hf as (fl & -> & _).
    unfold take_lock in Hs. cbn [w_flocks set_faults] in Hs. rewrite Hfree in Hs. by destruct f, op.
  - split; [done|]. destruct (w_log_mu w); [auto|done].
Qed.

(** When every thread that has begun cannot move, it is done; the others hold
    nothing. *)
Lemma blocked_all_served q gs :
  (∀ i t g, pool_threads q !! i = Some t → gs !! i = Some g →
     step_thread t (pool_world q) = None ∨ (l_held g = None ∧ l_log g = false)) →
  cinv w0 reqs (pool_trace q) gs (pool_world q) →
  Forall2 (λ t g, now cwaits t g (λ _ g', served_out g')) (pool_threads q) gs →
  w_flocks (pool_world q) = ∅ ∧
  ∀ i t g, pool_threads q !! i = Some t → gs !! i = Some g → step_thread t (pool_world q) = None →
    thread_returned t = true ∧ served_out g.
Proof.
  intros Hst HI Hok.
  assert (Hcase := λ i t g Ht Hg, cannot_move t g _ gs _ i HI Hg (Forall2_lookup_lr _ _ _ _ _ _ Hok Ht Hg)).
  assert (Hthread : ∀ i g, gs !! i = Some g → ∃ t, pool_threads q !! i = Some t).
  { intros i g Hg. destruct (Forall2_lookup_r _ _ _ _ _ Hok Hg) as (t & Ht & _). eauto. }
  assert (Hmu : w_log_mu (pool_world q) = false).
  { pose proof (ci_mu _ _ _ _ _ HI) as E. rewrite total_zero in E; [by destruct (w_log_mu _)|].
    intros g [i Hg]%list_elem_of_lookup_1. destruct (Hthread i g Hg) as [t Ht].
    destruct (Hst i t g Ht Hg) as [Hs|[_ ->]]; [|done]. by destruct (Hcase i t g Ht Hg Hs) as [-> _]. }
  assert (Hnone : ∀ i g, gs !! i = Some g → l_held g = None).
  { intros i g Hg. destruct (Hthread i g Hg) as [t Ht]. destruct (Hst i t g Ht Hg) as [Hs|[? _]]; [|done].
    destruct (Hcase i t g Ht Hg Hs) as [_ [[_ Hso]|[?|[? _]]]]; [apply Hso|congruence|done]. }
  assert (Hfree : w_flocks (pool_world q) = ∅).
  { apply map_empty. intros p. destruct (w_flocks (pool_world q) !! p) as [st|] eqn:Hp; [|done]. exfalso.
    assert (∃ fd, lock_has (pool_world q) p fd) as [fd Hfd].
    { unfold lock_has. rewrite Hp. destruct st as [s|fd]; [|by exists fd].
      destruct (set_choose_or_empty s) as [|Hs]; [done|]. apply leibniz_equiv in Hs. subst s.
      by destruct (ci_shared _ _ _ _ _ HI p). }
    destruct (ci_owner _ _ _ _ _ HI p fd Hfd) as (i & g & op & Hg & _ & Hh).
    by rewrite (Hnone i g Hg) in Hh. }
  split; [done|]. intros i t g Ht Hg Hs.
  destruct (Hcase i t g Ht Hg Hs) as [_ [?|[?|[_ Hl]]]]; [done|congruence|].
  by rewrite Hfree, lookup_empty in Hl.
Qed.

Lemma stuck_all_served q gs : stuck q = true → cinv w0 reqs (pool_trace q) gs (pool_world q) →
  Forall2 (λ t g, now cwaits t g (λ _ g', served_out g')) (pool_threads q) gs →
  w_flocks (pool_world q) = ∅ ∧
  ∀ i t g, pool_threads q !! i = Some t → gs !! i = Some g → thread_returned t = true ∧ served_out g.
Proof.
  intros Hst HI Hok. destruct (blocked_all_served q gs) as [H1 H2]; [|done|done|].
  - intros i t g Ht _. left. by eapply stuck_thread.
  - split; [done|]. intros i t g Ht Hg. eapply H2; [done..|]. by eapply stuck_thread.
Qed.

(** ** Histories *)

(** The log [hist], of requests and their lines, is the history of a server that
    executes one request at a time, from [w0] to what others may see of [w]. *)
Definition linear_history (w : world) (hist : log_trace) : Prop :=
  (∀ tr1 i line tr2, hist = tr1 ++ (i, line) :: tr2 → (i ∉ tr1.*1) ∧
     ∃ r s, reqs !! i = Some r ∧ w_socks w !! rq_sock r = Some s ∧
       let '(res, msg, _) := spec_request w0 r (tree_after w0 reqs tr1) in
       line = rq_line r res ∧ sk_out s = out0 w0 r ++ msg) ∧
  (∀ p, ¬ is_lockfile reqs p →
     (∀ r fd, r ∈ reqs → rq_path r = p → w_flocks w !! rq_lock r ≠ Some (LExclusive fd)) →
     w_fs w !! p = tree_after w0 reqs hist !! p).

(** Every request is in it, and nothing is under way. *)
Definition whole_history (w : world) (hist : log_trace) : Prop :=
  hist.*1 ≡ₚ seq 0 (length reqs) ∧
  w_log_out w = w_log_out w0 ++ concat (hist.*2) ∧
  (∀ p, ¬ is_lockfile reqs p → w_fs w !! p = tree_after w0 reqs hist !! p) ∧
  w_flocks w = ∅.

Lemma clients_linear q : reachable clients_pool q → linear_history (pool_world q) (pool_trace q).
Proof.
  intros Hr. destruct (clients_run q Hr) as (gs & HI & _). split.
  - intros tr1 i line tr2 Htr. destruct (ci_legal _ _ _ _ _ HI _ _ _ _ Htr) as (Hn & g & Hg & Hsp).
    split; [done|]. exists (l_req g), (l_sock g). split_and!; [by apply (ci_who _ _ _ _ _ HI)| |done].
    apply (ci_owns _ _ _ _ _ HI _ _ Hg).
  - intros p Hp Hno. apply (ci_free _ _ _ _ _ HI p Hp). intros i g Hg Hpath [fd Hw].
    destruct (ow_held _ _ _ (ci_owns _ _ _ _ _ HI _ _ Hg) _ _ Hw) as (Hl & _).
    by apply (Hno (l_req g) fd); [eapply cinv_req|..].
Qed.

Lemma clients_served q : reachable clients_pool q → stuck q = true →
  Forall (λ t, thread_returned t = true) (pool_threads q) ∧ whole_history (pool_world q) (pool_trace q).
Proof.
  intros Hr Hst. destruct (clients_run q Hr) as (gs & HI & Hok).
  destruct (stuck_all_served q gs Hst HI Hok) as [Hfree Hdone].
  assert (Hret : ∀ i t, pool_threads q !! i = Some t → thread_returned t = true).
  { intros i t Ht. destruct (Forall2_lookup_l _ _ _ _ _ Hok Ht) as (g & Hg & _). by eapply Hdone. }
  destruct (cs_log _ _ _ Hcs) as [(Hmu & Hbuf & Hstream) Hlf].
  destruct (audit_log_runs dir (rq_fd <$> reqs) w0 q Hstream Hbuf Hr) as (ls & HL & Hlok).
  destruct (li_out _ _ _ _ _ HL) as (dn & pend & Htr & Hp & (pieces & Ho & _ & _ & Hcl)).
  destruct (Hcl Hlf) as (-> & _ & _).
  unfold whole_history. split_and!; [| | | |done].
  - apply Forall_lookup. apply Hret.
  - apply NoDup_Permutation; [apply HL|apply NoDup_seq|]. intros i. rewrite elem_of_seq. split.
    + intros [[j l] [-> Hin]]%list_elem_of_fmap. apply list_elem_of_split in Hin as (tr1 & tr2 & Htr').
      destruct (ci_legal _ _ _ _ _ HI _ _ _ _ Htr') as (_ & g & Hg & _). apply lookup_lt_Some in Hg.
      rewrite (ci_len _ _ _ _ _ HI) in Hg. cbn. lia.
    + intros [_ Hi]. rewrite <- (ci_len _ _ _ _ _ HI) in Hi. apply lookup_lt_is_Some in Hi as [g Hg].
      destruct (Forall2_lookup_r _ _ _ _ _ Hok Hg) as (t & Ht & _). destruct (Hdone i t g Ht Hg) as [_ Hso].
      pose proof (ci_printed _ _ _ _ _ HI _ _ Hg) as E. rewrite (so_printed _ Hso) in E.
      by apply eq_sym, bool_decide_eq_true in E.
  - rewrite Ho, Htr. destruct Hp as [[-> _]|(j & l & c & -> & Hj)]; [by rewrite app_nil_r|].
    destruct (Forall2_lookup_r _ _ _ _ _ Hlok Hj) as (t & Ht & Hlt).
    by pose proof (returned_idle _ _ _ _ Hlt (Hret j t Ht)).
  - intros p Hp'. apply (ci_free _ _ _ _ _ HI p Hp'). intros i g Hg _ [fd Hw].
    destruct (Forall2_lookup_r _ _ _ _ _ Hok Hg) as (t & Ht & _). destruct (Hdone i t g Ht Hg) as [_ Hso].
    by rewrite (so_held _ Hso) in Hw.
Qed.
End runs.

(** ** The theorems *)

(** The audit log is a linearization.  Clients with well-formed requests
    (a Content-Length that is right, URIs and lockfiles in existing
    directories, different URIs for different files, no failing system calls)
    are handled at the same time.  In every state that any interleaving of
    their calls can reach: each line of the log is the line of a request that
    has none before it, with the status that [spec_request] gives the request
    on the tree that the requests logged before it make, executed one at a
    time; that client has been sent exactly the message [spec_request] gives;
    and every file that no one has locked for writing is what the logged
    requests make of it. *)
Theorem audit_order_linearizes w0 dir reqs q : clients_ok w0 dir reqs →
  reachable (clients_pool w0 dir reqs) q →
  (∀ tr1 i line tr2, pool_trace q = tr1 ++ (i, line) :: tr2 → (i ∉ tr1.*1) ∧
     ∃ r s, reqs !! i = Some r ∧ w_socks (pool_world q) !! rq_sock r = Some s ∧
       let '(res, msg, _) := spec_request w0 r (tree_after w0 reqs tr1) in
       line = rq_line r res ∧ sk_out s = out0 w0 r ++ msg) ∧
  (∀ p, ¬ is_lockfile reqs p →
     (∀ r fd, r ∈ reqs → rq_path r = p → w_flocks (pool_world q) !! rq_lock r ≠ Some (LExclusive fd)) →
     w_fs (pool_world q) !! p = tree_after w0 reqs (pool_trace q) !! p).
Proof.
  intros Hcs. by apply clients_linear.
Qed.

(** Every client is served.  Whatever the interleaving, it only ends when
    every connection has been handled: then each request has its line in the
    log, exactly once; the log file holds those lines, in that order, after
    what it held before; the tree is what the requests make of it, executed
    one at a time in the order of the log; and no URI is locked. *)
Theorem clients_all_served w0 dir reqs q : clients_ok w0 dir reqs →
  reachable (clients_pool w0 dir reqs) q → stuck q = true →
  Forall (λ t, thread_returned t = true) (pool_threads q) ∧
  (pool_trace q).*1 ≡ₚ seq 0 (length reqs) ∧
  w_log_out (pool_world q) = w_log_out w0 ++ concat ((pool_trace q).*2) ∧
  (∀ p, ¬ is_lockfile reqs p → w_fs (pool_world q) !! p = tree_after w0 reqs (pool_trace q) !! p) ∧
  w_flocks (pool_world q) = ∅.
Proof.
  intros Hcs. by apply clients_served.
Qed.

(** Every run ends.  Clients with well-formed requests that are handled at
    the same time cannot keep each other going for ever: whatever the
    interleaving, there is no infinite sequence of calls.  So from every state
    that is reached, the run can be continued to one where every connection has
    been handled, and however it is continued it gets there. *)
Theorem clients_run_ends w0 dir reqs : clients_ok w0 dir reqs →
  sn pool_step (clients_pool w0 dir reqs) ∧
  ∀ q, reachable (clients_pool w0 dir reqs) q →
    ∃ q', reachable q q' ∧ Forall (λ t, thread_returned t = true) (pool_threads q').
Proof.
  intros Hcs. pose proof (clients_annotated w0 dir reqs Hcs) as Ha. split; [by eapply pool_terminates, Ha; apply _|].
  intros q Hr. destruct (pool_sound_t _ _ _ _ _ q _ Hr Ha) as (l & Hq).
  destruct (sn_finishes q) as (q' & Hr' & Hst); [by eapply pool_terminates, Hq; apply _|].
  exists q'. split; [done|]. destruct (clients_run w0 dir reqs Hcs q') as (gs & HI & Hok); [unfold reachable in *; by etrans|].
  destruct (stuck_all_served w0 reqs q' gs Hst HI Hok) as [_ Hdone].
  apply Forall_lookup. intros i t Ht. destruct (Forall2_lookup_l _ _ _ _ _ Hok Ht) as (g & Hg & _). by eapply Hdone.
Qed.

(** ** A run: a PUT and a GET of the same file *)

Definition demo_reqs : list request :=
  let lock := [B "tmp"; LOCKS; B "new.txt"] in
  [ Req 5 0 (B "PUT") (B "new.txt") demo_hs (B "hello") (srv ++ [B "new.txt"]) lock;
    Req 6 1 (B "GET") (B "new.txt") [] [] (srv ++ [B "new.txt"]) lock ].

Lemma demo_clients : clients_ok demo_two demo_dir demo_reqs.
Proof.
  split.
  - unfold demo_reqs. intros r [->|[->|[]%elem_of_nil]%elem_of_cons]%elem_of_cons.
    all: split; [apply (bool_decide_unpack _); vm_compute; exact I|vm_compute; discriminate|vm_compute; reflexivity
      | |reflexivity| |vm_compute; reflexivity|vm_compute; reflexivity|vm_compute; reflexivity|vm_compute; reflexivity].
    + intros _. split; [reflexivity|vm_compute; discriminate].
    + eexists. split; [reflexivity|]. split; [reflexivity|]. by repeat constructor.
    + intros H. vm_compute in H. discriminate.
    + eexists. split; [reflexivity|]. split; [by rewrite app_nil_r|]. by repeat constructor.
  - apply (bool_decide_unpack _). vm_compute. exact I.
  - apply (bool_decide_unpack _). vm_compute. exact I.
  - unfold demo_reqs. intros r r' [->|[->|[]%elem_of_nil]%elem_of_cons]%elem_of_cons
      [->|[->|[]%elem_of_nil]%elem_of_cons]%elem_of_cons; reflexivity.
  - unfold demo_reqs. intros r r' [->|[->|[]%elem_of_nil]%elem_of_cons]%elem_of_cons
      [->|[->|[]%elem_of_nil]%elem_of_cons]%elem_of_cons; vm_compute; discriminate.
  - by vm_compute.
  - reflexivity.
  - constructor.
  - apply demo_two_sizes.
Qed.

(** The GET gets its lock first: the PUT waits for it, and the file is not there yet. *)
Definition demo_lin : pool sysE world bytes :=
  schedule (replicate 20 1%nat ++ concat (replicate 30 [0; 1]%nat)) (clients_pool demo_two demo_dir demo_reqs).

Definition demo_lin_lines : log_trace :=
  [(1%nat, B "GET,new.txt,404,0" ++ [LF]); (0%nat, B "PUT,new.txt,201,10" ++ [LF])].

Lemma audit_order_linearizes_witness : pool_trace demo_lin = demo_lin_lines ∧
  ∃ r s, demo_reqs !! 0%nat = Some r ∧ w_socks (pool_world demo_lin) !! rq_sock r = Some s ∧
    let '(res, msg, _) := spec_request demo_two r (tree_after demo_two demo_reqs (take 1 demo_lin_lines)) in
    B "PUT,new.txt,201,10" ++ [LF] = rq_line r res ∧ sk_out s = out0 demo_two r ++ msg.
Proof.
  assert (Htr : pool_trace demo_lin = demo_lin_lines) by (vm_compute; reflexivity).
  destruct (audit_order_linearizes demo_two demo_dir demo_reqs demo_lin demo_clients
    (schedule_reachable _ _)) as [H _].
  split; [exact Htr|].
  destruct (H (take 1 demo_lin_lines) 0%nat (B "PUT,new.txt,201,10" ++ [LF]) [] Htr) as [_ Hr]. exact Hr.
Defined.

Lemma clients_all_served_witness : stuck demo_lin = true ∧
  w_log_out (pool_world demo_lin) = w_log_out demo_two ++ concat ((pool_trace demo_lin).*2) ∧
  w_flocks (pool_world demo_lin) = ∅.
Proof.
  assert (Hst : stuck demo_lin = true) by (vm_compute; reflexivity).
  destruct (clients_all_served demo_two demo_dir demo_reqs demo_lin demo_clients
    (schedule_reachable _ _) Hst) as (_ & _ & H1 & _ & H2).
  exact (conj Hst (conj H1 H2)).
Defined.
