(* ===== verification/Robust.v ===== *)
(** * Any clients at once: what a thread owns (src/httpserver.c)

    Connections handled at the same time on one file tree, with no assumption on
    what the clients send, on how their URIs name files, or on which calls fail.
    A thread owns descriptors, at most one lock and, for a while, the mutex of
    the log ([rghost]); [rinv] says that every descriptor, lock and the mutex
    have one owner.  This file has the calls; RobustRuns has the handlers. *)
From S2P Require Import Prelude Libc Regex Http Prog Pools PoolsTerm Posix Util Connection IoEvents Log Server Parsing.
From S2P Require Import Handlers AuditLog Shared SharedRules SharedCalls.
Local Open Scope Z_scope.
Local Open Scope prog_scope.

(** ** The faults still to come, of files and of all sockets *)

Definition socks_faults (m : gmap nat sock) : nat := map_fold (λ _ s n, length (sk_faults s) + n)%nat 0%nat m.
Definition all_faults (w : world) : nat := length (w_faults w) + socks_faults (w_socks w).

Lemma socks_faults_insert m c s s' : m !! c = Some s →
  (socks_faults (<[c := s']> m) + length (sk_faults s) = socks_faults m + length (sk_faults s'))%nat.
Proof.
  intros Hs. unfold socks_faults. rewrite <- insert_delete_eq.
  rewrite (map_fold_insert_L _ _ c s' (delete c m)); [|intros; lia|apply lookup_delete_eq].
  rewrite (map_fold_delete_L _ _ c s m); [lia|intros; lia|done].
Qed.

Lemma socks_faults_falls m c s s' : m !! c = Some s → (length (sk_faults s') ≤ length (sk_faults s))%nat →
  (socks_faults (<[c := s']> m) ≤ socks_faults m)%nat.
Proof. intros Hs Hle. pose proof (socks_faults_insert m c s s' Hs). lia. Qed.

(** What one transfer does to the descriptors and the faults; an interruption
    uses up a fault. *)
Lemma sock_read_faults s n s' r : sock_read s n = (s', r) →
  (length (sk_faults s') ≤ length (sk_faults s))%nat ∧ (r = Err EINTR → (length (sk_faults s') < length (sk_faults s))%nat) ∧
  (∀ d, r = Ok d → (length d ≤ n)%nat).
Proof.
  unfold sock_read. destruct (sock_fault s) as [f fl] eqn:Hf. apply sock_fault_spec in Hf as [Hle Hlt].
  pose proof (transfer_bounds f (min n (length (sk_in s)))) as [Hk _].
  remember (transfer f (min n (length (sk_in s)))) as k eqn:Heq. clear Heq.
  destruct (sk_in s) as [|c inp]; destruct f as [| |e]; try (destruct (sk_eof s)); intros [= <- <-];
    cbn [sk_faults]; split_and!; try done; try (intros ? [= <-]; cbn; lia); try (intros [= ->]; by eauto).
  all: intros d [= <-]; rewrite length_take; lia.
Qed.

Lemma sock_write_faults s data s' r : sock_write s data = (s', r) →
  (length (sk_faults s') ≤ length (sk_faults s))%nat ∧ (r = Err EINTR → (length (sk_faults s') < length (sk_faults s))%nat) ∧
  (∀ k, r = Ok k → (k ≤ length data)%nat ∧ (data ≠ [] → (0 < k)%nat)).
Proof.
  unfold sock_write. destruct (sock_fault s) as [f fl] eqn:Hf. apply sock_fault_spec in Hf as [Hle Hlt].
  pose proof (transfer_bounds f (length data)) as [Hk1 Hk].
  remember (transfer f (length data)) as k eqn:Heq. clear Heq.
  destruct f as [| |e]; intros [= <- <-]; cbn [sk_faults]; split_and!; try done; try (intros [= ->]; by eauto).
  all: intros k' [= <-]; split; [done|]; intros Hd; apply Hk; destruct data; [done|cbn [length]; lia].
Qed.

(** The path or socket of every descriptor stays, and all but [fd] are left alone. *)
Definition ofd_of (o : ofd) : path + nat := match o with OFile p _ => inl p | OSock c => inr c end.
Definition same_open (fd : nat) (w w' : world) : Prop :=
  (∀ fd', fd' ≠ fd → w_fds w' !! fd' = w_fds w !! fd') ∧
  ofd_of <$> (w_fds w' !! fd) = ofd_of <$> (w_fds w !! fd) ∧
  w_flocks w' = w_flocks w ∧ w_log_mu w' = w_log_mu w.

Lemma same_open_id fd w : same_open fd w w.
Proof. done. Qed.
Lemma same_open_offset fd p off off' fl fs w : w_fds w !! fd = Some (OFile p off) →
  same_open fd w (set_fs fs (set_fds (<[fd := OFile p off']> (w_fds w)) (set_faults fl w))).
Proof.
  intros Hfd. split_and!; try done; cbn.
  - intros fd' Hne. by rewrite lookup_insert_ne.
  - by rewrite lookup_insert_eq, Hfd.
Qed.
Lemma set_fs_self w : set_fs (w_fs w) w = w.
Proof. by destruct w. Qed.

Lemma read_call fd n w w' r : sys_read fd n w = (w', r) →
  same_open fd w w' ∧ (all_faults w' ≤ all_faults w)%nat ∧ (r = Err EINTR → (all_faults w' < all_faults w)%nat) ∧
  (∀ d, r = Ok d → (length d ≤ n)%nat) ∧ w_fs w' = w_fs w.
Proof.
  unfold sys_read. destruct (w_fds w !! fd) as [[p off|c]|] eqn:Hfd; [|..|by intros [= <- <-]; split_and!].
  - destruct (w_fs w !! p) as [[d m|m|m]|]; try (by intros [= <- <-]; split_and!).
    destruct (pop_fault w) as [f w1] eqn:Hp. apply pop_fault_spec in Hp as (fl & -> & Hf).
    assert (Hb : (length fl ≤ length (w_faults w))%nat) by (destruct f; lia).
    pose proof (transfer_bounds f (min n (length (drop off d)))) as [Hk _].
    remember (transfer f (min n (length (drop off d)))) as k eqn:Heq. clear Heq.
    destruct f as [|k'|e]; intros [= <- <-]; (split; [|split_and!]);
      try apply (same_open_offset fd p off _ fl (w_fs w) w Hfd); try done; unfold all_faults; cbn [w_faults w_socks set_fds set_faults]; try lia.
    all: intros d' [= <-]; rewrite length_take; lia.
  - destruct (w_socks w !! c) as [s|] eqn:Hs; [|by intros [= <- <-]; split_and!].
    destruct (sock_read s n) as [s' r'] eqn:Hr. intros [= <- <-].
    apply sock_read_faults in Hr as (H1 & H2 & H3). pose proof (socks_faults_insert (w_socks w) c s s' Hs).
    split; [done|]. unfold all_faults; cbn. split_and!; [lia| |done|done]. intros ?%H2. lia.
Qed.

(** Every file's size fits in 64 bits. *)
Definition file_sizes (w : world) : Prop := ∀ p d m, w_fs w !! p = Some (NFile d m) → Z.of_nat (length d) ≤ ULLONG_MAX.

Lemma file_sizes_insert w p d m w' : file_sizes w → Z.of_nat (length d) ≤ ULLONG_MAX →
  w_fs w' = <[p := NFile d m]> (w_fs w) → file_sizes w'.
Proof.
  intros Hs Hd E p' d' m'. rewrite E, lookup_insert. case_decide; [|by apply Hs]. by intros [= <- _].
Qed.

Lemma length_file_write d off data : (length (file_write d off data) ≤ max (length d) (off + length data))%nat.
Proof. unfold file_write, store. len. Qed.

(** What a write does to the file behind the descriptor. *)
Definition wrote (fd : nat) (data : bytes) (r : rc nat) (w w' : world) : Prop :=
  match w_fds w !! fd with
  | Some (OFile p off) => ∃ k, (∀ k', r = Ok k' → k' = k) ∧ (k ≤ length data)%nat ∧ (∀ e, r = Err e → k = 0%nat) ∧
      w_fds w' !! fd = Some (OFile p (off + k)) ∧
      (Z.of_nat (off + length data) ≤ ULLONG_MAX → file_sizes w → file_sizes w')
  | _ => w_fds w' = w_fds w ∧ w_fs w' = w_fs w
  end.

Lemma write_call fd data w w' r : sys_write fd data w = (w', r) →
  same_open fd w w' ∧ (all_faults w' ≤ all_faults w)%nat ∧ (r = Err EINTR → (all_faults w' < all_faults w)%nat) ∧
  (∀ k, r = Ok k → (k ≤ length data)%nat ∧ (data ≠ [] → (0 < k)%nat)) ∧ wrote fd data r w w'.
Proof.
  unfold wrote, sys_write. destruct (w_fds w !! fd) as [[p off|c]|] eqn:Hfd; [|..|by intros [= <- <-]; split_and!].
  - assert (Hno : ∀ e : errno, ∃ k, (∀ k', Err e = Ok k' → k' = k) ∧ (k ≤ length data)%nat ∧ (∀ e', (Err e : rc nat) = Err e' → k = 0%nat) ∧
      Some (OFile p off) = Some (OFile p (off + k)) ∧ (Z.of_nat (off + length data) ≤ ULLONG_MAX → file_sizes w → file_sizes w)).
    { intros e. exists 0%nat. rewrite Nat.add_0_r. split_and!; [done|lia|done..]. }
    destruct (w_fs w !! p) as [[d m|m|m]|] eqn:Hp; try (intros [= <- <-]; rewrite Hfd; by split_and!).
    destruct (pop_fault w) as [f w1] eqn:Hpop. apply pop_fault_spec in Hpop as (fl & -> & Hf).
    assert (Hb : (length fl ≤ length (w_faults w))%nat) by (destruct f; lia).
    pose proof (transfer_bounds f (length data)) as [Hle Hk].
    remember (transfer f (length data)) as k eqn:Heq. clear Heq.
    destruct f as [|k'|e]; intros [= <- <-]; (split; [|split_and!]);
      try apply (same_open_offset fd p off _ fl _ w Hfd); try done; unfold all_faults;
      cbn [w_faults w_socks set_fds set_fs set_faults]; try lia.
    1,3: intros k1 [= <-]; split; [done|]; intros Hd; apply Hk; destruct data; [done|cbn [length]; lia].
    1,2: exists k; split_and!; [by intros ? [= ->]|done|done|cbn; by rewrite lookup_insert_eq|]; intros Hmax Hs;
      eapply (file_sizes_insert w); [done| |cbn; reflexivity];
      pose proof (length_file_write d off (take k data)); pose proof (Hs p d m Hp); rewrite length_take in *; lia.
    cbn [w_fds set_faults]. rewrite Hfd. apply Hno.
  - destruct (w_socks w !! c) as [s|] eqn:Hs; [|by intros [= <- <-]; split_and!].
    destruct (sock_write s data) as [s' r'] eqn:Hr. intros [= <- <-].
    apply sock_write_faults in Hr as (H1 & H2 & H3). pose proof (socks_faults_insert (w_socks w) c s s' Hs).
    split; [done|]. unfold all_faults; cbn. split_and!; [lia| |done|done|done]. intros ?%H2. lia.
Qed.

(** No call adds a fault. *)
Lemma all_faults_files w w' : (fault_budget w' ≤ fault_budget w)%nat → w_socks w' = w_socks w →
  (all_faults w' ≤ all_faults w)%nat.
Proof. unfold fault_budget, all_faults. intros H ->. lia. Qed.

Lemma calls_keep_socks X (e : sysE X) w w' x : sys e w = Some (w', x) →
  match e with Read _ _ | Write _ _ => True | _ => w_socks w' = w_socks w end.
Proof.
  intros Hs. destruct e; try done; change (sys ?e w) with (posix _ e w) in Hs; unfold posix in Hs;
    unfold sys_open, sys_close, sys_fstat, sys_ftruncate, sys_flock, sys_mkdir, sys_lstat, sys_stat_cwd, sys_alloc, call_access, print_log, flush_log, pop_log_fault,
      faulty, do_open, new_fd, do_fstat, do_ftruncate, do_mkdir, do_lstat in Hs; same_log_tac.
Qed.

#[export] Instance all_faults_falls : Falling sysE all_faults.
Proof.
  intros X e w w' x Hs. pose proof (calls_keep_socks X e w w' x Hs) as Hk. pose proof (fault_budget_falls X e w w' x Hs) as Hb.
  destruct e; try (by apply all_faults_files); cbn in Hs; injection Hs as Hs.
  - by eapply read_call.
  - by eapply write_call.
Qed.

(** ** Locks *)

(** [fd] has a lock on [p] in the table [locks]. *)
Definition has_lock (locks : gmap path lstate) (p : path) (fd : nat) : Prop :=
  match locks !! p with Some (LExclusive fd') => fd = fd' | Some (LShared s) => fd ∈ s | None => False end.
Definition no_empty (locks : gmap path lstate) : Prop := ∀ p, locks !! p ≠ Some (LShared ∅).

Lemma take_lock_spec p fd op locks locks' : op ≠ LOCK_UN → take_lock p fd op locks = Some locks' →
  (∀ p' fd', has_lock locks' p' fd' → has_lock locks p' fd' ∨ (p' = p ∧ fd' = fd)) ∧ (no_empty locks → no_empty locks').
Proof.
  intros Hop Ht.
  enough (∃ l, locks' = <[p := l]> locks ∧ l ≠ LShared ∅ ∧ match l with
    | LExclusive fd' => fd' = fd | LShared s => ∀ x, x ∈ s → has_lock locks p x ∨ x = fd end) as (l & -> & Hl & Hx).
  { split.
    - intros p' fd'. unfold has_lock at 1. rewrite lookup_insert. case_decide as Hp; [subst p'|by left].
      destruct l as [s|fd1]; [intros [?| ->]%Hx; auto|intros ->; subst; auto].
    - intros Hne p'. rewrite lookup_insert. case_decide; [|apply Hne]. by intros [= ->]. }
  unfold take_lock in Ht. unfold has_lock. destruct op, (locks !! p) as [[s|fd1]|] eqn:Hp; simplify_eq.
  - exists (LShared ({[fd]} ∪ s)). split_and!; [done|intros [=]; set_solver|]. set_solver.
  - exists (LShared {[fd]}). split_and!; [done|intros [=]; set_solver|]. set_solver.
  - by exists (LExclusive fd).
Qed.

Lemma drop_lock_spec p fd locks :
  (∀ p' fd', has_lock (drop_lock p fd locks) p' fd' → has_lock locks p' fd' ∧ ¬ (p' = p ∧ fd' = fd)) ∧
  (no_empty locks → no_empty (drop_lock p fd locks)).
Proof.
  unfold drop_lock, has_lock, no_empty.
  destruct (locks !! p) as [[s|fd1]|] eqn:Hp; [case_decide as Hs|case_decide as Hs|].
  1,3: split; [intros p' fd'|intros Hne p']; rewrite lookup_delete; case_decide as Hq; try done;
    first [apply Hne|intros Hl; split; [done|]; intros [-> _]; congruence].
  - split; [intros p' fd'|intros Hne p']; rewrite lookup_insert; case_decide as Hq; try apply Hne; [subst p'|..].
    + rewrite Hp. set_solver.
    + intros Hl. split; [done|]. intros [-> _]. congruence.
    + congruence.
  - split; [|done]. intros p' fd' Hl. split; [done|]. intros [-> ->]. rewrite Hp in Hl. congruence.
  - split; [|done]. intros p' fd' Hl. split; [done|]. intros [-> ->]. by rewrite Hp in Hl.
Qed.

(** ** Ownership *)

(** What a thread has a descriptor for: its connection, a file it reads or
    locks, or a file it has written at most [n] bytes to. *)
Inductive fdkind := KSock | KFile | KWrite (n : Z).

Definition kind_ok (k : fdkind) (o : ofd) : Prop :=
  match k, o with
  | KSock, OSock _ | KFile, OFile _ _ => True
  | KWrite n, OFile _ off => Z.of_nat off ≤ n
  | _, _ => False
  end.

(** The descriptors a thread has open, the lock it holds through one of them,
    and whether it is inside log_audit. *)
Record rghost := RG { r_fds : gmap nat fdkind; r_held : option (path * nat); r_log : bool }.

Section owners.
(** [fds0]: the descriptors that no thread has to do with. *)
Context (fds0 : gmap nat ofd).

Record rinv (tr : log_trace) (gs : list rghost) (w : world) : Prop := {
  ri_base : ∀ fd o, fds0 !! fd = Some o → w_fds w !! fd = Some o ∧ ∀ i g, gs !! i = Some g → r_fds g !! fd = None;
  ri_all : ∀ fd, is_Some (w_fds w !! fd) → is_Some (fds0 !! fd) ∨ ∃ i g, gs !! i = Some g ∧ is_Some (r_fds g !! fd);
  ri_own : ∀ i g fd k, gs !! i = Some g → r_fds g !! fd = Some k → ∃ o, w_fds w !! fd = Some o ∧ kind_ok k o;
  ri_apart : ∀ i j g g', i ≠ j → gs !! i = Some g → gs !! j = Some g' → r_fds g ##ₘ r_fds g';
  ri_held : ∀ i g p fd, gs !! i = Some g → r_held g = Some (p, fd) →
    is_Some (r_fds g !! fd) ∧ ∃ off, w_fds w !! fd = Some (OFile p off);
  ri_owner : ∀ p fd, lock_has w p fd → ∃ i g, gs !! i = Some g ∧ r_held g = Some (p, fd);
  ri_shared : ∀ p, w_flocks w !! p ≠ Some (LShared ∅);
  ri_sizes : file_sizes w;
  ri_mu : total (λ g, one (r_log g)) gs = one (w_log_mu w)
}.

(** The thread that owns [g] does something and then owns [g']. *)
Record rmove (g g' : rghost) (w w' : world) : Prop := {
  rm_others : ∀ fd, r_fds g !! fd = None → is_Some (w_fds w !! fd) →
    w_fds w' !! fd = w_fds w !! fd ∧ r_fds g' !! fd = None;
  rm_mine : ∀ fd k, r_fds g' !! fd = Some k → ∃ o, w_fds w' !! fd = Some o ∧ kind_ok k o;
  rm_all : ∀ fd, is_Some (w_fds w' !! fd) → (is_Some (w_fds w !! fd) ∧ r_fds g !! fd = None) ∨ is_Some (r_fds g' !! fd);
  rm_held : ∀ p fd, r_held g' = Some (p, fd) → is_Some (r_fds g' !! fd) ∧ ∃ off, w_fds w' !! fd = Some (OFile p off);
  rm_owner : ∀ p fd, lock_has w' p fd → (lock_has w p fd ∧ r_fds g !! fd = None) ∨ r_held g' = Some (p, fd);
  rm_shared : no_empty (w_flocks w) → no_empty (w_flocks w');
  rm_sizes : file_sizes w → file_sizes w';
  rm_mu : (one (w_log_mu w') + one (r_log g) = one (w_log_mu w) + one (r_log g'))%nat
}.

Section step.
Context tr gs w i g (HI : rinv tr gs w) (Hi : gs !! i = Some g).

Lemma rinv_step g' w' ls : rmove g g' w w' → rinv (tr ++ map (pair i) ls) (<[i := g']> gs) w'.
Proof.
  intros Hm. destruct HI as [H1 H2 H3 H4 H5 H6 H7 H8 H9].
  assert (Hlook : ∀ j x, <[i := g']> gs !! j = Some x → (j = i ∧ x = g') ∨ (j ≠ i ∧ gs !! j = Some x)).
  { intros j x [[-> ->]|[? ?]]%lookup_update; auto. }
  assert (Hmine : <[i := g']> gs !! i = Some g') by (apply list_lookup_insert_eq; by eapply lookup_lt_Some).
  assert (Hother : ∀ j x, j ≠ i → gs !! j = Some x → <[i := g']> gs !! j = Some x)
    by (intros; by rewrite list_lookup_insert_ne).
  assert (Hfor : ∀ j x fd k, j ≠ i → gs !! j = Some x → r_fds x !! fd = Some k →
    r_fds g !! fd = None ∧ w_fds w' !! fd = w_fds w !! fd ∧ r_fds g' !! fd = None).
  { intros j x fd k Hj Hx Hfd. assert (Hn : r_fds g !! fd = None) by (eapply map_disjoint_Some_r; [by eapply (H4 i j)|done]).
    destruct (rm_others _ _ _ _ Hm fd Hn) as [? ?]; [|done]. destruct (H3 j x fd k Hx Hfd) as (o & -> & _). done. }
  assert (Hdis : ∀ j x, j ≠ i → gs !! j = Some x → r_fds g' ##ₘ r_fds x).
  { intros j x Hj Hx. apply map_disjoint_spec. intros fd k k' Hk Hk'.
    destruct (Hfor j x fd k' Hj Hx Hk') as (_ & _ & ?). congruence. }
  split.
  - intros fd o Ho. destruct (H1 fd o Ho) as [Hf Hno]. destruct (rm_others _ _ _ _ Hm fd) as [E Hn]; [by eapply Hno|by rewrite Hf|].
    split; [congruence|]. intros j x [[_ ->]|[_ Hx]]%Hlook; [done|by eapply Hno].
  - intros fd [[Hs Hn]|Hs]%(rm_all _ _ _ _ Hm); [|right; eauto]. destruct (H2 fd Hs) as [?|(j & x & Hx & Hfd)]; [by left|right].
    exists j, x. split; [|done]. apply Hother; [|done]. intros ->. rewrite Hi in Hx. injection Hx as <-. rewrite Hn in Hfd. by destruct Hfd.
  - intros j x fd k [[-> ->]|[Hj Hx]]%Hlook Hfd; [by apply Hm|]. destruct (Hfor j x fd k Hj Hx Hfd) as (_ & -> & _). by eapply H3.
  - intros j k x y Hne Hx Hy. apply Hlook in Hx as [[-> ->]|[Hj Hx]]; apply Hlook in Hy as [[-> ->]|[Hk Hy]]; [done|..|by eapply (H4 j k)].
    + by apply (Hdis k).
    + symmetry. by apply (Hdis j).
  - intros j x p fd [[-> ->]|[Hj Hx]]%Hlook Hh; [by apply Hm|]. destruct (H5 j x p fd Hx Hh) as [[k Hfd] Hoff].
    destruct (Hfor j x fd k Hj Hx Hfd) as (_ & -> & _). by rewrite Hfd.
  - intros p fd [[Hl Hn]|Hh]%(rm_owner _ _ _ _ Hm); [|eauto]. destruct (H6 p fd Hl) as (j & x & Hx & Hh).
    exists j, x. split; [|done]. apply Hother; [|done]. intros ->. rewrite Hi in Hx. injection Hx as <-.
    destruct (H5 i g p fd Hi Hh) as [[k Hk] _]. congruence.
  - by apply Hm.
  - by apply Hm.
  - pose proof (total_insert (λ g, one (r_log g)) gs i g g' Hi) as E. pose proof (rm_mu _ _ _ _ Hm). cbn in E. lia.
Qed.

(** Only the owner of a descriptor has a lock through it. *)
Lemma my_lock p fd : lock_has w p fd → r_fds g !! fd = None ∨ r_held g = Some (p, fd).
Proof.
  intros Hl. destruct (ri_owner _ _ _ HI p fd Hl) as (j & x & Hx & Hh).
  destruct (ri_held _ _ _ HI j x p fd Hx Hh) as [[k Hfx] _].
  destruct (decide (j = i)) as [->|Hne]; [right; congruence|left].
  eapply map_disjoint_Some_r; [by eapply (ri_apart _ _ _ HI i j)|done].
Qed.

Lemma my_fd fd : is_Some (w_fds w !! fd) → (is_Some (w_fds w !! fd) ∧ r_fds g !! fd = None) ∨ is_Some (r_fds g !! fd).
Proof. destruct (r_fds g !! fd); eauto. Qed.

(** A call that leaves the descriptors alone; the mutex may change hands. *)
Lemma rmove_same b w' : w_fds w' = w_fds w → w_flocks w' = w_flocks w → (file_sizes w → file_sizes w') →
  (one (w_log_mu w') + one (r_log g) = one (w_log_mu w) + one b)%nat → rmove g (RG (r_fds g) (r_held g) b) w w'.
Proof.
  intros Hfds Hfl Hs Hmu. split; unfold lock_has; rewrite ?Hfds, ?Hfl; cbn [r_fds r_held r_log]; try done.
  - intros fd k. by apply (ri_own _ _ _ HI i).
  - intros fd. apply my_fd.
  - intros p fd. by apply (ri_held _ _ _ HI i).
  - intros p fd Hl. destruct (my_lock p fd Hl); auto.
Qed.

(** A transfer through the thread's own descriptor. *)
Lemma rmove_io fd k k' w' : r_fds g !! fd = Some k → same_open fd w w' → (file_sizes w → file_sizes w') →
  (∀ o o', w_fds w !! fd = Some o → kind_ok k o → w_fds w' !! fd = Some o' → kind_ok k' o') →
  rmove g (RG (<[fd := k']> (r_fds g)) (r_held g) (r_log g)) w w'.
Proof.
  intros Hk (Hne & Hsame & Hfl & Hmu) Hs Hok. destruct (ri_own _ _ _ HI i g fd k Hi Hk) as (o & Ho & Hko).
  assert (∃ o', w_fds w' !! fd = Some o') as [o' Ho'].
  { rewrite Ho in Hsame. destruct (w_fds w' !! fd); [eauto|done]. }
  split; cbn [r_fds r_held r_log]; try done.
  - intros fd' Hn _. assert (fd' ≠ fd) by congruence. by rewrite Hne, lookup_insert_ne.
  - intros fd' k1. rewrite lookup_insert. case_decide; [subst fd'|rewrite Hne by done; by apply (ri_own _ _ _ HI i)].
    intros [= <-]. exists o'. split; [done|by eapply Hok].
  - intros fd' Hx. destruct (decide (fd' = fd)) as [->|?]; [right; by rewrite lookup_insert_eq|].
    rewrite Hne in Hx by done. rewrite lookup_insert_ne by done. by apply my_fd.
  - intros p fd' Hh. destruct (ri_held _ _ _ HI i g p fd' Hi Hh) as [Hin [off Hf]].
    destruct (decide (fd' = fd)) as [->|?]; [|rewrite Hne, lookup_insert_ne by done; eauto].
    rewrite lookup_insert_eq. split; [done|]. rewrite Hf, Ho' in Hsame. destruct o'; simplify_eq/=. eauto.
  - intros p fd'. unfold lock_has. rewrite Hfl. intros Hl. destruct (my_lock p fd' Hl); auto.
  - by rewrite Hfl.
  - by rewrite Hmu.
Qed.

Lemma rmove_open fd p fs fl k : w_fds w !! fd = None → kind_ok k (OFile p 0) →
  file_sizes (opened (set_faults fl w) p fd fs) →
  rmove g (RG (<[fd := k]> (r_fds g)) (r_held g) (r_log g)) w (opened (set_faults fl w) p fd fs).
Proof.
  intros Hn Hk Hs. split; cbn [r_fds r_held r_log opened w_fds w_flocks set_fds set_fs set_faults]; try done.
  - intros fd' Hnot [o Ho]. assert (fd' ≠ fd) by congruence. by rewrite !lookup_insert_ne.
  - intros fd' k'. rewrite !lookup_insert. case_decide; [intros [= <-]; eauto|by apply (ri_own _ _ _ HI i)].
  - intros fd' Hx. rewrite lookup_insert in Hx. rewrite lookup_insert. case_decide; [by right|by apply my_fd].
  - intros p' fd' Hh. destruct (ri_held _ _ _ HI i g p' fd' Hi Hh) as [Hin [off Hf]].
    rewrite !lookup_insert_ne by congruence. eauto.
  - intros p' fd' Hl. destruct (my_lock p' fd' Hl); auto.
Qed.

Lemma rmove_close fd k : r_fds g !! fd = Some k → (∀ p, r_held g ≠ Some (p, fd)) →
  rmove g (RG (delete fd (r_fds g)) (r_held g) (r_log g)) w (sys_close fd w).
Proof.
  intros Hk Hnl. destruct (ri_own _ _ _ HI i g fd k Hi Hk) as (o & Ho & _).
  assert (Hno : ∀ p, ¬ lock_has w p fd) by (intros p [?|?]%my_lock; [congruence|by apply (Hnl p)]).
  assert (sys_close fd w = set_fds (delete fd (w_fds w)) w) as ->.
  { unfold sys_close. rewrite Ho. destruct o as [p off|c]; [|done].
    rewrite drop_lock_absent; [by destruct w|by apply Hno|apply HI]. }
  split; cbn [r_fds r_held r_log w_fds w_flocks set_fds]; try done.
  - intros fd' Hn _. rewrite !lookup_delete_ne by congruence. done.
  - intros fd' k'. rewrite !lookup_delete. case_decide; [done|by apply (ri_own _ _ _ HI i)].
  - intros fd' Hx. rewrite lookup_delete in Hx. rewrite lookup_delete. case_decide; [by destruct Hx|by apply my_fd].
  - intros p fd' Hh. destruct (ri_held _ _ _ HI i g p fd' Hi Hh) as [Hin' [off Hf]].
    assert (fd' ≠ fd) by (intros ->; by apply (Hnl p)). rewrite !lookup_delete_ne by done. eauto.
  - intros p fd' Hl. destruct (my_lock p fd' Hl); auto.
Qed.

Lemma rmove_flock fd k p off op locks fl : op ≠ LOCK_UN → r_fds g !! fd = Some k → w_fds w !! fd = Some (OFile p off) →
  r_held g = None → take_lock p fd op (w_flocks w) = Some locks →
  rmove g (RG (r_fds g) (Some (p, fd)) (r_log g)) w (set_flocks locks (set_faults fl w)).
Proof.
  intros Hop Hk Hfd Hh Ht. destruct (take_lock_spec p fd op (w_flocks w) locks Hop Ht) as [Hhas Hne].
  split; cbn [r_fds r_held r_log w_fds w_flocks set_flocks set_faults]; try done.
  - intros fd' k'. by apply (ri_own _ _ _ HI i).
  - intros fd'. apply my_fd.
  - intros p' fd' [= <- <-]. rewrite Hk. eauto.
  - intros p' fd' [Hl|[-> ->]]%(Hhas p' fd'); [left|by right]. split; [done|]. destruct (my_lock p' fd' Hl); congruence.
Qed.

Lemma rmove_unlock fd p : r_held g = Some (p, fd) →
  rmove g (RG (r_fds g) None (r_log g)) w (set_flocks (drop_lock p fd (w_flocks w)) w).
Proof.
  intros Hh. destruct (ri_held _ _ _ HI i g p fd Hi Hh) as [Hin [off Hfd]].
  destruct (drop_lock_spec p fd (w_flocks w)) as [Hhas Hne].
  split; cbn [r_fds r_held r_log w_fds w_flocks set_flocks]; try done.
  - intros fd' k'. by apply (ri_own _ _ _ HI i).
  - intros fd'. apply my_fd.
  - intros p' fd' [Hl Hn]%(Hhas p' fd'). left. split; [done|]. destruct (my_lock p' fd' Hl) as [|E]; [done|].
    destruct Hn. rewrite Hh in E. by injection E.
Qed.
End step.
End owners.

(** ** Calls *)

(** The descriptor a call is on. *)
Definition call_fd {X} (e : sysE X) : option nat :=
  match e with
  | Close fd | Read fd _ | Write fd _ | Fstat fd | Ftruncate fd | Flock fd _ => Some fd
  | _ => None
  end.

(** A thread makes calls on its own descriptors only; what it may wait for, and
    what it then holds. *)
Definition owns X (g : rghost) (e : sysE X) : Prop :=
  match call_fd e with Some fd => is_Some (r_fds g !! fd) | None => True end.
Definition rwaits X (g : rghost) (e : sysE X) : Prop :=
  owns X g e ∧
  match e with
  | Flock fd op => op = LOCK_UN ∨ (r_held g = None ∧ r_log g = false)
  | LogLock => r_log g = false
  | _ => True
  end.

(** Calls that leave descriptors, locks and the mutex alone, and add nothing to
    a file. *)
Definition plain X (e : sysE X) : Prop :=
  match e with
  | Fstat _ | Ftruncate _ | Access _ | Alloc | GetLogStream | Fprintf _ | Fflush => True
  | _ => False
  end.

Lemma plain_same X (e : sysE X) w w' x : plain X e → sys e w = Some (w', x) →
  w_fds w' = w_fds w ∧ w_flocks w' = w_flocks w ∧ w_log_mu w' = w_log_mu w ∧
  (w_fs w' = w_fs w ∨ ∃ p m, w_fs w' = <[p := NFile [] m]> (w_fs w)).
Proof.
  intros He Hs. destruct e; try (by destruct He); change (sys ?e w) with (posix _ e w) in Hs; unfold posix in Hs;
    unfold sys_fstat, sys_ftruncate, sys_alloc, call_access, print_log, flush_log, pop_log_fault, faulty, do_fstat, do_ftruncate in Hs; same_log_tac; split_and!; eauto.
Qed.

Lemma file_sizes_same w w' : w_fs w' = w_fs w → file_sizes w → file_sizes w'.
Proof. intros E Hs p d m. rewrite E. apply Hs. Qed.

Lemma file_sizes_empty w w' : (w_fs w' = w_fs w ∨ ∃ p m, w_fs w' = <[p := NFile [] m]> (w_fs w)) →
  file_sizes w → file_sizes w'.
Proof.
  intros [E|(p & m & E)]; [by apply file_sizes_same|]. intros Hs. eapply file_sizes_insert; [done| |done]. cbn. unfold ULLONG_MAX; lia.
Qed.

Section calls.
Context (fds0 : gmap nat ofd).
Local Abbreviation rok := (okt (rinv fds0) rwaits all_faults).

Lemma rok_call b {X} (e : sysE X) g (Q : X → rghost → Prop) : rwaits X g e →
  (∀ tr gs w w' x i, rinv fds0 tr gs w → gs !! i = Some g → sys e w = Some (w', x) → ∃ g', rmove g g' w w' ∧ Q x g') →
  rok b (perform e) g Q.
Proof.
  intros HA H. apply okt_trigger; [done|]. intros tr gs w w' x i Hi HI Hs.
  destruct (H tr gs w w' x i HI Hi Hs) as (g' & Hm & HQ). exists g'. split; [by eapply rinv_step|done].
Qed.

Lemma rmove_plain tr gs w i g X (e : sysE X) w' x : rinv fds0 tr gs w → gs !! i = Some g → plain X e →
  sys e w = Some (w', x) → rmove g g w w'.
Proof.
  intros HI Hi He Hs. destruct (plain_same X e w w' x He Hs) as (H1 & H2 & H3 & H4). destruct g as [fds held b].
  apply (rmove_same fds0 tr gs w i (RG fds held b) HI Hi b); [done..|by apply file_sizes_empty|by rewrite H3].
Qed.

Lemma rmove_faults tr gs w i g fl : rinv fds0 tr gs w → gs !! i = Some g → rmove g g w (set_faults fl w).
Proof. intros HI Hi. destruct g as [fds held b]. by apply (rmove_same fds0 tr gs w i (RG fds held b) HI Hi b). Qed.

Lemma rok_plain b {X} (e : sysE X) g (Q : X → rghost → Prop) : plain X e → owns X g e → (∀ x, Q x g) →
  rok b (perform e) g Q.
Proof.
  intros He Ho HQ. apply rok_call; [by destruct e|]. intros tr gs w w' x i HI Hi Hs. exists g. split; [by eapply rmove_plain|done].
Qed.

Lemma rok_open b p fl k g (Q : rc nat → rghost → Prop) : (k = KFile ∨ k = KWrite 0) → (∀ e, Q (Err e) g) →
  (∀ fd, r_fds g !! fd = None → Q (Ok fd) (RG (<[fd := k]> (r_fds g)) (r_held g) (r_log g))) →
  rok b (perform (Open p fl)) g Q.
Proof.
  intros Hk He HQ. apply rok_call; [done|]. intros tr gs w w' x i HI Hi Hs. cbn in Hs. injection Hs as Hs.
  unfold sys_open, faulty in Hs. destruct (pop_fault w) as [f w1] eqn:Hp. apply pop_fault_spec in Hp as (fds & -> & _).
  assert (Hno : ∀ e, (w', x) = (set_faults fds w, Err e) → ∃ g', rmove g g' w w' ∧ Q x g').
  { intros e [= -> ->]. exists g. split; [|done]. by eapply rmove_faults. }
  assert (Hyes : ∀ q fs, (fs = w_fs w ∨ ∃ p m, fs = <[p := NFile [] m]> (w_fs w)) →
    (w', x) = new_fd q (set_fs fs (set_faults fds w)) → ∃ g', rmove g g' w w' ∧ Q x g').
  { intros q fs Hfs [= -> ->]. pose proof (fd_alloc_fresh (w_fds w)) as Hfresh. eexists. split.
    - apply (rmove_open fds0 tr gs w i g HI Hi (fd_alloc (w_fds w)) q fs fds k Hfresh).
      + destruct Hk as [->| ->]; cbn; [done|lia].
      + eapply file_sizes_empty; [|apply HI]. exact Hfs.
    - apply HQ. destruct (r_fds g !! fd_alloc (w_fds w)) as [k'|] eqn:Hin; [|done].
      destruct (ri_own _ _ _ _ HI i g _ _ Hi Hin) as (o & Ho & _). congruence. }
  assert (Hyes' : ∀ q, (w', x) = new_fd q (set_faults fds w) → ∃ g', rmove g g' w w' ∧ Q x g').
  { intros q E. apply (Hyes q (w_fs w)); [by left|]. rewrite E. by destruct w. }
  unfold do_open in Hs. destruct f; repeat case_match; symmetry in Hs;
    (by eapply Hno) || (by eapply Hyes') || (eapply Hyes; [|done]; right; eauto).
Qed.

Lemma rok_close b fd k g (Q : unit → rghost → Prop) : r_fds g !! fd = Some k → (∀ p, r_held g ≠ Some (p, fd)) →
  Q tt (RG (delete fd (r_fds g)) (r_held g) (r_log g)) → rok b (perform (Close fd)) g Q.
Proof.
  intros Hin Hnl HQ. apply rok_call; [by split; [exists k|]|]. intros tr gs w w' [] i HI Hi Hs. cbn in Hs. injection Hs as <-.
  eexists. split; [by eapply rmove_close|done].
Qed.

Lemma rok_flock_retry b fd k op g (Q : rc unit → rghost → Prop) : op ≠ LOCK_UN → r_fds g !! fd = Some k → r_held g = None →
  r_log g = false → (∀ e, Q (Err e) g) → (∀ p, Q (Ok tt) (RG (r_fds g) (Some (p, fd)) (r_log g))) →
  rok b (flock_retry fd op) g Q.
Proof.
  intros Hop Hin Hh Hlog He HQ. unfold flock_retry.
  apply (okt_iter_call _ _ _ _ _ (λ _ g', g' = g) (λ _, 0%nat)); [|done]. intros [] g' ->. right.
  do 3 eexists. split; [rewrite observe_bind; reflexivity|]. split; [split; [by exists k|by right]|].
  intros tr gs w w' x j Hj HI Hs. cbn in Hs. unfold sys_flock in Hs.
  assert (Hcont : ∀ e fl, x = Err e → w' = set_faults fl w → (e = EINTR → (all_faults w' < all_faults w)%nat) →
    ∃ g' lr, rinv fds0 (tr ++ map (pair j) []) (<[j := g']> gs) w' ∧
      observe (match x with Ok _ => Ret (inr (Ok tt)) | Err e => if bool_decide (e = EINTR) then Ret (inl tt) else Ret (inr (Err e)) end
        : itree sysE (unit + rc unit)) = RetF lr ∧
      match lr with inl l => g' = g ∧ ((all_faults w' < all_faults w)%nat ∨ (0 < 0)%nat) | inr r => Q r g' end).
  { intros e fl -> -> Hlt. exists g, (if bool_decide (e = EINTR) then inl tt else inr (Err e)).
    split_and!; [eapply rinv_step; [done..|by eapply rmove_faults]|by case_bool_decide|]. case_bool_decide; [|done]. split; [done|left; auto]. }
  assert (Hw : w = set_faults (w_faults w) w) by (by destruct w).
  destruct (w_fds w !! fd) as [[p off|c]|] eqn:Hfd; [|injection Hs as <- <-; by eapply (Hcont EBADF)..].
  rewrite decide_False in Hs by done. destruct (pop_fault w) as [f w1] eqn:Hp. apply pop_fault_spec in Hp as (fl & -> & Hf).
  cbn [w_flocks set_faults] in Hs. destruct f as [|n|e].
  3: { injection Hs as <- <-. eapply (Hcont e fl); [done..|]. intros _. unfold all_faults. cbn. lia. }
  all: destruct (take_lock p fd op (w_flocks w)) as [locks|] eqn:Ht; [|done]; injection Hs as <- <-.
  all: exists (RG (r_fds g) (Some (p, fd)) (r_log g)), (inr (Ok tt)); split_and!; [|done|apply HQ].
  all: eapply rinv_step; [done..|]; by eapply (rmove_flock fds0).
Qed.

Lemma rok_unlock b fd k p g (Q : rc unit → rghost → Prop) : r_fds g !! fd = Some k → r_held g = Some (p, fd) →
  Q (Ok tt) (RG (r_fds g) None (r_log g)) → rok b (perform (Flock fd LOCK_UN)) g Q.
Proof.
  intros Hk Hh HQ. apply rok_call; [split; [by exists k|by left]|]. intros tr gs w w' x i HI Hi Hs. cbn in Hs. unfold sys_flock in Hs.
  destruct (ri_held _ _ _ _ HI i g p fd Hi Hh) as [Hin [off Hfd]]. rewrite Hfd, decide_True in Hs by done.
  injection Hs as <- <-. eexists. split; [by eapply rmove_unlock|done].
Qed.

(** Fstat reports a size that fits. *)
Lemma rok_fstat b fd k g (Q : rc stat → rghost → Prop) : r_fds g !! fd = Some k → (∀ e, Q (Err e) g) →
  (∀ st, 0 ≤ st_size st ≤ ULLONG_MAX → Q (Ok st) g) → rok b (perform (Fstat fd)) g Q.
Proof.
  intros Hk He HQ. apply rok_call; [by split; [exists k|]|]. intros tr gs w w' x i HI Hi Hs. exists g. split; [by eapply (rmove_plain _ _ _ _ _ _ (Fstat fd))|].
  pose proof (ri_sizes _ _ _ _ HI) as Hsz. cbn in Hs. injection Hs as Hs. unfold sys_fstat, faulty, do_fstat in Hs.
  destruct (pop_fault w) as [f w1] eqn:Hp. apply pop_fault_spec in Hp as (fl & -> & _). cbn in Hs.
  destruct f; repeat case_match; simplify_eq; try apply He; apply HQ.
  all: match goal with n : node |- _ => destruct n end; cbn; try (unfold ULLONG_MAX; lia); split; [lia|by eapply Hsz].
Qed.

(** The mutex of the log. *)
Lemma rok_log_lock b g (Q : unit → rghost → Prop) : r_log g = false → Q tt (RG (r_fds g) (r_held g) true) →
  rok b (perform LogLock) g Q.
Proof.
  intros Hl HQ. apply rok_call; [done|]. intros tr gs w w' [] i HI Hi Hs. cbn in Hs.
  destruct (w_log_mu w) eqn:Hmu; [done|]. injection Hs as <-. eexists. split; [|exact HQ].
  eapply (rmove_same fds0); try done. cbn. by rewrite Hmu, Hl.
Qed.

Lemma rok_log_unlock b g (Q : unit → rghost → Prop) : r_log g = true → Q tt (RG (r_fds g) (r_held g) false) →
  rok b (perform LogUnlock) g Q.
Proof.
  intros Hl HQ. apply rok_call; [done|]. intros tr gs w w' [] i HI Hi Hs. cbn in Hs. injection Hs as <-.
  eexists. split; [|exact HQ]. eapply (rmove_same fds0); try done. cbn. rewrite Hl.
  pose proof (total_in (λ g, one (r_log g)) _ _ _ Hi) as H. pose proof (ri_mu _ _ _ _ HI). cbn in H. rewrite Hl in H.
  destruct (w_log_mu w); cbn in *; lia.
Qed.
End calls.
