(* ===== verification/RobustRuns.v ===== *)
(** * Any clients at once: the handlers and their runs (src/httpserver.c)

    The routines of util.c and connection.c and the handlers, under any
    interference and any faults: they return, and a thread ends with nothing
    of its own. *)
From S2P Require Import Prelude Libc Regex Http Prog Pools PoolsTerm Posix Util Demo Connection IoEvents Log Server Parsing.
From S2P Require Import Transfer Handlers Serve AuditLog Shared SharedRules SharedCalls Robust.
Local Open Scope Z_scope.
Local Open Scope prog_scope.

Section routines.
Context (fds0 : gmap nat ofd).
Local Abbreviation rok := (okt (rinv fds0) rwaits all_faults).
Implicit Types (g : rghost) (b : nat).

(** A step of a loop that keeps what the thread owns. *)
Lemma rinv_same tr gs w j g ls w' : rinv fds0 tr gs w → gs !! j = Some g → rmove g g w w' →
  rinv fds0 (tr ++ map (pair j) ls) (<[j := g]> gs) w'.
Proof. intros HI Hj Hm. by eapply rinv_step. Qed.

(** ** Transfers *)

(** The thread may read from [fd]: it is its connection or a file. *)
Definition source (fd : nat) g : Prop := r_fds g !! fd = Some KSock ∨ r_fds g !! fd = Some KFile.

(** The thread may write to [fd]: once it has written [z] bytes, up to [lim] in
    all, it owns [W z]. *)
Class Sink (fd : nat) (W : Z → rghost) (lim : Z) : Prop := {
  sink_owned z : is_Some (r_fds (W z) !! fd);
  sink_law z data tr gs w w' r i : 0 ≤ z → z + Z.of_nat (length data) ≤ lim → rinv fds0 tr gs w →
    gs !! i = Some (W z) → sys_write fd data w = (w', r) →
    rmove (W z) (W (z + match r with Ok k => Z.of_nat k | Err _ => 0 end)) w w'
}.

Lemma own_id fd k g : r_fds g !! fd = Some k → RG (<[fd := k]> (r_fds g)) (r_held g) (r_log g) = g.
Proof. intros Hk. rewrite insert_id by done. by destruct g. Qed.

Lemma source_move tr gs w i g fd n w' r : rinv fds0 tr gs w → gs !! i = Some g → source fd g →
  sys_read fd n w = (w', r) → rmove g g w w'.
Proof.
  intros HI Hi Hsrc (Hso & _ & _ & _ & Hfs)%read_call.
  assert (∃ k, r_fds g !! fd = Some k ∧ (k = KSock ∨ k = KFile)) as (k & Hk & Hor) by (destruct Hsrc; eauto).
  rewrite <- (own_id fd k g Hk) at 2. eapply (rmove_io fds0); [done..|by apply file_sizes_same|].
  intros o o' Ho Hok Ho'. destruct Hso as (_ & E & _). rewrite Ho, Ho' in E. destruct o, o', Hor; simplify_eq/=; done.
Qed.

Lemma sock_sink fd g lim : r_fds g !! fd = Some KSock → Sink fd (λ _, g) lim.
Proof.
  intros Hk. split; [by exists KSock|]. intros z data tr gs w w' r i _ _ HI Hi (Hso & _ & _ & _ & Hwr)%write_call.
  rewrite <- (own_id fd KSock g Hk) at 2. destruct (ri_own _ _ _ _ HI i g fd _ Hi Hk) as (o & Ho & Hok).
  unfold wrote in Hwr. rewrite Ho in Hwr. destruct o as [p off|c]; [done|]. destruct Hwr as [E1 E2].
  eapply (rmove_io fds0); [done..|by apply file_sizes_same|]. intros o1 o2 E3 _. rewrite E1, E3, Ho in *. by intros [= <-].
Qed.

Definition writing (fd : nat) g (z : Z) : rghost := RG (<[fd := KWrite z]> (r_fds g)) (r_held g) (r_log g).

Lemma file_sink fd g : Sink fd (writing fd g) ULLONG_MAX.
Proof.
  split; [intros z; exists (KWrite z); cbn; by rewrite lookup_insert_eq|].
  intros z data tr gs w w' r i Hz Hlim HI Hi (Hso & _ & _ & _ & Hwr)%write_call.
  assert (Hk : r_fds (writing fd g z) !! fd = Some (KWrite z)) by (cbn; by rewrite lookup_insert_eq).
  destruct (ri_own _ _ _ _ HI i _ fd _ Hi Hk) as (o & Ho & Hok). unfold wrote in Hwr. rewrite Ho in Hwr.
  destruct o as [p off|c]; [|done]. cbn in Hok. destruct Hwr as (k & Hr & Hle & He & Hfd & Hsz).
  assert (match r with Ok k => Z.of_nat k | Err _ => 0 end = Z.of_nat k) as ->.
  { destruct r as [k'|e]; [by rewrite (Hr k')|by rewrite (He e)]. }
  replace (writing fd g (z + Z.of_nat k)) with
    (RG (<[fd := KWrite (z + Z.of_nat k)]> (r_fds (writing fd g z))) (r_held (writing fd g z)) (r_log (writing fd g z)))
    by (unfold writing; cbn; by rewrite insert_insert_eq).
  eapply (rmove_io fds0); [done..|apply Hsz; lia|]. intros o1 o2 _ _. rewrite Hfd. intros [= <-]. cbn. lia.
Qed.

Lemma rok_read_retry b fd want g (Q : rc bytes → rghost → Prop) : source fd g → (∀ e, Q (Err e) g) →
  (∀ d, (length d ≤ Z.to_nat want)%nat → Q (Ok d) g) → rok b (read_retry fd want) g Q.
Proof.
  intros Hin He HQ. unfold read_retry.
  apply (okt_iter_call _ _ _ _ _ (λ _ g', g' = g) (λ _, 0%nat)); [|done]. intros [] g' ->. right.
  do 3 eexists. split; [rewrite observe_bind; reflexivity|]. split; [split; [destruct Hin; by eexists|done]|].
  intros tr gs w w' x j Hj HI Hs. cbn in Hs. injection Hs as Hs.
  pose proof (source_move _ _ _ _ _ _ _ _ _ HI Hj Hin Hs) as Hm. apply read_call in Hs as (_ & _ & Hlt & Hlen & _).
  exists g. destruct x as [d|e].
  - exists (inr (Ok d)). split_and!; [by apply rinv_same with w|done|]. by apply HQ, Hlen.
  - exists (if bool_decide (e = EINTR) then inl tt else inr (Err e)). split_and!; [by apply rinv_same with w| |].
    + rewrite observe_bind. cbn. by case_bool_decide.
    + case_bool_decide; [|done]. subst. split; [done|left; auto].
Qed.

Lemma rok_write_all b fd W lim `{!Sink fd W lim} buf n z (Q : rc Z → rghost → Prop) : n ≤ Z.of_nat (length buf) → 0 ≤ z →
  z + Z.max 0 n ≤ lim → (∀ r z', z ≤ z' ≤ z + Z.max 0 n → (∀ m, r = Ok m → m = Z.max 0 n) → Q r (W z')) →
  rok b (write_all fd buf n) (W z) Q.
Proof.
  intros Hn Hz Hlim HQ. unfold write_all.
  apply (okt_iter_call _ _ _ _ _ (λ total g', g' = W (z + total) ∧ 0 ≤ total ≤ Z.max 0 n) (λ total, Z.to_nat (n - total))).
  2: { rewrite Z.add_0_r. split; [done|lia]. }
  intros total g' [-> Ht]. destruct (Z.ltb_spec total n); [right|left].
  2: { eexists. split; [done|]. apply HQ; [lia|]. intros m [= <-]. lia. }
  do 3 eexists. split; [rewrite observe_bind; reflexivity|]. split; [split; [apply sink_owned|done]|].
  intros tr gs w w' x j Hj HI Hs. cbn in Hs. injection Hs as Hs.
  assert (Hlen : length (slice buf total (n - total)) = Z.to_nat (n - total))
    by (unfold slice; rewrite length_take, length_drop; lia).
  assert (Hm := λ H1 H2, sink_law (z + total) _ _ _ _ _ _ _ H1 H2 HI Hj Hs). rewrite Hlen in Hm.
  specialize (Hm ltac:(lia) ltac:(lia)). apply write_call in Hs as (_ & _ & Hlt & Hpos & _). rewrite Hlen in Hpos.
  destruct x as [k|e].
  - destruct (Hpos k eq_refl) as [Hk1 Hk2].
    assert (0 < k)%nat by (apply Hk2; intros Hnil; rewrite Hnil in Hlen; cbn in Hlen; lia).
    exists (W (z + (total + Z.of_nat k))), (inl (total + Z.of_nat k)). rewrite Z.add_assoc.
    split_and!; [by eapply rinv_step|done|done|lia|lia|right; lia].
  - rewrite Z.add_0_r in Hm. exists (W (z + total)), (if bool_decide (e = EINTR) then inl total else inr (Err e)).
    split_and!; [by eapply rinv_step| |].
    + rewrite observe_bind. cbn. by case_bool_decide.
    + case_bool_decide; [|by apply HQ; [lia|]]. subst. split; [done|left; auto].
Qed.

Lemma rok_pass_bytes b src dst W lim `{!Sink dst W lim} n z (Q : rc Z → rghost → Prop) : (∀ z, source src (W z)) → 0 ≤ z →
  z + Z.max 0 n ≤ lim → (∀ r z', z ≤ z' ≤ z + Z.max 0 n → Q r (W z')) → rok b (pass_bytes src dst n) (W z) Q.
Proof.
  intros Hs Hz Hlim HQ. unfold pass_bytes.
  apply (okt_iter _ _ _ _ _ (λ total g', 0 ≤ total ≤ Z.max 0 n ∧ ∃ y, g' = W (z + y) ∧ 0 ≤ y ≤ total) (λ total, Z.to_nat (n - total))).
  2: { split; [lia|]. exists 0. rewrite Z.add_0_r. split; [done|lia]. }
  intros total g' (Ht & y & -> & Hy). destruct (Z.ltb_spec total n); [|apply okt_ret, HQ; lia].
  apply okt_bind; [apply _|]. apply rok_read_retry; [done|intros e; apply okt_ret, HQ; lia|].
  intros [|c d] Hd; [apply okt_ret, HQ; lia|]. unfold BUFFER_SIZE in Hd. set (x := c :: d) in *.
  assert (0 < Z.of_nat (length x)) by (cbn [length x]; lia).
  apply okt_bind; [apply _|]. apply (rok_write_all _ _ W lim); [done|lia..|].
  intros [r|e] z' Hz' _; apply okt_ret; [|apply HQ; lia].
  split; [|lia]. split; [lia|]. exists (z' - z). replace (z + (z' - z)) with z' by lia. split; [done|lia].
Qed.

Lemma rok_read_until b fd buf n needle g (Q : rc Z * bytes → rghost → Prop) : source fd g →
  0 ≤ n ≤ Z.of_nat (length buf) →
  (∀ d r, Z.of_nat (length d) ≤ n → (∀ m, r = Ok m → m = Z.of_nat (length d)) → Q (r, store buf 0 d) g) →
  rok b (read_until fd buf n needle) g Q.
Proof.
  intros Hin Hn HQ. unfold read_until.
  apply (okt_iter _ _ _ _ _ (λ st g', g' = g ∧ ∃ d, st = (Z.of_nat (length d), store buf 0 d) ∧ Z.of_nat (length d) ≤ n)
    (λ st, Z.to_nat (n - st.1))).
  2: { split; [done|]. exists []. cbn. split; [done|lia]. }
  intros st g' (-> & d & -> & Hd). cbn [fst]. destruct (Z.ltb_spec (Z.of_nat (length d)) n).
  2: { apply okt_ret, HQ; [lia|]. by intros ? [= <-]. }
  apply okt_bind; [apply _|]. apply rok_read_retry; [done|intros e; by apply okt_ret, HQ|].
  intros [|c x] Hx; [by apply okt_ret, HQ; [|intros ? [= <-]]|]. set (y := c :: x) in *.
  rewrite Nat2Z.id, store_store.
  replace (Z.of_nat (length d) + Z.of_nat (length y)) with (Z.of_nat (length (d ++ y))) by (rewrite length_app; lia).
  assert (Z.of_nat (length (d ++ y)) ≤ n) by (rewrite length_app; lia).
  case_match; apply okt_ret; [by apply HQ; [|intros ? [= <-]]|].
  split; [split; [done|by exists (d ++ y)]|]. cbn [fst]. rewrite length_app. cbn [length y]. lia.
Qed.

(** ** Parsing *)

Definition only_alloc X (e : sysE X) : Prop := match e with Alloc => True | _ => False end.

(** A routine that only allocates and, alone, returns something in [P] whatever
    fails: it does so in any interleaving. *)
Lemma rok_only_alloc w0 b {R} (t : itree sysE R) g (P : R → Prop) : (∀ n, does only_alloc n t) →
  (∀ fl, wpt t (set_faults fl w0) (λ r _, P r)) → rok b t g (λ r g', g' = g ∧ P r).
Proof.
  revert t. induction (lt_wf b) as [b _ IHb]. intros t Hd Hw.
  destruct (Hw []) as (r & v1 & He & _). remember (set_faults [] w0) as v eqn:Hv. revert Hv Hd Hw.
  induction He as [t v r Ho|t v t1 v1 r v2 Hs _ IH]; intros -> Hd Hw; assert (Hinv := λ fl, wpt_inv _ _ _ (Hw fl)).
  { eapply okt_return; [done|]. split; [done|]. specialize (Hinv []). by rewrite Ho in Hinv. }
  unfold step_thread in Hs. destruct (observe t) as [r'|t'|X e k] eqn:Ho; [done|..].
  - injection Hs as <- <-. eapply okt_silent; [done|]. apply IH; [done| |done].
    intros n. specialize (Hd (S n)). cbn in Hd. by rewrite Ho in Hd.
  - assert (Hd' : only_alloc X e ∧ ∀ n x, does only_alloc n (k x)).
    { split; [specialize (Hd 1%nat)|intros n x; specialize (Hd (S n))]; cbn in Hd; rewrite Ho in Hd; apply Hd. }
    destruct Hd' as [He Hd']. destruct e; try done. cbn in Hs. injection Hs as <- <-.
    eapply okt_event; [done..|]. intros tr gs w w' x i Hi HI Hb Hsys. exists g.
    split; [by eapply rinv_step, (rmove_plain fds0 _ _ _ _ _ _ Alloc)|].
    cbn in Hsys. unfold sys_alloc in Hsys. destruct (pop_fault w) as [f w1] eqn:Hp.
    apply pop_fault_spec in Hp as (fl' & -> & Hf). injection Hsys as <- <-.
    destruct f as [|n|e].
    1,2: eapply okt_mono; [|apply IH; [done|intros n'; apply Hd'|]]; [unfold all_faults in *; cbn; lia|].
    1,2: intros fl; apply (Hinv (FNone :: fl)); reflexivity.
    apply IHb; [unfold all_faults in *; cbn; lia|intros n'; apply Hd'|].
    intros fl. apply (Hinv (FErr e :: fl)). cbn. destruct Hf as [He' _]. unfold sys_alloc, pop_fault. cbn. by rewrite He'.
Qed.

Lemma only_alloc_process n conn : does only_alloc n (process_request conn).
Proof.
  unfold process_request, parse_headers.
  repeat first [ by apply does_compile | apply does_bind; [|intros ?] | apply does_ret | case_match ].
Qed.

(** What conn_parse leaves in the connection, whatever was read and whatever failed. *)
Lemma rok_conn_parse b fd g (Q : Conn * option Response → rghost → Prop) : r_fds g !! fd = Some KSock →
  (∀ conn r, conn_ok fd conn → (r = None → conn_accepted conn) → Q (conn, r) g) →
  rok b (conn_parse (fresh_conn fd)) g Q.
Proof.
  intros Hin HQ. unfold conn_parse. apply okt_bind; [apply _|].
  apply rok_read_until; [by left|cbn [buffer fresh_conn]; rewrite length_replicate; unfold BUFFER_SIZE; lia|]. intros d r Hd Hr.
  destruct (store_fresh d) as [Hst1 Hst2]; [unfold BUFFER_SIZE in *; lia|]. cbn [buffer fresh_conn] in Hst1 |- *. rewrite Hst1.
  assert (Hok : ∀ n, conn_ok fd (set_bytes_read n (received fd d))) by (intros n; apply received_ok; unfold BUFFER_SIZE in *; lia).
  destruct r as [n|e].
  2: { case_bool_decide; apply okt_ret, HQ; done || apply (Hok (-1)). }
  rewrite (Hr n eq_refl). clear Hr. destruct (Z.eqb_spec (Z.of_nat (length d)) 0) as [H0|H0]; [by apply okt_ret, HQ; [apply Hok|]|].
  set (conn := set_bytes_read (Z.of_nat (length d)) (set_buffer (filled d) (fresh_conn fd))).
  change (buffer conn) with (filled d). rewrite Nat2Z.id, Hst2. change (set_buffer (filled d) conn) with (received fd d).
  apply okt_bind; [apply _|]. eapply okt_conseq.
  - apply (rok_only_alloc (World ∅ [] (0, 0) 0 ∅ ∅ ∅ SNull false [] [] [] []) b _ g (λ '(conn', r), conn_ok fd conn' ∧
      (r = None → conn_accepted (set_in_message (bytes_read conn' - message_start conn') conn')))).
    + intros n'. apply only_alloc_process.
    + intros fl. eapply wpt_conseq; [apply (process_filled fd _ False 0%nat d True); [by intros []| |by intros ->]|].
      { unfold BUFFER_SIZE in *; lia. }
      intros [conn' r] w' (_ & _ & _ & H1 & H2). split; [done|]. intros ->. apply H2.
  - intros [conn' r] g' (-> & H1 & H2). destruct r as [res|]; apply okt_ret, HQ; [done|done|by destruct H1|by auto].
Qed.

(** ** Answers and the log *)

(** ** Answers, bodies and the log *)

Ltac rbind := apply okt_bind; [apply _|].

Lemma rok_send_response b conn res g (Q : option Response → rghost → Prop) : r_fds g !! connfd conn = Some KSock →
  (∀ r, Q r g) → rok b (conn_send_response conn res) g Q.
Proof.
  intros Hin HQ. unfold conn_send_response. destruct (response_text_message res) as [-> Hlen]. rewrite snprintf_fits by done.
  rbind. pose proof (sock_sink (connfd conn) g (Z.of_nat (length (response_message res))) Hin) as Hsink.
  apply (rok_write_all b (connfd conn) (λ _, g) _ _ _ 0); [lia..|]. intros [|] _ _ _; by apply okt_ret.
Qed.

Lemma rok_send_file b conn fd count g (Q : option Response → rghost → Prop) : r_fds g !! connfd conn = Some KSock →
  r_fds g !! fd = Some KFile → 0 ≤ count ≤ ULLONG_MAX → (∀ r, Q r g) → rok b (conn_send_file conn fd count) g Q.
Proof.
  intros Hin Hfd Hc HQ. unfold conn_send_file. rewrite snprintf_fits by (by apply file_header_length).
  assert (Hsink : ∀ lim, Sink (connfd conn) (λ _, g) lim) by (intros lim; by apply sock_sink).
  rbind. apply (rok_write_all b (connfd conn) (λ _, g) (Z.of_nat (length (file_header count))) _ _ 0); [lia..|]. intros [n|e] _ _ _; [|by apply okt_ret].
  destruct (0 <? count); [|by apply okt_ret]. rbind.
  apply (rok_pass_bytes b fd (connfd conn) (λ _, g) count _ 0); [by right|lia..|]. intros [|] _ _; by apply okt_ret.
Qed.

Lemma rok_recv_file b conn fd g (Q : option Response → rghost → Prop) :
  conn_ok (connfd conn) conn → conn_accepted conn → r_fds g !! connfd conn = Some KSock → r_fds g !! fd = None →
  (∀ r z, Q r (writing fd g z)) → rok b (conn_recv_file conn fd) (writing fd g 0) Q.
Proof.
  intros Hok Hacc Hin Hfd HQ. unfold conn_recv_file. pose proof (file_sink fd g) as Hsink.
  pose proof (acc_read _ Hacc) as H1. pose proof (acc_in _ Hacc) as H2. pose proof (acc_start _ Hacc) as H3. unfold BUFFER_SIZE in H1.
  assert (Hne : fd ≠ connfd conn) by congruence.
  assert (Hsrc : ∀ z, source (connfd conn) (writing fd g z)) by (intros z; left; cbn; by rewrite lookup_insert_ne).
  assert (Hstream : ∀ z m, 0 ≤ z ≤ 4096 → rok b (let remaining := to_s64 (content_length conn - m) in
      if 0 <? remaining then let! rc := pass_bytes (connfd conn) fd remaining in
        match rc with Err _ => Ret (Some RESPONSE_INTERNAL_SERVER_ERROR) | Ok _ => Ret None end
      else Ret None) (writing fd g z) Q).
  { intros z m Hz. cbv zeta. pose proof (to_s64_range (content_length conn - m)) as Hr.
    destruct (0 <? _); [|by apply okt_ret]. rbind.
    apply (rok_pass_bytes b _ _ (writing fd g) ULLONG_MAX); [done|lia|unfold LONG_MAX, ULLONG_MAX in *; lia|].
    intros [|] z' _; by apply okt_ret. }
  destruct (Z.ltb_spec 0 (in_message conn)); [|by apply Hstream]. rbind.
  apply (rok_write_all b _ (writing fd g) ULLONG_MAX); [|lia|unfold ULLONG_MAX; lia|].
  - rewrite length_drop, (ok_buffer _ _ Hok). unfold BUFFER_SIZE. lia.
  - intros [m|e] z' Hz' _; [|by apply okt_ret]. apply Hstream. lia.
Qed.

Lemma rok_log_audit b oper uri status rid g (Q : unit → rghost → Prop) : r_log g = false → Q tt g →
  rok b (log_audit oper uri status rid) g Q.
Proof.
  intros Hl HQ. unfold log_audit. rbind. apply rok_log_lock; [done|]. rbind. apply rok_plain; [done|done|]. intros st.
  rbind. assert (Hend : rok b (perform LogUnlock) (RG (r_fds g) (r_held g) true) Q).
  { apply rok_log_unlock; [done|]. cbn. rewrite <- Hl. by destruct g. }
  destruct st; [by apply okt_ret|..]; (rbind; apply rok_plain; [done|done|]; intros _; apply rok_plain; [done|done|]; by intros _).
Qed.

Lemma rok_respond b conn res g (Q : unit → rghost → Prop) : r_fds g !! connfd conn = Some KSock → r_log g = false → Q tt g →
  rok b (respond conn res) g Q.
Proof.
  intros Hin Hl HQ. unfold respond. rbind. apply rok_send_response; [done|]. intros _. by apply rok_log_audit.
Qed.

(** ** Locks *)

Lemma close_own fd k g : r_fds g !! fd = None → delete fd (<[fd := k]> (r_fds g)) = r_fds g.
Proof. apply delete_insert_id. Qed.

Lemma rok_uri_lock b dir uri op g (Q : option nat → rghost → Prop) : op ≠ LOCK_UN → r_held g = None → r_log g = false →
  Q None g → (∀ fd p, r_fds g !! fd = None → Q (Some fd) (RG (<[fd := KFile]> (r_fds g)) (Some (p, fd)) false)) →
  rok b (uri_lock dir uri op) g Q.
Proof.
  intros Hop Hh Hl HN HQ. unfold uri_lock. rbind. apply (rok_open _ _ _ _ KFile); [by left|intros e; by apply okt_ret|].
  intros fd Hfd. rbind. eapply rok_flock_retry; [done|cbn; by rewrite lookup_insert_eq|done|done|..].
  - intros e. rbind. eapply rok_close; [cbn; by rewrite lookup_insert_eq|cbn; congruence|].
    cbn. rewrite close_own by done. apply okt_ret. by destruct g.
  - intros p. apply okt_ret. cbn. rewrite Hl. by apply HQ.
Qed.

(** The thread that handles connection [cfd], and the same with the lock [lfd]. *)
Definition at_conn (cfd : nat) : rghost := RG {[cfd := KSock]} None false.
Definition with_lock (cfd lfd : nat) (p : path) : rghost := RG (<[lfd := KFile]> {[cfd := KSock]}) (Some (p, lfd)) false.

Lemma rok_uri_unlock b cfd lfd p (Q : unit → rghost → Prop) : lfd ≠ cfd → Q tt (at_conn cfd) →
  rok b (uri_unlock (Some lfd)) (with_lock cfd lfd p) Q.
Proof.
  intros Hne HQ. unfold uri_unlock. rbind. eapply rok_unlock; [cbn; by rewrite lookup_insert_eq|done|]. cbn.
  eapply rok_close; [cbn; by rewrite lookup_insert_eq|done|]. cbn. rewrite delete_insert_id; [done|by apply lookup_singleton_ne].
Qed.
End routines.

(** ** Handlers *)

Section handlers.
Context (fds0 : gmap nat ofd) (dir : bytes).
Local Abbreviation rok := (okt (rinv fds0) rwaits all_faults).

Ltac rbind := apply okt_bind; [apply _|].

Lemma fresh_for_conn cfd fd : r_fds (at_conn cfd) !! fd = None → fd ≠ cfd.
Proof. cbn. intros Hn ->. by rewrite lookup_singleton_eq in Hn. Qed.

Lemma with_lock_conn cfd lfd p : lfd ≠ cfd → r_fds (with_lock cfd lfd p) !! cfd = Some KSock.
Proof. intros Hne. cbn. rewrite lookup_insert_ne by done. apply lookup_singleton_eq. Qed.

(** Answer and let the lock go. *)
Lemma rok_leave b conn res lfd p : lfd ≠ connfd conn →
  rok b (do! respond conn res in uri_unlock (Some lfd)) (with_lock (connfd conn) lfd p) (λ _ g, g = at_conn (connfd conn)).
Proof.
  intros Hne. rbind. apply rok_respond; [by apply with_lock_conn|done|]. by apply rok_uri_unlock.
Qed.

(** The same with a file open. *)
Lemma rok_close_leave b cfd fd k lfd p : lfd ≠ cfd → r_fds (with_lock cfd lfd p) !! fd = None →
  rok b (do! perform (Close fd) in uri_unlock (Some lfd))
    (RG (<[fd := k]> (r_fds (with_lock cfd lfd p))) (Some (p, lfd)) false) (λ _ g, g = at_conn cfd).
Proof.
  intros Hne Hfd. assert (fd ≠ lfd) by (intros ->; cbn in Hfd; by rewrite lookup_insert_eq in Hfd).
  rbind. eapply rok_close; [cbn; by rewrite lookup_insert_eq|cbn; congruence|].
  cbn [r_fds r_held r_log]. rewrite close_own by done. by apply rok_uri_unlock.
Qed.

Lemma rok_handle_get b conn : rok b (handle_get dir conn) (at_conn (connfd conn)) (λ _ g, g = at_conn (connfd conn)).
Proof.
  unfold handle_get. set (cfd := connfd conn). assert (Hc : r_fds (at_conn cfd) !! cfd = Some KSock) by (cbn; apply lookup_singleton_eq).
  rbind. apply rok_uri_lock; [done..|by apply rok_respond|].
  intros lfd p Hl%fresh_for_conn. change (RG (<[lfd := KFile]> (r_fds (at_conn cfd))) (Some (p, lfd)) false) with (with_lock cfd lfd p).
  pose proof (with_lock_conn cfd lfd p Hl) as Hcl.
  rbind. apply (rok_open _ _ _ _ KFile); [by left|intros e; by apply rok_leave|]. intros fd Hfd.
  set (g := RG (<[fd := KFile]> (r_fds (with_lock cfd lfd p))) (r_held (with_lock cfd lfd p)) (r_log (with_lock cfd lfd p))).
  assert (Hcg : r_fds g !! cfd = Some KSock) by (cbn; rewrite lookup_insert_ne; [done|congruence]).
  assert (Hend : rok b (do! perform (Close fd) in uri_unlock (Some lfd)) g (λ _ g, g = at_conn cfd))
    by (by apply rok_close_leave).
  rbind. eapply rok_fstat; [cbn; by rewrite lookup_insert_eq|intros e|intros st Hst].
  - rbind. apply rok_respond; [done|done|exact Hend].
  - destruct (st_isdir st).
    + rbind. apply rok_respond; [done|done|exact Hend].
    + rbind. apply rok_send_file; [done|cbn; by rewrite lookup_insert_eq|done|]. intros r.
      rbind. apply rok_log_audit; [done|exact Hend].
Qed.

Lemma rok_handle_put b conn : conn_ok (connfd conn) conn → conn_accepted conn →
  rok b (handle_put dir conn) (at_conn (connfd conn)) (λ _ g, g = at_conn (connfd conn)).
Proof.
  intros Hok Hacc.
  unfold handle_put. set (cfd := connfd conn). assert (Hc : r_fds (at_conn cfd) !! cfd = Some KSock) by (cbn; apply lookup_singleton_eq).
  rbind. apply rok_uri_lock; [done..|by apply rok_respond|].
  intros lfd p Hl%fresh_for_conn. change (RG (<[lfd := KFile]> (r_fds (at_conn cfd))) (Some (p, lfd)) false) with (with_lock cfd lfd p).
  pose proof (with_lock_conn cfd lfd p Hl) as Hcl.
  rbind. apply rok_plain; [done|done|]. intros existed.
  rbind. apply (rok_open _ _ _ _ (KWrite 0)); [by right|intros e; by apply rok_leave|]. intros fd Hfd.
  change (RG (<[fd := KWrite 0]> (r_fds (with_lock cfd lfd p))) (r_held (with_lock cfd lfd p)) (r_log (with_lock cfd lfd p))) with (writing fd (with_lock cfd lfd p) 0).
  assert (Hend : ∀ z res, rok b (do! respond conn res in do! perform (Close fd) in uri_unlock (Some lfd))
    (writing fd (with_lock cfd lfd p) z) (λ _ g, g = at_conn cfd)).
  { intros z res. assert (fd ≠ cfd) by congruence. rbind. apply rok_respond; [cbn; by rewrite lookup_insert_ne|done|].
    by apply rok_close_leave. }
  rbind. apply rok_plain; [done|exists (KWrite 0); cbn; by rewrite lookup_insert_eq|]. intros [tr|e]; [|apply Hend].
  rbind. apply rok_recv_file; [done..|]. intros r z. apply Hend.
Qed.

Lemma rok_handle_connection b fd : rok b (handle_connection dir fd) (at_conn fd) (λ _ g, g = RG ∅ None false).
Proof.
  unfold handle_connection. assert (Hc : r_fds (at_conn fd) !! fd = Some KSock) by (cbn; apply lookup_singleton_eq).
  assert (Hclose : rok b (perform (Close fd)) (at_conn fd) (λ _ g, g = RG ∅ None false)).
  { eapply rok_close; [done..|]. cbn. by rewrite delete_singleton_eq. }
  rbind. unfold conn_new. rbind. apply rok_plain; [done|done|]. intros [|]; apply okt_ret; [|done].
  rbind. apply rok_conn_parse; [done|]. intros conn r Hok Hacc. pose proof (ok_fd _ _ Hok) as Hcfd.
  destruct r as [res|].
  - destruct (conn_is_empty conn); [done|]. rbind. apply rok_respond; [by rewrite Hcfd|done..].
  - rbind. apply (okt_conseq _ _ _ _ _ _ (λ _ g, g = at_conn fd)); [|intros [] g ->; exact Hclose].
    subst fd. destruct (conn_get_request conn); [apply rok_handle_get|by apply rok_handle_put; auto|].
    unfold handle_unsupported. by apply rok_respond.
Qed.
End handlers.

(** ** Runs *)

(** The connections [fds] are sockets, nothing is locked and the log is open. *)
Record servable (w0 : world) (fds : list nat) : Prop := {
  sb_fds : NoDup fds;
  sb_socks : ∀ fd, fd ∈ fds → ∃ c, w_fds w0 !! fd = Some (OSock c);
  sb_locks : w_flocks w0 = ∅;
  sb_log : w_log_mu w0 = false ∧ w_log_buf w0 = [] ∧ w_log_stream w0 ≠ SNull;
  sb_sizes : file_sizes w0
}.

(** The descriptors that are not connections. *)
Definition other_fds (w0 : world) (fds : list nat) : gmap nat ofd := filter (λ kv, kv.1 ∉ fds) (w_fds w0).

Lemma other_fds_lookup w0 fds fd o : other_fds w0 fds !! fd = Some o ↔ w_fds w0 !! fd = Some o ∧ fd ∉ fds.
Proof. apply map_lookup_filter_Some. Qed.

Section runs.
Context (w0 : world) (dir : bytes) (fds : list nat) (Hsb : servable w0 fds).
Local Abbreviation inv := (rinv (other_fds w0 fds)).

Definition conn_pool : pool sysE world bytes := Pool (map (handle_connection dir) fds) w0 [].

Lemma rinv_start : inv [] (at_conn <$> fds) w0.
Proof.
  destruct Hsb as [Hnd Hso Hlk (Hmu & _ & _) Hsz].
  assert (Hlook : ∀ i g, (at_conn <$> fds) !! i = Some g → ∃ fd, fds !! i = Some fd ∧ fd ∈ fds ∧ g = at_conn fd).
  { intros i g. rewrite list_lookup_fmap, fmap_Some. intros (fd & Hfd & ->). eauto using list_elem_of_lookup_2. }
  assert (Hone : ∀ fd fd' k, r_fds (at_conn fd) !! fd' = Some k → fd' = fd ∧ k = KSock).
  { intros fd fd' k Hk. cbn in Hk. by apply lookup_singleton_Some in Hk as [-> ->]. }
  split.
  - intros fd o [Ho Hno]%other_fds_lookup. split; [done|]. intros i g (fd' & _ & Hin & ->)%Hlook.
    cbn. apply lookup_singleton_ne. by intros ->.
  - intros fd [o Ho]. destruct (decide (fd ∈ fds)) as [Hin|Hno].
    + right. apply list_elem_of_lookup_1 in Hin as [i Hi]. exists i, (at_conn fd). rewrite list_lookup_fmap, Hi. cbn.
      by rewrite lookup_singleton_eq.
    + left. exists o. by apply other_fds_lookup.
  - intros i g fd k (fd' & _ & Hin & ->)%Hlook [-> ->]%Hone. destruct (Hso fd' Hin) as [c Hc]. by exists (OSock c).
  - intros i j g g' Hne (fd & Hi & _ & ->)%Hlook (fd' & Hj & _ & ->)%Hlook. cbn.
    apply map_disjoint_singleton_r, lookup_singleton_ne. intros ->. apply Hne. by eapply NoDup_lookup.
  - by intros i g p fd (fd' & _ & _ & ->)%Hlook.
  - intros p fd. unfold lock_has. by rewrite Hlk, lookup_empty.
  - intros p. by rewrite Hlk, lookup_empty.
  - done.
  - rewrite Hmu. apply total_zero. intros g [i (fd & _ & _ & ->)%Hlook]%list_elem_of_lookup_1. done.
Qed.

Definition gone (_ : unit) (g : rghost) : Prop := g = RG ∅ None false.

Lemma conn_annotated :
  annotated inv rwaits all_faults gone conn_pool (zip (pool_threads conn_pool) (at_conn <$> fds)).
Proof.
  assert (Hlen : length (pool_threads conn_pool) = length (at_conn <$> fds)) by (cbn; by rewrite length_map, length_fmap).
  unfold annotated. rewrite fst_zip, snd_zip by lia. split_and!; [done|apply rinv_start|].
  apply Forall_lookup. intros i [t g] Htg. apply lookup_zip_with_Some in Htg as (t' & g' & [= -> ->] & Ht & Hg). cbn in Ht.
  rewrite list_lookup_fmap in Ht. rewrite list_lookup_fmap in Hg. destruct (fds !! i) as [fd|]; [|done].
  injection Ht as <-. injection Hg as <-. apply rok_handle_connection.
Qed.

(** A thread that cannot move is done, or waits for the log or for a lock. *)
Lemma cannot_go t g tr gs w i : inv tr gs w → gs !! i = Some g → now rwaits t g gone → step_thread t w = None →
  r_log g = false ∧ ((thread_returned t = true ∧ g = RG ∅ None false) ∨ w_log_mu w = true ∨
    (r_held g = None ∧ w_flocks w ≠ ∅)).
Proof.
  intros HI Hi Hok Hst. unfold now in Hok. unfold step_thread in Hst. unfold thread_returned.
  destruct (observe t) as [[]|t'|X e k]; [|done|].
  { rewrite Hok. split; [done|by left]. }
  destruct Hok as [_ HA]. destruct (sys e w) as [[w' x]|] eqn:Hs; [done|]. destruct e; try done; cbn in Hs, HA.
  - unfold sys_flock in Hs. destruct HA as [->|[Hh Hl]]; [by repeat case_match|].
    split; [done|]. right. right. split; [done|]. intros Hfree.
    destruct (w_fds w !! fd) as [[p off|]|]; [|done..]. case_decide; [done|].
    destruct (pop_fault w) as [f w1] eqn:Hf. apply pop_fault_spec in Hf as (fl & -> & _).
    unfold take_lock in Hs. cbn [w_flocks set_faults] in Hs. rewrite Hfree, lookup_empty in Hs. by destruct f, op.
  - split; [done|]. destruct (w_log_mu w); [auto|done].
Qed.

(** When every thread that has begun cannot move, it is done. *)
Lemma blocked_gone w tr l : annotated inv rwaits all_faults gone (Pool l.*1 w tr) l →
  (∀ i t g, l !! i = Some (t, g) → step_thread t w = None ∨ (at_conn <$> fds) !! i = Some g) →
  w_flocks w = ∅ ∧ w_log_mu w = false ∧
  ∀ i t g, l !! i = Some (t, g) → step_thread t w = None → thread_returned t = true ∧ g = RG ∅ None false.
Proof.
  intros (_ & HI & Hall) Hor. cbn in HI, Hall.
  assert (Hg : ∀ i t g, l !! i = Some (t, g) → l.*2 !! i = Some g) by (intros i t g Hl; by rewrite list_lookup_fmap, Hl).
  assert (Hcase : ∀ i t g, l !! i = Some (t, g) → step_thread t w = None → _) by
    (intros i t g Hl; exact (cannot_go t g tr l.*2 w i HI (Hg _ _ _ Hl) (okt_now _ _ _ _ _ _ _ (Forall_lookup_1 _ _ _ _ Hall Hl)))).
  assert (Hstart : ∀ i g, (at_conn <$> fds) !! i = Some g → r_log g = false ∧ r_held g = None).
  { intros i g. rewrite list_lookup_fmap, fmap_Some. by intros (fd & _ & ->). }
  assert (Hthread : ∀ i g, l.*2 !! i = Some g → ∃ t, l !! i = Some (t, g)).
  { intros i g. rewrite list_lookup_fmap, fmap_Some. intros ([t g'] & Hl & ->). eauto. }
  assert (Hmu : w_log_mu w = false).
  { pose proof (ri_mu _ _ _ _ HI) as E. rewrite total_zero in E; [by destruct (w_log_mu w)|].
    intros g [i [t Hl]%Hthread]%list_elem_of_lookup_1.
    destruct (Hor i t g Hl) as [Hs|[-> _]%Hstart]; [|done]. by destruct (Hcase i t g Hl Hs) as [-> _]. }
  assert (Hfree : w_flocks w = ∅).
  { apply map_empty. intros p. destruct (w_flocks w !! p) as [st|] eqn:Hp; [|done]. exfalso.
    assert (∃ fd, lock_has w p fd) as [fd Hfd].
    { unfold lock_has. rewrite Hp. destruct st as [s|fd]; [|by exists fd].
      destruct (set_choose_or_empty s) as [|Hs]; [done|]. apply leibniz_equiv in Hs. subst s. by destruct (ri_shared _ _ _ _ HI p). }
    destruct (ri_owner _ _ _ _ HI p fd Hfd) as (i & g & [t Hl]%Hthread & Hh).
    destruct (Hor i t g Hl) as [Hs|[_ E]%Hstart]; [|congruence].
    destruct (Hcase i t g Hl Hs) as [_ [[_ ->]|[?|[? _]]]]; [done|congruence..]. }
  split_and!; [done..|]. intros i t g Hl Hs. destruct (Hcase i t g Hl Hs) as [_ [?|[?|[_ ?]]]]; [done|congruence|done].
Qed.

(** At the end every connection is closed and nothing else is. *)
Lemma conn_pool_stuck q : reachable conn_pool q → stuck q = true →
  Forall (λ t, thread_returned t = true) (pool_threads q) ∧ w_flocks (pool_world q) = ∅ ∧ w_log_mu (pool_world q) = false ∧
  w_fds (pool_world q) = other_fds w0 fds.
Proof.
  intros Hr Hst. destruct (pool_sound_t _ _ _ _ _ q _ Hr conn_annotated) as (l & Hl). pose proof Hl as (Hts & HI & _).
  destruct q as [ts w tr]. cbn in Hts. subst ts. destruct (blocked_gone w tr l Hl) as (H1 & H2 & H3).
  { intros i t g Hi. left. apply (stuck_thread _ i t Hst). cbn. by rewrite list_lookup_fmap, Hi. }
  assert (Hdone : ∀ i t g, l !! i = Some (t, g) → thread_returned t = true ∧ g = RG ∅ None false).
  { intros i t g Hi. apply (H3 i t g Hi). apply (stuck_thread _ i t Hst). cbn. by rewrite list_lookup_fmap, Hi. }
  cbn [pool_threads pool_world]. split_and!; [|done|done|].
  - apply Forall_lookup. intros i t. rewrite list_lookup_fmap, fmap_Some. intros ([t' g] & Hi & ->). by eapply Hdone.
  - cbn in HI. apply map_eq. intros fd. destruct (other_fds w0 fds !! fd) as [o|] eqn:Ho.
    + by apply (ri_base _ _ _ _ HI fd o Ho).
    + destruct (w_fds w !! fd) as [o|] eqn:Hfd; [exfalso|done].
      destruct (ri_all _ _ _ _ HI fd) as [[o' ?]|(i & g & Hg & [k Hk])]; [by rewrite Hfd|congruence|].
      rewrite list_lookup_fmap, fmap_Some in Hg. destruct Hg as ([t g'] & Hi & ->).
      destruct (Hdone i t g' Hi) as [_ ->]. cbn in Hk; by apply lookup_empty_Some in Hk.
Qed.

(** The descriptor a thread is about to make a call on. *)
Definition next_fd (t : itree sysE unit) : option nat :=
  match observe t with VisF e _ => call_fd e | _ => None end.

(** [own] gives each thread of [q] its descriptors. *)
Record owned_by (q : pool sysE world bytes) (own : list (gset nat)) : Prop := {
  ob_len : length own = length (pool_threads q);
  ob_open : ∀ fd, fd ∈ dom (w_fds (pool_world q)) ↔ fd ∈ dom (other_fds w0 fds) ∪ ⋃ own;
  ob_base : ∀ i s, own !! i = Some s → s ## dom (other_fds w0 fds);
  ob_apart : ∀ i j s s', i ≠ j → own !! i = Some s → own !! j = Some s' → s ## s';
  ob_calls : ∀ i t s fd, pool_threads q !! i = Some t → own !! i = Some s → next_fd t = Some fd → fd ∈ s;
  ob_done : ∀ i t s, pool_threads q !! i = Some t → own !! i = Some s → thread_returned t = true → s = ∅
}.

(** C5. No descriptor is stale or shared.  Connections handled at the same time,
    with clients that send anything, URIs that name one file in several ways and
    calls that fail in any way: at every point the open descriptors are those
    that were open before and one set per connection, all disjoint; the next call
    that a connection makes on a descriptor is on one of its own set, so it is
    open at that moment and no other connection is about to use it; and a
    connection that is done has none left.  So nothing is used after it was
    closed, closed twice or used by two, and it makes no difference which numbers
    the kernel hands out again. *)
Theorem descriptors_owned q : reachable conn_pool q → ∃ own, owned_by q own.
Proof.
  intros Hr. destruct (pool_sound_t _ _ _ _ _ q _ Hr conn_annotated) as (l & Hts & HI & Hall).
  exists ((λ tg, dom (r_fds tg.2)) <$> l).
  assert (Hlook : ∀ i s, ((λ tg, dom (r_fds tg.2)) <$> l) !! i = Some s →
    ∃ t g, l !! i = Some (t, g) ∧ l.*2 !! i = Some g ∧ s = dom (r_fds g)).
  { intros i s. rewrite list_lookup_fmap, fmap_Some. intros ([t g] & Hi & ->). exists t, g. by rewrite list_lookup_fmap, Hi. }
  assert (Hthread : ∀ i t t' g, pool_threads q !! i = Some t → l !! i = Some (t', g) → t' = t).
  { intros i t t' g. rewrite Hts, list_lookup_fmap. intros Ht Hl. rewrite Hl in Ht. by injection Ht. }
  assert (Hnow : ∀ i t g, l !! i = Some (t, g) → now rwaits t g gone).
  { intros i t g Hl. exact (okt_now _ _ _ _ _ _ _ (Forall_lookup_1 _ _ _ _ Hall Hl)). }
  split.
  - by rewrite Hts, !length_fmap.
  - intros fd. rewrite elem_of_union, elem_of_union_list, !elem_of_dom. split.
    + intros Hfd. destruct (ri_all _ _ _ _ HI fd Hfd) as [?|(i & g & Hg & Hk)]; [by left|right].
      rewrite list_lookup_fmap, fmap_Some in Hg. destruct Hg as ([t g'] & Hi & ->).
      exists (dom (r_fds g')). split; [|by apply elem_of_dom]. apply list_elem_of_fmap. exists (t, g'). split; [done|].
      by eapply list_elem_of_lookup_2.
    + intros [[o Ho]|(s & [i Hi]%list_elem_of_lookup_1 & Hs)].
      * destruct (ri_base _ _ _ _ HI fd o Ho) as [-> _]. done.
      * apply Hlook in Hi as (t & g & _ & Hg & ->). apply elem_of_dom in Hs as [k Hk].
        destruct (ri_own _ _ _ _ HI i g fd k Hg Hk) as (o & -> & _). done.
  - intros i s (t & g & _ & Hg & ->)%Hlook fd [k Hk]%elem_of_dom [o Ho]%elem_of_dom.
    destruct (ri_base _ _ _ _ HI fd o Ho) as [_ Hno]. by rewrite (Hno i g Hg) in Hk.
  - intros i j s s' Hne (t & g & _ & Hg & ->)%Hlook (t' & g' & _ & Hg' & ->)%Hlook.
    apply map_disjoint_dom. by eapply (ri_apart _ _ _ _ HI i j).
  - intros i t s fd Ht (t' & g & Hl & _ & ->)%Hlook Hnext. rewrite (Hthread _ _ _ _ Ht Hl) in Hl.
    specialize (Hnow i t g Hl). unfold now in Hnow. unfold next_fd in Hnext.
    destruct (observe t) as [| |X e k]; [done..|]. destruct Hnow as [Ho _]. unfold owns in Ho. rewrite Hnext in Ho.
    by apply elem_of_dom.
  - intros i t s Ht (t' & g & Hl & _ & ->)%Hlook Hret. rewrite (Hthread _ _ _ _ Ht Hl) in Hl.
    specialize (Hnow i t g Hl). unfold now in Hnow. unfold thread_returned in Hret.
    destruct (observe t); [|done..]. rewrite Hnow. apply dom_empty_L.
Qed.
End runs.

(** The two clients of [demo_two], at a point where both have files open. *)
Definition demo_mid : pool sysE world bytes :=
  schedule (concat (replicate 20 [0; 1]%nat)) (conn_pool demo_two demo_dir [5; 6]%nat).

Lemma demo_two_servable : servable demo_two [5; 6]%nat.
Proof.
  split; [apply (bool_decide_unpack _); vm_compute; exact I| |reflexivity|by vm_compute|exact demo_two_sizes].
  intros fd [->|[->|[]%elem_of_nil]%elem_of_cons]%elem_of_cons; eexists; reflexivity.
Qed.

Lemma descriptors_owned_witness : next_fd <$> pool_threads demo_mid = [Some 9; Some 8]%nat ∧
  ∃ own, owned_by demo_two [5; 6]%nat demo_mid own ∧ ∃ s, own !! 0%nat = Some s ∧ 9%nat ∈ s.
Proof.
  assert (Hn : next_fd <$> pool_threads demo_mid = [Some 9; Some 8]%nat) by (vm_compute; reflexivity).
  split; [exact Hn|].
  destruct (descriptors_owned demo_two demo_dir [5; 6]%nat demo_two_servable demo_mid) as [own Ho].
  - apply schedule_reachable.
  - exists own. split; [exact Ho|].
    destruct (pool_threads demo_mid) as [|t ts] eqn:Ht; [discriminate Hn|]. injection Hn as Hfd _.
    destruct own as [|s own'] eqn:E; [pose proof (ob_len _ _ _ _ Ho) as Hl; rewrite Ht in Hl; discriminate Hl|].
    exists s. split; [reflexivity|]. apply (ob_calls _ _ _ _ Ho 0%nat t s); [by rewrite Ht|reflexivity|exact Hfd].
Defined.
