(* ===== verification/FullServer.v ===== *)
(** * The whole server (src/threadpool.c, src/httpserver.c)

    main, its workers and the handlers they call as one program: every access
    to the queue and every system call of a handler is a step of one
    interleaving.  A run of it is at the same time a run of the pool of
    Threadpool.v, in which a handler is one event, and a run of the handlers as
    threads of their own ([sim]); so what is shown of the two holds of the whole.
    What the server needs to know of the handlers is the class [Served]. *)
From ITree Require Import Core.Subevent Indexed.Sum Interp.Interp.
From S2P Require Import Prelude Libc Regex Http Prog Pools PoolsTerm Posix Util Demo Connection Log Server Parsing.
From S2P Require Import Serve Startup AuditLog.
From S2P Require Import Queue QueueInv PoolTrace Threadpool PoolHist PoolRuns Paced PoolEnds.
Local Open Scope Z_scope.
Local Open Scope prog_scope.

(** ** The program *)

Abbreviation serverE := (poolE +' sysE).

(** The memory the threads share, and the rest of the process. *)
Record fullworld := FW { fw_pool : pworld; fw_files : world }.

#[export] Instance server_kernel : Kernel serverE fullworld := λ X e w,
  match e with
  | inl1 e =>
      match sys e (fw_pool w) with
      | Some (p, x) => Some (FW p (fw_files w), x)
      | None => None
      end
  | inr1 e =>
      match sys e (fw_files w) with
      | Some (f, x) => Some (FW (fw_pool w) f, x)
      | None => None
      end
  end.

#[export] Instance server_labelled : Labelled serverE (qlabel + bytes) := λ X e x,
  match e with
  | inl1 e => inl <$> lab e x
  | inr1 e => inr <$> lab e x
  end.

Definition handler_part {R} (t : itree sysE R) : itree serverE R := translate (λ X e, inr1 e) t.

(** The event [Handler] is the call; then the handler runs. *)
Definition on_call (dir : bytes) {X} (e : poolE X) : itree serverE X :=
  match e in poolE X return itree serverE X with
  | Handler fd =>
      do! perform (inl1 (Handler fd) : serverE unit) in
      handler_part (handle_connection dir (Z.to_nat fd))
  | e => perform (inl1 e : serverE _)
  end.

(** A thread of the pool with the calls of the handler in it. *)
Definition with_handler (dir : bytes) {R} : itree poolE R → itree serverE R :=
  ITree.iter (λ t : itree poolE R,
    match observe t with
    | RetF r => Ret (inr r)
    | TauF t => Ret (inl t)
    | VisF e k => let! x := on_call dir e in Ret (inl (k x))
    end).

(** main from the creation of the pool on, and the workers. *)
Definition server_process (n : Z) (dir : bytes) (pw : pworld) (w : world) : pool serverE fullworld (qlabel + bytes) :=
  Pool (with_handler dir <$> pool_threads (process (serve n) n pw)) (FW pw w) [].

(** ** What a thread does *)

Definition loop_back (dir : bytes) {R} (lr : itree poolE R + R) : itree serverE R :=
  match lr with inl t => Tau (with_handler dir t) | inr r => Ret r end.

(** It is in the handler, at [t], and goes on as [k] says. *)
Definition in_handler (dir : bytes) {R} (t : itree sysE unit) (k : unit → itree poolE R) : itree serverE R :=
  ITree.bind (ITree.bind (handler_part t) (λ x, Ret (inl (k x)))) (loop_back dir).

Lemma observe_with_handler dir {R} (t : itree poolE R) :
  observe (with_handler dir t) =
  match observe t with
  | RetF r => RetF r
  | TauF t' => TauF (with_handler dir t')
  | VisF e k => observe (ITree.bind (let! x := on_call dir e in Ret (inl (k x))) (loop_back dir))
  end.
Proof.
  unfold with_handler. rewrite observe_iter. rewrite observe_bind.
  destruct (observe t) as [r|t'|X e k]; [done..|]. by rewrite <- observe_bind.
Qed.

Lemma observe_in_handler dir {R} (t : itree sysE unit) (k : unit → itree poolE R) :
  observe (in_handler dir t k) =
  match observe t with
  | RetF r => TauF (with_handler dir (k r))
  | TauF t' => TauF (in_handler dir t' k)
  | VisF e h => VisF (inr1 e) (λ x, in_handler dir (h x) k)
  end.
Proof.
  unfold in_handler, handler_part. rewrite !observe_bind, observe_translate. by destruct (observe t).
Qed.

Definition is_call {X} (e : poolE X) : bool := match e with Handler _ => true | _ => false end.

Lemma on_call_other dir {X} (e : poolE X) : is_call e = false → on_call dir e = perform (inl1 e : serverE X).
Proof. by destruct e. Qed.

Lemma lab_other {X} (e : poolE X) x : is_call e = false → omap is_handle (lab e x) = [].
Proof. by destruct e. Qed.

Section steps.
Context (dir : bytes) (p : pworld) (f : world).
Implicit Types (c : itree serverE unit) (a : itree poolE unit) (t : itree sysE unit).

(** Outside the handler a thread is the pool's thread, *)
Definition outside c a : Prop :=
  observe c = observe (with_handler dir a) ∨ observe c = TauF (with_handler dir a).

Lemma step_outside c a c' w' : observe c = observe (with_handler dir a) → step_thread c (FW p f) = Some (c', w') →
  ∃ a' p', step_thread a p = Some (a', p') ∧ w' = FW p' f ∧ step_label c (FW p f) = inl <$> step_label a p ∧
    ((outside c' a' ∧ omap is_handle (step_label a p) = []) ∨
     (∃ fd k, step_label a p = [LHandle fd] ∧ a' = k tt ∧
        observe c' = observe (in_handler dir (handle_connection dir (Z.to_nat fd)) k))).
Proof.
  intros Hc. unfold step_thread, step_label. rewrite Hc, observe_with_handler.
  destruct (observe a) as [r|a'|X e k]; [done|..].
  - intros [= <- <-]. exists a', p. split_and!; try done. left. split; [by left|done].
  - destruct (is_call e) eqn:He.
    + destruct e; try done. rewrite observe_bind, observe_bind. cbn. intros [= <- <-].
      exists (k tt), p. split_and!; try done. right. exists fd, k. split_and!; try done.
    + rewrite (on_call_other dir e He), !observe_bind. cbn.
      destruct (sys e p) as [[p' x]|] eqn:Hs; [|done]. intros [= <- <-].
      exists (k x), p'. split_and!; try done. left. split; [|by apply lab_other].
      right. rewrite !observe_bind. done.
Qed.

Lemma outside_blocked c a : observe c = observe (with_handler dir a) → step_thread c (FW p f) = None →
  step_thread a p = None.
Proof.
  intros Hc. unfold step_thread. rewrite Hc, observe_with_handler.
  destruct (observe a) as [r|a'|X e k]; [done..|]. destruct (is_call e) eqn:He.
  - by destruct e.
  - rewrite (on_call_other dir e He), !observe_bind. cbn. by destruct (sys e p) as [[p' x]|].
Qed.

(** and inside it is the client's. *)
Lemma step_inside c t k c' w' : observe c = observe (in_handler dir t k) → step_thread c (FW p f) = Some (c', w') →
  (thread_returned t = true ∧ w' = FW p f ∧ step_label c (FW p f) = [] ∧ c' = with_handler dir (k tt)) ∨
  (∃ t' f', step_thread t f = Some (t', f') ∧ w' = FW p f' ∧ step_label c (FW p f) = inr <$> step_label t f ∧
     c' = in_handler dir t' k).
Proof.
  intros Hc. unfold step_thread, step_label, thread_returned. rewrite Hc, observe_in_handler.
  destruct (observe t) as [[]|t'|X e h].
  - intros [= <- <-]. by left.
  - intros [= <- <-]. right. by exists t', f.
  - cbn. destruct (sys e f) as [[f' x]|] eqn:Hs; [|done]. intros [= <- <-]. right. by exists (h x), f'.
Qed.

Lemma inside_blocked c t k : observe c = observe (in_handler dir t k) → step_thread c (FW p f) = None →
  step_thread t f = None ∧ thread_returned t = false.
Proof.
  intros Hc. unfold step_thread, thread_returned. rewrite Hc, observe_in_handler.
  destruct (observe t) as [[]|t'|X e h]; [done..|]. cbn. by destruct (sys e f) as [[f' x]|].
Qed.
End steps.

(** ** Traces *)

Definition pool_part (tr : list (nat * (qlabel + bytes))) : trace :=
  omap (λ '(j, l), match l with inl x => Some (j, x) | inr _ => None end) tr.
Definition line_part (tr : list (nat * (qlabel + bytes))) : list bytes :=
  omap (λ '(_, l), match l with inr x => Some x | inl _ => None end) tr.

Lemma parts_pool tr j ls : pool_part (tr ++ map (pair j) (inl <$> ls)) = pool_part tr ++ map (pair j) ls ∧
  line_part (tr ++ map (pair j) (inl <$> ls)) = line_part tr.
Proof.
  unfold pool_part, line_part. rewrite !omap_app. split.
  - f_equal. induction ls as [|x ls IH]; cbn; [done|]. by rewrite IH.
  - rewrite <- app_nil_r. f_equal. by induction ls.
Qed.

Lemma parts_files tr j ls : pool_part (tr ++ map (pair j) (inr <$> ls)) = pool_part tr ∧
  line_part (tr ++ map (pair j) (inr <$> ls)) = line_part tr ++ ls.
Proof.
  unfold pool_part, line_part. rewrite !omap_app. split.
  - rewrite <- app_nil_r. f_equal. by induction ls.
  - f_equal. induction ls as [|x ls IH]; cbn; [done|]. by rewrite IH.
Qed.

Arguments pool_part : simpl never.
Arguments line_part : simpl never.

(** ** What the handlers promise

    The handlers of the connections [fds], run as threads of their own from
    [w0], keep an invariant and end; and when those that have begun are all
    blocked, they have returned.  This is all the server needs to know of them. *)

Definition handlers_pool (w0 : world) (dir : bytes) (fds : list nat) : pool sysE world bytes :=
  Pool (map (handle_connection dir) fds) w0 [].

Class Served {G : Type} (Inv : log_trace → list G → world → Prop) (At : ∀ X, G → sysE X → Prop) (budget : world → nat)
    (Post : unit → G → Prop) (w0 : world) (dir : bytes) (fds : list nat) (starts : list G) : Prop := {
  sv_distinct : NoDup fds;
  sv_length : length starts = length fds;
  sv_start : annotated Inv At budget Post (handlers_pool w0 dir fds) (zip (pool_threads (handlers_pool w0 dir fds)) starts);
  sv_blocked : ∀ w tr l, annotated Inv At budget Post (Pool l.*1 w tr) l →
    (∀ i t g, l !! i = Some (t, g) → step_thread t w = None ∨ starts !! i = Some g) →
    ∀ i t g, l !! i = Some (t, g) → step_thread t w = None → thread_returned t = true
}.

(** ** Two views of a run *)

Section sim.
Context (n : Z) (dir : bytes) (fds : list nat) (pw0 : pworld) (w0 : world).
Context {G : Type} {Inv : log_trace → list G → world → Prop} {At : ∀ X, G → sysE X → Prop} {budget : world → nat}
  {Post : unit → G → Prop} {starts : list G} `{Hfall : !Falling sysE budget} `{Sv : !Served Inv At budget Post w0 dir fds starts}.

(** What thread [c] of the server is to the pool, [a], and to the clients: it
    handles none ([None]) or request [i]. *)
Definition runs (ts : list (itree sysE unit)) (c : itree serverE unit) (a : itree poolE unit) (d : option nat) : Prop :=
  match d with
  | None => outside dir c a
  | Some i => ∃ t k, ts !! i = Some t ∧ a = k tt ∧ observe c = observe (in_handler dir t k)
  end.

Record all_run ts (cs : list (itree serverE unit)) (as_ : list (itree poolE unit)) (ds : list (option nat)) : Prop := {
  ar_len : length as_ = length cs ∧ length ds = length cs;
  ar_each : ∀ j c a d, cs !! j = Some c → as_ !! j = Some a → ds !! j = Some d → runs ts c a d
}.

Lemma all_run_at ts cs as_ ds j c : all_run ts cs as_ ds → cs !! j = Some c →
  ∃ a d, as_ !! j = Some a ∧ ds !! j = Some d ∧ runs ts c a d.
Proof.
  intros [[H1 H2] H3] Hc. pose proof (lookup_lt_Some _ _ _ Hc) as Hlt.
  destruct (lookup_lt_is_Some_2 as_ j) as [a Ha]; [lia|]. destruct (lookup_lt_is_Some_2 ds j) as [d Hd]; [lia|].
  exists a, d. split_and!; [done..|by eapply H3].
Qed.

Lemma all_run_step ts ts' cs as_ ds j c' a' d' : all_run ts cs as_ ds → runs ts' c' a' d' →
  (∀ j' i, j' ≠ j → ds !! j' = Some (Some i) → ts' !! i = ts !! i) →
  all_run ts' (<[j := c']> cs) (<[j := a']> as_) (<[j := d']> ds).
Proof.
  intros [[H1 H2] H3] Hr Hts. split; [by rewrite !length_insert|]. intros j' c a d.
  destruct (decide (j' = j)) as [->|Hne].
  - destruct (decide (j < length cs)%nat).
    + rewrite !list_lookup_insert_eq by lia. by intros [= <-] [= <-] [= <-].
    + rewrite list_insert_ge by lia. intros ?%lookup_lt_Some. lia.
  - rewrite !list_lookup_insert_ne by done. intros Hc Ha Hd. specialize (H3 j' c a d Hc Ha Hd).
    destruct d as [i|]; [|done]. destruct H3 as (t & k & Ht & H3). exists t, k. by rewrite (Hts j' i).
Qed.

(** The handler was called for connection [r]. *)
Definition begun (ptr : trace) (r : nat) : Prop := Z.of_nat r ∈ handled ptr.

Record sim (q : pool serverE fullworld (qlabel + bytes)) (as_ : list (itree poolE unit)) (ptr : trace)
    (l : list (itree sysE unit * G)) (ltr : log_trace) (ds : list (option nat)) : Prop := {
  sm_pool : reachable (process (serve n) n pw0) (Pool as_ (fw_pool (pool_world q)) ptr);
  sm_clients : reachable (handlers_pool w0 dir fds) (Pool l.*1 (fw_files (pool_world q)) ltr);
  sm_ghosts : annotated Inv At budget Post
    (Pool l.*1 (fw_files (pool_world q)) ltr) l;
  sm_runs : all_run l.*1 (pool_threads q) as_ ds;
  sm_busy : ∀ j i, ds !! j = Some (Some i) → ∃ r, fds !! i = Some r ∧ begun ptr r;
  sm_alone : ∀ j j' i, ds !! j = Some (Some i) → ds !! j' = Some (Some i) → j = j';
  sm_begun : ∀ i r, fds !! i = Some r → ¬ begun ptr r →
    ∃ g, starts !! i = Some g ∧ l !! i = Some (handle_connection dir r, g);
  sm_done : ∀ i r t g, fds !! i = Some r → begun ptr r → l !! i = Some (t, g) →
    (∃ j, ds !! j = Some (Some i)) ∨ thread_returned t = true;
  sm_trace : pool_part (pool_trace q) = ptr ∧ line_part (pool_trace q) = ltr.*2
}.

(** listener_accept returns the clients' connections, in any order and with
    failures in between. *)
Definition conns : list Z := Z.of_nat <$> fds.
Context (Hn : 0 < n ≤ INT_MAX) (Hfresh : fresh_world pw0).
Context (Hmax : Forall (λ r, r ≤ INT_MAX) (pw_accepts pw0)).
Context (Hconns : filter (λ r, 0 ≤ r) (pw_accepts pw0) ≡ₚ conns).

Lemma conns_distinct : NoDup conns.
Proof.
  apply NoDup_fmap; [apply _|apply (sv_distinct (Served := Sv))].
Qed.

Lemma pool_handles p : reachable (process (serve n) n pw0) p →
  pw_ub (pool_world p) = false ∧ pw_aborted (pool_world p) = false ∧ handled (pool_trace p) ⊆+ conns ∧
  (stuck p = true → LErrx ∈ labels_of 0 (pool_trace p) ∨ handled (pool_trace p) ≡ₚ conns ∧ at_accept p).
Proof.
  intros Hr. pose proof (accepted_order _ _ Hr) as Ho. cbn [process pool_trace pool_world] in Ho.
  change (accepted []) with (@nil Z) in Ho. rewrite app_nil_l in Ho.
  destruct (serve_runs n pw0 p Hn Hfresh Hr) as (H1 & H2 & H3 & H4).
  { rewrite <- Ho in Hmax. by apply Forall_app in Hmax as [? _]. }
  split_and!; [done..| |].
  - etransitivity; [exact H3|]. rewrite <- Hconns, <- Ho, filter_app. apply submseteq_inserts_r. done.
  - intros [?|(H5 & H6 & H7)]%H4; [by left|right]. rewrite H5, <- Hconns, <- Ho, H6, app_nil_r. done.
Qed.

(** A handler is called for a request whose handler was not called before. *)
Lemma call_new as_ p ptr j fd : reachable (process (serve n) n pw0) (Pool as_ p (ptr ++ map (pair j) [LHandle fd])) →
  ∃ i r, fds !! i = Some r ∧ fd = Z.of_nat r ∧ ¬ begun ptr r.
Proof.
  intros Hr. destruct (pool_handles _ Hr) as (_ & _ & Hsub & _). cbn [pool_trace] in Hsub.
  unfold handled in Hsub. rewrite events_app, events_labels in Hsub. cbn in Hsub. fold (handled ptr) in Hsub.
  apply submseteq_Permutation in Hsub as (rest & Hp). pose proof conns_distinct as Hnd. rewrite Hp in Hnd.
  assert (Hin : fd ∈ conns) by (rewrite Hp; set_solver).
  unfold conns in Hin. apply list_elem_of_fmap in Hin as (r & -> & [i Hi]%list_elem_of_lookup_1).
  exists i, r. split_and!; [done..|]. unfold begun. rewrite <- app_assoc in Hnd.
  apply NoDup_app in Hnd as (_ & Hnd & _). intros Hb. apply (Hnd _ Hb). set_solver.
Qed.

Lemma begun_app ptr j ls r : begun (ptr ++ map (pair j) ls) r ↔ begun ptr r ∨ Z.of_nat r ∈ omap is_handle ls.
Proof. unfold begun, handled. by rewrite events_app, events_labels, elem_of_app. Qed.

(** The connection's descriptor tells the request. *)
Lemma same_conn i i' r r' : fds !! i = Some r → fds !! i' = Some r' → r = r' → i = i'.
Proof.
  intros Hi Hi' ->. eapply NoDup_lookup; [apply (sv_distinct (Served := Sv))|exact Hi|exact Hi'].
Qed.

Section step.
Context (cs : list (itree serverE unit)) (p : pworld) (f : world) (tr : list (nat * (qlabel + bytes))).
Context as_ ptr l ltr ds (Hsim : sim (Pool cs (FW p f) tr) as_ ptr l ltr ds).
Context (j : nat) (c : itree serverE unit) (Hc : cs !! j = Some c).

(** A step of the pool's code. *)
Lemma sim_pool a a' p' c' : as_ !! j = Some a → ds !! j = Some None → step_thread a p = Some (a', p') →
  outside dir c' a' → omap is_handle (step_label a p) = [] →
  sim (Pool (<[j := c']> cs) (FW p' f) (tr ++ map (pair j) (inl <$> step_label a p)))
    (<[j := a']> as_) (ptr ++ map (pair j) (step_label a p)) l ltr ds.
Proof.
  intros Ha Hd Hs Ho Hh. destruct Hsim as [S1 S2 S3 S4 S5 S6 S7 S8 [S9 S10]]. cbn in *.
  assert (Hb : ∀ r, begun (ptr ++ map (pair j) (step_label a p)) r ↔ begun ptr r).
  { intros r. rewrite begun_app, Hh. set_solver. }
  destruct (parts_pool tr j (step_label a p)) as [E1 E2]. split; cbn.
  - eapply rtc_r; [exact S1|]. by econstructor.
  - done.
  - done.
  - rewrite <- (list_insert_id ds j None) by done. by eapply all_run_step.
  - intros j' i Hi. destruct (S5 j' i Hi) as (r & Hr & Hbr). exists r. by rewrite Hb.
  - done.
  - intros i r Hi. rewrite Hb. by apply S7.
  - intros i r t g Hi. rewrite Hb. by apply S8.
  - by rewrite E1, E2, S9.
Qed.

(** The loop goes round. *)
Lemma sim_loop c' : ds !! j = Some None → (∀ a, as_ !! j = Some a → outside dir c' a) →
  sim (Pool (<[j := c']> cs) (FW p f) (tr ++ map (pair j) [])) as_ ptr l ltr ds.
Proof.
  intros Hd Ho. destruct Hsim as [S1 S2 S3 S4 S5 S6 S7 S8 S9]. cbn in *. rewrite app_nil_r. split; cbn; try done.
  destruct (all_run_at _ _ _ _ _ _ S4 Hc) as (a & d & Ha & _ & _).
  rewrite <- (list_insert_id ds j None), <- (list_insert_id as_ j a) by done. by eapply all_run_step; [|apply Ho|].
Qed.

(** A handler is called. *)
Lemma sim_call a p' c' fd k : as_ !! j = Some a → ds !! j = Some None → step_thread a p = Some (k tt, p') →
  step_label a p = [LHandle fd] →
  observe c' = observe (in_handler dir (handle_connection dir (Z.to_nat fd)) k) →
  ∃ ds', sim (Pool (<[j := c']> cs) (FW p' f) (tr ++ map (pair j) (inl <$> step_label a p)))
    (<[j := k tt]> as_) (ptr ++ map (pair j) (step_label a p)) l ltr ds'.
Proof.
  intros Ha Hd Hs Hl Hc'. destruct Hsim as [S1 S2 S3 S4 S5 S6 S7 S8 [S9 S10]]. cbn in *.
  assert (Hr : reachable (process (serve n) n pw0) (Pool (<[j := k tt]> as_) p' (ptr ++ map (pair j) (step_label a p)))).
  { eapply rtc_r; [exact S1|]. by econstructor. }
  rewrite Hl in Hr |- *. destruct (call_new _ _ _ _ _ Hr) as (i & r & Hi & -> & Hnew). rewrite Nat2Z.id in Hc'.
  assert (Hb : ∀ r', begun (ptr ++ map (pair j) [LHandle (Z.of_nat r)]) r' ↔ begun ptr r' ∨ r' = r).
  { intros r'. rewrite begun_app. cbn. rewrite list_elem_of_singleton. by rewrite Nat2Z.inj_iff. }
  assert (Hfree : ∀ j', ds !! j' ≠ Some (Some i)).
  { intros j' Hj'. destruct (S5 j' i Hj') as (r' & Hr' & Hbr). congruence. }
  destruct (S7 i r Hi Hnew) as (g0 & _ & Hli). pose proof (lookup_lt_Some _ _ _ Hd) as Hlt.
  destruct (parts_pool tr j [LHandle (Z.of_nat r)]) as [E1 E2]. cbn in E1, E2.
  exists (<[j := Some i]> ds). split; cbn.
  - done.
  - done.
  - done.
  - eapply all_run_step; [exact S4| |done]. exists (handle_connection dir r), k.
    by rewrite list_lookup_fmap, Hli.
  - intros j' i'. rewrite list_lookup_insert. case_decide; [|].
    + intros [= <-]. exists r. split; [done|]. apply Hb. by right.
    + intros Hj'. destruct (S5 j' i' Hj') as (r' & Hr' & Hbr). exists r'. split; [done|]. apply Hb. by left.
  - intros j1 j2 i'. rewrite !list_lookup_insert. repeat case_decide; intros H1 H2; simplify_eq; try done;
      try (by exfalso; eapply Hfree); try (by eapply S6). naive_solver.
  - intros i' r' Hi' Hnb. apply S7; [done|]. intros Hbr. apply Hnb, Hb. by left.
  - intros i' r' t g Hi' Hbr Hl'. destruct (decide (i' = i)) as [->|Hne].
    + left. exists j. by rewrite list_lookup_insert_eq.
    + apply Hb in Hbr as [Hbr|E]; [|by destruct Hne; eapply same_conn].
      destruct (S8 i' r' t g Hi' Hbr Hl') as [[j' Hj']|?]; [left|by right].
      exists j'. rewrite list_lookup_insert_ne; [done|]. congruence.
  - by rewrite E1, E2, S9.
Qed.

(** The handler returns. *)
Lemma sim_return i t k c' : ds !! j = Some (Some i) → as_ !! j = Some (k tt) → l.*1 !! i = Some t →
  thread_returned t = true → c' = with_handler dir (k tt) →
  sim (Pool (<[j := c']> cs) (FW p f) (tr ++ map (pair j) [])) as_ ptr l ltr (<[j := None]> ds).
Proof.
  intros Hd Ha Ht Hret ->. destruct Hsim as [S1 S2 S3 S4 S5 S6 S7 S8 S9]. cbn in *. rewrite app_nil_r.
  split; cbn; try done.
  - rewrite <- (list_insert_id as_ j (k tt)) by done. eapply all_run_step; [exact S4|by left|done].
  - intros j' i'. rewrite list_lookup_insert. case_decide; [naive_solver|apply S5].
  - intros j1 j2 i'. rewrite !list_lookup_insert. repeat case_decide; naive_solver.
  - intros i' r t' g Hi' Hb Hl. destruct (S8 i' r t' g Hi' Hb Hl) as [[j' Hj']|?]; [|by right].
    destruct (decide (j' = j)) as [->|Hne]; [right|left; exists j'; by rewrite list_lookup_insert_ne].
    rewrite Hd in Hj'. injection Hj' as ->. rewrite list_lookup_fmap, Hl in Ht. cbn in Ht. congruence.
Qed.

(** A step of the handler. *)
Lemma sim_handler i t k t' f' c' : ds !! j = Some (Some i) → as_ !! j = Some (k tt) → l.*1 !! i = Some t →
  step_thread t f = Some (t', f') → c' = in_handler dir t' k →
  ∃ g', sim (Pool (<[j := c']> cs) (FW p f') (tr ++ map (pair j) (inr <$> step_label t f)))
    as_ ptr (<[i := (t', g')]> l) (ltr ++ map (pair i) (step_label t f)) ds.
Proof.
  intros Hd Ha Ht Hs ->. destruct Hsim as [S1 S2 S3 S4 S5 S6 S7 S8 [S9 S10]]. cbn in *.
  destruct (annotated_step _ _ _ _ (λ _ _, True) i l.*1 t t' f f' ltr l S3 Ht Hs) as (g' & Hann & _).
  { intros g Hg. apply okt_step. destruct S3 as (_ & _ & Hall). by apply (Forall_lookup_1 _ _ _ _ Hall Hg). }
  assert (Hl1 : (<[i := (t', g')]> l).*1 = <[i := t']> l.*1) by (by rewrite list_fmap_insert).
  destruct (parts_files tr j (step_label t f)) as [E1 E2]. destruct (S5 j i Hd) as (r & Hi & Hbr).
  assert (Hlt : (i < length l.*1)%nat) by (by eapply lookup_lt_Some). pose proof Hlt as Hlt'. rewrite length_fmap in Hlt'.
  exists g'. split; cbn; rewrite ?Hl1.
  - done.
  - eapply rtc_r; [exact S2|]. by econstructor.
  - done.
  - rewrite <- (list_insert_id as_ j (k tt)), <- (list_insert_id ds j (Some i)) by done.
    eapply all_run_step; [exact S4| |].
    + exists t', k. by rewrite list_lookup_insert_eq.
    + intros j' i' Hne Hj'. rewrite list_lookup_insert_ne; [done|]. intros <-. by apply Hne, (S6 j' j i).
  - done.
  - done.
  - intros i' r' Hi' Hnb. rewrite list_lookup_insert_ne; [by apply S7|]. intros <-. congruence.
  - intros i' r' t1 g1 Hi' Hb. destruct (decide (i' = i)) as [->|Hne]; [left; by exists j|].
    rewrite list_lookup_insert_ne by done. by eapply S8.
  - rewrite E1, E2, S10, fmap_app. split; [done|]. f_equal. rewrite <- list_fmap_compose. cbn. by rewrite list_fmap_id.
Qed.
End step.

(** The threads whose count is 0 are outside the handler, and not at the end of
    a turn of their loop. *)
Definition counted (q : pool serverE fullworld (qlabel + bytes)) (as_ : list (itree poolE unit)) (ds : list (option nat))
    (ks : list nat) : Prop :=
  length ks = length (pool_threads q) ∧
  ∀ j c a, ks !! j = Some 0%nat → pool_threads q !! j = Some c → as_ !! j = Some a →
    ds !! j = Some None ∧ observe c = observe (with_handler dir a).

Lemma counted_any q as_ ds : counted q as_ ds (replicate (length (pool_threads q)) 1%nat).
Proof. split; [by rewrite length_replicate|]. by intros j c a [? _]%lookup_replicate. Qed.

(** Every step is a step of the pool, or of the clients, or counts. *)
Lemma sim_step q q' as_ ptr l ltr ds ks : sim q as_ ptr l ltr ds → counted q as_ ds ks → pool_step q q' →
  (∃ as' ptr' ds', sim q' as' ptr' l ltr ds' ∧ fw_files (pool_world q') = fw_files (pool_world q) ∧
     pool_step (Pool as_ (fw_pool (pool_world q)) ptr) (Pool as' (fw_pool (pool_world q')) ptr')) ∨
  (∃ l' ltr', sim q' as_ ptr l' ltr' ds ∧ fw_pool (pool_world q') = fw_pool (pool_world q) ∧
     pool_step (Pool l.*1 (fw_files (pool_world q)) ltr) (Pool l'.*1 (fw_files (pool_world q')) ltr')) ∨
  (∃ ds' j k, sim q' as_ ptr l ltr ds' ∧ pool_world q' = pool_world q ∧ ks !! j = Some (S k) ∧
     counted q' as_ ds' (<[j := 0%nat]> ks)).
Proof.
  intros Hsim [Hlen Hk] Hstep. inversion Hstep as [j cs c c' [p f] w' tr Hc Hs]; subst.
  destruct (all_run_at _ _ _ _ _ _ (sm_runs _ _ _ _ _ _ Hsim) Hc) as (a & d & Ha & Hd & Hr).
  cbn [pool_threads pool_world pool_trace fw_pool fw_files] in *.
  assert (Hpool : ds !! j = Some None → observe c = observe (with_handler dir a) →
    ∃ as' ptr' ds', sim (Pool (<[j:=c']> cs) w' (tr ++ map (pair j) (step_label c (FW p f)))) as' ptr' l ltr ds' ∧
      fw_files w' = f ∧ pool_step (Pool as_ p ptr) (Pool as' (fw_pool w') ptr')).
  { intros Hd' Ho. destruct (step_outside _ _ _ _ _ _ _ Ho Hs) as (a' & p' & Hst & -> & -> & [[Ho' Hh]|(fd & k & Hl & -> & Ho')]).
    - do 3 eexists. split; [by eapply sim_pool|]. split; [done|]. by econstructor.
    - edestruct (sim_call cs p f tr) as (ds' & H); eauto. do 3 eexists. split; [exact H|]. split; [done|]. by econstructor. }
  destruct (lookup_lt_is_Some_2 ks j) as [k Hkj]; [rewrite Hlen; by eapply lookup_lt_Some|].
  destruct k as [|k]; [destruct (Hk j c a Hkj Hc Ha); left; by apply Hpool|].
  assert (Hcount : ∀ c2, observe c2 = observe (with_handler dir a) →
    counted (Pool (<[j:=c2]> cs) (FW p f) (tr ++ map (pair j) [])) as_ (<[j := None]> ds) (<[j := 0%nat]> ks)).
  { intros c2 Ho2. split; cbn; [by rewrite !length_insert|]. intros j' c1 a1.
    destruct (decide (j' = j)) as [->|Hne].
    - intros _ Hc1 Ha1. rewrite list_lookup_insert_eq in Hc1 by (by eapply lookup_lt_Some).
      rewrite list_lookup_insert_eq by (by eapply lookup_lt_Some). injection Hc1 as <-. split; [done|]. congruence.
    - rewrite !list_lookup_insert_ne by done. apply Hk. }
  destruct d as [i|]; cbn in Hr.
  - destruct Hr as (t & k' & Ht & -> & Ho). right.
    destruct (step_inside _ _ _ _ _ _ _ _ Ho Hs) as [(Hret & -> & -> & ->)|(t' & f' & Hst & -> & -> & ->)]; [right|left].
    + exists (<[j := None]> ds), j, k. split_and!; [by eapply sim_return|done|done|by apply Hcount].
    + edestruct (sim_handler cs p f tr) as (g' & H); eauto. do 2 eexists. split; [exact H|]. split; [done|].
      rewrite list_fmap_insert. by econstructor.
  - destruct Hr as [Ho|Ho]; [left; by apply Hpool|right; right].
    assert (c' = with_handler dir a ∧ w' = FW p f ∧ step_label c (FW p f) = []) as (-> & -> & ->).
    { unfold step_thread, step_label in *. rewrite Ho in *. by injection Hs as <- <-. }
    exists (<[j := None]> ds), j, k. split_and!; [|done|done|by apply Hcount].
    rewrite (list_insert_id ds j None) by done. eapply sim_loop; [done..|]. intros a1 Ha1. left. congruence.
Qed.

Lemma sim_start : let l := zip (pool_threads (handlers_pool w0 dir fds)) starts in
  let as_ := pool_threads (process (serve n) n pw0) in
  sim (server_process n dir pw0 w0) as_ [] l [] (replicate (length as_) None).
Proof.
  intros l as_. pose proof (sv_start (Served := Sv)) as Hann. fold l in Hann. destruct (Hann) as (Hl & _).
  split; cbn [pool_threads pool_world pool_trace server_process fw_pool fw_files].
  - apply rtc_refl.
  - rewrite <- Hl. apply rtc_refl.
  - by rewrite <- Hl.
  - split; [by rewrite length_fmap, length_replicate|]. intros j c a d Hc Ha [-> _]%lookup_replicate.
    rewrite list_lookup_fmap in Hc. fold as_ in Hc. rewrite Ha in Hc. injection Hc as <-. by left.
  - by intros j i [[=] _]%lookup_replicate.
  - by intros j j' i [[=] _]%lookup_replicate.
  - intros i r Hi _. destruct (lookup_lt_is_Some_2 starts i) as [g0 Hg0].
    { rewrite (sv_length (Served := Sv)). by eapply lookup_lt_Some. }
    exists g0. split; [done|]. unfold l. apply lookup_zip_with_Some. do 2 eexists. split_and!; [done| |done].
    cbn. by rewrite list_lookup_fmap, Hi.
  - intros i r t g _ Hb. unfold begun, handled in Hb. cbn in Hb. by apply elem_of_nil in Hb.
  - done.
Qed.

Lemma sim_reach q : reachable (server_process n dir pw0 w0) q → ∃ as_ ptr l ltr ds, sim q as_ ptr l ltr ds.
Proof.
  intros Hr. unfold reachable in Hr. pose proof sim_start as H0. cbv zeta in H0.
  assert (Hq0 : ∃ as_ ptr l ltr ds, sim (server_process n dir pw0 w0) as_ ptr l ltr ds) by eauto 10. clear H0.
  induction Hr as [q|q q1 q2 Hs _ IH]; [done|].
  apply IH. destruct Hq0 as (as_ & ptr & l & ltr & ds & H).
  destruct (sim_step _ _ _ _ _ _ _ _ H (counted_any _ _ _) Hs)
    as [(as' & ptr' & ds' & H' & _)|[(l' & ltr' & H' & _)|(ds' & j & k & H' & _)]]; eauto 10.
Qed.

(** Every run ends: none of the three kinds of steps can be taken for ever. *)
Lemma sim_ends P : sn pool_step P → ∀ C, sn pool_step C → ∀ s q as_ ptr l ltr ds ks,
  P = Pool as_ (fw_pool (pool_world q)) ptr → C = Pool l.*1 (fw_files (pool_world q)) ltr → s = sum_list ks →
  sim q as_ ptr l ltr ds → counted q as_ ds ks → sn pool_step q.
Proof.
  induction 1 as [P _ IHP]. induction 1 as [C HC IHC]. intros s. induction (lt_wf s) as [s _ IHs].
  intros q as_ ptr l ltr ds ks -> -> -> Hsim Hk. constructor. intros q' Hs.
  destruct (sim_step _ _ _ _ _ _ _ _ Hsim Hk Hs)
    as [(as' & ptr' & ds' & H' & Hf & Hstep)|[(l' & ltr' & H' & Hp & Hstep)|(ds' & j & k & H' & Hw & Hj & Hk')]].
  - eapply IHP; [exact Hstep|exact (Acc_intro _ HC)|done|by rewrite Hf|done|done|apply counted_any].
  - eapply IHC; [exact Hstep|by rewrite Hp|done|done|done|apply counted_any].
  - eapply IHs; [|by rewrite Hw|by rewrite Hw|done|done|done]. pose proof (sum_insert ks j (S k) 0 Hj). lia.
Qed.

Lemma server_ends : sn pool_step (server_process n dir pw0 w0).
Proof.
  pose proof sim_start as H0. cbv zeta in H0. eapply sim_ends; [| |done|done|done|exact H0|apply counted_any].
  - by apply serve_ends.
  - eapply pool_terminates; [apply _|]. apply (sm_ghosts _ _ _ _ _ _ H0).
Qed.

(** ** When nothing moves *)

Section rest.
Context q as_ ptr l ltr ds (Hsim : sim q as_ ptr l ltr ds) (Hst : stuck q = true).

(** Every thread of the clients has its connection. *)
Lemma rest_conn i : (i < length l)%nat → ∃ r, fds !! i = Some r.
Proof.
  intros Hi. destruct (reachable_threads _ _ (sm_clients _ _ _ _ _ _ Hsim)) as [E _]. cbn in E.
  rewrite length_fmap, length_map in E. apply lookup_lt_is_Some_2. lia.
Qed.

Lemma rest_none_busy j i : ds !! j ≠ Some (Some i).
Proof.
  pose proof (λ j c, stuck_thread q j c Hst) as Hblk. pose proof rest_conn as Hrc.
  destruct Hsim as [S1 S2 S3 S4 S5 S6 S7 S8 S9]. destruct q as [cs [p f] tr]. cbn in *.
  assert (Hbusy : ∀ j i, ds !! j = Some (Some i) → ∃ t, l.*1 !! i = Some t ∧ step_thread t f = None ∧ thread_returned t = false).
  { intros j' i' Hj'. destruct (lookup_lt_is_Some_2 cs j') as [c Hc].
    { rewrite <- (proj2 (ar_len _ _ _ _ S4)). by eapply lookup_lt_Some. }
    destruct (all_run_at _ _ _ _ _ _ S4 Hc) as (a & d & _ & Hd & Hr). rewrite Hj' in Hd. injection Hd as <-.
    destruct Hr as (t & k & Ht & _ & Ho). exists t. split; [done|].
    eapply inside_blocked; [exact Ho|]. by eapply Hblk. }
  intros Hj. destruct (Hbusy j i Hj) as (t & Ht & Hs & Hret).
  rewrite list_lookup_fmap in Ht. destruct (l !! i) as [[t1 g1]|] eqn:Hl; [|done]. injection Ht as ->.
  enough (thread_returned t = true) by congruence. eapply (sv_blocked (Served := Sv)); [exact S3| |exact Hl|exact Hs].
  intros i' t' g' Hl'. destruct (Hrc i') as [r Hr]; [by apply lookup_lt_Some in Hl'|].
  destruct (decide (Z.of_nat r ∈ handled ptr)) as [Hb|Hnb].
  - left. destruct (S8 i' r t' g' Hr Hb Hl') as [[j' Hj']|Hret'].
    + destruct (Hbusy j' i' Hj') as (t2 & Ht2 & Hs2 & _). rewrite list_lookup_fmap, Hl' in Ht2. by injection Ht2 as <-.
    + unfold thread_returned in Hret'. unfold step_thread. by destruct (observe t').
  - right. destruct (S7 i' r Hr Hnb) as (g0 & Hg0 & Hl0). rewrite Hl' in Hl0. by injection Hl0 as _ ->.
Qed.

Lemma rest_pool_stuck : stuck (Pool as_ (fw_pool (pool_world q)) ptr) = true.
Proof.
  pose proof (λ j c, stuck_thread q j c Hst) as Hblk.
  pose proof rest_none_busy as Hno. destruct Hsim as [S1 S2 S3 S4 S5 S6 S7 S8 S9]. destruct q as [cs [p f] tr]. cbn in *.
  apply forallb_forall. intros a [j Ha]%list_elem_of_In%list_elem_of_lookup_1. cbn.
  destruct (lookup_lt_is_Some_2 cs j) as [c Hc].
  { rewrite <- (proj1 (ar_len _ _ _ _ S4)). by eapply lookup_lt_Some. }
  destruct (all_run_at _ _ _ _ _ _ S4 Hc) as (a' & [i|] & Ha' & Hd & Hr); [by apply Hno in Hd|].
  rewrite Ha in Ha'. injection Ha' as <-. pose proof (Hblk j c Hc) as Hs.
  destruct Hr as [Ho|Ho]; [by rewrite (outside_blocked _ _ _ _ _ Ho Hs)|].
  unfold step_thread in Hs. by rewrite Ho in Hs.
Qed.

Lemma rest_clients_stuck : handled ptr ≡ₚ conns → stuck (Pool l.*1 (fw_files (pool_world q)) ltr) = true.
Proof.
  intros Hall. pose proof rest_none_busy as Hno. pose proof rest_conn as Hrc. destruct Hsim as [S1 S2 S3 S4 S5 S6 S7 S8 S9].
  apply forallb_forall. intros t [i Ht]%list_elem_of_In%list_elem_of_lookup_1. cbn in Ht |- *.
  rewrite list_lookup_fmap in Ht. destruct (l !! i) as [[t1 g]|] eqn:Hl; [|done]. injection Ht as ->.
  destruct (Hrc i) as [r Hr]; [by apply lookup_lt_Some in Hl|].
  destruct (S8 i r t g Hr) as [[j Hj]|Hret]; [|done|by apply Hno in Hj|].
  - unfold begun. rewrite Hall. unfold conns. apply list_elem_of_fmap. exists r. split; [done|by eapply list_elem_of_lookup_2].
  - unfold thread_returned in Hret. unfold step_thread. by destruct (observe t).
Qed.
End rest.

(** main waits for a connection if the pool's does. *)
Definition waiting (q : pool serverE fullworld (qlabel + bytes)) : Prop :=
  ∃ c k, pool_threads q !! 0%nat = Some c ∧ observe c = VisF (inl1 Accept) k.

Lemma sim_waiting q as_ ptr l ltr ds : sim q as_ ptr l ltr ds → stuck q = true →
  at_accept (Pool as_ (fw_pool (pool_world q)) ptr) → waiting q.
Proof.
  intros Hsim Hst (a & k & Ha & Hk). pose proof (rest_none_busy _ _ _ _ _ _ Hsim Hst) as Hno.
  pose proof (sm_runs _ _ _ _ _ _ Hsim) as S4.
  destruct (lookup_lt_is_Some_2 (pool_threads q) 0) as [c Hc].
  { rewrite <- (proj1 (ar_len _ _ _ _ S4)). by eapply lookup_lt_Some. }
  destruct (all_run_at _ _ _ _ _ _ S4 Hc) as (a' & [i|] & Ha' & Hd & Hr); [by apply Hno in Hd|].
  cbn in Ha. rewrite Ha in Ha'. injection Ha' as <-. pose proof (stuck_thread q 0 c Hst Hc) as Hs.
  destruct Hr as [Ho|Ho]; [|unfold step_thread in Hs; by rewrite Ho in Hs].
  exists c. rewrite observe_with_handler, Hk in Ho. rewrite (on_call_other dir Accept eq_refl), !observe_bind in Ho. cbn in Ho.
  eexists. split; [done|exact Ho].
Qed.

(** ** The whole run *)

(** A run of the server is a run of the handlers, and it ends when they do. *)
Lemma served_runs q : reachable (server_process n dir pw0 w0) q →
  let w := pool_world q in let calls := pool_part (pool_trace q) in
  pw_ub (fw_pool w) = false ∧ pw_aborted (fw_pool w) = false ∧ handled calls ⊆+ conns ∧
  ∃ hp, reachable (handlers_pool w0 dir fds) hp ∧ pool_world hp = fw_files w ∧
    (pool_trace hp).*2 = line_part (pool_trace q) ∧
    (stuck q = true → LErrx ∈ labels_of 0 calls ∨ (handled calls ≡ₚ conns ∧ stuck hp = true ∧ waiting q)).
Proof.
  intros Hr w calls. destruct (sim_reach q Hr) as (as_ & ptr & l & ltr & ds & Hsim).
  destruct (sm_trace _ _ _ _ _ _ Hsim) as [Hptr Hltr]. unfold calls. rewrite Hptr.
  destruct (pool_handles _ (sm_pool _ _ _ _ _ _ Hsim)) as (H1 & H2 & H3 & H4).
  split_and!; [done..|]. exists (Pool l.*1 (fw_files w) ltr). split_and!; [by eapply sm_clients|done|done|].
  intros Hst. destruct H4 as [?|[H4 H5]]; [by eapply rest_pool_stuck|by left|right].
  split_and!; [done|by eapply rest_clients_stuck|by eapply sim_waiting].
Qed.

(** From every state the run can be continued to its end. *)
Lemma served_finishes q : reachable (server_process n dir pw0 w0) q →
  ∃ q', reachable q q' ∧ stuck q' = true ∧ reachable (server_process n dir pw0 w0) q'.
Proof.
  intros Hr. destruct (sn_finishes q) as (q' & Hr' & Hst); [eapply sn_reachable; [apply server_ends|done]|].
  exists q'. split_and!; [done..|]. unfold reachable in *. by etrans.
Qed.
End sim.

