(* ===== verification/FullRuns.v ===== *)
(** * The whole server: the theorems (src/threadpool.c, src/httpserver.c)

    FullServer.v with the two accounts of the handlers: LinearRuns.v (clients
    with well-formed requests and no failing calls) and RobustRuns.v (any clients,
    any URIs, any failures). *)
From S2P Require Import Prelude Libc Regex Http Prog Pools PoolsTerm Posix Util Demo Connection Log Server Parsing.
From S2P Require Import Transfer Locks Handlers Serve Startup AuditLog Shared SharedRules Linear LinearRuns Robust RobustRuns.
From S2P Require Import Queue QueueInv PoolTrace Threadpool PoolHist PoolRuns Paced PoolEnds FullServer.
Local Open Scope Z_scope.
Local Open Scope prog_scope.

(** ** Clients with well-formed requests *)

Lemma clients_Served w0 dir reqs : clients_ok w0 dir reqs →
  Served (cinv w0 reqs) cwaits fault_budget (λ _ g', served_out g') w0 dir (rq_fd <$> reqs) (starts w0 reqs).
Proof.
  intros Hcs. split.
  - apply (cs_fds _ _ _ Hcs).
  - unfold starts. by rewrite length_imap, length_fmap.
  - by apply clients_annotated.
  - intros w tr l (_ & HI & Hall) Hor i t g Hl Hs. cbn [pool_threads pool_world pool_trace] in *.
    destruct (blocked_all_served w0 reqs (Pool l.*1 w tr) l.*2) as [_ Hdone]; cbn [pool_threads pool_world pool_trace]; [|done|..].
    + intros i' t' g' Ht' Hg'. rewrite list_lookup_fmap in Ht'. rewrite list_lookup_fmap in Hg'. destruct (l !! i') as [[t1 g1]|] eqn:Hl'; [|done].
      cbn in Ht', Hg'. simplify_eq. destruct (Hor i' t' g' Hl') as [?|Hst]; [by left|right].
      by apply (starts_lookup w0 dir reqs Hcs) in Hst as (r & _ & _ & -> & _).
    + apply Forall2_fmap, Forall_Forall2_diag. eapply Forall_impl; [exact Hall|]. intros [t' g']. apply okt_now.
    + cbn in Hdone. apply (Hdone i t g); [by rewrite list_lookup_fmap, Hl|by rewrite list_lookup_fmap, Hl|done].
Qed.

Lemma server_runs n dir reqs pw w0 q :
  0 < n ≤ INT_MAX → fresh_world pw → clients_ok w0 dir reqs →
  Forall (λ r, r ≤ INT_MAX) (pw_accepts pw) → filter (λ r, 0 ≤ r) (pw_accepts pw) ≡ₚ conns (rq_fd <$> reqs) →
  reachable (server_process n dir pw w0) q →
  let w := pool_world q in let calls := pool_part (pool_trace q) in
  pw_ub (fw_pool w) = false ∧ pw_aborted (fw_pool w) = false ∧ handled calls ⊆+ conns (rq_fd <$> reqs) ∧
  ∃ hist, hist.*2 = line_part (pool_trace q) ∧ linear_history w0 reqs (fw_files w) hist ∧
    (stuck q = true → LErrx ∈ labels_of 0 calls ∨
       handled calls ≡ₚ conns (rq_fd <$> reqs) ∧ whole_history w0 reqs (fw_files w) hist).
Proof.
  intros Hn Hw Hcs Hmax Hconns Hr w calls. pose proof (clients_Served w0 dir reqs Hcs) as Sv.
  destruct (served_runs n dir (rq_fd <$> reqs) pw w0 Hn Hw Hmax Hconns q Hr) as (H1 & H2 & H3 & hp & Hhp & Hw' & Htr & Hst).
  split_and!; [done..|]. exists (pool_trace hp). unfold w. rewrite <- Hw'. split_and!; [done|by apply (clients_linear w0 dir reqs Hcs)|].
  intros [?|(? & Hs & _)]%Hst; [by left|right]. split; [done|]. by apply (clients_served w0 dir reqs Hcs).
Qed.

(** C1. The server as a whole, with clients that keep to the rules of
    [clients_ok]: every request is well-formed with a head that fits the buffer
    and, for a PUT, a body of the declared length in which no text reads like a
    header field (such text is taken for one, C36); the URIs resolve, and no two
    of them name one file (other spellings of a file have other locks, C38) or a
    lockfile; the lockfiles can be opened or made; and no call on the files, the
    sockets or the log fails (transfers may be cut short).  main with [n] workers
    serves these clients, whose connections listener_accept returns in any order
    and with failed accepts in between.  In every interleaving of the threads'
    accesses to the queue and of the handlers' system calls: nothing undefined
    is accessed and nothing aborts; handlers are called for accepted
    connections, once each; the lines of the audit log so far are, in their
    order, the history of a server that executes one request at a time, with
    the answers the clients were sent and the files that nobody has locked for
    writing; and whenever no thread can move, main has exited with an error
    (there is no pool or no socket), or every client has been answered and
    logged exactly once, the log file and the tree are those of that history
    and no URI is locked. *)
Theorem server_linearizes n dir reqs pw w0 q :
  0 < n ≤ INT_MAX → fresh_world pw → clients_ok w0 dir reqs →
  Forall (λ r, r ≤ INT_MAX) (pw_accepts pw) → filter (λ r, 0 ≤ r) (pw_accepts pw) ≡ₚ conns (rq_fd <$> reqs) →
  reachable (server_process n dir pw w0) q →
  let w := pool_world q in let calls := pool_part (pool_trace q) in
  pw_ub (fw_pool w) = false ∧ pw_aborted (fw_pool w) = false ∧ handled calls ⊆+ conns (rq_fd <$> reqs) ∧
  ∃ hist, hist.*2 = line_part (pool_trace q) ∧ linear_history w0 reqs (fw_files w) hist ∧
    (stuck q = true → LErrx ∈ labels_of 0 calls ∨
       handled calls ≡ₚ conns (rq_fd <$> reqs) ∧ whole_history w0 reqs (fw_files w) hist).
Proof. apply server_runs. Qed.

(** C2. The server serves every client that keeps to the rules.  Under the
    conditions of [clients_ok] (well-formed requests, heads that fit the buffer,
    declared bodies without text that reads like a header field, URIs that
    resolve, no two spellings of one file, usable lockfiles, no failing call) no
    interleaving of main, its workers and the handlers goes on for ever; and
    from every state that is reached the run can be continued to one in which
    nothing moves (and however it is continued it gets to one), where main has
    exited with an error or the handler was called for every connection and the
    log is the whole history: every client answered and logged exactly once, in
    the order of a sequential execution that leaves the same files. *)
Theorem server_serves_all n dir reqs pw w0 :
  0 < n ≤ INT_MAX → fresh_world pw → clients_ok w0 dir reqs →
  Forall (λ r, r ≤ INT_MAX) (pw_accepts pw) → filter (λ r, 0 ≤ r) (pw_accepts pw) ≡ₚ conns (rq_fd <$> reqs) →
  sn pool_step (server_process n dir pw w0) ∧
  ∀ q, reachable (server_process n dir pw w0) q → ∃ q', reachable q q' ∧ stuck q' = true ∧
    let w := pool_world q' in let calls := pool_part (pool_trace q') in
    (LErrx ∈ labels_of 0 calls ∨
     handled calls ≡ₚ conns (rq_fd <$> reqs) ∧ ∃ hist, hist.*2 = line_part (pool_trace q') ∧
       linear_history w0 reqs (fw_files w) hist ∧ whole_history w0 reqs (fw_files w) hist).
Proof.
  intros Hn Hw Hcs Hmax Hconns. pose proof (clients_Served w0 dir reqs Hcs) as Sv.
  split; [by apply (server_ends n dir (rq_fd <$> reqs) pw w0)|]. intros q Hr.
  destruct (served_finishes n dir (rq_fd <$> reqs) pw w0 Hn Hw Hmax Hconns q Hr) as (q' & Hr' & Hst & Hq').
  exists q'. split_and!; [done..|].
  destruct (server_runs n dir reqs pw w0 q') as (_ & _ & _ & hist & Hh & Hlin & Hend); try done.
  destruct (Hend Hst) as [?|[? ?]]; [by left|right]. split; [done|]. by exists hist.
Qed.

(** Two workers and the clients of LinearRuns.v; an accept fails in between. *)
Definition demo_server : pool serverE fullworld (qlabel + bytes) :=
  schedule (concat (replicate 250 [0; 1; 2]%nat))
    (server_process 2 demo_dir (demo_pool_world [6; -1; 5]) demo_two).

Lemma server_linearizes_witness : stuck demo_server = true ∧
  line_part (pool_trace demo_server) = [B "GET,new.txt,404,0" ++ [LF]; B "PUT,new.txt,201,10" ++ [LF]] ∧
  ∃ hist, hist.*2 = line_part (pool_trace demo_server) ∧
    whole_history demo_two demo_reqs (fw_files (pool_world demo_server)) hist.
Proof.
  assert (Hst : stuck demo_server = true) by (vm_compute; reflexivity).
  split; [exact Hst|]. split; [vm_compute; reflexivity|].
  destruct (server_linearizes 2 demo_dir demo_reqs (demo_pool_world [6; -1; 5]) demo_two demo_server)
    as (_ & _ & _ & hist & Hh & _ & Hend).
  - unfold INT_MAX; lia.
  - by repeat split.
  - exact LinearRuns.demo_clients.
  - repeat constructor; unfold INT_MAX; cbn; lia.
  - apply Permutation_swap.
  - apply schedule_reachable.
  - exists hist. split; [exact Hh|]. destruct (Hend Hst) as [Herr|[_ H]]; [exfalso|exact H].
    apply list_elem_of_In in Herr. vm_compute in Herr. intuition discriminate.
Defined.

Lemma server_serves_all_witness : clients_ok demo_two demo_dir demo_reqs ∧
  sn pool_step (server_process 2 demo_dir (demo_pool_world [6; -1; 5]) demo_two).
Proof.
  split; [exact LinearRuns.demo_clients|].
  apply (server_serves_all 2 demo_dir demo_reqs (demo_pool_world [6; -1; 5]) demo_two).
  - unfold INT_MAX; lia.
  - by repeat split.
  - exact LinearRuns.demo_clients.
  - repeat constructor; unfold INT_MAX; cbn; lia.
  - apply Permutation_swap.
Defined.

(** ** Any clients *)

Lemma conn_Served w0 dir fds : servable w0 fds →
  Served (rinv (other_fds w0 fds)) rwaits all_faults gone w0 dir fds (at_conn <$> fds).
Proof.
  intros Hsb. split; [apply Hsb|by rewrite length_fmap|by apply conn_annotated|].
  intros w tr l Hl Hor i t g Hi Hs. destruct (blocked_gone w0 fds w tr l Hl Hor) as (_ & _ & H). by eapply H.
Qed.

(** The indices of the lines in the log are those of connections. *)
Lemma lines_le dir fds w0 hp : reachable (handlers_pool w0 dir fds) hp → NoDup ((pool_trace hp).*1) →
  (length (pool_trace hp) ≤ length fds)%nat.
Proof.
  intros Hr Hnd. destruct (reachable_threads _ _ Hr) as [E Hin]. cbn in E. rewrite length_map in E.
  rewrite <- (length_fmap fst (pool_trace hp)), <- (length_seq (length fds) 0). apply submseteq_length, NoDup_submseteq; [done|].
  intros i [[j x] [-> Hx]]%list_elem_of_fmap. apply elem_of_seq. rewrite <- E. split; [lia|].
  eapply (Hin (λ _ _ H, match not_elem_of_nil _ H with end)); exact Hx.
Qed.

(** When all is done every line is in the file. *)
Lemma stuck_written dir fds w0 hp tr1 tr2 : servable w0 fds → reachable (handlers_pool w0 dir fds) hp → stuck hp = true →
  pool_trace hp = tr1 ++ tr2 →
  (∀ i t, pool_threads hp !! i = Some t → thread_returned t = true → i ∉ tr2.*1) → tr2 = [].
Proof.
  intros Hsb Hr Hst Htr Hno. destruct (conn_pool_stuck w0 dir fds Hsb hp Hr Hst) as (Hret & _).
  destruct tr2 as [|[i x] tr2]; [done|exfalso].
  destruct (reachable_threads _ _ Hr) as [_ Hin]. assert (Hi : (i < length (pool_threads hp))%nat).
  { eapply (Hin (λ _ _ H, match not_elem_of_nil _ H with end)). rewrite Htr. apply elem_of_app. right. left. }
  apply lookup_lt_is_Some_2 in Hi as [t Ht]. apply (Hno i t Ht); [|cbn; left]. by apply (Forall_lookup_1 _ _ _ _ Hret Ht).
Qed.

(** What is true of the server whatever its clients do, in a world [w] after the
    events [tr]; [ended] says that nothing moves any more. *)
Definition sound_in (w0 : world) (fds : list nat) (w : fullworld) (tr : list (nat * (qlabel + bytes))) (ended : Prop) : Prop :=
  let calls := pool_part tr in let lines := line_part tr in
  pw_ub (fw_pool w) = false ∧ pw_aborted (fw_pool w) = false ∧ handled calls ⊆+ conns fds ∧
  ∃ written unwritten, lines = written ++ unwritten ∧ file_holds w0 (w_log_out (fw_files w)) written ∧
    (length unwritten ≤ 1)%nat ∧ Forall is_audit_line lines ∧ (length lines ≤ length fds)%nat ∧
    (ended → LErrx ∈ labels_of 0 calls ∨
       handled calls ≡ₚ conns fds ∧ unwritten = [] ∧ w_flocks (fw_files w) = ∅ ∧ w_log_mu (fw_files w) = false ∧
       w_fds (fw_files w) = other_fds w0 fds).

Definition sound_state (w0 : world) (fds : list nat) (q : pool serverE fullworld (qlabel + bytes)) : Prop :=
  sound_in w0 fds (pool_world q) (pool_trace q) (stuck q = true).

Lemma server_sound n dir fds pw w0 q :
  0 < n ≤ INT_MAX → fresh_world pw → servable w0 fds →
  Forall (λ r, r ≤ INT_MAX) (pw_accepts pw) → filter (λ r, 0 ≤ r) (pw_accepts pw) ≡ₚ conns fds →
  reachable (server_process n dir pw w0) q → sound_state w0 fds q.
Proof.
  intros Hn Hw Hsb Hmax Hconns Hr. pose proof (conn_Served w0 dir fds Hsb) as Sv. unfold sound_state, sound_in. cbv zeta.
  destruct (served_runs n dir fds pw w0 Hn Hw Hmax Hconns q Hr) as (H1 & H2 & H3 & hp & Hhp & Hw' & Htr & Hst).
  destruct (sb_log _ _ Hsb) as (_ & Hbuf & Hstream).
  destruct (audit_lines_whole dir fds w0 hp Hstream Hbuf Hhp) as (tr1 & tr2 & E & Hout & Hlen & Hnd & Hlines & Hno).
  split_and!; [done..|]. exists tr1.*2, tr2.*2. rewrite <- Hw', <- Htr, E, fmap_app. rewrite E, fmap_app in Hlines.
  split_and!; [done|done|by rewrite length_fmap|done| |].
  - rewrite <- fmap_app, length_fmap, <- E. by eapply lines_le.
  - intros [?|(Hall & Hs & _)]%Hst; [by left|right]. destruct (conn_pool_stuck w0 dir fds Hsb hp Hhp Hs) as (_ & K1 & K2 & K3).
    rewrite (stuck_written dir fds w0 hp tr1 tr2 Hsb Hhp Hs E Hno). done.
Qed.

(** When nothing moves, main waits for the next client. *)
Lemma server_waits n dir fds pw w0 q :
  0 < n ≤ INT_MAX → fresh_world pw → servable w0 fds →
  Forall (λ r, r ≤ INT_MAX) (pw_accepts pw) → filter (λ r, 0 ≤ r) (pw_accepts pw) ≡ₚ conns fds →
  reachable (server_process n dir pw w0) q → stuck q = true →
  LErrx ∈ labels_of 0 (pool_part (pool_trace q)) ∨ waiting q.
Proof.
  intros Hn Hw Hsb Hmax Hconns Hr Hst. pose proof (conn_Served w0 dir fds Hsb) as Sv.
  destruct (served_runs n dir fds pw w0 Hn Hw Hmax Hconns q Hr) as (_ & _ & _ & hp & _ & _ & _ & Hend).
  destruct (Hend Hst) as [?|(_ & _ & ?)]; auto.
Qed.

(** Every run ends, in a sound state as all along. *)
Lemma server_runs_sound n dir fds pw w0 :
  0 < n ≤ INT_MAX → fresh_world pw → servable w0 fds →
  Forall (λ r, r ≤ INT_MAX) (pw_accepts pw) → filter (λ r, 0 ≤ r) (pw_accepts pw) ≡ₚ conns fds →
  sn pool_step (server_process n dir pw w0) ∧
  ∀ q, reachable (server_process n dir pw w0) q →
    sound_state w0 fds q ∧ ∃ q', reachable q q' ∧ stuck q' = true ∧ sound_state w0 fds q'.
Proof.
  intros Hn Hw Hsb Hmax Hconns. pose proof (conn_Served w0 dir fds Hsb) as Sv.
  split; [by apply (server_ends n dir fds pw w0)|]. intros q Hr. split; [by eapply server_sound|].
  destruct (served_finishes n dir fds pw w0 Hn Hw Hmax Hconns q Hr) as (q' & Hr' & Hst & Hq').
  exists q'. split_and!; [done..|by eapply server_sound].
Qed.

(** C3. The server survives any clients.  The connections that listener_accept
    returns are sockets; nothing is assumed of the bytes the clients send, of
    how their URIs name files (aliases, lockfiles, directories), or of which
    calls on files, sockets and the audit stream fail or are interrupted or cut
    short.  Then no interleaving of main, its workers and the handlers goes on
    for ever; in every state that is reached nothing undefined is accessed and
    nothing has aborted, handlers were called for accepted connections, once
    each, and the audit file is its old contents and lines in their order, at
    most one for a connection, with at most one line still to be written: whole
    lines if no call on the stream fails, and otherwise a first part of each; and
    whenever no thread can move, main has exited with an error, or every
    connection was handled and closed, every line was written, no URI is locked,
    the mutex of the log is free, and the open descriptors are those that were
    open before the clients came. *)
Theorem server_survives n dir fds pw w0 :
  0 < n ≤ INT_MAX → fresh_world pw → servable w0 fds →
  Forall (λ r, r ≤ INT_MAX) (pw_accepts pw) → filter (λ r, 0 ≤ r) (pw_accepts pw) ≡ₚ conns fds →
  sn pool_step (server_process n dir pw w0) ∧
  ∀ q, reachable (server_process n dir pw w0) q →
    sound_state w0 fds q ∧ ∃ q', reachable q q' ∧ stuck q' = true ∧ sound_state w0 fds q'.
Proof. exact (server_runs_sound n dir fds pw w0). Qed.

(** A PUT to another spelling of a file that goes silent before the declared
    end of its body, with a call that is interrupted; a client that sends no
    request; and a disk that is full when the second line is flushed. *)
Definition demo_wild : world :=
  let put := request_head (B "PUT") (B "../srv/./a.txt") [(B "Content-Length", B "900")] ++ B "abc" in
  let w := demo_world put [FErr EINTR; FShort 4] (replicate 7 FNone ++ [FErr EINTR]) in
  set_fds (<[6%nat := OSock 1]> (w_fds w))
    (set_socks (<[1%nat := Sock (B "hello") false [] [FShort 1; FErr ECONNRESET]]> (w_socks w))
       (set_log_faults [FNone; FNone; FNone; FShort 3] w)).

Definition demo_storm : pool serverE fullworld (qlabel + bytes) :=
  schedule (concat (replicate 300 [0; 1; 2]%nat))
    (server_process 2 demo_dir (demo_pool_world [6; -1; 5]) demo_wild).

Lemma demo_servable : servable demo_wild [5; 6]%nat.
Proof.
  split; [apply (bool_decide_unpack _); vm_compute; exact I| |reflexivity|by vm_compute|].
  - intros fd [->|[->|[]%elem_of_nil]%elem_of_cons]%elem_of_cons; eexists; reflexivity.
  - intros p d m Hp. apply demo_sizes in Hp. unfold ULLONG_MAX. lia.
Qed.

Lemma sound_end w0 fds w tr ended : sound_in w0 fds w tr ended → ended →
  LErrx ∈ labels_of 0 (pool_part tr) ∨ w_fds (fw_files w) = other_fds w0 fds.
Proof. intros (_ & _ & _ & l1 & l2 & _ & _ & _ & _ & _ & Hend) Hst. destruct (Hend Hst) as [?|(_ & _ & _ & _ & ?)]; auto. Qed.

Lemma no_errx ls : existsb (λ l, match l with LErrx => true | _ => false end) ls = false → LErrx ∉ ls.
Proof.
  intros Hf Hin. apply not_true_iff_false in Hf. apply Hf, existsb_exists. exists LErrx. by rewrite <- list_elem_of_In.
Qed.

Lemma server_survives_witness : stuck demo_storm = true ∧
  line_part (pool_trace demo_storm) = [B "UNSUPPORTED,,400,0" ++ [LF]; B "PUT,../srv/./a.txt,500,0" ++ [LF]] ∧
  w_log_out (fw_files (pool_world demo_storm)) = B "UNSUPPORTED,,400,0" ++ [LF] ++ B "PUT" ∧
  w_fds (fw_files (pool_world demo_storm)) = other_fds demo_wild [5; 6]%nat.
Proof.
  assert (Hst : stuck demo_storm = true) by (vm_compute; reflexivity).
  split; [exact Hst|]. split; [vm_compute; reflexivity|]. split; [vm_compute; reflexivity|].
  destruct (server_survives 2 demo_dir [5; 6]%nat (demo_pool_world [6; -1; 5]) demo_wild) as [_ H].
  - unfold INT_MAX; lia.
  - by repeat split.
  - exact demo_servable.
  - repeat constructor; unfold INT_MAX; cbn; lia.
  - apply Permutation_swap.
  - destruct (sound_end _ _ _ _ _ (proj1 (H demo_storm (schedule_reachable _ _))) Hst) as [Herr|E]; [exfalso|exact E].
    revert Herr. apply no_errx. vm_compute. reflexivity.
Defined.
