(* ===== verification/Listening.v ===== *)
(** * The server with its listening socket (src/httpserver.c, src/listener.c)

    In FullServer.v the calls of listener_init and listener_accept in main are
    events whose results the world foretells.  Here main runs the code of
    listener.c instead: every call it makes on a socket is a step of the
    interleaving.  A run of this program is a run of FullServer's in which the
    foretold results are those the code computes ([tells], [yields]), so that its
    theorems hold of the server down to its sockets. *)
From ITree Require Import Core.Subevent Indexed.Sum Interp.Interp.
From Stdlib Require Import Sorting.Sorted.
From S2P Require Import Prelude Prog Pools Alone PoolsTerm Posix Startup Listener Queue Threadpool ThreadpoolInv Paced Server FullServer.
Local Open Scope Z_scope.
Local Open Scope prog_scope.

(** ** The program *)

Abbreviation listeningE := (serverE +' listenE).

(** The server's world, whose foretold results are not used, and the sockets. *)
Record listenworld := LFW { lf_server : fullworld; lf_sockets : lworld }.

#[export] Instance listening_kernel : Kernel listeningE listenworld := λ X e w,
  match e with
  | inl1 e =>
      match sys e (lf_server w) with
      | Some (v, x) => Some (LFW v (lf_sockets w), x)
      | None => None
      end
  | inr1 e =>
      match sys e (lf_sockets w) with
      | Some (v, x) => Some (LFW (lf_server w) v, x)
      | None => None
      end
  end.

#[export] Instance listening_labelled : Labelled listeningE (qlabel + bytes) := λ X e x,
  match e with
  | inl1 e => lab e x
  | inr1 _ => []
  end.

Definition server_part {R} (t : itree serverE R) : itree listeningE R := translate (λ X e, inl1 e) t.
Definition socket_part {R} (t : itree listenE R) : itree listeningE R := translate (λ X e, inr1 e) t.

(** The two calls: each returns what sock->fd is then, and the result. *)
Definition init_call (port : Z) : itree listenE (Z * bool) :=
  let! r := listener_init port in
  Ret (r.2, negb (r.1 <? 0)).
Definition accept_call (sock : Z) : itree listenE (Z * Z) :=
  let! connfd := listener_accept sock in
  Ret (sock, connfd).

Definition pool_call (port sock : Z) {X} (e : poolE X) : option (itree listenE (Z * X)) :=
  match e in poolE X return option (itree listenE (Z * X)) with
  | ListenInit => Some (init_call port)
  | Accept => Some (accept_call sock)
  | _ => None
  end.
Definition socket_call (port sock : Z) {X} (e : serverE X) : option (itree listenE (Z * X)) :=
  match e with inl1 e => pool_call port sock e | inr1 _ => None end.

(** An event of main, with the value of sock->fd. *)
Definition on_sockets (port sock : Z) {X} (e : serverE X) : itree listeningE (Z * X) :=
  match socket_call port sock e with
  | Some t => socket_part t
  | None => let! x := perform (inl1 e : listeningE X) in Ret (sock, x)
  end.

(** main with the code of listener.c in it. *)
Definition with_listener (port : Z) {R} : Z * itree serverE R → itree listeningE R :=
  ITree.iter (λ st : Z * itree serverE R,
    match observe st.2 with
    | RetF r => Ret (inr r)
    | TauF t => Ret (inl (st.1, t))
    | VisF e k => let! x := on_sockets port st.1 e in Ret (inl (x.1, k x.2))
    end).

(** What is in the variable sock before listener_init. *)
Definition no_socket : Z := -1.

Definition listening_process (n port : Z) (dir : bytes) (pw : pworld) (w : world) (lw : lworld)
    : pool listeningE listenworld (qlabel + bytes) :=
  Pool match pool_threads (server_process n dir pw w) with
       | main :: workers => with_listener port (no_socket, main) :: (server_part <$> workers)
       | [] => []
       end (LFW (FW pw w) lw) [].

(** ** What main does *)

Section main.
Context (port : Z).

Definition loop_on {R} (lr : (Z * itree serverE R) + R) : itree listeningE R :=
  match lr with inl st => Tau (with_listener port st) | inr r => Ret r end.

(** It is in a call, at [t], and goes on as [k] says. *)
Definition in_call {R X} (t : itree listenE (Z * X)) (k : X → itree serverE R) : itree listeningE R :=
  ITree.bind (ITree.bind (socket_part t) (λ x, Ret (inl (x.1, k x.2)))) loop_on.

Lemma observe_in_call {R X} (t : itree listenE (Z * X)) (k : X → itree serverE R) :
  observe (in_call t k) =
  match observe t with
  | RetF x => TauF (with_listener port (x.1, k x.2))
  | TauF t' => TauF (in_call t' k)
  | VisF e h => VisF (inr1 e) (λ x, in_call (h x) k)
  end.
Proof. unfold in_call, socket_part. rewrite !observe_bind, observe_translate. by destruct (observe t). Qed.

Lemma observe_with_listener {R} s (t : itree serverE R) :
  observe (with_listener port (s, t)) =
  match observe t with
  | RetF r => RetF r
  | TauF t' => TauF (with_listener port (s, t'))
  | VisF e k =>
      match socket_call port s e with
      | Some b => observe (in_call b k)
      | None => VisF (inl1 e) (λ x, ITree.bind (ITree.bind (ITree.bind (Ret x) (λ x, Ret (s, x)))
                                      (λ x, Ret (inl (x.1, k x.2)))) loop_on)
      end
  end.
Proof.
  unfold with_listener. rewrite observe_iter, observe_bind. cbn [fst snd].
  destruct (observe t) as [r|t'|X e k]; [done..|]. unfold on_sockets, in_call.
  destruct (socket_call port s e) as [b|]; rewrite !observe_bind; done.
Qed.
End main.

(** ** Manners

    [obeys n m t Q]: for [n] steps [t], in manner [m], performs only the events
    that [m] allows, where an event and its answer may change the manner. *)

Section obeys.
Context {E : Type → Type} {M : Type} (allowed : ∀ X, M → E X → Prop) (next : ∀ X, M → E X → X → M).
Arguments allowed {X} _ _.
Arguments next {X} _ _ _.

Fixpoint obeys (n : nat) (m : M) {R} (t : itree E R) (Q : M → R → Prop) : Prop :=
  match n with
  | O => True
  | S n =>
      match observe t with
      | RetF r => Q m r
      | TauF t' => obeys n m t' Q
      | VisF e k => allowed m e ∧ ∀ x, obeys n (next m e x) (k x) Q
      end
  end.

Lemma obeys_S n m {R} (t : itree E R) Q : obeys (S n) m t Q → obeys n m t Q.
Proof.
  revert m t. induction n as [|n IH]; intros m t; [done|]. intros H.
  change (match observe t with
      | RetF r => Q m r | TauF t' => obeys (S n) m t' Q
      | VisF e k => allowed m e ∧ ∀ x, obeys (S n) (next m e x) (k x) Q end) in H.
  cbn. destruct (observe t) as [r|t'|X e k]; [done|by apply IH|]. destruct H as [HA H]. auto.
Qed.

Lemma obeys_observe n m {R} (t u : itree E R) Q : observe t = observe u → obeys n m u Q → obeys n m t Q.
Proof. intros Ho. destruct n; [done|]. cbn. by rewrite Ho. Qed.

Lemma obeys_ret n m {R} (r : R) (Q : M → R → Prop) : Q m r → obeys n m (Ret r) Q.
Proof. by destruct n. Qed.

Lemma obeys_conseq n m {R} (t : itree E R) (P Q : M → R → Prop) : (∀ m r, P m r → Q m r) → obeys n m t P → obeys n m t Q.
Proof.
  intros H. revert m t. induction n as [|n IH]; intros m t; [done|]. cbn.
  destruct (observe t) as [r|t'|X e k]; [by auto|by auto|]. intros [HA H']. auto.
Qed.

Lemma obeys_bind n m {R S} (t : itree E R) (k : R → itree E S) Q :
  obeys n m t (λ m' r, obeys n m' (k r) Q) → obeys n m (ITree.bind t k) Q.
Proof.
  intros H. assert (Hgen : ∀ i m t, obeys i m t (λ m' r, obeys n m' (k r) Q) → (i ≤ n)%nat →
    obeys i m (ITree.bind t k) Q); [|by apply Hgen].
  clear. induction i as [|i IH]; intros m t; [done|]. cbn. rewrite observe_bind. destruct (observe t) as [r|t'|X e h].
  - intros H Hle. change (obeys (Datatypes.S i) m (k r) Q). clear -H Hle. induction Hle; [done|]. by apply IHHle, obeys_S.
  - intros H Hle. apply IH; [done|lia].
  - intros [HA H] Hle. split; [done|]. intros x. apply IH; [done|lia].
Qed.

Lemma obeys_trigger n m {X} (e : E X) (Q : M → X → Prop) :
  allowed m e → (∀ x, Q (next m e x) x) → obeys n m (perform e) Q.
Proof. intros HA H. destruct n; [done|]. split; [done|]. intros x. by apply obeys_ret. Qed.

Lemma obeys_iter n m {R I} (f : I → itree E (I + R)) (Q : M → R → Prop) :
  (∀ n i, obeys n m (f i) (λ m' lr, match lr with inl _ => m' = m | inr r => Q m' r end)) →
  ∀ i, obeys n m (ITree.iter f i) Q.
Proof.
  intros Hf. induction n as [|n IH]; intros i; [done|].
  assert (Hb : obeys (Datatypes.S n) m (ITree.bind (f i) (λ lr, match lr with
      inl l => Tau (ITree.iter f l) | inr r => Ret r end)) Q).
  { apply obeys_bind. eapply obeys_conseq; [|apply Hf]. intros m' [j|r] H'; [|done]. cbn. subst m'. apply IH. }
  cbn in Hb |- *. by rewrite observe_iter.
Qed.

(** Events that are always allowed and do not change the manner. *)
Lemma does_obeys (P : ∀ X, E X → Prop) n m {R} (t : itree E R) :
  (∀ X (e : E X), P X e → allowed m e ∧ ∀ x, next m e x = m) → does P n t → obeys n m t (λ m' _, m' = m).
Proof.
  intros HP. revert t. induction n as [|n IH]; intros t; [done|]. cbn.
  destruct (observe t) as [r|t'|X e k]; [done|by auto|]. intros [He H]. destruct (HP X e He) as [HA Hx].
  split; [done|]. intros x. rewrite Hx. auto.
Qed.
End obeys.

(** main calls listener_init once, and listener_accept only when it succeeded;
    the workers call neither. *)
Inductive manner := Starting | Accepting | Working.

Definition pool_allowed X (m : manner) (e : poolE X) : Prop :=
  match e with ListenInit => m = Starting | Accept => m = Accepting | _ => True end.
Definition pool_next X (m : manner) (e : poolE X) : X → manner :=
  match e in poolE X return X → manner with
  | ListenInit => λ b, if b then Accepting else Working
  | _ => λ _, m
  end.
Definition server_allowed X (m : manner) (e : serverE X) : Prop :=
  match e with inl1 e => pool_allowed X m e | inr1 _ => True end.
Definition server_next X (m : manner) (e : serverE X) : X → manner :=
  match e with inl1 e => pool_next X m e | inr1 _ => λ _, m end.

Abbreviation pool_obeys := (obeys pool_allowed pool_next).
Abbreviation server_obeys := (obeys server_allowed server_next).

(** Neither call. *)
Definition no_socket_call X (e : poolE X) : Prop := match e with ListenInit | Accept => False | _ => True end.

Lemma no_call_obeys n m {R} (t : itree poolE R) : does no_socket_call n t → pool_obeys n m t (λ m' _, m' = m).
Proof. apply does_obeys. by intros X []. Qed.

Lemma no_call_push q n v : does no_socket_call n (queue_push q v).
Proof. unfold queue_push, sem_wait_checked, sem_post_checked. does_tac. Qed.

Lemma no_call_create tp n i k : does no_socket_call n (create_all tp i k).
Proof.
  assert (Hp : ∀ k, does no_socket_call n (push_stops (tp_q tp) k)).
  { induction k0 as [|k0 IH]; cbn; [apply does_ret|]. apply does_bind; [apply no_call_push|done]. }
  assert (Hj : ∀ j k, does no_socket_call n (join_all j k)).
  { intros j k0. revert j. induction k0 as [|k0 IH]; intros j; cbn; [apply does_ret|]. apply does_bind; [by apply does_trigger|done]. }
  revert i. induction k as [|k IH]; intros i; cbn; [apply does_ret|]. apply does_bind; [by apply does_trigger|].
  intros []; cbn; [apply IH|]. apply does_bind; [apply Hp|]. intros _. apply does_bind; [apply Hj|]. intros _.
  unfold queue_delete. does_tac.
Qed.

Lemma no_call_new n a b : does no_socket_call n (threadpool_new a b true).
Proof.
  assert (Hd : ∀ q, does no_socket_call n (queue_delete q)) by (intros q; unfold queue_delete; does_tac).
  unfold threadpool_new. case_match; [apply does_ret|]. apply does_bind; [by apply does_trigger|]. intros []; cbn; [|apply does_ret].
  apply does_bind; [by apply does_trigger|]. intros th. apply does_bind.
  { unfold queue_new, queue_new_fails, set_fields. does_tac. }
  intros q. destruct th, q; try (apply does_bind; [by apply does_trigger|intros _]; apply does_bind; [apply Hd|intros _]; does_tac).
  apply no_call_create.
Qed.

Lemma serve_obeys n N : pool_obeys n Starting (serve N) (λ _ _, True).
Proof.
  unfold serve. apply obeys_bind. eapply obeys_conseq; [|apply no_call_obeys, no_call_new]. intros m pool ->.
  destruct pool as [tp|]; [|by apply obeys_trigger]. apply obeys_bind, obeys_trigger; [done|]. intros []; cbn [negb pool_next];
    [|by apply obeys_trigger].
  apply obeys_iter. clear n. intros n _. apply obeys_bind, obeys_trigger; [done|]. intros fd. cbn [pool_next].
  case_match; [by apply obeys_ret|]. apply obeys_bind. eapply obeys_conseq; [|apply no_call_obeys, no_call_push].
  intros m r ->. by apply obeys_ret.
Qed.

Lemma worker_obeys n tp i : pool_obeys n Working (worker_thread tp i) (λ _ _, True).
Proof.
  eapply obeys_conseq; [|apply no_call_obeys]; [done|].
  unfold worker_thread, worker, queue_pop, sem_wait_checked, sem_post_checked. does_tac.
Qed.

(** The handlers make no such calls, so their threads keep their manners. *)
Lemma in_handler_obeys dir n m (t : itree sysE unit) (k : unit → itree poolE unit) :
  (∀ j, (j < n)%nat → server_obeys j m (with_handler dir (k tt)) (λ _ _, True)) →
  server_obeys n m (in_handler dir t k) (λ _ _, True).
Proof.
  revert t. induction n as [|n IH]; intros t Hk; [done|]. cbn [obeys]. rewrite observe_in_handler.
  destruct (observe t) as [[]|t'|X e h]; [apply Hk; lia|apply IH; intros; apply Hk; lia|].
  split; [done|]. intros x. apply IH. intros. apply Hk. lia.
Qed.

Lemma with_handler_obeys dir n m (t : itree poolE unit) Q :
  (∀ j, pool_obeys j m t Q) → server_obeys n m (with_handler dir t) (λ _ _, True).
Proof.
  revert m t. induction (lt_wf n) as [n _ IH]. intros m t Ht. destruct n as [|n]; [done|].
  assert (Ht' := λ j, Ht (S j)). cbn [obeys] in Ht' |- *. rewrite observe_with_handler.
  destruct (observe t) as [r|t'|X e k]; [done|apply (IH n); [lia|done]|]. destruct (is_call e) eqn:He.
  - destruct e; try done. cbn. split; [done|]. intros [].
    eapply (obeys_observe _ _ n m _ (in_handler dir (handle_connection dir (Z.to_nat fd)) k)); [done|].
    apply in_handler_obeys. intros j Hj. apply IH; [lia|]. intros i. by apply Ht'.
  - rewrite (on_call_other dir e He), !observe_bind. cbn. destruct (Ht' 0%nat) as [HA _]. split; [done|]. intros x.
    destruct n as [|n]; [done|]. cbn. apply (IH n); [lia|]. intros i. by apply Ht'.
Qed.

(** ** What the code foretells *)

(** [yields s k N t w l]: from [w] the call of listener_accept that is at [t], and
    those that follow it, return the results [l] in [N] steps and then wait, when
    [s] is still the socket [k]. *)
Inductive yields (s : Z) (k : lsock) : nat → itree listenE (Z * Z) → lworld → list Z → Prop :=
  | yields_ret N t x w l : observe t = RetF (s, x) → yields s k N (accept_call s) w l → yields s k (S N) t w (x :: l)
  | yields_step N t t' w w' l : step_thread t w = Some (t', w') → yields s k N t' w' l → yields s k (S N) t w l
  | yields_wait t w : step_thread t w = None → (∀ x, observe t ≠ RetF x) → l_socks w !! s = Some k → yields s k 0 t w [].

(** The call of listener_init that is at [t] succeeds or not ([b]), with the
    socket [s], and the calls of listener_accept that follow return [l]. *)
Inductive tells (s : Z) (k : lsock) : nat → itree listenE (Z * bool) → lworld → bool → list Z → Prop :=
  | tells_ret N t (b : bool) w l : observe t = RetF (s, b) →
      (if b then yields s k N (accept_call s) w l else l = []) → tells s k (S N) t w b l
  | tells_step N t t' w w' b l : step_thread t w = Some (t', w') → tells s k N t' w' b l → tells s k (S N) t w b l.

Definition foretells (port : Z) (w : lworld) (s : Z) (b : bool) (l : list Z) : Prop :=
  ∃ N, tells s (bound_socket port) N (init_call port) w b l.

(** The world of FullServer.v in which the results are [b] and [l]. *)
Definition told (b : bool) (l : list Z) (p : pworld) : pworld := set_listen b (set_accepts l p).
Definition put (b : bool) (l : list Z) (v : fullworld) : fullworld := FW (told b l (fw_pool v)) (fw_files v).

Lemma sys_told {X} (e : poolE X) b l p : no_socket_call X e →
  sys e (told b l p) = match sys e p with Some (p', x) => Some (told b l p', x) | None => None end.
Proof.
  intros He. destruct p as [? ? ? ? ? ? ? ? fr ? ? ? ? ? fl ? ?], e; try done;
    repeat match goal with s : sem |- _ => destruct s | f : field |- _ => destruct f end;
    unfold told; cbn; unfold pop_pfault, alive, in_buffer; cbn; destruct fr, fl; cbn; repeat (case_match; cbn); simplify_eq; done.
Qed.

Lemma sys_put port s {X} (e : serverE X) b l v : socket_call port s e = None →
  sys e (put b l v) = match sys e v with Some (v', x) => Some (put b l v', x) | None => None end.
Proof.
  destruct e as [e|e]; cbn [socket_call]; intros He.
  - unfold put at 1. cbn -[sys]. change (sys (inl1 e : serverE X) (FW (told b l (fw_pool v)) (fw_files v))) with
      (match sys e (told b l (fw_pool v)) with Some (p, x) => Some (FW p (fw_files v), x) | None => None end).
    rewrite sys_told by (by destruct e). cbn. by destruct (sys e (fw_pool v)) as [[p x]|].
  - cbn. by destruct (sys e (fw_files v)) as [[f x]|].
Qed.

(** ** Two views of main *)

Section views.
Context (port sock : Z).
Let own : lsock := bound_socket port.
Implicit Types (c : itree listeningE unit) (a : itree serverE unit) (v : fullworld) (w : lworld).

(** What is foretold to main, which has not yet called listener_init, or whose
    socket is [sock], or which makes no more calls. *)
Definition to_main (m : manner) (s : Z) (N : nat) w (b : bool) (l : list Z) : Prop :=
  match m with
  | Starting => tells sock own N (init_call port) w b l
  | Accepting => s = sock ∧ yields sock own N (accept_call sock) w l
  | Working => True
  end.

Definition mannered (m : manner) a : Prop := ∀ n, server_obeys n m a (λ _ _, True).

(** main, [c], is at [a] of FullServer.v and the results to come are [b] and [l]:
    it is outside the calls, possibly at the end of a turn of its loop; or it is
    in listener_init; or in listener_accept.  It makes [N] more steps of its own. *)
Inductive main_view w (b : bool) (l : list Z) : nat → itree listeningE unit → itree serverE unit → Prop :=
  | view_at m s N c a : mannered m a → to_main m s N w b l →
      observe c = observe (with_listener port (s, a)) → main_view w b l N c a
  | view_turn m s N c a : mannered m a → to_main m s N w b l →
      observe c = TauF (with_listener port (s, a)) → main_view w b l (S N) c a
  | view_init t k N c a : mannered Starting a → observe a = VisF (inl1 ListenInit) k → tells sock own N t w b l →
      observe c = observe (in_call port t k) → main_view w b l N c a
  | view_accept t k N c a : mannered Accepting a → observe a = VisF (inl1 Accept) k → yields sock own N t w l →
      observe c = observe (in_call port t k) → main_view w b l N c a.

Lemma mannered_event m a X (e : serverE X) k : mannered m a → observe a = VisF e k →
  server_allowed X m e ∧ ∀ x, mannered (server_next X m e x) (k x).
Proof.
  intros Ha Ho. assert (Ha' := λ n, Ha (S n)). cbn [obeys] in Ha'. rewrite Ho in Ha'. split; [by apply (Ha' 0%nat)|].
  intros x n. by apply Ha'.
Qed.

(** At a call, main is in it. *)
Lemma view_called w b l m s N c a X (e : serverE X) k t : mannered m a → to_main m s N w b l → observe a = VisF e k →
  socket_call port s e = Some t → observe c = observe (with_listener port (s, a)) →
  (∃ t k, observe a = VisF (inl1 ListenInit) k ∧ mannered Starting a ∧ tells sock own N t w b l ∧ observe c = observe (in_call port t k)) ∨
  (∃ t k, observe a = VisF (inl1 Accept) k ∧ mannered Accepting a ∧ yields sock own N t w l ∧ observe c = observe (in_call port t k)).
Proof.
  intros Ha Hm Ho Ht Hc. destruct (mannered_event _ _ _ _ _ Ha Ho) as [HA _]. rewrite observe_with_listener, Ho, Ht in Hc.
  destruct e as [e|e]; [|done]. destruct e; try done; cbn in HA, Ht; subst m; injection Ht as <-; [left|destruct Hm as [-> Hm]; right]; eauto 10.
Qed.

(** The results of listener_accept are not in the trace of this program. *)
Definition is_accepted (x : qlabel + bytes) : bool := match x with inl (LAccept _) => true | _ => false end.
Definition no_accepts (ls : list (qlabel + bytes)) : list (qlabel + bytes) := List.filter (λ x, negb (is_accepted x)) ls.

Lemma no_accepts_other s {X} (e : serverE X) x : socket_call port s e = None → no_accepts (lab e x) = lab e x.
Proof.
  destruct e as [e|e]; intros He; [by destruct e|]. cbn. unfold no_accepts.
  induction (@lab sysE bytes _ X e x) as [|y ls IH]; cbn; [done|]. by rewrite IH.
Qed.

(** A step of main is one of FullServer's main, in the world that foretells what
    comes; or one of its own, of which there are finitely many. *)
Definition main_moves v w b l N c a c' (lw' : listenworld) (ls : list (qlabel + bytes)) : Prop :=
  (∃ a' v' w' b' l' N', step_thread a (put b l v) = Some (a', put b' l' v') ∧ lw' = LFW v' w' ∧
     no_accepts (step_label a (put b l v)) = ls ∧ main_view w' b' l' N' c' a') ∨
  (∃ w' N', lw' = LFW v w' ∧ ls = [] ∧ (N' < N)%nat ∧ main_view w' b l N' c' a).

Lemma sock_init_step v w b l N c a t k c' lw' : mannered Starting a → observe a = VisF (inl1 ListenInit) k → tells sock own N t w b l →
  observe c = observe (in_call port t k) → step_thread c (LFW v w) = Some (c', lw') →
  main_moves v w b l N c a c' lw' (step_label c (LFW v w)).
Proof.
  intros Ha Ho Ht Hc. unfold step_thread, step_label. rewrite Hc, observe_in_call.
  destruct Ht as [N t b w l Hr Hl|N t t' w w' b l Hs Ht].
  - rewrite Hr. cbn [fst snd]. intros [= <- <-]. left. exists (k b), v, w, b, l, N.
    unfold step_thread, step_label. rewrite Ho. cbn. split_and!; try done.
    destruct (mannered_event _ _ _ _ _ Ha Ho) as [_ Hk]. specialize (Hk b). cbn in Hk.
    eapply view_at; [exact Hk| |done]. by destruct b.
  - unfold step_thread in Hs. destruct (observe t) as [r|t1|X e h]; [done|..].
    + simplify_eq. intros [= <- <-]. right. exists w', N. split_and!; [done|done|lia|]. by eapply view_init.
    + cbn. destruct (sys e w) as [[w1 x]|]; [|done]. simplify_eq. intros [= <- <-]. right. exists w', N.
      split_and!; [done|done|lia|]. by eapply view_init.
Qed.

Lemma sock_accept_step v w b l N c a t k c' lw' : mannered Accepting a → observe a = VisF (inl1 Accept) k → yields sock own N t w l →
  observe c = observe (in_call port t k) → step_thread c (LFW v w) = Some (c', lw') →
  main_moves v w b l N c a c' lw' (step_label c (LFW v w)).
Proof.
  intros Ha Ho Ht Hc. unfold step_thread, step_label. rewrite Hc, observe_in_call.
  destruct Ht as [N t x w l Hr Hl|N t t' w w' l Hs Ht|t w Hs Hr Hk].
  - rewrite Hr. cbn [fst snd]. intros [= <- <-]. left. exists (k x), v, w, b, l, N.
    unfold step_thread, step_label. rewrite Ho. cbn. split_and!; try done.
    destruct (mannered_event _ _ _ _ _ Ha Ho) as [_ Hk]. specialize (Hk x). cbn in Hk.
    by eapply view_at.
  - unfold step_thread in Hs. destruct (observe t) as [r|t1|X e h]; [done|..].
    + simplify_eq. intros [= <- <-]. right. exists w', N. split_and!; [done|done|lia|]. by eapply view_accept.
    + cbn. destruct (sys e w) as [[w1 x]|]; [|done]. simplify_eq. intros [= <- <-]. right. exists w', N.
      split_and!; [done|done|lia|]. by eapply view_accept.
  - unfold step_thread in Hs. destruct (observe t) as [r|t1|X e h] eqn:Hot; [by destruct (Hr r)|done|].
    cbn. by destruct (sys e w) as [[w1 x]|].
Qed.

Lemma view_step v w b l N c a c' lw' : main_view w b l N c a → step_thread c (LFW v w) = Some (c', lw') →
  main_moves v w b l N c a c' lw' (step_label c (LFW v w)).
Proof.
  intros Hv. destruct Hv as [m s N c a Ha Hm Hc|m s N c a Ha Hm Hc|t k N c a Ha Ho Ht Hc|t k N c a Ha Ho Ht Hc].
  - intros Hs. destruct (observe a) as [r|a'|X e k] eqn:Ho.
    + unfold step_thread in Hs. by rewrite Hc, observe_with_listener, Ho in Hs.
    + unfold step_thread, step_label in *. rewrite Hc, observe_with_listener, Ho in *. injection Hs as <- <-. left.
      exists a', v, w, b, l, N. unfold step_thread, step_label. rewrite Ho. split_and!; try done.
      eapply view_at; [|done|done]. intros n. specialize (Ha (S n)). cbn in Ha. by rewrite Ho in Ha.
    + destruct (socket_call port s e) as [t|] eqn:He.
      * destruct (view_called _ _ _ _ _ _ _ _ _ _ _ _ Ha Hm Ho He Hc) as [(t' & k' & Ho' & Ha' & Ht & Hc')|(t' & k' & Ho' & Ha' & Ht & Hc')].
        -- by eapply sock_init_step.
        -- by eapply sock_accept_step.
      * unfold step_thread, step_label in *. rewrite Hc, observe_with_listener, Ho, He in *. cbn in *.
        pose proof (sys_put port s e b l v He) as Hp. left.
        destruct (sys e v) as [[v' x]|]; [|done]. injection Hs as <- <-.
        exists (k x), v', w, b, l, (S N). unfold step_thread, step_label. rewrite Ho, Hp.
        split_and!; try done; [by eapply no_accepts_other|]. destruct (mannered_event _ _ _ _ _ Ha Ho) as [_ Hk].
        assert (Hn : server_next X m e x = m) by (destruct e as [e|e]; [by destruct e|done]).
        specialize (Hk x). rewrite Hn in Hk. by eapply view_turn.
  - unfold step_thread, step_label. rewrite Hc. intros [= <- <-]. right. exists w, N. split_and!; [done|done|lia|].
    by eapply view_at.
  - by apply sock_init_step with t k.
  - by apply sock_accept_step with t k.
Qed.

(** A call that is blocked: that of listener_accept, when all its results were
    returned; main's socket is there. *)
Lemma call_blocked {R} v w l N (c : itree listeningE R) t (k : Z → itree serverE R) : yields sock own N t w l →
  observe c = observe (in_call port t k) → step_thread c (LFW v w) = None → l = [] ∧ l_socks w !! sock = Some own.
Proof.
  intros Ht Hc. unfold step_thread. rewrite Hc, observe_in_call.
  destruct Ht as [N' t x w' l' Hr Hl|N' t t' w1 w' l' Hs Ht|t w' Hs Hr Hk]; [by rewrite Hr|..|done].
  unfold step_thread in Hs. destruct (observe t) as [r|t1|X e h]; [done|done|]. cbn. by destruct (sys e w1) as [[w2 x]|].
Qed.

(** When main is blocked, so is FullServer's. *)
Lemma view_blocked v w b l N c a : main_view w b l N c a → step_thread c (LFW v w) = None → step_thread a (put b l v) = None.
Proof.
  assert (Hinit : ∀ t k, tells sock own N t w b l → observe c = observe (in_call port t k) → step_thread c (LFW v w) ≠ None).
  { intros t k Ht Hc. unfold step_thread. rewrite Hc, observe_in_call.
    destruct Ht as [N' t b' w' l' Hr Hl|N' t t' w1 w' b' l' Hs Ht]; [by rewrite Hr|]. unfold step_thread in Hs.
    destruct (observe t) as [r|t1|X e h]; [done|done|]. cbn. by destruct (sys e w1) as [[w2 x]|]. }
  assert (Hacc : ∀ t k, observe a = VisF (inl1 Accept) k → yields sock own N t w l → observe c = observe (in_call port t k) →
    step_thread c (LFW v w) = None → step_thread a (put b l v) = None).
  { intros t k Ho Ht Hc Hs. destruct (call_blocked v w l N c t k Ht Hc Hs) as [-> _]. unfold step_thread. by rewrite Ho. }
  intros Hv. destruct Hv as [m s N c a Ha Hm Hc|m s N c a Ha Hm Hc|t k N c a Ha Ho Ht Hc|t k N c a Ha Ho Ht Hc].
  - intros Hs. destruct (observe a) as [r|a'|X e k] eqn:Ho.
    + unfold step_thread. by rewrite Ho.
    + unfold step_thread in Hs. by rewrite Hc, observe_with_listener, Ho in Hs.
    + destruct (socket_call port s e) as [t|] eqn:He.
      * destruct (view_called _ _ _ _ _ _ _ _ _ _ _ _ Ha Hm Ho He Hc) as [(t' & k' & Ho' & Ha' & Ht & Hc')|(t' & k' & Ho' & Ha' & Ht & Hc')].
        -- by apply Hinit in Hc'.
        -- rewrite Ho in Ho'. by eapply Hacc.
      * unfold step_thread in *. rewrite Hc, observe_with_listener, Ho, He in Hs. rewrite Ho, (sys_put port s e b l v He). cbn in Hs.
        by destruct (sys e v) as [[v' x]|].
  - unfold step_thread. by rewrite Hc.
  - intros Hs. by destruct (Hinit t k Ht Hc).
  - by eapply Hacc.
Qed.
(** When it waits for a client, its socket is there. *)
Lemma view_waits v w b l N c a k : main_view w b l N c a → step_thread c (LFW v w) = None →
  observe a = VisF (inl1 Accept) k → l_socks w !! sock = Some own.
Proof.
  intros Hv Hs Ho. destruct Hv as [m s N c a Ha Hm Hc|m s N c a Ha Hm Hc|t k' N c a Ha Ho' Ht Hc|t k' N c a Ha Ho' Ht Hc].
  - destruct (mannered_event _ _ _ _ _ Ha Ho) as [HA _]. cbn in HA. subst m. destruct Hm as [-> Hm].
    rewrite observe_with_listener, Ho in Hc. cbn [socket_call pool_call] in Hc. exact (proj2 (call_blocked _ _ _ _ _ _ _ Hm Hc Hs)).
  - unfold step_thread in Hs. by rewrite Hc in Hs.
  - assert (H : match observe a with VisF (inl1 ListenInit) _ => False | _ => True end) by by rewrite Ho.
    by rewrite Ho' in H.
  - exact (proj2 (call_blocked _ _ _ _ _ _ _ Ht Hc Hs)).
Qed.
End views.

(** ** Two views of a run *)

Lemma observe_server_part {R} (t : itree serverE R) : observe (server_part t) =
  match observe t with
  | RetF r => RetF r
  | TauF t' => TauF (server_part t')
  | VisF e k => VisF (inl1 e) (λ x, server_part (k x))
  end.
Proof. apply observe_translate. Qed.

Definition unaccepted (tr : list (nat * (qlabel + bytes))) : list (nat * (qlabel + bytes)) :=
  List.filter (λ x, negb (is_accepted x.2)) tr.

Lemma unaccepted_app tr j ls : unaccepted (tr ++ map (pair j) ls) = unaccepted tr ++ map (pair j) (no_accepts ls).
Proof.
  unfold unaccepted, no_accepts. rewrite List.filter_app. f_equal. induction ls as [|x ls IH]; cbn; [done|].
  destruct (negb (is_accepted x)); cbn; by rewrite IH.
Qed.

Section runs.
Context (n port : Z) (dir : bytes) (pw : pworld) (w0 : world) (lw : lworld) (sock : Z) (b0 : bool) (l0 : list Z).
Context (Htold : foretells port lw sock b0 l0).

Inductive run_view : nat → pool listeningE listenworld (qlabel + bytes) → pool serverE fullworld (qlabel + bytes) → Prop :=
  | RunView N c a as_ v w b l tr : main_view port sock w b l N c a → Forall (mannered Working) as_ →
      run_view N (Pool (c :: (server_part <$> as_)) (LFW v w) (unaccepted tr)) (Pool (a :: as_) (put b l v) tr).

Lemma worker_moves (c : itree listeningE unit) as_ j (a : itree serverE unit) :
  <[S j := server_part a]> (c :: (server_part <$> as_)) = c :: (server_part <$> <[j := a]> as_).
Proof. by rewrite list_fmap_insert. Qed.

Lemma run_view_step N q p q' : run_view N q p → pool_step q q' →
  (∃ N' p', pool_step p p' ∧ run_view N' q' p') ∨ (∃ N', (N' < N)%nat ∧ run_view N' q' p).
Proof.
  intros [N' c a as_ v w b l tr Hm Hw] Hs. inversion Hs as [j ts t t' v1 lw' tr' Hj Hst]; subst.
  destruct j as [|j].
  - cbn in Hj. injection Hj as <-. cbn. destruct (view_step _ _ _ _ _ _ _ _ _ _ _ Hm Hst)
      as [(a' & v' & w' & b' & l' & N2 & Ha & -> & <- & Hv)|(w' & N2 & -> & -> & Hlt & Hv)].
    + left. eexists N2, _. split; [by apply (PoolStep 0)|]. rewrite <- unaccepted_app. by constructor.
    + right. exists N2. split; [done|]. rewrite app_nil_r. by constructor.
  - change ((server_part <$> as_) !! j = Some t) in Hj. rewrite list_lookup_fmap, fmap_Some in Hj. destruct Hj as (a1 & Hj & ->).
    pose proof (Forall_lookup_1 _ _ _ _ Hw Hj) as Ha. unfold step_thread, step_label in *.
    rewrite observe_server_part in *. left. destruct (observe a1) as [r|a2|X e k] eqn:Ho; [done|..].
    + injection Hst as <- <-. exists N', (Pool (a :: <[j := a2]> as_) (put b l v) tr). split.
      { replace tr with (tr ++ map (pair (S j)) (step_label a1 (put b l v))) at 2 by (unfold step_label; rewrite Ho; apply app_nil_r).
        apply (PoolStep (S j) (a :: as_) a1 a2); [done|]. unfold step_thread. by rewrite Ho. }
      rewrite app_nil_r, worker_moves. constructor; [done|]. apply Forall_insert; [done|].
      intros m. specialize (Ha (S m)). cbn in Ha. by rewrite Ho in Ha.
    + destruct (mannered_event _ _ _ _ _ Ha Ho) as [HA Hk]. cbn in Hst |- *.
      assert (He : socket_call port no_socket e = None) by (destruct e as [e|e]; [by destruct e|done]).
      pose proof (sys_put port no_socket e b l v He) as Hp. destruct (sys e v) as [[v' x]|] eqn:Hsys; [|done]. injection Hst as <- <-.
      exists N', (Pool (a :: <[j := k x]> as_) (put b l v') (tr ++ map (pair (S j)) (lab e x))). split.
      { replace (lab e x) with (step_label a1 (put b l v)) by (unfold step_label; by rewrite Ho, Hp).
        apply (PoolStep (S j) (a :: as_) a1 (k x)); [done|]. unfold step_thread. by rewrite Ho, Hp. }
      change (run_view N' (Pool (<[S j := server_part (k x)]> (c :: (server_part <$> as_))) (LFW v' w)
        (unaccepted tr ++ map (pair (S j)) (lab e x))) (Pool (a :: <[j := k x]> as_) (put b l v') (tr ++ map (pair (S j)) (lab e x)))).
      rewrite worker_moves.
      rewrite <- (no_accepts_other port no_socket e x He) at 1. rewrite <- unaccepted_app.
      constructor; [done|]. apply Forall_insert; [done|].
      assert (Hn : server_next X Working e x = Working) by (destruct e as [e|e]; [by destruct e|done]). by rewrite <- Hn.
Qed.

Let server := server_process n dir (told b0 l0 pw) w0.
Let listening := listening_process n port dir pw w0 lw.

Lemma run_view_start : ∃ N, run_view N listening server.
Proof.
  destruct Htold as [N Ht]. exists N. unfold listening, server, listening_process, server_process, process. cbn.
  apply (RunView N _ _ _ (FW pw w0) lw b0 l0 []).
  - eapply (view_at port sock lw b0 l0 Starting no_socket); [|exact Ht|done]. intros m. eapply with_handler_obeys. intros j. apply serve_obeys.
  - apply Forall_fmap, Forall_fmap, Forall_forall. intros i _ m. eapply with_handler_obeys. intros j. apply worker_obeys.
Qed.

Lemma run_view_reach q : reachable listening q → ∃ N p, reachable server p ∧ run_view N q p.
Proof.
  intros Hr. destruct run_view_start as (N & Hv).
  assert (H0 : ∃ N p, reachable server p ∧ run_view N listening p) by (exists N, server; split; [apply rtc_refl|done]). clear N Hv.
  unfold reachable in Hr. revert H0. generalize listening Hr. clear Hr. intros q0 Hr.
  induction Hr as [q0|q0 q1 q Hs _ IH]; [done|]. intros (N & p & Hp & Hv). apply IH.
  destruct (run_view_step _ _ _ _ Hv Hs) as [(N' & p' & Hs' & Hv')|(N' & _ & Hv')]; [|by eauto].
  exists N', p'. split; [by eapply rtc_r|done].
Qed.

Lemma run_view_stuck N q p : run_view N q p → stuck q = true → stuck p = true.
Proof.
  intros [N' c a as_ v w b l tr Hm Hw] Hst. apply forallb_forall. cbn.
  intros a1 [<-|[j Hj]%list_elem_of_In%list_elem_of_lookup_1].
  - apply (stuck_thread _ 0 c) in Hst; [|done]. by rewrite (view_blocked _ _ _ _ _ _ _ _ _ Hm Hst).
  - apply (stuck_thread _ (S j) (server_part a1)) in Hst; [|change ((server_part <$> as_) !! j = Some (server_part a1)); by rewrite list_lookup_fmap, Hj].
    pose proof (Forall_lookup_1 _ _ _ _ Hw Hj) as Ha. unfold step_thread in *. cbn in Hst.
    rewrite observe_server_part in Hst. destruct (observe a1) as [r|a2|X e k] eqn:Ho; [done..|].
    destruct (mannered_event _ _ _ _ _ Ha Ho) as [HA Hk]. cbn in Hst.
    assert (He : socket_call port no_socket e = None) by (destruct e as [e|e]; [by destruct e|done]).
    rewrite (sys_put port no_socket e b l v He). by destruct (sys e v) as [[v' x]|].
Qed.

Lemma run_view_waits N q p : run_view N q p → stuck q = true → waiting p →
  l_socks (lf_sockets (pool_world q)) !! sock = Some (bound_socket port).
Proof.
  intros [N' c a as_ v w b l tr Hm Hw] Hst (a' & k & Ha & Hk). cbn in Ha. injection Ha as <-.
  apply (stuck_thread _ 0 c) in Hst; [|done]. by eapply view_waits.
Qed.

Lemma run_view_ends p : sn pool_step p → ∀ N q, run_view N q p → sn pool_step q.
Proof.
  induction 1 as [p Hp IH]. intros N. induction (lt_wf N) as [N _ IHN]. intros q Hv. constructor. intros q' Hs.
  destruct (run_view_step _ _ _ _ Hv Hs) as [(N' & p' & Hs' & Hv')|(N' & Hlt & Hv')]; [by eapply IH|by eapply IHN].
Qed.

(** Every state of the server with its sockets is one of FullServer's server to
    which the results are foretold; it ends when that one does. *)
Lemma listening_runs :
  (sn pool_step server → sn pool_step listening) ∧
  ∀ q, reachable listening q → ∃ p, reachable server p ∧
    fw_files (lf_server (pool_world q)) = fw_files (pool_world p) ∧
    (∃ b l, fw_pool (pool_world p) = told b l (fw_pool (lf_server (pool_world q)))) ∧
    pool_trace q = unaccepted (pool_trace p) ∧ (stuck q = true → stuck p = true) ∧
    (stuck q = true → waiting p → l_socks (lf_sockets (pool_world q)) !! sock = Some (bound_socket port)).
Proof.
  split; [intros Hs; destruct run_view_start as (N & Hv); by eapply run_view_ends|].
  intros q Hr. destruct (run_view_reach q Hr) as (N & p & Hp & Hv). exists p. split; [done|].
  split_and!; [..|by eapply run_view_stuck|by eapply run_view_waits]; destruct Hv; [done|by eexists _, _|done].
Qed.
End runs.

(** ** What listener.c returns

    On a listening socket the calls of listener_accept return finitely many
    results before they wait: descriptors that are new and all different, one for
    each client that was taken and on which no call failed, and -1. *)

(** The connections among the results. *)
Definition descriptors (l : list Z) : list nat := Z.to_nat <$> filter (λ r, 0 ≤ r) l.

Record results (w : lworld) (l : list Z) : Prop := {
  rs_range : Forall (λ r, r = -1 ∨ l_next w ≤ r < l_next w + Z.of_nat (length (l_clients w))) l;
  rs_sorted : StronglySorted Z.lt (filter (λ r, 0 ≤ r) l);
  rs_all : Forall (λ b, b = false) (l_faults w) → l = seqZ (l_next w) (Z.of_nat (length (l_clients w)))
}.

Lemma evals_yields s k t w x w' N l : evals t w (s, x) w' → yields s k N (accept_call s) w' l →
  ∃ N', yields s k N' t w (x :: l).
Proof.
  intros He Hy. remember (s, x) as r eqn:Hr. induction He as [t w r Ht|t w t1 w1 r w' Hs _ IH]; subst.
  - exists (S N). by eapply yields_ret.
  - destruct (IH eq_refl Hy) as [N' H]. exists (S N'). by eapply yields_step.
Qed.

Lemma accept_waits s w : is_listening s w = true → l_clients w = [] → head (l_faults w) ≠ Some true →
  step_thread (accept_call s) w = None ∧ ∀ x, observe (accept_call s) ≠ RetF x.
Proof.
  intros Hl Hc Hf. unfold accept_call, listener_accept, step_thread. rewrite !observe_bind. cbn. split; [|done].
  unfold pop_lfault, is_listening in *. destruct (l_faults w) as [|[] fl]; cbn; [by rewrite Hl, Hc|done|by rewrite Hl, Hc].
Qed.

(** One more result, in front. *)
Lemma results_cons w x w' l : accept_outcome w x w' → lworld_ok w → results w' l → results w (x :: l).
Proof.
  intros Ho [Hn _] [R1 R2 R3]. destruct Ho as [(c & cs & fl & Hc & Hsub & Hlen & Hor)|(-> & fl & Hf & ->)].
  - assert (Hw' : l_next w' = l_next w + 1 ∧ l_clients w' = cs ∧ l_faults w' = fl) by (by destruct Hor as [[_ ->]|(_ & _ & ->)]).
    destruct Hw' as (E1 & E2 & E3). rewrite E1, E2, E3 in *.
    assert (Hr : Forall (λ r, r = -1 ∨ l_next w ≤ r < l_next w + Z.of_nat (length (l_clients w))) l).
    { eapply Forall_impl; [exact R1|]. cbn. rewrite Hc. cbn. intros r. lia. }
    destruct Hor as [[-> _]|(-> & Hf & _)]; split.
    + constructor; [|done]. rewrite Hc. cbn. lia.
    + rewrite filter_cons_True by lia. constructor; [done|]. apply Forall_forall. intros r [Hr0 Hin]%list_elem_of_filter.
      rewrite Forall_forall in R1. apply R1 in Hin. lia.
    + intros Hf. rewrite R3, Hc; [|rewrite Forall_forall in *; auto]. cbn [length].
      rewrite Nat2Z.inj_succ, (seqZ_cons (l_next w)) by lia. f_equal. f_equal; lia.
    + constructor; [by left|done].
    + rewrite filter_cons_False by lia; exact R2.
    + intros Hno. rewrite Forall_forall in Hno. by apply Hno in Hf.
  - cbn in *. split; [constructor; [by left|done]|rewrite filter_cons_False by lia; exact R2|].
    rewrite Hf. by inversion 1.
Qed.

Lemma accept_keeps s k w x w' : accept_outcome w x w' → lworld_ok w → l_socks w !! s = Some k →
  lworld_ok w' ∧ l_socks w' !! s = Some k ∧
  (length (l_clients w') + length (l_faults w') < length (l_clients w) + length (l_faults w))%nat.
Proof.
  intros Ho [Hn Hlt] Hl.
  destruct Ho as [(c & cs & fl & Hc & _ & Hlen & [[-> ->]|(-> & Hf & ->)])|(-> & fl & Hf & ->)]; cbn; rewrite ?Hc, ?Hf; cbn.
  - split_and!; [|rewrite lookup_insert_ne; [done|]|lia].
    + split; cbn; [lia|]. intros fd s0 [[<- _]|[_ H]]%lookup_insert_Some; [lia|]. apply Hlt in H. lia.
    + intros E. apply Hlt in Hl. lia.
  - split_and!; [|done|lia]. split; cbn; [lia|]. intros fd s0 H. apply Hlt in H. lia.
  - split_and!; [by split|done|lia].
Qed.

Lemma yields_exists s k w : lworld_ok w → l_socks w !! s = Some k → so_listening k = true →
  ∃ N l, yields s k N (accept_call s) w l ∧ results w l.
Proof.
  remember (length (l_clients w) + length (l_faults w))%nat as m eqn:Hm. revert w Hm.
  induction (lt_wf m) as [m _ IH]. intros w -> Hok Hk Hkl.
  assert (Hl : is_listening s w = true) by (unfold is_listening; by rewrite Hk).
  destruct (decide (l_clients w = [] ∧ head (l_faults w) ≠ Some true)) as [[Hc Hf]|Hgo].
  { destruct (accept_waits s w Hl Hc Hf) as [H1 H2]. exists 0%nat, []. split; [by apply yields_wait|].
    split; [done|constructor|]. intros _. by rewrite Hc. }
  destruct (listener_accept_wpt s w Hok Hl) as (x & w' & He & Ho).
  { destruct (decide (l_clients w = [])) as [E|]; [|by left]. right. destruct (l_faults w) as [|[] fl]; [|done|];
      by destruct Hgo; split. }
  destruct (accept_keeps s k w x w' Ho Hok Hk) as (Hok' & Hl' & Hlt).
  destruct (IH _ Hlt w' eq_refl Hok' Hl' Hkl) as (N & l & Hy & Hr).
  destruct (evals_yields s k (accept_call s) w x w' N l) as [N' Hy']; [|done|].
  { unfold accept_call. eapply evals_bind; [exact He|by apply evals_ret]. }
  exists N', (x :: l). split; [done|by eapply results_cons].
Qed.

Lemma evals_tells s k (b : bool) t w w' N l : evals t w (s, b) w' →
  (if b then yields s k N (accept_call s) w' l else l = []) → ∃ N', tells s k N' t w b l.
Proof.
  intros He Hy. remember (s, b) as r eqn:Hr. induction He as [t w r Ht|t w t1 w1 r w' Hs _ IH]; subst.
  - exists (S N). by eapply tells_ret.
  - destruct (IH eq_refl Hy) as [N' H]. exists (S N'). by eapply tells_step.
Qed.

(** main's calls on its sockets come to an end, with results that the code
    determines: all the clients, when the port is free and no call fails. *)
Lemma foretells_exists port w : lworld_ok w → 0 ≤ port < 2 ^ 16 → ∃ s b l, foretells port w s b l ∧ (b = true → s = l_next w) ∧
  Forall (λ r, r = -1 ∨ l_next w < r ≤ l_next w + Z.of_nat (length (l_clients w))) l ∧
  StronglySorted Z.lt (filter (λ r, 0 ≤ r) l) ∧ (b = false → l = []) ∧
  (l_faults w = [] → port_taken port w = false → b = true ∧ l = seqZ (l_next w + 1) (Z.of_nat (length (l_clients w)))).
Proof.
  intros Hok Hp. destruct (listener_init_wpt port w Hok Hp) as ([r fd] & w' & He & Hor).
  assert (He' : evals (init_call port) w (fd, negb (r <? 0)) w').
  { unfold init_call. eapply evals_bind; [exact He|by apply evals_ret]. }
  destruct Hor as [(-> & -> & fl & Hlen & ->)|(-> & _ & Hf)].
  - destruct (yields_exists (l_next w) (bound_socket port) (LW (<[l_next w := bound_socket port]> (l_socks w))
      (l_next w + 1) (l_clients w) fl)) as (N & l & Hy & [R1 R2 R3]).
    + destruct Hok as [Hn Hlt]. split; cbn; [lia|]. intros fd s [[<- _]|[_ H]]%lookup_insert_Some; [lia|]. apply Hlt in H. lia.
    + cbn. by rewrite lookup_insert_eq.
    + done.
    + destruct (evals_tells _ _ _ _ _ _ N l He' Hy) as [N' Ht]. exists (l_next w), true, l. split_and!; [by exists N'|done| |done|done|].
      * eapply Forall_impl; [exact R1|]. cbn. intros r. lia.
      * intros Hno _. split; [done|]. apply R3. cbn. rewrite Hno in Hlen. by destruct fl; [|cbn in Hlen; lia].
  - destruct (evals_tells _ (bound_socket port) _ _ _ _ 0 [] He' eq_refl) as [N' Ht]. exists fd, false, [].
    split_and!; [by exists N'|done|done|constructor|done|].
    intros Hno Hfree. destruct Hf as [Hf|Hf]; [|congruence]. rewrite Hno in Hf. by apply elem_of_nil in Hf.
Qed.
