(* ===== verification/MainRuns.v ===== *)
(** * main from its command line on (src/httpserver.c)

    The start-up of main (Startup.v) followed by the server with its sockets
    (Listening.v) in the world that the start-up leaves, with the clients that
    connect to it. *)
From Stdlib Require Import Sorting.Sorted.
From S2P Require Import Listener Listening Prelude Libc Prog Posix Util Demo Opt Log Server Locks Handlers Startup.
From S2P Require Import Pools PoolsTerm Queue PoolTrace Threadpool ThreadpoolInv PoolHist PoolRuns AuditLog Robust RobustRuns FullServer FullRuns.
Local Open Scope Z_scope.
Local Open Scope prog_scope.

(** [w0] is [w] with main's sockets [own] and the connections [fds] of clients:
    these descriptors are new and those of the process, as all others are; the
    clients send and meet whatever they like, and the calls that follow may fail
    in any way. *)
Record connected (w : world) (own fds : list nat) (w0 : world) : Prop := {
  cn_new : ∀ fd, fd ∈ own ++ fds → w_fds w !! fd = None ∧ ∃ c, w_fds w0 !! fd = Some (OSock c);
  cn_others : ∀ fd, fd ∉ own ++ fds → w_fds w0 !! fd = w_fds w !! fd;
  cn_rest : set_faults [] (set_socks ∅ (set_fds ∅ w0)) = set_faults [] (set_socks ∅ (set_fds ∅ w))
}.

(** ** What the start-up leaves *)

(** The file of the log is emptied, and no lock is touched. *)
Lemma do_fopen_sizes p w : file_sizes w →
  file_sizes (do_fopen p w).1 ∧ w_flocks (do_fopen p w).1 = w_flocks w.
Proof.
  intros Hsz. unfold do_fopen. pose proof (do_open_cases p OPEN_W w) as Hop.
  destruct (do_open p OPEN_W w) as [w1 [fd|e]]; cbn in Hop |- *; [|by subst].
  destruct Hop as (q & fs & _ & _ & -> & Htree).
  assert (H1 : file_sizes (set_fs fs w)).
  { destruct Htree as [[-> _]|(_ & _ & ->)]; [done|]. by eapply (file_sizes_insert w q []). }
  unfold do_ftruncate. cbn. rewrite lookup_insert_eq.
  destruct (fs !! q) as [[]|]; cbn; (split; [|done]); try done.
  by eapply (file_sizes_insert (set_fs fs w) q []).
Qed.

Lemma started_servable args s opts d s' own fds w0 : let w := s_world s in
  w_flocks w = ∅ → file_sizes w → started args s (inr (opts, d)) s' →
  NoDup fds → connected (s_world s') own fds w0 → servable w0 fds.
Proof.
  intros w Hfl Hsz (_ & _ & _ & _ & (q & _ & _ & Hw') & (Hmu & Hbuf & Hstr) & _) Hnd [Hnew _ Hrest].
  injection Hrest as Hfs _ _ _ Hlocks Hs1 Hs2 Hs3 _ _.
  assert (Hlog : file_sizes (log_world opts w) ∧ w_flocks (log_world opts w) = ∅).
  { unfold log_world. destruct (log_path opts) as [p|]; cbn; [|done].
    destruct (do_fopen_sizes p w Hsz) as [H1 H2]. split; [exact H1|]. by rewrite H2. }
  destruct Hlog as [Hsz1 Hfl1]. split; [done|intros fd Hfd; apply Hnew, elem_of_app; by right| | |].
  - rewrite Hlocks. destruct Hw' as [Hw'|[_ Hw']]; by rewrite (w_flocks_proper _ _ Hw').
  - by rewrite Hs1, Hs2, Hs3.
  - intros p x m. rewrite Hfs. destruct Hw' as [Hw'|[_ Hw']]; rewrite (w_fs_proper _ _ Hw'); [apply Hsz1|].
    cbn. rewrite lookup_insert. case_decide; [done|apply Hsz1].
Qed.

(** What is open once the connections are closed: what was, and main's sockets. *)
Lemma connected_others w own fds w0 : connected w own fds w0 → (∀ fd, fd ∈ own → fd ∉ fds) →
  w_fds w ⊆ other_fds w0 fds ∧ dom (other_fds w0 fds) = dom (w_fds w) ∪ list_to_set own.
Proof.
  intros [Hnew Hoth _] Hdis. split.
  - apply map_subseteq_spec. intros fd o H. rewrite other_fds_lookup.
    assert (Hn : fd ∉ own ++ fds) by (intros Hin; destruct (Hnew fd Hin) as [? _]; congruence).
    rewrite Hoth by done. split; [done|]. intros ?. apply Hn, elem_of_app. by right.
  - apply set_eq. intros fd. rewrite elem_of_union, elem_of_list_to_set, !elem_of_dom. unfold is_Some.
    setoid_rewrite other_fds_lookup. split.
    + intros (o & H & Hn). destruct (decide (fd ∈ own)) as [|Hno]; [by right|left]. exists o.
      rewrite <- Hoth; [done|]. by intros [?|?]%elem_of_app.
    + intros [[o H]|Hin].
      * exists o. assert (Hn : fd ∉ own ++ fds) by (intros Hin; destruct (Hnew fd Hin) as [? _]; congruence).
        rewrite Hoth by done. split; [done|]. intros ?. apply Hn, elem_of_app. by right.
      * destruct (Hnew fd) as (_ & c & Hc); [apply elem_of_app; by left|]. exists (OSock c). auto.
Qed.

(** ** The server with its sockets *)

(** The connections that listener_accept returned. *)
Lemma conns_descriptors l : conns (descriptors l) = filter (λ r, 0 ≤ r) l.
Proof.
  unfold conns, descriptors. rewrite <- list_fmap_compose. rewrite <- (list_fmap_id (filter _ l)) at 2.
  apply list_fmap_ext. intros i r Hr. apply list_elem_of_lookup_2, list_elem_of_filter in Hr as [Hr _]. cbn. lia.
Qed.

Lemma descriptors_distinct l : StronglySorted Z.lt (filter (λ r, 0 ≤ r) l) → NoDup (descriptors l).
Proof.
  intros Hs. apply (NoDup_fmap_1 Z.of_nat). fold (conns (descriptors l)). rewrite conns_descriptors.
  induction Hs as [|r l' _ IH Hr]; [constructor|]. constructor; [|done]. intros Hin.
  rewrite Forall_forall in Hr. apply Hr in Hin. lia.
Qed.

(** The events that are left out say nothing of calls of the handler or of lines. *)
Lemma unaccepted_parts tr :
  line_part (unaccepted tr) = line_part tr ∧ handled (pool_part (unaccepted tr)) = handled (pool_part tr) ∧
  (LErrx ∈ labels_of 0 (pool_part (unaccepted tr)) ↔ LErrx ∈ labels_of 0 (pool_part tr)).
Proof.
  induction tr as [|[j [x|x]] tr (IH1 & IH2 & IH3)]; [done|..].
  - unfold handled, events, unaccepted, line_part, pool_part, labels_of in *.
    destruct x; cbn in *; repeat case_decide; rewrite ?elem_of_cons, ?IH1, ?IH2, ?IH3; split_and!; try done || by f_equal.
    split; [by right|by intros [[=]|?]].
  - split_and!; [|done..]. change (x :: line_part (unaccepted tr) = x :: line_part tr). by rewrite IH1.
Qed.

Lemma sound_unaccepted w0 fds b l v tr (e e' : Prop) : (e' → e) →
  sound_in w0 fds (put b l v) tr e → sound_in w0 fds v (unaccepted tr) e'.
Proof.
  intros He (H1 & H2 & H3 & wr & unwr & S1 & S2 & S3 & S4 & S5 & S6). destruct (unaccepted_parts tr) as (E1 & E2 & E3).
  unfold sound_in. cbv zeta. rewrite E1, E2. split_and!; [done..|]. exists wr, unwr. split_and!; [done..|]. rewrite E3. auto.
Qed.

(** ** The property *)

(** A client that hangs up does no harm, and a request to stop ends the process
    with status 0, at whatever point it comes. *)
Definition ends_cleanly (s' : sworld) : Prop :=
  deliver SIGPIPE s' = None ∧
  deliver SIGTERM s' = Some (Exited EXIT_SUCCESS) ∧ deliver SIGINT s' = Some (Exited EXIT_SUCCESS).

(** What main does once it has started: listener_init succeeds or not and the
    calls of listener_accept return what they do ([foretells]): if nothing fails,
    the descriptors after that of its socket, one for each client; and whatever
    those send whose connections were returned, every run of the server ends, in
    all its states it is sound, and when it ends, unless main gave up, main's
    socket listens on the port, and it and the descriptors of the start-up are
    what is open. *)
Definition main_sound (s' : sworld) (pw : pworld) (lw : lworld) (opts : OPT) (dir : bytes) : Prop :=
  ∃ sock b l, foretells (port opts) lw sock b l ∧
    (l_faults lw = [] → port_taken (port opts) lw = false →
       b = true ∧ sock = l_next lw ∧ l = seqZ (l_next lw + 1) (Z.of_nat (length (l_clients lw)))) ∧
    let fds := descriptors l in let own := if b then [Z.to_nat sock] else [] in
    ∀ w0, connected (s_world s') own fds w0 →
    let server := listening_process (n_threads opts) (port opts) dir pw w0 lw in
    sn pool_step server ∧
    ∀ q, reachable server q → let w := lf_server (pool_world q) in
      sound_in w0 fds w (pool_trace q) (stuck q = true) ∧
      (stuck q = true → LErrx ∈ labels_of 0 (pool_part (pool_trace q)) ∨
         l_socks (lf_sockets (pool_world q)) !! sock = Some (bound_socket (port opts)) ∧
         w_fds (s_world s') ⊆ w_fds (fw_files w) ∧
         dom (w_fds (fw_files w)) = dom (w_fds (s_world s')) ∪ list_to_set own) ∧
      ∃ q', reachable q q' ∧ stuck q' = true.

(** The sockets before main makes its own: descriptors are ints. *)
Definition sockets_ok (lw : lworld) : Prop :=
  lworld_ok lw ∧ l_next lw + Z.of_nat (length (l_clients lw)) ≤ INT_MAX.

Lemma listening_sound args s opts d s' pw lw : let w := s_world s in
  w_flocks w = ∅ → file_sizes w → fresh_world pw → sockets_ok lw →
  started args s (inr (opts, d)) s' → main_sound s' pw lw opts d.
Proof.
  intros w Hfl Hsz Hpw [Hlw Hmax] Hst. pose proof Hst as (_ & Hn & Hport & _).
  destruct (foretells_exists (port opts) lw Hlw) as (sock & b & l & Ht & Hsock & Hl & Hs & _ & Hall); [lia|].
  exists sock, b, l. split_and!; [done|intros H1 H2; destruct (Hall H1 H2) as [-> ->]; auto|].
  intros fds own w0 Hc server. pose proof (started_servable args s opts d s' own fds w0 Hfl Hsz Hst (descriptors_distinct l Hs) Hc) as Hsb.
  assert (Hmax' : Forall (λ r, r ≤ INT_MAX) l).
  { eapply Forall_impl; [exact Hl|]. cbn. intros r. unfold INT_MAX in *. lia. }
  assert (Hconns : filter (λ r, 0 ≤ r) l ≡ₚ conns fds) by (unfold fds; by rewrite conns_descriptors).
  destruct (server_runs_sound (n_threads opts) d fds (told b l pw) w0) as [Hsn Hq]; [lia|exact Hpw|exact Hsb|exact Hmax'|exact Hconns|].
  destruct (listening_runs (n_threads opts) (port opts) d pw w0 lw sock b l Ht) as [Hends Hruns].
  pose proof (Hends Hsn) as Hsn'. split; [done|]. intros q Hr v.
  destruct (Hruns q Hr) as (p & Hp & Hfiles & (b1 & l1 & Hpool) & Htr & Hstuck & Hwait).
  assert (Hsound : sound_in w0 fds v (pool_trace q) (stuck q = true)).
  { assert (Hw : pool_world p = put b1 l1 v) by (unfold put, v; rewrite Hfiles, <- Hpool; by destruct (pool_world p)).
    rewrite Htr. destruct (Hq p Hp) as [Hp' _]. unfold sound_state in Hp'. rewrite Hw in Hp'. exact (sound_unaccepted _ _ _ _ _ _ _ _ Hstuck Hp'). }
  split_and!; [done| |by apply sn_finishes; eapply sn_reachable].
  intros Hstq. destruct (sound_end _ _ _ _ _ Hsound Hstq) as [?|Hfds]; [by left|].
  destruct (server_waits (n_threads opts) d fds (told b l pw) w0 p) as [He|Hw]; try done; [lia|exact (Hstuck Hstq)|left|right].
  { rewrite Htr. by apply (proj2 (proj2 (unaccepted_parts (pool_trace p)))). }
  rewrite Hfds. split; [by apply Hwait|]. apply connected_others; [exact Hc|].
  intros fd Hin Hfd. unfold own in Hin. destruct b; [|by apply elem_of_nil in Hin].
  apply list_elem_of_singleton in Hin as ->. rewrite (Hsock eq_refl) in Hfd.
  unfold fds, descriptors in Hfd. apply list_elem_of_fmap in Hfd as (r & Er & [Hr0 Hin]%list_elem_of_filter).
  rewrite Forall_forall in Hl. apply Hl in Hin. destruct Hlw as [Hn0 _]. lia.
Qed.


(** Two clients connect to the server that was started in /srv with -l. *)
Definition demo_args : list bytes := [B "-laudit.log"; B "8080"].
Definition demo_before : sworld := SW (demo_world [] [] []) (λ _, SIG_DFL) [].
Definition demo_join (w : world) : world :=
  set_fds (<[7%nat := OSock 0]> (<[8%nat := OSock 1]> (<[9%nat := OSock 2]> (w_fds w))))
    (set_socks (<[1%nat := Sock (B "GET /a.txt HTTP/1.1") false [] [FErr EINTR]]>
       (<[2%nat := Sock [] true [] []]> (w_socks w))) (set_faults [FErr EMFILE] w)).

Definition demo_opts : OPT := mkOPT 3 (Some (B "audit.log")) 8080.
Definition demo_locks : bytes := B "/tmp/.httpserver.locks.64.7".

Lemma demo_start : ∃ s', run 100 (startup demo_args) demo_before = Some (inr (demo_opts, demo_locks), s') ∧
  w_fds (s_world s') !! 7%nat = None ∧ w_fds (s_world s') !! 8%nat = None ∧ w_fds (s_world s') !! 9%nat = None.
Proof.
  assert (H : match run 100 (startup demo_args) demo_before with
    | Some (inr (opts, dir), s') => bool_decide (n_threads opts = 3 ∧ log_path opts = Some (B "audit.log") ∧
        port opts = 8080 ∧ dir = demo_locks ∧
        w_fds (s_world s') !! 7%nat = None ∧ w_fds (s_world s') !! 8%nat = None ∧ w_fds (s_world s') !! 9%nat = None)
    | _ => false
    end = true) by (vm_compute; reflexivity).
  destruct (run 100 (startup demo_args) demo_before) as [[[code|[[n l po] dir]] s']|]; try discriminate H.
  apply bool_decide_eq_true in H as (H1 & H2 & H3 & H4 & H5). cbn in H1, H2, H3. subst. by exists s'.
Qed.

Lemma demo_connected w : w_fds w !! 7%nat = None → w_fds w !! 8%nat = None → w_fds w !! 9%nat = None →
  connected w [7]%nat [8; 9]%nat (demo_join w).
Proof.
  intros H7 H8 H9. split; [| |done].
  - intros fd [->|[->|[->|[]%elem_of_nil]%elem_of_cons]%elem_of_cons]%elem_of_cons; (split; [done|]); eexists; cbn.
    + by rewrite lookup_insert_eq.
    + by rewrite lookup_insert_ne, lookup_insert_eq.
    + by rewrite lookup_insert_ne, lookup_insert_ne, lookup_insert_eq.
  - intros fd Hfd. cbn. rewrite !lookup_insert_ne; [done|set_solver..].
Qed.

(** Descriptors up to 6 are in use when main makes its socket. *)
Definition demo_sockets : lworld := LW ∅ 7 [0; 1]%nat [].

Lemma demo_sockets_ok : sockets_ok demo_sockets.
Proof. split; [split; [done|]|unfold INT_MAX; cbn; lia]. intros fd s H. cbn in H. by rewrite lookup_empty in H. Qed.

