(* ===== verification/Rwlock.v ===== *)
(** * A readers-writer lock and its user (practica/pthreads/rwlock)

    The lock is four counters under a mutex with two condition variables, and
    a policy says who waits; user.c runs two readers and two writers on it.
    Every access to a counter, and every mutex or condition operation, is one
    event, so the theorems are about all interleavings.  pthread_cond_wait is
    two events: it releases the mutex and goes to sleep with a fresh ticket,
    and, once the ticket was woken, retakes the mutex; a wait may also be
    woken for no reason, as the world's [rw_spurious] says.  counts[] holds ints
    that are incremented for about a second; they are taken not to overflow. *)
From S2P Require Import Prelude Prog Pools.
Local Open Scope Z_scope.
Local Open Scope prog_scope.

(** ** The shared world *)

Inductive kind := Rd | Wr.
Inductive rwfield := FActive (k : kind) | FWaiting (k : kind).

#[export] Instance kind_eq_dec : EqDecision kind.
Proof. solve_decision. Defined.
#[export] Instance rwfield_eq_dec : EqDecision rwfield.
Proof. solve_decision. Defined.

(** struct rwlock: areaders, awriters, wreaders and wwriters are [rw_field] of
    [FActive Rd], [FActive Wr], [FWaiting Rd] and [FWaiting Wr]; [rw_sleep] is
    who sleeps on rcv and wcv.  [rw_ub]: the lock was used when there is none. *)
Record rwworld := RW {
  rw_field : rwfield → Z;
  rw_mu : bool;
  rw_sleep : kind → gset nat;
  rw_ticket : nat;
  rw_spurious : list bool;
  rw_live : bool;
  rw_ub : bool;
  rw_aborted : bool;
  u_done : Z;               (* user.c: done, dmutex, counts *)
  u_dmutex : bool;
  u_counts : list Z;
  u_created : gset nat;     (* threads that were started, and that have returned *)
  u_exited : gset nat;
  rw_faults : list bool     (* whether the next call that may fail does *)
}.

Definition upd {A B} `{!EqDecision A} (f : A → B) (a : A) (b : B) : A → B :=
  λ a', if decide (a' = a) then b else f a'.

(** The lock's part, the user's part. *)
Definition set_lock f mu sl tk sp live ub (w : rwworld) : rwworld :=
  RW f mu sl tk sp live ub (rw_aborted w) (u_done w) (u_dmutex w) (u_counts w) (u_created w) (u_exited w) (rw_faults w).
Definition set_user d dm cs cr ex (w : rwworld) : rwworld :=
  RW (rw_field w) (rw_mu w) (rw_sleep w) (rw_ticket w) (rw_spurious w) (rw_live w) (rw_ub w)
     (rw_aborted w) d dm cs cr ex (rw_faults w).
Definition set_rwfaults ab fl (w : rwworld) : rwworld :=
  RW (rw_field w) (rw_mu w) (rw_sleep w) (rw_ticket w) (rw_spurious w) (rw_live w) (rw_ub w)
     ab (u_done w) (u_dmutex w) (u_counts w) (u_created w) (u_exited w) fl.

(** ** Events *)

(** What user.c prints; the last line of a thread has its count and its count's
    share of the sum, which is given by the two numbers that are divided. *)
Inductive message :=
  | MsgGot (k : kind) (id : nat) | MsgDone (k : kind) (id : nat) | MsgExiting (k : kind) (id : nat)
  | MsgShare (i : nat) (count sum : Z).

Variant rwE : Type → Type :=
  | RwMalloc : rwE bool
  | RwInit : rwE bool                       (* pthread_mutex_init, pthread_cond_init *)
  | RwDestroy : rwE bool                    (* pthread_mutex_destroy, pthread_cond_destroy *)
  | RwFree : rwE unit
  | RwAbort : rwE unit                      (* a failed assert *)
  | MuLock : rwE unit
  | MuUnlock : rwE unit
  | CondSleep (k : kind) : rwE nat          (* pthread_cond_wait: release and sleep ... *)
  | CondWake (k : kind) (t : nat) : rwE unit    (* ... wake up and retake *)
  | Broadcast (k : kind) : rwE unit
  | GetF (f : rwfield) : rwE Z
  | SetF (f : rwfield) (v : Z) : rwE unit
  | DLock : rwE unit
  | DUnlock : rwE unit
  | GetDone : rwE Z
  | SetDone (v : Z) : rwE unit
  | GetCount (i : nat) : rwE Z
  | SetCount (i : nat) (v : Z) : rwE unit
  | Usleep : rwE unit
  | Sleep (secs : Z) : rwE unit
  | Say (m : message) : rwE unit
  | CreateT (i : nat) : rwE unit            (* pthread_create of thread [i] *)
  | BeginT (i : nat) : rwE unit             (* thread [i] begins *)
  | Finish (i : nat) : rwE unit             (* ... returns *)
  | JoinT (i : nat) : rwE unit.

Definition touch (w : rwworld) : bool := rw_ub w || negb (rw_live w).

Definition pop_rwfault (w : rwworld) : bool * rwworld :=
  match rw_faults w with
  | [] => (false, w)
  | b :: fl => (b, set_rwfaults (rw_aborted w) fl w)
  end.

#[export] Instance rw_kernel : Kernel rwE rwworld := λ X e w,
  match e in rwE X return option (rwworld * X) with
  | RwMalloc =>
      let '(b, w) := pop_rwfault w in
      Some (if (b : bool) then w
            else set_lock (rw_field w) (rw_mu w) (rw_sleep w) (rw_ticket w) (rw_spurious w) true (rw_ub w) w,
            negb b)
  | RwInit =>
      let '(b, w) := pop_rwfault w in
      Some (set_lock (rw_field w) false (rw_sleep w) (rw_ticket w) (rw_spurious w) (rw_live w) (touch w) w,
            negb b)
  | RwDestroy =>                             (* EBUSY when in use *)
      Some (set_lock (rw_field w) (rw_mu w) (rw_sleep w) (rw_ticket w) (rw_spurious w) (rw_live w) (touch w) w,
            negb (rw_mu w) && bool_decide (rw_sleep w Rd = ∅) && bool_decide (rw_sleep w Wr = ∅))
  | RwFree =>
      Some (set_lock (rw_field w) (rw_mu w) (rw_sleep w) (rw_ticket w) (rw_spurious w) false (touch w) w, tt)
  | RwAbort => Some (set_rwfaults true (rw_faults w) w, tt)
  | MuLock =>
      if rw_mu w then None
      else Some (set_lock (rw_field w) true (rw_sleep w) (rw_ticket w) (rw_spurious w) (rw_live w) (touch w) w, tt)
  | MuUnlock =>
      Some (set_lock (rw_field w) false (rw_sleep w) (rw_ticket w) (rw_spurious w) (rw_live w) (touch w) w, tt)
  | CondSleep k =>
      let '(woken, sp) := match rw_spurious w with [] => (false, []) | b :: sp => (b, sp) end in
      Some (set_lock (rw_field w) false
              (if (woken : bool) then rw_sleep w
               else upd (rw_sleep w) k ({[rw_ticket w]} ∪ rw_sleep w k))
              (S (rw_ticket w)) sp (rw_live w) (touch w) w, rw_ticket w)
  | CondWake k t =>
      if rw_mu w || bool_decide (t ∈ rw_sleep w k) then None
      else Some (set_lock (rw_field w) true (rw_sleep w) (rw_ticket w) (rw_spurious w) (rw_live w) (touch w) w, tt)
  | Broadcast k =>
      Some (set_lock (rw_field w) (rw_mu w) (upd (rw_sleep w) k ∅) (rw_ticket w) (rw_spurious w)
              (rw_live w) (touch w) w, tt)
  | GetF f =>
      Some (set_lock (rw_field w) (rw_mu w) (rw_sleep w) (rw_ticket w) (rw_spurious w) (rw_live w) (touch w) w,
            rw_field w f)
  | SetF f v =>
      Some (set_lock (upd (rw_field w) f v) (rw_mu w) (rw_sleep w) (rw_ticket w) (rw_spurious w)
              (rw_live w) (touch w) w, tt)
  | DLock =>
      if u_dmutex w then None else Some (set_user (u_done w) true (u_counts w) (u_created w) (u_exited w) w, tt)
  | DUnlock => Some (set_user (u_done w) false (u_counts w) (u_created w) (u_exited w) w, tt)
  | GetDone => Some (w, u_done w)
  | SetDone v => Some (set_user v (u_dmutex w) (u_counts w) (u_created w) (u_exited w) w, tt)
  | GetCount i => Some (w, default 0 (u_counts w !! i))
  | SetCount i v => Some (set_user (u_done w) (u_dmutex w) (<[i := v]> (u_counts w)) (u_created w) (u_exited w) w, tt)
  | Usleep | Sleep _ => Some (w, tt)
  | Say m => Some (w, tt)
  | CreateT i => Some (set_user (u_done w) (u_dmutex w) (u_counts w) ({[i]} ∪ u_created w) (u_exited w) w, tt)
  | BeginT i => if decide (i ∈ u_created w) then Some (w, tt) else None
  | Finish i => Some (set_user (u_done w) (u_dmutex w) (u_counts w) (u_created w) ({[i]} ∪ u_exited w) w, tt)
  | JoinT i => if decide (i ∈ u_exited w) then Some (w, tt) else None
  end.

#[export] Instance rw_labelled : Labelled rwE message := λ X e,
  match e in rwE X return X → list message with
  | Say m => λ _, [m]
  | _ => λ _, []
  end.

(** ** Policies *)

(** What a policy_*.c file provides. *)
Class Policy := { reader_wait : itree rwE Z; writer_wait : itree rwE Z }.

Definition c_bool (b : bool) : Z := if b then 1 else 0.

(** a || b on two fields *)
Definition either (f g : rwfield) : itree rwE Z :=
  let! a := ! (GetF f) in
  if negb (a =? 0) then Ret 1
  else let! b := ! (GetF g) in Ret (c_bool (negb (b =? 0))).

Definition policy_none : Policy := {| reader_wait := Ret 0; writer_wait := Ret 0 |}.

Definition policy_rstarve : Policy :=
  {| reader_wait := either (FActive Wr) (FWaiting Wr);
     writer_wait := either (FActive Wr) (FActive Rd) |}.

Definition policy_wstarve : Policy :=
  {| reader_wait := ! (GetF (FActive Wr));
     writer_wait := either (FActive Wr) (FActive Rd) |}.

(** ** The lock (rwlock.c) *)

Definition check (ok : bool) : itree rwE unit := if ok then Ret tt else ! RwAbort.

Definition add_field (f : rwfield) (d : Z) : itree rwE unit :=
  let! x := ! (GetF f) in
  ! (SetF f (x + d)).

(** malloc's result is not checked. *)
Definition rwlock_new : itree rwE unit :=
  let! _ := ! RwMalloc in
  let! rc := ! RwInit in
  do! check rc in
  let! rc := ! RwInit in
  do! check rc in
  let! rc := ! RwInit in
  do! check rc in
  do! ! (SetF (FActive Rd) 0) in
  do! ! (SetF (FActive Wr) 0) in
  do! ! (SetF (FWaiting Rd) 0) in
  ! (SetF (FWaiting Wr) 0).

Definition rwlock_destroy : itree rwE unit :=
  let! rc := ! RwDestroy in
  do! check rc in
  let! rc := ! RwDestroy in
  do! check rc in
  let! rc := ! RwDestroy in
  do! check rc in
  ! RwFree.

Definition cond_wait (k : kind) : itree rwE unit :=
  let! t := ! (CondSleep k) in
  ! (CondWake k t).

Section lock.
Context `{!Policy}.

Definition kind_wait (k : kind) : itree rwE Z := match k with Rd => reader_wait | Wr => writer_wait end.

(** read_lock and write_lock differ in the counters, the condition variable
    and the policy's function. *)
Definition kind_lock (k : kind) : itree rwE unit :=
  do! ! MuLock in
  do! add_field (FWaiting k) 1 in
  do! ITree.iter (λ _ : unit,
        let! b := kind_wait k in
        if b =? 0 then Ret (inr tt) else do! cond_wait k in Ret (inl tt)) tt in
  do! add_field (FWaiting k) (-1) in
  do! add_field (FActive k) 1 in
  ! MuUnlock.

Definition read_lock : itree rwE unit := kind_lock Rd.
Definition write_lock : itree rwE unit := kind_lock Wr.

Definition rwlock_wakeup : itree rwE unit :=
  let! r := ! (GetF (FWaiting Rd)) in
  do! (if r =? 0 then Ret tt else ! (Broadcast Rd)) in
  let! n := ! (GetF (FWaiting Wr)) in
  if n =? 0 then Ret tt else ! (Broadcast Wr).

Definition kind_unlock (k : kind) : itree rwE unit :=
  do! ! MuLock in
  do! add_field (FActive k) (-1) in
  do! rwlock_wakeup in
  ! MuUnlock.

Definition read_unlock : itree rwE unit := kind_unlock Rd.
Definition write_unlock : itree rwE unit := kind_unlock Wr.

(** ** The user (user.c) *)

Definition get_done : itree rwE Z :=
  do! ! DLock in
  let! d := ! GetDone in
  do! ! DUnlock in
  Ret d.

Definition set_done : itree rwE unit :=
  do! ! DLock in
  do! ! (SetDone 1) in
  ! DUnlock.

(** The sleep has no effect on the program; usleep fails only for a signal, and
    none is sent. *)
Definition random_sleep : itree rwE unit := ! Usleep.

(** reader_thread and writer_thread. *)
Definition kind_thread (k : kind) (id : nat) : itree rwE unit :=
  do! ITree.iter (λ _ : unit,
        let! d := get_done in
        if negb (d =? 0) then Ret (inr tt)
        else
          do! kind_lock k in
          do! ! (Say (MsgGot k id)) in
          let! c := ! (GetCount id) in
          do! ! (SetCount id (c + 1)) in
          do! random_sleep in
          do! ! (Say (MsgDone k id)) in
          do! kind_unlock k in
          Ret (inl tt)) tt in
  do! ! (Say (MsgExiting k id)) in
  ! (Finish id).

Definition reader_thread (id : nat) : itree rwE unit := kind_thread Rd id.
Definition writer_thread (id : nat) : itree rwE unit := kind_thread Wr id.

Definition THREADS : nat := 4.

(** The thread that pthread_create starts. *)
Definition thread_start (k : kind) (id : nat) : itree rwE unit :=
  do! ! (BeginT id) in
  kind_thread k id.

(** pthread_create of [n] threads from [i] on; its result is not checked, and it
    is taken to succeed. *)
Fixpoint create_threads (i n : nat) : itree rwE unit :=
  match n with
  | O => Ret tt
  | S n => do! ! (CreateT i) in create_threads (S i) n
  end.

(** sum += counts[i], in uintptr_t. *)
Definition add_count (sum c : Z) : Z := (sum + c) mod 2 ^ 64.

(** [n] iterations of the join loop from thread [i]. *)
Fixpoint join_sum (i n : nat) (sum : Z) : itree rwE Z :=
  match n with
  | O => Ret sum
  | S n =>
      do! ! (JoinT i) in
      let! c := ! (GetCount i) in
      join_sum (S i) n (add_count sum c)
  end.

(** [n] iterations of the printing loop from thread [i]. *)
Fixpoint print_shares (i n : nat) (sum : Z) : itree rwE unit :=
  match n with
  | O => Ret tt
  | S n =>
      let! c := ! (GetCount i) in
      do! ! (Say (MsgShare i c sum)) in
      print_shares (S i) n sum
  end.

(** main once the lock is made, with [n] threads. *)
Definition main_rest (n : nat) : itree rwE unit :=
  do! create_threads 0 n in
  do! ! (Sleep 1) in
  do! set_done in
  let! sum := join_sum 0 n 0 in
  do! rwlock_destroy in
  print_shares 0 n sum.

Definition user_main (n : nat) : itree rwE unit :=
  do! rwlock_new in
  main_rest n.

(** The threads, thread [i] of the kind [ks] gives it, and main. *)
Definition user_process (ks : list kind) (w : rwworld) : pool rwE rwworld message :=
  Pool (imap (λ i k, thread_start k i) ks ++ [user_main (length ks)]) w [].

(** What main creates. *)
Definition user_kinds : list kind := [Rd; Rd; Wr; Wr].
End lock.
