(* ===== verification/RwlockInv.v ===== *)
(** * The readers-writer lock under all interleavings

    The invariant that the threads of user.c keep whatever the policy, provided
    the policy is sound: it lets a thread in only when that excludes nobody,
    and makes it wait only while somebody will wake it ([SoundPolicy]; the two
    real policies are instances).  From it: mutual exclusion, no deadlock, and
    that the lock is destroyed only when nobody uses it. *)
From S2P Require Import Prelude Prog Pools Rwlock.
Local Open Scope Z_scope.
Local Open Scope prog_scope.

Abbreviation fields := (rwfield → Z).
Abbreviation rwtrace := (list (nat * message)).

(** ** What a policy promises *)

(** [reads m t h]: [t] only reads counters, at most [m] of them, and on frozen
    counters [F] it returns [h F]. *)
Inductive reads : nat → itree rwE Z → (fields → Z) → Prop :=
  | reads_ret m t v : observe t = RetF v → reads m t (λ _, v)
  | reads_get m t f k h :
      observe t = VisF (GetF f) k → (∀ x, reads m (k x) (h x)) → reads (S m) t (λ F, h (F f) F).

(** A thread of kind [k] may join those inside. *)
Definition compatible (k : kind) (F : fields) : Prop :=
  F (FActive Wr) = 0 ∧ (k = Wr → F (FActive Rd) = 0).

(** Somebody is, or will be, inside whose leaving wakes a waiter of kind [k]. *)
Definition blocked (k : kind) (F : fields) : Prop :=
  F (FActive Wr) ≠ 0 ∨ F (match k with Rd => FWaiting Wr | Wr => FActive Rd end) ≠ 0.

Class SoundPolicy `(!Policy) := {
  wait_val : kind → fields → Z;
  wait_reads : ∀ k, reads 2 (kind_wait k) (wait_val k);
  wait_safe : ∀ k F, wait_val k F = 0 → compatible k F;
  wait_live : ∀ k F, wait_val k F ≠ 0 → blocked k F
}.

Definition either_val (f g : rwfield) (F : fields) : Z :=
  if negb (F f =? 0) then 1 else c_bool (negb (F g =? 0)).

Lemma either_reads f g : reads 2 (either f g) (either_val f g).
Proof.
  eapply (reads_get _ _ f _ (λ a F, if negb (a =? 0) then 1 else c_bool (negb (F g =? 0)))).
  { unfold either. rewrite observe_bind. reflexivity. }
  intros a. destruct (negb (a =? 0)) eqn:Ha.
  - apply reads_ret. rewrite observe_bind. cbn. by rewrite Ha.
  - eapply (reads_get _ _ g _ (λ b _, c_bool (negb (b =? 0)))).
    { rewrite observe_bind. cbn. rewrite Ha. fold (@observe rwE Z). rewrite observe_bind. reflexivity. }
    intros b. by apply reads_ret.
Qed.

Lemma either_val_zero f g F : either_val f g F = 0 → F f = 0 ∧ F g = 0.
Proof.
  unfold either_val, c_bool. destruct (Z.eqb_spec (F f) 0), (Z.eqb_spec (F g) 0); cbn; done.
Qed.
Lemma either_val_nonzero f g F : either_val f g F ≠ 0 → F f ≠ 0 ∨ F g ≠ 0.
Proof.
  unfold either_val, c_bool. destruct (Z.eqb_spec (F f) 0), (Z.eqb_spec (F g) 0); cbn; auto.
Qed.

#[export, refine] Instance rstarve_sound : SoundPolicy policy_rstarve := {|
  wait_val k := match k with
    | Rd => either_val (FActive Wr) (FWaiting Wr)
    | Wr => either_val (FActive Wr) (FActive Rd) end |}.
Proof.
  - intros []; apply either_reads.
  - intros [] F [? ?]%either_val_zero; by split.
  - intros [] F H%either_val_nonzero; exact H.
Defined.

#[export, refine] Instance wstarve_sound : SoundPolicy policy_wstarve := {|
  wait_val k := match k with
    | Rd => λ F, F (FActive Wr)
    | Wr => either_val (FActive Wr) (FActive Rd) end |}.
Proof.
  - intros []; [|apply either_reads].
    eapply (reads_get _ _ (FActive Wr) _ (λ a _, a)); [done|]. intros x. by apply reads_ret.
  - intros [] F H; [by split|]. by apply either_val_zero in H as [? ?].
  - intros [] F H; [by left|]. by apply either_val_nonzero in H.
Defined.

(** ** Where a thread is *)

(** Holding the mutex, in the order of the code: about to count itself as
    waiting, waiting, about to count itself as active, entered; about to leave,
    waking the readers, the writers, done. *)
Inductive phase :=
  | PEnter (k : kind) | PWait (k : kind) | PAcq (k : kind) | PGot (k : kind)
  | PRel (k : kind) | PWakeR | PWakeR1 | PWakeW | PWakeW1 | PLeave.

(** [Cs p F] holds the mutex, and the counters are [F]. *)
Inductive stage :=
  | Before | Out | Cs (p : phase) (F : fields) | Asleep (k : kind) (t : nat)
  | Held (k : kind) | Said (k : kind) | Tally (k : kind) (c : Z) | Counted (k : kind)
  | DHeld | Exited
  (* main: has created [c] threads; has joined [m] and added up [z]; has joined
     one more; has freed the lock, printed [p] lines and read a count *)
  | MCreate (c : nat) | MDHeld | MJoin (m : nat) (z : Z) | MTook (m : nat) (z : Z)
  | MFreed (p : nat) (z : Z) (c : option Z).

Definition one (b : bool) : nat := if b then 1 else 0.
Definition is_kind (k k' : kind) : nat := match k, k' with Rd, Rd | Wr, Wr => 1 | _, _ => 0 end.

Definition active (k : kind) (s : stage) : nat :=
  match s with
  | Held k' | Said k' | Tally k' _ | Counted k' | Cs (PGot k') _ | Cs (PRel k') _ => is_kind k k'
  | _ => 0
  end.
Definition waiting (k : kind) (s : stage) : nat :=
  match s with Asleep k' _ | Cs (PWait k') _ => is_kind k k' | _ => 0 end.
Definition in_cs (s : stage) : nat := match s with Cs _ _ => 1 | _ => 0 end.
Definition holds_d (s : stage) : nat := match s with DHeld | MDHeld => 1 | _ => 0 end.
Definition is_main (s : stage) : bool :=
  match s with MCreate _ | MDHeld | MJoin _ _ | MTook _ _ | MFreed _ _ _ => true | _ => false end.
(** It will not use the lock any more. *)
Definition gone (s : stage) : bool := match s with Exited | MFreed _ _ _ => true | _ => false end.
(** It is about to wake the sleepers of kind [k], or to become a writer that
    will. *)
Definition excuse (k : kind) (s : stage) : nat :=
  match s, k with
  | Cs (PWakeR | PWakeR1) _, _ | Cs (PWakeW | PWakeW1) _, Wr | Cs (PAcq Wr) _, Rd => 1
  | _, _ => 0
  end.
(** It has announced that it is inside, as [k]. *)
Definition said (k : kind) (s : stage) : nat :=
  match s with Said k' | Tally k' _ | Counted k' => is_kind k k' | _ => 0 end.
(** It has announced it and not counted it. *)
Definition due (s : stage) : Z := match s with Said _ | Tally _ _ => 1 | _ => 0 end.

Definition phase_ok (p : phase) (F : fields) : Prop :=
  match p with PAcq k => compatible k F | _ => True end.

Abbreviation ghost := (nat * stage)%type.
Definition tot (f : stage → nat) (gs : list ghost) : nat := total (λ g, f g.2) gs.

(** How often a thread announced that it is inside. *)
Definition gots (h : list message) : Z :=
  Z.of_nat (length (List.filter (λ m, match m with MsgGot _ _ => true | _ => false end) h)).

(** The sum of the counts, as main computes it. *)
Definition sum_counts (cs : list Z) : Z := foldl add_count 0 cs.

(** The first [p] lines main prints. *)
Definition shares (cs : list Z) (z : Z) (p : nat) : list message :=
  map (λ i, MsgShare i (default 0 (cs !! i)) z) (seq 0 p).
Arguments shares : simpl never.

(** What a thread in stage [s] printed, and its cell of counts. *)
Definition hist_ok (s : stage) (h : list message) (c : option Z) : Prop :=
  (∀ k j, last h = Some (MsgGot k j) → said k s = 1%nat) ∧
  (is_main s = false → c = Some (gots h - due s)) ∧
  match s with Tally _ c' => c = Some c' | _ => True end.

Section invariant.
Context `{Pol : !Policy, Snd : !SoundPolicy Pol} (n : nat).

(** What main, in stage [s], has done and printed. *)
Definition main_ok (s : stage) (h : list message) (w : rwworld) : Prop :=
  let all_created := ∀ j, (j < n)%nat → j ∈ u_created w in
  match s with
  | MCreate c => (c ≤ n)%nat ∧ (∀ j, (j < c)%nat → j ∈ u_created w) ∧ h = []
  | MDHeld => all_created ∧ h = []
  | MJoin m z => (m ≤ n)%nat ∧ all_created ∧ (∀ j, (j < m)%nat → j ∈ u_exited w) ∧
      z = sum_counts (take m (u_counts w)) ∧ h = []
  | MTook m z => (m < n)%nat ∧ all_created ∧ (∀ j, (j ≤ m)%nat → j ∈ u_exited w) ∧
      z = sum_counts (take m (u_counts w)) ∧ h = []
  | MFreed p z c => (p ≤ n)%nat ∧ all_created ∧ (∀ j, (j < n)%nat → j ∈ u_exited w) ∧ rw_live w = false ∧
      z = sum_counts (u_counts w) ∧ h = shares (u_counts w) z p ∧ (∀ x, c = Some x → x = default 0 (u_counts w !! p))
  | _ => True
  end.

Record rwinv (tr : rwtrace) (gs : list ghost) (w : rwworld) : Prop := {
  ri_len : length gs = S n;
  ri_who : ∀ i id s, gs !! i = Some (id, s) → id = i ∧ is_main s = bool_decide (i = n);
  ri_active : ∀ k, rw_field w (FActive k) = Z.of_nat (tot (active k) gs);
  ri_waiting : ∀ k, rw_field w (FWaiting k) = Z.of_nat (tot (waiting k) gs);
  ri_mu : tot in_cs gs = one (rw_mu w);
  ri_dm : tot holds_d gs = one (u_dmutex w);
  ri_excl : (tot (active Wr) gs ≤ 1)%nat ∧ (tot (active Wr) gs = 0 ∨ tot (active Rd) gs = 0)%nat;
  ri_fields : ∀ i id p F, gs !! i = Some (id, Cs p F) → rw_field w = F ∧ phase_ok p F;
  ri_sleep : ∀ k t, t ∈ rw_sleep w k → ∃ i id, gs !! i = Some (id, Asleep k t);
  ri_woken : ∀ k t, t ∈ rw_sleep w k → blocked k (rw_field w) ∨ tot (excuse k) gs ≠ 0%nat;
  ri_exited : ∀ i, i ∈ u_exited w ↔ ∃ id, gs !! i = Some (id, Exited);
  ri_main : ∀ i id s, gs !! i = Some (id, s) → main_ok s (labels_of i tr) w;
  ri_live : rw_live w = true ∨ ∀ i g, gs !! i = Some g → gone g.2 = true;
  ri_ub : rw_ub w = false;
  ri_aborted : rw_aborted w = false;
  ri_ncounts : length (u_counts w) = n;
  ri_hist : ∀ i id s, gs !! i = Some (id, s) → hist_ok s (labels_of i tr) (u_counts w !! i)
}.

(** ** One step *)

(** Thread [i] goes from stage [s] to [s'] and prints [ls] while the world goes
    from [w] to [w']. *)
Record moves (i : nat) (s s' : stage) (ls : list message) (w w' : rwworld) : Prop := {
  mv_main : is_main s' = is_main s;
  mv_active : ∀ k, rw_field w' (FActive k) + Z.of_nat (active k s) =
    rw_field w (FActive k) + Z.of_nat (active k s');
  mv_waiting : ∀ k, rw_field w' (FWaiting k) + Z.of_nat (waiting k s) =
    rw_field w (FWaiting k) + Z.of_nat (waiting k s');
  mv_mu : (one (rw_mu w') + in_cs s = one (rw_mu w) + in_cs s')%nat;
  mv_dm : (one (u_dmutex w') + holds_d s = one (u_dmutex w) + holds_d s')%nat;
  mv_excl : (∀ k, (active k s' ≤ active k s)%nat) ∨
    ∃ k, compatible k (rw_field w) ∧ ∀ k', active k' s' = is_kind k' k;
  mv_fields : rw_field w' = rw_field w ∨ in_cs s = 1%nat;
  mv_phase : ∀ p F, s' = Cs p F → rw_field w' = F ∧ phase_ok p F;
  mv_sleep : ∀ k t, t ∈ rw_sleep w' k → s' = Asleep k t ∨ (t ∈ rw_sleep w k ∧ s ≠ Asleep k t);
  mv_woken : ∀ k t, t ∈ rw_sleep w' k → blocked k (rw_field w') ∨ excuse k s' ≠ 0%nat ∨
    (t ∈ rw_sleep w k ∧ (excuse k s ≤ excuse k s')%nat ∧ (blocked k (rw_field w) → blocked k (rw_field w')));
  mv_running : s ≠ Exited ∧ (gone s = true → gone s' = true ∧ rw_ub w' = rw_ub w);
  mv_exited : ∀ j, j ∈ u_exited w' ↔ j ∈ u_exited w ∨ (j = i ∧ s' = Exited);
  mv_created : u_created w ⊆ u_created w';
  mv_main_ok : ∀ h, main_ok s h w → main_ok s' (h ++ ls) w';
  mv_live : rw_live w' = rw_live w ∨ (is_main s' = true ∧ gone s' = true ∧ ∀ j, (j < n)%nat → j ∈ u_exited w);
  mv_ub : rw_ub w' = rw_ub w ∨ rw_ub w' = touch w;
  mv_aborted : rw_aborted w' = rw_aborted w;
  mv_ncounts : length (u_counts w') = length (u_counts w);
  mv_counts : ∀ j, j ≠ i → u_counts w' !! j = u_counts w !! j;
  mv_hist : ∀ h, hist_ok s h (u_counts w !! i) → hist_ok s' (h ++ ls) (u_counts w' !! i)
}.

Lemma rw_tot_insert f gs i g g' : gs !! i = Some g →
  (tot f (<[i := g']> gs) + f g.2 = tot f gs + f g'.2)%nat.
Proof. apply (total_insert (λ g : ghost, f g.2)). Qed.

(** Another thread's ghost state, after thread [i]'s changed. *)
Lemma insert_cases (gs : list ghost) i g g' j x : gs !! i = Some g → <[i := g']> gs !! j = Some x →
  (j = i ∧ x = g') ∨ (j ≠ i ∧ gs !! j = Some x).
Proof.
  intros Hi. rewrite list_lookup_insert. case_decide as Hc.
  - intros [= <-]. left. by destruct Hc.
  - intros Hj. right. split; [|done]. intros ->. apply Hc. split; [done|]. by eapply lookup_lt_Some.
Qed.

Lemma only_cs tr gs w i id s j id' p F : rwinv tr gs w → gs !! i = Some (id, s) → in_cs s = 1%nat →
  gs !! j = Some (id', Cs p F) → i = j.
Proof.
  intros HI Hi Hs Hj. destruct (decide (i = j)) as [|Hne]; [done|].
  pose proof (total_two (λ g : ghost, in_cs g.2) _ _ _ _ _ Hne Hi Hj) as H2.
  pose proof (ri_mu _ _ _ HI) as Hm. unfold tot in Hm. cbn in H2. destruct (rw_mu w); cbn in Hm; lia.
Qed.

Lemma sleeper_waits tr gs w k t : rwinv tr gs w → t ∈ rw_sleep w k → rw_field w (FWaiting k) ≠ 0.
Proof.
  intros HI Ht. destruct (ri_sleep _ _ _ HI k t Ht) as (i & id & Hi).
  pose proof (total_in (λ g : ghost, waiting k g.2) _ _ _ Hi) as H. cbn in H.
  replace (is_kind k k) with 1%nat in H by (by destruct k).
  rewrite (ri_waiting _ _ _ HI). unfold tot. lia.
Qed.
(** A thread that moves uses a live lock. *)
Lemma moving_live tr gs w i id s : rwinv tr gs w → gs !! i = Some (id, s) → gone s = false → rw_live w = true.
Proof.
  intros HI Hi Hs. destruct (ri_live _ _ _ HI) as [|H]; [done|]. specialize (H _ _ Hi). cbn in H. congruence.
Qed.

Section step.
Context tr gs w i id s s' ls w' (HI : rwinv tr gs w) (Hi : gs !! i = Some (id, s))
  (Hm : moves i s s' ls w w').

Lemma step_excl : let gs' := <[i := (id, s')]> gs in
  (tot (active Wr) gs' ≤ 1)%nat ∧ (tot (active Wr) gs' = 0 ∨ tot (active Rd) gs' = 0)%nat.
Proof.
  pose proof (rw_tot_insert (active Wr) _ _ _ (id, s') Hi) as Ew.
  pose proof (rw_tot_insert (active Rd) _ _ _ (id, s') Hi) as Er. cbn in Ew, Er |- *.
  pose proof (ri_excl _ _ _ HI) as [E1 E2].
  destruct (mv_excl _ _ _ _ _ _ Hm) as [Hle|(k & [C1 C2] & Hk)].
  - pose proof (Hle Wr). pose proof (Hle Rd). lia.
  - pose proof (ri_active _ _ _ HI) as Ha. rewrite Ha in C1, C2. rewrite !Hk in *.
    destruct k; cbn in *; [lia|]. specialize (C2 eq_refl). lia.
Qed.

Lemma step_woken k t : t ∈ rw_sleep w' k →
  blocked k (rw_field w') ∨ tot (excuse k) (<[i := (id, s')]> gs) ≠ 0%nat.
Proof.
  intros Ht. pose proof (rw_tot_insert (excuse k) _ _ _ (id, s') Hi) as E. cbn in E.
  pose proof (total_in (λ g : ghost, excuse k g.2) _ _ _ Hi) as Hle. cbn in Hle. fold (tot (excuse k) gs) in Hle.
  destruct (mv_woken _ _ _ _ _ _ Hm k t Ht) as [?|[?|(Ht' & He & Hb)]]; [by left|right; lia|].
  destruct (ri_woken _ _ _ HI k t Ht') as [?|?]; [left; auto|right; lia].
Qed.

Lemma step_exited j : j ∈ u_exited w' ↔ ∃ id', <[i := (id, s')]> gs !! j = Some (id', Exited).
Proof.
  rewrite (mv_exited _ _ _ _ _ _ Hm), (ri_exited _ _ _ HI).
  destruct (mv_running _ _ _ _ _ _ Hm) as [Hne _]. split.
  - intros [[id' Hj]|[-> ->]].
    + exists id'. rewrite list_lookup_insert_ne; [done|]. intros <-. rewrite Hi in Hj. by simplify_eq.
    + exists id. by rewrite list_lookup_insert_eq by (by eapply lookup_lt_Some).
  - intros [id' Hj]. destruct (insert_cases _ _ _ _ _ _ Hi Hj) as [[-> [= -> Hs']]|[_ ?]]; eauto.
Qed.

Lemma step_live : rw_live w' = true ∨ ∀ j g, <[i := (id, s')]> gs !! j = Some g → gone g.2 = true.
Proof.
  destruct (mv_running _ _ _ _ _ _ Hm) as [_ Hgone].
  destruct (mv_live _ _ _ _ _ _ Hm) as [E|(Hmain & Hg & Hall)].
  - rewrite E. destruct (ri_live _ _ _ HI) as [?|H]; [by left|right]. intros j g Hj.
    destruct (insert_cases _ _ _ _ _ _ Hi Hj) as [[-> ->]|[_ Hj']]; [|by eapply H]. apply Hgone, (H _ _ Hi).
  - right. intros j g Hj. destruct (insert_cases _ _ _ _ _ _ Hi Hj) as [[-> ->]|[Hne Hj']]; [done|].
    assert (i = n) as ->.
    { destruct (ri_who _ _ _ HI _ _ _ Hi) as [_ H]. rewrite <- (mv_main _ _ _ _ _ _ Hm), Hmain in H.
      by apply eq_sym, bool_decide_eq_true in H. }
    assert (j < S n)%nat by (rewrite <- (ri_len _ _ _ HI); by eapply lookup_lt_Some).
    destruct (proj1 (ri_exited _ _ _ HI j)) as [id' Hex]; [apply Hall; lia|].
    rewrite Hj' in Hex. by simplify_eq.
Qed.

(** What main has done stays so when another thread moves. *)
Lemma main_ok_other j id' s1 h : j ≠ i → gs !! j = Some (id', s1) → main_ok s1 h w → main_ok s1 h w'.
Proof.
  intros Hne Hj. pose proof (mv_created _ _ _ _ _ _ Hm) as Hcr.
  assert (Hex : ∀ k, k ∈ u_exited w → k ∈ u_exited w') by (intros k Hk; apply (mv_exited _ _ _ _ _ _ Hm); by left).
  assert (Hi' : i ∉ u_exited w).
  { intros [id2 Hin]%(ri_exited _ _ _ HI). rewrite Hi in Hin. simplify_eq. by destruct (mv_running _ _ _ _ _ _ Hm). }
  assert (Htake : ∀ m, (∀ k, (k < m)%nat → k ∈ u_exited w) → take m (u_counts w') = take m (u_counts w)).
  { intros m Hm'. apply list_eq. intros k. destruct (decide (k < m)%nat) as [Hk|]; [|by rewrite !lookup_take_ge by lia].
    rewrite !lookup_take_lt by done. apply (mv_counts _ _ _ _ _ _ Hm). intros ->. by apply Hi', Hm'. }
  destruct s1; try done; cbn.
  - intros (? & ? & ?). split_and!; auto.
  - intros (? & ?). split_and!; auto.
  - intros (? & ? & ? & -> & ?). rewrite Htake by done. split_and!; auto.
  - intros (? & ? & ? & -> & ?). rewrite Htake by (intros; auto with lia). split_and!; auto.
  - intros (_ & _ & Hall & _). exfalso. apply Hi', Hall.
    apply lookup_lt_Some in Hi as Hlt. rewrite (ri_len _ _ _ HI) in Hlt.
    destruct (ri_who _ _ _ HI _ _ _ Hj) as [_ Hw]. cbn in Hw. apply eq_sym, bool_decide_eq_true in Hw. lia.
Qed.

Lemma rwinv_step : rwinv (tr ++ map (pair i) ls) (<[i := (id, s')]> gs) w'.
Proof.
  assert (Ht : ∀ f, (tot f (<[i := (id, s')]> gs) + f s = tot f gs + f s')%nat)
    by (intros f; exact (rw_tot_insert f _ _ _ (id, s') Hi)).
  destruct (ri_who _ _ _ HI _ _ _ Hi) as [Hid Hmain].
  constructor.
  - rewrite length_insert. apply HI.
  - intros j id' s1 Hj. destruct (insert_cases _ _ _ _ _ _ Hi Hj) as [[-> [= -> ->]]|[_ Hj']].
    + split; [done|]. by rewrite (mv_main _ _ _ _ _ _ Hm).
    + by apply (ri_who _ _ _ HI).
  - intros k. pose proof (mv_active _ _ _ _ _ _ Hm k). pose proof (ri_active _ _ _ HI k).
    specialize (Ht (active k)). lia.
  - intros k. pose proof (mv_waiting _ _ _ _ _ _ Hm k). pose proof (ri_waiting _ _ _ HI k).
    specialize (Ht (waiting k)). lia.
  - pose proof (mv_mu _ _ _ _ _ _ Hm). pose proof (ri_mu _ _ _ HI). specialize (Ht in_cs). lia.
  - pose proof (mv_dm _ _ _ _ _ _ Hm). pose proof (ri_dm _ _ _ HI). specialize (Ht holds_d). lia.
  - apply step_excl.
  - intros j id' p F Hj. destruct (insert_cases _ _ _ _ _ _ Hi Hj) as [[-> [= -> Hs']]|[Hne Hj']].
    + by apply (mv_phase _ _ _ _ _ _ Hm).
    + destruct (mv_fields _ _ _ _ _ _ Hm) as [->|Hcs]; [by eapply (ri_fields _ _ _ HI)|].
      destruct Hne. symmetry. by eapply only_cs.
  - intros k t Hkt. destruct (mv_sleep _ _ _ _ _ _ Hm k t Hkt) as [->|[Hold Hne]].
    + exists i, id. by rewrite list_lookup_insert_eq by (by eapply lookup_lt_Some).
    + destruct (ri_sleep _ _ _ HI k t Hold) as (j & id' & Hj). exists j, id'.
      rewrite list_lookup_insert_ne; [done|]. intros <-. rewrite Hi in Hj. by simplify_eq.
  - apply step_woken.
  - apply step_exited.
  - intros j id' s1 Hj. rewrite labels_of_app.
    destruct (insert_cases _ _ _ _ _ _ Hi Hj) as [[-> [= -> ->]]|[Hne Hj']].
    + rewrite labels_of_self. apply (mv_main_ok _ _ _ _ _ _ Hm). by eapply (ri_main _ _ _ HI).
    + rewrite labels_of_other, app_nil_r by done. eapply main_ok_other; [done..|]. by eapply (ri_main _ _ _ HI).
  - apply step_live.
  - destruct (mv_running _ _ _ _ _ _ Hm) as [_ Hgone]. destruct (gone s) eqn:Hg.
    { destruct (Hgone eq_refl) as [_ ->]. apply HI. }
    destruct (mv_ub _ _ _ _ _ _ Hm) as [->| ->]; [apply HI|]. unfold touch.
    by rewrite (ri_ub _ _ _ HI), (moving_live _ _ _ _ _ _ HI Hi).
  - rewrite (mv_aborted _ _ _ _ _ _ Hm). apply HI.
  - rewrite (mv_ncounts _ _ _ _ _ _ Hm). apply HI.
  - intros j id' s1 Hj. rewrite labels_of_app.
    destruct (insert_cases _ _ _ _ _ _ Hi Hj) as [[-> [= -> ->]]|[Hne Hj']].
    + rewrite labels_of_self. apply (mv_hist _ _ _ _ _ _ Hm). by eapply (ri_hist _ _ _ HI).
    + rewrite labels_of_other, app_nil_r, (mv_counts _ _ _ _ _ _ Hm) by done. by eapply (ri_hist _ _ _ HI).
Qed.
End step.

(** ** The events of a thread *)

(** What a thread may be about to do, by stage. *)
Definition rw_waits X (g : ghost) (e : rwE X) : Prop :=
  match e with
  | MuLock => g.2 = Out ∨ ∃ k, g.2 = Held k
  | CondWake k t => g.2 = Asleep k t
  | DLock => g.2 = Out ∨ g.2 = MCreate n
  | BeginT j => g = (j, Before)
  | JoinT j => (∃ z, g.2 = MJoin j z) ∧ (j < n)%nat
  | MuUnlock | CondSleep _ | Broadcast _ | GetF _ | SetF _ _ => in_cs g.2 = 1%nat
  | DUnlock | GetDone => holds_d g.2 = 1%nat
  | SetDone v => holds_d g.2 = 1%nat ∧ v = 1
  | RwDestroy | RwFree => ∃ z, g.2 = MJoin n z
  | Usleep | Sleep _ | GetCount _ | SetCount _ _ | Say _ | CreateT _ | Finish _ => True
  | _ => False
  end.

Lemma ok_event m {X} (e : rwE X) id s (Q : X → ghost → Prop) :
  rw_waits X (id, s) e →
  (∀ tr gs w w' x, rwinv tr gs w → gs !! id = Some (id, s) → sys e w = Some (w', x) →
     ∃ s', moves id s s' (lab e x) w w' ∧ Q x (id, s')) →
  ok rwinv rw_waits m (perform e) (id, s) Q.
Proof.
  intros HA H. apply ok_trigger; [done|]. intros tr gs w w' x i Hi HI Hs.
  assert (id = i) as -> by (by eapply ri_who in Hi as [? _]).
  destruct (H tr gs w w' x HI Hi Hs) as (s' & Hm & HQ). exists (i, s'). split; [by eapply rwinv_step|done].
Qed.

Lemma hist_ok_quiet s s' h c : (∀ k, said k s' = said k s) → due s' = due s → is_main s' = is_main s →
  match s' with Tally _ _ => False | _ => True end → hist_ok s h c → hist_ok s' (h ++ []) c.
Proof.
  intros Hs Hd Hm Ht (H1 & H2 & _). rewrite app_nil_r. split; [|split].
  - intros k j Hl. rewrite Hs. by eapply H1.
  - rewrite Hm, Hd. done.
  - by destruct s'.
Qed.

(** Which phase locking the mutex starts. *)
Inductive rw_mulock : stage → phase → Prop :=
  | mulock_out k : rw_mulock Out (PEnter k)
  | mulock_held k : rw_mulock (Held k) (PRel k).

(** Most obligations of a move hold by computation. *)
Ltac mv :=
  intros; subst; cbn in *;
  first [ done | lia | (by auto) | (by (try intros []; cbn; lia)) | (by left; intros []; cbn; lia)
        | (by eapply hist_ok_quiet; eauto) | set_solver ].
Ltac moves := constructor; cbn; try solve [mv].
(** Run event by event: the world's answer to the next event. *)
Ltac event := intros tr gs w w' x HI Hi Hs; cbn in Hs.
Ltac to s := exists s; split; [moves|cbn; eauto].


Lemma ok_mulock m id s p : rw_mulock s p →
  ok rwinv rw_waits m (perform MuLock) (id, s) (λ _ g, ∃ F, g = (id, Cs p F)).
Proof.
  intros Hsp. apply ok_event; [destruct Hsp; cbn; eauto|]. event.
  destruct (rw_mu w) eqn:Hmu; simplify_eq. to (Cs p (rw_field w)).
  all: destruct Hsp; rewrite ?Hmu; mv.
Qed.

Lemma ok_getf m id p F f :
  ok rwinv rw_waits m (perform (GetF f)) (id, Cs p F) (λ x g, x = F f ∧ g = (id, Cs p F)).
Proof.
  apply ok_event; [done|]. event. simplify_eq.
  destruct (ri_fields _ _ _ HI _ _ _ _ Hi) as [<- Hp]. to (Cs p (rw_field w)).
Qed.

(** Evaluating the policy. *)
Lemma ok_reads m id p F b t h : reads b t h →
  ok rwinv rw_waits m t (id, Cs p F) (λ x g, x = h F ∧ g = (id, Cs p F)).
Proof.
  intros H. revert m. induction H as [b t v Ht|b t f k h Ht _ IH]; intros [|m]; try done; cbn; rewrite Ht; [done|].
  pose proof (ok_getf 2 id p F f) as Hg. cbn in Hg. destruct Hg as [HA Hg]. split; [done|]. intros tr gs w w' x i Hi HI Hs.
  destruct (Hg tr gs w w' x i Hi HI Hs) as (g' & HI' & -> & ->).
  exists (id, Cs p F). split; [done|]. apply IH.
Qed.

(** add_field changes the counter and moves on to phase [p']. *)
Definition adds (id : nat) (p p' : phase) (F : fields) (f : rwfield) (d : Z) : Prop :=
  ∀ tr gs w, rwinv tr gs w → gs !! id = Some (id, Cs p F) → rw_field w = F → phase_ok p F →
    moves id (Cs p F) (Cs p' (upd F f (F f + d))) [] w
      (set_lock (upd F f (F f + d)) (rw_mu w) (rw_sleep w) (rw_ticket w) (rw_spurious w)
         (rw_live w) (touch w) w).

Lemma ok_add_field m id p p' F f d : adds id p p' F f d →
  ok rwinv rw_waits m (add_field f d) (id, Cs p F) (λ _ g, g = (id, Cs p' (upd F f (F f + d)))).
Proof.
  intros Hadds. apply ok_bind. eapply ok_conseq; [apply ok_getf|]. intros x g [-> ->].
  apply ok_event; [done|]. event. destruct (ri_fields _ _ _ HI _ _ _ _ Hi) as [HF Hp].
  exists (Cs p' (upd F f (F f + d))). split; [|done]. simplify_eq. by eapply Hadds.
Qed.

Lemma fields_nonneg tr gs w f : rwinv tr gs w → 0 ≤ rw_field w f.
Proof. intros HI. destruct f; [rewrite (ri_active _ _ _ HI)|rewrite (ri_waiting _ _ _ HI)]; lia. Qed.

(** Arithmetic on the four counters. *)
Ltac counters HI :=
  pose proof (fields_nonneg _ _ _ (FActive Rd) HI); pose proof (fields_nonneg _ _ _ (FActive Wr) HI);
  pose proof (fields_nonneg _ _ _ (FWaiting Rd) HI); pose proof (fields_nonneg _ _ _ (FWaiting Wr) HI);
  repeat match goal with k : kind |- _ => destruct k | |- ∀ _ : kind, _ => intros [] end;
  intros; unfold blocked, compatible, upd in *; cbn in *; naive_solver lia.

Lemma adds_enter id k F : adds id (PEnter k) (PWait k) F (FWaiting k) 1.
Proof. intros tr gs w HI Hi <- Hp. moves; counters HI. Qed.

Lemma adds_unwait id k F : compatible k F → adds id (PWait k) (PAcq k) F (FWaiting k) (-1).
Proof. intros Hc tr gs w HI Hi <- Hp. moves; counters HI. Qed.

Lemma adds_acquire id k F : adds id (PAcq k) (PGot k) F (FActive k) 1.
Proof. intros tr gs w HI Hi <- Hp. moves; counters HI. Qed.

Lemma adds_release id k F : adds id (PRel k) PWakeR F (FActive k) (-1).
Proof. intros tr gs w HI Hi <- Hp. moves; counters HI. Qed.

(** Which stage unlocking the mutex leads to. *)
Inductive rw_muunlock : phase → stage → Prop :=
  | muunlock_got k : rw_muunlock (PGot k) (Held k)
  | muunlock_leave : rw_muunlock PLeave Out.

Lemma cs_mu tr gs w i id p F : rwinv tr gs w → gs !! i = Some (id, Cs p F) → rw_mu w = true.
Proof.
  intros HI Hi. pose proof (total_in (λ g : ghost, in_cs g.2) _ _ _ Hi) as H. cbn in H.
  pose proof (ri_mu _ _ _ HI) as Hm. unfold tot in Hm. destruct (rw_mu w); cbn in *; [done|lia].
Qed.

Lemma ok_muunlock m id p F s : rw_muunlock p s →
  ok rwinv rw_waits m (perform MuUnlock) (id, Cs p F) (λ _ g, g = (id, s)).
Proof.
  intros Hps. apply ok_event; [done|]. event. simplify_eq. pose proof (cs_mu _ _ _ _ _ _ _ HI Hi) as Hmu.
  to s. all: destruct Hps; rewrite ?Hmu; mv.
Qed.

Lemma ok_cond_wait m id k F : wait_val k F ≠ 0 →
  ok rwinv rw_waits m (cond_wait k) (id, Cs (PWait k) F) (λ _ g, ∃ F', g = (id, Cs (PWait k) F')).
Proof.
  intros Hv. apply ok_bind. eapply (ok_conseq _ _ _ _ _ (λ t g, g = (id, Asleep k t))).
  - apply ok_event; [done|]. event. pose proof (cs_mu _ _ _ _ _ _ _ HI Hi) as Hmu.
    destruct (ri_fields _ _ _ HI _ _ _ _ Hi) as [<- _]. pose proof (wait_live k _ Hv) as Hb.
    assert (Hsl : ∃ sl sp, w' = set_lock (rw_field w) false sl (S (rw_ticket w)) sp (rw_live w) (touch w) w ∧
      x = rw_ticket w ∧ ∀ k' t, t ∈ sl k' → t ∈ rw_sleep w k' ∨ (k' = k ∧ t = x)).
    { destruct (rw_spurious w) as [|[] sp]; simplify_eq; eexists _, _; (split; [reflexivity|]); split; try done.
      all: intros k' t; unfold upd; repeat case_decide; set_solver. }
    destruct Hsl as (sl & sp & -> & -> & Hsl). to (Asleep k (rw_ticket w)).
    all: rewrite ?Hmu; mv.
  - intros t g ->. apply ok_event; [done|]. event.
    destruct (rw_mu w) eqn:Hmu; [done|]. destruct (bool_decide _) eqn:Ht; simplify_eq/=.
    apply bool_decide_eq_false in Ht. to (Cs (PWait k) (rw_field w)).
    all: rewrite ?Hmu; mv.
Qed.

(** Reading who waits, to wake them. *)
Lemma ok_wake_test m id k p F : (k, p) = (Rd, PWakeR) ∨ (k, p) = (Wr, PWakeW) →
  ok rwinv rw_waits m (perform (GetF (FWaiting k))) (id, Cs p F) (λ x g, x = F (FWaiting k) ∧
    g = (id, Cs (match k, x =? 0 with Rd, true => PWakeW | Rd, false => PWakeR1
                 | Wr, true => PLeave | Wr, false => PWakeW1 end) F)).
Proof.
  intros Hkp. apply ok_event; [done|]. event. simplify_eq.
  destruct (ri_fields _ _ _ HI _ _ _ _ Hi) as [<- _].
  assert (SW : ∀ k t, t ∈ rw_sleep w k → rw_field w (FWaiting k) ≠ 0) by (intros; by eapply sleeper_waits).
  eexists. split; [|by split].
  destruct Hkp as [[= -> ->]|[= -> ->]];
    [destruct (Z.eqb_spec (rw_field w (FWaiting Rd)) 0)|destruct (Z.eqb_spec (rw_field w (FWaiting Wr)) 0)]; moves.
  all: intros [] t Ht; cbn; auto with lia; by destruct (SW _ _ Ht).
Qed.

Lemma ok_broadcast m id k p p' F : (k, p, p') = (Rd, PWakeR1, PWakeW) ∨ (k, p, p') = (Wr, PWakeW1, PLeave) →
  ok rwinv rw_waits m (perform (Broadcast k)) (id, Cs p F) (λ _ g, g = (id, Cs p' F)).
Proof.
  intros Hkp. apply ok_event; [done|]. event. simplify_eq.
  destruct (ri_fields _ _ _ HI _ _ _ _ Hi) as [<- _]. exists (Cs p' (rw_field w)). split; [|done].
  destruct Hkp as [[= -> -> ->]|[= -> -> ->]]; moves; intros []; cbn; unfold upd; repeat case_decide; mv.
Qed.

Lemma ok_wakeup m id F :
  ok rwinv rw_waits m rwlock_wakeup (id, Cs PWakeR F) (λ _ g, g = (id, Cs PLeave F)).
Proof.
  apply ok_bind. eapply ok_conseq; [apply (ok_wake_test _ _ Rd); by left|]. intros x g [-> ->].
  apply ok_bind. eapply (ok_conseq _ _ _ _ _ (λ _ g, g = (id, Cs PWakeW F))).
  { destruct (F (FWaiting Rd) =? 0); [by apply ok_ret|]. apply ok_broadcast. by left. }
  intros _ g ->. apply ok_bind. eapply ok_conseq; [apply (ok_wake_test _ _ Wr); by right|].
  intros x g [-> ->]. destruct (F (FWaiting Wr) =? 0); [by apply ok_ret|]. apply ok_broadcast. by right.
Qed.

Lemma ok_kind_lock m id k :
  ok rwinv rw_waits m (kind_lock k) (id, Out) (λ _ g, g = (id, Held k)).
Proof.
  apply ok_bind. eapply ok_conseq; [apply ok_mulock; constructor|]. intros _ g [F ->].
  apply ok_bind. eapply ok_conseq; [apply ok_add_field, adds_enter|]. intros _ g ->.
  apply ok_bind. eapply (ok_conseq _ _ _ _ _ (λ _ g, ∃ F, compatible k F ∧ g = (id, Cs (PWait k) F))).
  { apply (ok_iter _ _ _ _ (λ _ g, ∃ F, g = (id, Cs (PWait k) F))); [|eauto].
    intros m' _ g [F' ->]. apply ok_bind. eapply ok_conseq; [eapply ok_reads, wait_reads|].
    intros v g [-> ->]. destruct (Z.eqb_spec (wait_val k F') 0) as [Hv|Hv].
    - apply ok_ret. exists F'. split; [by apply wait_safe|done].
    - apply ok_bind. eapply ok_conseq; [by apply ok_cond_wait|]. intros [] g Hg. by apply ok_ret. }
  intros _ g (F' & Hc & ->).
  apply ok_bind. eapply ok_conseq; [by apply ok_add_field, adds_unwait|]. intros _ g ->.
  apply ok_bind. eapply ok_conseq; [apply ok_add_field, adds_acquire|]. intros _ g ->.
  apply ok_muunlock. constructor.
Qed.

Lemma ok_kind_unlock m id k :
  ok rwinv rw_waits m (kind_unlock k) (id, Held k) (λ _ g, g = (id, Out)).
Proof.
  apply ok_bind. eapply ok_conseq; [apply ok_mulock; constructor|]. intros _ g [F ->].
  apply ok_bind. eapply ok_conseq; [apply ok_add_field, adds_release|]. intros _ g ->.
  apply ok_bind. eapply ok_conseq; [apply ok_wakeup|]. intros _ g ->.
  apply ok_muunlock. constructor.
Qed.

(** ** The threads of user.c *)

Lemma d_held tr gs w i g : rwinv tr gs w → gs !! i = Some g → holds_d g.2 = 1%nat → u_dmutex w = true.
Proof.
  intros HI Hi Hg. pose proof (total_in (λ g : ghost, holds_d g.2) _ _ _ Hi) as H. cbn in H.
  pose proof (ri_dm _ _ _ HI) as Hm. unfold tot in Hm. destruct (u_dmutex w); cbn in *; [done|lia].
Qed.

Lemma ok_dlock m id s s' : (s, s') = (Out, DHeld) ∨ (s, s') = (MCreate n, MDHeld) →
  ok rwinv rw_waits m (perform DLock) (id, s) (λ _ g, g = (id, s')).
Proof.
  intros Hss. apply ok_event; [cbn; by destruct Hss as [[= -> ->]|[= -> ->]]; auto|]. event.
  destruct (u_dmutex w) eqn:Hd; simplify_eq. exists s'. split; [|done].
  destruct Hss as [[= -> ->]|[= -> ->]]; moves; by rewrite Hd.
Qed.

Lemma ok_dunlock m id s s' : (s, s') = (DHeld, Out) ∨ (s, s') = (MDHeld, MJoin 0 0) →
  ok rwinv rw_waits m (perform DUnlock) (id, s) (λ _ g, g = (id, s')).
Proof.
  intros Hss. apply ok_event; [cbn; by destruct Hss as [[= -> ->]|[= -> ->]]|]. event.
  assert (Hd : u_dmutex w = true) by (eapply d_held; [done..|by destruct Hss as [[= -> ->]|[= -> ->]]]).
  simplify_eq. exists s'. split; [|done].
  destruct Hss as [[= -> ->]|[= -> ->]]; moves; try (by rewrite Hd).
  intros h (Hc & ->). split_and!; [lia|done|lia|done|done].
Qed.

(** Events that only read, or set done. *)
Lemma ok_still m {X} (e : rwE X) id s :
  rw_waits X (id, s) e → gone s = false →
  match s with Cs _ _ | Tally _ _ | Asleep _ _ => False | _ => True end →
  (∀ w w' x, sys e w = Some (w', x) →
     (w' = w ∨ ∃ v, w' = set_user v (u_dmutex w) (u_counts w) (u_created w) (u_exited w) w) ∧ lab e x = []) →
  ok rwinv rw_waits m (perform e) (id, s) (λ _ g, g = (id, s)).
Proof.
  intros HA Hs Hcs He. apply ok_event; [done|]. intros tr gs w w' x HI Hi Hsys.
  destruct (He w w' x Hsys) as [Hw ->]. exists s. split; [|done].
  assert (Hne : s ≠ Exited) by (by intros ->).
  assert (Hj : ∀ h, main_ok s h w → main_ok s (h ++ []) w) by (intros h; by rewrite app_nil_r).
  assert (Hh : ∀ h c, hist_ok s h c → hist_ok s (h ++ []) c)
    by (intros h c Hh; apply (hist_ok_quiet s); done || by destruct s).
  clear He HA Hsys. destruct Hw as [->|[v ->]]; moves; (split; [done|congruence]) || done.
Qed.

Lemma ok_get_done m id : ok rwinv rw_waits m get_done (id, Out) (λ _ g, g = (id, Out)).
Proof.
  apply ok_bind. eapply ok_conseq; [apply ok_dlock; by left|]. intros _ g ->.
  apply ok_bind. eapply ok_conseq; [apply ok_still; try done|].
  { intros w w' x [= <- <-]. auto. }
  intros d g ->. apply ok_bind. eapply ok_conseq; [apply ok_dunlock; by left|]. intros _ g ->. by apply ok_ret.
Qed.

(** What a thread may print, and where that leaves it. *)
Inductive rw_says : stage → message → stage → Prop :=
  | says_got k id : rw_says (Held k) (MsgGot k id) (Said k)
  | says_done k id : rw_says (Counted k) (MsgDone k id) (Held k)
  | says_exiting k id : rw_says Out (MsgExiting k id) Out.

Lemma gots_app h h' : gots (h ++ h') = gots h + gots h'.
Proof. unfold gots. rewrite List.filter_app, length_app. lia. Qed.

Lemma hist_ok_says s msg s' h c : rw_says s msg s' → hist_ok s h c → hist_ok s' (h ++ [msg]) c.
Proof.
  intros Hsay (H1 & H2 & _). split; [|split; [|by destruct Hsay]].
  - intros k j. rewrite last_snoc. intros [= ->]. inversion Hsay; subst. by destruct k.
  - intros _. rewrite gots_app, H2 by (by destruct Hsay). apply f_equal. destruct Hsay; unfold gots; cbn; lia.
Qed.

Lemma ok_say m id s msg s' : rw_says s msg s' →
  ok rwinv rw_waits m (perform (Say msg)) (id, s) (λ _ g, g = (id, s')).
Proof.
  intros Hsay. apply ok_event; [done|]. event. simplify_eq. exists s'. split; [|done].
  assert (Hh : ∀ h c, hist_ok s h c → hist_ok s' (h ++ [msg]) c) by (intros h c; by apply hist_ok_says).
  destruct Hsay; moves; intros; by apply Hh.
Qed.

Lemma ok_get_count m id k :
  ok rwinv rw_waits m (perform (GetCount id)) (id, Said k) (λ c g, g = (id, Tally k c)).
Proof.
  apply ok_event; [done|]. event. simplify_eq. to (Tally k (default 0 (u_counts w' !! id))).
  intros h (H1 & H2 & _). rewrite app_nil_r. split; [done|]. split; [done|]. by rewrite H2.
Qed.

Lemma ok_set_count m id k c :
  ok rwinv rw_waits m (perform (SetCount id (c + 1))) (id, Tally k c) (λ _ g, g = (id, Counted k)).
Proof.
  apply ok_event; [done|]. event. simplify_eq.
  assert (id < length (u_counts w))%nat.
  { destruct (ri_hist _ _ _ HI _ _ _ Hi) as (_ & _ & H). by eapply lookup_lt_Some. }
  to (Counted k).
  - apply length_insert.
  - intros j Hj. by rewrite list_lookup_insert_ne.
  - intros h (H1 & H2 & H3). rewrite app_nil_r. split; [done|]. split; [|done]. intros _.
    rewrite list_lookup_insert_eq by done. rewrite H2 in H3 by done. simplify_eq/=. f_equal. lia.
Qed.

Lemma ok_finish m id k :
  ok rwinv rw_waits m (do! ! (Say (MsgExiting k id)) in ! (Finish id)) (id, Out) (λ _ g, g = (id, Exited)).
Proof.
  apply ok_bind. eapply ok_conseq; [apply ok_say; constructor|]. intros _ g ->.
  apply ok_event; [done|]. event. simplify_eq. to Exited.
Qed.

Lemma ok_begin_thread m id : ok rwinv rw_waits m (perform (BeginT id)) (id, Before) (λ _ g, g = (id, Out)).
Proof.
  apply ok_event; [done|]. event. case_decide; [|done]. simplify_eq. to Out.
Qed.

Lemma ok_thread m k id : ok rwinv rw_waits m (kind_thread k id) (id, Out) (λ _ g, g = (id, Exited)).
Proof.
  apply ok_bind. eapply (ok_conseq _ _ _ _ _ (λ _ g, g = (id, Out))); [|intros _ g ->; apply ok_finish].
  apply (ok_iter _ _ _ _ (λ _ g, g = (id, Out))); [|done]. intros m' _ g ->.
  apply ok_bind. eapply ok_conseq; [apply ok_get_done|]. intros d g ->.
  destruct (negb _); [by apply ok_ret|].
  apply ok_bind. eapply ok_conseq; [apply ok_kind_lock|]. intros _ g ->.
  apply ok_bind. eapply ok_conseq; [apply ok_say; constructor|]. intros _ g ->.
  apply ok_bind. eapply ok_conseq; [apply ok_get_count|]. intros c g ->.
  apply ok_bind. eapply ok_conseq; [apply ok_set_count|]. intros _ g ->.
  apply ok_bind. eapply ok_conseq; [apply ok_still; try done|].
  { intros w w' x [= <- <-]. auto. }
  intros _ g ->.
  apply ok_bind. eapply ok_conseq; [apply ok_say; constructor|]. intros _ g ->.
  apply ok_bind. eapply ok_conseq; [apply ok_kind_unlock|]. intros _ g ->. by apply ok_ret.
Qed.

Lemma ok_thread_start m k id : ok rwinv rw_waits m (thread_start k id) (id, Before) (λ _ g, g = (id, Exited)).
Proof. apply ok_bind. eapply ok_conseq; [apply ok_begin_thread|]. intros _ g ->. apply ok_thread. Qed.

(** *** main *)

Lemma ok_create_threads m id k c : (c + k = n)%nat →
  ok rwinv rw_waits m (create_threads c k) (id, MCreate c) (λ _ g, g = (id, MCreate n)).
Proof.
  revert c. induction k as [|k IH]; intros c Hc; cbn [create_threads]; [apply ok_ret; by replace c with n by lia|].
  apply ok_bind. eapply (ok_conseq _ _ _ _ _ (λ _ g, g = (id, MCreate (S c)))); [|intros _ g ->; apply IH; lia].
  apply ok_event; [done|]. event. simplify_eq. to (MCreate (S c)).
  intros h (_ & Hj & ->). split_and!; [lia| |done]. intros j Hlt. rewrite elem_of_union, elem_of_singleton.
  destruct (decide (j = c)) as [->|]; [by left|right]. apply Hj. lia.
Qed.

Lemma ok_set_done m id : ok rwinv rw_waits m set_done (id, MCreate n) (λ _ g, g = (id, MJoin 0 0)).
Proof.
  apply ok_bind. eapply ok_conseq; [apply ok_dlock; by right|]. intros _ g ->.
  apply ok_bind. eapply ok_conseq; [apply ok_still; try done|].
  { intros w w' x [= <- <-]. eauto. }
  intros _ g ->. apply ok_dunlock. by right.
Qed.

Lemma ok_join_thread m id i z : (i < n)%nat →
  ok rwinv rw_waits m (perform (JoinT i)) (id, MJoin i z) (λ _ g, g = (id, MTook i z)).
Proof.
  intros Hn. apply ok_event; [cbn; eauto|]. event. destruct (decide (i ∈ u_exited w)); simplify_eq. to (MTook i z).
  intros h (_ & Hc & Hj & -> & ->). split_and!; try done. intros j Hlt.
  destruct (decide (j = i)) as [->|]; [done|]. apply Hj. lia.
Qed.

Lemma ok_add_count m id i z : ok rwinv rw_waits m (perform (GetCount i)) (id, MTook i z)
  (λ c g, g = (id, MJoin (S i) (add_count z c))).
Proof.
  apply ok_event; [done|]. event. simplify_eq. to (MJoin (S i) (add_count z (default 0 (u_counts w' !! i)))).
  intros h (Hi' & Hc & Hj & -> & ->). split_and!; [lia|done|intros; apply Hj; lia| |done].
  destruct (lookup_lt_is_Some_2 (u_counts w') i) as [c Hl]; [by rewrite (ri_ncounts _ _ _ HI)|].
  rewrite (take_S_r _ _ _ Hl), Hl. unfold sum_counts. by rewrite foldl_snoc.
Qed.

Lemma ok_join_sum m id k : ∀ i z, (i + k = n)%nat →
  ok rwinv rw_waits m (join_sum i k z) (id, MJoin i z) (λ z g, g = (id, MJoin n z)).
Proof.
  induction k as [|k IH]; intros i z Hn; cbn [join_sum].
  { apply ok_ret. by replace i with n by lia. }
  apply ok_bind. eapply ok_conseq; [apply ok_join_thread; lia|]. intros _ g ->.
  apply ok_bind. eapply ok_conseq; [apply ok_add_count|]. intros c g ->. apply IH. lia.
Qed.

(** Once every thread was joined, nobody uses the lock. *)
Lemma all_joined tr gs w id z : rwinv tr gs w → gs !! id = Some (id, MJoin n z) →
  (rw_mu w = false ∧ ∀ k, rw_sleep w k = ∅) ∧ ∀ j, (j < n)%nat → j ∈ u_exited w.
Proof.
  intros HI Hi. destruct (ri_main _ _ _ HI _ _ _ Hi) as (_ & _ & Hj & _). split; [|done].
  assert (Hall : ∀ i g, gs !! i = Some g → g.2 = Exited ∨ g = (id, MJoin n z)).
  { intros i [id' s] Hg. destruct (decide (i = id)) as [->|Hne]; [right; congruence|left].
    destruct (ri_who _ _ _ HI _ _ _ Hi) as [_ Hid]. cbn in Hid. apply eq_sym, bool_decide_eq_true in Hid.
    apply lookup_lt_Some in Hg as Hlt. rewrite (ri_len _ _ _ HI) in Hlt.
    destruct (proj1 (ri_exited _ _ _ HI i)) as [id2 Hex]; [apply Hj; lia|]. rewrite Hg in Hex. by simplify_eq. }
  split.
  - pose proof (ri_mu _ _ _ HI) as Hm. unfold tot in Hm. rewrite total_zero in Hm; [by destruct (rw_mu w)|].
    intros g [i Hg]%list_elem_of_lookup. by destruct (Hall i g Hg) as [->| ->].
  - intros k. apply set_eq. intros t. split; [|by intros ?%elem_of_empty]. intros Ht.
    destruct (ri_sleep _ _ _ HI k t Ht) as (i & id' & Hg). by destruct (Hall i _ Hg).
Qed.

Lemma ok_destroy m id z :
  ok rwinv rw_waits m rwlock_destroy (id, MJoin n z) (λ _ g, g = (id, MFreed 0 z None)).
Proof.
  assert (Hd : ∀ m, ok rwinv rw_waits m (perform RwDestroy) (id, MJoin n z) (λ rc g, rc = true ∧ g = (id, MJoin n z))).
  { intros m'. apply ok_event; [cbn; eauto|]. event. destruct (all_joined _ _ _ _ _ HI Hi) as [[Hmu Hsl] _]. simplify_eq.
    exists (MJoin n z). split; [moves; intros h; by rewrite app_nil_r|]. by rewrite Hmu, !Hsl. }
  do 3 (apply ok_bind; eapply ok_conseq; [apply Hd|]; intros rc g [-> ->]; apply ok_bind, ok_ret).
  apply ok_event; [cbn; eauto|]. event. simplify_eq. destruct (all_joined _ _ _ _ _ HI Hi) as [_ Hj]. to (MFreed 0 z None).
  intros h (_ & Hc & _ & Hz & ->). rewrite take_ge in Hz by (by rewrite (ri_ncounts _ _ _ HI)).
  split_and!; try done. lia.
Qed.

Lemma shares_S cs z p : shares cs z (S p) = shares cs z p ++ [MsgShare p (default 0 (cs !! p)) z].
Proof. unfold shares. by rewrite seq_S, map_app. Qed.

Lemma ok_print_shares m id k z : ∀ p, (p + k = n)%nat →
  ok rwinv rw_waits m (print_shares p k z) (id, MFreed p z None) (λ _ g, g = (id, MFreed n z None)).
Proof.
  induction k as [|k IH]; intros p Hp; cbn [print_shares]; [apply ok_ret; by replace p with n by lia|].
  apply ok_bind. eapply (ok_conseq _ _ _ _ _ (λ c g, g = (id, MFreed p z (Some c)))).
  { apply ok_event; [done|]. event. simplify_eq. to (MFreed p z (Some (default 0 (u_counts w' !! p)))).
    intros h (H1 & H2 & H3 & H4 & H5 & H6 & _). rewrite app_nil_r. split_and!; try done. by intros x [= <-]. }
  intros c g ->. apply ok_bind. eapply (ok_conseq _ _ _ _ _ (λ _ g, g = (id, MFreed (S p) z None))); [|intros _ g ->; apply IH; lia].
  apply ok_event; [done|]. event. simplify_eq. to (MFreed (S p) z None).
  - intros h (H1 & H2 & H3 & H4 & H5 & H6 & H7). rewrite shares_S, <- (H7 c eq_refl), <- H6. split_and!; try done. lia.
  - intros h (H1 & H2 & H3). split; [|split; [done|done]]. intros k' j. by rewrite last_snoc.
Qed.

Lemma ok_main m id : ok rwinv rw_waits m (main_rest n) (id, MCreate 0) (λ _ g, ∃ z, g = (id, MFreed n z None)).
Proof.
  apply ok_bind. eapply ok_conseq; [by apply ok_create_threads|]. intros _ g ->.
  apply ok_bind. eapply ok_conseq; [apply ok_still; try done|].
  { intros w w' x [= <- <-]. auto. }
  intros _ g ->. apply ok_bind. eapply ok_conseq; [apply ok_set_done|]. intros _ g ->.
  apply ok_bind. eapply ok_conseq; [by apply ok_join_sum|]. intros z g ->.
  apply ok_bind. eapply ok_conseq; [apply ok_destroy|]. intros _ g ->.
  eapply ok_conseq; [by apply ok_print_shares|]. intros _ g ->. by exists z.
Qed.
End invariant.
