(* ===== verification/RwlockRuns.v ===== *)
(** * What the readers-writer lock guarantees

    Mutual exclusion of the whole program user.c under any sound policy and any
    interleaving, and what holds when nothing moves; that policy_none.c gives no
    exclusion; and what rwlock_new leaves. *)
From S2P Require Import Prelude Prog Pools Alone PoolsTerm Paced Rwlock RwlockInv.
Local Open Scope Z_scope.
Local Open Scope prog_scope.

(** The program before main runs, with [n] threads: the variables of user.c have
    their initial values. *)
Definition user_zero (n : nat) (w : rwworld) : Prop :=
  u_done w = 0 ∧ u_dmutex w = false ∧ u_counts w = replicate n 0 ∧ u_created w = ∅ ∧ u_exited w = ∅.

Record user_fresh (n : nat) (w : rwworld) : Prop := {
  uf_user : user_zero n w;
  uf_sleep : ∀ k, rw_sleep w k = ∅;
  uf_flags : rw_ub w = false ∧ rw_aborted w = false;
  uf_calls : Forall (λ b, b = false) (take 4 (rw_faults w))   (* malloc and the initialisations succeed *)
}.

(** A fresh lock and a user that has not begun. *)
Record rw_ready (n : nat) (w : rwworld) : Prop := {
  rr_field : ∀ f, rw_field w f = 0;
  rr_mu : rw_mu w = false;
  rr_sleep : ∀ k, rw_sleep w k = ∅;
  rr_live : rw_live w = true;
  rr_flags : rw_ub w = false ∧ rw_aborted w = false;
  rr_user : user_zero n w
}.

(** Thread [i] has printed that it got the lock, as [k], and not yet that it is
    done. *)
Definition inside (q : pool rwE rwworld message) (i : nat) (k : kind) : Prop :=
  ∃ id, last (labels_of i (pool_trace q)) = Some (MsgGot k id).

(** The thread is about to read or write a counter of the lock. *)
Definition touching (t : itree rwE unit) : bool :=
  match observe t with
  | VisF e _ => match e with GetF _ | SetF _ _ => true | _ => false end
  | _ => false
  end.

Definition finished (t : itree rwE unit) : bool :=
  match observe t with RetF _ => true | _ => false end.

Definition rw_start (n : nat) : list ghost := map (λ i, (i, Before)) (seq 0 n) ++ [(n, MCreate 0)].

Lemma rw_start_lookup n i g : rw_start n !! i = Some g →
  (g = (i, Before) ∧ i < n)%nat ∨ (g = (i, MCreate 0) ∧ i = n).
Proof.
  unfold rw_start. intros H. apply lookup_app_Some in H as [H|[Hle H]].
  - apply list_lookup_fmap_Some in H as (j & -> & Hj). apply lookup_seq in Hj as [-> ?]. left. by split.
  - rewrite length_map, length_seq in *. apply list_lookup_singleton_Some in H as [H <-].
    right. by replace i with n by lia.
Qed.

(** rwlock_new.  When malloc and the three initialisations succeed it
    leaves a lock with all counters zero, nobody waiting and the mutex free; a
    failed initialisation ends in the assertion; but a failed malloc is not
    noticed, and the null pointer is used. *)
Theorem rwlock_new_ready n w :
  user_zero n w → (∀ k, rw_sleep w k = ∅) →
  rw_ub w = false ∧ rw_aborted w = false →
  wpt rwlock_new w (λ _ w', match rw_faults w with
    | true :: _ => rw_live w = false → rw_ub w' = true
    | fl => if existsb id (take 4 fl) then rw_aborted w' = true else rw_ready n w'
    end).
Proof.
  destruct w as [f mu sl tk sp live ub ab d dm cs cr ex fl]. unfold user_zero. cbn. intros (-> & -> & -> & -> & ->) Hsl [-> ->].
  assert (Hf : ∀ b, upd (upd (upd (upd f (FActive Rd) 0) (FActive Wr) 0) (FWaiting Rd) 0) (FWaiting Wr) 0 b = 0)
    by (by intros [[]|[]]).
  destruct fl as [|[] [|[] [|[] [|[] fl]]]]; cbn; unfold rwlock_new, check.
  all: repeat first [apply wpt_bind|apply wpt_ret|eapply wpt_trigger; [reflexivity|]; cbn]; cbn.
  all: try done; intros; subst; by repeat split.
Qed.

(** ** main makes the lock alone *)

Definition making X (e : rwE X) : Prop :=
  match e with RwMalloc | RwInit | RwAbort | SetF _ _ => True | _ => False end.

Lemma rwlock_new_making m : does making m rwlock_new.
Proof. unfold rwlock_new, check. does_tac. Qed.

Lemma making_zero n X (e : rwE X) w w' x : making X e → user_zero n w → sys e w = Some (w', x) →
  user_zero n w' ∧ lab e x = [].
Proof.
  unfold user_zero. destruct e; try done; intros _ Hw Hs; cbn in Hs; unfold pop_rwfault in Hs;
    repeat (case_match || simplify_eq); done.
Qed.

Lemma flags_stay X (e : rwE X) w w' x : sys e w = Some (w', x) →
  (rw_ub w = true → rw_ub w' = true) ∧ (rw_aborted w = true → rw_aborted w' = true).
Proof.
  intros Hs. destruct e; cbn in Hs; unfold pop_rwfault, touch in Hs; repeat (case_match || simplify_eq); cbn;
    split; intros; rewrite ?orb_true_iff; auto.
Qed.

Section runs.
Context `{Pol : !Policy, Snd : !SoundPolicy Pol}.

Lemma rw_start_inv n w : rw_ready n w → rwinv n [] (rw_start n) w.
Proof.
  intros [Hf Hmu Hsl Hl [Hub Hab] (_ & Hdm & Hc & Hcr & Hex)].
  assert (Hz : ∀ f, f Before = 0%nat → f (MCreate 0) = 0%nat → tot f (rw_start n) = 0%nat).
  { intros f H1 H2. apply total_zero. intros g [i Hg]%list_elem_of_lookup.
    by destruct (rw_start_lookup _ _ _ Hg) as [[-> _]|[-> _]]. }
  constructor; try done; try (by intros; rewrite ?Hz, ?Hmu, ?Hdm, ?Hf); auto.
  - unfold rw_start. rewrite length_app, length_map, length_seq. cbn. lia.
  - intros i id s [[[= -> ->] Hi]|[[= -> ->] ->]]%rw_start_lookup; split; try done; cbn; symmetry.
    + apply bool_decide_eq_false. lia.
    + by apply bool_decide_eq_true.
  - rewrite !Hz by done. lia.
  - intros i id p F [[? _]|[? _]]%rw_start_lookup; simplify_eq.
  - intros k t. rewrite Hsl. by intros ?%elem_of_empty.
  - intros k t. rewrite Hsl. by intros ?%elem_of_empty.
  - intros i. rewrite Hex. split; [by intros ?%elem_of_empty|].
    intros [id [[? _]|[? _]]%rw_start_lookup]; simplify_eq.
  - intros i id s [[[= -> ->] _]|[[= -> ->] _]]%rw_start_lookup; [done|]. split_and!; [lia|lia|done].
  - by rewrite Hc, length_replicate.
  - intros i id s [[[= -> ->] Hi]|[[= -> ->] ->]]%rw_start_lookup; split_and!; try done.
    intros _. rewrite Hc. by apply lookup_replicate_2.
Qed.

(** How a thread may end. *)
Definition ended (n : nat) (g : ghost) : Prop := g.2 = Exited ∨ ∃ z, g.2 = MFreed n z None.

(** A state of the program: main is making the lock, or the invariant holds. *)
Definition main_making (n : nat) (q : pool rwE rwworld message) : Prop :=
  stuck q = false ∧ user_zero n (pool_world q) ∧ pool_trace q = [] ∧
  rw_ub (pool_world q) = false ∧ rw_aborted (pool_world q) = false ∧
  ∀ i t, i ≠ n → pool_threads q !! i = Some t → touching t = false.

Definition user_running (n : nat) (q : pool rwE rwworld message) : Prop :=
  ∃ gs, rwinv n (pool_trace q) gs (pool_world q) ∧
    Forall2 (λ t g, ok (rwinv n) (rw_waits n) 1 t g (λ _ g, ended n g)) (pool_threads q) gs.

Lemma running_inv ks w u q : let n := length ks in rw_ready n w → observe u = observe (main_rest n) →
  reachable (Pool (imap (λ i k, thread_start k i) ks ++ [u]) w []) q → user_running n q.
Proof.
  intros n Hw Hu Hr. apply (pool_sound _ _ _ _ _ (rw_start n) Hr); cbn; [by apply rw_start_inv|].
  intros m. unfold rw_start. apply Forall2_app; [|constructor; [|constructor]].
  - apply Forall2_same_length_lookup_2; [by rewrite length_imap, length_map, length_seq|].
    intros i t g Ht Hg. rewrite list_lookup_imap_Some in Ht. destruct Ht as (k & Hk & ->).
    apply list_lookup_fmap_Some in Hg as (j & -> & [-> _]%lookup_seq).
    eapply ok_conseq; [apply ok_thread_start|]. intros _ g ->. by left.
  - eapply ok_observe; [exact Hu|]. eapply ok_conseq; [apply ok_main|]. intros _ g [z ->]. right. by exists z.
Qed.

Lemma rwlock_new_works n w : user_fresh n w → ∃ w', evals rwlock_new w tt w' ∧ rw_ready n w'.
Proof.
  intros [Hu Hs Hf Hc]. destruct (rwlock_new_ready n w Hu Hs Hf) as ([] & w' & He & Hw'). exists w'. split; [done|].
  destruct (rw_faults w) as [|[] fl]; [done|by inversion Hc|].
  enough (existsb id (take 4 (false :: fl)) = false) as E by (by rewrite E in Hw').
  apply not_true_iff_false. intros (b & Hin & Hb)%existsb_exists. rewrite Forall_forall in Hc.
  apply list_elem_of_In, Hc in Hin. by subst.
Qed.

Lemma user_cases ks w q : let n := length ks in user_fresh n w → reachable (user_process ks w) q →
  main_making n q ∨ user_running n q.
Proof.
  intros n Hw Hr. destruct (rwlock_new_works n w Hw) as (w' & He & Hready).
  set (ts := imap (λ i k, thread_start k i) ks). set (rest := λ _ : unit, main_rest n).
  assert (Hlen : length ts = n) by apply length_imap.
  assert (Hat : ∀ t, <[n := t]> (ts ++ [user_main n]) = ts ++ [t]).
  { intros t. rewrite insert_app_r_alt by (by rewrite Hlen). by rewrite Hlen, Nat.sub_diag. }
  assert (Hothers : ∀ j t, j ≠ n → (ts ++ [user_main n]) !! j = Some t → ∃ k, t = thread_start k j).
  { intros j t Hne [Hj|[Hle Hj]]%lookup_app_Some.
    - unfold ts in Hj. rewrite list_lookup_imap_Some in Hj. destruct Hj as (k & _ & ->). by exists k.
    - rewrite Hlen in *. apply list_lookup_singleton_Some in Hj as [Hj _]. lia. }
  destruct (alone_reach (user_zero n) making n (ts ++ [user_main n])) with (t := rwlock_new) (k := rest) (w := w)
    (r := tt) (w' := w') (tr := @nil (nat * message)) (q := q) as [(t1 & w1 & y & -> & Hs & He1 & Hid)|(u & Hu & Hr')].
  - intros j t w0 Hne Hj (_ & _ & _ & Hc & _). destruct (Hothers j t Hne Hj) as [k ->].
    unfold step_thread, thread_start. rewrite observe_bind. cbn. by rewrite decide_False by (rewrite Hc; set_solver).
  - intros X e w0 w0' x. apply making_zero.
  - done.
  - apply rwlock_new_making.
  - apply Hw.
  - unfold with_main. rewrite Hat. exact Hr.
  - left. unfold main_making, with_main. cbn [pool_threads pool_world pool_trace].
    assert (Hflags : rw_ub w1 = false ∧ rw_aborted w1 = false).
    { destruct Hready as [_ _ _ _ [Hub Hab] _]. split; apply not_true_iff_false; intros H.
      - apply (evals_stable (λ w, rw_ub w = true)) in He1; [congruence| |done]. intros X e v v' x Hv. by eapply flags_stay.
      - apply (evals_stable (λ w, rw_aborted w = true)) in He1; [congruence| |done]. intros X e v v' x Hv. by eapply flags_stay. }
    split_and!; try apply Hflags; try done.
    + apply not_true_iff_false. intros Hst. apply (stuck_thread _ n (ITree.bind t1 rest)) in Hst; [|cbn; rewrite Hat; apply lookup_app_Some; right; rewrite Hlen, Nat.sub_diag; by split].
      cbn in Hst. unfold step_thread in Hs, Hst. rewrite observe_bind in Hst.
      destruct (observe t1) as [|t'|X e h]; [done|done|]. by destruct (sys e w1) as [[? ?]|].
    + intros i t Hne Hi. rewrite list_lookup_insert_ne in Hi by done. destruct (Hothers i t Hne Hi) as [k ->].
      unfold touching, thread_start. by rewrite observe_bind.
  - right. unfold with_main in Hr'. rewrite Hat in Hr'. by eapply running_inv.
Qed.

Lemma inside_stage ks w q gs i k : reachable (user_process ks w) q →
  rwinv (length ks) (pool_trace q) gs (pool_world q) → length (pool_threads q) = length gs →
  inside q i k → ∃ g, gs !! i = Some g ∧ said k g.2 = 1%nat.
Proof.
  intros Hr HI Hlen [id Hl]. destruct (reachable_threads _ _ Hr) as [_ Hids].
  assert (Hi : (i < length gs)%nat).
  { rewrite <- Hlen. eapply Hids; [by intros ?? ?%elem_of_nil|]. apply labels_of_elem.
    by apply last_Some_elem_of in Hl. }
  apply lookup_lt_is_Some_2 in Hi as [[id' s] Hg]. exists (id', s). split; [done|].
  destruct (ri_hist _ _ _ _ HI _ _ _ Hg) as (Hs & _). by eapply Hs.
Qed.

Lemma said_active k s : said k s = 1%nat → active k s = 1%nat.
Proof. by destruct s. Qed.

Lemma touching_in_cs n t g Q : ok (rwinv n) (rw_waits n) 1 t g Q → touching t = true → in_cs g.2 = 1%nat.
Proof.
  unfold touching. cbn. destruct (observe t) as [r|t'|X e k]; [done|done|].
  intros [HA _]. by destruct e.
Qed.

(** C27. The readers-writer lock excludes.  The program of user.c from the first
    call of main on, with any number of readers and writers, under a policy that
    makes a writer wait for every active thread and a reader for an active writer
    (policy_rstarve.c and policy_wstarve.c are such), when malloc and the
    initialisations succeed, in every interleaving and with spurious wake-ups: a
    thread that has the lock as a writer is alone with it; never two threads are
    about to access a counter of the lock; the lock is not touched before it is
    made or after it is freed; and no assertion fails. *)
Theorem rwlock_exclusion ks w q :
  user_fresh (length ks) w → reachable (user_process ks w) q →
  (∀ i j k, inside q i Wr → inside q j k → i = j) ∧
  (∀ i j t t', pool_threads q !! i = Some t → pool_threads q !! j = Some t' →
     touching t = true → touching t' = true → i = j) ∧
  rw_ub (pool_world q) = false ∧ rw_aborted (pool_world q) = false.
Proof.
  intros Hw Hr. destruct (user_cases _ _ _ Hw Hr) as [(_ & _ & Htr & Hub & Hab & Ht)|(gs & HI & Hok)].
  { split_and!; [| |done..].
    - intros i j k [id Hl]. by rewrite Htr in Hl.
    - intros i j t t' Hi Hj Hti Htj. destruct (decide (i = length ks)) as [->|Hne]; [|by rewrite (Ht i t) in Hti].
      destruct (decide (j = length ks)) as [->|Hne]; [done|by rewrite (Ht j t') in Htj]. }
  pose proof (Forall2_length _ _ _ Hok) as Hlen. split_and!; [| |apply HI|apply HI].
  - intros i j k Hi Hj. destruct (decide (i = j)) as [|Hne]; [done|exfalso].
    destruct (inside_stage _ _ _ _ _ _ Hr HI Hlen Hi) as (g & Hg & Ha%said_active).
    destruct (inside_stage _ _ _ _ _ _ Hr HI Hlen Hj) as (g' & Hg' & Ha'%said_active).
    pose proof (ri_excl _ _ _ _ HI) as [E1 E2]. unfold tot in *.
    pose proof (total_two (λ g : ghost, active Wr g.2) _ _ _ _ _ Hne Hg Hg').
    pose proof (total_in (λ g : ghost, active k g.2) _ _ _ Hg'). cbn in *.
    destruct k; lia.
  - intros i j t t' Hi Hj Ht Ht'. destruct (decide (i = j)) as [|Hne]; [done|exfalso].
    destruct (Forall2_lookup_l _ _ _ _ _ Hok Hi) as (g & Hg & Hok1%touching_in_cs); [|done].
    destruct (Forall2_lookup_l _ _ _ _ _ Hok Hj) as (g' & Hg' & Hok2%touching_in_cs); [|done].
    pose proof (total_two (λ g : ghost, in_cs g.2) _ _ _ _ _ Hne Hg Hg').
    pose proof (ri_mu _ _ _ _ HI) as Hm. unfold tot, one in Hm. cbn in *. destruct (rw_mu _); lia.
Qed.

(** *** Blocking *)

(** How a thread in ghost state [g] may be unable to move. *)
Definition resting (n : nat) (w : rwworld) (t : itree rwE unit) (g : ghost) : Prop :=
  (finished t = true ∧ ended n g) ∨
  (rw_mu w = true ∧ (g.2 = Out ∨ ∃ k, g.2 = Held k)) ∨
  (∃ k c, g.2 = Asleep k c ∧ (rw_mu w = true ∨ c ∈ rw_sleep w k)) ∨
  (u_dmutex w = true ∧ (g.2 = Out ∨ g.2 = MCreate n)) ∨
  (∃ j z, g.2 = MJoin j z ∧ (j < n)%nat ∧ j ∉ u_exited w) ∨
  (g.2 = Before ∧ g.1 ∉ u_created w).

Lemma stuck_case n tr gs w t g :
  rwinv n tr gs w → ok (rwinv n) (rw_waits n) 1 t g (λ _ g, ended n g) →
  step_thread t w = None → resting n w t g.
Proof.
  intros HI. unfold resting, finished, step_thread. cbn.
  destruct (observe t) as [r|t'|X e k]; [by left|done|]. intros [HA _] Hs. right.
  destruct (sys e w) as [[w' x]|] eqn:Hsys; [done|].
  destruct e; try done; cbn in Hsys, HA.
  - left. by destruct (rw_mu w).
  - by destruct (rw_spurious w) as [|[] ?].
  - right; left. exists k0, t0. split; [done|]. destruct (rw_mu w); [by left|right].
    destruct (bool_decide _) eqn:Hb; [|done]. by apply bool_decide_eq_true in Hb.
  - right; right; left. by destruct (u_dmutex w).
  - do 4 right. subst g. by case_decide.
  - do 3 right; left. destruct HA as [[z Hz] ?]. exists i, z. by case_decide.
Qed.

Section stuck.
Context n tr gs w (ts : list (itree rwE unit)) (HI : rwinv n tr gs w).
Context (Hrest : Forall2 (resting n w) ts gs).

Lemma rest_case g : g ∈ gs → ∃ t, resting n w t g.
Proof.
  intros [i Hg]%list_elem_of_lookup. destruct (Forall2_lookup_r _ _ _ _ _ Hrest Hg) as (t & _ & H). eauto.
Qed.

(** Nobody holds a mutex: its holder could move. *)
Lemma rest_mutexes : rw_mu w = false ∧ u_dmutex w = false ∧ ∀ k, tot (excuse k) gs = 0%nat.
Proof.
  assert (Hcs : ∀ g, g ∈ gs → in_cs g.2 = 0%nat ∧ holds_d g.2 = 0%nat ∧ ∀ k, excuse k g.2 = 0%nat).
  { intros g Hg. destruct (rest_case g Hg) as [t H]. destruct g as [id s].
    destruct s; try done; exfalso; unfold resting, ended in H; cbn in H; naive_solver. }
  pose proof (ri_mu _ _ _ _ HI) as Hm. pose proof (ri_dm _ _ _ _ HI) as Hd. unfold tot in *.
  rewrite total_zero in Hm, Hd by (intros g Hg; apply (Hcs g Hg)). split_and!.
  - by destruct (rw_mu w).
  - by destruct (u_dmutex w).
  - intros k. apply total_zero. intros g Hg. by apply (Hcs g Hg).
Qed.

(** Nobody is inside. *)
Lemma rest_inactive k : rw_field w (FActive k) = 0.
Proof.
  rewrite (ri_active _ _ _ _ HI). unfold tot. rewrite total_zero; [done|]. intros g Hg.
  destruct (rest_case g Hg) as [t H], rest_mutexes as (Hm & Hd & _). unfold resting, ended in H.
  rewrite Hm, Hd in H. destruct g as [id s]. destruct s; try done; exfalso; cbn in H; naive_solver.
Qed.

(** Nobody sleeps: first the writers, then the readers, have no one to wait for. *)
Lemma rest_awake id k c : (id, Asleep k c) ∉ gs.
Proof.
  destruct rest_mutexes as (Hm & Hd & Hex).
  assert (Hb : ∀ id k c, (id, Asleep k c) ∈ gs → blocked k (rw_field w)).
  { intros id' k' c' Hg. destruct (rest_case _ Hg) as [t H]. unfold resting, ended in H. cbn in H. rewrite Hm, Hd in H.
    assert (c' ∈ rw_sleep w k') as Hc by naive_solver.
    destruct (ri_woken _ _ _ _ HI _ _ Hc) as [?|He]; [done|]. by rewrite Hex in He. }
  assert (HW : ∀ id c, (id, Asleep Wr c) ∉ gs).
  { intros id' c' Hg%Hb. unfold blocked in Hg. rewrite !rest_inactive in Hg. lia. }
  destruct k; [|apply HW]. intros Hg%Hb. unfold blocked in Hg. rewrite rest_inactive, (ri_waiting _ _ _ _ HI) in Hg.
  unfold tot in Hg. rewrite total_zero in Hg; [lia|]. intros [id' s] Hin.
  destruct (rest_case _ Hin) as [t H]. unfold resting, ended in H. rewrite Hm, Hd in H.
  destruct s as [| | |[] ?| | | | | | | | | | |]; try done; [exfalso; cbn in H; naive_solver|by destruct (HW id' t0)].
Qed.

(** A thread that rests has ended, waits for one that has not, or to be created. *)
Lemma rest_kinds i t g : ts !! i = Some t → gs !! i = Some g →
  (finished t = true ∧ ended n g) ∨ (∃ j z, g.2 = MJoin j z ∧ (j < n)%nat ∧ j ∉ u_exited w) ∨
  (g.2 = Before ∧ i ∉ u_created w).
Proof.
  destruct rest_mutexes as (Hm & Hd & _). destruct g as [id s]. intros Ht Hg.
  pose proof (Forall2_lookup_lr _ _ _ _ _ _ Hrest Ht Hg) as H. unfold resting in H. rewrite Hm, Hd in H. cbn in H.
  destruct H as [H|[[? _]|[(k & c & -> & _)|[[? _]|[H|[-> Hc]]]]]]; try done; [by left| |by auto|].
  - apply list_elem_of_lookup_2 in Hg. by apply rest_awake in Hg.
  - destruct (ri_who _ _ _ _ HI _ _ _ Hg) as [-> _]. auto.
Qed.

(** Main, which comes last, has created all threads. *)
Lemma rest_created : ∃ t s, ts !! n = Some t ∧ gs !! n = Some (n, s) ∧ is_main s = true ∧
  ∀ j, (j < n)%nat → j ∈ u_created w.
Proof.
  destruct (lookup_lt_is_Some_2 gs n) as [[id s] Hg]; [rewrite (ri_len _ _ _ _ HI); lia|].
  destruct (ri_who _ _ _ _ HI _ _ _ Hg) as [-> Hmain]. rewrite bool_decide_true in Hmain by done.
  destruct (Forall2_lookup_r _ _ _ _ _ Hrest Hg) as (t & Ht & _). exists t, s. split_and!; try done.
  pose proof (ri_main _ _ _ _ HI _ _ _ Hg) as Hok.
  destruct (rest_kinds n t _ Ht Hg) as [[_ [Hs|[z Hs]]]|[(j & z & Hs & _)|[Hs _]]]; cbn in Hs; subst s; try done; by apply Hok.
Qed.

Lemma rest_returned i t g : ts !! i = Some t → gs !! i = Some g → finished t = true ∧ ended n g.
Proof.
  destruct rest_created as (tn & sn & _ & _ & _ & Hcr).
  assert (Hthread : ∀ j, (j < n)%nat → ∃ t id, ts !! j = Some t ∧ gs !! j = Some (id, Exited)).
  { intros j Hj. destruct (lookup_lt_is_Some_2 gs j) as [[id s] Hg]; [rewrite (ri_len _ _ _ _ HI); lia|].
    destruct (Forall2_lookup_r _ _ _ _ _ Hrest Hg) as (t' & Ht & _). exists t', id. split; [done|].
    destruct (ri_who _ _ _ _ HI _ _ _ Hg) as [_ Hw]. rewrite bool_decide_false in Hw by lia.
    destruct (rest_kinds j t' _ Ht Hg) as [[_ [Hs|[z Hs]]]|[(m & z & Hs & _)|[Hs Hc]]]; cbn in Hs; subst s; try done.
    by destruct Hc; apply Hcr. }
  intros Ht Hg. destruct (rest_kinds i t g Ht Hg) as [?|[(j & z & _ & Hj & Hex)|[Hb Hc]]]; [done|exfalso..].
  - destruct (Hthread j Hj) as (? & id & _ & Hgj). apply Hex, (ri_exited _ _ _ _ HI). by exists id.
  - apply lookup_lt_Some in Hg as Hlt. rewrite (ri_len _ _ _ _ HI) in Hlt.
    destruct (decide (i = n)) as [->|]; [|by apply Hc, Hcr; lia].
    destruct rest_created as (_ & s & _ & Hs & Hmain & _). rewrite Hs in Hg. injection Hg as <-. cbn in Hb. by subst s.
Qed.

(** What is left then. *)
Lemma rest_result : rw_live w = false ∧
  u_counts w = map (λ i, gots (labels_of i tr)) (seq 0 n) ∧
  labels_of n tr = shares (u_counts w) (sum_counts (u_counts w)) n.
Proof.
  destruct rest_created as (t & s & Ht & Hg & Hmain & _). destruct (rest_returned _ _ _ Ht Hg) as [_ [Hs|[z Hs]]];
    cbn in Hs; subst s; [done|]. destruct (ri_main _ _ _ _ HI _ _ _ Hg) as (_ & _ & _ & Hl & -> & Hh & _).
  split_and!; [done| |done].
  apply list_eq_same_length with n; [by rewrite length_map, length_seq|apply HI|].
  intros i x y Hi Hx Hy. apply list_lookup_fmap_Some in Hy as (j & -> & [-> _]%lookup_seq).
  destruct (lookup_lt_is_Some_2 gs i) as [[id s] Hgi]; [rewrite (ri_len _ _ _ _ HI); lia|].
  destruct (Forall2_lookup_r _ _ _ _ _ Hrest Hgi) as (ti & Hti & _).
  destruct (ri_who _ _ _ _ HI _ _ _ Hgi) as [_ Hm]. rewrite bool_decide_false in Hm by lia.
  destruct (rest_returned _ _ _ Hti Hgi) as [_ [Hs|[z Hs]]]; cbn in Hs; subst s; [|done].
  destruct (ri_hist _ _ _ _ HI _ _ _ Hgi) as (_ & Hc & _). rewrite Hc in Hx by done. cbn in *. simplify_eq/=. lia.
Qed.
End stuck.

(** A state of user.c in which nothing moves. *)
Lemma user_settled ks w q : user_fresh (length ks) w → reachable (user_process ks w) q → stuck q = true →
  (∀ t, t ∈ pool_threads q → finished t = true) ∧
  rw_live (pool_world q) = false ∧
  u_counts (pool_world q) = map (λ i, gots (labels_of i (pool_trace q))) (seq 0 (length ks)) ∧
  labels_of (length ks) (pool_trace q) =
    shares (u_counts (pool_world q)) (sum_counts (u_counts (pool_world q))) (length ks).
Proof.
  intros Hw Hr Hst. destruct (user_cases _ _ _ Hw Hr) as [(Hno & _)|(gs & HI & Hok)]; [congruence|].
  assert (Hrest : Forall2 (resting (length ks) (pool_world q)) (pool_threads q) gs).
  { apply Forall2_same_length_lookup_2; [by eapply Forall2_length|]. intros i t g Ht Hg.
    eapply stuck_case; [done| |by eapply stuck_thread]. exact (Forall2_lookup_lr _ _ _ _ _ _ Hok Ht Hg). }
  split; [|by eapply rest_result].
  intros t [i Ht]%list_elem_of_lookup. destruct (Forall2_lookup_l _ _ _ _ _ Hrest Ht) as (g & Hg & _).
  by eapply (rest_returned _ _ _ _ _ HI Hrest).
Qed.
End runs.

(** ** Running it *)

Definition rw_world (faults : list bool) : rwworld :=
  RW (λ _, 0) false (λ _, ∅) 0 [] false false false 0 false (replicate 4 0) ∅ ∅ faults.

Lemma rw_world_fresh : user_fresh 4 (rw_world []).
Proof. by split. Qed.

(** The program of main under policy_rstarve.c, and under policy_none.c. *)
Definition rstarve_user : pool rwE rwworld message := @user_process policy_rstarve user_kinds (rw_world []).
Definition none_user : pool rwE rwworld message := @user_process policy_none user_kinds (rw_world []).

(** main makes the lock and the threads; two readers share the lock, a writer
    waits. *)
Definition shared_run : pool rwE rwworld message :=
  schedule (replicate 12 4 ++ replicate 18 0 ++ replicate 18 1 ++ replicate 21 2)%nat rstarve_user.

Lemma rwlock_exclusion_witness :
  pool_trace shared_run = [(0%nat, MsgGot Rd 0); (1%nat, MsgGot Rd 1)] ∧
  rw_field (pool_world shared_run) (FWaiting Wr) = 1 ∧
  ∀ i j k, inside shared_run i Wr → inside shared_run j k → i = j.
Proof.
  split; [by vm_compute|]. split; [by vm_compute|].
  apply (@rwlock_exclusion policy_rstarve _ user_kinds (rw_world []) shared_run).
  - apply rw_world_fresh.
  - apply schedule_reachable.
Defined.

(** policy_none.c gives no exclusion: the program of main reaches a state
    in which both writers and a reader have the lock. *)
Theorem policy_none_no_exclusion : ∃ q, reachable none_user q ∧ inside q 2 Wr ∧ inside q 3 Wr ∧ inside q 0 Rd.
Proof.
  exists (schedule (replicate 12 4 ++ replicate 15 2 ++ replicate 15 3 ++ replicate 15 0)%nat none_user).
  split; [apply schedule_reachable|]. by split_and!; eexists; vm_compute.
Qed.

Lemma rwlock_new_ready_witness :
  wpt rwlock_new (rw_world []) (λ _ w', rw_ready 4 w') ∧
  wpt rwlock_new (rw_world [false; false; true]) (λ _ w', rw_aborted w' = true).
Proof.
  split.
  - apply (rwlock_new_ready 4 (rw_world [])); by repeat split.
  - apply (rwlock_new_ready 4 (rw_world [false; false; true])); by repeat split.
Defined.
