(* ===== verification/RwlockEnds.v ===== *)
(** * user.c ends

    The readers and writers go on until main says that it is done.  From then on
    every run is finite: each thread runs at most one more turn, so it wakes the
    sleepers at most twice more, and in between a thread goes to sleep only so
    often ([Paced]). *)
From S2P Require Import Prelude Prog Pools Alone PoolsTerm Paced Rwlock RwlockInv RwlockRuns.
Local Open Scope Z_scope.
Local Open Scope prog_scope.

(** ** The pace of a thread *)

(** Going to sleep uses up a place among the sleepers or a spurious wake-up, a
    broadcast gives places back, and reading that main is not done begins a new
    turn. *)
Definition rw_pace X (e : rwE X) (x : X) (w w' : rwworld) : pace :=
  match e in rwE X return X → pace with
  | CondSleep _ => λ _, Gain
  | Broadcast _ => λ _, Spend
  | GetDone => λ d, if d =? 0 then Fresh else Slow
  | _ => λ _, Slow
  end x.

Section costs.
Context `{Pol : !Policy, Snd : !SoundPolicy Pol} (N : nat).
Local Abbreviation cost := (costs rw_pace 2 N).
Local Abbreviation pays := (paces rw_pace 2 N).

(** A call that is neither a broadcast nor a look at done. *)
Local Ltac call := apply costs_trigger; [done|lia].
Local Ltac pay_call := pay 0%nat 1%nat; [call|].

Lemma cost_reads m t h : reads m t h → cost 0 m t.
Proof.
  induction 1 as [m t v Ht|m t f k h Ht _ IH]; intros n b c Hb Hc; (destruct n as [|n]; [done|]); cbn [paces]; rewrite Ht.
  - unfold at_least. lia.
  - intros w w' x _. cbn [rw_pace charge]. destruct c as [|c]; [lia|]. eapply paces_conseq; [apply IH; lia|].
    unfold at_least. intros. lia.
Qed.

Lemma cost_add_field f d : cost 0 2 (add_field f d).
Proof. unfold add_field. pay_call. call. Qed.

Lemma cost_check b : cost 0 1 (check b).
Proof. destruct b; [apply costs_ret|call]. Qed.

(** Every turn of the wait goes to sleep. *)
Lemma cost_wait_loop k : cost 0 4 (ITree.iter (λ _ : unit,
  let! b := kind_wait k in
  if b =? 0 then Ret (inr tt) else do! cond_wait k in Ret (inl tt)) tt).
Proof.
  intros n b c Hb Hc. apply (paces_iter _ _ _ _ (λ b' c' _, at_least 2 N b (c - 2) b' c')); [|unfold at_least; lia].
  clear n. intros n b1 c1 [] [Hb1 Hc1]. apply paces_bind.
  eapply paces_conseq; [eapply cost_reads; [apply wait_reads|lia|lia]|]. unfold at_least. cbn beta.
  intros b2 c2 v Hb2. destruct (v =? 0); [apply paces_ret; lia|].
  apply paces_bind. unfold cond_wait. apply paces_bind, paces_trigger. intros w w' t _. cbn [rw_pace charge].
  apply paces_trigger. intros w1 w1' [] _. cbn [rw_pace charge]. destruct N as [|[|N']]; [lia|lia|].
  apply paces_ret. lia.
Qed.

Lemma cost_kind_lock k : cost 0 12 (kind_lock k).
Proof.
  unfold kind_lock. pay_call. pay 0%nat 2%nat; [apply cost_add_field|]. pay 0%nat 4%nat; [apply cost_wait_loop|].
  do 2 (pay 0%nat 2%nat; [apply cost_add_field|]). call.
Qed.

Lemma cost_wakeup : cost 2 4 rwlock_wakeup.
Proof.
  assert (Hb : ∀ (x : Z) k, cost 1 1 (if x =? 0 then Ret tt else ! (Broadcast k))).
  { intros x k. case_match; [apply costs_ret|]. apply costs_trigger; lia. }
  unfold rwlock_wakeup. pay_call. pay 1%nat 1%nat; [apply Hb|]. pay_call. eapply costs_le; [| |apply Hb]; lia.
Qed.

Lemma cost_kind_unlock k : cost 2 8 (kind_unlock k).
Proof.
  unfold kind_unlock. pay_call. pay 0%nat 2%nat; [apply cost_add_field|]. pay 2%nat 4%nat; [apply cost_wakeup|]. call.
Qed.

(** A look at done: when main is not done a new turn begins. *)
Lemma paces_get_done n b c : (b ≤ 2)%nat → (3 ≤ c ≤ N)%nat →
  pays n b c get_done (λ b' c' d, if d =? 0 then at_least 2 N 2 (N - 1) b' c' else at_least 2 N 0 (c - 3) b' c').
Proof.
  intros Hb Hc. unfold get_done. apply paces_bind, paces_trigger. intros w w' [] _. cbn [rw_pace charge].
  destruct c as [|c]; [lia|]. apply paces_bind, paces_trigger. intros w1 w1' d _. cbn [rw_pace].
  unfold at_least. destruct (d =? 0) eqn:Hd; cbn [charge].
  - apply paces_bind, paces_trigger. intros w2 w2' [] _. cbn [rw_pace charge]. destruct N as [|N']; [lia|].
    apply paces_ret. rewrite Hd. lia.
  - destruct c as [|c]; [lia|]. apply paces_bind, paces_trigger. intros w2 w2' [] _. cbn [rw_pace charge].
    destruct c as [|c]; [lia|]. apply paces_ret. rewrite Hd. lia.
Qed.

(** What a turn does when main is not done. *)
Lemma cost_user_turn k id : cost 2 25 (
  do! kind_lock k in
  do! ! (Say (MsgGot k id)) in
  let! c := ! (GetCount id) in
  do! ! (SetCount id (c + 1)) in
  do! random_sleep in
  do! ! (Say (MsgDone k id)) in
  do! kind_unlock k in
  Ret (inl tt : unit + unit)).
Proof.
  pay 0%nat 12%nat; [apply cost_kind_lock|]. do 5 pay_call. pay 2%nat 8%nat; [apply cost_kind_unlock|]. apply costs_ret.
Qed.

Context (n : nat) (HN : N = (5 * n + 50)%nat).

Lemma thread_steady k id : steady rw_pace 2 N (thread_start k id) (2%nat, N).
Proof.
  split; [done|]. intros m. cbn [fst snd]. unfold thread_start. apply paces_bind, paces_trigger.
  intros w w' [] _. cbn [rw_pace charge]. destruct N as [|N'] eqn:E; [lia|]. rewrite <- E in *.
  unfold kind_thread. apply paces_bind. eapply (paces_conseq _ _ _ _ _ _ _ (λ b c _, at_least 2 N 0 2 b c)).
  - apply (paces_iter _ _ _ _ (λ b c _, at_least 2 N 0 5 b c)); [|unfold at_least; lia].
    clear m w w'. intros m b c [] [Hb Hc]. apply paces_bind. eapply paces_conseq; [apply paces_get_done; lia|].
    cbn beta. intros b' c' d Hd. destruct (d =? 0); cbn [negb].
    + destruct Hd. eapply paces_conseq; [apply cost_user_turn; lia|]. cbn beta. intros b2 c2 [[]|[]] [Hb2 Hc2]; unfold at_least.
      * destruct c2; lia.
      * lia.
    + apply paces_ret. unfold at_least in *. lia.
  - cbn beta. intros b c [] [Hb Hc]. assert (Hend : cost 0 2 (do! ! (Say (MsgExiting k id)) in ! (Finish id))).
    { pay_call. call. }
    eapply paces_conseq; [apply Hend; lia|done].
Qed.

Lemma cost_create i k : cost 0 k (create_threads i k).
Proof.
  revert i. induction k as [|k IH]; intros i; cbn [create_threads]; [apply costs_ret|].
  apply (costs_seq _ _ _ 0 1); [lia|lia|call|]. intros _. replace (S k - 1)%nat with k by lia. apply IH.
Qed.

Lemma cost_join_sum i k z : cost 0 (2 * k) (join_sum i k z).
Proof.
  revert i z. induction k as [|k IH]; intros i z; cbn [join_sum]; [apply costs_ret|].
  do 2 (apply (costs_seq _ _ _ 0 1); [lia|lia|call|]; intros ?). replace (2 * S k - 1 - 1)%nat with (2 * k)%nat by lia. apply IH.
Qed.

Lemma cost_print_shares i k z : cost 0 (2 * k) (print_shares i k z).
Proof.
  revert i. induction k as [|k IH]; intros i; cbn [print_shares]; [apply costs_ret|].
  do 2 (apply (costs_seq _ _ _ 0 1); [lia|lia|call|]; intros ?). replace (2 * S k - 1 - 1)%nat with (2 * k)%nat by lia. apply IH.
Qed.

Lemma cost_rwlock_new : cost 0 11 rwlock_new.
Proof.
  unfold rwlock_new. pay_call. do 3 (pay_call; pay 0%nat 1%nat; [apply cost_check|]). do 3 pay_call. call.
Qed.

Lemma cost_rwlock_destroy : cost 0 7 rwlock_destroy.
Proof. unfold rwlock_destroy. do 3 (pay_call; pay 0%nat 1%nat; [apply cost_check|]). call. Qed.

Lemma cost_set_done : cost 0 3 set_done.
Proof. unfold set_done. do 2 pay_call. call. Qed.

Lemma user_main_steady : steady rw_pace 2 N (user_main n) (2%nat, N).
Proof.
  apply (costs_steady _ _ _ 0 N); [lia|done|]. unfold user_main, main_rest.
  apply (costs_seq _ _ _ 0 11); [lia|lia|apply cost_rwlock_new|]. intros _.
  apply (costs_seq _ _ _ 0 n); [lia|lia|apply cost_create|]. intros _.
  apply (costs_seq _ _ _ 0 1); [lia|lia|call|]. intros _.
  apply (costs_seq _ _ _ 0 3); [lia|lia|apply cost_set_done|]. intros _.
  apply (costs_seq _ _ _ 0 (2 * n)); [lia|lia|apply cost_join_sum|]. intros z.
  apply (costs_seq _ _ _ 0 7); [lia|lia|apply cost_rwlock_destroy|]. intros _.
  eapply costs_le; [| |apply cost_print_shares]; lia.
Qed.
End costs.

(** ** Places among the sleepers *)

Definition tickets_used (w : rwworld) : Prop := ∀ k t, t ∈ rw_sleep w k → (t < rw_ticket w)%nat.

Lemma tickets_stay X (e : rwE X) w w' x : sys e w = Some (w', x) → tickets_used w → tickets_used w'.
Proof.
  intros Hs Hu. destruct e; cbn in Hs; unfold pop_rwfault in Hs; repeat (case_match || simplify_eq); try done;
    intros k' t'; cbn; unfold upd; repeat case_decide; subst; try (by intros Ht%Hu; lia);
    try (by intros ?%elem_of_empty); intros [->%elem_of_singleton|Ht%Hu]%elem_of_union; cbn in *; lia.
Qed.

Definition ticket_of (k : kind) (g : ghost) : option nat :=
  match g.2 with Asleep k' t => if decide (k = k') then Some t else None | _ => None end.

(** Who sleeps does not hold the mutex. *)
Lemma places_taken (gs : list ghost) :
  (length (omap (ticket_of Rd) gs) + length (omap (ticket_of Wr) gs) + tot in_cs gs ≤ length gs)%nat.
Proof.
  unfold tot, total. induction gs as [|[id s] gs IH]; cbn; [lia|]. destruct s as [| | |[] ?| | | | | | | | | | |]; cbn;
    repeat case_decide; cbn; try done; lia.
Qed.

Lemma sleepers_le n tr gs w k : rwinv n tr gs w → (size (rw_sleep w k) ≤ length (omap (ticket_of k) gs))%nat.
Proof.
  intros HI. apply submseteq_length, NoDup_submseteq; [apply NoDup_elements|]. intros t Ht%elem_of_elements.
  destruct (ri_sleep _ _ _ _ HI k t Ht) as (i & id & Hi). apply list_elem_of_omap. exists (id, Asleep k t).
  split; [by eapply list_elem_of_lookup_2|]. unfold ticket_of. cbn. by rewrite decide_True.
Qed.

Definition places_left (n : nat) (w : rwworld) : nat :=
  length (rw_spurious w) + (S n - (size (rw_sleep w Rd) + size (rw_sleep w Wr))).

(** Going to sleep takes a place, or one of the spurious wake-ups. *)
Lemma sleep_takes n tr gs w i id p F k w' x : rwinv n tr gs w → tickets_used w → gs !! i = Some (id, Cs p F) →
  sys (CondSleep k) w = Some (w', x) → (places_left n w' < places_left n w)%nat.
Proof.
  intros HI Hu Hi Hs. pose proof (places_taken gs) as Hp. rewrite (ri_len _ _ _ _ HI) in Hp.
  pose proof (sleepers_le _ _ _ _ Rd HI). pose proof (sleepers_le _ _ _ _ Wr HI).
  pose proof (total_in (λ g : ghost, in_cs g.2) _ _ _ Hi) as Hcs. unfold tot in Hp. cbn in Hcs.
  assert (Hnew : size ({[rw_ticket w]} ∪ rw_sleep w k) = S (size (rw_sleep w k))).
  { rewrite size_union, size_singleton; [done|]. intros t ->%elem_of_singleton Ht. apply Hu in Ht. lia. }
  unfold places_left. cbn in Hs. destruct (rw_spurious w) as [|[] sp]; simplify_eq; cbn; [| |];
    destruct k; unfold upd; repeat case_decide; try done; rewrite ?Hnew; lia.
Qed.

(** Nothing else but a broadcast touches the sleepers. *)
Lemma places_same n X (e : rwE X) w w' x : sys e w = Some (w', x) → rw_pace X e x w w' = Slow →
  places_left n w' = places_left n w.
Proof.
  intros Hs Hp. destruct e; try done; cbn in Hs; unfold pop_rwfault in Hs; repeat (case_match || simplify_eq); done.
Qed.

(** ** The end *)

Section ends.
Context `{Pol : !Policy, Snd : !SoundPolicy Pol} (ks : list kind) (w0 : rwworld) (Hw0 : user_fresh (length ks) w0).
Let n := length ks.
Let p0 := user_process ks w0.

(** Once main is done the invariant holds, and main stays done. *)
Lemma done_running q : reachable p0 q → u_done (pool_world q) ≠ 0 → user_running n q.
Proof.
  intros Hr Hd. destruct (user_cases _ _ _ Hw0 Hr) as [(_ & (Hz & _) & _)|H]; [by rewrite Hz in Hd|done].
Qed.

Lemma running_event q i t X (e : rwE X) h : user_running n q → pool_threads q !! i = Some t → observe t = VisF e h →
  ∃ gs g, rwinv n (pool_trace q) gs (pool_world q) ∧ gs !! i = Some g ∧ rw_waits n X g e.
Proof.
  intros (gs & HI & Hok) Ht Ho. destruct (Forall2_lookup_l _ _ _ _ _ Hok Ht) as (g & Hg & Hok1).
  exists gs, g. split_and!; try done. cbn in Hok1. rewrite Ho in Hok1. by destruct Hok1.
Qed.

Lemma done_moves p q : reachable p0 p → u_done (pool_world p) ≠ 0 → pool_step p q → u_done (pool_world q) ≠ 0.
Proof.
  intros Hr Hd Hs. pose proof (done_running p Hr Hd) as Hrun.
  inversion Hs as [i ts t t' w w' tr Hi Hst]; subst. cbn in *. unfold step_thread in Hst.
  destruct (observe t) as [r|t1|X e h] eqn:Ho; [done|by simplify_eq|].
  destruct (running_event _ i t X e h Hrun Hi Ho) as (gs & g & _ & _ & HA). cbn in *.
  destruct (sys e w) as [[w1 x]|] eqn:He; [|done]. simplify_eq.
  destruct e; cbn in He; unfold pop_rwfault in He; repeat (case_match || simplify_eq); try done.
  cbn in HA. by destruct HA as [_ ->].
Qed.

Lemma done_stays p q : reachable p0 p → u_done (pool_world p) ≠ 0 → reachable p q →
  reachable p0 q ∧ u_done (pool_world q) ≠ 0.
Proof.
  intros Hp Hd Hr. unfold reachable in Hr. induction Hr as [|p p1 q Hs _ IH]; [done|].
  apply IH; [by eapply rtc_r|by eapply done_moves].
Qed.

Lemma threads_steady : let N := (5 * n + 50)%nat in
  Forall2 (steady rw_pace 2 N) (pool_threads p0) (replicate (S n) (2%nat, N)).
Proof.
  intros N. apply Forall2_same_length_lookup_2.
  { cbn. rewrite length_app, length_imap, length_replicate. cbn. unfold n. lia. }
  intros i t bk Ht [-> _]%lookup_replicate. cbn in Ht. apply lookup_app_Some in Ht as [Ht|[_ Ht]].
  - rewrite list_lookup_imap_Some in Ht. destruct Ht as (k & _ & ->). by apply (thread_steady N n).
  - apply list_lookup_singleton_Some in Ht as [_ <-]. by apply (user_main_steady N n).
Qed.

Lemma user_ends q : reachable p0 q → u_done (pool_world q) ≠ 0 → sn pool_step q.
Proof.
  intros Hr Hd. destruct (steady_reach _ _ _ _ _ _ Hr threads_steady) as (bks & Hbks).
  refine (steady_terminates rw_pace 2 _ q (λ _, places_left n) _ q bks (rtc_refl _ _) Hbks).
  intros ts w tr i t X e h w' x Hr' Hi Ho Hs. cbv zeta.
  destruct (done_stays _ _ Hr Hd Hr') as [Hr0 Hd']. pose proof (done_running _ Hr0 Hd') as Hrun. cbn [pool_world] in Hd'.
  destruct (running_event _ i t X e h Hrun Hi Ho) as (gs & g & HI & Hg & HA). cbn [pool_trace pool_world] in HI.
  destruct (rw_pace X e x w w') eqn:Hp; [|..|done|].
  - apply Nat.eq_le_incl. by eapply places_same.
  - destruct e; try done; [|cbn in Hp; by case_match]. destruct g as [id s]. cbn in HA. destruct s; try done.
    eapply sleep_takes; [done| |done|done].
    apply (reachable_stable tickets_used _ _ tickets_stay Hr0). intros k' t'. cbn. rewrite (uf_sleep _ _ Hw0). set_solver.
  - destruct e; try done. cbn in Hp, Hs. simplify_eq. case_match eqn:E; [|done]. apply Z.eqb_eq in E. done.
Qed.

(** C28. user.c ends.  Under the same policies, in every interleaving from the
    first call of main on: once main has said that it is done every run comes to
    an end; and a state in which no thread can move is one in which every reader,
    every writer and main have returned and the lock is freed: nobody waits for
    ever for a wake-up.  Each thread's count is then the number of times it said
    it got the lock, and main has printed, for each thread, its count and the sum
    of all counts. *)
Theorem rwlock_user_ends q : reachable (user_process ks w0) q → let w := pool_world q in
  (u_done w ≠ 0 → sn pool_step q) ∧
  (stuck q = true →
    (∀ t, t ∈ pool_threads q → finished t = true) ∧ rw_live w = false ∧
    u_counts w = map (λ i, gots (labels_of i (pool_trace q))) (seq 0 (length ks)) ∧
    labels_of (length ks) (pool_trace q) = shares (u_counts w) (sum_counts (u_counts w)) (length ks)).
Proof. intros Hr w. split; [by apply user_ends|by eapply user_settled]. Qed.
End ends.

(** To the end. *)
Definition full_user_run : pool rwE rwworld message :=
  schedule (replicate 12 4%nat ++ concat (replicate 150 [0; 1; 2; 3; 4]%nat)) rstarve_user.

Lemma rwlock_user_ends_witness :
  stuck full_user_run = true ∧ rw_live (pool_world full_user_run) = false ∧
  u_counts (pool_world full_user_run) = [1; 1; 1; 1] ∧
  labels_of 4 (pool_trace full_user_run) = [MsgShare 0 1 4; MsgShare 1 1 4; MsgShare 2 1 4; MsgShare 3 1 4].
Proof.
  assert (Hs : stuck full_user_run = true) by by vm_compute.
  assert (Hc : u_counts (pool_world full_user_run) = [1; 1; 1; 1]) by by vm_compute.
  destruct (@rwlock_user_ends policy_rstarve _ user_kinds (rw_world []) rw_world_fresh full_user_run) as [_ H].
  - apply schedule_reachable.
  - destruct (H Hs) as (_ & Hl & _ & Hp). rewrite Hc in Hp. by split_and!.
Defined.
