(* ===== verification/Trials.v ===== *)
(** * Counting with and without a lock (practica/pthreads/locks, practica/pthreads/sema)

    locks.c, sema.c and no_locks.c run the same trials: two threads increment a
    shared counter and main looks at the sum.  They differ in what guards the
    increment, which is the class [Guard].  Every access to the counter and
    every call is one event of an interleaving; thread [j] of the pool's list
    starts to run when main creates it, and trial [k] creates the threads [2k]
    and [2k + 1].  pthread_create is not checked by the programs and is taken
    to succeed. *)
From S2P Require Import Prelude Prog Pools.
Local Open Scope Z_scope.
Local Open Scope prog_scope.

(** ** The world *)

Record tworld := TW {
  t_i : Z;                  (* the counter *)
  t_mu : bool;              (* the mutex of locks.c is held *)
  t_sem : Z;                (* the value of the semaphore of sema.c *)
  t_created : gset nat;
  t_exited : gset nat;
  t_aborted : bool;         (* an assertion failed *)
  t_faults : list bool      (* whether the next call that may fail does *)
}.
Definition set_i v w := TW v (t_mu w) (t_sem w) (t_created w) (t_exited w) (t_aborted w) (t_faults w).
Definition set_mu b w := TW (t_i w) b (t_sem w) (t_created w) (t_exited w) (t_aborted w) (t_faults w).
Definition set_sem v w := TW (t_i w) (t_mu w) v (t_created w) (t_exited w) (t_aborted w) (t_faults w).
Definition set_threads cr ex w := TW (t_i w) (t_mu w) (t_sem w) cr ex (t_aborted w) (t_faults w).

Inductive verdict := OhNo (result : Z) | Found (avios count : Z).

Variant trialE : Type → Type :=
  | GetI : trialE Z
  | SetI (v : Z) : trialE unit
  | MutexInit : trialE Z
  | MutexLock : trialE Z
  | MutexUnlock : trialE Z
  | MutexDestroy : trialE Z
  | SemInit (v : Z) : trialE Z
  | SemWait : trialE Z               (* -1 when a signal interrupts it *)
  | SemPost : trialE Z
  | SemDestroy : trialE Z
  | AbortT : trialE unit
  | CreateT (j : nat) : trialE unit
  | BeginT (j : nat) : trialE unit
  | ExitT (j : nat) : trialE unit
  | JoinT (j : nat) : trialE unit
  | PrintT (m : verdict) : trialE unit.

Definition pop_tfault (w : tworld) : bool * tworld :=
  match t_faults w with
  | [] => (false, w)
  | b :: fl => (b, TW (t_i w) (t_mu w) (t_sem w) (t_created w) (t_exited w) (t_aborted w) fl)
  end.

#[export] Instance trial_kernel : Kernel trialE tworld := λ X e w,
  match e in trialE X return option (tworld * X) with
  | GetI => Some (w, t_i w)
  | SetI v => Some (set_i v w, tt)
  | MutexInit => let '(b, w) := pop_tfault w in Some (if (b : bool) then (w, 12) else (set_mu false w, 0))
  | MutexLock => if t_mu w then None else Some (set_mu true w, 0)
  | MutexUnlock => Some (set_mu false w, 0)
  | MutexDestroy => Some (w, if t_mu w then 16 else 0)
  | SemInit v => let '(b, w) := pop_tfault w in Some (if (b : bool) then (w, -1) else (set_sem v w, 0))
  | SemWait =>
      let '(b, w) := pop_tfault w in
      if (b : bool) then Some (w, -1)
      else if t_sem w =? 0 then None else Some (set_sem (t_sem w - 1) w, 0)
  | SemPost => Some (set_sem (t_sem w + 1) w, 0)
  | SemDestroy => Some (w, 0)
  | AbortT => Some (TW (t_i w) (t_mu w) (t_sem w) (t_created w) (t_exited w) true (t_faults w), tt)
  | CreateT j => Some (set_threads ({[j]} ∪ t_created w) (t_exited w) w, tt)
  | BeginT j => if decide (j ∈ t_created w) then Some (w, tt) else None
  | ExitT j => Some (set_threads (t_created w) ({[j]} ∪ t_exited w) w, tt)
  | JoinT j => if decide (j ∈ t_exited w) then Some (w, tt) else None
  | PrintT m => Some (w, tt)
  end.

#[export] Instance trial_labelled : Labelled trialE verdict := λ X e,
  match e in trialE X return X → list verdict with
  | PrintT m => λ _, [m]
  | _ => λ _, []
  end.

(** ** The programs *)

(** What guards the increment: the calls, where the program has them. *)
Class Guard := {
  init_call : option (trialE Z);
  acquire_call : option (trialE Z);
  release_call : option (trialE Z);
  destroy_call : option (trialE Z)
}.

Definition locks_guard : Guard :=
  {| init_call := Some MutexInit; acquire_call := Some MutexLock;
     release_call := Some MutexUnlock; destroy_call := Some MutexDestroy |}.
Definition sema_guard : Guard :=
  {| init_call := Some (SemInit 1); acquire_call := Some SemWait;
     release_call := Some SemPost; destroy_call := Some SemDestroy |}.
Definition no_locks_guard : Guard :=
  {| init_call := None; acquire_call := None; release_call := None; destroy_call := None |}.

Definition call (e : option (trialE Z)) : itree trialE Z :=
  match e with Some e => ! e | None => Ret 0 end.
(** assert (!rc), and what follows it. *)
Definition assert_zero (rc : Z) (rest : itree trialE unit) : itree trialE unit :=
  if rc =? 0 then rest else ! AbortT.

Section programs.
Context `{!Guard}.

(** i++ between the calls, whose results are not looked at. *)
Definition thread : itree trialE unit :=
  do! call acquire_call in
  let! x := ! GetI in
  do! ! (SetI (x + 1)) in
  do! call release_call in
  Ret tt.

Definition thread_at (j : nat) : itree trialE unit :=
  do! ! (BeginT j) in
  do! thread in
  ! (ExitT j).

(** One turn of main's loop; the number of violations found. *)
Definition trial (k : nat) : itree trialE Z :=
  do! ! (SetI 0) in
  do! ! (CreateT (2 * k)) in
  do! ! (CreateT (2 * k + 1)) in
  do! ! (JoinT (2 * k)) in
  do! ! (JoinT (2 * k + 1)) in
  let! i := ! GetI in
  if i =? 2 then Ret 0
  else
    let! i := ! GetI in
    do! ! (PrintT (OhNo i)) in
    Ret 1.

(** [n] turns from turn [k] on. *)
Fixpoint trials (n k : nat) (avios : Z) : itree trialE Z :=
  match n with
  | O => Ret avios
  | S n => let! v := trial k in trials n (S k) (avios + v)
  end.

Definition TRIALS : nat := Z.to_nat 1000000.

Definition trials_main (n : nat) : itree trialE unit :=
  let! rc := call init_call in
  assert_zero rc (
    let! avios := trials n 0 0 in
    do! ! (PrintT (Found avios (Z.of_nat n))) in
    let! rc := call destroy_call in
    assert_zero rc (Ret tt)).

(** main with [n] trials, and the threads it will create. *)
Definition trials_process (n : nat) (w : tworld) : pool trialE tworld verdict :=
  Pool (trials_main n :: (thread_at <$> seq 0 (2 * n))) w [].
End programs.

(** The three programs. *)
Definition locks_thread : itree trialE unit := @thread locks_guard.
Definition locks_main : itree trialE unit := @trials_main locks_guard TRIALS.
Definition sema_thread : itree trialE unit := @thread sema_guard.
Definition sema_main : itree trialE unit := @trials_main sema_guard TRIALS.
Definition no_locks_thread : itree trialE unit := @thread no_locks_guard.
Definition no_locks_main : itree trialE unit := @trials_main no_locks_guard TRIALS.
