(* ===== verification/TrialsInv.v ===== *)
(** * What a guard makes of the trials

    The interface a lock offers its users ([SoundGuard]), that the mutex of
    locks.c and the semaphore of sema.c provide it, and the invariant of the
    trials for any guard that does. *)
From S2P Require Import Prelude Prog Pools Trials.
Local Open Scope Z_scope.
Local Open Scope prog_scope.

(** ** The interface *)

(** Worlds that differ in the lock only. *)
Definition same_but_lock (w w' : tworld) : Prop :=
  t_i w' = t_i w ∧ t_created w' = t_created w ∧ t_exited w' = t_exited w ∧
  t_aborted w' = t_aborted w ∧ t_faults w' = t_faults w.

(** When no call is interrupted: [lock_is w b] says whether the guard is taken. *)
Class SoundGuard (G : Guard) := {
  lock_is : tworld → bool → Prop;
  lock_init : ∃ e, init_call = Some e ∧ ∀ w, t_faults w = [] →
    ∃ w', sys e w = Some (w', 0) ∧ lab e 0 = [] ∧ lock_is w' false ∧ same_but_lock w w';
  lock_acquire : ∃ e, acquire_call = Some e ∧ (∀ x, lab e x = []) ∧ ∀ w, t_faults w = [] →
    match sys e w with
    | None => ¬ lock_is w false
    | Some (w', x) => ¬ lock_is w true ∧ (lock_is w false → lock_is w' true) ∧ same_but_lock w w'
    end;
  lock_release : ∃ e, release_call = Some e ∧ (∀ x, lab e x = []) ∧ (∀ w, sys e w ≠ None) ∧ ∀ w, t_faults w = [] → lock_is w true →
    ∃ w' x, sys e w = Some (w', x) ∧ lock_is w' false ∧ same_but_lock w w';
  lock_destroy : ∃ e, destroy_call = Some e ∧ (∀ x, lab e x = []) ∧ (∀ w, sys e w ≠ None) ∧ ∀ w, lock_is w false → sys e w = Some (w, 0);
  lock_local w w' b : t_mu w' = t_mu w → t_sem w' = t_sem w → lock_is w b → lock_is w' b
}.

#[export] Program Instance locks_sound : SoundGuard locks_guard :=
  {| lock_is w b := t_mu w = b |}.
Next Obligation.
  exists MutexInit. split; [done|]. intros w Hw. cbn. unfold pop_tfault. rewrite Hw.
  eexists. by split_and!.
Qed.
Next Obligation.
  exists MutexLock. split_and!; [done|done|]. intros w _. cbn. destruct (t_mu w); [done|by split_and!].
Qed.
Next Obligation. exists MutexUnlock. split_and!; [done..|]. intros w _ _. eexists _, _. by split_and!. Qed.
Next Obligation. exists MutexDestroy. split_and!; [done..|]. intros w Hw. cbn. by rewrite Hw. Qed.
Next Obligation. congruence. Qed.

#[export] Program Instance sema_sound : SoundGuard sema_guard :=
  {| lock_is w b := t_sem w = if b then 0 else 1 |}.
Next Obligation.
  exists (SemInit 1). split; [done|]. intros w Hw. cbn. unfold pop_tfault. rewrite Hw.
  eexists. by split_and!.
Qed.
Next Obligation.
  exists SemWait. split_and!; [done|done|]. intros w Hw. cbn. unfold pop_tfault. rewrite Hw.
  destruct (Z.eqb_spec (t_sem w) 0) as [->|Hne]; [done|]. split_and!; try done. cbn. intros ->. done.
Qed.
Next Obligation.
  exists SemPost. split_and!; [done..|]. intros w _ Hw. eexists _, _. split_and!; try done. cbn. by rewrite Hw.
Qed.
Next Obligation. exists SemDestroy. by split_and!. Qed.
Next Obligation. congruence. Qed.

(** ** Ghost state *)

(** main: before the initialisation, in trial [k] (reset the counter or not;
    created and joined that many of the two), at the end; and a thread. *)
Inductive tstage :=
  | MInit | MTrial (k : nat) (reset : bool) (c j : nat) | MEnd
  | TBefore | TOut | TIn | TRead (x : Z) | TWrote | TAfter | TDone.
Abbreviation tghost := (nat * tstage)%type.

Definition t_main (s : tstage) : bool := match s with MInit | MTrial _ _ _ _ | MEnd => true | _ => false end.
Definition t_wrote (s : tstage) : nat := match s with TWrote | TAfter | TDone => 1 | _ => 0 end.
Definition t_cs (s : tstage) : nat := match s with TIn | TRead _ | TWrote => 1 | _ => 0 end.

Section inv.
Context (n : nat) `{Grd : !Guard, Snd : !SoundGuard Grd}.

Definition ncreated (m : tstage) : nat :=
  match m with MInit => 0 | MTrial k _ c _ => 2 * k + c | _ => 2 * n end.
Definition njoined (m : tstage) : nat :=
  match m with MInit => 0 | MTrial k _ _ j => 2 * k + j | _ => 2 * n end.

(** What the program has printed. *)
Definition said (m : tstage) : list (nat * verdict) :=
  match m with MEnd => [(0%nat, Found 0 (Z.of_nat n))] | _ => [] end.

Definition tsum (f : tstage → nat) (gs : list tghost) : nat := total (λ g, f g.2) gs.

(** What holds while main is in [m]. *)
Record main_inv (m : tstage) (gs : list tghost) (w : tworld) : Prop := {
  mi_created : ∀ j, j ∈ t_created w ↔ (j < ncreated m)%nat;
  mi_bound : (ncreated m ≤ 2 * n)%nat;
  mi_joined : ∀ j, (j < njoined m)%nat → gs !! S j = Some (S j, TDone);
  mi_lock : m ≠ MInit → ∃ b, lock_is w b ∧ tsum t_cs gs = Nat.b2n b;
  mi_count : ∀ k c j, m = MTrial k true c j → t_i w + Z.of_nat (2 * k) = Z.of_nat (tsum t_wrote gs)
}.

Record trinv (tr : list (nat * verdict)) (gs : list tghost) (w : tworld) : Prop := {
  ti_len : length gs = S (2 * n);
  ti_who : ∀ i id s, gs !! i = Some (id, s) → id = i ∧ t_main s = bool_decide (i = 0%nat);
  ti_clean : t_faults w = [] ∧ t_aborted w = false;
  ti_said : ∀ m, gs !! 0%nat = Some (0%nat, m) → tr = said m;
  ti_main : ∀ m, gs !! 0%nat = Some (0%nat, m) → main_inv m gs w;
  ti_before : ∀ j s, gs !! S j = Some (S j, s) → s ≠ TBefore → j ∈ t_created w;
  ti_exited : ∀ j, j ∈ t_exited w ↔ gs !! S j = Some (S j, TDone);
  ti_read : ∀ i id x, gs !! i = Some (id, TRead x) → x = t_i w
}.

(** Why a thread may wait. *)
Definition twaits X (g : tghost) (e : trialE X) : Prop := ∀ w, t_faults w = [] → sys e w = None →
  (g.2 = TOut ∧ ¬ lock_is w false) ∨ (∃ j, g = (S j, TBefore) ∧ j ∉ t_created w) ∨
  (∃ k j, g = (0%nat, MTrial k true 2 j) ∧ (j < 2)%nat ∧ (2 * k + j)%nat ∉ t_exited w).

Local Abbreviation tok := (ok trinv twaits).

Lemma main_there tr gs w : trinv tr gs w → ∃ m, gs !! 0%nat = Some (0%nat, m) ∧ main_inv m gs w.
Proof.
  intros HI. destruct (lookup_lt_is_Some_2 gs 0) as [[id m] Hm]; [rewrite (ti_len _ _ _ HI); lia|].
  destruct (ti_who _ _ _ HI _ _ _ Hm) as [-> _]. exists m. split; [done|]. by apply (ti_main _ _ _ HI).
Qed.

Lemma tsum_insert f gs i g g' : gs !! i = Some g →
  (tsum f (<[i := g']> gs) + f g.2 = tsum f gs + f g'.2)%nat.
Proof. apply (total_insert (λ g, f g.2)). Qed.

(** A thread that is created runs after the initialisation. *)
Lemma thread_lock tr gs w j s : trinv tr gs w → gs !! S j = Some (S j, s) → s ≠ TBefore →
  ∃ b, lock_is w b ∧ tsum t_cs gs = Nat.b2n b.
Proof.
  intros HI Hj Hs. destruct (main_there _ _ _ HI) as (m & Hm & Hmi). apply (mi_lock _ _ _ Hmi). intros ->.
  pose proof (ti_before _ _ _ HI _ _ Hj Hs) as Hc. apply (mi_created _ _ _ Hmi) in Hc. cbn in Hc. lia.
Qed.

(** In the critical section a thread is alone. *)
Lemma thread_alone tr gs w j s i id x : trinv tr gs w → gs !! S j = Some (S j, s) → t_cs s = 1%nat →
  gs !! i = Some (id, TRead x) → i = S j.
Proof.
  intros HI Hj Hs Hi. destruct (decide (i = S j)) as [|Hne]; [done|]. exfalso.
  destruct (thread_lock _ _ _ _ _ HI Hj) as (b & _ & Hsum); [by intros ->|].
  pose proof (total_two (λ g : tghost, t_cs g.2) gs i (S j) _ _ Hne Hi Hj) as H. cbn in H.
  rewrite Hs in H. unfold tsum in Hsum. rewrite Hsum in H. destruct b; cbn in H; lia.
Qed.

(** ** Steps *)

Lemma lookup_set (gs : list tghost) (i : nat) x y j : gs !! i = Some x → <[i := y]> gs !! j = if decide (i = j) then Some y else gs !! j.
Proof.
  intros Hi. case_decide; [subst|by rewrite list_lookup_insert_ne].
  apply list_lookup_insert_eq. by eapply lookup_lt_Some.
Qed.

(** Is this the thread that moved? *)
Ltac at_index := match goal with |- context [if decide (?a = ?b) then _ else _] => destruct (decide (a = b)) end.

(** Thread [j] goes from [s] to [s']. *)
Lemma thread_step tr gs w w' j s s' : trinv tr gs w → gs !! S j = Some (S j, s) →
  t_main s' = false → s' ≠ TBefore → s ≠ TDone → j ∈ t_created w →
  t_faults w' = t_faults w → t_aborted w' = t_aborted w → t_created w' = t_created w →
  t_exited w' = match s' with TDone => {[j]} ∪ t_exited w | _ => t_exited w end →
  t_i w' + Z.of_nat (t_wrote s) = t_i w + Z.of_nat (t_wrote s') →
  (t_i w' = t_i w ∨ t_cs s = 1%nat) → (∀ x, s' = TRead x → x = t_i w') →
  (∀ b, lock_is w b → tsum t_cs gs = Nat.b2n b → ∃ b', lock_is w' b' ∧ (Nat.b2n b' + t_cs s = Nat.b2n b + t_cs s')%nat) →
  trinv (tr ++ map (pair (S j)) []) (<[S j := (S j, s')]> gs) w'.
Proof.
  intros HI Hj Hm' Hb' Hd Hc E1 E2 E3 Hex Hi Hcs Hrd Hlock. cbn. rewrite app_nil_r.
  destruct (ti_who _ _ _ HI _ _ _ Hj) as [_ Hm]. cbn in Hm.
  pose proof (tsum_insert t_cs gs _ _ (S j, s') Hj) as Scs. pose proof (tsum_insert t_wrote gs _ _ (S j, s') Hj) as Swr.
  cbn in Scs, Swr. constructor.
  - rewrite length_insert. apply HI.
  - intros i id s1. rewrite (lookup_set _ _ _ _ _ Hj). at_index; [|apply (ti_who _ _ _ HI)]. subst. intros [= <- <-]. by rewrite Hm'.
  - rewrite E1, E2. apply HI.
  - intros m. rewrite (lookup_set _ _ _ _ _ Hj), decide_False by done. apply (ti_said _ _ _ HI).
  - intros m. rewrite (lookup_set _ _ _ _ _ Hj), decide_False by done. intros Hm0.
    destruct (ti_main _ _ _ HI _ Hm0) as [M1 M2 M3 M4 M5]. split; try done.
    + by rewrite E3.
    + intros i Hij. rewrite (lookup_set _ _ _ _ _ Hj). at_index; [|by apply M3].
      specialize (M3 i Hij). congruence.
    + intros Hmi. destruct (M4 Hmi) as (b & Hb & Hsum). destruct (Hlock b Hb Hsum) as (b' & Hb1 & Hb2).
      exists b'. split; [done|lia].
    + intros k c i ->. specialize (M5 _ _ _ eq_refl). lia.
  - intros i s1. rewrite (lookup_set _ _ _ _ _ Hj), E3. at_index; [|apply (ti_before _ _ _ HI)]. by intros [= <- <-].
  - intros i. assert (i ∈ t_exited w' ↔ i ∈ t_exited w ∨ (i = j ∧ s' = TDone)) as ->.
    { rewrite Hex. destruct s'; set_solver. }
    rewrite (lookup_set _ _ _ _ _ Hj), (ti_exited _ _ _ HI). at_index.
    + simplify_eq. split; [intros [?|[_ ->]]; congruence|]. intros [= ->]. by right.
    + split; [intros [?|[-> _]]; congruence|by left].
  - intros i id x. rewrite (lookup_set _ _ _ _ _ Hj). at_index; [intros [= _ ->]; by apply Hrd|]. intros Hx.
    rewrite (ti_read _ _ _ HI _ _ _ Hx). destruct Hcs as [->|Hcs]; [done|].
    by pose proof (thread_alone _ _ _ _ _ _ _ _ HI Hj Hcs Hx).
Qed.

(** main goes from [m] to [m']. *)
Lemma trials_main_step tr gs w w' m m' ls : trinv tr gs w → gs !! 0%nat = Some (0%nat, m) →
  t_main m' = true → said m ++ map (pair 0%nat) ls = said m' →
  t_faults w' = t_faults w → t_aborted w' = t_aborted w → t_exited w' = t_exited w →
  t_created w ⊆ t_created w' →
  (t_i w' = t_i w ∨ tsum t_cs gs = 0%nat) →
  main_inv m' (<[0%nat := (0%nat, m')]> gs) w' →
  trinv (tr ++ map (pair 0%nat) ls) (<[0%nat := (0%nat, m')]> gs) w'.
Proof.
  intros HI H0 Hm' Hls E1 E2 E3 Hcr Hi Hmi. constructor.
  - rewrite length_insert. apply HI.
  - intros i id s1. rewrite (lookup_set _ _ _ _ _ H0). at_index; [|apply (ti_who _ _ _ HI)]. subst. intros [= <- <-]. by rewrite Hm'.
  - rewrite E1, E2. apply HI.
  - intros m1. rewrite (lookup_set _ _ _ _ _ H0), decide_True by done. intros [= <-].
    by rewrite (ti_said _ _ _ HI _ H0).
  - intros m1. rewrite (lookup_set _ _ _ _ _ H0), decide_True by done. by intros [= <-].
  - intros i s1. rewrite (lookup_set _ _ _ _ _ H0), decide_False by done. intros Hs Hb.
    by eapply Hcr, (ti_before _ _ _ HI).
  - intros i. rewrite (lookup_set _ _ _ _ _ H0), decide_False, E3 by done. apply (ti_exited _ _ _ HI).
  - intros i id x. rewrite (lookup_set _ _ _ _ _ H0). at_index; [by intros [= <- ->]|]. intros Hx.
    rewrite (ti_read _ _ _ HI _ _ _ Hx). destruct Hi as [->|Hz]; [done|].
    pose proof (total_in (λ g : tghost, t_cs g.2) gs i _ Hx) as H. unfold tsum in Hz. rewrite Hz in H. cbn in H. lia.
Qed.

Lemma main_sums gs m m' f : gs !! 0%nat = Some (0%nat, m) → f m = 0%nat → f m' = 0%nat →
  tsum f (<[0%nat := (0%nat, m')]> gs) = tsum f gs.
Proof. intros H0 E1 E2. pose proof (tsum_insert f gs _ _ (0%nat, m') H0) as H. cbn in H. lia. Qed.

Lemma main_zero m f : t_main m = true → f = t_cs ∨ f = t_wrote → f m = 0%nat.
Proof. intros Hm [->| ->]; by destruct m. Qed.

(** ** The threads *)

(** An event of the thread with ghost state [(i, s)]. *)
Lemma ok_tevent k {X} (e : trialE X) i s (Q : X → tghost → Prop) : twaits X (i, s) e →
  (∀ tr gs w w' x, trinv tr gs w → gs !! i = Some (i, s) → sys e w = Some (w', x) →
     ∃ s', trinv (tr ++ map (pair i) (lab e x)) (<[i := (i, s')]> gs) w' ∧ Q x (i, s')) →
  tok k (perform e) (i, s) Q.
Proof.
  intros HA H. apply ok_trigger; [done|]. intros tr gs w w' x i' Hi HI Hs.
  destruct (ti_who _ _ _ HI _ _ _ Hi) as [<- _]. destruct (H tr gs w w' x HI Hi Hs) as (s' & ? & ?). eauto.
Qed.

Ltac thread_goal HI := eapply thread_step; eauto; try done; try (by eapply (ti_before _ _ _ HI)).

Lemma ok_increment k j : tok k (thread_at j) (S j, TBefore) (λ _ g, g = (S j, TDone)).
Proof.
  destruct lock_acquire as (ea & Ea & La & Ha). destruct lock_release as (er & Er & Lr & Nr & Hr).
  unfold thread_at, thread. rewrite Ea, Er. cbn [call]. apply ok_bind, ok_tevent.
  { intros w _ Hs. cbn in Hs. case_decide; [done|]. right. left. by exists j. }
  intros tr gs w w' [] HI Hj Hs. cbn in Hs. case_decide as Hc; [|done]. injection Hs as <-. exists TOut.
  split; [thread_goal HI|].
  clear tr gs w HI Hj Hc. apply ok_bind, ok_bind, ok_tevent.
  { intros w Hw Hs. specialize (Ha w Hw). rewrite Hs in Ha. by left. }
  intros tr gs w w' x HI Hj Hs. rewrite La. exists TIn. split.
  { specialize (Ha w (proj1 (ti_clean _ _ _ HI))). rewrite Hs in Ha. destruct Ha as (Hno & Hyes & E1 & E2 & E3 & E4 & E5).
    thread_goal HI; [cbn; lia|]. intros [] Hb Hsum; [by destruct Hno|]. exists true. split; [by apply Hyes|done]. }
  clear tr gs w w' HI Hj Hs. apply ok_bind, ok_tevent; [done|].
  intros tr gs w w' x' HI Hj Hs. cbn in Hs. injection Hs as <- <-. exists (TRead (t_i w)).
  split; [thread_goal HI; by intros x' [= ->]|].
  generalize (t_i w) as v. clear tr gs w HI Hj x. intros v. apply ok_bind, ok_tevent; [done|].
  intros tr gs w w' [] HI Hj Hs. cbn in Hs. injection Hs as <-. exists TWrote. split.
  { thread_goal HI.
    - cbn. rewrite (ti_read _ _ _ HI _ _ _ Hj). lia.
    - intros b Hb _. exists b. split; [|done]. by eapply lock_local; [..|exact Hb]. }
  clear tr gs w HI Hj. apply ok_bind, ok_tevent; [by intros w _ ?%Nr|].
  intros tr gs w w' x HI Hj Hs. rewrite Lr. exists TAfter. split.
  { destruct (thread_lock _ _ _ _ _ HI Hj) as (b & Hb & Hsum); [done|].
    assert (b = true) as ->.
    { pose proof (total_in (λ g : tghost, t_cs g.2) gs _ _ Hj) as H. unfold tsum in Hsum. rewrite Hsum in H.
      destruct b; [done|]. cbn in H. lia. }
    destruct (Hr w (proj1 (ti_clean _ _ _ HI)) Hb) as (w1 & x1 & Hs' & Hf & E1 & E2 & E3 & E4 & E5).
    rewrite Hs in Hs'. injection Hs' as <- <-. thread_goal HI; [cbn; lia|].
    intros b' _ Hsum'. exists false. split; [done|]. rewrite Hsum in Hsum'. destruct b'; [done|discriminate]. }
  clear tr gs w w' HI Hj Hs. apply ok_ret, ok_tevent; [done|].
  intros tr gs w w' [] HI Hj Hs. cbn in Hs. injection Hs as <-. exists TDone. split; [|done]. thread_goal HI.
  intros b Hb _. exists b. split; [|done]. by eapply lock_local; [..|exact Hb].
Qed.

(** ** main *)

Lemma main_move tr gs w w' m m' ls : trinv tr gs w → gs !! 0%nat = Some (0%nat, m) → m ≠ MInit →
  t_main m' = true → said m ++ map (pair 0%nat) ls = said m' →
  t_faults w' = t_faults w ∧ t_aborted w' = t_aborted w ∧ t_exited w' = t_exited w ∧ t_mu w' = t_mu w ∧ t_sem w' = t_sem w →
  (∀ j, j ∈ t_created w' ↔ (j < ncreated m')%nat) → (ncreated m ≤ ncreated m' ≤ 2 * n)%nat →
  (∀ j, (j < njoined m')%nat → gs !! S j = Some (S j, TDone)) →
  (t_i w' = t_i w ∨ tsum t_cs gs = 0%nat) →
  (∀ k c j, m' = MTrial k true c j → t_i w' + Z.of_nat (2 * k) = Z.of_nat (tsum t_wrote gs)) →
  trinv (tr ++ map (pair 0%nat) ls) (<[0%nat := (0%nat, m')]> gs) w'.
Proof.
  intros HI H0 Hni Hm' Hls (E1 & E2 & E3 & E4 & E5) Hcr Hle Hj Hi Hcount.
  pose proof (ti_main _ _ _ HI _ H0) as [M1 M2 M3 M4 M5].
  destruct (ti_who _ _ _ HI _ _ _ H0) as [_ Hm].
  assert (Hz : ∀ f, f = t_cs ∨ f = t_wrote → tsum f (<[0%nat := (0%nat, m')]> gs) = tsum f gs).
  { intros f Hf. eapply main_sums; [exact H0|by apply main_zero..]. }
  eapply trials_main_step; eauto.
  - intros j Hjc. apply Hcr. apply M1 in Hjc. lia.
  - split; [done|lia| |..].
    + intros j Hlt. rewrite list_lookup_insert_ne by done. by apply Hj.
    + intros _. destruct (M4 Hni) as (b & Hb & Hs). exists b. rewrite Hz by auto.
      split; [by eapply lock_local; [..|exact Hb]|done].
    + intros k c j ->. rewrite Hz by auto. by eapply Hcount.
Qed.

Lemma total_first (f : tghost → nat) l c : (c ≤ length l)%nat →
  (∀ j g, l !! j = Some g → f g = if decide (j < c)%nat then 1%nat else 0%nat) → total f l = c.
Proof.
  revert c. induction l as [|g l IH]; intros c Hc Hf; cbn in *; [unfold total; cbn; lia|].
  pose proof (Hf 0%nat g eq_refl) as H0. unfold total in *. cbn.
  rewrite (IH (c - 1)%nat).
  - rewrite H0. destruct (decide (0 < c)%nat); lia.
  - lia.
  - intros j x Hj. rewrite (Hf (S j) x Hj). destruct (decide (S j < c)%nat), (decide (j < c - 1)%nat); lia.
Qed.

(** Between two trials every thread created so far is done. *)
Lemma between_trials tr gs w m : trinv tr gs w → gs !! 0%nat = Some (0%nat, m) → ncreated m = njoined m →
  tsum t_wrote gs = ncreated m ∧ tsum t_cs gs = 0%nat.
Proof.
  intros HI H0 Hcj. pose proof (ti_main _ _ _ HI _ H0) as [M1 M2 M3 M4 M5].
  destruct (ti_who _ _ _ HI _ _ _ H0) as [_ Hm]. pose proof (ti_len _ _ _ HI) as Hlen.
  assert (Hst : ∀ j g, gs !! S j = Some g → g.2 = if decide (j < ncreated m)%nat then TDone else TBefore).
  { intros j [id s] Hj. destruct (ti_who _ _ _ HI _ _ _ Hj) as [-> _]. destruct (decide (j < ncreated m)%nat) as [Hlt|Hlt].
    - rewrite M3 in Hj by lia. by injection Hj as <-.
    - destruct s; try done; exfalso; apply Hlt, M1; by eapply (ti_before _ _ _ HI). }
  destruct gs as [|g0 gs]; [done|]. cbn in H0. injection H0 as ->. cbn in Hlen. unfold tsum.
  assert (Hsplit : ∀ f, total (λ g : tghost, f g.2) ((0%nat, m) :: gs) = (f m + total (λ g : tghost, f g.2) gs)%nat) by done.
  rewrite !Hsplit, (main_zero m t_wrote), (main_zero m t_cs) by auto. split; cbn [Nat.add].
  - apply total_first; [lia|]. intros j g Hj. rewrite (Hst j g Hj). by destruct (decide (j < ncreated m)%nat).
  - apply total_zero. intros g [j Hj]%list_elem_of_lookup_1. rewrite (Hst j g Hj). by destruct (decide (j < ncreated m)%nat).
Qed.

Ltac main_event := apply ok_bind, ok_tevent;
  [try done|intros tr gs w w' x HI H0 Hs; cbn in Hs; pose proof (ti_main _ _ _ HI _ H0) as [M1 M2 M3 M4 M5]].

(** One trial finds no violation. *)
Lemma ok_trial fuel k : (k < n)%nat →
  tok fuel (trial k) (0%nat, MTrial k false 0 0) (λ v g, v = 0 ∧ g = (0%nat, MTrial (S k) false 0 0)).
Proof.
  intros Hk. unfold trial. main_event.
  injection Hs as <- <-. exists (MTrial k true 0 0). split.
  { destruct (between_trials _ _ _ _ HI H0 eq_refl) as [Hw Hc]. eapply main_move; eauto; try done.
    - intros k' c j [= -> <- <-]. rewrite Hw. cbn. lia. }
  clear -Hk. main_event. injection Hs as <- <-. exists (MTrial k true 1 0). split.
  { eapply main_move; eauto; try done; [|cbn; lia|intros ??? [= -> _ _]; by eapply M5].
    intros j. cbn. rewrite elem_of_union, elem_of_singleton, M1. cbn. lia. }
  clear -Hk. main_event. injection Hs as <- <-. exists (MTrial k true 2 0). split.
  { eapply main_move; eauto; try done; [|cbn; lia|intros ??? [= -> _ _]; by eapply M5].
    intros j. cbn. rewrite elem_of_union, elem_of_singleton, M1. cbn. lia. }
  clear -Hk. main_event.
  { intros w _ Hs. cbn in Hs. case_decide; [done|]. right. right. exists k, 0%nat. rewrite Nat.add_0_r. by split_and!; [|lia|]. }
  case_decide as Hex; [|done]. injection Hs as <- <-. exists (MTrial k true 2 1). split.
  { apply (ti_exited _ _ _ HI) in Hex.
    eapply main_move; eauto; try done; [|intros ??? [= -> _ _]; by eapply M5].
    intros j Hj. cbn in Hj. destruct (decide (j = 2 * k)%nat) as [->|]; [done|]. apply M3. cbn. lia. }
  clear -Hk. main_event.
  { intros w _ Hs. cbn in Hs. case_decide; [done|]. right. right. exists k, 1%nat. by split_and!; [|lia|]. }
  case_decide as Hex; [|done]. injection Hs as <- <-. exists (MTrial k true 2 2). split.
  { apply (ti_exited _ _ _ HI) in Hex.
    eapply main_move; eauto; try done; [|intros ??? [= -> _ _]; by eapply M5].
    intros j Hj. cbn in Hj. destruct (decide (j = 2 * k + 1)%nat) as [->|]; [done|]. apply M3. cbn. lia. }
  clear -Hk. main_event. injection Hs as <- <-. exists (MTrial (S k) false 0 0). split.
  { eapply main_move; eauto; try done; [|cbn in *; lia|].
    - intros j. rewrite M1. cbn. lia.
    - intros j Hj. apply M3. cbn in *. lia. }
  destruct (between_trials _ _ _ _ HI H0 eq_refl) as [Hw _]. specialize (M5 _ _ _ eq_refl).
  replace (t_i w) with 2 by (rewrite Hw in M5; cbn in M5; lia). by apply ok_ret.
Qed.

Lemma ok_trials fuel m k avios : (k + m = n)%nat →
  tok fuel (trials m k avios) (0%nat, MTrial k false 0 0) (λ v g, v = avios ∧ g = (0%nat, MTrial n false 0 0)).
Proof.
  revert k avios. induction m as [|m IH]; intros k avios Hk; cbn [trials].
  { apply ok_ret. by replace k with n by lia. }
  apply ok_bind. eapply ok_conseq; [apply ok_trial; lia|]. intros v g [-> ->]. rewrite Z.add_0_r. apply IH. lia.
Qed.

Lemma ok_trials_main fuel : tok fuel (trials_main n) (0%nat, MInit) (λ _ g, g = (0%nat, MEnd)).
Proof.
  destruct lock_init as (ei & Ei & Hi). destruct lock_destroy as (ed & Ed & Ld & Nd & Hd).
  unfold trials_main. rewrite Ei, Ed. cbn [call]. apply ok_bind, ok_tevent.
  { intros w Hw Hs. destruct (Hi w Hw) as (w' & E & _). congruence. }
  intros tr gs w w' x HI H0 Hs. destruct (Hi w (proj1 (ti_clean _ _ _ HI))) as (w1 & E & Hlab & Hl & E1 & E2 & E3 & E4 & E5).
  rewrite Hs in E. injection E as <- ->. rewrite Hlab. exists (MTrial 0 false 0 0). split.
  { pose proof (ti_main _ _ _ HI _ H0) as [M1 M2 M3 M4 M5]. eapply trials_main_step; eauto; try done; [by rewrite E2|].
    destruct (between_trials _ _ _ _ HI H0 eq_refl) as [_ Hc]. split.
    - by rewrite E2.
    - cbn. lia.
    - cbn. lia.
    - intros _. exists false. split; [done|]. by erewrite main_sums.
    - done. }
  cbn [Z.eqb assert_zero]. clear tr gs w w' HI H0 Hs Hl E1 E2 E3 E4 E5. apply ok_bind.
  eapply ok_conseq; [by apply ok_trials|]. intros v g [-> ->].
  main_event. injection Hs as <- <-. exists MEnd. split.
  { cbn in M1, M2, M3. eapply main_move; eauto; try done; cbn.
    - intros j. rewrite M1. lia.
    - intros j Hj. apply M3. lia. }
  clear -Hd Ld Nd. apply ok_bind, ok_tevent.
  { by intros w _ ?%Nd. }
  intros tr gs w w' x HI H0 Hs. pose proof (ti_main _ _ _ HI _ H0) as [M1 M2 M3 M4 M5].
  destruct (between_trials _ _ _ _ HI H0 eq_refl) as [_ Hc].
  destruct M4 as (b & Hb & Hsum); [done|]. destruct b; [rewrite Hc in Hsum; discriminate|].
  rewrite (Hd w Hb) in Hs. injection Hs as <- <-. rewrite Ld. exists MEnd. split; [|by apply ok_ret].
  eapply main_move; eauto; try done.
Qed.

(** ** When nothing moves *)

Lemma trials_settled q gs : stuck q = true → trinv (pool_trace q) gs (pool_world q) →
  Forall2 (λ t g, tok 1 t g (λ _ g', g' = (0%nat, MEnd) ∨ ∃ j, g' = (S j, TDone))) (pool_threads q) gs →
  pool_trace q = said MEnd ∧ ∀ t, t ∈ pool_threads q → ∃ r, observe t = RetF r.
Proof.
  intros Hst HI Hok. destruct (ti_clean _ _ _ HI) as [Hfl _]. set (w := pool_world q) in *.
  assert (Hcase : ∀ i t g, pool_threads q !! i = Some t → gs !! i = Some g →
    (∃ r, observe t = RetF r ∧ (g = (0%nat, MEnd) ∨ ∃ j, g = (S j, TDone))) ∨
    (g.2 = TOut ∧ ¬ lock_is w false) ∨ (∃ j, g = (S j, TBefore) ∧ j ∉ t_created w) ∨
    (∃ k j, g = (0%nat, MTrial k true 2 j) ∧ (j < 2)%nat ∧ (2 * k + j)%nat ∉ t_exited w)).
  { intros i t g Ht Hg. pose proof (Forall2_lookup_lr _ _ _ _ _ _ Hok Ht Hg) as H. cbn in H.
    pose proof (stuck_thread q i t Hst Ht) as Hs. unfold step_thread in Hs. fold w in Hs.
    destruct (observe t) as [r|t'|X e k]; [left; eauto|done|]. destruct H as [HA _].
    destruct (sys e w) as [[w' x]|] eqn:He; [done|]. right. by apply HA. }
  assert (Hfree : ∀ j s, gs !! S j = Some (S j, s) → s ≠ TOut).
  { intros j s Hj ->. destruct (thread_lock _ _ _ _ _ HI Hj) as (b & Hb & Hsum); [done|].
    destruct (Forall2_lookup_r _ _ _ _ _ Hok Hj) as (t & Ht & _).
    destruct (Hcase _ _ _ Ht Hj) as [(r & _ & [?|[? ?]])|[[_ Hno]|[(j' & ? & _)|(k & j' & ? & _)]]]; try done.
    destruct b; [|done]. destruct (total_pos (λ g : tghost, t_cs g.2) gs) as (i & [id s] & Hi & Hcs).
    { unfold tsum in Hsum. rewrite Hsum. done. }
    destruct (Forall2_lookup_r _ _ _ _ _ Hok Hi) as (t' & Ht' & _).
    destruct (Hcase _ _ _ Ht' Hi) as [(r & _ & [?|[? ?]])|[[? _]|[(j' & ? & _)|(k & j' & ? & _)]]]; cbn in *; by simplify_eq. }
  destruct (main_there _ _ _ HI) as (m & H0 & [M1 M2 M3 M4 M5]).
  assert (m = MEnd) as ->.
  { destruct (Forall2_lookup_r _ _ _ _ _ Hok H0) as (t & Ht & _).
    destruct (Hcase _ _ _ Ht H0) as [(r & _ & [[=]|[? [=]]])|[[Hm _]|[(j' & [=] & _)|(k & j & [= ->] & Hj & Hex)]]]; [done|..].
    { destruct (ti_who _ _ _ HI _ _ _ H0) as [_ Hmm]. cbn in Hm. by rewrite Hm in Hmm. }
    exfalso. remember (2 * k + j)%nat as i eqn:Ei.
    destruct (lookup_lt_is_Some_2 gs (S i)) as [[id s] Hi]; [rewrite (ti_len _ _ _ HI); cbn in M2; lia|].
    destruct (ti_who _ _ _ HI _ _ _ Hi) as [-> _].
    destruct (Forall2_lookup_r _ _ _ _ _ Hok Hi) as (t' & Ht' & _).
    destruct (Hcase _ _ _ Ht' Hi) as [(r & _ & [[=]|[? [= -> ->]]])|[[Hs _]|[(j' & [= -> ->] & Hc)|(k' & j' & [=] & _)]]].
    - apply Hex. by apply (ti_exited _ _ _ HI).
    - cbn in Hs. by eapply Hfree.
    - apply Hc, M1. cbn. lia. }
  split; [by apply (ti_said _ _ _ HI)|]. intros t [i Ht]%list_elem_of_lookup_1.
  destruct (Forall2_lookup_l _ _ _ _ _ Hok Ht) as ([id s] & Hg & _).
  destruct (Hcase _ _ _ Ht Hg) as [(r & Hr & _)|Hno]; [by exists r|]. exfalso.
  destruct i as [|j]; [rewrite H0 in Hg; injection Hg as <- <-; naive_solver|].
  assert (j < 2 * n)%nat as Hj. { apply lookup_lt_Some in Hg. rewrite (ti_len _ _ _ HI) in Hg. lia. }
  rewrite (M3 j Hj) in Hg. injection Hg as <- <-. naive_solver.
Qed.
End inv.
