(* ===== verification/TrialsRuns.v ===== *)
(** * What the trials find (practica/pthreads/locks, practica/pthreads/sema)

    With the mutex of locks.c or the semaphore of sema.c the counter is exact in
    every trial and every interleaving; without a guard, or when a signal
    interrupts sem_wait, an increment can be lost. *)
From S2P Require Import Prelude Prog Pools PoolsTerm Paced Trials TrialsInv.
Local Open Scope Z_scope.
Local Open Scope prog_scope.

(** Before main runs, when no call will fail. *)
Record trials_fresh (w : tworld) : Prop := {
  tf_calm : t_faults w = [];
  tf_alive : t_aborted w = false;
  tf_none : t_created w = ∅ ∧ t_exited w = ∅
}.

Definition returned (t : itree trialE unit) : bool := match observe t with RetF _ => true | _ => false end.

Definition trials_start (n : nat) : list tghost := (0%nat, MInit) :: ((λ j, (S j, TBefore)) <$> seq 0 (2 * n)).

Section runs.
Context `{Grd : !Guard, Snd : !SoundGuard Grd}.

Lemma trials_start_at n i g : trials_start n !! i = Some g → g = (0%nat, MInit) ∧ i = 0%nat ∨ ∃ j, g = (S j, TBefore) ∧ i = S j.
Proof.
  unfold trials_start. destruct i as [|i]; cbn [lookup]; [intros [= <-]; by left|].
  intros H. apply list_lookup_fmap_Some in H as (j & -> & [-> _]%lookup_seq). right. by exists i.
Qed.

Lemma trials_start_inv n w : trials_fresh w → trinv n [] (trials_start n) w.
Proof.
  intros [Hf Ha [Hc Hx]]. split.
  - unfold trials_start. cbn [length]. by rewrite length_fmap, length_seq.
  - intros i id s [[[= -> ->] ->]|(j & [= -> ->] & ->)]%trials_start_at; done.
  - done.
  - by intros m [= <-].
  - intros m [= <-]. split; cbn [ncreated njoined]; try done; try lia. intros j. rewrite Hc. split; [set_solver|lia].
  - intros j s [[[=] _]|(j' & [= _ ->] & _)]%trials_start_at; done.
  - intros j. rewrite Hx. split; [set_solver|]. intros [[[=] _]|(j' & [=] & _)]%trials_start_at.
  - intros i id x [[[=] _]|(j' & [=] & _)]%trials_start_at.
Qed.

Lemma trials_reach n w q : trials_fresh w → reachable (trials_process n w) q →
  ∃ gs, trinv n (pool_trace q) gs (pool_world q) ∧
    Forall2 (λ t g, ok (trinv n) twaits 1 t g (λ _ g', g' = (0%nat, MEnd) ∨ ∃ j, g' = (S j, TDone)))
      (pool_threads q) gs.
Proof.
  intros Hw Hr. apply (pool_sound (trinv n) twaits _ _ q (trials_start n) Hr); cbn [pool_trace pool_world pool_threads trials_process].
  { by apply trials_start_inv. }
  intros k. unfold trials_start. constructor.
  { eapply ok_conseq; [apply ok_trials_main|]. by left. }
  generalize (seq 0 (2 * n)) as js. induction js as [|j js IH]; cbn; constructor; [|done].
  eapply ok_conseq; [apply ok_increment|]. intros _ g ->. right. by exists j.
Qed.

(** *** Every run ends *)

Lemma takes_call N e : takes N 1 (call e).
Proof. destruct e; [free_event|apply costs_ret]. Qed.

Lemma takes_thread N j : takes N 6 (thread_at j).
Proof.
  unfold thread_at, thread. pay_event. pay 0%nat 4%nat; [|free_event].
  pay 0%nat 1%nat; [apply takes_call|]. do 2 pay_event. pay 0%nat 1%nat; [apply takes_call|apply costs_ret].
Qed.

Lemma takes_trials N m k v : takes N (8 * m) (trials m k v).
Proof.
  revert k v. induction m as [|m IH]; intros k v; cbn [trials]; [apply costs_ret|].
  apply (costs_seq _ _ _ 0 8); [lia|lia| |intros v'; replace (8 * S m - 8)%nat with (8 * m)%nat by lia; apply IH].
  unfold trial. do 6 pay_event. case_match; [apply costs_ret|]. do 2 pay_event. apply costs_ret.
Qed.

Lemma takes_assert N c rc t : (0 < c)%nat → takes N c t → takes N c (assert_zero rc t).
Proof. intros Hc Ht. unfold assert_zero. case_match; [done|free_event]. Qed.

Lemma takes_main N n : takes N (8 * n + 4) (trials_main n).
Proof.
  unfold trials_main. apply (costs_seq _ _ _ 0 1); [lia|lia|apply takes_call|]. intros rc. apply takes_assert; [lia|].
  apply (costs_seq _ _ _ 0 (8 * n)); [lia|lia|apply takes_trials|]. intros v.
  replace (8 * n + 4 - 1 - 8 * n)%nat with 3%nat by lia. pay_event. pay 0%nat 1%nat; [apply takes_call|].
  apply takes_assert; [lia|apply costs_ret].
Qed.

Lemma trials_end n w : sn pool_step (trials_process n w).
Proof.
  apply (takes_terminates (8 * n + 6)). cbn [pool_threads trials_process]. constructor.
  - eapply costs_le, takes_main; lia.
  - apply Forall_fmap, Forall_forall. intros j _. cbn. eapply costs_le, takes_thread; lia.
Qed.

(** C29. With a guard the counter is exact.  locks.c and sema.c, with any number
    of trials and when sem_wait is not interrupted: every interleaving of main and
    the threads it creates comes to an end; in all of them main never prints a
    violation and no assertion fails; and at the end every thread has returned
    and main has printed that it found no violation in all its trials. *)
Theorem guarded_trials_exact n w : trials_fresh w → sn pool_step (trials_process n w) ∧
  ∀ q, reachable (trials_process n w) q → (∀ i r, (i, OhNo r) ∉ pool_trace q) ∧ t_aborted (pool_world q) = false ∧
  (stuck q = true → pool_trace q = [(0%nat, Found 0 (Z.of_nat n))] ∧ Forall (λ t, returned t = true) (pool_threads q)).
Proof.
  intros Hw. split; [apply trials_end|]. intros q Hr.
  destruct (trials_reach n w q Hw Hr) as (gs & HI & Hok). split_and!.
  - intros i r Hin. destruct (main_there n _ _ _ HI) as (m & H0 & _). rewrite (ti_said _ _ _ _ HI _ H0) in Hin.
    destruct m; cbn in Hin; set_solver.
  - apply (ti_clean _ _ _ _ HI).
  - intros Hst. destruct (trials_settled n q gs Hst HI Hok) as [Htr Hret]. split; [done|].
    apply Forall_forall. intros t Ht. unfold returned. by destruct (Hret t Ht) as [r ->].
Qed.
End runs.

Definition trials_world (faults : list bool) : tworld := TW 7 false 0 ∅ ∅ false faults.

(** Two trials of sema.c, the threads taking turns. *)
Definition sema_run : pool trialE tworld verdict :=
  schedule (concat (replicate 40 [0; 1; 2; 3; 4]%nat)) (@trials_process sema_guard 2 (trials_world [])).

Lemma guarded_trials_exact_witness : stuck sema_run = true ∧
  pool_trace sema_run = [(0%nat, Found 0 2)] ∧ Forall (λ t, returned t = true) (pool_threads sema_run).
Proof.
  assert (Hst : stuck sema_run = true) by (vm_compute; reflexivity). split; [exact Hst|].
  apply (@guarded_trials_exact sema_guard _ 2 (trials_world [])).
  - by repeat split.
  - apply schedule_reachable.
  - exact Hst.
Defined.

(** *** Runs that lose increments *)

(** Main, the threads of the trials before, the two of this one and the rest. *)
Definition at_trial (m : itree trialE unit) (before : list (itree trialE unit)) (a b : itree trialE unit)
    (after : list (itree trialE unit)) : list (itree trialE unit) := m :: before ++ a :: b :: after.

(** A state that satisfies [G] can be reached. *)
Definition can (G : pool trialE tworld verdict → Prop) (p : pool trialE tworld verdict) : Prop :=
  ∃ q, reachable p q ∧ G q.

Section steps.
Context (G : pool trialE tworld verdict → Prop) {X : Type} (e : trialE X) (h : X → itree trialE unit).
Context (w w' : tworld) (x : X) (Hsys : sys e w = Some (w', x)).

Lemma can_step i ts t tr : ts !! i = Some t → observe t = VisF e h →
  can G (Pool (<[i := h x]> ts) w' (tr ++ map (pair i) (lab e x))) → can G (Pool ts w tr).
Proof.
  intros Hi Ht (q & Hq & HG). exists q. split; [|done]. eapply rtc_l; [|exact Hq].
  replace (lab e x) with (step_label t w) by (unfold step_label; by rewrite Ht, Hsys).
  econstructor; [exact Hi|]. unfold step_thread. by rewrite Ht, Hsys.
Qed.

Lemma can_head m ts tr : observe m = VisF e h →
  can G (Pool (h x :: ts) w' (tr ++ map (pair 0%nat) (lab e x))) → can G (Pool (m :: ts) w tr).
Proof. intros Hm H. by apply (can_step 0 _ m). Qed.

Lemma can_main m before a b after tr : observe m = VisF e h →
  can G (Pool (at_trial (h x) before a b after) w' (tr ++ map (pair 0%nat) (lab e x))) →
  can G (Pool (at_trial m before a b after) w tr).
Proof. apply can_head. Qed.

Lemma can_first m before a b after tr : observe a = VisF e h → lab e x = [] →
  can G (Pool (at_trial m before (h x) b after) w' tr) → can G (Pool (at_trial m before a b after) w tr).
Proof.
  intros Ha Hl H. apply (can_step (S (length before)) _ a).
  - unfold at_trial. cbn. by apply list_lookup_middle.
  - done.
  - rewrite Hl, app_nil_r. unfold at_trial.
    change (can G (Pool (m :: <[length before := h x]> (before ++ a :: b :: after)) w' tr)).
    by rewrite insert_app_r_alt, Nat.sub_diag by lia.
Qed.

Lemma can_second m before a b after tr : observe b = VisF e h → lab e x = [] →
  can G (Pool (at_trial m before a (h x) after) w' tr) → can G (Pool (at_trial m before a b after) w tr).
Proof.
  intros Hb Hl H. apply (can_step (S (S (length before))) _ b).
  - unfold at_trial. change ((before ++ a :: b :: after) !! S (length before) = Some b).
    rewrite lookup_app_r by lia. by replace (S (length before) - length before)%nat with 1%nat by lia.
  - done.
  - rewrite Hl, app_nil_r. unfold at_trial.
    change (can G (Pool (m :: <[S (length before) := h x]> (before ++ a :: b :: after)) w' tr)).
    rewrite insert_app_r_alt by lia. by replace (S (length before) - length before)%nat with 1%nat by lia.
Qed.
End steps.

Lemma sys_begin j w : j ∈ t_created w → sys (BeginT j) w = Some (w, tt).
Proof. intros H. cbn. by rewrite decide_True. Qed.
Lemma sys_join j w : j ∈ t_exited w → sys (JoinT j) w = Some (w, tt).
Proof. intros H. cbn. by rewrite decide_True. Qed.
Lemma sys_wait w fl : t_faults w = false :: fl → 0 < t_sem w →
  sys SemWait w = Some (TW (t_i w) (t_mu w) (t_sem w - 1) (t_created w) (t_exited w) (t_aborted w) fl, 0).
Proof. intros Hf Hs. cbn. unfold pop_tfault. rewrite Hf. cbn. by rewrite (proj2 (Z.eqb_neq _ _)) by lia. Qed.

Ltac call_done := first [apply sys_begin; cbn; set_solver|apply sys_join; cbn; set_solver
  |eapply sys_wait; [reflexivity|cbn; lia]|reflexivity].
Ltac observed := lazymatch goal with |- observe ?t = _ => let o := eval hnf in (observe t) in exact (eq_refl o) end.
Ltac world_cbn := unfold set_i, set_mu, set_sem, set_threads; cbn [t_i t_mu t_sem t_created t_exited t_aborted t_faults].
Ltac main_next := [> call_done|world_cbn; cbn [lab trial_labelled map]; rewrite ?app_nil_r].
Ltac main_runs := eapply can_main; [|observed|]; main_next.
Ltac first_runs := eapply can_first; [|observed|reflexivity|]; [call_done|world_cbn].
Ltac second_runs := eapply can_second; [|observed|reflexivity|]; [call_done|world_cbn].

(** What main does after the trials. *)
Definition trials_end_of `{!Guard} (n : nat) (avios : Z) : itree trialE unit :=
  do! ! (PrintT (Found avios (Z.of_nat n))) in
  let! rc := call destroy_call in
  assert_zero rc (Ret tt).

Section lossy.
Context (G : pool trialE tworld verdict → Prop) (N : nat).

(** From the start of trial [k], whose threads have not run, to the start of the
    next, or to the end. *)
Definition from_trial `{!Guard} (n k : nat) (v : Z) (m : itree trialE unit) : Prop :=
  observe m = observe (ITree.bind (trials n k v) (trials_end_of N)).

(** A trial that loses an increment or does not, in worlds of which [P] holds
    when the outcomes still to come are [lost]. *)
Definition trial_runs `{!Guard} (P : list bool → tworld → Prop) : Prop :=
  ∀ b lost n k v m before after w tr, from_trial (S n) k v m → P (b :: lost) w →
  (∀ m' t u w', from_trial n (S k) (v + if b then 1 else 0) m' → P lost w' → returned t = true → returned u = true →
     can G (Pool (at_trial m' before t u after) w' (tr ++ if b then [(0%nat, OhNo 1)] else []))) →
  can G (Pool (at_trial m before (thread_at (2 * k)) (thread_at (2 * k + 1)) after) w tr).

(** The tree of main between trials, whatever has been evaluated of it. *)
Ltac at_next HG := unfold at_trial in HG; apply HG; try reflexivity; try (split; cbn; (reflexivity || lia));
  unfold from_trial; by rewrite !observe_bind.

Lemma no_locks_trial : @trial_runs no_locks_guard (λ _ _, True).
Proof.
  intros lost lost' n k v m before after [x mu sem cr ex ab fl] tr Hm _ HG.
  eapply can_main; [|rewrite Hm; observed|]; main_next. do 2 main_runs. destruct lost.
  - do 2 first_runs. do 2 second_runs. do 2 first_runs. do 2 second_runs. do 5 main_runs. at_next HG.
  - do 4 first_runs. do 4 second_runs. do 3 main_runs. rewrite app_nil_r in HG. at_next HG.
Qed.

(** Both calls of sem_wait are interrupted in a trial that is lost. *)
Definition interrupts (lost : list bool) : list bool := concat ((λ b : bool, [b; b]) <$> lost).
Definition interrupted (lost : list bool) (w : tworld) : Prop := t_faults w = interrupts lost ∧ 0 < t_sem w.

Lemma sema_trial : @trial_runs sema_guard interrupted.
Proof.
  intros lost lost' n k v m before after [x mu sem cr ex ab fl] tr Hm [Hfl Hsem] HG. cbn in Hfl, Hsem. subst fl.
  eapply can_main; [|rewrite Hm; observed|]; main_next. do 2 main_runs. destruct lost.
  - do 3 first_runs. do 3 second_runs. do 3 first_runs. do 3 second_runs. do 5 main_runs. at_next HG.
  - do 6 first_runs. do 6 second_runs. do 3 main_runs. rewrite app_nil_r in HG. at_next HG.
Qed.
End lossy.

(** Which trials lose an increment, and what main prints then. *)
Definition violations (lost : list bool) : list bool := filter Is_true lost.
Definition report (lost : list bool) : list verdict :=
  ((λ _, OhNo 1) <$> violations lost) ++ [Found (Z.of_nat (length (violations lost))) (Z.of_nat (length lost))].
Definition reports (lost : list bool) (q : pool trialE tworld verdict) : Prop :=
  stuck q = true ∧ pool_trace q = pair 0%nat <$> report lost.

Definition all_returned (ts : list (itree trialE unit)) : Prop := Forall (λ t, returned t = true) ts.

Lemma returned_stuck ts w (tr : list (nat * verdict)) : all_returned ts → stuck (Pool ts w tr) = true.
Proof.
  intros H. apply forallb_forall. intros t Ht%list_elem_of_In. unfold all_returned in H. rewrite Forall_forall in H.
  specialize (H t Ht). unfold returned in H. unfold step_thread. by destruct (observe t).
Qed.

Lemma threads_next `{!Guard} k n : thread_at <$> seq (2 * k) (2 * S n) =
  thread_at (2 * k) :: thread_at (2 * k + 1) :: (thread_at <$> seq (2 * S k) (2 * n)).
Proof.
  replace (2 * S n)%nat with (S (S (2 * n))) by lia. cbn [seq fmap list_fmap].
  by replace (2 * S k)%nat with (S (S (2 * k))) by lia; replace (2 * k + 1)%nat with (S (2 * k)) by lia.
Qed.

Lemma violations_cons (b : bool) lost v : v + Z.of_nat (length (violations (b :: lost))) =
  (v + if b then 1 else 0) + Z.of_nat (length (violations lost)) ∧
  (pair 0%nat <$> ((λ _, OhNo 1) <$> violations (b :: lost))) =
  (if b then [(0%nat, OhNo 1)] else []) ++ (pair 0%nat <$> ((λ _, OhNo 1) <$> violations lost)).
Proof. unfold violations. rewrite !filter_cons. destruct b; [rewrite !decide_True by done|rewrite !decide_False by (by intros [])]; cbn; split; (lia || done). Qed.

(** All the trials, and main's last lines. *)
Section runs_that_lose.
Context `{Grd : !Guard} (N : nat) (G : pool trialE tworld verdict → Prop) (P : list bool → tworld → Prop).
Context (Htrial : trial_runs G N P).
Context (Hend : ∀ k v m ts w tr, from_trial N 0 k v m → all_returned ts →
  (∀ t w', returned t = true → G (Pool (t :: ts) w' (tr ++ [(0%nat, Found v (Z.of_nat N))]))) →
  can G (Pool (m :: ts) w tr)).

Lemma runs_lose lost k v m before w tr : from_trial N (length lost) k v m → P lost w → all_returned before →
  (∀ ts w', all_returned ts →
     G (Pool ts w' (tr ++ (pair 0%nat <$> ((λ _, OhNo 1) <$> violations lost)) ++
       [(0%nat, Found (v + Z.of_nat (length (violations lost))) (Z.of_nat N))]))) →
  can G (Pool (m :: before ++ (thread_at <$> seq (2 * k) (2 * length lost))) w tr).
Proof.
  revert k v m before w tr. induction lost as [|b lost IH]; intros k v m before w tr Hm Hw Hbe HG.
  - rewrite app_nil_r. apply (Hend k v); [done|done|]. intros t w' Ht. cbn in HG. rewrite Z.add_0_r in HG.
    apply HG. by constructor.
  - cbn [length]. rewrite threads_next. destruct (violations_cons b lost v) as [Hv Hr].
    apply (Htrial b lost (length lost) k v m before _ w tr Hm Hw). intros m' t u w' Hm' Hw' Ht Hu.
    unfold at_trial. replace (before ++ t :: u :: _) with ((before ++ [t; u]) ++ (thread_at <$> seq (2 * S k) (2 * length lost)))
      by by rewrite <- app_assoc.
    apply (IH (S k) (v + if b then 1 else 0)); [done|done|by apply Forall_app; repeat constructor|].
    intros ts w2 Hts. rewrite <- app_assoc, (app_assoc (if b then _ else _)), <- Hr, <- Hv. by apply HG.
Qed.
End runs_that_lose.

Lemma no_locks_end N G k v m ts w tr : @from_trial N no_locks_guard 0 k v m → all_returned ts →
  (∀ t w', returned t = true → G (Pool (t :: ts) w' (tr ++ [(0%nat, Found v (Z.of_nat N))]))) →
  can G (Pool (m :: ts) w tr).
Proof.
  intros Hm _ HG. eapply can_head; [|rewrite Hm; observed|]; [reflexivity|].
  eexists. split; [apply rtc_refl|]. by apply HG.
Qed.

Lemma sema_end N G k v m ts w tr : @from_trial N sema_guard 0 k v m → all_returned ts →
  (∀ t w', returned t = true → G (Pool (t :: ts) w' (tr ++ [(0%nat, Found v (Z.of_nat N))]))) →
  can G (Pool (m :: ts) w tr).
Proof.
  intros Hm _ HG. eapply can_head; [|rewrite Hm; observed|]; [reflexivity|].
  eapply can_head; [|observed|]; [reflexivity|].
  cbn [lab trial_labelled map]. rewrite app_nil_r. eexists. split; [apply rtc_refl|]. by apply HG.
Qed.

