(* ===== verification/Condvars.v ===== *)
(** * Taking turns with a condition variable (practica/pthreads/condvars)

    The threads of condvars.c increment a counter in the order of their ids:
    thread [id] waits until the counter has reached [id].  main creates the
    threads 0 and 1; the model has any number of them, numbered from 0.
    pthread_cond_wait is two events, as in Rwlock.v, and pthread_cond_signal
    wakes one sleeper, which one the world's [d_picks] says.  The initialisations
    may fail; pthread_create is not checked by the program and is taken to
    succeed. *)
From S2P Require Import Prelude Prog Pools.
Local Open Scope Z_scope.
Local Open Scope prog_scope.

Record dworld := DW {
  d_i : Z;
  d_mu : bool;
  d_sleep : gset nat;      (* the threads asleep on cv *)
  d_picks : list nat;
  d_spurious : list bool;  (* whether the next wait ends for no reason *)
  d_created : gset nat;
  d_exited : gset nat;
  d_aborted : bool;        (* an assertion failed *)
  d_faults : list bool     (* whether the next initialisation fails *)
}.
Definition set_var i mu sl pk sp w := DW i mu sl pk sp (d_created w) (d_exited w) (d_aborted w) (d_faults w).
Definition set_life cr ex w := DW (d_i w) (d_mu w) (d_sleep w) (d_picks w) (d_spurious w) cr ex (d_aborted w) (d_faults w).

Definition pop_dfault (w : dworld) : bool * dworld :=
  match d_faults w with
  | [] => (false, w)
  | b :: fl => (b, DW (d_i w) (d_mu w) (d_sleep w) (d_picks w) (d_spurious w) (d_created w) (d_exited w) (d_aborted w) fl)
  end.

(** "thread [id] incremented to [v]" *)
Record incremented := Incremented { inc_id : nat; inc_to : Z }.

Variant condE : Type → Type :=
  | CvMutexInit : condE Z
  | CvInit : condE Z                         (* pthread_cond_init *)
  | CvLock : condE unit
  | CvUnlock : condE unit
  | CvSleep (id : nat) : condE unit          (* pthread_cond_wait: release and sleep ... *)
  | CvWake (id : nat) : condE unit           (* ... wake up and retake *)
  | CvSignal : condE unit
  | CvMutexDestroy : condE Z
  | CvDestroy : condE Z                      (* pthread_cond_destroy *)
  | CvAbort : condE unit
  | GetCv : condE Z
  | SetCv (v : Z) : condE unit
  | CvCreate (id : nat) : condE unit
  | CvBegin (id : nat) : condE unit
  | CvExit (id : nat) : condE unit
  | CvJoin (id : nat) : condE unit
  | CvPrint (m : incremented) : condE unit.

(** The sleeper that a signal wakes. *)
Definition picked (w : dworld) : option nat :=
  elements (d_sleep w) !! (default 0%nat (head (d_picks w)) mod size (d_sleep w))%nat.

#[export] Instance cond_kernel : Kernel condE dworld := λ X e w,
  match e in condE X return option (dworld * X) with
  | CvMutexInit =>
      let '(b, w) := pop_dfault w in
      Some (if (b : bool) then (w, 12) else (set_var (d_i w) false (d_sleep w) (d_picks w) (d_spurious w) w, 0))
  | CvInit =>
      let '(b, w) := pop_dfault w in
      Some (if (b : bool) then (w, 12) else (set_var (d_i w) (d_mu w) ∅ (d_picks w) (d_spurious w) w, 0))
  | CvLock =>
      if d_mu w then None else Some (set_var (d_i w) true (d_sleep w) (d_picks w) (d_spurious w) w, tt)
  | CvUnlock => Some (set_var (d_i w) false (d_sleep w) (d_picks w) (d_spurious w) w, tt)
  | CvSleep id =>
      let '(woken, sp) := match d_spurious w with [] => (false, []) | b :: sp => (b, sp) end in
      Some (set_var (d_i w) false (if (woken : bool) then d_sleep w else {[id]} ∪ d_sleep w) (d_picks w) sp w, tt)
  | CvWake id =>
      if d_mu w || bool_decide (id ∈ d_sleep w) then None
      else Some (set_var (d_i w) true (d_sleep w) (d_picks w) (d_spurious w) w, tt)
  | CvSignal =>
      Some (set_var (d_i w) (d_mu w)
              match picked w with Some id => d_sleep w ∖ {[id]} | None => d_sleep w end
              (tail (d_picks w)) (d_spurious w) w, tt)
  | CvMutexDestroy => Some (w, if d_mu w then 16 else 0)
  | CvDestroy => Some (w, if bool_decide (d_sleep w = ∅) then 0 else 16)
  | CvAbort =>
      Some (DW (d_i w) (d_mu w) (d_sleep w) (d_picks w) (d_spurious w) (d_created w) (d_exited w) true (d_faults w), tt)
  | GetCv => Some (w, d_i w)
  | SetCv v => Some (set_var v (d_mu w) (d_sleep w) (d_picks w) (d_spurious w) w, tt)
  | CvCreate id => Some (set_life ({[id]} ∪ d_created w) (d_exited w) w, tt)
  | CvBegin id => if decide (id ∈ d_created w) then Some (w, tt) else None
  | CvExit id => Some (set_life (d_created w) ({[id]} ∪ d_exited w) w, tt)
  | CvJoin id => if decide (id ∈ d_exited w) then Some (w, tt) else None
  | CvPrint m => Some (w, tt)
  end.

#[export] Instance cond_labelled : Labelled condE incremented := λ X e,
  match e in condE X return X → list incremented with
  | CvPrint m => λ _, [m]
  | _ => λ _, []
  end.

(** ** The program *)

(** Of a thread whose argument is [id] (below INT_MAX). *)
Definition turn_thread (id : nat) : itree condE unit :=
  do! ! CvLock in
  do! ITree.iter (λ _ : unit,
        let! i := ! GetCv in
        if i <? Z.of_nat id then do! ! (CvSleep id) in do! ! (CvWake id) in Ret (inl tt)
        else Ret (inr tt)) tt in
  let! i := ! GetCv in
  do! ! (SetCv (i + 1)) in
  let! i := ! GetCv in
  do! ! (CvPrint (Incremented id i)) in
  do! ! CvUnlock in
  ! CvSignal.

Definition turn_thread_at (id : nat) : itree condE unit :=
  do! ! (CvBegin id) in
  do! turn_thread id in
  ! (CvExit id).

(** assert (!rc), and what follows it. *)
Definition assert_rc (rc : Z) (rest : itree condE unit) : itree condE unit :=
  if rc =? 0 then rest else ! CvAbort.

Fixpoint create_turns (id n : nat) : itree condE unit :=
  match n with O => Ret tt | S n => do! ! (CvCreate id) in create_turns (S id) n end.
Fixpoint join_turns (id n : nat) : itree condE unit :=
  match n with O => Ret tt | S n => do! ! (CvJoin id) in join_turns (S id) n end.

(** The result of pthread_mutex_destroy is overwritten before it is looked at. *)
Definition turns_main (n : nat) : itree condE unit :=
  let! rc := ! CvMutexInit in
  assert_rc rc (
    let! rc := ! CvInit in
    assert_rc rc (
      do! create_turns 0 n in
      do! join_turns 0 n in
      let! _ := ! CvMutexDestroy in
      let! rc := ! CvDestroy in
      assert_rc rc (Ret tt))).

Definition turns_process (n : nat) (w : dworld) : pool condE dworld incremented :=
  Pool (turns_main n :: (turn_thread_at <$> seq 0 n)) w [].

(** What main runs. *)
Definition condvars_process (w : dworld) : pool condE dworld incremented := turns_process 2 w.
