(* ===== verification/CondvarsInv.v ===== *)
(** * Taking turns: the order, and that the program ends

    The invariant of condvars.c in every interleaving, with any number of
    threads for the order of the increments and the end of every run, and with the
    two of main for the absence of deadlock. *)
From S2P Require Import Prelude Prog Pools PoolsTerm Paced Condvars.
Local Open Scope Z_scope.
Local Open Scope prog_scope.

(** ** Ghost state *)

Inductive dstage :=
  | DInit | DRun (c j : nat)       (* main: has created [c] threads and joined [j] *)
  | CBefore | COut
  | CTest | CWant | CPass | CGot (x : Z) | CWrote | CSeen (v : Z) | CPrinted   (* with the mutex *)
  | CAsleep | CSignal | CLeft | CDone.
Abbreviation dghost := (nat * dstage)%type.

Definition d_main (s : dstage) : bool := match s with DInit | DRun _ _ => true | _ => false end.
Definition d_cs (s : dstage) : nat :=
  match s with CTest | CWant | CPass | CGot _ | CWrote | CSeen _ | CPrinted => 1 | _ => 0 end.
(** It has incremented; it has said so; it will signal. *)
Definition past (s : dstage) : bool :=
  match s with CWrote | CSeen _ | CPrinted | CSignal | CLeft | CDone => true | _ => false end.
Definition told (s : dstage) : bool := match s with CPrinted | CSignal | CLeft | CDone => true | _ => false end.
Definition will_signal (s : dstage) : bool := match s with CWrote | CSeen _ | CPrinted | CSignal => true | _ => false end.

(** What thread [j] knows of the counter. *)
Definition knows (j : nat) (s : dstage) (i : Z) : Prop :=
  match s with
  | CWant => i < Z.of_nat j
  | CPass => Z.of_nat j ≤ i
  | CGot x => x = i ∧ Z.of_nat j ≤ i
  | CWrote => i = Z.of_nat j + 1
  | CSeen v => v = Z.of_nat j + 1 ∧ i = Z.of_nat j + 1
  | CAsleep => (0 < j)%nat
  | _ => True
  end.

(** The messages of the first [m] threads. *)
Definition turns (m : nat) : list (nat * incremented) :=
  (λ k, (S k, Incremented k (Z.of_nat k + 1))) <$> seq 0 m.

Section inv.
Context (n : nat).

Definition turns_created (m : dstage) : nat := match m with DRun c _ => c | _ => 0 end.
Definition turns_joined (m : dstage) : nat := match m with DRun _ j => j | _ => 0 end.

(** Nothing failed, and nothing will. *)
Definition health (w : dworld) : bool * list bool := (d_aborted w, d_faults w).

Record cvinv (tr : list (nat * incremented)) (gs : list dghost) (w : dworld) : Prop := {
  di_len : length gs = S n;
  di_who : ∀ i id s, gs !! i = Some (id, s) → id = i ∧ d_main s = bool_decide (i = 0%nat);
  di_alive : health w = (false, []);
  di_created : ∀ m, gs !! 0%nat = Some (0%nat, m) →
    (∀ j, j ∈ d_created w ↔ (j < turns_created m)%nat) ∧ (turns_created m ≤ n)%nat;
  di_joined : ∀ m j, gs !! 0%nat = Some (0%nat, m) → (j < turns_joined m)%nat → gs !! S j = Some (S j, CDone);
  di_lock : gs !! 0%nat ≠ Some (0%nat, DInit) → total (λ g : dghost, d_cs g.2) gs = Nat.b2n (d_mu w);
  di_before : ∀ j s, gs !! S j = Some (S j, s) → s ≠ CBefore → j ∈ d_created w;
  di_exited : ∀ j, j ∈ d_exited w ↔ gs !! S j = Some (S j, CDone);
  di_count : 0 ≤ d_i w;
  di_past : ∀ j s, gs !! S j = Some (S j, s) → past s = true ↔ Z.of_nat j < d_i w;
  di_knows : ∀ j s, gs !! S j = Some (S j, s) → knows j s (d_i w);
  di_told : ∃ m, (m ≤ n)%nat ∧ tr = turns m ∧ ∀ j s, gs !! S j = Some (S j, s) → told s = true ↔ (j < m)%nat;
  di_sleep : ∀ j, j ∈ d_sleep w → gs !! S j = Some (S j, CAsleep);
  di_wake : n = 2%nat → ∀ j, j ∈ d_sleep w → d_i w < Z.of_nat j ∨
    ∃ i g, gs !! i = Some g ∧ will_signal g.2 = true
}.

(** Why a thread may wait, and that it sleeps under its own number. *)
Definition dwaits X (g : dghost) (e : condE X) : Prop :=
  match e with CvSleep j => g = (S j, CWant) | _ => True end ∧ ∀ w, sys e w = None →
  (g.2 = COut ∧ d_mu w = true) ∨ (∃ j, g = (S j, CAsleep) ∧ (d_mu w = true ∨ j ∈ d_sleep w)) ∨
  (∃ j, g = (S j, CBefore) ∧ j ∉ d_created w) ∨ (∃ j, g = (0%nat, DRun n j) ∧ (j < n)%nat ∧ j ∉ d_exited w).

Local Abbreviation dok := (ok cvinv dwaits).

Lemma cv_main_there tr gs w : cvinv tr gs w → ∃ m, gs !! 0%nat = Some (0%nat, m).
Proof.
  intros HI. destruct (lookup_lt_is_Some_2 gs 0) as [[id m] Hm]; [rewrite (di_len _ _ _ HI); lia|].
  destruct (di_who _ _ _ HI _ _ _ Hm) as [-> _]. eauto.
Qed.

Lemma cv_lookup_set (gs : list dghost) (i : nat) x y j : gs !! i = Some x →
  <[i := y]> gs !! j = if decide (i = j) then Some y else gs !! j.
Proof.
  intros Hi. destruct (decide (i = j)) as [<-|]; [|by rewrite list_lookup_insert_ne].
  apply list_lookup_insert_eq. by eapply lookup_lt_Some.
Qed.

(** A thread that runs does so after the initialisation. *)
Lemma cv_locked tr gs w j s : cvinv tr gs w → gs !! S j = Some (S j, s) → s ≠ CBefore →
  total (λ g : dghost, d_cs g.2) gs = Nat.b2n (d_mu w).
Proof.
  intros HI Hj Hs. apply (di_lock _ _ _ HI). intros H0.
  apply (di_created _ _ _ HI) in H0 as [Hc _]. apply (di_before _ _ _ HI _ _ Hj), Hc in Hs. cbn in Hs. lia.
Qed.

Lemma cv_alone tr gs w j s i g : cvinv tr gs w → gs !! S j = Some (S j, s) → d_cs s = 1%nat →
  gs !! i = Some g → d_cs g.2 = 1%nat → i = S j.
Proof.
  intros HI Hj Hs Hi Hg. destruct (decide (i = S j)) as [|Hne]; [done|]. exfalso.
  assert (s ≠ CBefore) by (by intros ->). pose proof (cv_locked _ _ _ _ _ HI Hj H) as Hsum.
  pose proof (total_two (λ g : dghost, d_cs g.2) gs i (S j) _ _ Hne Hi Hj) as H2. cbn in H2.
  rewrite Hs, Hg, Hsum in H2. destruct (d_mu w); cbn in H2; lia.
Qed.

(** What others know does not change under them. *)
Lemma knows_stable tr gs w j s k x i' : cvinv tr gs w → gs !! S j = Some (S j, s) → d_cs s = 1%nat →
  j ≠ k → gs !! S k = Some (S k, x) → knows k x i'.
Proof.
  intros HI Hj Hs Hne Hk. assert (d_cs x ≠ 1%nat).
  { intros Hx. by pose proof (cv_alone _ _ _ _ _ _ _ HI Hj Hs Hk Hx) as [= ?]. }
  pose proof (di_knows _ _ _ HI _ _ Hk). by destruct x.
Qed.

(** Who has incremented and not told is the next to tell. *)
Lemma next_to_tell tr gs w j s m : cvinv tr gs w → gs !! S j = Some (S j, s) → d_cs s = 1%nat → told s = false →
  d_i w = Z.of_nat j + 1 → (∀ k x, gs !! S k = Some (S k, x) → told x = true ↔ (k < m)%nat) → m = j.
Proof.
  intros HI Hj Hcs Hs Hij Ht. pose proof (Ht j s Hj) as Htj.
  assert (¬ (j < m)%nat) by (rewrite <- Htj, Hs; done). destruct (decide (m = j)) as [|Hne]; [done|]. exfalso.
  destruct (lookup_lt_is_Some_2 gs (S m)) as [[id x] Hx]; [apply lookup_lt_Some in Hj; lia|].
  destruct (di_who _ _ _ HI _ _ _ Hx) as [-> _]. assert (told x ≠ true) as Hx' by (rewrite (Ht m x Hx); lia).
  assert (past x = true) as Hpx by (apply (di_past _ _ _ HI _ _ Hx); lia).
  assert (d_cs x = 1%nat) as Hcx by (by destruct x).
  pose proof (cv_alone _ _ _ _ _ _ _ HI Hj Hcs Hx Hcx). congruence.
Qed.

Ltac turn_at := match goal with |- context [if decide (?a = ?b) then _ else _] => destruct (decide (a = b)) as [?|?] end.

(** Thread [j] goes from [s] to [s'], printing [ls]. *)
Lemma turn_step tr gs w w' j s s' ls : cvinv tr gs w → gs !! S j = Some (S j, s) →
  d_main s' = false → s' ≠ CBefore → s ≠ CDone → j ∈ d_created w →
  d_created w' = d_created w ∧ health w' = health w →
  d_exited w' = match s' with CDone => {[j]} ∪ d_exited w | _ => d_exited w end →
  (Nat.b2n (d_mu w') + d_cs s = Nat.b2n (d_mu w) + d_cs s')%nat →
  (d_i w' = d_i w ∧ past s' = past s ∨
   d_i w = Z.of_nat j ∧ d_i w' = Z.of_nat j + 1 ∧ d_cs s = 1%nat ∧ past s' = true) →
  knows j s' (d_i w') →
  (ls = [] ∧ told s' = told s ∨
   ls = [Incremented j (Z.of_nat j + 1)] ∧ d_cs s = 1%nat ∧ told s = false ∧ told s' = true ∧ d_i w = Z.of_nat j + 1) →
  (∀ k, k ∈ d_sleep w' → if decide (k = j) then s' = CAsleep else k ∈ d_sleep w) →
  (n = 2%nat → ∀ k, k ∈ d_sleep w' →
     (k ∈ d_sleep w ∧ (will_signal s = true → will_signal s' = true) ∧ (d_i w' = d_i w ∨ will_signal s' = true)) ∨
     d_i w' < Z.of_nat k) →
  cvinv (tr ++ map (pair (S j)) ls) (<[S j := (S j, s')]> gs) w'.
Proof.
  intros HI Hj Hm' Hb' Hd Hc [E1 E2] Hex Hmu Hi Hkn Hls Hsl Hwk.
  destruct (di_who _ _ _ HI _ _ _ Hj) as [_ Hm]. cbn in Hm.
  pose proof (total_insert (λ g : dghost, d_cs g.2) gs _ _ (S j, s') Hj) as Scs. cbn in Scs.
  assert (Hmain : ∀ m, <[S j := (S j, s')]> gs !! 0%nat = Some (0%nat, m) → gs !! 0%nat = Some (0%nat, m)).
  { intros m. by rewrite (cv_lookup_set _ _ _ _ _ Hj), decide_False. }
  constructor.
  - rewrite length_insert. apply HI.
  - intros i id s1. rewrite (cv_lookup_set _ _ _ _ _ Hj). turn_at; [|apply (di_who _ _ _ HI)].
    subst. intros [= <- <-]. by rewrite Hm'.
  - rewrite E2. apply HI.
  - intros m Hm0%Hmain. rewrite E1. by apply (di_created _ _ _ HI).
  - intros m k Hm0%Hmain Hk. rewrite (cv_lookup_set _ _ _ _ _ Hj).
    pose proof (di_joined _ _ _ HI _ _ Hm0 Hk) as Hk'. turn_at; [|done]. simplify_eq.
  - intros Hn. rewrite (di_lock _ _ _ HI) in Scs; [lia|]. intros H0. apply Hn. by rewrite list_lookup_insert_ne.
  - intros k s1. rewrite (cv_lookup_set _ _ _ _ _ Hj), E1. turn_at; [|apply (di_before _ _ _ HI)]. by intros [= <- <-].
  - intros k. assert (k ∈ d_exited w' ↔ k ∈ d_exited w ∨ (k = j ∧ s' = CDone)) as ->.
    { rewrite Hex. destruct s'; set_solver. }
    rewrite (cv_lookup_set _ _ _ _ _ Hj), (di_exited _ _ _ HI). turn_at.
    + simplify_eq. split; [intros [?|[_ ->]]; congruence|]. intros [= ->]. by right.
    + split; [intros [?|[-> _]]; congruence|by left].
  - pose proof (di_count _ _ _ HI). lia.
  - intros k s1. rewrite (cv_lookup_set _ _ _ _ _ Hj). turn_at.
    + simplify_eq. intros [= <-]. pose proof (di_past _ _ _ HI _ _ Hj) as Hp.
      destruct Hi as [[-> ->]|(_ & -> & _ & ->)]; [done|]. split; [lia|done].
    + intros Hk. rewrite (di_past _ _ _ HI _ _ Hk). destruct Hi as [[-> _]|(Hij & Hij' & _)]; [done|].
      assert (k ≠ j) by congruence. lia.
  - intros k s1. rewrite (cv_lookup_set _ _ _ _ _ Hj). turn_at; [simplify_eq; by intros [= <-]|]. intros Hk.
    destruct Hi as [[-> _]|(_ & _ & Hcs & _)]; [by apply (di_knows _ _ _ HI)|].
    by eapply (knows_stable _ _ _ j _ k); eauto.
  - destruct (di_told _ _ _ HI) as (m & Hmn & Htr & Ht).
    destruct Hls as [[-> Hsame]|(-> & Hcs & Hs & Hs' & Hij)].
    + exists m. cbn. rewrite app_nil_r. split_and!; [done|done|]. intros k s1. rewrite (cv_lookup_set _ _ _ _ _ Hj).
      turn_at; [simplify_eq; intros [= <-]; rewrite Hsame; by apply Ht|apply Ht].
    + assert (m = j) as -> by exact (next_to_tell _ _ _ _ _ _ HI Hj Hcs Hs Hij Ht).
      exists (S j). split; [apply lookup_lt_Some in Hj; rewrite (di_len _ _ _ HI) in Hj; lia|].
      split; [unfold turns; by rewrite seq_S, fmap_app, Htr|]. intros k s1.
      rewrite (cv_lookup_set _ _ _ _ _ Hj). turn_at; [simplify_eq; intros [= <-]; rewrite Hs'; split; [lia|done]|].
      intros Hk. rewrite (Ht _ _ Hk). assert (k ≠ j) by congruence. lia.
  - intros k Hk%Hsl. rewrite (cv_lookup_set _ _ _ _ _ Hj). destruct (decide (k = j)) as [->|Hne].
    + by rewrite decide_True, Hk.
    + rewrite decide_False by congruence. by apply (di_sleep _ _ _ HI).
  - intros Hn k Hk. assert (Hmine : <[S j := (S j, s')]> gs !! S j = Some (S j, s')).
    { rewrite (cv_lookup_set _ _ _ _ _ Hj). by rewrite decide_True. }
    destruct (Hwk Hn k Hk) as [(Hold & Hsig & Hor)|?]; [|by left].
    destruct Hor as [Heq|Hs']; [|right; by exists (S j), (S j, s')].
    destruct (di_wake _ _ _ HI Hn k Hold) as [?|(i & g & Hg & Hw)]; [left; lia|]. right.
    destruct (decide (i = S j)) as [->|Hne]; [rewrite Hj in Hg; injection Hg as <-; exists (S j), (S j, s'); auto|].
    exists i, g. by rewrite list_lookup_insert_ne.
Qed.

(** ** The threads *)

Lemma ok_turn_event k {X} (e : condE X) i s (Q : X → dghost → Prop) : dwaits X (i, s) e →
  (∀ tr gs w w' x, cvinv tr gs w → gs !! i = Some (i, s) → sys e w = Some (w', x) →
     ∃ s', cvinv (tr ++ map (pair i) (lab e x)) (<[i := (i, s')]> gs) w' ∧ Q x (i, s')) →
  dok k (perform e) (i, s) Q.
Proof.
  intros HA H. apply ok_trigger; [done|]. intros tr gs w w' x i' Hi HI Hs.
  destruct (di_who _ _ _ HI _ _ _ Hi) as [<- _]. destruct (H tr gs w w' x HI Hi Hs) as (s' & ? & ?). eauto.
Qed.

(** Who moves awake leaves the sleepers as they are. *)
Lemma sleep_same tr gs w j s s' : cvinv tr gs w → gs !! S j = Some (S j, s) → s ≠ CAsleep →
  ∀ k, k ∈ d_sleep w → if decide (k = j) then s' = CAsleep else k ∈ d_sleep w.
Proof.
  intros HI Hj Hs k Hk. destruct (decide (k = j)) as [->|]; [|done]. apply (di_sleep _ _ _ HI) in Hk. congruence.
Qed.

Lemma cs_locked tr gs w j s : cvinv tr gs w → gs !! S j = Some (S j, s) → d_cs s = 1%nat → d_mu w = true.
Proof.
  intros HI Hj Hs. assert (s ≠ CBefore) as Hb by (by intros ->). pose proof (cv_locked _ _ _ _ _ HI Hj Hb) as Hsum.
  pose proof (total_in (λ g : dghost, d_cs g.2) gs _ _ Hj) as H1. cbn in H1. rewrite Hsum, Hs in H1.
  destruct (d_mu w); [done|]. cbn in H1. lia.
Qed.

Ltac turn_event := apply ok_turn_event; [split; [done|]; try done|intros tr gs w w' x HI Hj Hs; cbn in Hs].
Ltac turn_goal HI := eapply turn_step; eauto; try done;
  try (by eapply (di_before _ _ _ HI)); try (by left); try (by apply (di_knows _ _ _ HI));
  try (by eapply (sleep_same _ _ _ _ _ _ HI); [eassumption|discriminate]); try (by intros _ k ?; left; split_and!; [done|done|left]).

(** Of two threads only the second can be asleep: a signal wakes it. *)
Lemma signal_wakes tr gs w : cvinv tr gs w → n = 2%nat →
  match picked w with Some id => d_sleep w ∖ {[id]} | None => d_sleep w end = ∅.
Proof.
  intros HI Hn. assert (Hsub : d_sleep w ⊆ {[1%nat]}).
  { intros k Hk%(di_sleep _ _ _ HI). pose proof (di_knows _ _ _ HI _ _ Hk) as Hpos. cbn in Hpos.
    apply lookup_lt_Some in Hk. rewrite (di_len _ _ _ HI) in Hk. apply elem_of_singleton. lia. }
  assert (d_sleep w = ∅ ∨ d_sleep w = {[1%nat]}) as [E|E].
  { destruct (decide (1%nat ∈ d_sleep w)); [right; set_solver|left; set_solver]. }
  - destruct (picked w); set_solver.
  - unfold picked. rewrite E, size_singleton, Nat.mod_1_r, elements_singleton. cbn. set_solver.
Qed.

Lemma ok_wait_turn k j : dok k
  (ITree.iter (λ _ : unit,
     let! i := ! GetCv in
     if i <? Z.of_nat j then do! ! (CvSleep j) in do! ! (CvWake j) in Ret (inl tt)
     else Ret (inr tt)) tt) (S j, CTest) (λ _ g, g = (S j, CPass)).
Proof.
  apply (ok_iter _ _ _ _ (λ _ g, g = (S j, CTest))); [|done]. intros m [] g ->. apply ok_bind. turn_event.
  injection Hs as <- <-. cbv beta. destruct (Z.ltb_spec (d_i w) (Z.of_nat j)) as [Hlt|Hge].
  - exists CWant. split; [turn_goal HI|]. clear tr gs w HI Hj Hlt. apply ok_bind. turn_event.
    { intros w Hs. cbn in Hs. by destruct (d_spurious w). }
    pose proof (di_knows _ _ _ HI _ _ Hj) as Hlt. cbn in Hlt.
    exists CAsleep. split.
    { pose proof (di_count _ _ _ HI).
      assert (Hw : d_mu w = true) by (by eapply cs_locked).
      destruct (match d_spurious w with [] => (false, []) | b :: sp => (b, sp) end) as [woken sp].
      injection Hs as <- <-. turn_goal HI; cbn.
      - by rewrite Hw.
      - lia.
      - intros k'. destruct woken; [|rewrite elem_of_union, elem_of_singleton]; intros ?; turn_at; try done; naive_solver.
      - intros _ k'. destruct woken; [by left; split_and!; [..|left]|].
        rewrite elem_of_union, elem_of_singleton. intros [->|?]; [by right|]. left. by split_and!; [..|left]. }
    clear. apply ok_bind. turn_event.
    { intros w Hs. cbn in Hs. destruct (d_mu w || bool_decide (j ∈ d_sleep w)) eqn:Hb; [|done].
      right. left. exists j. split; [done|]. apply orb_prop in Hb as [?|?%bool_decide_eq_true]; auto. }
    destruct (d_mu w) eqn:Hmu; [done|]. cbn in Hs. case_bool_decide as Hns; [done|]. injection Hs as <- <-.
    exists CTest. split; [|by apply ok_ret]. turn_goal HI; cbn.
    + by rewrite Hmu.
    + intros k' Hk'. turn_at; [by subst|done].
  - exists CPass. split; [turn_goal HI|by apply ok_ret].
Qed.

Lemma ok_turn k j : dok k (turn_thread_at j) (S j, CBefore) (λ _ g, g = (S j, CDone)).
Proof.
  unfold turn_thread_at, turn_thread. apply ok_bind. turn_event.
  { intros w Hs. cbn in Hs. case_decide; [done|]. right. right. left. by exists j. }
  case_decide as Hc; [|done]. injection Hs as <- <-. exists COut. split; [turn_goal HI|].
  clear. apply ok_bind, ok_bind. turn_event.
  { intros w Hs. cbn in Hs. left. by destruct (d_mu w). }
  destruct (d_mu w) eqn:Hmu; [done|]. injection Hs as <- <-. exists CTest.
  split; [turn_goal HI; cbn; by rewrite Hmu|].
  clear. apply ok_bind. eapply ok_conseq; [apply ok_wait_turn|]. intros [] g ->. apply ok_bind. turn_event.
  injection Hs as <- <-. exists (CGot (d_i w)). split.
  { turn_goal HI. split; [done|]. by apply (di_knows _ _ _ HI _ _ Hj). }
  generalize (d_i w) as v. clear. intros v. apply ok_bind. turn_event.
  injection Hs as <- <-. exists CWrote. split.
  { destruct (di_knows _ _ _ HI _ _ Hj) as [-> Hle]. pose proof (di_past _ _ _ HI _ _ Hj) as Hp. cbn in Hp.
    assert (d_i w = Z.of_nat j) as Hi. { destruct (Z_lt_dec (Z.of_nat j) (d_i w)) as [?%Hp|]; [done|lia]. }
    turn_goal HI; cbn.
    - right. split_and!; try done. lia.
    - lia. }
  clear. apply ok_bind. turn_event. injection Hs as <- <-. exists (CSeen (d_i w)).
  pose proof (di_knows _ _ _ HI _ _ Hj) as Hi. cbn in Hi. split; [turn_goal HI|]. rewrite Hi. clear.
  apply ok_bind. turn_event. injection Hs as <- <-. pose proof (di_knows _ _ _ HI _ _ Hj) as [_ Hi]. exists CPrinted. split.
  { turn_goal HI. right. by split_and!. }
  clear. apply ok_bind. turn_event. injection Hs as <- <-. exists CSignal. split.
  { turn_goal HI. cbn. by rewrite (cs_locked _ _ _ _ _ HI Hj eq_refl). }
  clear. turn_event. injection Hs as <- <-. exists CLeft. split.
  { turn_goal HI; cbn.
    - intros k' Hk'. eapply sleep_same; [exact HI|exact Hj|done|]. destruct (picked w); set_solver.
    - intros Hn k'. by rewrite (signal_wakes _ _ _ HI Hn). }
  clear. turn_event. injection Hs as <- <-. exists CDone. split; [turn_goal HI|done].
Qed.

(** ** main *)

Lemma turns_main_step tr gs w w' m m' : cvinv tr gs w → gs !! 0%nat = Some (0%nat, m) → d_main m' = true →
  d_i w' = d_i w ∧ d_sleep w' = d_sleep w ∧ health w' = health w ∧ d_exited w' = d_exited w →
  (∀ j, j ∈ d_created w' ↔ (j < turns_created m')%nat) → (turns_created m ≤ turns_created m' ≤ n)%nat →
  (∀ j, (j < turns_joined m')%nat → gs !! S j = Some (S j, CDone)) →
  (m' ≠ DInit → total (λ g : dghost, d_cs g.2) gs = Nat.b2n (d_mu w')) →
  cvinv (tr ++ map (pair 0%nat) []) (<[0%nat := (0%nat, m')]> gs) w'.
Proof.
  intros HI H0 Hm' (E1 & E2 & E3 & E4) Hcr Hle Hjn Hlk. cbn. rewrite app_nil_r.
  destruct (di_who _ _ _ HI _ _ _ H0) as [_ Hm].
  pose proof (total_insert (λ g : dghost, d_cs g.2) gs _ _ (0%nat, m') H0) as Scs. cbn in Scs.
  replace (d_cs m) with 0%nat in Scs by (by destruct m). replace (d_cs m') with 0%nat in Scs by (by destruct m').
  assert (Hthr : ∀ j, <[0%nat := (0%nat, m')]> gs !! S j = gs !! S j) by (intros j; by rewrite list_lookup_insert_ne).
  assert (Hmine : ∀ m1, <[0%nat := (0%nat, m')]> gs !! 0%nat = Some (0%nat, m1) → m1 = m').
  { intros m1. rewrite (cv_lookup_set _ _ _ _ _ H0), decide_True by done. by intros [= <-]. }
  constructor.
  - rewrite length_insert. apply HI.
  - intros i id s1. rewrite (cv_lookup_set _ _ _ _ _ H0). turn_at; [|apply (di_who _ _ _ HI)].
    subst. intros [= <- <-]. by rewrite Hm'.
  - rewrite E3. apply HI.
  - intros m1 ->%Hmine. split; [done|lia].
  - intros m1 j ->%Hmine. rewrite Hthr. apply Hjn.
  - intros Hn. rewrite <- Hlk; [lia|]. intros ->. apply Hn. by rewrite (cv_lookup_set _ _ _ _ _ H0), decide_True.
  - intros j s. rewrite Hthr. intros Hj Hs. apply Hcr. apply (di_before _ _ _ HI _ _ Hj), (di_created _ _ _ HI _ H0) in Hs. lia.
  - intros j. rewrite Hthr, E4. apply (di_exited _ _ _ HI).
  - rewrite E1. apply HI.
  - intros j s. rewrite Hthr, E1. apply (di_past _ _ _ HI).
  - intros j s. rewrite Hthr, E1. apply (di_knows _ _ _ HI).
  - destruct (di_told _ _ _ HI) as (k & Hk & Htr & Ht). exists k. split_and!; [done|done|]. intros j s. rewrite Hthr. apply Ht.
  - intros j. rewrite Hthr, E2. apply (di_sleep _ _ _ HI).
  - intros Hn j. rewrite E1, E2. intros Hj. destruct (di_wake _ _ _ HI Hn j Hj) as [?|(i & g & Hg & Hw)]; [by left|right].
    exists i, g. split; [|done]. rewrite list_lookup_insert_ne; [done|]. intros <-. rewrite H0 in Hg. injection Hg as <-.
    by destruct m.
Qed.

Lemma ok_create_turns k m c : (c + m = n)%nat →
  dok k (create_turns c m) (0%nat, DRun c 0) (λ _ g, g = (0%nat, DRun n 0)).
Proof.
  revert c. induction m as [|m IH]; intros c Hc; cbn [create_turns].
  { apply ok_ret. by replace c with n by lia. }
  apply ok_bind. turn_event. injection Hs as <- <-. exists (DRun (S c) 0). split; [|apply IH; lia].
  destruct (di_created _ _ _ HI _ Hj) as [Hcr Hle]. eapply turns_main_step; eauto; try done; cbn in *.
  - intros j. rewrite elem_of_union, elem_of_singleton, Hcr. lia.
  - lia.
  - lia.
  - intros _. apply (di_lock _ _ _ HI). congruence.
Qed.

Lemma ok_join_turns k m j : (j + m = n)%nat →
  dok k (join_turns j m) (0%nat, DRun n j) (λ _ g, g = (0%nat, DRun n n)).
Proof.
  revert j. induction m as [|m IH]; intros j Hm; cbn [join_turns].
  { apply ok_ret. by replace j with n by lia. }
  apply ok_bind. turn_event.
  { intros w Hs. cbn in Hs. case_decide; [done|]. right. right. right. exists j. split_and!; [done|lia|done]. }
  case_decide as Hex; [|done]. injection Hs as <- <-. exists (DRun n (S j)). split; [|apply IH; lia].
  destruct (di_created _ _ _ HI _ Hj) as [Hcr Hle]. eapply turns_main_step; eauto; try done; cbn in *.
  - intros i Hi. destruct (decide (i = j)) as [->|]; [by apply (di_exited _ _ _ HI)|]. eapply (di_joined _ _ _ HI); [done|]. cbn. lia.
  - intros _. apply (di_lock _ _ _ HI). congruence.
Qed.

(** All joined: nobody holds the mutex or sleeps. *)
Lemma all_turns_done tr gs w : cvinv tr gs w → gs !! 0%nat = Some (0%nat, DRun n n) →
  d_mu w = false ∧ d_sleep w = ∅ ∧ tr = turns n.
Proof.
  intros HI H0. assert (Hd : ∀ j, (j < n)%nat → gs !! S j = Some (S j, CDone)).
  { intros j Hj. by eapply (di_joined _ _ _ HI). }
  assert (Hst : ∀ i g, gs !! i = Some g → g.2 = CDone ∨ g = (0%nat, DRun n n)).
  { intros [|j] g Hg; [rewrite H0 in Hg; injection Hg as <-; by right|]. left.
    rewrite Hd in Hg; [by injection Hg as <-|]. apply lookup_lt_Some in Hg. rewrite (di_len _ _ _ HI) in Hg. lia. }
  split_and!.
  - assert (total (λ g : dghost, d_cs g.2) gs = 0%nat) as Hz.
    { apply total_zero. intros g [i Hg]%list_elem_of_lookup_1. by destruct (Hst i g Hg) as [->| ->]. }
    rewrite (di_lock _ _ _ HI) in Hz by congruence. by destruct (d_mu w).
  - apply set_eq. intros j. split; [|set_solver]. intros Hj%(di_sleep _ _ _ HI).
    destruct (Hst _ _ Hj) as [[=]|[=]].
  - destruct (di_told _ _ _ HI) as (m & Hm & -> & Ht). f_equal. destruct (decide (m < n)%nat) as [Hlt|]; [|lia].
    pose proof (Ht m CDone (Hd m Hlt)) as [H _]. specialize (H eq_refl). lia.
Qed.

Lemma pop_dfault_none tr gs w : cvinv tr gs w → pop_dfault w = (false, w).
Proof. intros HI. pose proof (di_alive _ _ _ HI) as [= _ E]. unfold pop_dfault. by rewrite E. Qed.

(** Before a thread is created nobody has the mutex or sleeps. *)
Lemma none_created tr gs w m : cvinv tr gs w → gs !! 0%nat = Some (0%nat, m) → turns_created m = 0%nat →
  d_sleep w = ∅ ∧ total (λ g : dghost, d_cs g.2) gs = 0%nat.
Proof.
  intros HI Hm Hc. destruct (di_created _ _ _ HI _ Hm) as [Hcr _]. rewrite Hc in Hcr.
  assert (Hb : ∀ j s, gs !! S j = Some (S j, s) → s = CBefore).
  { intros j s Hj. destruct s; try done; apply (di_before _ _ _ HI) in Hj; try done; apply Hcr in Hj; lia. }
  split.
  - apply set_eq. intros j. split; [|set_solver]. intros Hj%(di_sleep _ _ _ HI). by apply Hb in Hj.
  - apply total_zero. intros [id s] [i Hi]%list_elem_of_lookup_1. cbn. destruct (di_who _ _ _ HI _ _ _ Hi) as [-> Hmm].
    destruct i as [|i]; [by destruct s|]. by rewrite (Hb i s Hi).
Qed.

Lemma ok_turns_main k : dok k (turns_main n) (0%nat, DInit) (λ _ g, g = (0%nat, DRun n n)).
Proof.
  unfold turns_main. apply ok_bind. turn_event.
  { intros w Hs. cbn in Hs. by destruct (pop_dfault w). }
  rewrite (pop_dfault_none _ _ _ HI) in Hs. injection Hs as <- <-. exists (DRun 0 0). split.
  { destruct (di_created _ _ _ HI _ Hj) as [Hcr Hle]. eapply turns_main_step; eauto; try done; cbn in *; [lia|].
    intros _. by apply (none_created _ _ _ _ HI Hj). }
  clear. cbn [Z.eqb assert_rc]. apply ok_bind. turn_event.
  { intros w Hs. cbn in Hs. by destruct (pop_dfault w). }
  rewrite (pop_dfault_none _ _ _ HI) in Hs. injection Hs as <- <-. exists (DRun 0 0). split.
  { destruct (di_created _ _ _ HI _ Hj) as [Hcr Hle]. destruct (none_created _ _ _ _ HI Hj eq_refl) as [Hsl _].
    eapply turns_main_step; eauto; try done; cbn in *; [lia|]. intros _. by apply (di_lock _ _ _ HI); congruence. }
  clear. cbn [Z.eqb assert_rc]. apply ok_bind. eapply ok_conseq; [by apply ok_create_turns|]. intros [] g ->.
  apply ok_bind. eapply ok_conseq; [by apply ok_join_turns|]. intros [] g ->. apply ok_bind. turn_event.
  injection Hs as <- <-. exists (DRun n n).
  assert (Hstay : ∀ tr gs w, cvinv tr gs w → gs !! 0%nat = Some (0%nat, DRun n n) →
    cvinv (tr ++ map (pair 0%nat) []) (<[0%nat := (0%nat, DRun n n)]> gs) w).
  { intros tr' gs' w' HI' H0'. cbn. by rewrite app_nil_r, list_insert_id. }
  split; [by apply Hstay|]. clear -Hstay. apply ok_bind. turn_event.
  destruct (all_turns_done _ _ _ HI Hj) as (_ & Hsl & _). rewrite Hsl, bool_decide_true in Hs by done.
  injection Hs as <- <-. exists (DRun n n). split; [by apply Hstay|by apply ok_ret].
Qed.

(** ** When nothing moves *)

Lemma turns_settled q gs : n = 2%nat → stuck q = true → cvinv (pool_trace q) gs (pool_world q) →
  Forall2 (λ t g, dok 1 t g (λ _ g', g' = (0%nat, DRun n n) ∨ ∃ j, g' = (S j, CDone))) (pool_threads q) gs →
  pool_trace q = turns n ∧ ∀ t, t ∈ pool_threads q → ∃ r, observe t = RetF r.
Proof.
  intros Hn Hst HI Hok. set (w := pool_world q) in *.
  assert (Hcase : ∀ i g, gs !! i = Some g → ∃ t, pool_threads q !! i = Some t ∧
    ((∃ r, observe t = RetF r ∧ (g = (0%nat, DRun n n) ∨ ∃ j, g = (S j, CDone))) ∨
     (g.2 = COut ∧ d_mu w = true) ∨ (∃ j, g = (S j, CAsleep) ∧ (d_mu w = true ∨ j ∈ d_sleep w)) ∨
     (∃ j, g = (S j, CBefore) ∧ j ∉ d_created w) ∨
     (∃ j, g = (0%nat, DRun n j) ∧ (j < n)%nat ∧ j ∉ d_exited w))).
  { intros i g Hg. destruct (Forall2_lookup_r _ _ _ _ _ Hok Hg) as (t & Ht & H). exists t. split; [done|]. cbn in H.
    pose proof (stuck_thread q i t Hst Ht) as Hs. unfold step_thread in Hs. fold w in Hs.
    destruct (observe t) as [r|t'|X e k]; [left; eauto|done|]. destruct H as [[_ HA] _].
    destruct (sys e w) as [[w' x]|] eqn:He; [done|]. right. by apply HA. }
  assert (Hcs : ∀ i g, gs !! i = Some g → d_cs g.2 = 0%nat ∧ will_signal g.2 = false).
  { intros i g Hg. destruct (Hcase i g Hg) as (t & _ & [(r & _ & [->|[j ->]])|[[E _]|[(j & -> & _)|[(j & -> & _)|(j & -> & _)]]]]);
      try done. by rewrite E. }
  destruct (cv_main_there _ _ _ HI) as (m & H0).
  assert (∃ j, m = DRun n j) as [jm ->].
  { destruct (Hcase _ _ H0) as (t & _ & [(r & _ & [[= ->]|[j [=]]])|[[E _]|[(j & [=] & _)|[(j & [=] & _)|(j & [= ->] & _)]]]]); eauto.
    destruct (di_who _ _ _ HI _ _ _ H0) as [_ Hmm]. cbn in E. by rewrite E in Hmm. }
  assert (Hmu : d_mu w = false).
  { pose proof (di_lock _ _ _ HI ltac:(congruence)) as Hsum. rewrite total_zero in Hsum; [by destruct (d_mu w)|].
    intros g [i Hg]%list_elem_of_lookup_1. by apply (Hcs i). }
  assert (Hall : ∀ j s, gs !! S j = Some (S j, s) → s = CDone ∨ s = CAsleep ∧ j ∈ d_sleep w).
  { intros j s Hj. destruct (Hcase _ _ Hj) as (t & _ & [(r & _ & [[=]|[? [= _ ->]]])|[[_ E]|[(j' & [= <- ->] & Hor)|[(j' & [= <- ->] & Hc)|(j' & [=] & _)]]]]);
      [by left|congruence|right; destruct Hor; [congruence|done]|].
    exfalso. apply Hc, (di_created _ _ _ HI _ H0). cbn. apply lookup_lt_Some in Hj. rewrite (di_len _ _ _ HI) in Hj. lia. }
  assert (Hdone : ∀ j, (j < n)%nat → gs !! S j = Some (S j, CDone)).
  { intros j Hj. destruct (lookup_lt_is_Some_2 gs (S j)) as [[id s] Hs]; [rewrite (di_len _ _ _ HI); lia|].
    destruct (di_who _ _ _ HI _ _ _ Hs) as [-> _]. destruct (Hall j s Hs) as [->|[-> Hsl]]; [done|exfalso].
    pose proof (di_knows _ _ _ HI _ _ Hs) as Hpos. cbn in Hpos. assert (j = 1%nat) as -> by lia.
    destruct (di_wake _ _ _ HI Hn _ Hsl) as [Hlt|(i & g & Hg & Hw)]; [|destruct (Hcs i g Hg); congruence].
    destruct (lookup_lt_is_Some_2 gs 1) as [[id s] H1]; [rewrite (di_len _ _ _ HI); lia|].
    destruct (di_who _ _ _ HI _ _ _ H1) as [-> _]. destruct (Hall 0%nat s H1) as [->|[-> Hsl0]].
    - pose proof (di_past _ _ _ HI _ _ H1) as [Hp _]. specialize (Hp eq_refl). lia.
    - pose proof (di_knows _ _ _ HI _ _ H1) as Hp. cbn in Hp. lia. }
  assert (jm = n) as ->.
  { destruct (Hcase _ _ H0) as (t & _ & [(r & _ & [[= ->]|[j [=]]])|[[[=] _]|[(j & [=] & _)|[(j & [=] & _)|(j & [= ->] & Hj & Hex)]]]]); [done|].
    exfalso. by apply Hex, (di_exited _ _ _ HI), Hdone. }
  split; [by eapply all_turns_done|]. intros t [i Ht]%list_elem_of_lookup_1.
  destruct (Forall2_lookup_l _ _ _ _ _ Hok Ht) as (g & Hg & _). destruct (Hcase i g Hg) as (t' & Ht' & Hc).
  rewrite Ht in Ht'. injection Ht' as <-.
  destruct Hc as [(r & Hr & _)|Hc]; [by exists r|exfalso]. destruct i as [|i].
  - rewrite H0 in Hg. injection Hg as <-. naive_solver lia.
  - rewrite Hdone in Hg; [injection Hg as <-; naive_solver|]. apply lookup_lt_Some in Hg. rewrite (di_len _ _ _ HI) in Hg. lia.
Qed.
End inv.

(** ** The theorem *)

(** Before main runs. *)
Record turns_fresh (w : dworld) : Prop := {
  tu_count : d_i w = 0;
  tu_awake : d_sleep w = ∅;
  tu_alive : d_aborted w = false;
  tu_calm : d_faults w = [];
  tu_none : d_created w = ∅ ∧ d_exited w = ∅
}.

Definition turn_over (t : itree condE unit) : bool := match observe t with RetF _ => true | _ => false end.

Definition turns_start (n : nat) : list dghost := (0%nat, DInit) :: ((λ j, (S j, CBefore)) <$> seq 0 n).

Lemma turns_start_at n i g : turns_start n !! i = Some g → g = (0%nat, DInit) ∧ i = 0%nat ∨ ∃ j, g = (S j, CBefore) ∧ i = S j.
Proof.
  unfold turns_start. destruct i as [|i]; cbn [lookup]; [intros [= <-]; by left|].
  intros H. apply list_lookup_fmap_Some in H as (j & -> & [-> _]%lookup_seq). right. by exists i.
Qed.

Lemma turns_start_inv n w : turns_fresh w → cvinv n [] (turns_start n) w.
Proof.
  intros [Hi Hs Ha Hf [Hc Hx]]. assert (Hh : health w = (false, [])) by (unfold health; by rewrite Ha, Hf).
  split; try done.
  - unfold turns_start. cbn [length]. by rewrite length_fmap, length_seq.
  - intros i id s [[[= -> ->] ->]|(j & [= -> ->] & ->)]%turns_start_at; done.
  - intros m [= <-]. cbn. rewrite Hc. split; [intros j; split; [set_solver|lia]|lia].
  - intros m j [= <-]. cbn. lia.
  - intros j s [[[=] _]|(j' & [= _ ->] & _)]%turns_start_at; done.
  - intros j. rewrite Hx. split; [set_solver|]. intros [[[=] _]|(j' & [=] & _)]%turns_start_at.
  - lia.
  - intros j s [[[=] _]|(j' & [= _ ->] & _)]%turns_start_at. rewrite Hi. cbn. split; [done|lia].
  - intros j s [[[=] _]|(j' & [= _ ->] & _)]%turns_start_at. done.
  - exists 0%nat. split_and!; [lia|done|]. intros j s [[[=] _]|(j' & [= _ ->] & _)]%turns_start_at. cbn. split; [done|lia].
  - intros j. rewrite Hs. set_solver.
  - intros _ j. rewrite Hs. set_solver.
Qed.

Lemma turns_reach n w q : turns_fresh w → reachable (turns_process n w) q →
  ∃ gs, cvinv n (pool_trace q) gs (pool_world q) ∧
    Forall2 (λ t g, ok (cvinv n) (dwaits n) 1 t g (λ _ g', g' = (0%nat, DRun n n) ∨ ∃ j, g' = (S j, CDone)))
      (pool_threads q) gs.
Proof.
  intros Hw Hr. apply (pool_sound (cvinv n) (dwaits n) _ _ q (turns_start n) Hr); cbn [pool_trace pool_world pool_threads turns_process].
  { by apply turns_start_inv. }
  intros k. unfold turns_start. constructor.
  { eapply ok_conseq; [apply ok_turns_main|]. by left. }
  generalize (seq 0 n) as js. induction js as [|j js IH]; cbn; constructor; [|done].
  eapply ok_conseq; [apply ok_turn|]. intros _ g ->. right. by exists j.
Qed.

(** ** Every run ends *)

(** Going to sleep uses up a place among the sleepers or a spurious wake-up; a
    signal, of which every thread sends one, gives a place back, as main's
    initialisation does. *)
Definition turn_pace X (e : condE X) (x : X) (w w' : dworld) : pace :=
  match e with CvSleep _ => Gain | CvSignal | CvInit => Spend | _ => Slow end.

Section costs.
Context (N : nat).
Local Abbreviation cost := (costs turn_pace 1 N).
Local Ltac call := apply costs_trigger; [done|lia].
Local Ltac pay_call := pay 0%nat 1%nat; [call|].

(** Every turn of the wait goes to sleep. *)
Lemma cost_wait_turn j : cost 0 3 (ITree.iter (λ _ : unit,
  let! i := ! GetCv in
  if i <? Z.of_nat j then do! ! (CvSleep j) in do! ! (CvWake j) in Ret (inl tt)
  else Ret (inr tt)) tt).
Proof.
  intros n b c Hb Hc. apply (paces_iter _ _ _ _ (λ b' c' _, at_least 1 N b (c - 2) b' c')); [|unfold at_least; lia].
  clear n. intros n b1 c1 [] [Hb1 Hc1]. apply paces_bind, paces_trigger. intros w w' i _. cbn [turn_pace charge].
  unfold at_least. destruct c1 as [|c1]; [lia|]. destruct (i <? Z.of_nat j); [|apply paces_ret; lia].
  apply paces_bind, paces_trigger. intros w1 w1' [] _. cbn [turn_pace charge].
  apply paces_bind, paces_trigger. intros w2 w2' [] _. cbn [turn_pace charge]. destruct N as [|[|N']]; [lia|lia|].
  apply paces_ret. lia.
Qed.

Lemma cost_turn j : cost 1 12 (turn_thread_at j).
Proof.
  unfold turn_thread_at, turn_thread. pay_call. pay 1%nat 10%nat; [|call]. pay_call.
  pay 0%nat 3%nat; [apply cost_wait_turn|]. do 5 pay_call. apply costs_trigger; lia.
Qed.

Lemma cost_create_turns j k : cost 0 k (create_turns j k).
Proof.
  revert j. induction k as [|k IH]; intros j; cbn [create_turns]; [apply costs_ret|].
  apply (costs_seq _ _ _ 0 1); [lia|lia|call|]. intros _. replace (S k - 1)%nat with k by lia. apply IH.
Qed.

Lemma cost_join_turns j k : cost 0 k (join_turns j k).
Proof.
  revert j. induction k as [|k IH]; intros j; cbn [join_turns]; [apply costs_ret|].
  apply (costs_seq _ _ _ 0 1); [lia|lia|call|]. intros _. replace (S k - 1)%nat with k by lia. apply IH.
Qed.

Lemma cost_assert_rc d c rc t : (0 < c)%nat → cost d c t → cost d c (assert_rc rc t).
Proof. intros Hc Ht. unfold assert_rc. case_match; [done|call]. Qed.

Lemma cost_turns_main n : cost 1 (2 * n + 5) (turns_main n).
Proof.
  unfold turns_main. apply (costs_seq _ _ _ 0 1); [lia|lia|call|]. intros rc. apply cost_assert_rc; [lia|].
  apply (costs_seq _ _ _ 1 1); [lia|lia|apply costs_trigger; lia|]. intros rc'. apply cost_assert_rc; [lia|].
  apply (costs_seq _ _ _ 0 n); [lia|lia|apply cost_create_turns|]. intros _.
  apply (costs_seq _ _ _ 0 n); [lia|lia|apply cost_join_turns|]. intros _.
  do 2 (apply (costs_seq _ _ _ 0 1); [lia|lia|call|]; intros ?). apply cost_assert_rc; [lia|apply costs_ret].
Qed.
End costs.

Definition turn_places (n : nat) (w : dworld) : nat := length (d_spurious w) + (n - size (d_sleep w)).

Lemma turn_sleep_takes n tr gs w j w' x : cvinv n tr gs w → gs !! S j = Some (S j, CWant) →
  sys (CvSleep j) w = Some (w', x) → (turn_places n w' < turn_places n w)%nat.
Proof.
  intros HI Hj Hs. assert (Hnew : j ∉ d_sleep w) by (intros Hin%(di_sleep _ _ _ _ HI); congruence).
  assert (Hsub : {[j]} ∪ d_sleep w ⊆ list_to_set (seq 0 n)).
  { intros k Hk. apply elem_of_list_to_set, elem_of_seq.
    assert (is_Some (gs !! S k)) as [g Hg].
    { apply elem_of_union in Hk as [->%elem_of_singleton|Hk%(di_sleep _ _ _ _ HI)]; by eexists. }
    apply lookup_lt_Some in Hg. rewrite (di_len _ _ _ _ HI) in Hg. lia. }
  apply subseteq_size in Hsub. rewrite size_list_to_set, length_seq in Hsub by apply NoDup_seq.
  rewrite size_union, size_singleton in Hsub by set_solver.
  unfold turn_places. cbn in Hs. destruct (d_spurious w) as [|[] sp]; injection Hs as <- <-; cbn;
    rewrite ?size_union, ?size_singleton by set_solver; lia.
Qed.

Lemma turn_places_same n X (e : condE X) w w' x : sys e w = Some (w', x) →
  turn_pace X e x w w' = Slow → (turn_places n w' ≤ turn_places n w)%nat.
Proof.
  intros Hs Hp. destruct e; try done; cbn in Hs; unfold pop_dfault in Hs; repeat (case_match || simplify_eq); try done;
    unfold turn_places; cbn; try lia.
Qed.

Lemma turns_end n w : turns_fresh w → sn pool_step (turns_process n w).
Proof.
  intros Hw. set (N := (2 * n + 12)%nat). set (p0 := turns_process n w).
  refine (steady_terminates turn_pace 1 N p0 (λ _, turn_places n) _ p0 (replicate (S n) (1%nat, N)) (rtc_refl _ _) _).
  - intros ts v tr i t X e h v' x Hr Hi Ho Hs. cbv zeta. destruct (turn_pace X e x v v') eqn:Hp; [|..|done|].
    + by eapply turn_places_same.
    + destruct (turns_reach n w _ Hw Hr) as (gs & HI & Hok). cbn [pool_trace pool_world pool_threads] in *.
      destruct (Forall2_lookup_l _ _ _ _ _ Hok Hi) as (g & Hg & Hok1). cbn in Hok1. rewrite Ho in Hok1.
      destruct Hok1 as [[HA _] _]. destruct e; try done. subst g.
      destruct (di_who _ _ _ _ HI _ _ _ Hg) as [<- _]. by eapply turn_sleep_takes.
    + by destruct e.
  - apply Forall2_same_length_lookup_2; [cbn; by rewrite length_fmap, length_seq, length_replicate|].
    intros i t bk Ht [-> _]%lookup_replicate. destruct i as [|i]; cbn in Ht.
    + injection Ht as <-. eapply costs_steady; [| |apply cost_turns_main]; unfold N; lia.
    + apply list_lookup_fmap_Some in Ht as (j & -> & _). eapply costs_steady; [| |apply cost_turn]; unfold N; lia.
Qed.

(** C30. The threads of condvars.c take turns.  With any number of threads, when
    the initialisations succeed, every interleaving comes to an end, with spurious
    wake-ups and whichever sleeper a signal wakes; in all of them the messages
    printed so far are those of threads 0, 1, 2, ... in this order, and thread [k]
    has incremented the counter to [k + 1]; no assertion fails.  With the two
    threads of main the program does not deadlock: when nothing moves, both have
    had their turn and all have returned. *)
Theorem condvars_take_turns n w : turns_fresh w → sn pool_step (turns_process n w) ∧
  ∀ q, reachable (turns_process n w) q →
  (∃ m, (m ≤ n)%nat ∧ pool_trace q = turns m) ∧ d_aborted (pool_world q) = false ∧
  (n = 2%nat → stuck q = true → pool_trace q = turns 2 ∧ Forall (λ t, turn_over t = true) (pool_threads q)).
Proof.
  intros Hw. split; [by apply turns_end|]. intros q Hr. destruct (turns_reach n w q Hw Hr) as (gs & HI & Hok). split_and!.
  - destruct (di_told _ _ _ _ HI) as (m & Hm & Htr & _). eauto.
  - by pose proof (di_alive _ _ _ _ HI) as [= -> _].
  - intros Hn Hst. destruct (turns_settled n q gs Hn Hst HI Hok) as [Htr Hret]. split; [by rewrite Htr, Hn|].
    apply Forall_forall. intros t Ht. unfold turn_over. by destruct (Hret t Ht) as [r ->].
Qed.

(** Thread 1 runs first and has to wait. *)
Definition turns_run : pool condE dworld incremented :=
  schedule (replicate 8 0 ++ replicate 8 2 ++ concat (replicate 30 [0; 1; 2]))%nat
    (condvars_process (DW 0 false ∅ [] [true] ∅ ∅ false [])).

Lemma condvars_take_turns_witness : stuck turns_run = true ∧
  pool_trace turns_run = [(1%nat, Incremented 0 1); (2%nat, Incremented 1 2)].
Proof.
  assert (Hst : stuck turns_run = true) by (vm_compute; reflexivity). split; [exact Hst|].
  destruct (condvars_take_turns 2 (DW 0 false ∅ [] [true] ∅ ∅ false [])) as [_ H]; [by repeat split|].
  destruct (H turns_run (schedule_reachable _ _)) as (_ & _ & H'). exact (proj1 (H' eq_refl Hst)).
Defined.
