(* ===== verification/MemParse.v ===== *)
(** * A command line parser (practica/regex/memory_parsing.c)

    cmd_parse reads a command from stdin and finds its parts with a regular
    expression; cmd_dump prints them.  (main returns before it calls them.)
    What the C leaves undefined is a result of its own: a pointer that was
    never set, and a store behind the buffer. *)
From S2P Require Import Prelude Libc Regex Http Prog Posix Util Demo Connection Parsing.
Local Open Scope Z_scope.
Local Open Scope prog_scope.

(** PATH_MAX *)
Definition CMD_BUFFER_SIZE : Z := 4096.

Definition PARSE_REGEX : bytes := B "^([A-zA-Z]*) /([a-zA-Z0-9._]*)" ++ [LF].

(** A char pointer: never set, NULL, or into [buf]. *)
Inductive ptr := PUnset | PNull | PBuf (off : nat).

Record Command := mkCommand {
  cmd_buf : bytes;           (* BUFFER_SIZE + 1 bytes *)
  cmd_bufsize : Z;           (* a uint16_t *)
  cmd_command : ptr;
  cmd_location : ptr
}.

(** The result and the buffer; -1 for an error. *)
Definition read_bytes (fd : nat) (buf : bytes) (nbytes : Z) : itree sysE (Z * bytes) :=
  ITree.iter (λ '(total, buf),
    let! r := ! (Read fd (Z.to_nat (nbytes - total))) in
    match r with
    | Err _ => Ret (inr (-1, buf))
    | Ok d =>
        let buf := store buf (Z.to_nat total) d in
        let total := total + Z.of_nat (length d) in
        if (0 <? Z.of_nat (length d)) && (total <? nbytes)
        then Ret (inl (total, buf)) else Ret (inr (total, buf))
    end) (0, buf).

Inductive parse_end :=
  | ParsedCmd (c : Command)
  | OutOfBounds (i : Z)        (* a store at buf[i], outside buf *)
  | AssertFailed.

Definition cmd_parse (c : Command) (fd : nat) : itree sysE parse_end :=
  let! (n, buf) := read_bytes fd (cmd_buf c) CMD_BUFFER_SIZE in
  let bufsize := n mod 2 ^ 16 in
  let c := mkCommand buf bufsize (cmd_command c) (cmd_location c) in
  if 0 <? bufsize then
    if CMD_BUFFER_SIZE <? bufsize then Ret (OutOfBounds bufsize)
    else
      let buf := store buf (Z.to_nat bufsize) [NUL] in
      let! re := compile PARSE_REGEX in
      match re with
      | None => Ret AssertFailed
      | Some re =>
          match regexec re buf with
          | Some (_ :: _ :: (so, _) :: _) => Ret (ParsedCmd (mkCommand buf bufsize (PBuf 0) (PBuf so)))
          | _ => Ret (ParsedCmd (mkCommand buf bufsize PNull PNull))
          end
      end
  else Ret (ParsedCmd c).

(** What is printed; [None] when an unset pointer is looked at. *)
Definition cmd_dump (c : Command) : option bytes :=
  let str off := cstr (drop off (cmd_buf c)) in
  match cmd_command c, cmd_location c with
  | PUnset, _ => None
  | PBuf a, PUnset => None
  | PBuf a, PBuf b => Some (B "Command: " ++ str a ++ [LF] ++ B "Location: " ++ str b ++ [LF])
  | _, _ => Some (B "Command not parsed!" ++ [LF])
  end.

(** The Command of main, which nothing initialises but its size. *)
Definition fresh_command (garbage : bytes) : Command := mkCommand garbage 0 PUnset PUnset.

(** ** The pattern *)

Definition word_piece : piece := Piece (CRanges (range "A" "z" ++ range "A" "Z")) 0 None true.
Definition location_piece : piece :=
  Piece (CRanges (range "a" "z" ++ range "A" "Z" ++ range "0" "9" ++ one "." ++ one "_")) 0 None true.
Definition cmd_pieces : list piece := word_piece :: lit (B " /") ++ location_piece :: lit [LF] ++ [].

Lemma regcomp_cmd : regcomp PARSE_REGEX = Some (Regex true cmd_pieces).
Proof. vm_compute. reflexivity. Qed.

(** The command [m] for the location [l]. *)
Definition cmd_line (m l : bytes) : bytes := m ++ B " /" ++ l ++ [LF].
Definition wf_cmd (m l : bytes) : Prop := piece_ok word_piece m ∧ piece_ok location_piece l.
Definition cmd_vec (m l : bytes) : list nat := length m :: replicate 2 1%nat ++ length l :: replicate 1 1%nat ++ [].

Lemma cmd_vec_ok v s : vec_ok cmd_pieces v s ↔
  ∃ m l rest, wf_cmd m l ∧ s = cmd_line m l ++ rest ∧ v = cmd_vec m l.
Proof.
  unfold cmd_pieces. split.
  - rewrite vec_ok_cons. intros (m & v1 & s1 & -> & -> & Hm & H).
    apply vec_ok_lit in H as (v2 & s2 & -> & -> & H).
    apply vec_ok_cons in H as (l & v3 & s3 & -> & -> & Hl & H).
    apply vec_ok_lit in H as (v4 & s4 & -> & -> & ->%vec_ok_nil).
    exists m, l, s4. unfold cmd_line. rewrite <- !app_assoc. done.
  - intros (m & l & rest & (Hm & Hl) & -> & ->). unfold cmd_line. rewrite <- !app_assoc.
    apply vec_ok_cons; do 3 eexists; split; [reflexivity|]; split; [done|]; split; [done|].
    apply vec_ok_lit; do 2 eexists; split; [reflexivity|]; split; [done|].
    apply vec_ok_cons; do 3 eexists; split; [reflexivity|]; split; [done|]; split; [done|].
    apply vec_ok_lit; do 2 eexists; split; [reflexivity|]; split; [done|]. done.
Qed.

Lemma cmd_line_inj m l rest m' l' rest' : wf_cmd m l → wf_cmd m' l' →
  cmd_line m l ++ rest = cmd_line m' l' ++ rest' → m = m' ∧ l = l'.
Proof.
  intros [(_ & _ & Hm) (_ & _ & Hl)] [(_ & _ & Hm') (_ & _ & Hl')] Heq.
  unfold cmd_line in Heq. rewrite <- !app_assoc in Heq.
  apply (app_delim_inj _ _ _ _ _ _ _ Hm Hm') in Heq as (-> & _ & [= Heq]); [|done..].
  by apply (app_delim_inj _ _ _ _ _ _ _ Hl Hl') in Heq as (-> & _ & _).
Qed.

Lemma regexec_cmd s m l rest : cstr s = cmd_line m l ++ rest → wf_cmd m l →
  regexec (Regex true cmd_pieces) s =
  Some [(0, length (cmd_line m l)); (0, length m); (length m + 2, length m + 2 + length l)]%nat.
Proof.
  intros Hs Hwf. unfold regexec. cbn [re_anchored re_pieces]. rewrite Hs, (longest_matches _ _ (cmd_vec m l)).
  - cbn [fmap option_fmap option_map]. unfold cmd_vec, cmd_line, total. cbn. len. cbn. repeat (f_equal; try lia).
  - apply cmd_vec_ok. by exists m, l, rest.
  - intros v (m' & l' & rest' & Hwf' & Heq & ->)%cmd_vec_ok. by destruct (cmd_line_inj _ _ _ _ _ _ Hwf Hwf' Heq) as [-> ->].
Qed.

Lemma regexec_no_cmd s : (∀ m l rest, wf_cmd m l → cstr s ≠ cmd_line m l ++ rest) →
  regexec (Regex true cmd_pieces) s = None.
Proof.
  intros Hno. unfold regexec. cbn [re_anchored re_pieces].
  destruct (longest (matches cmd_pieces (cstr s))) as [v|] eqn:Hl; [|done]. exfalso.
  apply longest_spec in Hl as [(m & l & rest & Hwf & Heq & _)%matches_spec%cmd_vec_ok _]. by eapply Hno.
Qed.

(** Whether a text starts with a command. *)
Lemma cmd_decidable s : (∃ m l rest, wf_cmd m l ∧ s = cmd_line m l ++ rest) ∨
  (∀ m l rest, wf_cmd m l → s ≠ cmd_line m l ++ rest).
Proof.
  destruct (matches cmd_pieces s) as [|v vs] eqn:Hm.
  - right. intros m l rest Hwf ->. assert (cmd_vec m l ∈ matches cmd_pieces (cmd_line m l ++ rest)) as Hin.
    { apply matches_spec, cmd_vec_ok. by exists m, l, rest. }
    rewrite Hm in Hin. by apply elem_of_nil in Hin.
  - left. assert (v ∈ matches cmd_pieces s) as Hv by (rewrite Hm; left).
    apply matches_spec, cmd_vec_ok in Hv as (m & l & rest & Hwf & -> & _). by exists m, l, rest.
Qed.

(** ** Reading *)

Section reading.
Context {A : Type} (fd : nat) (P : bytes → A → world → Prop) (mu : world → nat).
Context (err : bytes → errno → Prop) `{!Reader fd P mu err}.

(** A read of nothing means that the input has [ended]. *)
Context (ended : Prop) (Hended : ∀ rest a w n w', P rest a w → (0 < n)%nat → sys_read fd n w = (w', Ok []) → ended).

Lemma read_bytes_spec rest a w buf n : P rest a w → 0 < n ≤ Z.of_nat (length buf) →
  wpt (read_bytes fd buf n) w (λ '(r, buf') w', ∃ d rest',
    rest = d ++ rest' ∧ Z.of_nat (length d) ≤ n ∧ P rest' a w' ∧ buf' = store buf 0 d ∧
    ((r = -1 ∧ Z.of_nat (length d) < n ∧ ∃ e, err rest' e) ∨
     (r = Z.of_nat (length d) ∧ (Z.of_nat (length d) = n ∨ rest' = [] ∧ ended)))).
Proof.
  intros HP Hn. unfold read_bytes.
  set (I := λ (st : Z * bytes) w1, ∃ d rest', rest = d ++ rest' ∧ st.1 = Z.of_nat (length d) ∧ st.1 < n ∧
    P rest' a w1 ∧ st.2 = store buf 0 d).
  apply (wpt_iter _ I (λ st _, Z.to_nat (n - st.1))).
  2: { exists [], rest. split_and!; try done; cbn; lia. }
  intros [total b] w1 (d & rest' & -> & Htot & Hlt & HP1 & Hb). cbn in Htot, Hlt, Hb. apply wpt_bind.
  destruct (sys_read fd (Z.to_nat (n - total)) w1) as [w2 r] eqn:Hr. eapply wpt_trigger; [cbn; by rewrite Hr|].
  assert (Hno : r = Ok [] → ended) by (intros ->; eapply Hended; [exact HP1| |exact Hr]; lia).
  apply (read_law _ _ _ _ _ _ HP1) in Hr; [|lia]. destruct r as [x|e].
  - destruct Hr as (r2 & -> & Hlen & Hnil & HP2 & _).
    assert (Hst : store b (Z.to_nat total) x = store buf 0 (d ++ x)) by (rewrite Hb, Htot, Nat2Z.id; apply store_store).
    rewrite Hst. assert (Hd : total + Z.of_nat (length x) = Z.of_nat (length (d ++ x))) by (rewrite length_app; lia).
    assert (Hle : Z.of_nat (length (d ++ x)) ≤ n) by (rewrite length_app in *; lia).
    rewrite Hd. destruct (Z.ltb_spec 0 (Z.of_nat (length x))), (Z.ltb_spec (Z.of_nat (length (d ++ x))) n); cbn [andb].
    1: { apply wpt_ret. split; [|cbn; rewrite length_app in *; lia]. exists (d ++ x), r2. by rewrite <- app_assoc. }
    all: apply wpt_ret; exists (d ++ x), r2; rewrite <- app_assoc; split_and!; try done; right; split; [done|].
    { left. lia. }
    all: right; destruct x; [split; [by specialize (Hnil eq_refl)|by apply Hno]|cbn in *; lia].
  - destruct Hr as (HP2 & _ & _ & Herr). apply wpt_ret. exists d, rest'. split_and!; try done; [lia|]. left. split_and!; [done|lia|eauto].
Qed.
End reading.

(** ** C strings in the buffer *)

Lemma cstr_then_nul d r : cstr (d ++ NUL :: r) = cstr d.
Proof.
  unfold cstr. induction d as [|c d IH]; cbn; [done|]. case_bool_decide; cbn; [done|].
  destruct (span _ (d ++ NUL :: r)), (span _ d). cbn in *. by rewrite IH.
Qed.

Lemma cstr_drop l k : (k ≤ length (cstr l))%nat → cstr (drop k l) = drop k (cstr l).
Proof.
  unfold cstr. revert k. induction l as [|c l IH]; intros [|k] Hk; cbn in *; try done.
  case_bool_decide; cbn in *; [lia|]. specialize (IH k).
  destruct (span _ l) as [a b]. cbn in *. apply IH. lia.
Qed.

(** What cmd_dump prints of the text [d]. *)
Definition dumped (d : bytes) (out : option bytes) : Prop :=
  (∃ m l tl, wf_cmd m l ∧ cstr d = cmd_line m l ++ tl ∧
     out = Some (B "Command: " ++ cstr d ++ [LF] ++ B "Location: " ++ l ++ [LF] ++ tl ++ [LF])) ∨
  ((∀ m l tl, wf_cmd m l → cstr d ≠ cmd_line m l ++ tl) ∧ out = Some (B "Command not parsed!" ++ [LF])).

Lemma dump_parsed d r size : dumped d match regexec (Regex true cmd_pieces) (d ++ NUL :: r) with
  | Some (_ :: _ :: (so, _) :: _) => cmd_dump (mkCommand (d ++ NUL :: r) size (PBuf 0) (PBuf so))
  | _ => cmd_dump (mkCommand (d ++ NUL :: r) size PNull PNull)
  end.
Proof.
  unfold dumped. destruct (cmd_decidable (cstr d)) as [(m & l & tl & Hwf & Hs)|Hno].
  - left. exists m, l, tl. split; [done|]. split; [done|].
    rewrite (regexec_cmd _ m l tl); [|by rewrite cstr_then_nul|done]. cbn [cmd_dump cmd_command cmd_location cmd_buf].
    rewrite drop_0, cstr_drop; rewrite cstr_then_nul; [|rewrite Hs; unfold cmd_line; len; cbn; lia].
    do 5 f_equal. rewrite Hs. unfold cmd_line. rewrite <- !app_assoc.
    rewrite (app_assoc m (B " /")), drop_app_length' by (len; cbn; lia). by rewrite <- !app_assoc.
  - right. split; [done|]. rewrite regexec_no_cmd; [done|]. by setoid_rewrite cstr_then_nul.
Qed.

(** ** The parser *)

Lemma sock_ended w fd c s q rest (a : unit) v n w' : w_fds w !! fd = Some (OSock c) → w_socks w !! c = Some s →
  v ≡ sock_in w c rest ∧ quiet q c v → (0 < n)%nat → sys_read fd n v = (w', Ok []) → sk_eof s = true.
Proof.
  intros Hfd Hs [Hv _] Hn Hr. destruct (equiv_sock v _ c (Sock rest (sk_eof s) (sk_out s) (sk_faults s)) Hv) as (s' & Hs' & [= _ <- _]).
  { unfold sock_in, upd_sock. cbn. by rewrite lookup_alter, decide_True, Hs by done. }
  unfold sys_read in Hr. rewrite (w_fds_proper _ _ Hv) in Hr. cbn in Hr. rewrite Hfd, Hs' in Hr.
  destruct (sock_read s' n) as [s2 r] eqn:Hsr. apply sock_read_law in Hsr as (_ & _ & Hpost); [|done].
  injection Hr as _ ->. by apply Hpost.
Qed.

(** What cmd_parse makes of the [n] that read_bytes returned, [d] being the text
    it read and [rest] what is left of the input. *)
Definition parse_result (quiet : Prop) (n : Z) (d rest : bytes) (r : parse_end) : Prop :=
  (r = OutOfBounds 65535 ↔ n = -1) ∧
  match r with
  | OutOfBounds i => i = 65535
  | AssertFailed => ¬ quiet
  | ParsedCmd cmd => n = Z.of_nat (length d) ∧ (n = CMD_BUFFER_SIZE ∨ rest = []) ∧ cmd_bufsize cmd = n ∧
      (if decide (d = []) then cmd_dump cmd = None else dumped d (cmd_dump cmd))
  end.

(** C31. cmd_parse and cmd_dump, on any input and with any failing calls: they
    return; they have consumed a prefix [d] of the input, at most 4096 bytes.
    When the reads succeed it is all there is up to that size, and what is
    printed is the text up to its first NUL as the command and everything
    behind the slash as the location if the text starts with letters, a blank,
    a slash, location characters and a newline, and a complaint if it does not;
    except that on empty input unset pointers are looked at.  But exactly when
    read_bytes reports a failed read, its -1 becomes the buffer size 65535 and
    the terminator is stored at buf[65535], far outside the 4097 bytes of the
    buffer; with no other failing call that is exactly when the input pauses
    before its end and before 4096 bytes have come. *)
Theorem cmd_parse_spec fd c w s garbage : w_fds w !! fd = Some (OSock c) → w_socks w !! c = Some s →
  length garbage = 4097%nat →
  wpt (cmd_parse (fresh_command garbage) fd) w (λ r w', ∃ n buf w1 d rest,
    evals (read_bytes fd garbage CMD_BUFFER_SIZE) w (n, buf) w1 ∧
    sk_in s = d ++ rest ∧ w' ≡ sock_in w c rest ∧ Z.of_nat (length d) ≤ CMD_BUFFER_SIZE ∧
    (calm c w → n = -1 ↔ sk_eof s = false ∧ Z.of_nat (length (sk_in s)) < CMD_BUFFER_SIZE) ∧
    parse_result (calm c w) n d rest r).
Proof.
  intros Hfd Hs Hg. unfold cmd_parse. apply wpt_bind. pose proof (sock_in_view w fd c s Hfd Hs) as Hview.
  destruct (read_bytes_spec fd _ (fault_count c) (read_error (calm c w) (sk_eof s)) (sk_eof s = true)
    (λ rest a v n w' H, sock_ended w fd c s (calm c w) rest a v n w' Hfd Hs H) (sk_in s) () w garbage CMD_BUFFER_SIZE)
    as ([n buf] & w1 & Hev & d & rest & Hd & Hle & [Hw1 Hq1] & -> & Hr).
  { rewrite sock_in_id by done. split; [done|]. apply quiet_self. }
  { rewrite Hg. unfold CMD_BUFFER_SIZE. lia. }
  eexists _, w1. split; [exact Hev|]. cbn [cmd_command cmd_location fresh_command].
  assert (Hpause : calm c w → n = -1 ↔ sk_eof s = false ∧ Z.of_nat (length (sk_in s)) < CMD_BUFFER_SIZE).
  { intros Hc. rewrite Hd, length_app. destruct Hr as [(-> & Hlt & e & He)|(-> & Hall)].
    - destruct (He Hc) as (-> & ? & _). split; [split; [done|]|done]. cbn. lia.
    - split; [lia|]. intros [Heof Hlt]. destruct Hall as [Hall|[_ Hall]]; [lia|congruence]. }
  eapply (wpt_conseq _ _ (λ r w', w' ≡ sock_in w c rest ∧ parse_result (calm c w) n d rest r));
    [|intros r w' [Hw' H]; exists n, (store garbage 0 d), w1, d, rest; by split_and!].
  clear Hpause Hev. unfold parse_result, CMD_BUFFER_SIZE in *. destruct Hr as [(-> & _)|(-> & Hall)].
  { by apply wpt_ret. }
  assert (Hall' : Z.of_nat (length d) = 4096 ∨ rest = []) by naive_solver.
  rewrite Z.mod_small by lia. destruct (Z.ltb_spec 0 (Z.of_nat (length d))) as [Hpos|Hz].
  2: { destruct d; [|cbn in Hz; lia]. by apply wpt_ret. }
  destruct (Z.ltb_spec 4096 (Z.of_nat (length d))); [lia|].
  rewrite Nat2Z.id, store_store. set (r := drop (S (length d)) garbage).
  assert (store garbage 0 (d ++ [NUL]) = d ++ NUL :: r) as ->.
  { unfold store, r. rewrite take_0, length_app, <- app_assoc, Nat.add_0_l. cbn. by rewrite Nat.add_1_r. }
  apply wpt_bind. apply (wpt_compile _ _ (calm c w) c); [done|]. intros w2 Hw2 _. rewrite regcomp_cmd.
  assert (Hw2' : w2 ≡ sock_in w c rest) by (by rewrite Hw2).
  split; [|intros Hn; apply wpt_ret; split; [done|]; split; [split; [done|lia]|done]].
  pose proof (dump_parsed d r (Z.of_nat (length d))) as Hdump.
  assert (Hne : d ≠ []) by (by intros ->). revert Hdump.
  destruct (regexec (Regex true cmd_pieces) (d ++ NUL :: r)) as [[|[? ?] [|[? ?] [|[so ?] ?]]]|];
    intros Hdump; apply wpt_ret; (split; [done|]); (split; [split; [done|lia]|]); rewrite decide_False by done; by split_and!.
Qed.

(** A command on stdin, in pieces; the pattern allows more than letters. *)
Definition demo_cmd : world := demo_world (B "_GET /a.txt" ++ [LF] ++ B "x") [FShort 3] [].

(** The same from a sender who says no more but keeps the connection open. *)
Definition demo_pause : world :=
  set_socks {[0%nat := Sock (B "_GET /a.txt" ++ [LF] ++ B "x") false [] [FShort 3]]} demo_cmd.

Lemma cmd_parse_spec_witness :
  wpt (cmd_parse (fresh_command (replicate 4097 "x"%char)) 5) demo_cmd (λ r _, ∃ cmd, r = ParsedCmd cmd ∧
    cmd_dump cmd = Some (B "Command: _GET /a.txt" ++ [LF] ++ B "x" ++ [LF] ++ B "Location: a.txt" ++ [LF] ++ B "x" ++ [LF])) ∧
  wpt (cmd_parse (fresh_command (replicate 4097 "x"%char)) 5) demo_pause (λ r _, r = OutOfBounds 65535).
Proof.
  split; [|eapply wpt_conseq].
  2: { apply (cmd_parse_spec 5 0 demo_pause (Sock (B "_GET /a.txt" ++ [LF] ++ B "x") false [] [FShort 3]) (replicate 4097 "x"%char));
         [reflexivity|reflexivity|apply length_replicate]. }
  2: { intros r w' (n & buf & w1 & d & rest & _ & _ & _ & _ & Hpause & Hiff & _). apply Hiff, Hpause; [|by vm_compute].
       split; [done|]. intros s [= <-]. by repeat constructor. }
  eapply wpt_conseq.
  - apply (cmd_parse_spec 5 0 demo_cmd (Sock (B "_GET /a.txt" ++ [LF] ++ B "x") true [] [FShort 3]) (replicate 4097 "x"%char)).
    + reflexivity.
    + reflexivity.
    + apply length_replicate.
  - intros r w' (n & buf & w1 & d & rest & _ & Hd & _ & _ & Hpause & Hiff & Hr).
    assert (Hcalm : calm 0 demo_cmd) by (by apply demo_calm; repeat constructor).
    destruct r as [cmd|i|]; [|exfalso|by destruct Hr].
    2: { subst i. by destruct (proj1 (Hpause Hcalm) (proj1 Hiff eq_refl)). }
    exists cmd. split; [done|]. destruct Hr as (-> & Hall & _ & Hr). cbn [sk_in] in Hd.
    assert (rest = []) as ->.
    { destruct Hall as [Hall|]; [|done]. exfalso. apply (f_equal length) in Hd. rewrite (length_app d) in Hd.
      change (13 = length d + length rest)%nat in Hd. unfold CMD_BUFFER_SIZE in Hall. lia. }
    rewrite app_nil_r in Hd. subst d. rewrite decide_False in Hr by done.
    assert (Hwf : wf_cmd (B "_GET") (B "a.txt")) by (apply (bool_decide_unpack _); vm_compute; exact I).
    destruct Hr as [(m & l & tl & Hwf' & Heq & ->)|[Hno _]].
    + assert (Heq' : cmd_line (B "_GET") (B "a.txt") ++ B "x" = cmd_line m l ++ tl) by (rewrite <- Heq; vm_compute; reflexivity).
      destruct (cmd_line_inj _ _ _ _ _ _ Hwf Hwf' Heq') as [<- <-]. apply app_inv_head in Heq' as <-. vm_compute. reflexivity.
    + by destruct (Hno (B "_GET") (B "a.txt") (B "x") Hwf).
Defined.
