(* ===== verification/Explore.v ===== *)
(** * Programs with finitely many runs

    A checker that runs every interleaving of a closed process and tests every
    state of it, with the proof that its verdict holds: the process ends on
    every run, and all its reachable states pass.  It decides the small programs
    by computation. *)
From S2P Require Import Prelude Prog Pools PoolsTerm.

Section explore.
Context {E : Type → Type} {W L : Type} `{K : !Kernel E W} `{Lb : !Labelled E L}.
Implicit Types p q : pool E W L.

(** The state after a step of thread [i], if it can move. *)
Definition step_at (i : nat) p : option (pool E W L) :=
  match pool_threads p !! i with
  | Some t =>
      match step_thread t (pool_world p) with
      | Some (t', w') =>
          Some (Pool (<[i := t']> (pool_threads p)) w'
                  (pool_trace p ++ map (pair i) (step_label t (pool_world p))))
      | None => None
      end
  | None => None
  end.

(** All runs from [p] end within [n] steps, in states that pass [good] like all
    before them. *)
Fixpoint explore (n : nat) (good : pool E W L → bool) (p : pool E W L) : bool :=
  good p &&
  match n with
  | O => stuck p
  | S n => forallb (λ i, match step_at i p with Some q => explore n good q | None => true end)
             (seq 0 (length (pool_threads p)))
  end.

Lemma pool_step_at p q : pool_step p q → ∃ i, (i < length (pool_threads p))%nat ∧ step_at i p = Some q.
Proof.
  intros Hs. inversion Hs as [i ts t t' w w' tr Hi Ht]; subst. exists i.
  split; [by eapply lookup_lt_Some|]. unfold step_at. cbn. by rewrite Hi, Ht.
Qed.

Lemma explore_step n good p q : explore n good p = true → pool_step p q →
  ∃ m, n = S m ∧ explore m good q = true.
Proof.
  intros He Hs. destruct n as [|n]; cbn in He; apply andb_prop in He as [_ He].
  - inversion Hs as [i ts t t' w w' tr Hi Ht]; subst.
    pose proof (stuck_thread _ _ _ He Hi) as Hn. cbn in Hn. congruence.
  - exists n. split; [done|]. apply pool_step_at in Hs as (i & Hi & Hq).
    rewrite forallb_forall in He. specialize (He i). rewrite Hq in He. apply He, in_seq. lia.
Qed.

Lemma explore_good n good p : explore n good p = true → good p = true.
Proof. destruct n; cbn; by intros [? _]%andb_prop. Qed.

(** The checker is right. *)
Lemma explore_sound n good p : explore n good p = true →
  sn pool_step p ∧ ∀ q, reachable p q → good q = true.
Proof.
  intros He. split.
  - revert p He. induction n as [|n IH]; intros p He; constructor; intros q Hs;
      destruct (explore_step _ _ _ _ He Hs) as (m & [= <-] & Hm). by apply IH.
  - intros q Hr. revert n He. induction Hr as [p|p p1 q Hs _ IH]; intros n He; [by eapply explore_good|].
    destruct (explore_step _ _ _ _ He Hs) as (m & -> & Hm). by eapply IH.
Qed.
End explore.
