(* ===== verification/Threads.v ===== *)
(** * Two threads (practica/pthreads/using_threads/using_thread.c)

    main creates two threads, prints, joins both and prints what they returned.
    The process is closed and has finitely many interleavings, which Explore.v's
    checker goes through.  A line written by fprintf is one event;
    pthread_create is taken to succeed. *)
From S2P Require Import Prelude Libc Prog Pools PoolsTerm Explore.
Local Open Scope Z_scope.
Local Open Scope prog_scope.

Record uworld := UW {
  u_created : list Z;          (* the threads that were created, by their argument *)
  u_returned : list (Z * Z);   (* the threads that have returned, and what *)
  u_stderr : list bytes;       (* the lines written, oldest first *)
  u_stdout : list bytes
}.

Variant useE : Type → Type :=
  | UtCreate (arg : Z) : useE unit           (* pthread_create(.., thread, arg) *)
  | UtBegin (arg : Z) : useE unit
  | UtReturn (arg rc : Z) : useE unit
  | UtJoin (arg : Z) : useE Z
  | UtErr (line : bytes) : useE unit         (* fprintf(stderr, ..) *)
  | UtOut (line : bytes) : useE unit.        (* printf *)

#[export] Instance use_kernel : Kernel useE uworld := λ X e w,
  match e in useE X return option (uworld * X) with
  | UtCreate arg => Some (UW (u_created w ++ [arg]) (u_returned w) (u_stderr w) (u_stdout w), tt)
  | UtBegin arg => if decide (arg ∈ u_created w) then Some (w, tt) else None
  | UtReturn arg rc => Some (UW (u_created w) ((arg, rc) :: u_returned w) (u_stderr w) (u_stdout w), tt)
  | UtJoin arg =>
      match filter (λ x, x.1 = arg) (u_returned w) with
      | (_, rc) :: _ => Some (w, rc)
      | [] => None
      end
  | UtErr line => Some (UW (u_created w) (u_returned w) (u_stderr w ++ [line]) (u_stdout w), tt)
  | UtOut line => Some (UW (u_created w) (u_returned w) (u_stderr w) (u_stdout w ++ [line]), tt)
  end.

#[export] Instance use_labelled : Labelled useE unit := λ X e _, [].

(** ** The program *)

Definition thread_line (id : Z) : bytes := B "I am thread " ++ dec id ++ B "!" ++ [LF].
Definition main_line : bytes := B "I am main" ++ [LF].
Definition result_line (rc1 rc2 : Z) : bytes :=
  B "thread1 returned " ++ dec rc1 ++ B "; thread 2 returned " ++ dec rc2 ++ [LF].

Definition printing_thread (args : Z) : itree useE Z :=
  let threadid := args in
  do! ! (UtErr (thread_line threadid)) in
  Ret args.

(** The thread that pthread_create starts. *)
Definition printing_thread_at (args : Z) : itree useE unit :=
  do! ! (UtBegin args) in
  let! rc := printing_thread args in
  ! (UtReturn args rc).

Definition using_main : itree useE unit :=
  do! ! (UtCreate 1) in
  do! ! (UtCreate 2) in
  do! ! (UtErr main_line) in
  let! rc1 := ! (UtJoin 1) in
  let! rc2 := ! (UtJoin 2) in
  ! (UtOut (result_line rc1 rc2)).

Definition using_process : pool useE uworld unit :=
  Pool [using_main; printing_thread_at 1; printing_thread_at 2] (UW [] [] [] []) [].

(** ** The property *)

Definition lines_written : list bytes := [main_line; thread_line 1; thread_line 2].

(** The result comes on stdout last, after the three lines on stderr. *)
Definition printed_well (p : pool useE uworld unit) : bool :=
  let w := pool_world p in
  bool_decide (u_stdout w = [] ∨ u_stdout w = [result_line 1 2] ∧ u_stderr w ≡ₚ lines_written) &&
  (negb (stuck p) || bool_decide (u_stdout w = [result_line 1 2])).

(** Schedules by which the lines come out in each of their orders: who writes
    first, second and third, then main to its end. *)
Definition writing_order (first second third : list nat) : list nat :=
  [0; 0]%nat ++ first ++ second ++ third ++ replicate 3 0%nat ++ replicate 2 1%nat ++ replicate 2 2%nat ++ replicate 3 0%nat.
Definition writing_orders : list (list nat) :=
  let m := [0%nat] in let t1 := [1; 1]%nat in let t2 := [2; 2]%nat in
  [ writing_order m t1 t2; writing_order m t2 t1; writing_order t1 m t2;
    writing_order t1 t2 m; writing_order t2 m t1; writing_order t2 t1 m ].

Definition ends_with (l : list bytes) (p : pool useE uworld unit) : bool :=
  stuck p && bool_decide (u_stderr (pool_world p) = l).

(** C35. using_thread.c.  Every interleaving of main and its two threads ends;
    main only ever prints the values 1 and 2 that the threads return, after all
    three lines are on stderr, and it has printed them when the process ends;
    and the three lines come out in each of their six orders in some
    interleaving. *)
Theorem using_thread_prints : sn pool_step using_process ∧
  (∀ q, reachable using_process q → let w := pool_world q in
     (u_stdout w = [] ∨ u_stdout w = [result_line 1 2] ∧ u_stderr w ≡ₚ lines_written) ∧
     (stuck q = true → u_stdout w = [result_line 1 2])) ∧
  (∀ l, l ≡ₚ lines_written → ∃ q, reachable using_process q ∧ stuck q = true ∧ u_stderr (pool_world q) = l).
Proof.
  destruct (explore_sound 20 printed_well using_process) as [Hsn Hall]; [vm_compute; reflexivity|].
  split; [done|]. split.
  - intros q Hr. specialize (Hall q Hr). apply andb_prop in Hall as [H1%bool_decide_eq_true H2]. split; [done|].
    intros Hst. rewrite Hst in H2. by apply bool_decide_eq_true in H2.
  - intros l Hl. apply Permutation_sym, permutations_Permutation, list_elem_of_In in Hl.
    assert (Hsome : forallb (λ l, existsb (λ s, ends_with l (schedule s using_process)) writing_orders)
      (permutations lines_written) = true) by (vm_compute; reflexivity).
    rewrite forallb_forall in Hsome. specialize (Hsome l Hl). apply existsb_exists in Hsome as (s & _ & Hs).
    apply andb_prop in Hs as [Hst Ho%bool_decide_eq_true].
    exists (schedule s using_process). split; [apply schedule_reachable|done].
Qed.
