(* ===== verification/Usage.v ===== *)
(** * Programs that print their usage (practica/file_io/dump_file.c and the main
    of practica/regex/memory_parsing.c)

    What the two mains write to stdout, and their status.  dump_file has its
    command line and not its body; memory_parsing returns before it calls the
    functions of MemParse.v. *)
From S2P Require Import Prelude.
Local Open Scope Z_scope.

Definition line (s : string) : bytes := B s ++ [LF].
Definition TAB : byte := Ascii.ascii_of_nat 9.

(** ** dump_file.c *)

Definition dump_print_usage (exec : bytes) : bytes :=
  B "usage: " ++ exec ++ B " filename" ++ [LF; LF] ++
  line "Writes the contents of filename to stdout." ++
  line "If there is no file named filename, prints 'Invalid" ++
  line "filename\n' to stderr and exits." ++ [LF] ++
  line "Note: this differs from your memory in a few key ways:" ++
  line "(1) dump_file takes the filename through a command line" ++
  line "    argument whereas memory takes all input through stdin" ++
  line "(2) dump_file only supports 'gets' of a file whereas memory" ++
  line "    supports both getting and setting a file's contents".

(** stdout and the status; argv has at least the program's name. *)
Definition dump_main (argv : list bytes) : bytes * Z :=
  match argv with
  | exec :: filename :: _ => ([], 0)
  | exec :: _ => (dump_print_usage exec, 1)
  | [] => (dump_print_usage [], 1)
  end.

(** ** memory_parsing.c *)

Definition memory_print_usage (exec : bytes) : bytes :=
  B "usage: " ++ exec ++ [LF; LF] ++
  line "Parses a get/set command header that were passed to stdin" ++
  line "The format for valid a command is:" ++
  [TAB] ++ B "[method] [location]\n" ++ [LF] ++
  line "where:" ++
  [TAB] ++ line "[method] has between 1 and 8 characters in the range [a-zA-Z]" ++
  [TAB] ++ B "[location] starts with '/' and includes up to 64 characters " ++
  line "in the set [a-zA-Z0-9._]".

Definition memory_main (argv : list bytes) : bytes * Z :=
  (memory_print_usage (default [] (head argv)), 0).

(** The skeletons do none of the work their usage announces: neither depends on
    anything but the program's name, and dump_file given a file writes nothing. *)
Lemma skeletons_idle exec filename argv argv' :
  dump_main (exec :: filename :: argv) = ([], 0) ∧ memory_main (exec :: argv) = memory_main (exec :: argv').
Proof. done. Qed.
